(* ===== verification/_CoqProject ===== *)
-Q . S2P
Prelude.v
Casts.v
Endian.v
StringPiece.v
Buffer.v
Atomic.v
Timestamp.v
Date.v
TimerQueue.v
Channel.v
EPollPoller.v
PollPoller.v
Pollers.v
EventLoop.v
Loop.v
TcpConnection.v
Text.v
EventLoopThread.v
EventLoopThreadPool.v
SocketsOps.v
Acceptor.v
TcpServer.v
System.v
Shutdown.v
Ownership.v
Descriptors.v
Teardown.v
BlockingQueue.v
Singleton.v
ThreadLocal.v
LogStream.v
