(* ===== verification/Prelude.v ===== *)
(** * MyMuduoNet: a verification development

    MyMuduoNet is a copy of the muduo network library: one event loop per
    thread, non-blocking sockets, callbacks.  This development models the
    code that is in the repository and proves what makes it correct.

    ** The program and the files

    The base of the library, in [src/include/muduo/base/]:
    - [Casts]: the casts of Types.h and of net/Callbacks.h.
    - [StringPiece]: StringPiece.h, a pointer and an [int] length.
    - [Atomic]: Atomic.h, the [__sync] counters.
    - [Timestamp]: Timestamp.h, 64-bit microseconds and [double] intervals.
      [Date]: the inline members of Date.h.
    - [LogStream]: LogStream.h and the parts of Logging.h with a body.
    - [BlockingQueue]: BlockingQueue.h and BoundedBlockingQueue.h, over the
      mutex and condition variable of Mutex.h and Condition.h.
    - [Singleton]: Singleton.h; [ThreadLocal]: ThreadLocal.h and
      ThreadLocalSingleton.h.

    The network part, in [src/include/muduo/net/] and [src/mymuduo_net/]:
    - [Endian]: Endian.h.  [Buffer]: Buffer.h and Buffer.c++.  [Text]: what
      the sources use of the C library to format names and addresses.
    - [TimerQueue]: Timer, TimerId and TimerQueue, and the timer calls of
      EventLoop.c++ ([runAt], [runAfter], [runEvery], [cancel]).
    - [Channel]: Channel, and Poller as the class [Poller] of its virtual
      functions with the contract [PollerSpec].  [EPollPoller] and
      [PollPoller] are the two instances; [Pollers] holds DefaultPoller.c++,
      the abstract registry of channels and the refinement proofs.
    - [EventLoop]: EventLoop.c++, in three Modules.  [EventLoop] is the
      cross-thread part (functor queue, eventfd, [quit]); [Reactor] is what a
      turn does with the active channels; [Lifetime] is construction and
      destruction, with those of TimerQueue.
    - [Loop]: one whole loop, its channels, poller, timers, functor queue
      and the other threads composed, from the constructor on.
    - [EventLoopThread], [EventLoopThreadPool]: the files of these names.
    - [SocketsOps]: SocketsOps, Socket and InetAddress.  [Acceptor]: Acceptor.
    - [TcpConnection]: TcpConnection.  [TcpServer]: TcpServer.
    - [System]: TcpServer, its TcpConnections and the loops put together.
      [Ownership]: the same with connections as objects that shared pointers
      keep alive, the one functor queue of each loop
      ([EventLoop::doPendingFunctors]) and WeakCallback.h.  [Descriptors]:
      the acceptor and the table of descriptors in front of [Ownership].
      [Shutdown]: [~TcpServer] in [System].  [Teardown]: [~TcpServer] in
      [Ownership].

    ** How the parts interact

    A loop asks its poller for the active channels and calls
    [Channel::handleEvent] on each; a channel's callbacks belong to a
    connection, the acceptor, the timer queue or the loop's own eventfd.  The
    acceptor hands a new descriptor to [TcpServer::newConnection], which
    picks a loop of the pool and queues [connectEstablished] there; a
    connection that closes calls [TcpServer::removeConnection], which goes
    through the queue of the server's loop and back to the connection's loop
    for [connectDestroyed].  The clients of a poller are proved against
    [PollerSpec], never against one of the two pollers, and the theorems
    about whole systems ([Descriptors.descriptors_accounted],
    [Ownership.connections_outlive], [Teardown.connections_released],
    [Shutdown.server_closes], [System.server_works], [Loop.loop_sound],
    [EventLoop.loop_lifetime]) apply the contracts of their parts.

    ** How the code is represented

    A call is a computation of the state-and-fault monad [M] below, over the
    Record of its object: it returns with a new state or ends in a [fault].
    The build does not define NDEBUG, so [assert] is a check.  LOG_FATAL,
    LOG_SYSFATAL, [abort] and [assertInLoopThread] out of the loop's thread
    are [Aborted], an exception of the library [Thrown], undefined behaviour
    [Undefined].  [wp] is the logic for calls that return, [wpe] the one for
    calls that may end in a fault the statement allows (a descriptor the
    kernel refuses, for instance).  Integers are [Z] with their width written
    out ([u64], [s32], ...).  Objects that are shared are addresses in a
    store: the channels of a loop ([World]), the timers of a queue.  Code in
    several threads is a transition system; a step is one statement or one
    critical section of one thread, and it is a function of the scheduler's
    choice, so that a run is a list of choices that can be evaluated.

    What is not in the repository is a parameter: the system calls (epoll,
    poll, the sockets, readv, the descriptor table, eventfd and timerfd, the
    clock), [operator new] (an address no live object has) and the user's
    callbacks, which are programs of calls back into the library chosen from
    its state.  Their documented behaviour is a class of laws ([EpollLaws],
    [PollLaws], [SocketLaws], [FdLaws], ...), each with a concrete instance
    that the witnesses run.

    ** What the theorems show

    - The whole server: [System.server_works]; no assertion fails in any
      allowed order of accepts, polls, functors, delayed closes, user calls
      and steps of calls from other threads, and the phase the server has a
      connection in, its state, its registration and its byte stream always
      agree.  [Ownership.connections_outlive]: when the functors of a loop
      run in order and users keep to their contract (below), no deleted
      connection is used, each is deleted when its last pointer goes, and
      only then is its descriptor free, which no poller has any more.
      [Descriptors.descriptors_accounted]: with the acceptor and the kernel's
      table, the open descriptors are at every moment the listening socket,
      the spare one, and one for each connection that is not deleted.
      [Shutdown.server_closes]: after [~TcpServer] the loops drain what it
      queued, and then every connection is disconnected and out of its
      poller; [Teardown.connections_released]: each is deleted when its last
      pointer goes, and not used afterwards.
    - A connection: [connection_lifecycle] and [stream_integrity] for all
      runs, [send_exact] and [handleWrite_exact] for a call.
    - One loop: [loop_sound]; with all its parts and any other threads no
      assertion fails, nothing that waits is slept through (a timer added by
      another thread goes through the functor queue to the timerfd) but what
      the own thread queued before [loop()], and a report of the eventfd
      resets it; [functors_run]: every functor has its turn.
      ([iterate_by_steps], a lemma: the steps are those of the body of
      [loop()].)
    - Parts of the loop: [no_lost_wakeup], [functors_fifo] and [quit_stops]
      across threads, one statement at a time; [removeChannel_guarded] and
      [turn_safe] for the channels; [loop_lifetime].
    - The pollers: [epoll_refines] and [poll_refines] against one registry;
      [handleEvent_dispatch].
    - Timers: [queue_sound] (two indexes of one set, timerfd armed in time),
      [cancelled_never_collected], [firing_undefined] (every firing of the
      timerfd deletes a [Timer] that does not exist) and [firing_exact] (the
      two parts of a firing around that).
    - The server's bookkeeping: [server_lifecycle];
      [Acceptor.handleRead_outcome]; [round_robin]; [startLoop_correct].
    - Data: [buffer_refines_queue] with [append_exact], [shrink_exact],
      [find_first], [readFd_exact], [integers_roundtrip]; the order of
      StringPieces; addresses, the bounds of log streams.
    - Threads: [queue_fifo], [no_deadlock], [mutex_checks], [instance_once],
      [thread_objects].  Types: [casts_well_typed].

    ** Bounds

    No definition takes fuel: loops run over lists that the code fixes before
    the loop ([for_each]), over the bytes of a buffer, or over the steps of a
    run, which is an argument of the theorem.  Termination that depends on a
    schedule is a measure ([startLoop_correct]), a well-founded relation
    ([functors_run]) or a progress property ([no_deadlock],
    [instance_once]).  A Buffer may hold at most what
    [std::vector<char>] can, and [size_t] arithmetic wraps at 2^64.  Signed
    overflow of a counter is [Undefined]: the theorems on timers allow that
    fault (the 2^63rd timer), those on the server assume fewer than 2^31 - 1
    connections.

    ** What the theorems ask of users and kernel

    The predicates [allowed] of [TcpConnection], [System], [Ownership],
    [Shutdown] and [Teardown] say which steps a run may take, from the state
    it is in; the examples named in brackets are runs outside of them that
    fail.
    - A poll reports each channel once, only channels with an interest
      ([stopRead_forceClose_asserts]), and no read event along with a hang-up
      without readable data.  Accepted descriptors are free.
    - A connection is called when it is established, with messages below
      2^31 bytes; reading is started and stopped on open connections only,
      when the call is made in the loop's thread and when a queued one runs
      ([startRead_after_close_asserts]).
    - No close comes between the test and the setting of [state_] by a
      [shutdown] or [forceClose] in another thread
      ([forceClose_race_closes_twice]); between the test and the queueing of
      a call anything may come.
    - A user holds a pointer throughout a call, and does not drop its last
      one while a functor of its call that holds a bare [this] stands behind
      [connectDestroyed] ([send_uses_deleted], [startRead_uses_deleted]).
    - [~TcpServer] runs when no connection is in [kDisconnecting]
      ([destroy_while_disconnecting_asserts]), no close callback is on its
      way ([close_races_destructor]) and no functor with a bare [this] of a
      connection without users is in its own loop
      ([destructor_leaves_bare]); after it no connection closes, none is in
      [kDisconnecting] after any step ([shutdown_after_destructor]).

    ** Assumptions about what is not in the repository

    - Logging.c++ is missing.  LOG_FATAL and LOG_SYSFATAL end the process,
      as their comments say; log output has no other effect and leaves
      [errno] alone.
    - The addresses of channels are not reused in a store: [delete] of a
      channel after its [remove] is not modelled, since the address says
      which channel a poller or a callback means.
    - [Channel::tie] is declared, used and not defined: it is a parameter
      that changes nothing of the model's state.

    ** Not modelled

    - Bodies not in the repository: Logger, Thread, ThreadPool,
      CountDownLatch, CurrentThread, TimeZone, the conversions of Date,
      AsyncLogging, LogFile, FileUtil, ProcessInfo, Exception,
      Timestamp::now and toString, number formatting of LogStream,
      waitForSeconds.  What inline members these classes have reads or sets
      one of their fields ([CurrentThread::tid] around the missing cacheTid).
    - copyable.h and noncopyable.h (empty classes), the test programs
      (empty) and the build output.
    - [System] runs the functors of different owners in any order, which
      includes the order of the queue; [Ownership] has the queue, and lets
      the functors of a batch go one by one where the code frees the batch at
      its end.  The temporary pointers of [shared_from_this()] in a handler
      are covered by deleting nothing before the step ends.
    - [Buffer::internalCapacity] ([vector::capacity] is not fixed by the
      language).
    - Runs of [TimerQueue] and [Loop] end with the first firing of the
      timerfd, which is undefined; what the code does behind the end of the
      sentry is [TimerQueue.run_expired], for [firing_exact].  A delayed
      [forceClose] of a connection is a step of [TcpConnection], [System],
      [Ownership] and [Teardown] all the same: their theorems hold with and
      without such steps.
    - In [Loop] the user's channels keep to the rules [Loop.allowed] and
      [Loop.constructible].
    - In [System] the acceptor, the eventfd and the timerfd are other
      channels of a loop; [Loop] has the last two, for a loop whose other
      callbacks are any user code, but is not put under [System].
      [Descriptors] adds the acceptor's [handleRead] and the spare
      descriptor to a running server; the acceptor's [listen] and
      destructor are in [Acceptor], and the channel of the acceptor stays
      outside the stores of the connections' channels.
    - After [~TcpServer] ([Shutdown], [Teardown]) the channels are handled
      one at a time, without the poll that reports them, and the descriptors
      of deleted connections are not followed.

    ** Found on the way

    Behaviour the code shows in corners, each a proved example or theorem in
    the file named: every firing of the timerfd deletes a [Timer] at an
    address without one (TimerQueue); [~TcpServer] with a connection that is
    shutting down fails an assertion, [forceClose] and [shutdown] race with a
    close, [startRead] and [stopRead] ignore the state (TcpConnection); a
    [send] from another thread that is overtaken by the close of the
    connection, and a late [startRead], run on a deleted connection when the
    caller lets go of it (Ownership), and so does a [send] around
    [~TcpServer] (Teardown); a [shutdown] after [~TcpServer] fails an
    assertion (Shutdown); [updateChannel] of an ignored channel and the index
    of a removed one (Pollers); a [quit] or a functor before [loop], and a
    functor queued after the last batch of a loop that quits, which never
    runs (EventLoop); two races of [startLoop] (EventLoopThread); a close
    callback under way when the server dies (TcpServer); [shrink] beyond 2 GiB
    (Buffer); the move constructor of Socket, which nobody uses, closes a
    descriptor twice (Acceptor); in the VALGRIND build every error of
    accept(2) is fatal (SocketsOps); the objects of threads that are running
    when a ThreadLocal goes are never deleted (ThreadLocal). *)
From Stdlib Require Export ZArith Lia.
From Stdlib Require Export Strings.Byte.
From Stdlib Require Import Sorting.Sorted.
From stdpp Require Export base list gmap strings numbers.

#[global] Open Scope Z_scope.

Declare Scope muduo_scope.
Delimit Scope muduo_scope with muduo.
#[global] Open Scope muduo_scope.

(** ** Faults and the state-and-fault monad *)

(** The ways a call can end other than by returning: a failed [assert] (the
    build does not define NDEBUG), a [LOG_FATAL]/[LOG_SYSFATAL] or [abort()],
    an exception of the standard library ([std::length_error],
    [std::bad_alloc]), and undefined
    behaviour of the language. *)
Inductive fault : Type :=
| AssertFailed
| Aborted
| Thrown
| Undefined.

#[export] Instance fault_eq_dec : EqDecision fault.
Proof. solve_decision. Defined.

Inductive result (A : Type) : Type :=
| Ok (a : A)
| Err (e : fault).
Arguments Ok {A} a.
Arguments Err {A} e.

(** A computation over an object (or a group of objects) of type [S]. *)
Definition M (S A : Type) : Type := S -> result (A * S).

Definition ret {S A} (a : A) : M S A := fun s => Ok (a, s).

Definition bind {S A B} (m : M S A) (k : A -> M S B) : M S B :=
  fun s => match m s with
           | Ok (a, s') => k a s'
           | Err e => Err e
           end.

Definition throw {S A} (e : fault) : M S A := fun _ => Err e.
Definition get {S} : M S S := fun s => Ok (s, s).
Definition gets {S A} (f : S -> A) : M S A := fun s => Ok (f s, s).
Definition put {S} (s : S) : M S unit := fun _ => Ok (tt, s).
Definition modify {S} (f : S -> S) : M S unit := fun s => Ok (tt, f s).

(** [assert(b)] *)
Definition assert_ {S} (b : bool) : M S unit :=
  if b then ret tt else throw AssertFailed.

(** A pure computation that may fail, inside the monad. *)
Definition lift {S A} (r : result A) : M S A :=
  fun s => match r with Ok a => Ok (a, s) | Err e => Err e end.

Definition when {S} (b : bool) (m : M S unit) : M S unit :=
  if b then m else ret tt.

(** Run a computation on a part of the state. *)
Definition zoom {S T A} (g : S -> T) (p : T -> S -> S) (m : M T A) : M S A :=
  fun s => match m (g s) with
           | Ok (a, t) => Ok (a, p t s)
           | Err e => Err e
           end.

Notation "'let*' x := c 'in' k" := (bind c (fun x => k))
  (at level 10, x binder, c at level 100, k at level 200) : muduo_scope.
Notation "c ';;;' k" := (bind c (fun _ => k))
  (at level 100, k at level 200, right associativity) : muduo_scope.

(** A loop over a list, in order. *)
Fixpoint for_each {S A} (f : A -> M S unit) (l : list A) : M S unit :=
  match l with
  | [] => ret tt
  | a :: l => f a ;;; for_each f l
  end.

(** ** Weakest preconditions

    [wpe E m Q s]: run from [s], [m] either returns and its result and final
    state satisfy [Q], or ends in a fault that satisfies [E].  [wp] allows no
    fault (total correctness), [wlp] any fault, [wpx] every fault but a
    failed assertion. *)
Definition wpe {S A} (E : fault -> Prop) (m : M S A) (Q : A -> S -> Prop) (s : S) : Prop :=
  match m s with Ok (a, s') => Q a s' | Err e => E e end.

Abbreviation wp := (wpe (fun _ => False)).
Abbreviation wlp := (wpe (fun _ => True)).
Abbreviation wpx := (wpe (fun e => e <> AssertFailed)).

Section wp_rules.
Context {S A B : Type} (E : fault -> Prop).
Implicit Types (s : S).

Lemma wpe_ret (a : A) (Q : A -> S -> Prop) s : Q a s -> wpe E (ret a) Q s.
Proof. done. Qed.

Lemma wpe_bind (m : M S A) (k : A -> M S B) (Q : B -> S -> Prop) s :
  wpe E m (fun a => wpe E (k a) Q) s -> wpe E (let* a := m in k a) Q s.
Proof. unfold wpe, bind. destruct (m s) as [[a s']|e]; done. Qed.

Lemma wpe_get (Q : S -> S -> Prop) s : Q s s -> wpe E get Q s.
Proof. done. Qed.
Lemma wpe_gets (f : S -> A) (Q : A -> S -> Prop) s : Q (f s) s -> wpe E (gets f) Q s.
Proof. done. Qed.
Lemma wpe_put t (Q : unit -> S -> Prop) s : Q tt t -> wpe E (put t) Q s.
Proof. done. Qed.
Lemma wpe_modify (f : S -> S) (Q : unit -> S -> Prop) s : Q tt (f s) -> wpe E (modify f) Q s.
Proof. done. Qed.
Lemma wpe_throw e (Q : A -> S -> Prop) s : E e -> wpe E (throw e) Q s.
Proof. done. Qed.
Lemma wpe_assert (b : bool) (Q : unit -> S -> Prop) s :
  (b = false -> E AssertFailed) -> (b = true -> Q tt s) -> wpe E (assert_ b) Q s.
Proof. destruct b; cbn; auto. Qed.
Lemma wpe_lift (r : result A) (Q : A -> S -> Prop) s :
  (forall a, r = Ok a -> Q a s) -> (forall e, r = Err e -> E e) -> wpe E (lift r) Q s.
Proof. unfold wpe, lift. destruct r; auto. Qed.
Lemma wpe_when (b : bool) (m : M S unit) (Q : unit -> S -> Prop) s :
  (b = true -> wpe E m Q s) -> (b = false -> Q tt s) -> wpe E (when b m) Q s.
Proof. destruct b; cbn; auto. Qed.

Lemma wpe_mono (m : M S A) (Q Q' : A -> S -> Prop) s :
  wpe E m Q s -> (forall a s', Q a s' -> Q' a s') -> wpe E m Q' s.
Proof. unfold wpe. destruct (m s) as [[a s']|e]; auto. Qed.

Lemma wpe_conj (m : M S A) (Q Q' : A -> S -> Prop) s :
  wpe E m Q s -> wpe E m Q' s -> wpe E m (fun a s' => Q a s' /\ Q' a s') s.
Proof. unfold wpe. destruct (m s) as [[a s']|e]; auto. Qed.

(** Two properties, one of them only of calls that return. *)
Lemma wpe_conj_wlp (m : M S A) (Q Q' : A -> S -> Prop) s :
  wpe E m Q s -> wlp m Q' s -> wpe E m (fun a s' => Q a s' /\ Q' a s') s.
Proof. unfold wpe. destruct (m s) as [[a s']|e]; auto. Qed.

Lemma wpe_elim (m : M S A) (Q : A -> S -> Prop) s a s' :
  wpe E m Q s -> m s = Ok (a, s') -> Q a s'.
Proof. unfold wpe. intros H Em. by rewrite Em in H. Qed.

Lemma wp_intro (m : M S A) (Q : A -> S -> Prop) s a s' :
  m s = Ok (a, s') -> Q a s' -> wpe E m Q s.
Proof. unfold wpe. by intros ->. Qed.

Lemma wpe_weaken (E' : fault -> Prop) (m : M S A) (Q : A -> S -> Prop) s :
  wpe E m Q s -> (forall e, E e -> E' e) -> wpe E' m Q s.
Proof. unfold wpe. destruct (m s) as [[a s']|e]; auto. Qed.

Lemma bind_ok (m : M S A) (k : A -> M S B) s a s' :
  m s = Ok (a, s') -> bind m k s = k a s'.
Proof. unfold bind. by intros ->. Qed.

Lemma bind_err (m : M S A) (k : A -> M S B) s e :
  m s = Err e -> bind m k s = Err e.
Proof. unfold bind. by intros ->. Qed.
End wp_rules.

Lemma wp_elim {S A} (m : M S A) (Q : A -> S -> Prop) s :
  wp m Q s -> exists a s', m s = Ok (a, s') /\ Q a s'.
Proof. unfold wpe. destruct (m s) as [[a s']|e]; naive_solver. Qed.

Lemma wp_assert {S} (b : bool) (Q : unit -> S -> Prop) s :
  b = true -> Q tt s -> wp (assert_ b) Q s.
Proof. by intros ->. Qed.

Lemma wp_lift {S A} (r : result A) a (Q : A -> S -> Prop) s : r = Ok a -> Q a s -> wp (lift r) Q s.
Proof. by intros ->. Qed.

Lemma wpe_zoom {S T A} (E : fault -> Prop) (g : S -> T) (p : T -> S -> S) (m : M T A)
    (Q : A -> S -> Prop) s :
  wpe E m (fun a t => Q a (p t s)) (g s) -> wpe E (zoom g p m) Q s.
Proof. unfold wpe, zoom. destruct (m (g s)) as [[a t]|e]; done. Qed.

(** The first three of four calls. *)
Lemma wpe_bind3 {S A B} (E : fault -> Prop) (m k : M S unit) (l : M S A) (f : M S B)
    (Q : B -> S -> Prop) s :
  wpe E (m ;;; k ;;; l) (fun _ s' => wpe E f Q s') s -> wpe E (m ;;; k ;;; l ;;; f) Q s.
Proof.
  unfold wpe, bind. destruct (m s) as [[? s1]|]; [|done]. destruct (k s1) as [[? s2]|]; [|done].
  by destruct (l s2) as [[? s3]|].
Qed.

(** A loop keeps an invariant that every iteration keeps. *)
Lemma wpe_for_each {S A} (E : fault -> Prop) (I : S -> Prop) (f : A -> M S unit) (l : list A) s :
  (forall a s, a ∈ l -> I s -> wpe E (f a) (fun _ => I) s) ->
  I s -> wpe E (for_each f l) (fun _ => I) s.
Proof.
  intros Hf. revert s. induction l as [|a l IH]; intros s Hs; cbn [for_each].
  - by apply wpe_ret.
  - apply wpe_bind. eapply wpe_mono; [apply Hf; [by left|done]|].
    cbn. intros _ s' Hs'. apply IH; [|done]. intros b t Hb. apply Hf. by right.
Qed.

(** A loop with an invariant over the elements done and the elements left. *)
Lemma wpe_for_each_split {S A} (E : fault -> Prop) (I : list A -> list A -> S -> Prop)
    (f : A -> M S unit) (l : list A) s :
  (forall done a left s, l = done ++ a :: left -> I done (a :: left) s ->
     wpe E (f a) (fun _ => I (done ++ [a]) left) s) ->
  I [] l s -> wpe E (for_each f l) (fun _ => I l []) s.
Proof.
  intros Hf. assert (forall done left s, l = done ++ left -> I done left s ->
    wpe E (for_each f left) (fun _ => I l []) s) as G.
  { intros d left. revert d. induction left as [|a left IH]; intros d t Hl Ht; cbn [for_each].
    - rewrite app_nil_r in Hl. subst d. by apply wpe_ret.
    - apply wpe_bind. eapply wpe_mono; [by apply (Hf d a left)|].
      cbn. intros _ s' Hs'. apply (IH (d ++ [a])); [|done]. by rewrite <- app_assoc. }
  intros Hi. by apply (G []).
Qed.

(** ** Relations between the states before and after

    [moves R m]: whenever [m] returns, its first and last state are related
    by the preorder [R].  The rules follow the code's structure; [moves_tac]
    applies them. *)
Definition moves {S A} (R : S -> S -> Prop) (m : M S A) : Prop := forall s, wlp m (fun _ => R s) s.

Section moves_rules.
Context {S : Type} (R : S -> S -> Prop) `{!PreOrder R}.

Lemma moves_ret {A} (a : A) : moves R (ret a).
Proof. intros s. change (R s s). reflexivity. Qed.
Lemma moves_get : moves R get.
Proof. intros s. change (R s s). reflexivity. Qed.
Lemma moves_throw {A} e : moves R (throw e : M S A).
Proof. by intros s. Qed.
Lemma moves_lift {A} (r : result A) : moves R (lift r).
Proof. intros s. unfold wpe, lift. destruct r; [reflexivity|done]. Qed.
Lemma moves_assert b : moves R (assert_ b).
Proof. destruct b; [apply moves_ret|apply moves_throw]. Qed.
Lemma moves_modify f : (forall s, R s (f s)) -> moves R (modify f).
Proof. intros Hf s. apply Hf. Qed.
Lemma moves_when b m : moves R m -> moves R (when b m).
Proof. intros Hm. destruct b; [done|apply moves_ret]. Qed.
Lemma moves_bind {A B} (m : M S A) (k : A -> M S B) : moves R m -> (forall a, moves R (k a)) -> moves R (bind m k).
Proof.
  intros Hm Hk s. specialize (Hm s). unfold wpe, bind in *. destruct (m s) as [[a s1]|]; [|done].
  specialize (Hk a s1). unfold wpe in Hk. destruct (k a s1) as [[b s2]|]; [by transitivity s1|done].
Qed.
Lemma moves_for_each {A} (f : A -> M S unit) l : (forall a, moves R (f a)) -> moves R (for_each f l).
Proof.
  intros Hf. induction l as [|a l IH]; cbn [for_each]; [apply moves_ret|by apply moves_bind].
Qed.
End moves_rules.

Lemma moves_zoom {S T A} (R : S -> S -> Prop) (RT : T -> T -> Prop) (g : S -> T) (p : T -> S -> S) (m : M T A) :
  moves RT m -> (forall s t, RT (g s) t -> R s (p t s)) -> moves R (zoom g p m).
Proof.
  intros Hm HR s. specialize (Hm (g s)). unfold wpe, zoom in *. destruct (m (g s)) as [[a t]|]; [by apply HR|done].
Qed.

Create HintDb moves discriminated.
#[export] Hint Resolve moves_ret moves_get moves_throw moves_lift moves_assert : moves.
#[export] Hint Extern 1 (PreOrder _) => tc_solve : moves.

Ltac moves_step :=
  match goal with
  | |- forall _, _ => intro
  | |- moves _ (bind _ _) => apply moves_bind; [tc_solve|..]
  | |- moves _ (when _ _) => apply moves_when; [tc_solve|..]
  | |- moves _ (for_each _ _) => apply moves_for_each; [tc_solve|..]
  | |- moves _ (if ?b then _ else _) => destruct b
  | |- moves _ (match ?x with _ => _ end) => destruct x
  | |- moves _ (let '_ := ?x in _) => destruct x
  end.
Ltac moves_tac := repeat (first [solve [eauto with moves]|moves_step]).

(** ** Lists of options *)

Lemma omap_none {A B} (f : A -> option B) l : (forall x, x ∈ l -> f x = None) -> omap f l = [].
Proof.
  intros Hl. induction l as [|x l IH]; [done|]. cbn. rewrite (Hl x) by by left. apply IH. intros y Hy. apply Hl. by right.
Qed.

Lemma omap_concat {A B} (f : A -> option B) (g : nat -> list A) c l : NoDup l ->
  (forall d, d <> c -> omap f (g d) = []) -> omap f (concat (g <$> l)) = if decide (c ∈ l) then omap f (g c) else [].
Proof.
  intros Hnd Hg. induction Hnd as [|d l Hd Hnd IH]; cbn [fmap list_fmap concat]; [by rewrite decide_False by apply not_elem_of_nil|].
  rewrite omap_app, IH. destruct (decide (d = c)) as [->|Hne].
  - rewrite (decide_False (P := c ∈ l)) by done. rewrite decide_True by by left. by rewrite app_nil_r.
  - rewrite Hg by done. cbn. destruct (decide (c ∈ l)) as [Hc|Hc].
    + by rewrite decide_True by (by right).
    + rewrite decide_False; [done|]. intros [?|?]%elem_of_cons; congruence.
Qed.

(** ** Machine integers *)

Definition u8 (z : Z) : Z := z mod 2 ^ 8.
Definition u16 (z : Z) : Z := z mod 2 ^ 16.
Definition u32 (z : Z) : Z := z mod 2 ^ 32.
Definition u64 (z : Z) : Z := z mod 2 ^ 64.

(** Conversion to a signed [w]-bit type: reduction modulo [2^w] into
    [-2^(w-1), 2^(w-1)), as GCC defines it. *)
Definition sint (w : Z) (z : Z) : Z := (z + 2 ^ (w - 1)) mod 2 ^ w - 2 ^ (w - 1).
Definition s8 : Z -> Z := sint 8.
Definition s16 : Z -> Z := sint 16.
Definition s32 : Z -> Z := sint 32.
Definition s64 : Z -> Z := sint 64.

Lemma u64_small z : 0 <= z < 2 ^ 64 -> u64 z = z.
Proof. apply Z.mod_small. Qed.

Lemma u64_range z : 0 <= u64 z < 2 ^ 64.
Proof. apply Z.mod_pos_bound. lia. Qed.

Lemma sint_small w z : 0 < w -> - 2 ^ (w - 1) <= z < 2 ^ (w - 1) -> sint w z = z.
Proof.
  intros Hw Hz. unfold sint. rewrite Z.mod_small; [lia|].
  replace (2 ^ w) with (2 * 2 ^ (w - 1)); [lia|].
  rewrite <- Z.pow_succ_r; [f_equal; lia | lia].
Qed.

Lemma sint_range w z : 0 < w -> - 2 ^ (w - 1) <= sint w z < 2 ^ (w - 1).
Proof.
  intros Hw. unfold sint.
  assert (2 ^ w = 2 * 2 ^ (w - 1)) as Hp.
  { rewrite <- Z.pow_succ_r; [f_equal; lia | lia]. }
  pose proof (Z.mod_pos_bound (z + 2 ^ (w - 1)) (2 ^ w)) as H.
  assert (0 < 2 ^ w) by (apply Z.pow_pos_nonneg; lia). lia.
Qed.

(** A signed conversion forgets an unsigned one of the same width, and back. *)
Lemma sint_mod w z : 0 < w -> sint w (z mod 2 ^ w) = sint w z.
Proof.
  intros Hw. unfold sint. f_equal. rewrite Zplus_mod_idemp_l. done.
Qed.

Lemma mod_sint w z : 0 < w -> (sint w z) mod 2 ^ w = z mod 2 ^ w.
Proof.
  intros Hw. unfold sint. rewrite Zminus_mod_idemp_l. f_equal. lia.
Qed.

Lemma s32_small z : - 2 ^ 31 <= z < 2 ^ 31 -> s32 z = z.
Proof. intros. apply sint_small; lia. Qed.

Create HintDb muduo discriminated.
Create Rewrite HintDb muduo.
#[export] Hint Rewrite u64_small s32_small using lia : muduo.
#[export] Hint Resolve u64_range : muduo.

(** ** Tactics *)

(** Run the monad one step in a goal [wpe _ _ _ _]. *)
Ltac wp_step :=
  match goal with
  | |- wpe _ (bind _ _) _ _ => apply wpe_bind
  | |- wpe _ (ret _) _ _ => apply wpe_ret
  | |- wpe _ get _ _ => apply wpe_get
  | |- wpe _ (gets _) _ _ => apply wpe_gets
  | |- wpe _ (put _) _ _ => apply wpe_put
  | |- wpe _ (modify _) _ _ => apply wpe_modify
  end.
Ltac wp_steps := repeat (wp_step; cbn beta iota).

(** Case analysis on the matches and conditionals of the goal. *)
Ltac case_all :=
  repeat match goal with
  | |- context [if ?b then _ else _] => destruct b eqn:?
  | |- context [match ?x with _ => _ end] => destruct x eqn:?
  end.

(** Turn the boolean comparisons of the context into propositions. *)
Ltac to_prop :=
  repeat match goal with
  | H : (_ && _)%bool = true |- _ => apply andb_true_iff in H; destruct H
  | H : (_ || _)%bool = false |- _ => apply orb_false_iff in H; destruct H
  | H : negb _ = true |- _ => apply negb_true_iff in H
  | H : negb _ = false |- _ => apply negb_false_iff in H
  | H : (_ <? _) = true |- _ => apply Z.ltb_lt in H
  | H : (_ <? _) = false |- _ => apply Z.ltb_ge in H
  | H : (_ <=? _) = true |- _ => apply Z.leb_le in H
  | H : (_ <=? _) = false |- _ => apply Z.leb_gt in H
  | H : (_ =? _) = true |- _ => apply Z.eqb_eq in H
  | H : (_ =? _) = false |- _ => apply Z.eqb_neq in H
  | H : bool_decide _ = true |- _ => apply bool_decide_eq_true in H
  | H : bool_decide _ = false |- _ => apply bool_decide_eq_false in H
  end.

(** ** Bytes and memory *)

#[export] Instance byte_eq_dec : EqDecision byte := Byte.byte_eq_dec.

Definition byte_of_Z (z : Z) : byte :=
  default x00 (Byte.of_N (Z.to_N (z mod 256))).
Definition Z_of_byte (b : byte) : Z := Z.of_N (Byte.to_N b).

Lemma Z_of_byte_range b : 0 <= Z_of_byte b < 256.
Proof. unfold Z_of_byte. pose proof (Byte.to_N_bounded b). lia. Qed.

Lemma Z_of_byte_of_Z z : Z_of_byte (byte_of_Z z) = z mod 256.
Proof.
  unfold Z_of_byte, byte_of_Z.
  pose proof (Z.mod_pos_bound z 256 ltac:(lia)) as H.
  destruct (Byte.of_N (Z.to_N (z mod 256))) as [b|] eqn:E; cbn.
  - apply Byte.to_of_N in E. rewrite E. lia.
  - apply Byte.of_N_None_iff in E. lia.
Qed.

Lemma byte_of_Z_of_byte b : byte_of_Z (Z_of_byte b) = b.
Proof.
  unfold Z_of_byte, byte_of_Z. pose proof (Byte.to_N_bounded b).
  rewrite Z.mod_small by lia. rewrite N2Z.id. by rewrite Byte.of_to_N.
Qed.

Lemma Z_of_byte_inj a b : Z_of_byte a = Z_of_byte b -> a = b.
Proof. intros H. rewrite <- (byte_of_Z_of_byte a), <- (byte_of_Z_of_byte b). by f_equal. Qed.

(** The length of a list as a [size_t]. *)
Definition Zlen {A} (l : list A) : Z := Z.of_nat (length l).

Lemma Zlen_nonneg {A} (l : list A) : 0 <= Zlen l.
Proof. unfold Zlen. lia. Qed.
Lemma Zlen_app {A} (l k : list A) : Zlen (l ++ k) = Zlen l + Zlen k.
Proof. unfold Zlen. rewrite length_app. lia. Qed.
Lemma Zlen_cons {A} (a : A) (l : list A) : Zlen (a :: l) = 1 + Zlen l.
Proof. unfold Zlen. cbn. lia. Qed.
Lemma Zlen_nil {A} : Zlen (@nil A) = 0.
Proof. done. Qed.
Lemma Zlen_0_nil {A} (l : list A) : Zlen l = 0 -> l = [].
Proof. destruct l; [done|]. rewrite Zlen_cons. pose proof (Zlen_nonneg l). lia. Qed.

(** [l[i .. i+n)] *)
Definition ztake {A} (n : Z) (l : list A) : list A := take (Z.to_nat n) l.
Definition zdrop {A} (n : Z) (l : list A) : list A := drop (Z.to_nat n) l.
Definition zslice {A} (i n : Z) (l : list A) : list A := ztake n (zdrop i l).

Lemma Zlen_ztake {A} n (l : list A) : 0 <= n <= Zlen l -> Zlen (ztake n l) = n.
Proof. unfold Zlen, ztake. rewrite length_take. lia. Qed.
Lemma Zlen_zdrop {A} n (l : list A) : 0 <= n <= Zlen l -> Zlen (zdrop n l) = Zlen l - n.
Proof. unfold Zlen, zdrop. rewrite length_drop. lia. Qed.
Lemma Zlen_zslice {A} i n (l : list A) :
  0 <= i -> 0 <= n -> i + n <= Zlen l -> Zlen (zslice i n l) = n.
Proof. intros. unfold zslice. rewrite Zlen_ztake; [done|]. rewrite Zlen_zdrop; lia. Qed.

Lemma ztake_nil {A} n : ztake n (@nil A) = [].
Proof. unfold ztake. apply take_nil. Qed.
Lemma zdrop_nil {A} n : zdrop n (@nil A) = [].
Proof. unfold zdrop. apply drop_nil. Qed.
Lemma ztake_zdrop {A} n (l : list A) : ztake n l ++ zdrop n l = l.
Proof. unfold ztake, zdrop. apply take_drop. Qed.
Lemma ztake_0 {A} (l : list A) : ztake 0 l = [].
Proof. done. Qed.
Lemma zdrop_0 {A} (l : list A) : zdrop 0 l = l.
Proof. done. Qed.
Lemma ztake_ge {A} n (l : list A) : Zlen l <= n -> ztake n l = l.
Proof. unfold Zlen, ztake. intros. apply take_ge. lia. Qed.
Lemma zdrop_ge {A} n (l : list A) : Zlen l <= n -> zdrop n l = [].
Proof. unfold Zlen, zdrop. intros. apply drop_ge. lia. Qed.
Lemma zdrop_zdrop {A} i j (l : list A) :
  0 <= i -> 0 <= j -> zdrop j (zdrop i l) = zdrop (i + j) l.
Proof. intros. unfold zdrop. rewrite drop_drop. f_equal. lia. Qed.
Lemma ztake_app_l {A} n (l k : list A) : n <= Zlen l -> ztake n (l ++ k) = ztake n l.
Proof. unfold Zlen, ztake. intros. apply take_app_le. lia. Qed.
Lemma zdrop_app_l {A} n (l k : list A) : n <= Zlen l -> zdrop n (l ++ k) = zdrop n l ++ k.
Proof. unfold Zlen, zdrop. intros. apply drop_app_le. lia. Qed.
Lemma zdrop_app_r {A} n (l k : list A) : Zlen l <= n -> zdrop n (l ++ k) = zdrop (n - Zlen l) k.
Proof.
  unfold Zlen, zdrop. intros. rewrite drop_app_ge by lia. f_equal. lia.
Qed.
Lemma ztake_app_r {A} n (l k : list A) : Zlen l <= n -> ztake n (l ++ k) = l ++ ztake (n - Zlen l) k.
Proof.
  unfold Zlen, ztake. intros. rewrite take_app_ge by lia. do 2 f_equal. lia.
Qed.
Lemma zslice_all {A} (l : list A) : zslice 0 (Zlen l) l = l.
Proof. unfold zslice. rewrite zdrop_0. apply ztake_ge. lia. Qed.
Lemma zdrop_ztake {A} i n (l : list A) : 0 <= i -> zdrop i (ztake n l) = zslice i (n - i) l.
Proof.
  intros. unfold zslice, ztake, zdrop. rewrite skipn_firstn_comm.
  f_equal. lia.
Qed.
Lemma ztake_ztake {A} n m (l : list A) : 0 <= n <= m -> ztake n (ztake m l) = ztake n l.
Proof. intros. unfold ztake. rewrite take_take. f_equal. lia. Qed.
Lemma zslice_app {A} i n m (l : list A) :
  0 <= i -> 0 <= n -> 0 <= m -> zslice i (n + m) l = zslice i n l ++ zslice (i + n) m l.
Proof.
  intros. unfold zslice. rewrite <- zdrop_zdrop by lia.
  set (k := zdrop i l). unfold ztake, zdrop.
  rewrite Z2Nat.inj_add by done. symmetry. apply take_take_drop.
Qed.

Lemma lookup_zslice {A} i n (l : list A) (k : nat) :
  0 <= i -> zslice i n l !! k = if decide (Z.of_nat k < n) then l !! (Z.to_nat i + k)%nat else None.
Proof.
  intros Hi. unfold zslice, ztake, zdrop. case_decide.
  - rewrite lookup_take_lt by lia. by rewrite lookup_drop.
  - by rewrite lookup_take_ge by lia.
Qed.

Lemma zslice_ztake {A} i n m (l : list A) :
  0 <= i -> 0 <= n -> i + n <= m -> zslice i n (ztake m l) = zslice i n l.
Proof.
  intros. unfold zslice. rewrite zdrop_ztake by lia. unfold zslice. by rewrite ztake_ztake by lia.
Qed.

Lemma zslice_app_l {A} i n (l k : list A) :
  0 <= i -> 0 <= n -> i + n <= Zlen l -> zslice i n (l ++ k) = zslice i n l.
Proof.
  intros. unfold zslice. rewrite zdrop_app_l by lia. rewrite ztake_app_l; [done|].
  rewrite Zlen_zdrop; lia.
Qed.

Lemma zslice_app_r {A} i n (l k : list A) :
  Zlen l <= i -> zslice i n (l ++ k) = zslice (i - Zlen l) n k.
Proof. intros. unfold zslice. by rewrite zdrop_app_r. Qed.

Lemma Zlen_replicate {A} n (a : A) : Zlen (replicate n a) = Z.of_nat n.
Proof. unfold Zlen. by rewrite length_replicate. Qed.

#[export] Hint Rewrite @Zlen_app @Zlen_cons @Zlen_replicate @ztake_0 @zdrop_0 @ztake_nil @zdrop_nil : muduo.
#[export] Hint Rewrite @Zlen_ztake @Zlen_zdrop @Zlen_zslice using lia : muduo.
(** The length of the empty list; [change] sees it under any element type. *)
Ltac zlen_nil := repeat match goal with
  | |- context [Zlen (@nil ?A)] => change (Zlen (@nil A)) with 0
  | H : context [Zlen (@nil ?A)] |- _ => change (Zlen (@nil A)) with 0 in H
  end.
Ltac zlen := autorewrite with muduo in *; zlen_nil; try lia.

Lemma filter_all {A} (P : A -> Prop) `{forall x, Decision (P x)} (l : list A) : (forall x, x ∈ l -> P x) -> filter P l = l.
Proof.
  intros Hl. induction l as [|x l IH]; [done|]. rewrite filter_cons_True by (apply Hl; by left).
  f_equal. apply IH. intros y Hy. apply Hl. by right.
Qed.
Lemma filter_nothing {A} (P : A -> Prop) `{forall x, Decision (P x)} (l : list A) : (forall x, x ∈ l -> ~ P x) -> filter P l = [].
Proof.
  intros Hl. induction l as [|x l IH]; [done|]. rewrite filter_cons_False by (apply Hl; by left).
  apply IH. intros y Hy. apply Hl. by right.
Qed.
Lemma filter_split {A} (P : A -> Prop) `{forall x, Decision (P x)} (a b : list A) :
  (forall x, x ∈ a -> P x) -> (forall x, x ∈ b -> ~ P x) -> filter P (a ++ b) = a.
Proof. intros Ha Hb. rewrite list.filter_app, (filter_all P a), (filter_nothing P b) by done. apply app_nil_r. Qed.
Lemma filter_split_not {A} (P : A -> Prop) `{forall x, Decision (P x)} (a b : list A) :
  (forall x, x ∈ a -> P x) -> (forall x, x ∈ b -> ~ P x) -> filter (fun x => ~ P x) (a ++ b) = b.
Proof. intros Ha Hb. rewrite list.filter_app, filter_nothing, filter_all; naive_solver. Qed.

(** A [const char*] that is only read: the object it points into and the
    offset in it.  A null pointer has no byte to read. *)
Record cptr : Type := CPtr { c_block : list byte; c_off : Z }.
Definition null_ptr : cptr := CPtr [] 0.
Definition cptr_add (p : cptr) (n : Z) : cptr := CPtr (c_block p) (c_off p + n).
Definition ptr_to (l : list byte) : cptr := CPtr l 0.

(** The [n] bytes from [p]; undefined when they leave the object. *)
Definition load (p : cptr) (n : Z) : result (list byte) :=
  if (0 <=? c_off p) && (0 <=? n) && (c_off p + n <=? Zlen (c_block p))
  then Ok (zslice (c_off p) n (c_block p))
  else Err Undefined.

Lemma load_ok p n :
  0 <= c_off p -> 0 <= n -> c_off p + n <= Zlen (c_block p) ->
  load p n = Ok (zslice (c_off p) n (c_block p)).
Proof.
  intros. unfold load.
  rewrite (proj2 (Z.leb_le 0 (c_off p))), (proj2 (Z.leb_le 0 n)),
    (proj2 (Z.leb_le (c_off p + n) _)) by lia. done.
Qed.

Lemma load_ptr_to l : load (ptr_to l) (Zlen l) = Ok l.
Proof.
  pose proof (Zlen_nonneg l). rewrite load_ok by (cbn; lia). cbn. by rewrite zslice_all.
Qed.
