(* ===== verification/Casts.v ===== *)
(** * Casts (Types.h, and get_pointer and down_pointer_cast of Callbacks.h)

    A class is a number; [derives d b] says that [d] is [b] or derives from
    it.  The dynamic class of each object is in a heap.  A cast is checked
    twice: what does not compile is [None]; what compiles may fail its
    assertion when it runs. *)
From S2P Require Import Prelude.

Module Casts.

(** A [T*]: null or an address, and the class [T]. *)
Record pointer : Type := mkPointer { address : option Z; static : Z }.

(** A [shared_ptr<T>]: the pointer and the number of its control block,
    none for an empty one; the use counts are in the state. *)
Record shared : Type := mkShared { pointee : pointer; block : option Z }.
Record counts : Type := mkCounts { uses : gmap Z Z }.

Inductive cast : Type := Implicit (To : Z) | Down (To : Z).

Section casts.
Context (derives : Z -> Z -> bool).
(** The dynamic class of each object. *)
Implicit Types (h : gmap Z Z).

(** [implicit_cast<To*>(f)] is the conversion [return f]. *)
Definition implicit_cast (To : Z) (f : pointer) : option pointer :=
  if derives (static f) To then Some (mkPointer (address f) To) else None.

(** [dynamic_cast<To*>(f) != NULL]; on an address without an object it is
    undefined. *)
Definition dynamic_cast_ok h (To : Z) (f : pointer) : result bool :=
  match address f with
  | None => Ok false
  | Some a => match h !! a with Some d => Ok (derives d To) | None => Err Undefined end
  end.
Definition static_cast (To : Z) (f : pointer) : pointer := mkPointer (address f) To.

(** The test [assert(f == NULL || dynamic_cast<To>(f) != NULL)]. *)
Definition check_cast h (To : Z) (f : pointer) : result unit :=
  match address f with
  | None => Ok tt
  | Some _ => match dynamic_cast_ok h To f with
              | Ok true => Ok tt
              | Ok false => Err AssertFailed
              | Err e => Err e
              end
  end.

(** [if (false) implicit_cast<From*, To>(0)] only has to compile. *)
Definition down_cast h (To : Z) (f : pointer) : option (result pointer) :=
  match implicit_cast (static f) (mkPointer None To) with
  | None => None
  | Some _ => Some match check_cast h To f with
                   | Ok _ => Ok (static_cast To f)
                   | Err e => Err e
                   end
  end.

Definition get_pointer (p : shared) : pointer := pointee p.

(** [static_pointer_cast] makes another owner of the same block. *)
Definition static_pointer_cast (To : Z) (f : shared) : M counts shared :=
  match block f with
  | None => ret tt
  | Some b => modify (fun s => mkCounts (alter (Z.add 1) b (uses s)))
  end ;;;
  ret (mkShared (static_cast To (get_pointer f)) (block f)).
Definition down_pointer_cast h (To : Z) (f : shared) : option (M counts shared) :=
  match implicit_cast (static (get_pointer f)) (mkPointer None To) with
  | None => None
  | Some _ => Some (lift (check_cast h To (get_pointer f)) ;;; static_pointer_cast To f)
  end.

(** A sequence of casts: does it compile, and what does it do. *)
Definition cast_to (c : cast) : Z := match c with Implicit To | Down To => To end.
Definition cast_compiles (from : Z) (c : cast) : bool :=
  match c with Implicit To => derives from To | Down To => derives To from end.
Fixpoint compiles (from : Z) (l : list cast) : bool :=
  match l with [] => true | c :: l => cast_compiles from c && compiles (cast_to c) l end.
Fixpoint run h (l : list cast) (f : pointer) : option (result pointer) :=
  match l with
  | [] => Some (Ok f)
  | c :: l =>
      match match c with
            | Implicit To => option_map Ok (implicit_cast To f)
            | Down To => down_cast h To f
            end with
      | None => None
      | Some (Ok g) => run h l g
      | Some (Err e) => Some (Err e)
      end
  end.
Fixpoint target (from : Z) (l : list cast) : Z :=
  match l with [] => from | c :: l => target (cast_to c) l end.

(** A pointer is null or points to an object of its class. *)
Definition well_typed h (p : pointer) : Prop :=
  forall a, address p = Some a -> exists d, h !! a = Some d /\ derives d (static p) = true.

Hypothesis derives_trans : forall a b c, derives a b = true -> derives b c = true -> derives a c = true.

Lemma down_cast_typed h To f : well_typed h f -> derives To (static f) = true ->
  match down_cast h To f with
  | Some (Ok g) => g = mkPointer (address f) To /\ well_typed h g
  | Some (Err e) => e = AssertFailed /\ exists a d, address f = Some a /\ h !! a = Some d /\ derives d To = false
  | None => False
  end.
Proof.
  intros Hf Hd. unfold down_cast, implicit_cast, check_cast, dynamic_cast_ok. cbn [static]. rewrite Hd. unfold well_typed in *.
  destruct (address f) as [a|] eqn:Ea.
  - destruct (Hf a eq_refl) as (d & Hh & Hdf). rewrite Hh. destruct (derives d To) eqn:E.
    + unfold static_cast. rewrite Ea. split; [done|]. cbn. intros a' [= <-]. by exists d.
    + split; [done|]. by exists a, d.
  - unfold static_cast. rewrite Ea. split; [done|]. by cbn.
Qed.

(** C40: Casts keep pointers well typed: a sequence of [implicit_cast]s and
    [down_cast]s that compiles, from a pointer that is null or points to an
    object of its class, ends in a pointer to the same object, of the class
    asked for, which that object has; or it fails the assertion of a
    [down_cast] to a class the object does not have.  Nothing else can
    happen, and a sequence that does not compile is one with a conversion
    to a class not derived from or not a base of the one before. *)
Theorem casts_well_typed h l f : well_typed h f ->
  match run h l f with
  | Some (Ok g) => compiles (static f) l = true /\ address g = address f /\ static g = target (static f) l /\ well_typed h g
  | Some (Err e) => e = AssertFailed /\
      exists a d To, address f = Some a /\ h !! a = Some d /\ Down To ∈ l /\ derives d To = false
  | None => compiles (static f) l = false
  end.
Proof.
  revert f. induction l as [|c l IH]; intros f Hf; cbn [run compiles target]; [done|]. destruct c as [To|To]; cbn [cast_to cast_compiles].
  - unfold implicit_cast. destruct (derives (static f) To) eqn:Ed; cbn [option_map andb]; [|done].
    assert (well_typed h (mkPointer (address f) To)) as Hg.
    { intros a Ha. destruct (Hf a Ha) as (d & Hh & Hd). exists d. split; [done|]. by eapply derives_trans. }
    specialize (IH _ Hg). destruct (run h l _) as [[g|e]|]; cbn in IH; [done| |done].
    destruct IH as (He & a & d & T & ? & ? & ? & ?). split; [done|]. exists a, d, T. by rewrite elem_of_cons; auto.
  - destruct (derives To (static f)) eqn:Ed; cbn [andb].
    2: { unfold down_cast, implicit_cast. cbn [static]. by rewrite Ed. }
    pose proof (down_cast_typed h To f Hf Ed) as Hc. destruct (down_cast h To f) as [[g|e]|]; [|by destruct Hc as (? & a & d & ? & ? & ?);
      split; [done|]; exists a, d, To; rewrite elem_of_cons; auto|done].
    destruct Hc as [-> Hg]. specialize (IH _ Hg). cbn in IH. destruct (run h l _) as [[g|e]|]; [done| |done].
    destruct IH as (He & a & d & T & ? & ? & ? & ?). split; [done|]. exists a, d, T. by rewrite elem_of_cons; auto.
Qed.

(** The same check for shared pointers, and one owner more. *)
Lemma down_pointer_cast_typed h To f b s n : well_typed h (get_pointer f) -> derives To (static (get_pointer f)) = true ->
  block f = Some b -> uses s !! b = Some n ->
  match down_pointer_cast h To f with
  | Some m => match m s with
      | Ok (g, s') => get_pointer g = mkPointer (address (get_pointer f)) To /\ well_typed h (get_pointer g) /\
          block g = Some b /\ uses s' !! b = Some (1 + n)
      | Err e => e = AssertFailed
      end
  | None => False
  end.
Proof.
  intros Hf Hd Hb Hn. pose proof (down_cast_typed h To (get_pointer f) Hf Hd) as Hc.
  unfold down_pointer_cast, down_cast, static_pointer_cast, implicit_cast in *. cbn [static] in *. rewrite Hd in *.
  unfold bind, lift. destruct (check_cast h To (get_pointer f)) as [[]|e]; [|by destruct Hc].
  rewrite Hb. unfold modify, ret. cbn. destruct Hc as [E Hw]. split; [done|]. split; [exact Hw|]. split; [done|].
  by rewrite lookup_alter_eq, Hn.
Qed.
End casts.

(** Class 2 and class 3 derive from 1. *)
Definition sample_derives (d b : Z) : bool := (d =? b) || (b =? 1).
Lemma casts_well_typed_witness : exists g,
  run sample_derives {[ 10 := 2 ]} [Implicit 1; Down 2] (mkPointer (Some 10) 2) = Some (Ok g) /\
  well_typed sample_derives {[ 10 := 2 ]} g /\
  run sample_derives {[ 10 := 2 ]} [Implicit 1; Down 3] (mkPointer (Some 10) 2) = Some (Err AssertFailed).
Proof.
  assert (forall a b c, sample_derives a b = true -> sample_derives b c = true -> sample_derives a c = true) as Ht.
  { unfold sample_derives. intros a b c. rewrite !orb_true_iff, !Z.eqb_eq. lia. }
  assert (well_typed sample_derives {[ 10 := 2 ]} (mkPointer (Some 10) 2)) as Hw.
  { intros a [= <-]. exists 2. by split. }
  pose proof (casts_well_typed sample_derives Ht {[ 10 := 2 ]} [Implicit 1; Down 2] _ Hw) as H.
  exists (mkPointer (Some 10) 2). split; [by vm_compute|]. split; [|by vm_compute]. apply H.
Defined.
End Casts.
