(* ===== verification/Endian.v ===== *)
(** * Byte order (include/muduo/net/Endian.h)

    The representation of integer objects in memory, for a host of either
    byte order, and the six conversion functions of [muduo::net::sockets].
    The host's byte order is the class [Host], an argument of every
    definition that depends on it. *)
From S2P Require Import Prelude.

Inductive endianness := LittleEndian | BigEndian.
Class Host := host_order : endianness.

(** The [n] bytes of [z], least significant first, and back. *)
Fixpoint le_split (n : nat) (z : Z) : list byte :=
  match n with
  | O => []
  | S n => byte_of_Z z :: le_split n (z / 256)
  end.

Fixpoint le_combine (bs : list byte) : Z :=
  match bs with
  | [] => 0
  | b :: bs => Z_of_byte b + 256 * le_combine bs
  end.

Lemma length_le_split n z : length (le_split n z) = n.
Proof. revert z. induction n as [|n IH]; intros z; cbn; [done|]. by rewrite IH. Qed.

Lemma le_combine_range bs : 0 <= le_combine bs < 256 ^ Zlen bs.
Proof.
  induction bs as [|b bs IH]; cbn [le_combine].
  - zlen_nil. lia.
  - rewrite Zlen_cons, Z.pow_add_r, Z.pow_1_r by (pose proof (Zlen_nonneg bs); lia).
    pose proof (Z_of_byte_range b). generalize dependent (256 ^ Zlen bs). lia.
Qed.

Lemma le_combine_split n z : le_combine (le_split n z) = z mod 256 ^ Z.of_nat n.
Proof.
  revert z. induction n as [|n IH]; intros z; cbn [le_split le_combine].
  - cbn. by rewrite Z.mod_1_r.
  - rewrite IH, Z_of_byte_of_Z, Nat2Z.inj_succ, Z.pow_succ_r by lia.
    rewrite Z.rem_mul_r by (try apply Z.pow_nonzero; lia). lia.
Qed.

Lemma le_split_combine bs : le_split (length bs) (le_combine bs) = bs.
Proof.
  induction bs as [|b bs IH]; cbn [length le_split le_combine]; [done|].
  pose proof (Z_of_byte_range b).
  replace ((Z_of_byte b + 256 * le_combine bs) / 256) with (le_combine bs)
    by (apply Z.div_unique with (Z_of_byte b); lia).
  rewrite IH. f_equal. apply Z_of_byte_inj. rewrite Z_of_byte_of_Z.
  symmetry. apply Z.mod_unique with (le_combine bs); lia.
Qed.

Lemma le_split_mod n z : le_split n (z mod 256 ^ Z.of_nat n) = le_split n z.
Proof.
  rewrite <- le_combine_split. rewrite <- (length_le_split n z) at 1. apply le_split_combine.
Qed.

Section host.
Context {host : Host}.

(** The bytes of an [n]-byte integer object (two's complement), and the
    unsigned value of an object with these bytes. *)
Definition object_bytes (n : nat) (z : Z) : list byte :=
  match host_order with
  | LittleEndian => le_split n z
  | BigEndian => reverse (le_split n z)
  end.

Definition object_value (bs : list byte) : Z :=
  match host_order with
  | LittleEndian => le_combine bs
  | BigEndian => le_combine (reverse bs)
  end.

(** [htobeNN]/[beNNtoh] of <endian.h>: swap the bytes of an [n]-byte
    unsigned integer on a little-endian host, the identity on the other. *)
Definition bswap (n : nat) (z : Z) : Z := le_combine (reverse (le_split n z)).
Definition htobe (n : nat) (z : Z) : Z :=
  match host_order with LittleEndian => bswap n z | BigEndian => z end.

Definition hostToNetwork64 (host64 : Z) : Z := htobe 8 host64.
Definition hostToNetwork32 (host32 : Z) : Z := htobe 4 host32.
Definition hostToNetwork16 (host16 : Z) : Z := htobe 2 host16.
Definition networkToHost64 (net64 : Z) : Z := htobe 8 net64.
Definition networkToHost32 (net32 : Z) : Z := htobe 4 net32.
Definition networkToHost16 (net16 : Z) : Z := htobe 2 net16.

(** Network order, the reference: most significant byte first. *)
Definition be_bytes (n : nat) (z : Z) : list byte := reverse (le_split n z).

Lemma length_be_bytes n z : length (be_bytes n z) = n.
Proof. unfold be_bytes. by rewrite length_reverse, length_le_split. Qed.

Lemma length_object_bytes n z : length (object_bytes n z) = n.
Proof.
  unfold object_bytes. destruct host_order; [|rewrite length_reverse]; apply length_le_split.
Qed.

Lemma be_bytes_mod n z : be_bytes n (z mod 256 ^ Z.of_nat n) = be_bytes n z.
Proof. unfold be_bytes. by rewrite le_split_mod. Qed.

Lemma object_bytes_mod n z : object_bytes n (z mod 256 ^ Z.of_nat n) = object_bytes n z.
Proof. unfold object_bytes. by rewrite le_split_mod. Qed.

Lemma htobe_range n z : 0 <= z < 256 ^ Z.of_nat n -> 0 <= htobe n z < 256 ^ Z.of_nat n.
Proof.
  intros Hz. unfold htobe, bswap. destruct host_order; [|done].
  pose proof (le_combine_range (reverse (le_split n z))) as H.
  unfold Zlen in H. by rewrite length_reverse, length_le_split in H.
Qed.

(** Whatever the host, the memory of a converted integer is in network order. *)
Lemma object_bytes_htobe n z : object_bytes n (htobe n z) = be_bytes n z.
Proof.
  unfold object_bytes, htobe, be_bytes, bswap. destruct host_order; [|done].
  set (l := reverse (le_split n z)).
  replace n with (length l) at 1; [apply le_split_combine|].
  unfold l. by rewrite length_reverse, length_le_split.
Qed.

Lemma htobe_object_value n z :
  htobe n (object_value (be_bytes n z)) = z mod 256 ^ Z.of_nat n.
Proof.
  unfold htobe, object_value, be_bytes, bswap. destruct host_order.
  - set (l := reverse (le_split n z)).
    replace n with (length l) at 1.
    + rewrite le_split_combine. unfold l. rewrite reverse_involutive. apply le_combine_split.
    + unfold l. by rewrite length_reverse, length_le_split.
  - rewrite reverse_involutive. apply le_combine_split.
Qed.

Lemma htobe_involutive n z : 0 <= z < 256 ^ Z.of_nat n -> htobe n (htobe n z) = z.
Proof.
  intros Hz. unfold htobe. destruct host_order; [|done]. unfold bswap.
  set (l := reverse (le_split n z)).
  replace n with (length l) at 1.
  - rewrite le_split_combine. unfold l. rewrite reverse_involutive, le_combine_split.
    by apply Z.mod_small.
  - unfold l. by rewrite length_reverse, length_le_split.
Qed.
Lemma pow_256 n : 256 ^ Z.of_nat n = 2 ^ (8 * Z.of_nat n).
Proof. change 256 with (2 ^ 8). by rewrite <- Z.pow_mul_r by lia. Qed.

(** A signed [n]-byte integer, converted to network order and stored, has
    the network bytes of the integer ... *)
Lemma network_object n x : (0 < n)%nat ->
  object_bytes n (sint (8 * Z.of_nat n) (htobe n (x mod 2 ^ (8 * Z.of_nat n)))) = be_bytes n x.
Proof.
  intros Hn. rewrite <- object_bytes_mod, pow_256, mod_sint, <- pow_256 by lia.
  rewrite object_bytes_mod, object_bytes_htobe. apply be_bytes_mod.
Qed.

Lemma object_value_range bs : 0 <= object_value bs < 256 ^ Zlen bs.
Proof.
  unfold object_value. destruct host_order; [apply le_combine_range|].
  pose proof (le_combine_range (reverse bs)) as H. unfold Zlen in *. by rewrite length_reverse in H.
Qed.

(** ... and loading these bytes and converting back gives the integer. *)
Lemma network_value n x : (0 < n)%nat ->
  sint (8 * Z.of_nat n)
    (htobe n (sint (8 * Z.of_nat n) (object_value (be_bytes n x)) mod 2 ^ (8 * Z.of_nat n)))
  = sint (8 * Z.of_nat n) x.
Proof.
  intros Hn. rewrite mod_sint by lia.
  pose proof (object_value_range (be_bytes n x)) as H. unfold Zlen in H.
  rewrite length_be_bytes, pow_256 in H. rewrite (Z.mod_small (object_value _)) by done.
  by rewrite htobe_object_value, pow_256, sint_mod by lia.
Qed.
End host.


#[export] Hint Rewrite @length_le_split @length_be_bytes @length_object_bytes : muduo.
