(* ===== verification/StringPiece.v ===== *)
(** * StringPiece (include/muduo/base/StringPiece.h)

    A pointer and an [int] length; comparison, prefix and copy operations,
    with the undefined behaviour of reading outside the object explicit. *)
From S2P Require Import Prelude.

Module StringPiece.

Record t : Type := mk { ptr_ : cptr; length_ : Z }.

(** [memcmp]: the sign of the first difference, bytes compared as
    [unsigned char]; the bytes of both objects must all be readable. *)
Fixpoint memcmp_bytes (l k : list byte) : Z :=
  match l, k with
  | a :: l, b :: k =>
      if Z_of_byte a <? Z_of_byte b then -1
      else if Z_of_byte b <? Z_of_byte a then 1
      else memcmp_bytes l k
  | _, _ => 0
  end.

Definition memcmp (p q : cptr) (n : Z) : result Z :=
  match load p (u64 n), load q (u64 n) with
  | Ok l, Ok k => Ok (memcmp_bytes l k)
  | _, _ => Err Undefined
  end.

(** [strlen]: the offset of the first zero byte. *)
Fixpoint strlen_bytes (l : list byte) : option Z :=
  match l with
  | [] => None
  | b :: l => if decide (b = x00) then Some 0 else option_map (Z.add 1) (strlen_bytes l)
  end.
Definition strlen (p : cptr) : result Z :=
  if (0 <=? c_off p) && (c_off p <=? Zlen (c_block p)) then
    match strlen_bytes (zdrop (c_off p) (c_block p)) with
    | Some n => Ok n
    | None => Err Undefined
    end
  else Err Undefined.

(** The constructors. *)
Definition empty_piece : t := mk null_ptr 0.
Definition of_cstr (str : cptr) : result t :=
  match strlen str with
  | Ok n => Ok (mk str (s32 n))
  | Err e => Err e
  end.
Definition of_string (str : list byte) : t := mk (ptr_to str) (s32 (Zlen str)).
Definition of_ptr (offset : cptr) (len : Z) : t := mk offset len.

Definition data (x : t) : cptr := ptr_ x.
Definition size (x : t) : Z := length_ x.
Definition empty (x : t) : bool := length_ x =? 0.
Definition begin_ (x : t) : cptr := ptr_ x.
Definition end_ (x : t) : cptr := cptr_add (ptr_ x) (length_ x).

Definition clear (x : t) : t := mk null_ptr 0.
Definition set (x : t) (buffer : cptr) (len : Z) : t := mk buffer len.
Definition set_cstr (x : t) (str : cptr) : result t :=
  match strlen str with
  | Ok n => Ok (mk str (s32 n))
  | Err e => Err e
  end.
(** [const void*]: reinterpreted. *)
Definition set_bytes (x : t) (buffer : cptr) (len : Z) : t := mk buffer len.

Definition index (x : t) (i : Z) : result byte :=
  match load (cptr_add (ptr_ x) i) 1 with
  | Ok [b] => Ok b
  | _ => Err Undefined
  end.

Definition remove_prefix (x : t) (n : Z) : t :=
  mk (cptr_add (ptr_ x) n) (s32 (length_ x - n)).
Definition remove_suffix (x : t) (n : Z) : t :=
  mk (ptr_ x) (s32 (length_ x - n)).

(** [operator==]: the lengths first, [memcmp] only when they agree. *)
Definition eqb (this x : t) : result bool :=
  if length_ this =? length_ x then
    match memcmp (ptr_ this) (ptr_ x) (length_ this) with
    | Ok r => Ok (r =? 0)
    | Err e => Err e
    end
  else Ok false.
Definition neqb (this x : t) : result bool :=
  match eqb this x with Ok b => Ok (negb b) | Err e => Err e end.

(** [STRINGPIECE_BINARY_PREDICATE(cmp, auxcmp)] *)
Definition binary_predicate (cmp auxcmp : Z -> Z -> bool) (this x : t) : result bool :=
  match memcmp (ptr_ this) (ptr_ x)
          (if length_ this <? length_ x then length_ this else length_ x) with
  | Ok r => Ok (auxcmp r 0 || ((r =? 0) && cmp (length_ this) (length_ x)))
  | Err e => Err e
  end.
Definition ltb : t -> t -> result bool := binary_predicate Z.ltb Z.ltb.
Definition leb : t -> t -> result bool := binary_predicate Z.leb Z.ltb.
Definition geb : t -> t -> result bool := binary_predicate Z.geb Z.gtb.
Definition gtb : t -> t -> result bool := binary_predicate Z.gtb Z.gtb.

Definition compare (this x : t) : result Z :=
  match memcmp (ptr_ this) (ptr_ x)
          (if length_ this <? length_ x then length_ this else length_ x) with
  | Ok r =>
      Ok (if r =? 0 then
            if length_ this <? length_ x then -1
            else if length_ this >? length_ x then 1
            else r
          else r)
  | Err e => Err e
  end.

(** [string(data(), size())]: the [int] becomes a [size_t]. *)
Definition as_string (x : t) : result (list byte) := load (data x) (u64 (size x)).
Definition CopyToString (x : t) (target : list byte) : result (list byte) :=
  load (ptr_ x) (u64 (length_ x)).

Definition CopyToStdString (x : t) (target : list byte) : result (list byte) :=
  load (ptr_ x) (u64 (length_ x)).

Definition starts_with (this x : t) : result bool :=
  if length_ this >=? length_ x then
    match memcmp (ptr_ this) (ptr_ x) (length_ x) with
    | Ok r => Ok (r =? 0)
    | Err e => Err e
    end
  else Ok false.

(** ** The reference: pieces as byte strings *)

(** [x] denotes the byte string [l]. *)
Definition denotes (x : t) (l : list byte) : Prop :=
  0 <= length_ x < 2 ^ 31 /\ load (ptr_ x) (length_ x) = Ok l.

(** The lexicographic order on unsigned bytes. *)
Fixpoint lex_lt (l k : list byte) : Prop :=
  match l, k with
  | [], _ :: _ => True
  | a :: l, b :: k => Z_of_byte a < Z_of_byte b \/ (a = b /\ lex_lt l k)
  | _, _ => False
  end.

Lemma load_inv p n l : load p n = Ok l ->
  0 <= c_off p /\ 0 <= n /\ c_off p + n <= Zlen (c_block p) /\ l = zslice (c_off p) n (c_block p).
Proof.
  unfold load. destruct (_ && _)%bool eqn:E; [|done]. intros [= <-]. to_prop. done.
Qed.

Lemma load_prefix p n m l : load p n = Ok l -> 0 <= m <= n -> load p m = Ok (ztake m l).
Proof.
  intros (H1 & H2 & H3 & ->)%load_inv Hm. rewrite load_ok by lia.
  unfold zslice. by rewrite ztake_ztake.
Qed.

Lemma load_length p n l : load p n = Ok l -> Zlen l = n.
Proof. intros (H1 & H2 & H3 & ->)%load_inv. by apply Zlen_zslice. Qed.

Lemma denotes_length x l : denotes x l -> length_ x = Zlen l.
Proof. intros [_ H]. by apply load_length in H. Qed.

Lemma denotes_of_string l : Zlen l < 2 ^ 31 -> denotes (of_string l) l.
Proof.
  intros Hl. pose proof (Zlen_nonneg l). unfold denotes, of_string; cbn [length_ ptr_].
  rewrite s32_small by lia. split; [lia|]. apply load_ptr_to.
Qed.

(** A C string ends at its first NUL: constructed from it or set to it, a
    piece denotes the bytes before. *)
Lemma strlen_bytes_nul l r : x00 ∉ l -> strlen_bytes (l ++ x00 :: r) = Some (Zlen l).
Proof.
  induction l as [|b l IH]; intros Hn; cbn [app strlen_bytes]; [done|]. apply not_elem_of_cons in Hn as [Hb Hn].
  rewrite decide_False, IH by congruence. cbn. by rewrite Zlen_cons.
Qed.
Lemma cstr_denotes l r : x00 ∉ l -> Zlen l < 2 ^ 31 ->
  exists y, of_cstr (ptr_to (l ++ x00 :: r)) = Ok y /\ denotes y l /\ forall x, set_cstr x (ptr_to (l ++ x00 :: r)) = Ok y.
Proof.
  intros Hn Hl. pose proof (Zlen_nonneg l). pose proof (Zlen_nonneg r). exists (mk (ptr_to (l ++ x00 :: r)) (Zlen l)).
  assert (strlen (ptr_to (l ++ x00 :: r)) = Ok (Zlen l)) as Hs.
  { unfold strlen. cbn [ptr_to c_off c_block]. rewrite zdrop_0, strlen_bytes_nul by done. case_all; to_prop; try done.
    rewrite ?Zlen_app, ?Zlen_cons in *. lia. }
  unfold of_cstr, set_cstr. rewrite Hs, s32_small by lia. split; [done|]. split; [|done]. split; [cbn; lia|].
  cbn [ptr_ length_]. rewrite load_ok; cbn [ptr_to c_off c_block]; rewrite ?Zlen_app, ?Zlen_cons; try lia.
  unfold zslice. rewrite zdrop_0, ztake_app_l, ztake_ge by lia. done.
Qed.

(** [memcmp] on the common length of two denoted strings. *)
Lemma memcmp_denotes x y l k n :
  denotes x l -> denotes y k -> 0 <= n <= Zlen l -> n <= Zlen k ->
  memcmp (ptr_ x) (ptr_ y) n = Ok (memcmp_bytes (ztake n l) (ztake n k)).
Proof.
  intros Hx Hy Hn Hn'. pose proof (denotes_length _ _ Hx). pose proof (denotes_length _ _ Hy).
  destruct Hx as [Hx1 Hx2], Hy as [Hy1 Hy2]. unfold memcmp. rewrite u64_small by lia.
  by rewrite (load_prefix _ _ _ _ Hx2), (load_prefix _ _ _ _ Hy2) by lia.
Qed.

Lemma memcmp_bytes_refl l : memcmp_bytes l l = 0.
Proof. induction l as [|a l IH]; cbn; [done|]. by rewrite Z.ltb_irrefl. Qed.

Lemma memcmp_bytes_0 l k : length l = length k -> memcmp_bytes l k = 0 -> l = k.
Proof.
  revert k. induction l as [|a l IH]; intros [|b k]; cbn; try done.
  intros [= Hlen]. destruct (Z.ltb_spec (Z_of_byte a) (Z_of_byte b)); [done|].
  destruct (Z.ltb_spec (Z_of_byte b) (Z_of_byte a)); [done|].
  intros H1. f_equal; [apply Z_of_byte_inj; lia|]. by apply IH.
Qed.

(** [memcmp] of the common prefix, the lengths breaking the tie, decides the
    lexicographic order. *)
Lemma memcmp_lex l k :
  let m := memcmp_bytes (ztake (Zlen l `min` Zlen k) l) (ztake (Zlen l `min` Zlen k) k) in
  lex_lt l k <-> m < 0 \/ (m = 0 /\ Zlen l < Zlen k).
Proof.
  revert k. induction l as [|a l IH]; intros [|b k]; cbn zeta.
  - rewrite ztake_nil. zlen_nil. cbn. lia.
  - rewrite ztake_nil, Zlen_cons. pose proof (Zlen_nonneg k). zlen_nil. cbn. lia.
  - rewrite ztake_nil, Zlen_cons. pose proof (Zlen_nonneg l). zlen_nil.
    rewrite Z.min_r by lia. rewrite ztake_0. cbn. lia.
  - pose proof (Zlen_nonneg l). pose proof (Zlen_nonneg k).
    assert (forall A (c : A) r, ztake (Zlen (a :: l) `min` Zlen (b :: k)) (c :: r)
                 = c :: ztake (Zlen l `min` Zlen k) r) as Hc.
    { intros A c r. rewrite !Zlen_cons. unfold ztake.
      replace (Z.to_nat ((1 + Zlen l) `min` (1 + Zlen k)))
        with (S (Z.to_nat (Zlen l `min` Zlen k))) by lia. done. }
    rewrite !Hc. cbn [memcmp_bytes lex_lt]. rewrite (IH k). cbn zeta.
    rewrite !Zlen_cons.
    destruct (Z.ltb_spec (Z_of_byte a) (Z_of_byte b)); [lia|].
    destruct (Z.ltb_spec (Z_of_byte b) (Z_of_byte a)).
    + split; [|lia]. intros [?|[-> _]]; lia.
    + assert (a = b) as -> by (apply Z_of_byte_inj; lia). split; [intros [?|[_ ?]]; lia|].
      intros ?. right. split; [done|lia].
Qed.

Lemma lex_irrefl l : ~ lex_lt l l.
Proof. induction l as [|a l IH]; cbn; [intros []|]. intros [?|[_ ?]]; [lia|by apply IH]. Qed.

Lemma lex_trans l k m : lex_lt l k -> lex_lt k m -> lex_lt l m.
Proof.
  revert k m. induction l as [|a l IH]; intros [|b k] [|c m]; cbn; try done.
  intros [?|[-> Hl]] [?|[-> Hk]]; try (left; lia).
  right. split; [done|]. exact (IH _ _ Hl Hk).
Qed.

Lemma lex_total l k : lex_lt l k \/ l = k \/ lex_lt k l.
Proof.
  revert k. induction l as [|a l IH]; intros [|b k]; cbn; auto.
  destruct (Z.lt_trichotomy (Z_of_byte a) (Z_of_byte b)) as [?|[Hab|?]]; auto.
  apply Z_of_byte_inj in Hab as ->. destruct (IH k) as [?|[->|?]]; auto.
Qed.

(** Common reading of the two comparison routines on denoted strings. *)
Lemma cmp_length_min x y l k : denotes x l -> denotes y k ->
  (if length_ x <? length_ y then length_ x else length_ y) = Zlen l `min` Zlen k.
Proof.
  intros H1%denotes_length H2%denotes_length. rewrite H1, H2.
  destruct (Z.ltb_spec (Zlen l) (Zlen k)); lia.
Qed.

Definition cmp_min (l k : list byte) : Z :=
  memcmp_bytes (ztake (Zlen l `min` Zlen k) l) (ztake (Zlen l `min` Zlen k) k).

Lemma memcmp_min x y l k : denotes x l -> denotes y k ->
  memcmp (ptr_ x) (ptr_ y) (if length_ x <? length_ y then length_ x else length_ y)
  = Ok (cmp_min l k).
Proof.
  intros Hx Hy. rewrite (cmp_length_min _ _ _ _ Hx Hy).
  pose proof (Zlen_nonneg l). pose proof (Zlen_nonneg k).
  apply memcmp_denotes; auto; lia.
Qed.

Lemma cmp_min_eq l k : cmp_min l k = 0 -> Zlen l = Zlen k -> l = k.
Proof.
  intros H Hl. unfold cmp_min in H. rewrite <- Hl, Z.min_id, ztake_ge in H by lia.
  rewrite (ztake_ge _ k) in H by lia. apply memcmp_bytes_0 in H; [done|].
  unfold Zlen in Hl. lia.
Qed.

Lemma cmp_min_opp l k : cmp_min k l = - cmp_min l k.
Proof.
  unfold cmp_min. rewrite (Z.min_comm (Zlen k)).
  generalize (ztake (Zlen l `min` Zlen k) l) (ztake (Zlen l `min` Zlen k) k).
  intros u. induction u as [|a u IH]; intros [|b v]; cbn; try done.
  destruct (Z.ltb_spec (Z_of_byte a) (Z_of_byte b)), (Z.ltb_spec (Z_of_byte b) (Z_of_byte a));
    try lia. apply IH.
Qed.

(** ** Properties *)

(** C39: The six comparison operators and [compare] decide one strict total order:
    the lexicographic order of the denoted byte strings. *)
Theorem operators_lexicographic x y l k :
  denotes x l -> denotes y k ->
  exists lt le gt ge c,
    ltb x y = Ok lt /\ leb x y = Ok le /\ gtb x y = Ok gt /\ geb x y = Ok ge /\
    compare x y = Ok c /\
    (lt = true <-> lex_lt l k) /\ (gt = true <-> lex_lt k l) /\
    le = negb gt /\ ge = negb lt /\
    (c < 0 <-> lex_lt l k) /\ (c = 0 <-> l = k) /\ (c > 0 <-> lex_lt k l).
Proof.
  intros Hx Hy.
  pose proof (memcmp_lex l k) as H1. pose proof (memcmp_lex k l) as H2. cbn zeta in H1, H2.
  rewrite (Z.min_comm (Zlen k)) in H2.
  fold (cmp_min l k) in H1.
  replace (memcmp_bytes _ _) with (cmp_min k l) in H2
    by (unfold cmp_min; by rewrite (Z.min_comm (Zlen k))).
  pose proof (cmp_min_eq l k) as H3.
  assert (l = k -> cmp_min l k = 0) as H4
    by (intros ->; unfold cmp_min; apply memcmp_bytes_refl).
  assert (l = k -> Zlen l = Zlen k) as H5 by (by intros ->).
  rewrite cmp_min_opp in H2. setoid_rewrite H1. setoid_rewrite H2. clear H1 H2.
  unfold ltb, leb, gtb, geb, compare, binary_predicate.
  rewrite (memcmp_min _ _ _ _ Hx Hy).
  rewrite (denotes_length _ _ Hx), (denotes_length _ _ Hy).
  set (c := cmp_min l k) in *. clearbody c.
  eexists _, _, _, _, _. do 5 (split; [reflexivity|]).
  rewrite !Z.geb_leb, !Z.gtb_ltb.
  destruct (Z.ltb_spec c 0), (Z.ltb_spec 0 c), (Z.eqb_spec c 0), (Z.ltb_spec (Zlen l) (Zlen k)),
    (Z.ltb_spec (Zlen k) (Zlen l)), (Z.leb_spec (Zlen l) (Zlen k)), (Z.leb_spec (Zlen k) (Zlen l));
    cbn; try lia; repeat split; try lia; try done; try (intros; lia);
    intros; try (by apply H3; lia); try (specialize (H4 ltac:(done)); lia);
    try (specialize (H5 ltac:(done)); lia).
Qed.

Lemma operators_lexicographic_witness :
  denotes (of_string [x61; x62]) [x61; x62] /\ denotes (of_string [x61; x63]) [x61; x63] /\
  exists c, ltb (of_string [x61; x62]) (of_string [x61; x63]) = Ok true /\
    compare (of_string [x61; x62]) (of_string [x61; x63]) = Ok c /\ c < 0.
Proof.
  assert (denotes (of_string [x61; x62]) [x61; x62]) as H1 by (split; [vm_compute; split; congruence|reflexivity]).
  assert (denotes (of_string [x61; x63]) [x61; x63]) as H2 by (split; [vm_compute; split; congruence|reflexivity]).
  split; [exact H1|]. split; [exact H2|].
  destruct (operators_lexicographic _ _ _ _ H1 H2) as (lt & le & gt & ge & c & Hlt & _ & _ & _ & Hc & _ & _ & _ & _ & Hneg & _).
  exists c. split; [vm_compute; reflexivity|]. split; [exact Hc|].
  apply Hneg. right. split; [reflexivity|]. left. vm_compute. reflexivity.
Defined.

(** [==] holds exactly of equal byte strings, and [!=] is its negation. *)
Theorem eqb_denotes x y l k :
  denotes x l -> denotes y k ->
  eqb x y = Ok (bool_decide (l = k)) /\ neqb x y = Ok (negb (bool_decide (l = k))).
Proof.
  intros Hx Hy. unfold neqb, eqb.
  rewrite (denotes_length _ _ Hx), (denotes_length _ _ Hy).
  pose proof (Zlen_nonneg l).
  destruct (Z.eqb_spec (Zlen l) (Zlen k)) as [E|E].
  - rewrite (memcmp_denotes _ _ _ _ _ Hx Hy), !ztake_ge by lia.
    destruct (decide (l = k)) as [->|Hn].
    + rewrite memcmp_bytes_refl, bool_decide_true by done. done.
    + rewrite bool_decide_false by done.
      destruct (Z.eqb_spec (memcmp_bytes l k) 0) as [E'|?]; [|done].
      apply memcmp_bytes_0 in E'; [done|]. unfold Zlen in E. lia.
  - rewrite bool_decide_false by congruence. done.
Qed.

(** [starts_with] is the prefix relation. *)
Theorem starts_with_prefix x y l k :
  denotes x l -> denotes y k ->
  starts_with x y = Ok (bool_decide (k `prefix_of` l)).
Proof.
  intros Hx Hy. unfold starts_with.
  rewrite (denotes_length _ _ Hx), (denotes_length _ _ Hy), Z.geb_leb.
  pose proof (Zlen_nonneg k).
  destruct (Z.leb_spec (Zlen k) (Zlen l)).
  - rewrite (memcmp_denotes _ _ _ _ _ Hx Hy), (ztake_ge _ k) by lia. f_equal.
    destruct (Z.eqb_spec (memcmp_bytes (ztake (Zlen k) l) k) 0) as [E|E];
      symmetry; [apply bool_decide_eq_true|apply bool_decide_eq_false].
    + apply memcmp_bytes_0 in E.
      * exists (zdrop (Zlen k) l). rewrite <- E at 1. symmetry. apply ztake_zdrop.
      * assert (Zlen (ztake (Zlen k) l) = Zlen k) by (apply Zlen_ztake; lia). unfold Zlen in *. lia.
    + intros [m ->]. apply E. rewrite ztake_app_l, ztake_ge by lia. apply memcmp_bytes_refl.
  - rewrite bool_decide_false; [done|]. intros [m ->]. zlen. pose proof (Zlen_nonneg m). lia.
Qed.

(** Dropping a prefix (a suffix) of a piece drops it from the denoted string. *)
Lemma remove_prefix_denotes x l n :
  denotes x l -> 0 <= n <= Zlen l -> denotes (remove_prefix x n) (zdrop n l).
Proof.
  intros Hx Hn. pose proof (denotes_length _ _ Hx). destruct Hx as [Hr Hl].
  apply load_inv in Hl as (H1 & H2 & H3 & ->). rewrite Zlen_zslice in * by lia.
  unfold denotes, remove_prefix; cbn [length_ ptr_]. rewrite s32_small by lia.
  split; [lia|]. rewrite load_ok by (cbn; lia). cbn. f_equal.
  unfold zslice.
  rewrite zdrop_ztake by lia. unfold zslice. by rewrite zdrop_zdrop by lia.
Qed.

Lemma remove_suffix_denotes x l n :
  denotes x l -> 0 <= n <= Zlen l -> denotes (remove_suffix x n) (ztake (Zlen l - n) l).
Proof.
  intros Hx Hn. pose proof (denotes_length _ _ Hx). destruct Hx as [Hr Hl].
  unfold denotes, remove_suffix; cbn [length_ ptr_]. rewrite s32_small by lia.
  split; [lia|]. rewrite H. apply (load_prefix _ _ _ _ Hl). lia.
Qed.

(** Copying out of a piece built from a string gives the string back; on a
    string of [2^31] bytes or more the [int] length no longer fits. *)
Theorem as_string_roundtrip s :
  Zlen s < 2 ^ 31 -> as_string (of_string s) = Ok s.
Proof.
  intros Hs. pose proof (Zlen_nonneg s). unfold as_string, of_string, data, size; cbn [ptr_ length_].
  rewrite s32_small, u64_small by lia. apply load_ptr_to.
Qed.

End StringPiece.
