(* ===== verification/Buffer.v ===== *)
(** * Buffer (include/muduo/net/Buffer.h, mymuduo_net/Buffer.c++)

    The growable byte buffer with a cheap prepend area.  Every operation of
    the class is a computation over the record [t]; a [const char*] into the
    buffer is an offset from [begin()].  [content] abstracts a buffer to the
    queue of its readable bytes; Module [ByteQueue] is the specification the
    operations refine. *)
From S2P Require Import Prelude Endian StringPiece.

Module Buffer.

Definition kCheapPrepend : Z := 8.
Definition kInitialSize : Z := 1024.
Definition kCRLF : list byte := [x0d; x0a].

(** The largest [std::vector<char>]: a request beyond [PTRDIFF_MAX] throws. *)
Definition max_size : Z := 2 ^ 63 - 1.

Record t : Type := mk {
  buffer_ : list byte;
  readerIndex_ : Z;
  writerIndex_ : Z }.

Definition set_reader (r : Z) (b : t) : t := mk (buffer_ b) r (writerIndex_ b).
Definition set_writer (w : Z) (b : t) : t := mk (buffer_ b) (readerIndex_ b) w.
Definition set_bytes (l : list byte) (b : t) : t := mk l (readerIndex_ b) (writerIndex_ b).

(** ** Observers *)

Definition readableBytes (b : t) : Z := u64 (writerIndex_ b - readerIndex_ b).
Definition writableBytes (b : t) : Z := u64 (Zlen (buffer_ b) - writerIndex_ b).
Definition prependableBytes (b : t) : Z := readerIndex_ b.
Definition peek (b : t) : Z := readerIndex_ b.
Definition beginWrite (b : t) : Z := writerIndex_ b.
Definition internalCapacity_size (b : t) : Z := Zlen (buffer_ b).

(** The constructor with its three assertions. *)
Definition make (initialSize : Z) : result t :=
  if max_size <? u64 (kCheapPrepend + initialSize) then Err Thrown
  else
    let b := mk (replicate (Z.to_nat (u64 (kCheapPrepend + initialSize))) x00)
                kCheapPrepend kCheapPrepend in
    if (readableBytes b =? 0) && (writableBytes b =? initialSize)
       && (prependableBytes b =? kCheapPrepend)
    then Ok b else Err AssertFailed.

(** [swap]: both buffers exchange all three fields. *)
Definition swap (this rhs : t) : t * t := (rhs, this).

(** ** Search *)

(** [std::search(first, last, pat)]: the first position of [pat] in [l]. *)
Fixpoint search_from (pat l : list byte) (i : Z) : option Z :=
  if decide (take (length pat) l = pat) then Some i
  else match l with
       | [] => None
       | _ :: l => search_from pat l (i + 1)
       end.

(** [memchr]: the first position of [c] in [l]. *)
Fixpoint memchr_from (c : byte) (l : list byte) (i : Z) : option Z :=
  match l with
  | [] => None
  | b :: l => if decide (b = c) then Some i else memchr_from c l (i + 1)
  end.

(** The bytes [first, last) of the vector; outside it the code is undefined. *)
Definition range (b : t) (first last : Z) : result (list byte) :=
  if (0 <=? first) && (first <=? last) && (last <=? Zlen (buffer_ b))
  then Ok (zslice first (last - first) (buffer_ b))
  else Err Undefined.

Definition findCRLF_from (start : Z) (b : t) : result (option Z) :=
  if negb (peek b <=? start) || negb (start <=? beginWrite b) then Err AssertFailed
  else match range b start (beginWrite b) with
       | Ok l =>
           let crlf := default (beginWrite b) (search_from kCRLF l start) in
           Ok (if crlf =? beginWrite b then None else Some crlf)
       | Err e => Err e
       end.

Definition findCRLF (b : t) : result (option Z) :=
  match range b (peek b) (beginWrite b) with
  | Ok l =>
      let crlf := default (beginWrite b) (search_from kCRLF l (peek b)) in
      Ok (if crlf =? beginWrite b then None else Some crlf)
  | Err e => Err e
  end.

Definition findEOL (b : t) : result (option Z) :=
  match range b (peek b) (peek b + readableBytes b) with
  | Ok l => Ok (memchr_from x0a l (peek b))
  | Err e => Err e
  end.

Definition findEOL_from (start : Z) (b : t) : result (option Z) :=
  if negb (peek b <=? start) || negb (start <=? beginWrite b) then Err AssertFailed
  else match range b start (beginWrite b) with
       | Ok l => Ok (memchr_from x0a l start)
       | Err e => Err e
       end.

(** ** Removing from the front *)

Definition retrieveAll : M t unit :=
  modify (set_reader kCheapPrepend) ;;;
  modify (set_writer kCheapPrepend).

Definition retrieve (len : Z) : M t unit :=
  let* b := get in
  assert_ (len <=? readableBytes b) ;;;
  if len <? readableBytes b
  then modify (set_reader (u64 (readerIndex_ b + len)))
  else retrieveAll.

Definition retrieveUntil (end_ : Z) : M t unit :=
  let* b := get in
  assert_ (peek b <=? end_) ;;;
  assert_ (end_ <=? beginWrite b) ;;;
  retrieve (u64 (end_ - peek b)).

Definition retrieveInt64 : M t unit := retrieve 8.
Definition retrieveInt32 : M t unit := retrieve 4.
Definition retrieveInt16 : M t unit := retrieve 2.
Definition retrieveInt8 : M t unit := retrieve 1.

(** [string result(peek(), len)] *)
Definition peek_bytes (len : Z) : M t (list byte) :=
  let* b := get in
  lift (range b (peek b) (peek b + len)).

Definition retrieveAsString (len : Z) : M t (list byte) :=
  let* b := get in
  assert_ (len <=? readableBytes b) ;;;
  let* result := peek_bytes len in
  retrieve len ;;;
  ret result.

Definition retrieveAllAsString : M t (list byte) :=
  let* b := get in retrieveAsString (readableBytes b).

(** [StringPiece(peek(), static_cast<int>(readableBytes()))] *)
Definition toStringPiece (b : t) : StringPiece.t :=
  StringPiece.of_ptr (CPtr (buffer_ b) (peek b)) (s32 (readableBytes b)).

(** ** Making room and appending *)

(** [std::vector::resize]: cut, or extend with zero bytes. *)
Definition resize (n : Z) : M t unit :=
  if max_size <? n then throw Thrown
  else modify (fun b =>
    set_bytes (ztake n (buffer_ b) ++
               replicate (Z.to_nat (n - Zlen (buffer_ b))) x00) b).

(** [std::copy] inside one vector: [n] bytes from [src] to [dst], one after
    the other in increasing order. *)
Fixpoint copy_forward (n : nat) (src dst : Z) (l : list byte) : list byte :=
  match n with
  | O => l
  | S n =>
      copy_forward n (src + 1) (dst + 1)
        match l !! Z.to_nat src with
        | Some c => <[Z.to_nat dst := c]> l
        | None => l
        end
  end.

Definition copy_within (first last dst : Z) : M t unit :=
  let* b := get in
  if (0 <=? first) && (first <=? last) && (last <=? Zlen (buffer_ b))
     && (0 <=? dst) && (dst + (last - first) <=? Zlen (buffer_ b))
  then modify (set_bytes (copy_forward (Z.to_nat (last - first)) first dst (buffer_ b)))
  else throw Undefined.

(** [std::copy] of foreign bytes into the vector at offset [dst]. *)
Definition copy_in (d : list byte) (dst : Z) : M t unit :=
  let* b := get in
  if (0 <=? dst) && (dst + Zlen d <=? Zlen (buffer_ b))
  then modify (set_bytes (ztake dst (buffer_ b) ++ d ++ zdrop (dst + Zlen d) (buffer_ b)))
  else throw Undefined.

Definition makeSpace (len : Z) : M t unit :=
  let* b := get in
  if u64 (writableBytes b + prependableBytes b) <? u64 (len + kCheapPrepend)
  then resize (u64 (writerIndex_ b + len))
  else
    assert_ (kCheapPrepend <? readerIndex_ b) ;;;
    let readable := readableBytes b in
    copy_within (readerIndex_ b) (writerIndex_ b) kCheapPrepend ;;;
    modify (set_reader kCheapPrepend) ;;;
    modify (fun b => set_writer (u64 (readerIndex_ b + readable)) b) ;;;
    let* b := get in
    assert_ (readable =? readableBytes b).

Definition ensureWritableBytes (len : Z) : M t unit :=
  let* b := get in
  when (writableBytes b <? len) (makeSpace len) ;;;
  let* b := get in
  assert_ (len <=? writableBytes b).

Definition hasWritten (len : Z) : M t unit :=
  let* b := get in
  assert_ (len <=? writableBytes b) ;;;
  modify (set_writer (u64 (writerIndex_ b + len))).

Definition unwrite (len : Z) : M t unit :=
  let* b := get in
  assert_ (len <=? readableBytes b) ;;;
  modify (set_writer (u64 (writerIndex_ b - len))).

(** [append(const char* data, size_t len)] *)
Definition append (data : cptr) (len : Z) : M t unit :=
  ensureWritableBytes len ;;;
  let* d := lift (load data len) in
  let* b := get in
  copy_in d (beginWrite b) ;;;
  hasWritten len.

(** [append(const StringPiece&)]: the [int] size becomes a [size_t]. *)
Definition append_piece (str : StringPiece.t) : M t unit :=
  append (StringPiece.data str) (u64 (StringPiece.size str)).

Definition prepend (data : cptr) (len : Z) : M t unit :=
  let* b := get in
  assert_ (len <=? prependableBytes b) ;;;
  modify (set_reader (u64 (readerIndex_ b - len))) ;;;
  let* d := lift (load data len) in
  let* b := get in
  copy_in d (readerIndex_ b).

Definition shrink (reserve : Z) : M t unit :=
  let* this := get in
  let* other := lift (make kInitialSize) in
  let* other := lift
    match (ensureWritableBytes (u64 (readableBytes this + reserve)) ;;;
           append_piece (toStringPiece this)) other with
    | Ok (_, other) => Ok other
    | Err e => Err e
    end in
  put (fst (swap this other)).

(** ** Integers in network order *)

Section integers.
Context {host : Host}.

Definition appendInt64 (x : Z) : M t unit :=
  let be64 := s64 (hostToNetwork64 (u64 x)) in append (ptr_to (object_bytes 8 be64)) 8.
Definition appendInt32 (x : Z) : M t unit :=
  let be32 := s32 (hostToNetwork32 (u32 x)) in append (ptr_to (object_bytes 4 be32)) 4.
Definition appendInt16 (x : Z) : M t unit :=
  let be16 := s16 (hostToNetwork16 (u16 x)) in append (ptr_to (object_bytes 2 be16)) 2.
Definition appendInt8 (x : Z) : M t unit := append (ptr_to (object_bytes 1 x)) 1.

(** [memcpy(&be, peek(), n)]: the [n]-byte signed integer at the reader. *)
Definition peek_object (n : nat) (sx : Z -> Z) : M t Z :=
  let* bs := peek_bytes (Z.of_nat n) in ret (sx (object_value bs)).

Definition peekInt64 : M t Z :=
  let* b := get in
  assert_ (8 <=? readableBytes b) ;;;
  let* be64 := peek_object 8 s64 in
  ret (s64 (networkToHost64 (u64 be64))).
Definition peekInt32 : M t Z :=
  let* b := get in
  assert_ (4 <=? readableBytes b) ;;;
  let* be32 := peek_object 4 s32 in
  ret (s32 (networkToHost32 (u32 be32))).
Definition peekInt16 : M t Z :=
  let* b := get in
  assert_ (2 <=? readableBytes b) ;;;
  let* be16 := peek_object 2 s16 in
  ret (s16 (networkToHost16 (u16 be16))).
Definition peekInt8 : M t Z :=
  let* b := get in
  assert_ (1 <=? readableBytes b) ;;;
  peek_object 1 s8.

Definition readInt64 : M t Z := let* result := peekInt64 in retrieveInt64 ;;; ret result.
Definition readInt32 : M t Z := let* result := peekInt32 in retrieveInt32 ;;; ret result.
Definition readInt16 : M t Z := let* result := peekInt16 in retrieveInt16 ;;; ret result.
Definition readInt8 : M t Z := let* result := peekInt8 in retrieveInt8 ;;; ret result.

Definition prependInt64 (x : Z) : M t unit :=
  let be64 := s64 (hostToNetwork64 (u64 x)) in prepend (ptr_to (object_bytes 8 be64)) 8.
Definition prependInt32 (x : Z) : M t unit :=
  let be32 := s32 (hostToNetwork32 (u32 x)) in prepend (ptr_to (object_bytes 4 be32)) 4.
Definition prependInt16 (x : Z) : M t unit :=
  let be16 := s16 (hostToNetwork16 (u16 x)) in prepend (ptr_to (object_bytes 2 be16)) 2.
Definition prependInt8 (x : Z) : M t unit := prepend (ptr_to (object_bytes 1 x)) 1.
End integers.

(** ** readFd *)

(** The outcome of [readv(2)]: -1 and [errno], or the bytes delivered, which
    the kernel scatters over the vectors in order. *)
Inductive read_result := ReadErr (errno : Z) | ReadOk (d : list byte).

Definition sizeof_extrabuf : Z := 65536.

(** [readv] is the kernel's answer to the lengths of the vectors passed. *)
Definition readFd (readv : list Z -> read_result) : M t (Z * option Z) :=
  let* b := get in
  let writable := writableBytes b in
  let iov := if writable <? sizeof_extrabuf then [writable; sizeof_extrabuf] else [writable] in
  match readv iov with
  | ReadErr errno => ret (-1, Some errno)
  | ReadOk d =>
      let n := Zlen d in
      (* the kernel fills the writable area first, then extrabuf *)
      copy_in (ztake writable d) (writerIndex_ b) ;;;
      let extrabuf := zdrop writable d in
      (if n <=? writable
       then modify (fun b => set_writer (u64 (writerIndex_ b + n)) b)
       else
         modify (fun b => set_writer (Zlen (buffer_ b)) b) ;;;
         append (ptr_to extrabuf) (u64 (n - writable))) ;;;
      ret (n, None)
  end.

(** ** The invariant and the abstraction *)

Record wf (b : t) : Prop := {
  wf_reader : 0 <= readerIndex_ b <= writerIndex_ b;
  wf_writer : writerIndex_ b <= Zlen (buffer_ b);
  wf_prepend : kCheapPrepend <= Zlen (buffer_ b) <= max_size }.

Definition content (b : t) : list byte :=
  zslice (readerIndex_ b) (writerIndex_ b - readerIndex_ b) (buffer_ b).

Lemma readable_wf b : wf b -> readableBytes b = writerIndex_ b - readerIndex_ b.
Proof. intros [? ? ?]. unfold readableBytes, max_size in *. rewrite u64_small; lia. Qed.

Lemma writable_wf b : wf b -> writableBytes b = Zlen (buffer_ b) - writerIndex_ b.
Proof. intros [? ? ?]. unfold writableBytes, max_size in *. rewrite u64_small; lia. Qed.

Lemma Zlen_content b : wf b -> Zlen (content b) = writerIndex_ b - readerIndex_ b.
Proof. intros [? ? ?]. unfold content. apply Zlen_zslice; lia. Qed.

Lemma readable_content b : wf b -> readableBytes b = Zlen (content b).
Proof. intros H. by rewrite readable_wf, Zlen_content. Qed.

Lemma range_content b n : wf b -> 0 <= n <= readableBytes b ->
  range b (peek b) (peek b + n) = Ok (ztake n (content b)).
Proof.
  intros H Hn. rewrite readable_wf in Hn by done. pose proof H as [? ? ?].
  unfold range, peek, content.
  rewrite (proj2 (Z.leb_le 0 _)), (proj2 (Z.leb_le (readerIndex_ b) _)),
    (proj2 (Z.leb_le (readerIndex_ b + n) _)) by lia. cbn. f_equal.
  unfold zslice. rewrite ztake_ztake by lia. f_equal. lia.
Qed.

Lemma range_readable b : wf b -> range b (peek b) (beginWrite b) = Ok (content b).
Proof.
  intros H. pose proof (range_content b (readableBytes b) H) as R.
  rewrite (readable_wf b) in R by done. unfold peek, beginWrite in *.
  pose proof H as [? ? ?]. replace (readerIndex_ b + _) with (writerIndex_ b) in R by lia.
  rewrite R by lia. f_equal. apply ztake_ge. rewrite Zlen_content by done. lia.
Qed.

(** ** Copying *)

Lemma copy_forward_lookup n src dst l (i : nat) :
  0 <= dst <= src -> src + Z.of_nat n <= Zlen l ->
  copy_forward n src dst l !! i =
  if decide (dst <= Z.of_nat i < dst + Z.of_nat n)
  then l !! Z.to_nat (Z.of_nat i - dst + src) else l !! i.
Proof.
  revert src dst l. induction n as [|n IH]; intros src dst l Hd Hs; cbn [copy_forward].
  - by rewrite decide_False by lia.
  - destruct (l !! Z.to_nat src) as [c|] eqn:E.
    2: { apply lookup_ge_None in E. unfold Zlen in Hs. lia. }
    rewrite IH; [|lia|unfold Zlen in *; rewrite length_insert; lia].
    destruct (decide (Z.of_nat i = dst)) as [Hi|Hi].
    + rewrite decide_False by lia. rewrite decide_True by lia.
      replace (Z.to_nat dst) with i by lia. unfold Zlen in Hs.
      rewrite list_lookup_insert_eq by lia. rewrite <- E. f_equal. lia.
    + repeat case_decide; try lia; rewrite list_lookup_insert_ne by lia; f_equal; lia.
Qed.

Lemma length_copy_forward n src dst l : length (copy_forward n src dst l) = length l.
Proof.
  revert src dst l. induction n as [|n IH]; intros src dst l; cbn [copy_forward]; [done|].
  rewrite IH. destruct (l !! Z.to_nat src); [apply length_insert|done].
Qed.

(** Moving a range down, even onto itself, moves its contents. *)
Lemma copy_forward_moves n src dst l :
  0 <= dst <= src -> 0 <= n -> src + n <= Zlen l ->
  zslice dst n (copy_forward (Z.to_nat n) src dst l) = zslice src n l.
Proof.
  intros Hd Hn Hs. apply list_eq. intros k. rewrite !lookup_zslice by lia.
  case_decide; [|done]. rewrite copy_forward_lookup by lia.
  rewrite decide_True by lia. f_equal. lia.
Qed.

Lemma wp_copy_within first last dst b (Q : unit -> t -> Prop) :
  0 <= dst <= first -> first <= last -> last <= Zlen (buffer_ b) ->
  (forall l, Zlen l = Zlen (buffer_ b) ->
     zslice dst (last - first) l = zslice first (last - first) (buffer_ b) ->
     Q tt (set_bytes l b)) ->
  wp (copy_within first last dst) Q b.
Proof.
  intros Hd Hf Hl HQ. unfold copy_within. wp_steps.
  rewrite (proj2 (Z.leb_le 0 first)), (proj2 (Z.leb_le first last)),
    (proj2 (Z.leb_le last _)), (proj2 (Z.leb_le 0 dst)),
    (proj2 (Z.leb_le (dst + _) _)) by lia. cbn [andb]. wp_steps. apply HQ.
  - unfold Zlen. by rewrite length_copy_forward.
  - apply copy_forward_moves; lia.
Qed.

Lemma wp_copy_in {E} d dst b (Q : unit -> t -> Prop) :
  0 <= dst -> dst + Zlen d <= Zlen (buffer_ b) ->
  (forall l, Zlen l = Zlen (buffer_ b) -> ztake dst l = ztake dst (buffer_ b) ->
     zslice dst (Zlen d) l = d ->
     zdrop (dst + Zlen d) l = zdrop (dst + Zlen d) (buffer_ b) -> Q tt (set_bytes l b)) ->
  wpe E (copy_in d dst) Q b.
Proof.
  intros Hd Hl HQ. unfold copy_in. wp_steps. pose proof (Zlen_nonneg d).
  rewrite (proj2 (Z.leb_le 0 dst)), (proj2 (Z.leb_le (dst + _) _)) by lia. cbn [andb]. wp_steps.
  assert (Zlen (ztake dst (buffer_ b)) = dst) as Ht by (apply Zlen_ztake; lia).
  apply HQ.
  - zlen.
  - by rewrite ztake_app_l, ztake_ztake by lia.
  - rewrite zslice_app_r, Ht, Z.sub_diag by lia. rewrite zslice_app_l by lia. apply zslice_all.
  - rewrite app_assoc. rewrite zdrop_app_r by zlen. zlen.
    by replace (dst + Zlen d - (dst + Zlen d)) with 0 by lia.
Qed.

(** ** makeSpace and append *)

(** What making room may do to the indices: the reader moves to the cheap
    prepend offset or stays, the writer never moves up. *)
Definition indices_kept (b b' : t) : Prop :=
  kCheapPrepend `min` readerIndex_ b <= readerIndex_ b' /\ writerIndex_ b' <= writerIndex_ b.

(** Room for [len] more bytes: the readable bytes are unchanged; the vector
    keeps its size when prepend and tail room suffice, else it grows to end
    exactly at [writerIndex_ + len]. *)
Definition has_room (b : t) (len : Z) : bool :=
  (readableBytes b + len + kCheapPrepend <=? Zlen (buffer_ b)) || (len <=? writableBytes b).

Definition grown_size (b : t) (len : Z) : Z :=
  if has_room b len then Zlen (buffer_ b) else writerIndex_ b + len.

Lemma grown_size_cases b len : wf b ->
  (writerIndex_ b - readerIndex_ b + len + kCheapPrepend <= Zlen (buffer_ b) \/
   len <= Zlen (buffer_ b) - writerIndex_ b) /\ grown_size b len = Zlen (buffer_ b) \/
  (Zlen (buffer_ b) < writerIndex_ b - readerIndex_ b + len + kCheapPrepend /\
   Zlen (buffer_ b) - writerIndex_ b < len) /\ grown_size b len = writerIndex_ b + len.
Proof.
  intros H. unfold grown_size, has_room. rewrite readable_wf, writable_wf by done.
  destruct (Z.leb_spec (writerIndex_ b - readerIndex_ b + len + kCheapPrepend) (Zlen (buffer_ b)));
    destruct (Z.leb_spec len (Zlen (buffer_ b) - writerIndex_ b)); cbn; lia.
Qed.

Lemma makeSpace_spec b len :
  wf b -> writableBytes b < len ->
  writerIndex_ b + len <= max_size \/ writerIndex_ b - readerIndex_ b + len + kCheapPrepend <= Zlen (buffer_ b) ->
  wp (makeSpace len) (fun _ b' =>
    wf b' /\ content b' = content b /\ len <= Zlen (buffer_ b') - writerIndex_ b' /\
    Zlen (buffer_ b') = grown_size b len /\ indices_kept b b') b.
Proof.
  intros H Hw Hm. pose proof H as [H1 H2 H3]. pose proof (grown_size_cases b len H) as Hg.
  rewrite (writable_wf b) in Hw by done. unfold max_size, kCheapPrepend in *.
  unfold makeSpace. wp_steps. rewrite writable_wf, readable_wf by done. unfold prependableBytes, kCheapPrepend.
  rewrite !u64_small by lia.
  destruct (Z.ltb_spec (Zlen (buffer_ b) - writerIndex_ b + readerIndex_ b) (len + 8)).
  - unfold resize, max_size. rewrite (proj2 (Z.ltb_ge _ _)) by lia. wp_steps.
    rewrite ztake_ge by lia.
    assert (Zlen (buffer_ b ++ replicate (Z.to_nat (writerIndex_ b + len - Zlen (buffer_ b))) x00)
            = writerIndex_ b + len) as Hlen by (zlen).
    split; [constructor; cbn -[Z.pow]; unfold kCheapPrepend, max_size; lia|].
    split; [unfold content; cbn; by rewrite zslice_app_l by lia|]. unfold indices_kept; cbn. lia.
  - wp_steps. apply wp_assert; [apply Z.ltb_lt; lia|]. wp_steps.
    apply wp_copy_within; [lia..|]. intros l Hl Hs. wp_steps. cbn [set_bytes set_reader readerIndex_].
    rewrite (u64_small (8 + _)) by lia. unfold set_writer; cbn.
    assert (wf (mk l 8 (8 + (writerIndex_ b - readerIndex_ b)))) as Hwf'
      by (constructor; cbn; unfold kCheapPrepend, max_size; lia).
    apply wp_assert. { rewrite readable_wf by done. cbn. apply Z.eqb_eq. lia. }
    split; [done|]. unfold content; cbn.
    replace (8 + (writerIndex_ b - readerIndex_ b) - 8) with (writerIndex_ b - readerIndex_ b) by lia.
    split; [done|]. unfold indices_kept, kCheapPrepend; cbn. lia.
Qed.

Lemma ensureWritableBytes_spec b len :
  wf b -> 0 <= len ->
  writerIndex_ b + len <= max_size \/ writerIndex_ b - readerIndex_ b + len + kCheapPrepend <= Zlen (buffer_ b) ->
  wp (ensureWritableBytes len) (fun _ b' =>
    wf b' /\ content b' = content b /\ len <= Zlen (buffer_ b') - writerIndex_ b' /\
    Zlen (buffer_ b') = grown_size b len /\ indices_kept b b') b.
Proof.
  intros H Hl Hm. unfold ensureWritableBytes. wp_steps.
  apply wpe_mono with (Q := fun _ b' => wf b' /\ content b' = content b /\
    len <= Zlen (buffer_ b') - writerIndex_ b' /\ Zlen (buffer_ b') = grown_size b len /\
    indices_kept b b').
  - unfold when. destruct (Z.ltb_spec (writableBytes b) len).
    + by apply makeSpace_spec.
    + wp_steps. split; [done|]. split; [done|]. rewrite writable_wf in * by done.
      pose proof (grown_size_cases b len H). unfold indices_kept. lia.
  - cbn. intros _ b' (H1 & H2 & H3 & H4 & H5). wp_steps. apply wp_assert; [|done].
    apply Z.leb_le. by rewrite writable_wf.
Qed.

Lemma append_spec b data len d :
  wf b -> load data len = Ok d ->
  writerIndex_ b + len <= max_size \/ writerIndex_ b - readerIndex_ b + len + kCheapPrepend <= Zlen (buffer_ b) ->
  wp (append data len) (fun _ b' =>
    wf b' /\ content b' = content b ++ d /\ Zlen (buffer_ b') = grown_size b len /\
    kCheapPrepend `min` readerIndex_ b <= readerIndex_ b' /\
    writerIndex_ b' <= writerIndex_ b + len) b.
Proof.
  intros H Hd Hm. pose proof (StringPiece.load_length _ _ _ Hd) as Hlen. pose proof (Zlen_nonneg d).
  unfold append. wp_steps. eapply wpe_mono; [apply ensureWritableBytes_spec; auto; lia|].
  cbn. intros _ b1 (H1 & H2 & H3 & H4 & H5). wp_steps. apply wp_lift with d; [done|]. wp_steps. pose proof H1 as [? ? ?]. apply wp_copy_in; [unfold beginWrite; lia..|].
  unfold beginWrite. intros l Hl Ht Hs _. unfold hasWritten. wp_steps.
  unfold max_size in *. apply wp_assert.
  { apply Z.leb_le. unfold writableBytes; cbn. rewrite u64_small; lia. }
  wp_steps. cbn. rewrite u64_small by lia. unfold set_writer; cbn.
  split; [constructor; cbn; unfold max_size; lia|]. split; [|unfold indices_kept in H5; cbn; lia].
  rewrite <- H2. unfold content; cbn.
  replace (writerIndex_ b1 + len - readerIndex_ b1)
    with ((writerIndex_ b1 - readerIndex_ b1) + len) by lia.
  rewrite zslice_app by lia. f_equal.
  - rewrite <- (zslice_ztake _ _ (writerIndex_ b1) l), Ht, zslice_ztake by lia. done.
  - replace (readerIndex_ b1 + _) with (writerIndex_ b1) by lia. by rewrite <- Hlen.
Qed.

(** Whatever the length, [append] adds the bytes or throws
    [std::length_error]. *)
Lemma append_safe b data len d :
  wf b -> load data len = Ok d -> len <= max_size - kCheapPrepend ->
  wpe (eq Thrown) (append data len) (fun _ b' => wf b' /\ content b' = content b ++ d) b.
Proof.
  intros H Hd Hlen. pose proof (StringPiece.load_length _ _ _ Hd) as Hl. pose proof (Zlen_nonneg d).
  destruct (Z.le_gt_cases (writerIndex_ b + len) max_size) as [Hm|Hm];
    [|destruct (Z.le_gt_cases (writerIndex_ b - readerIndex_ b + len + kCheapPrepend) (Zlen (buffer_ b))) as [Hr|Hr]].
  1-2: (eapply wpe_weaken; [eapply wpe_mono; [eapply append_spec; [done|exact Hd|auto]|]|done];
    cbn; intros _ b' (? & ? & _); done).
  pose proof H as [H1 H2 H3]. unfold append, ensureWritableBytes, makeSpace. wp_steps.
  rewrite writable_wf by done. unfold max_size, kCheapPrepend in *.
  rewrite (proj2 (Z.ltb_lt _ len)) by lia. cbn [when]. wp_steps.
  rewrite writable_wf by done. unfold prependableBytes, kCheapPrepend. rewrite !u64_small by lia.
  rewrite (proj2 (Z.ltb_lt _ (len + 8))) by lia. unfold resize, max_size.
  rewrite (proj2 (Z.ltb_lt _ (writerIndex_ b + len))) by lia. by apply wpe_throw.
Qed.

(** ** Removing and prepending *)

Lemma retrieveAll_spec b : wf b ->
  wp retrieveAll (fun _ b' => wf b' /\ content b' = [] /\
    readerIndex_ b' = kCheapPrepend /\ writerIndex_ b' = kCheapPrepend) b.
Proof.
  intros [? ? ?]. unfold retrieveAll. wp_steps. cbn. unfold kCheapPrepend in *.
  split; [constructor; cbn; unfold kCheapPrepend; lia|]. split; [|done].
  unfold content; cbn. done.
Qed.

Lemma retrieve_spec b len : wf b -> 0 <= len <= readableBytes b ->
  wp (retrieve len) (fun _ b' => wf b' /\ content b' = zdrop len (content b) /\
    (if len <? readableBytes b
     then readerIndex_ b' = readerIndex_ b + len /\ writerIndex_ b' = writerIndex_ b
     else readerIndex_ b' = kCheapPrepend /\ writerIndex_ b' = kCheapPrepend)) b.
Proof.
  intros H Hl. pose proof H as [H1 H2 H3]. unfold retrieve. wp_steps.
  apply wp_assert; [apply Z.leb_le; lia|].
  destruct (Z.ltb_spec len (readableBytes b)) as [E|E]; rewrite readable_wf in E, Hl by done.
  - wp_steps. unfold max_size in *. rewrite u64_small by lia. cbn.
    split; [constructor; cbn; unfold max_size; lia|]. split; [|done].
    unfold content; cbn. unfold zslice at 2. rewrite zdrop_ztake by lia.
    unfold zslice. rewrite zdrop_zdrop by lia. f_equal. lia.
  - eapply wpe_mono; [by apply retrieveAll_spec|]. cbn. intros _ b' (? & -> & ?).
    split; [done|]. split; [|done]. rewrite zdrop_ge; [done|]. rewrite Zlen_content by done. lia.
Qed.

Lemma unwrite_spec b len : wf b -> 0 <= len <= readableBytes b ->
  wp (unwrite len) (fun _ b' => wf b' /\ content b' = ztake (Zlen (content b) - len) (content b) /\
    readerIndex_ b' = readerIndex_ b /\ writerIndex_ b' = writerIndex_ b - len) b.
Proof.
  intros H Hl. pose proof H as [H1 H2 H3]. unfold unwrite. wp_steps.
  apply wp_assert; [apply Z.leb_le; lia|]. wp_steps. rewrite readable_wf in Hl by done.
  unfold max_size in *. rewrite u64_small by lia. cbn.
  split; [constructor; cbn; unfold max_size; lia|]. split; [|done].
  rewrite Zlen_content by done. unfold content; cbn. unfold zslice. rewrite ztake_ztake by lia.
  f_equal. lia.
Qed.

Lemma prepend_spec b data len d : wf b -> load data len = Ok d -> len <= prependableBytes b ->
  wp (prepend data len) (fun _ b' => wf b' /\ content b' = d ++ content b /\
    readerIndex_ b' = readerIndex_ b - len /\ writerIndex_ b' = writerIndex_ b) b.
Proof.
  intros H Hd Hl. pose proof (StringPiece.load_length _ _ _ Hd) as Hlen. pose proof (Zlen_nonneg d).
  pose proof H as [H1 H2 H3]. unfold prepend, prependableBytes in *. wp_steps.
  apply wp_assert; [by apply Z.leb_le|]. wp_steps. apply wp_lift with d; [done|]. wp_steps.
  unfold max_size in *. rewrite u64_small by lia. cbn.
  apply wp_copy_in; cbn; [lia..|]. intros l Hl' Ht Hs Hr.
  split; [constructor; cbn; unfold max_size; lia|]. split; [|done].
  unfold content; cbn.
  replace (writerIndex_ b - (readerIndex_ b - len)) with (len + (writerIndex_ b - readerIndex_ b)) by lia.
  rewrite zslice_app by lia. subst len. rewrite Hs. f_equal.
  unfold zslice. rewrite Hr. do 2 f_equal. lia.
Qed.

Lemma peek_bytes_spec b n : wf b -> 0 <= n <= readableBytes b ->
  peek_bytes n b = Ok (ztake n (content b), b).
Proof.
  intros H Hn. unfold peek_bytes, bind, get, lift. by rewrite range_content.
Qed.

Lemma retrieveAsString_spec b len : wf b -> 0 <= len <= readableBytes b ->
  wp (retrieveAsString len) (fun s b' =>
    s = ztake len (content b) /\ wf b' /\ content b' = zdrop len (content b)) b.
Proof.
  intros H Hl. unfold retrieveAsString. wp_steps. apply wp_assert; [apply Z.leb_le; lia|].
  wp_steps. eapply wp_intro; [by apply peek_bytes_spec|]. wp_steps.
  eapply wpe_mono; [by apply retrieve_spec|]. cbn. intros _ b' (? & ? & _). by wp_steps.
Qed.

Lemma make_spec n : 0 <= n -> kCheapPrepend + n <= max_size ->
  exists b, make n = Ok b /\ wf b /\ content b = [] /\
    readerIndex_ b = kCheapPrepend /\ writerIndex_ b = kCheapPrepend /\
    Zlen (buffer_ b) = kCheapPrepend + n.
Proof.
  unfold max_size, kCheapPrepend. intros Hn Hm. unfold make, kCheapPrepend, max_size.
  rewrite u64_small by lia. rewrite (proj2 (Z.ltb_ge _ _)) by lia.
  set (b := mk _ 8 8).
  assert (Zlen (buffer_ b) = 8 + n) as Hl by (cbn; zlen).
  assert (wf b) as Hwf by (constructor; unfold kCheapPrepend, max_size; cbn [readerIndex_ writerIndex_ b]; lia).
  rewrite readable_wf, writable_wf, Hl by done. unfold prependableBytes; cbn [readerIndex_ writerIndex_ b].
  rewrite (proj2 (Z.eqb_eq _ _)), (proj2 (Z.eqb_eq (8 + n - 8) n)) by lia. cbn.
  exists b. split; [done|]. split; [done|]. split; [done|]. done.
Qed.

(** ** Refinement of the byte queue *)

(** The specification: a queue of bytes, a lower bound [front] on the bytes
    that may be prepended and an upper bound [back] on the end of the
    readable bytes, which decides when the vector may still grow. *)
Module ByteQueue.

Record state : Type := St { queue : list byte; front : Z; back : Z }.

Inductive op : Type :=
| Append (d : list byte)
| Prepend (d : list byte)
| Retrieve (n : Z)
| RetrieveAll
| Unwrite (n : Z)
| EnsureWritable (n : Z)
| Shrink (reserve : Z).

Definition init : state := St [] kCheapPrepend kCheapPrepend.

(** [None]: the specification does not allow the call. *)
Definition step (o : op) (s : state) : option state :=
  let '(St q f k) := s in
  match o with
  | Append d =>
      if k + Zlen d <=? max_size
      then Some (St (q ++ d) (f `min` kCheapPrepend) (k + Zlen d)) else None
  | Prepend d => if Zlen d <=? f then Some (St (d ++ q) (f - Zlen d) k) else None
  | Retrieve n =>
      if (0 <=? n) && (n <=? Zlen q)
      then Some (if n <? Zlen q then St (zdrop n q) (f + n) k
                 else St [] kCheapPrepend kCheapPrepend)
      else None
  | RetrieveAll => Some (St [] kCheapPrepend kCheapPrepend)
  | Unwrite n =>
      if (0 <=? n) && (n <=? Zlen q)
      then Some (St (ztake (Zlen q - n) q) f (k - n)) else None
  | EnsureWritable n =>
      if (0 <=? n) && (k + n <=? max_size)
      then Some (St q (f `min` kCheapPrepend) k) else None
  | Shrink reserve =>
      if (Zlen q <? 2 ^ 31) && (0 <=? reserve) && (kCheapPrepend + Zlen q + reserve <=? max_size)
      then Some (St q kCheapPrepend (kCheapPrepend + Zlen q)) else None
  end.

Fixpoint steps (l : list op) (s : state) : option state :=
  match l with
  | [] => Some s
  | o :: l => match step o s with Some s => steps l s | None => None end
  end.

End ByteQueue.

(** The call that implements each operation. *)
Definition exec (o : ByteQueue.op) : M t unit :=
  match o with
  | ByteQueue.Append d => append (ptr_to d) (Zlen d)
  | ByteQueue.Prepend d => prepend (ptr_to d) (Zlen d)
  | ByteQueue.Retrieve n => retrieve n
  | ByteQueue.RetrieveAll => retrieveAll
  | ByteQueue.Unwrite n => unwrite n
  | ByteQueue.EnsureWritable n => ensureWritableBytes n
  | ByteQueue.Shrink reserve => shrink reserve
  end.

Definition refines (b : t) (s : ByteQueue.state) : Prop :=
  wf b /\ content b = ByteQueue.queue s /\
  0 <= ByteQueue.front s <= readerIndex_ b /\ writerIndex_ b <= ByteQueue.back s.

(** [shrink] moves the readable bytes into a fresh vector.  The byte count
    passes through the [int] length of a [StringPiece]. *)
Lemma shrink_spec b reserve :
  wf b -> 0 <= reserve -> kCheapPrepend + readableBytes b + reserve <= max_size ->
  0 <= s32 (readableBytes b) <= readableBytes b ->
  wp (shrink reserve) (fun _ b' => wf b' /\ content b' = ztake (s32 (readableBytes b)) (content b) /\
    readerIndex_ b' = kCheapPrepend /\
    writerIndex_ b' <= kCheapPrepend + s32 (readableBytes b)) b.
Proof.
  intros H Hr Hm Hn. pose proof H as [? ? ?]. unfold shrink. wp_steps.
  destruct (make_spec kInitialSize) as (o & Ho & Hwf & Hc & Hro & Hwo & Hlo);
    [done|unfold max_size; vm_compute; discriminate|].
  apply wp_lift with o; [done|]. wp_steps.
  set (n := s32 (readableBytes b)) in *. rewrite (u64_small (_ + reserve))
    by (rewrite readable_wf in * by done; unfold max_size, kCheapPrepend in *; lia).
  assert (wp (ensureWritableBytes (readableBytes b + reserve) ;;; append_piece (toStringPiece b))
    (fun _ o' => wf o' /\ content o' = ztake n (content b) /\
      readerIndex_ o' = kCheapPrepend /\ writerIndex_ o' <= kCheapPrepend + n) o) as W.
  { wp_steps. eapply wpe_mono; [apply ensureWritableBytes_spec; [done|lia|lia]|].
    cbn. intros _ o1 (H1 & H2 & H3 & H4 & H5). pose proof H1 as [? ? ?].
    unfold indices_kept in H5. unfold append_piece, toStringPiece; cbn.
    unfold StringPiece.data, StringPiece.size; cbn. fold n.
    rewrite u64_small by (rewrite readable_wf in * by done; unfold max_size in *; lia).
    eapply wpe_mono.
    - apply append_spec with (d := ztake n (content b)); [done| |lia].
      rewrite load_ok; cbn; unfold peek; rewrite ?readable_wf in * by done; [|lia..].
      f_equal. unfold content. unfold zslice. by rewrite ztake_ztake by lia.
    - cbn. intros _ o2 (G1 & G2 & G3 & G4 & G5). split; [done|].
      rewrite G2, H2, Hc. split; [done|].
      assert (Zlen (content o2) = n) as Hn2.
      { rewrite G2, H2, Hc. cbn. apply Zlen_ztake. rewrite <- readable_content by done. lia. }
      rewrite Zlen_content in Hn2 by done. pose proof G1 as [? ? ?]. lia. }
  apply wp_elim in W as (u & o' & -> & Hq). wp_steps. apply wp_lift with o'; [done|]. wp_steps. done.
Qed.

Lemma exec_refines o b s s' : refines b s -> ByteQueue.step o s = Some s' ->
  wp (exec o) (fun _ b' => refines b' s') b.
Proof.
  destruct s as [q f k]. intros (H & Hq & Hf & Hk). cbn in Hq, Hf, Hk. pose proof H as [? ? ?].
  pose proof (readable_content b H) as Hr. pose proof (readable_wf b H) as Hr'. rewrite Hq in Hr.
  unfold refines. destruct o as [d|d|n| |n|n|r]; cbn [ByteQueue.step exec].
  - case_match; [|done]. intros [= <-]. to_prop. eapply wpe_mono.
    { eapply append_spec; [done|apply load_ptr_to|lia]. }
    cbn. intros _ b' (? & -> & _ & ? & ?). rewrite Hq. unfold kCheapPrepend in *.
    split; [done|]. split; [done|lia].
  - case_match; [|done]. intros [= <-]. to_prop. eapply wpe_mono.
    { eapply prepend_spec; [done|apply load_ptr_to|unfold prependableBytes; lia]. }
    cbn. intros _ b' (? & -> & ? & ?). rewrite Hq. split; [done|]. split; [done|lia].
  - case_match; [|done]. to_prop. intros [= <-]. eapply wpe_mono; [apply retrieve_spec; [done|lia]|].
    cbn. intros _ b' (? & -> & ?). rewrite Hq. rewrite Hr in *. split; [done|].
    destruct (Z.ltb_spec n (Zlen q)); cbn.
    + split; [done|lia].
    + rewrite zdrop_ge by lia. unfold kCheapPrepend in *. split; [done|lia].
  - intros [= <-]. eapply wpe_mono; [by apply retrieveAll_spec|]. cbn.
    unfold kCheapPrepend in *. intros _ b' (? & -> & ? & ?). split; [done|]. split; [done|lia].
  - case_match; [|done]. to_prop. intros [= <-]. eapply wpe_mono; [apply unwrite_spec; [done|lia]|].
    cbn. intros _ b' (? & -> & ? & ?). rewrite Hq. split; [done|]. split; [done|lia].
  - case_match; [|done]. to_prop. intros [= <-].
    eapply wpe_mono; [apply ensureWritableBytes_spec; [done|lia|lia]|].
    cbn. unfold indices_kept, kCheapPrepend. intros _ b' (? & -> & _ & _ & ?).
    split; [done|]. split; [done|lia].
  - case_match; [|done]. to_prop. intros [= <-]. pose proof (Zlen_nonneg q).
    assert (s32 (readableBytes b) = Zlen q) as Hs by (rewrite s32_small; lia).
    eapply wpe_mono; [apply shrink_spec; [done|lia..]|]. rewrite Hs.
    cbn. intros _ b' (? & -> & ? & ?). rewrite Hq, ztake_ge by lia. unfold kCheapPrepend in *.
    split; [done|]. split; [done|lia].
Qed.

(** C14: Every sequence of buffer calls that the byte-queue specification
    allows, run on a freshly constructed [Buffer], returns without an
    assertion failure, an exception or undefined behaviour, and leaves
    exactly the bytes of the specification's queue readable (a forward
    simulation from the concrete indices to the queue). *)
Theorem buffer_refines_queue (initialSize : Z) (l : list ByteQueue.op) (s' : ByteQueue.state) :
  0 <= initialSize -> kCheapPrepend + initialSize <= max_size ->
  ByteQueue.steps l ByteQueue.init = Some s' ->
  exists b0 b', make initialSize = Ok b0 /\
    for_each exec l b0 = Ok (tt, b') /\ wf b' /\ content b' = ByteQueue.queue s'.
Proof.
  intros Hn Hm Hs. destruct (make_spec initialSize Hn Hm) as (b0 & Hb & Hwf & Hc & Hr & Hw & _).
  exists b0. assert (refines b0 ByteQueue.init) as Hrel.
  { unfold refines; cbn. unfold kCheapPrepend in *. split; [done|]. split; [done|lia]. }
  clear Hc Hr Hw Hwf.
  enough (wp (for_each exec l) (fun _ b' => refines b' s') b0) as W.
  { apply wp_elim in W as ([] & b' & -> & (? & ? & _)). eauto 10. }
  clear Hb. revert b0 Hrel Hs. generalize ByteQueue.init as s.
  induction l as [|o l IH]; intros s b Hrel Hs; cbn [for_each ByteQueue.steps] in *.
  - injection Hs as <-. by wp_steps.
  - destruct (ByteQueue.step o s) as [s1|] eqn:E; [|done]. wp_steps.
    eapply wpe_mono; [by eapply exec_refines|]. cbn. intros _ b1 H1. by apply (IH s1).
Qed.

Lemma buffer_refines_queue_witness :
  exists b0 b', make 4 = Ok b0 /\
    for_each exec [ByteQueue.Append [x41; x42; x43; x44; x45]; ByteQueue.Retrieve 2;
                   ByteQueue.Append [x46; x47; x48]; ByteQueue.Prepend [x30];
                   ByteQueue.Unwrite 1; ByteQueue.Shrink 0] b0 = Ok (tt, b') /\
    wf b' /\ content b' = [x30; x43; x44; x45; x46; x47].
Proof.
  eapply (buffer_refines_queue 4 _
    (ByteQueue.St [x30; x43; x44; x45; x46; x47] 8 14)); [lia|vm_compute; discriminate|].
  vm_compute. reflexivity.
Defined.

(** ** Growth, errors, shrink *)

(** C30: Appending never moves or loses a readable byte and grows the vector
    only when it must: the vector keeps its size exactly when the readable
    bytes, the new bytes and the cheap prepend area fit in it or the tail
    alone is long enough, and otherwise ends exactly after the new bytes. *)
Theorem append_exact (b : t) (data : cptr) (len : Z) (d : list byte) :
  wf b -> load data len = Ok d -> writerIndex_ b + len <= max_size ->
  exists b', append data len b = Ok (tt, b') /\ wf b' /\ content b' = content b ++ d /\
    Zlen (buffer_ b') =
      (if has_room b len then Zlen (buffer_ b) else writerIndex_ b + len).
Proof.
  intros H Hd Hm. destruct (wp_elim _ _ _ (append_spec _ _ _ _ H Hd (or_introl Hm))) as ([] & b' & ? & ? & ? & ? & _).
  by exists b'.
Qed.

Definition small_buffer : t := mk (replicate 6 x00 ++ [x61; x62; x63] ++ replicate 3 x00) 6 9.

Lemma small_buffer_wf : wf small_buffer.
Proof. constructor; vm_compute; repeat split; discriminate. Qed.

Lemma append_exact_witness :
  exists b', append (ptr_to [x64; x65; x66; x67]) 4 small_buffer = Ok (tt, b') /\ wf b' /\
    content b' = [x61; x62; x63; x64; x65; x66; x67] /\ Zlen (buffer_ b') = 13.
Proof.
  apply (append_exact small_buffer (ptr_to [x64; x65; x66; x67]) 4 [x64; x65; x66; x67]
           small_buffer_wf); [reflexivity|vm_compute; discriminate].
Defined.

(** The asserted preconditions are exact: taking back, retrieving or
    committing more bytes than there are, or prepending more than the room
    before the reader, fails the assertion and nothing else can happen. *)
Theorem asserts_exact (b : t) (len : Z) (data : cptr) (d : list byte) :
  wf b -> 0 <= len < 2 ^ 64 -> load data len = Ok d ->
  (is_Some (match retrieve len b with Ok r => Some r | Err _ => None end) <-> len <= readableBytes b) /\
  (readableBytes b < len -> retrieve len b = Err AssertFailed /\ unwrite len b = Err AssertFailed /\
     retrieveAsString len b = Err AssertFailed) /\
  (prependableBytes b < len -> prepend data len b = Err AssertFailed) /\
  (writableBytes b < len -> hasWritten len b = Err AssertFailed).
Proof.
  intros H Hl Hd. repeat split.
  - intros [x Hx]. unfold retrieve, bind, get, assert_ in Hx.
    destruct (Z.leb_spec len (readableBytes b)); [done|]. done.
  - intros Hle. destruct (wp_elim _ _ _ (retrieve_spec b len H ltac:(lia))) as (u & b' & -> & _). eauto.
  - unfold retrieve, bind, get. by rewrite (proj2 (Z.leb_gt _ _)) by done.
  - unfold unwrite, bind, get. by rewrite (proj2 (Z.leb_gt _ _)) by done.
  - unfold retrieveAsString, bind, get. by rewrite (proj2 (Z.leb_gt _ _)) by done.
  - intros E. unfold prepend, bind, get. by rewrite (proj2 (Z.leb_gt _ _)) by done.
  - intros E. unfold hasWritten, bind, get. by rewrite (proj2 (Z.leb_gt _ _)) by done.
Qed.

Lemma asserts_exact_witness :
  (is_Some (match retrieve 4 small_buffer with Ok r => Some r | Err _ => None end)
     <-> 4 <= readableBytes small_buffer) /\
  (readableBytes small_buffer < 4 -> retrieve 4 small_buffer = Err AssertFailed /\
     unwrite 4 small_buffer = Err AssertFailed /\
     retrieveAsString 4 small_buffer = Err AssertFailed) /\
  (prependableBytes small_buffer < 4 ->
     prepend (ptr_to [x00; x00; x00; x00]) 4 small_buffer = Err AssertFailed) /\
  (writableBytes small_buffer < 4 -> hasWritten 4 small_buffer = Err AssertFailed).
Proof.
  apply (asserts_exact small_buffer 4 (ptr_to [x00; x00; x00; x00]) [x00; x00; x00; x00]);
    [exact small_buffer_wf|lia|reflexivity].
Defined.

(** A length that went negative as an [int] is never appended. *)
Lemma append_negative_length o data n :
  wf o -> readerIndex_ o = kCheapPrepend -> writerIndex_ o = kCheapPrepend ->
  - 2 ^ 31 <= n < 0 ->
  append data (u64 n) o = Err Thrown \/ append data (u64 n) o = Err AssertFailed.
Proof.
  intros H Hr Hw Hn. pose proof H as [? ? ?]. unfold max_size, kCheapPrepend in *.
  assert (u64 n = 2 ^ 64 + n) as Hu by (unfold u64; rewrite <- (Z.mod_add n 1), Z.mod_small; lia).
  rewrite Hu. clear Hu.
  assert (makeSpace (2 ^ 64 + n) o = Err Thrown \/ makeSpace (2 ^ 64 + n) o = Err AssertFailed)
    as Hms.
  { unfold makeSpace, prependableBytes. rewrite (bind_ok _ _ o o o) by done. cbn beta.
    rewrite writable_wf, Hw, Hr, (u64_small (_ - 8 + 8)) by (done || lia). unfold kCheapPrepend.
    destruct (Z.ltb_spec (Zlen (buffer_ o) - 8 + 8) (u64 (2 ^ 64 + n + 8))) as [E|E].
    - left. unfold resize, max_size. rewrite (proj2 (Z.ltb_lt _ _)); [done|].
      assert (n < -8) as Hn8.
      { destruct (Z.lt_ge_cases n (-8)); [done|]. exfalso.
        unfold u64 in E. rewrite <- (Z.mod_add _ (-1)), Z.mod_small in E by lia. lia. }
      rewrite u64_small by lia. lia.
    - right. by apply bind_err. }
  assert (forall e, makeSpace (2 ^ 64 + n) o = Err e -> append data (2 ^ 64 + n) o = Err e) as Happ.
  { intros e He. unfold append. apply bind_err. unfold ensureWritableBytes.
    rewrite (bind_ok _ _ o o o) by done. apply bind_err. unfold when.
    rewrite writable_wf, Hw by done. rewrite (proj2 (Z.ltb_lt _ _)) by lia. done. }
  destruct Hms; auto.
Qed.

(** C32: [shrink] keeps the readable bytes, up to what fits the [int] length
    of the [StringPiece] it copies through: below 2 GiB every byte is kept;
    at or above 2 GiB the length is cut modulo 2^32, and when the cut is
    negative the call fails instead of copying. *)
Theorem shrink_exact (b : t) (reserve : Z) :
  wf b -> 0 <= reserve -> kCheapPrepend + readableBytes b + reserve <= max_size ->
  let n := s32 (readableBytes b) in
  (readableBytes b < 2 ^ 31 -> n = readableBytes b) /\
  (0 <= n -> exists b', shrink reserve b = Ok (tt, b') /\ wf b' /\ content b' = ztake n (content b)) /\
  (n < 0 -> shrink reserve b = Err Thrown \/ shrink reserve b = Err AssertFailed).
Proof.
  intros H Hr Hm n. pose proof (readable_content b H) as Hc. pose proof (Zlen_nonneg (content b)).
  split; [intros; apply s32_small; lia|]. split.
  - intros Hn. assert (n <= readableBytes b) as Hle.
    { destruct (Z.lt_ge_cases (readableBytes b) (2 ^ 31)); [unfold n; rewrite s32_small; lia|].
      pose proof (sint_range 32 (readableBytes b)). unfold n, s32. lia. }
    destruct (wp_elim _ _ _ (shrink_spec b reserve H Hr Hm ltac:(lia))) as ([] & b' & ? & ? & ? & _).
    by exists b'.
  - intros Hn. unfold shrink. rewrite (bind_ok _ _ b b b) by done.
    destruct (make_spec kInitialSize) as (o & Ho & Hwf & Hco & Hro & Hwo & Hlo);
      [done|unfold max_size; vm_compute; discriminate|].
    rewrite (bind_ok _ _ b o b) by (unfold lift; by rewrite Ho).
    assert (0 <= readableBytes b + reserve < 2 ^ 64) as Hrange
      by (unfold max_size, kCheapPrepend in Hm; lia).
    rewrite u64_small by done.
    destruct (wp_elim _ _ _ (ensureWritableBytes_spec o (readableBytes b + reserve) Hwf
      ltac:(lia) ltac:(lia))) as ([] & o1 & Ho1 & H1 & H2 & H3 & H4 & H5).
    rewrite (bind_ok _ _ o tt o1) by done.
    unfold indices_kept in H5. pose proof H1 as [? ? ?].
    assert (content o1 = []) as Hco1 by (by rewrite H2).
    pose proof (Zlen_content o1 H1) as Hl. rewrite Hco1 in Hl.
    assert (Zlen (@nil byte) = 0) as Hnil by done. rewrite Hnil in Hl.
    unfold append_piece, toStringPiece, StringPiece.data, StringPiece.size; cbn [StringPiece.ptr_ StringPiece.length_ StringPiece.of_ptr].
    pose proof (sint_range 32 (readableBytes b)).
    destruct (append_negative_length o1 (CPtr (buffer_ b) (peek b)) n H1
      ltac:(lia) ltac:(lia) ltac:(unfold n, s32 in *; lia)) as [E|E]; unfold n in E; rewrite E; auto.
Qed.

Lemma shrink_exact_witness :
  let n := s32 (readableBytes small_buffer) in
  (readableBytes small_buffer < 2 ^ 31 -> n = readableBytes small_buffer) /\
  (0 <= n -> exists b', shrink 5 small_buffer = Ok (tt, b') /\ wf b' /\
     content b' = ztake n (content small_buffer)) /\
  (n < 0 -> shrink 5 small_buffer = Err Thrown \/ shrink 5 small_buffer = Err AssertFailed).
Proof.
  apply (shrink_exact small_buffer 5 small_buffer_wf); [lia|vm_compute; discriminate].
Defined.

(** ** Search *)

Definition occurs_at (pat l : list byte) (k : nat) : Prop := take (length pat) (drop k l) = pat.

Lemma search_from_spec pat l i :
  match search_from pat l i with
  | Some j => exists k, j = i + Z.of_nat k /\ occurs_at pat l k /\
                        forall k', (k' < k)%nat -> ~ occurs_at pat l k'
  | None => forall k, (k <= length l)%nat -> ~ occurs_at pat l k
  end.
Proof.
  revert i. induction l as [|a l IH]; intros i; cbn [search_from]; case_decide as E.
  - exists 0%nat. split; [lia|]. split; [done|]. lia.
  - intros k Hk. cbn in Hk. replace k with 0%nat by lia. done.
  - exists 0%nat. split; [lia|]. split; [done|]. lia.
  - specialize (IH (i + 1)). destruct (search_from pat l (i + 1)) as [j|].
    + destruct IH as (k & -> & Hk & Hmin). exists (S k). split; [lia|]. split; [done|].
      intros [|k'] Hk'; [done|]. apply (Hmin k'). lia.
    + intros [|k] Hk; [done|]. apply IH. cbn in Hk. lia.
Qed.

Lemma memchr_from_search c l i : memchr_from c l i = search_from [c] l i.
Proof.
  revert i. induction l as [|a l IH]; intros i; cbn; [done|].
  rewrite take_0. destruct (decide (a = c)) as [->|Hn].
  - by rewrite decide_True.
  - rewrite decide_False by congruence. apply IH.
Qed.

Lemma occurs_at_length pat l k : occurs_at pat l k -> (length pat <= length l - k)%nat.
Proof. unfold occurs_at. intros E. apply (f_equal length) in E. rewrite length_take, length_drop in E. lia. Qed.

(** What a search over the readable bytes returns: the first occurrence, or
    nothing when there is none. *)
Definition first_occurrence (pat : list byte) (b : t) (r : option Z) : Prop :=
  match r with
  | Some i => exists k : nat, i = peek b + Z.of_nat k /\ occurs_at pat (content b) k /\
                forall k', (k' < k)%nat -> ~ occurs_at pat (content b) k'
  | None => forall k, ~ occurs_at pat (content b) k
  end.

Lemma search_first pat b : pat <> [] ->
  first_occurrence pat b (search_from pat (content b) (peek b)).
Proof.
  intros Hp. pose proof (search_from_spec pat (content b) (peek b)) as S.
  unfold first_occurrence. destruct (search_from _ _ _) as [j|]; [done|].
  intros k Hk. pose proof (occurs_at_length _ _ _ Hk). apply (S k); [|done].
  assert (length pat <> 0%nat) by (by destruct pat). lia.
Qed.

(** C31: [findCRLF] and [findEOL] return the position of the first CRLF (line
    feed) in the readable bytes and null exactly when there is none; the
    position returned can be handed to [retrieveUntil], which consumes the
    bytes before it. *)
Theorem find_first (b : t) :
  wf b ->
  (exists r, findCRLF b = Ok r /\ first_occurrence kCRLF b r) /\
  (exists r, findEOL b = Ok r /\ first_occurrence [x0a] b r) /\
  (forall pat i, pat <> [] -> first_occurrence pat b (Some i) ->
     exists b', retrieveUntil i b = Ok (tt, b') /\ wf b' /\
       content b' = zdrop (i - peek b) (content b)).
Proof.
  intros H. pose proof H as [? ? ?]. split; [|split].
  - unfold findCRLF. rewrite range_readable by done.
    pose proof (search_first kCRLF b ltac:(done)) as S.
    destruct (search_from kCRLF (content b) (peek b)) as [j|] eqn:E; cbn [default].
    + exists (Some j). split; [|done]. destruct S as (k & -> & Hk & _).
      apply occurs_at_length in Hk. pose proof (Zlen_content b H) as Hl. unfold Zlen in Hl. cbn in Hk.
      unfold beginWrite, peek. cbn. rewrite (proj2 (Z.eqb_neq _ _)); [done|]. lia.
    + exists None. cbn. by rewrite Z.eqb_refl.
  - unfold findEOL. rewrite range_content by (try done; pose proof (readable_wf b H); lia).
    rewrite ztake_ge by (rewrite readable_content; [lia|done]).
    exists (search_from [x0a] (content b) (peek b)). rewrite memchr_from_search.
    split; [done|]. by apply search_first.
  - intros pat i Hp (k & -> & Hk & _). pose proof (occurs_at_length _ _ _ Hk) as Hle.
    pose proof (Zlen_content b H) as Hl. unfold Zlen in Hl. unfold peek in *.
    assert (length pat <> 0%nat) by (by destruct pat).
    replace (readerIndex_ b + Z.of_nat k - readerIndex_ b) with (Z.of_nat k) by lia.
    assert (wp (retrieveUntil (readerIndex_ b + Z.of_nat k)) (fun _ b' => wf b' /\
      content b' = zdrop (Z.of_nat k) (content b)) b) as W.
    { unfold retrieveUntil, peek, beginWrite. wp_steps. apply wp_assert; [apply Z.leb_le; lia|].
      wp_steps. apply wp_assert; [apply Z.leb_le; lia|].
      unfold max_size in *. rewrite u64_small by lia.
      replace (_ - _) with (Z.of_nat k) by lia.
      eapply wpe_mono; [apply retrieve_spec; [done|rewrite readable_wf by done; lia]|]. naive_solver. }
    apply wp_elim in W as ([] & b' & ? & ? & ?). by exists b'.
Qed.

Definition line_buffer : t :=
  mk (replicate 8 x00 ++ [x47; x0d; x48; x0d; x0a; x49; x0d; x0a] ++ replicate 2 x00) 8 16.

Lemma line_buffer_wf : wf line_buffer.
Proof. constructor; vm_compute; repeat split; discriminate. Qed.

Lemma find_first_witness :
  findCRLF line_buffer = Ok (Some 11) /\
  (exists r, findCRLF line_buffer = Ok r /\ first_occurrence kCRLF line_buffer r).
Proof. split; [reflexivity|]. apply (find_first line_buffer line_buffer_wf). Defined.

(** ** Integers *)

Section integer_proofs.
Context {host : Host}.

(** A field of a message: an integer of one of the four widths. *)
Inductive field : Type := Int64 (x : Z) | Int32 (x : Z) | Int16 (x : Z) | Int8 (x : Z).

Definition field_width (f : field) : nat :=
  match f with Int64 _ => 8 | Int32 _ => 4 | Int16 _ => 2 | Int8 _ => 1 end.
Definition field_value (f : field) : Z :=
  match f with Int64 x | Int32 x | Int16 x | Int8 x => x end.
Definition field_ok (f : field) : Prop :=
  - 2 ^ (8 * Z.of_nat (field_width f) - 1) <= field_value f
    < 2 ^ (8 * Z.of_nat (field_width f) - 1).

Definition append_field (f : field) : M t unit :=
  match f with
  | Int64 x => appendInt64 x | Int32 x => appendInt32 x
  | Int16 x => appendInt16 x | Int8 x => appendInt8 x
  end.
Definition prepend_field (f : field) : M t unit :=
  match f with
  | Int64 x => prependInt64 x | Int32 x => prependInt32 x
  | Int16 x => prependInt16 x | Int8 x => prependInt8 x
  end.
(** Read a field of the same width as [f]. *)
Definition read_field (f : field) : M t field :=
  match f with
  | Int64 _ => let* x := readInt64 in ret (Int64 x)
  | Int32 _ => let* x := readInt32 in ret (Int32 x)
  | Int16 _ => let* x := readInt16 in ret (Int16 x)
  | Int8 _ => let* x := readInt8 in ret (Int8 x)
  end.
Fixpoint read_fields (l : list field) : M t (list field) :=
  match l with
  | [] => ret []
  | f :: l => let* x := read_field f in let* xs := read_fields l in ret (x :: xs)
  end.

(** The wire format: the fields in order, each most significant byte first. *)
Definition field_bytes (f : field) : list byte := be_bytes (field_width f) (field_value f).
Definition fields_bytes (l : list field) : list byte := concat (map field_bytes l).

Lemma object_bytes_1 x : object_bytes 1 x = be_bytes 1 x.
Proof. unfold object_bytes, be_bytes. by destruct host_order. Qed.

Lemma append_field_eq f :
  append_field f = append (ptr_to (field_bytes f)) (Z.of_nat (field_width f)).
Proof.
  destruct f as [x|x|x|x]; cbn [append_field field_width]; unfold field_bytes; cbn [field_width field_value].
  - unfold appendInt64. do 2 f_equal. apply (network_object 8 x). lia.
  - unfold appendInt32. do 2 f_equal. apply (network_object 4 x). lia.
  - unfold appendInt16. do 2 f_equal. apply (network_object 2 x). lia.
  - unfold appendInt8. by rewrite object_bytes_1.
Qed.

Lemma prepend_field_eq f :
  prepend_field f = prepend (ptr_to (field_bytes f)) (Z.of_nat (field_width f)).
Proof.
  destruct f as [x|x|x|x]; cbn [prepend_field field_width]; unfold field_bytes; cbn [field_width field_value].
  - unfold prependInt64. do 2 f_equal. apply (network_object 8 x). lia.
  - unfold prependInt32. do 2 f_equal. apply (network_object 4 x). lia.
  - unfold prependInt16. do 2 f_equal. apply (network_object 2 x). lia.
  - unfold prependInt8. by rewrite object_bytes_1.
Qed.

Lemma load_field f :
  load (ptr_to (field_bytes f)) (Z.of_nat (field_width f)) = Ok (field_bytes f).
Proof.
  replace (Z.of_nat (field_width f)) with (Zlen (field_bytes f)); [apply load_ptr_to|].
  unfold Zlen, field_bytes. by rewrite length_be_bytes.
Qed.

Lemma field_bytes_length f : Zlen (field_bytes f) = Z.of_nat (field_width f).
Proof. unfold Zlen, field_bytes. by rewrite length_be_bytes. Qed.

(** Reading [n] bytes of network integer off the front. *)
Lemma peek_object_spec n sx b x rest :
  wf b -> content b = be_bytes n x ++ rest ->
  peek_object n sx b = Ok (sx (object_value (be_bytes n x)), b) /\ Z.of_nat n <= readableBytes b.
Proof.
  intros H Hc.
  assert (Zlen (be_bytes n x) = Z.of_nat n) as Hl by (unfold Zlen; by rewrite length_be_bytes).
  assert (Z.of_nat n <= readableBytes b) as Hr.
  { rewrite readable_content, Hc, Zlen_app, Hl by done. pose proof (Zlen_nonneg rest). lia. }
  split; [|done]. unfold peek_object. erewrite bind_ok by (apply peek_bytes_spec; [done|lia]).
  unfold ret. do 3 f_equal. rewrite Hc, ztake_app_l by lia. by rewrite ztake_ge by lia.
Qed.

Lemma read_field_spec f b rest :
  wf b -> field_ok f -> content b = field_bytes f ++ rest ->
  wp (read_field f) (fun r b' => r = f /\ wf b' /\ content b' = rest) b.
Proof.
  intros H Hf Hc. pose proof (field_bytes_length f) as Hl.
  assert (forall b', content b' = zdrop (Z.of_nat (field_width f)) (content b) -> content b' = rest) as Hrest.
  { intros b' ->. rewrite Hc, zdrop_app_r, Hl, Z.sub_diag by lia. done. }
  destruct f as [x|x|x|x]; unfold field_bytes, field_ok in *; cbn [field_width field_value] in *;
    destruct (peek_object_spec _ s64 b x rest H Hc) as [P64 Hr];
    destruct (peek_object_spec _ s32 b x rest H Hc) as [P32 _];
    destruct (peek_object_spec _ s16 b x rest H Hc) as [P16 _];
    destruct (peek_object_spec _ s8 b x rest H Hc) as [P8 _]; cbn [read_field];
    unfold readInt64, readInt32, readInt16, readInt8, peekInt64, peekInt32, peekInt16, peekInt8,
      retrieveInt64, retrieveInt32, retrieveInt16, retrieveInt8;
    wp_steps; (apply wp_assert; [apply Z.leb_le; lia|]); wp_steps;
    (eapply wp_intro; [first [exact P64|exact P32|exact P16|exact P8]|]);
    wp_steps; (eapply wpe_mono; [apply retrieve_spec; [done|lia]|]); cbn beta;
    intros _ b' (? & ? & _); wp_steps; (split; [f_equal|by auto]).
  - etransitivity; [apply (network_value 8 x); lia|]. apply sint_small; lia.
  - etransitivity; [apply (network_value 4 x); lia|]. apply sint_small; lia.
  - etransitivity; [apply (network_value 2 x); lia|]. apply sint_small; lia.
  - unfold s8, object_value, be_bytes.
    assert (le_combine (le_split 1 x) = x mod 2 ^ 8) as E by (rewrite le_combine_split; done).
    cbn [le_split] in *. rewrite !reverse_singleton. destruct host_order; rewrite E;
      rewrite sint_mod by lia; apply sint_small; lia.
Qed.

Lemma append_fields_spec l b :
  wf b -> writerIndex_ b + Zlen (fields_bytes l) <= max_size ->
  wp (for_each append_field l) (fun _ b' => wf b' /\ content b' = content b ++ fields_bytes l) b.
Proof.
  revert b. induction l as [|f l IH]; intros b H Hm; cbn [for_each].
  - wp_steps. unfold fields_bytes; cbn. by rewrite app_nil_r.
  - unfold fields_bytes in *; cbn [map concat] in *. rewrite Zlen_app, field_bytes_length in Hm.
    pose proof (Zlen_nonneg (concat (map field_bytes l))).
    wp_steps. rewrite append_field_eq. eapply wpe_mono.
    { apply append_spec; [done|apply load_field|lia]. }
    cbn. intros _ b1 (H1 & H2 & _ & _ & H5). eapply wpe_mono; [apply IH; [done|lia]|].
    cbn. intros _ b2 [? ->]. split; [done|]. by rewrite H2, app_assoc.
Qed.

Lemma read_fields_spec l b rest :
  wf b -> Forall field_ok l -> content b = fields_bytes l ++ rest ->
  wp (read_fields l) (fun r b' => r = l /\ wf b' /\ content b' = rest) b.
Proof.
  revert b. induction l as [|f l IH]; intros b H Hl Hc; cbn [read_fields].
  - by wp_steps.
  - inversion_clear Hl as [|? ? Hf Hl']. unfold fields_bytes in Hc; cbn [map concat] in Hc.
    rewrite <- app_assoc in Hc. wp_steps.
    eapply wpe_mono; [by eapply read_field_spec|]. cbn. intros r b1 (-> & H1 & H2). wp_steps.
    eapply wpe_mono; [by apply IH|]. cbn. intros r b2 (-> & ? & ?). by wp_steps.
Qed.

(** C33: Integer round trip on either host byte order: appending any list of
    fields (64, 32, 16 and 8 bits, each in the range of its type) puts
    exactly their network-order bytes behind what was readable, and reading
    fields of the same widths gives the same values back in order and
    consumes exactly those bytes. *)
Theorem integers_roundtrip (b : t) (l : list field) :
  wf b -> content b = [] -> Forall field_ok l ->
  writerIndex_ b + Zlen (fields_bytes l) <= max_size ->
  exists b1 b2, for_each append_field l b = Ok (tt, b1) /\ content b1 = fields_bytes l /\
    read_fields l b1 = Ok (l, b2) /\ wf b2 /\ content b2 = [].
Proof.
  intros H Hc Hl Hm.
  destruct (wp_elim _ _ _ (append_fields_spec l b H Hm)) as ([] & b1 & E1 & H1 & Hc1).
  rewrite Hc, app_nil_l in Hc1.
  destruct (wp_elim _ _ _ (read_fields_spec l b1 [] H1 Hl ltac:(by rewrite app_nil_r)))
    as (r & b2 & E2 & -> & H2 & Hc2).
  exists b1, b2. done.
Qed.

(** A length header prepended to a message is read back unchanged and
    leaves the message: [prependIntN] then [readIntN] is the identity on
    the readable bytes, and the cheap prepend area is enough for any one
    field after a fresh start. *)
Theorem prepend_roundtrip (b : t) (f : field) :
  wf b -> field_ok f -> Z.of_nat (field_width f) <= prependableBytes b ->
  exists b1 b2, prepend_field f b = Ok (tt, b1) /\ content b1 = field_bytes f ++ content b /\
    read_field f b1 = Ok (f, b2) /\ wf b2 /\ content b2 = content b.
Proof.
  intros H Hf Hp. rewrite prepend_field_eq.
  destruct (wp_elim _ _ _ (prepend_spec b _ _ _ H (load_field f) Hp))
    as ([] & b1 & E1 & H1 & Hc1 & _).
  destruct (wp_elim _ _ _ (read_field_spec f b1 (content b) H1 Hf Hc1))
    as (r & b2 & E2 & -> & H2 & Hc2).
  exists b1, b2. done.
Qed.
End integer_proofs.

Lemma integers_roundtrip_witness :
  exists b1 b2,
    for_each (append_field (host := LittleEndian)) [Int64 (-2); Int32 305419896; Int16 (-1); Int8 127]
      (mk (replicate 20 x00) 8 8) = Ok (tt, b1) /\
    content b1 = fields_bytes [Int64 (-2); Int32 305419896; Int16 (-1); Int8 127] /\
    read_fields (host := LittleEndian) [Int64 (-2); Int32 305419896; Int16 (-1); Int8 127] b1
      = Ok ([Int64 (-2); Int32 305419896; Int16 (-1); Int8 127], b2) /\
    wf b2 /\ content b2 = [].
Proof.
  apply (integers_roundtrip (host := LittleEndian)).
  - constructor; vm_compute; repeat split; discriminate.
  - reflexivity.
  - repeat constructor; vm_compute; (discriminate || reflexivity).
  - vm_compute. discriminate.
Defined.

Lemma prepend_roundtrip_witness :
  exists b1 b2,
    prepend_field (host := BigEndian) (Int32 3) small_buffer = Ok (tt, b1) /\
    content b1 = field_bytes (Int32 3) ++ content small_buffer /\
    read_field (host := BigEndian) (Int32 3) b1 = Ok (Int32 3, b2) /\
    wf b2 /\ content b2 = content small_buffer.
Proof.
  apply (prepend_roundtrip (host := BigEndian) small_buffer (Int32 3) small_buffer_wf).
  - split; vm_compute; (discriminate || reflexivity).
  - vm_compute. discriminate.
Defined.

(** ** readFd *)

(** The vectors [readFd] passes to [readv(2)]. *)
Definition readFd_iov (b : t) : list Z :=
  if writableBytes b <? sizeof_extrabuf then [writableBytes b; sizeof_extrabuf] else [writableBytes b].

Lemma readFd_spec (E : fault -> Prop) readv b :
  (forall iov d, readv iov = ReadOk d -> Zlen d <= foldr Z.add 0 iov) ->
  wf b -> (Zlen (buffer_ b) + sizeof_extrabuf <= max_size \/ E Thrown) ->
  wpe E (readFd readv) (fun r b' =>
    match readv (readFd_iov b) with
    | ReadErr e => r = (-1, Some e) /\ b' = b
    | ReadOk d => r = (Zlen d, None) /\ wf b' /\ content b' = content b ++ d
    end) b.
Proof.
  intros Hk H Hm. pose proof H as [? ? ?]. unfold readFd. wp_steps. fold (readFd_iov b).
  destruct (readv (readFd_iov b)) as [e|d] eqn:Ev; [by wp_steps|].
  apply Hk in Ev. pose proof (Zlen_nonneg d).
  assert (Zlen d <= writableBytes b \/
    (writableBytes b < Zlen d /\ Zlen d - writableBytes b <= sizeof_extrabuf)) as Hd.
  { unfold readFd_iov in Ev. destruct (Z.ltb_spec (writableBytes b) sizeof_extrabuf); cbn in Ev; lia. }
  clear Ev. unfold sizeof_extrabuf in *. rewrite writable_wf in * by done.
  set (wr := Zlen (buffer_ b) - writerIndex_ b) in *.
  set (d1 := ztake wr d). set (d2 := zdrop wr d).
  assert (d = d1 ++ d2) as Hsplit by (symmetry; apply ztake_zdrop).
  wp_steps. destruct (Z.leb_spec (Zlen d) wr) as [Hle|Hle].
  - assert (d1 = d) as Hd1 by (unfold d1; apply ztake_ge; lia). rewrite Hd1.
    apply wp_copy_in; [lia|lia|]. intros l Hl Ht Hs _. wp_steps. cbn.
    unfold max_size in *. rewrite u64_small by lia.
    split; [done|]. split; [constructor; cbn; unfold max_size; lia|]. unfold content; cbn.
    replace (writerIndex_ b + Zlen d - readerIndex_ b)
      with ((writerIndex_ b - readerIndex_ b) + Zlen d) by lia.
    rewrite zslice_app by lia. f_equal.
    + rewrite <- (zslice_ztake _ _ (writerIndex_ b) l), Ht, zslice_ztake by lia. done.
    + by replace (readerIndex_ b + _) with (writerIndex_ b) by lia.
  - assert (Zlen d1 = wr) as Hd1 by (apply Zlen_ztake; lia).
    assert (Zlen d2 = Zlen d - wr) as Hd2 by (apply Zlen_zdrop; lia).
    apply wp_copy_in; [lia|lia|]. intros l Hl Ht Hs _. wp_steps. cbn.
    unfold max_size in *. rewrite u64_small by lia.
    set (b1 := set_writer _ _).
    assert (wf b1) as H1 by (constructor; cbn; unfold max_size; lia).
    rewrite <- Hd2. apply wpe_mono with (Q := fun _ b' => wf b' /\ content b' = content b1 ++ d2).
    { destruct Hm as [Hm|Hm].
      - eapply wpe_weaken; [eapply wpe_mono; [apply append_spec with (d := d2);
          [done|apply load_ptr_to|cbn; unfold max_size; lia]|]|done]. cbn. intros _ b' (? & ? & _). done.
      - eapply wpe_weaken; [apply append_safe; [done|apply load_ptr_to|unfold kCheapPrepend, max_size; lia]|].
        by intros e <-. }
    cbn. intros _ b2 (G1 & G2). wp_steps. split; [done|]. split; [done|].
    rewrite G2, Hsplit, app_assoc. f_equal. unfold content, b1; cbn.
    replace (Zlen l - readerIndex_ b) with ((writerIndex_ b - readerIndex_ b) + wr) by lia.
    rewrite zslice_app by lia. f_equal.
    + rewrite <- (zslice_ztake _ _ (writerIndex_ b) l), Ht, zslice_ztake by lia. done.
    + replace (readerIndex_ b + _) with (writerIndex_ b) by lia. by rewrite <- Hd1.
Qed.

(** C34: [readFd], for any kernel that delivers at most what the vectors hold:
    an error leaves the buffer untouched and reports [errno]; otherwise
    exactly the bytes delivered are appended, none lost between the writable
    area and the 64 KiB stack buffer, and a read that uses the stack buffer
    takes at most 128k - 1 bytes. *)
Theorem readFd_exact (readv : list Z -> read_result) (b : t) :
  (forall iov d, readv iov = ReadOk d -> Zlen d <= foldr Z.add 0 iov) ->
  wf b -> Zlen (buffer_ b) + sizeof_extrabuf <= max_size ->
  match readv (readFd_iov b) with
  | ReadErr e => readFd readv b = Ok ((-1, Some e), b)
  | ReadOk d =>
      exists b', readFd readv b = Ok ((Zlen d, None), b') /\ wf b' /\ content b' = content b ++ d /\
        (writableBytes b < sizeof_extrabuf -> Zlen d <= 128 * 1024 - 1)
  end.
Proof.
  intros Hk H Hm. pose proof (readFd_spec (fun _ => False) readv b Hk H (or_introl Hm)) as W. apply wp_elim in W as (r & b' & E & Q).
  destruct (readv (readFd_iov b)) as [e|d] eqn:Ev.
  - destruct Q as [-> ->]. done.
  - destruct Q as (-> & ? & ?). exists b'. repeat (split; [done|]).
    apply Hk in Ev. unfold readFd_iov, sizeof_extrabuf in *. intros Hw.
    rewrite (proj2 (Z.ltb_lt _ _)) in Ev by done. cbn in Ev. lia.
Qed.

(** A kernel with five bytes to deliver. *)
Definition five_bytes (iov : list Z) : read_result :=
  if 5 <=? foldr Z.add 0 iov then ReadOk [x31; x32; x33; x34; x35] else ReadErr 11.

Lemma readFd_exact_witness :
  exists b', readFd five_bytes small_buffer = Ok ((5, None), b') /\ wf b' /\
    content b' = content small_buffer ++ [x31; x32; x33; x34; x35] /\
    (writableBytes small_buffer < sizeof_extrabuf -> 5 <= 128 * 1024 - 1).
Proof.
  apply (readFd_exact five_bytes small_buffer).
  - intros iov d. unfold five_bytes. destruct (Z.leb_spec 5 (foldr Z.add 0 iov)); [|discriminate].
    intros [= <-]. assumption.
  - exact small_buffer_wf.
  - vm_compute. discriminate.
Defined.

End Buffer.
