(* ===== verification/Atomic.v ===== *)
(** * AtomicIntegerT (include/muduo/base/Atomic.h)

    The atomic counters [AtomicInt32] and [AtomicInt64]: every member is one
    indivisible step on the value, built on the [__sync] primitives, which
    wrap around; the additions the members do themselves are ordinary signed
    additions, undefined on overflow. *)
From S2P Require Import Prelude.

Module Atomic.
Section width.
(** The width of [T] in bits: 32 or 64. *)
Context (w : Z).

Definition in_range (z : Z) : bool := (- 2 ^ (w - 1) <=? z) && (z <? 2 ^ (w - 1)).
Definition signed_add (a b : Z) : result Z :=
  if in_range (a + b) then Ok (a + b) else Err Undefined.

Definition get_ : M Z Z := fun v => Ok (v, if v =? 0 then 0 else v).
Definition getAndAdd (x : Z) : M Z Z := fun v => Ok (v, sint w (v + x)).
Definition addAndGet (x : Z) : M Z Z := let* old := getAndAdd x in lift (signed_add old x).
Definition incrementAndGet : M Z Z := addAndGet 1.
Definition decrementAndGet : M Z Z := addAndGet (-1).
Definition add (x : Z) : M Z unit := getAndAdd x ;;; ret tt.
Definition increment : M Z unit := incrementAndGet ;;; ret tt.
Definition decrement : M Z unit := decrementAndGet ;;; ret tt.
Definition getAndSet (newValue : Z) : M Z Z := fun v => Ok (v, newValue).

Lemma in_range_spec z : in_range z = true <-> - 2 ^ (w - 1) <= z < 2 ^ (w - 1).
Proof. unfold in_range. rewrite andb_true_iff, Z.leb_le, Z.ltb_lt. done. Qed.

(** A counter that does not overflow counts. *)
Lemma addAndGet_spec E x v (Q : Z -> Z -> Prop) :
  0 < w -> (in_range (v + x) = true -> Q (v + x) (v + x)) ->
  (in_range (v + x) = false -> E Undefined) -> wpe E (addAndGet x) Q v.
Proof.
  intros Hw HQ HE. unfold addAndGet, getAndAdd. wp_steps. unfold wpe.
  apply wpe_lift; unfold signed_add; destruct (in_range (v + x)) eqn:R.
  - intros a [= <-]. rewrite sint_small; [auto|done|by apply in_range_spec].
  - done.
  - done.
  - intros e [= <-]. auto.
Qed.
End width.
End Atomic.
