(* ===== verification/Timestamp.v ===== *)
(** * Timestamp (include/muduo/base/Timestamp.h)

    Microseconds since the epoch as a signed 64-bit integer, and the
    arithmetic with intervals given in seconds as a [double] (IEEE 754
    binary64, by the Standard Library's executable [spec_float]). *)
From S2P Require Import Prelude.
From Stdlib Require Import Floats.SpecFloat.

(** ** double *)

Definition double : Type := spec_float.
Definition prec : Z := 53.
Definition emax : Z := 1024.

Definition double_of_Z (z : Z) : double := binary_normalize prec emax z 0 false.
Definition double_mul (a b : double) : double := SFmul prec emax a b.
Definition double_div (a b : double) : double := SFdiv prec emax a b.
Definition double_ltb (a b : double) : bool := SFltb a b.
Definition double_zero : double := S754_zero false.

(** [static_cast<int64_t>(double)]: truncation toward zero, undefined when
    the truncated value does not fit. *)
Definition trunc_double (x : double) : option Z :=
  match x with
  | S754_zero _ => Some 0
  | S754_finite s m e =>
      let a := if 0 <=? e then Z.pos m * 2 ^ e else Z.pos m / 2 ^ (- e) in
      Some (if s then - a else a)
  | _ => None
  end.

Definition int64 (z : Z) : bool := (- 2 ^ 63 <=? z) && (z <? 2 ^ 63).

Definition int64_of_double (x : double) : result Z :=
  match trunc_double x with
  | Some z => if int64 z then Ok z else Err Undefined
  | None => Err Undefined
  end.

(** Signed 64-bit arithmetic: overflow is undefined. *)
Definition int64_op (z : Z) : result Z := if int64 z then Ok z else Err Undefined.

(** ** Timestamp *)

(** The class's only member; the functions below take and return it. *)
Definition kMicroSecondsPerSecond : Z := 1000 * 1000.

Definition Timestamp_invalid : Z := 0.
Definition Timestamp_valid (microSecondsSinceEpoch_ : Z) : bool := 0 <? microSecondsSinceEpoch_.
Definition secondsSinceEpoch (microSecondsSinceEpoch_ : Z) : Z :=
  Z.quot microSecondsSinceEpoch_ kMicroSecondsPerSecond.
Definition Timestamp_ltb (lhs rhs : Z) : bool := lhs <? rhs.
Definition Timestamp_eqb (lhs rhs : Z) : bool := lhs =? rhs.

Definition timeDifference (high low : Z) : result double :=
  match int64_op (high - low) with
  | Ok diff => Ok (double_div (double_of_Z diff) (double_of_Z kMicroSecondsPerSecond))
  | Err e => Err e
  end.

Definition interval_micros (seconds : double) : result Z :=
  int64_of_double (double_mul seconds (double_of_Z kMicroSecondsPerSecond)).

Definition addTime (timestamp : Z) (seconds : double) : result Z :=
  match interval_micros seconds with
  | Ok delta => int64_op (timestamp + delta)
  | Err e => Err e
  end.

(** One half, as a double. *)
Definition half_second : double := S754_finite false 4503599627370496 (-53).

Example addTime_half : addTime 1000000 half_second = Ok 1500000.
Proof. vm_compute. reflexivity. Qed.

Example addTime_quarter : addTime 7 (double_mul half_second half_second) = Ok 250007.
Proof. vm_compute. reflexivity. Qed.

Lemma int64_spec z : int64 z = true <-> - 2 ^ 63 <= z < 2 ^ 63.
Proof. unfold int64. rewrite andb_true_iff, Z.leb_le, Z.ltb_lt. done. Qed.

Lemma int64_op_inv z r : int64_op z = Ok r -> r = z /\ - 2 ^ 63 <= z < 2 ^ 63.
Proof.
  unfold int64_op. destruct (int64 z) eqn:E; [|done]. intros [= <-]. split; [done|].
  by apply int64_spec.
Qed.

(** The sign of a finite result of [binary_round_aux]. *)
Lemma binary_round_aux_sign p em s m e l :
  match binary_round_aux p em s m e l with
  | S754_zero s' | S754_infinity s' | S754_finite s' _ _ => s' = s
  | S754_nan => True
  end.
Proof.
  unfold binary_round_aux. destruct (shr_fexp p em m e l) as [mrs e'].
  destruct (shr_fexp p em _ e' loc_Exact) as [mrs'' e''].
  destruct (shr_m mrs''); [done| |done]. by destruct (Z.leb _ _).
Qed.

Lemma trunc_double_nonneg m e : exists z, trunc_double (S754_finite false m e) = Some z /\ 0 <= z.
Proof.
  cbn. eexists. split; [done|]. destruct (Z.leb_spec 0 e).
  - apply Z.mul_nonneg_nonneg; [lia|]. apply Z.pow_nonneg. lia.
  - apply Z.div_pos; [lia|]. apply Z.pow_pos_nonneg; lia.
Qed.

(** A positive interval never converts to a negative number of microseconds. *)
Lemma interval_micros_nonneg seconds d :
  double_ltb double_zero seconds = true -> interval_micros seconds = Ok d -> 0 <= d.
Proof.
  unfold double_ltb, double_zero, interval_micros, int64_of_double, double_mul.
  assert (exists m e, double_of_Z kMicroSecondsPerSecond = S754_finite false m e) as (m' & e' & ->).
  { vm_compute. eauto. }
  destruct seconds as [s|s| |s m e]; [done|by destruct s|done|].
  destruct s; [done|]. intros _. cbn [SFmul xorb].
  pose proof (binary_round_aux_sign prec emax false (Z.pos (m * m')) (e + e') loc_Exact) as H.
  destruct (binary_round_aux prec emax false _ _ _) as [s|s| |s mm ee]; try done.
  - cbn. intros [= <-]. lia.
  - rewrite H. destruct (trunc_double_nonneg mm ee) as (z & -> & Hz).
    destruct (int64 z); [|done]. by intros [= <-].
Qed.

Lemma addTime_later t seconds t' :
  double_ltb double_zero seconds = true -> addTime t seconds = Ok t' -> t <= t'.
Proof.
  unfold addTime. intros Hp. destruct (interval_micros seconds) as [d|] eqn:E; [|done].
  apply (interval_micros_nonneg _ _ Hp) in E. intros [-> _]%int64_op_inv. lia.
Qed.

Lemma addTime_fault t seconds e : addTime t seconds = Err e -> e = Undefined.
Proof.
  unfold addTime, interval_micros, int64_of_double, int64_op.
  destruct (trunc_double _) as [z|]; [destruct (int64 z)|]; [|congruence|congruence].
  destruct (int64 (t + z)); congruence.
Qed.

#[export] Hint Resolve addTime_later : muduo.
