(* ===== verification/Date.v ===== *)
(** * Date (include/muduo/base/Date.h)

    A day as its Julian Day Number, an [int].  The conversions to and from the
    calendar have no body in the repository: [yearMonthDay] is a parameter. *)
From S2P Require Import Prelude.

Module Date.

(** The class's only member; the functions below take and return it. *)
Definition kDaysPerWeek : Z := 7.
Definition make : Z := 0.
Definition swap (this that : Z) : Z * Z := (that, this).
Definition valid (julianDayNumber_ : Z) : bool := 0 <? julianDayNumber_.
Definition julianDayNumber (julianDayNumber_ : Z) : Z := julianDayNumber_.
Definition date_ltb (x y : Z) : bool := julianDayNumber x <? julianDayNumber y.
Definition date_eqb (x y : Z) : bool := julianDayNumber x =? julianDayNumber y.

(** [%] truncates; the [int] sum overflows on the last day only. *)
Definition weekDay (julianDayNumber_ : Z) : result Z :=
  if julianDayNumber_ =? 2 ^ 31 - 1 then Err Undefined
  else Ok (Z.rem (julianDayNumber_ + 1) kDaysPerWeek).

Record YearMonthDay : Type := { ymd_year : Z; ymd_month : Z; ymd_day : Z }.
Section calendar.
Context (yearMonthDay : Z -> YearMonthDay).
Definition year (d : Z) : Z := ymd_year (yearMonthDay d).
Definition month (d : Z) : Z := ymd_month (yearMonthDay d).
Definition day (d : Z) : Z := ymd_day (yearMonthDay d).
End calendar.

(** The days of the week of valid dates: 0 to 6, one after the other, and
    Thursday for the first of January 1970 (Julian Day 2440588). *)
Theorem weekDay_cycles d : valid d -> d < 2 ^ 31 - 2 -> exists w, weekDay d = Ok w /\ 0 <= w < 7 /\
  weekDay (d + 1) = Ok (if w =? 6 then 0 else w + 1).
Proof.
  intros Hd%Is_true_true%Z.ltb_lt Hmax. unfold weekDay, kDaysPerWeek. rewrite !(proj2 (Z.eqb_neq _ _)) by lia.
  rewrite !Z.rem_mod_nonneg by lia. exists ((d + 1) mod 7). split; [done|]. pose proof (Z.mod_pos_bound (d + 1) 7).
  split; [lia|]. f_equal. replace (d + 1 + 1) with ((d + 1) + 1) by lia. rewrite <- Z.add_mod_idemp_l by lia.
  destruct (Z.eqb_spec ((d + 1) mod 7) 6) as [->|Hne]; [done|]. apply Z.mod_small. lia.
Qed.
Example weekDay_epoch : weekDay 2440588 = Ok 4.
Proof. done. Qed.

(** [operator<] and [operator==] order dates totally. *)
Theorem dates_total x y : date_ltb x y = true /\ date_eqb x y = false /\ date_ltb y x = false \/
  date_ltb x y = false /\ date_eqb x y = true /\ date_ltb y x = false /\ x = y \/
  date_ltb x y = false /\ date_eqb x y = false /\ date_ltb y x = true.
Proof.
  unfold date_ltb, date_eqb, julianDayNumber.
  destruct (Z.ltb_spec x y), (Z.ltb_spec y x), (Z.eqb_spec x y); try lia; tauto.
Qed.
End Date.
