(* ===== verification/TimerQueue.v ===== *)
(** * Timers (mymuduo_net/Timer.c++, TimerQueue.c++, and the timer calls of
    EventLoop.c++)

    A [std::shared_ptr<Timer>] is an address in the store [heap]; [timers_]
    is the [std::set] of (expiration, address) in its order, [activeTimers_]
    and [cancelingTimers_] are sets of (address, sequence).  User callbacks
    are identified by number; what a callback does to the queue is a list of
    [cmd]s that [script] chooses from the queue's state. *)
From Stdlib Require Import Sorting.Sorted.
From S2P Require Import Prelude Atomic Timestamp.

Module TimerQueue.

Definition UINTPTR_MAX : Z := 2 ^ 64 - 1.

Record Timer : Type := mkTimer {
  callback_ : Z;
  expiration_ : Z;
  interval_ : double;
  repeat_ : bool;
  sequence_ : Z }.

(** The constructor, the sequence number drawn by the caller. *)
Definition Timer_new (cb when_ : Z) (interval : double) (sequence : Z) : Timer :=
  mkTimer cb when_ interval (double_ltb double_zero interval) sequence.

Definition Timer_restart (now : Z) (tm : Timer) : result Timer :=
  if repeat_ tm then
    match addTime now (interval_ tm) with
    | Ok e => Ok (mkTimer (callback_ tm) e (interval_ tm) (repeat_ tm) (sequence_ tm))
    | Err e => Err e
    end
  else Ok (mkTimer (callback_ tm) Timestamp_invalid (interval_ tm) (repeat_ tm) (sequence_ tm)).

Definition Entry : Type := Z * Z.
Definition ActiveTimer : Type := Z * Z.
Definition TimerId : Type := Z * Z.

(** What the queue does to the world outside, in order. *)
Inductive event : Type :=
| TimerfdSettime (tv_sec tv_nsec : Z)
| TimerfdRead
| Ran (timer sequence cb : Z).

(** Work handed to the loop thread by another thread. *)
Inductive task : Type := TaskAdd (timer : Z) | TaskCancel (timerId : TimerId).

Record t : Type := mk {
  heap : gmap Z Timer;
  s_numCreated_ : Z;
  timers_ : list Entry;
  activeTimers_ : gset ActiveTimer;
  callingExpiredTimers_ : bool;
  cancelingTimers_ : gset ActiveTimer;
  ticks : nat;              (* how often the clock was read *)
  armed : option Z;         (* the expiration the timerfd is armed for *)
  log : list event;
  queued : list task }.

Definition set_heap v s := mk v (s_numCreated_ s) (timers_ s) (activeTimers_ s)
  (callingExpiredTimers_ s) (cancelingTimers_ s) (ticks s) (armed s) (log s) (queued s).
Definition set_created v s := mk (heap s) v (timers_ s) (activeTimers_ s)
  (callingExpiredTimers_ s) (cancelingTimers_ s) (ticks s) (armed s) (log s) (queued s).
Definition set_timers v s := mk (heap s) (s_numCreated_ s) v (activeTimers_ s)
  (callingExpiredTimers_ s) (cancelingTimers_ s) (ticks s) (armed s) (log s) (queued s).
Definition set_active v s := mk (heap s) (s_numCreated_ s) (timers_ s) v
  (callingExpiredTimers_ s) (cancelingTimers_ s) (ticks s) (armed s) (log s) (queued s).
Definition set_calling v s := mk (heap s) (s_numCreated_ s) (timers_ s) (activeTimers_ s)
  v (cancelingTimers_ s) (ticks s) (armed s) (log s) (queued s).
Definition set_canceling v s := mk (heap s) (s_numCreated_ s) (timers_ s) (activeTimers_ s)
  (callingExpiredTimers_ s) v (ticks s) (armed s) (log s) (queued s).
Definition set_ticks v s := mk (heap s) (s_numCreated_ s) (timers_ s) (activeTimers_ s)
  (callingExpiredTimers_ s) (cancelingTimers_ s) v (armed s) (log s) (queued s).
Definition set_armed v s := mk (heap s) (s_numCreated_ s) (timers_ s) (activeTimers_ s)
  (callingExpiredTimers_ s) (cancelingTimers_ s) (ticks s) v (log s) (queued s).
Definition emit e s := mk (heap s) (s_numCreated_ s) (timers_ s) (activeTimers_ s)
  (callingExpiredTimers_ s) (cancelingTimers_ s) (ticks s) (armed s) (log s ++ [e]) (queued s).
Definition enqueue k s := mk (heap s) (s_numCreated_ s) (timers_ s) (activeTimers_ s)
  (callingExpiredTimers_ s) (cancelingTimers_ s) (ticks s) (armed s) (log s) (queued s ++ [k]).

Definition set_queued v s := mk (heap s) (s_numCreated_ s) (timers_ s) (activeTimers_ s)
  (callingExpiredTimers_ s) (cancelingTimers_ s) (ticks s) (armed s) (log s) v.

(** The constructor: empty sets, nothing armed. *)
Definition init : t := mk ∅ 0 [] ∅ false ∅ 0 None [] [].

(** ** [std::set<Entry>] *)

(** [std::pair]'s [operator<]: the expirations first, then the addresses. *)
Definition entry_ltb (a b : Entry) : bool :=
  Timestamp_ltb (fst a) (fst b) || (negb (Timestamp_ltb (fst b) (fst a)) && (snd a <? snd b)).

Fixpoint set_insert (e : Entry) (l : list Entry) : list Entry :=
  match l with
  | [] => [e]
  | y :: l => if entry_ltb e y then e :: y :: l
              else if entry_ltb y e then y :: set_insert e l else y :: l
  end.

Fixpoint set_erase (e : Entry) (l : list Entry) : list Entry :=
  match l with
  | [] => []
  | y :: l => if entry_ltb e y then y :: l
              else if entry_ltb y e then y :: set_erase e l else l
  end.

(** The entries before [lower_bound(k)] and those from it on. *)
Fixpoint split_lower_bound (k : Entry) (l : list Entry) : list Entry * list Entry :=
  match l with
  | [] => ([], [])
  | y :: l => if entry_ltb y k
              then let '(a, b) := split_lower_bound k l in (y :: a, b)
              else ([], y :: l)
  end.

(** ** The operations *)

(** What a user callback may ask of its loop. *)
Inductive cmd : Type :=
| RunAt (cb time : Z)
| RunAfter (cb : Z) (delay : double)
| RunEvery (cb : Z) (interval : double)
| Cancel (timerId : TimerId).

Section operations.
(** [Timestamp::now()] at the n-th call; the allocator ([None]: it throws
    [std::bad_alloc]); the user callbacks. *)
Context (clock : nat -> Z) (alloc : gmap Z Timer -> option Z) (script : Z -> t -> list cmd).

Definition now_ : M t Z :=
  let* s := get in
  modify (fun s => set_ticks (S (ticks s)) s) ;;;
  ret (clock (ticks s)).

(** Dereference a [shared_ptr<Timer>]. *)
Definition deref (timer : Z) : M t Timer :=
  let* s := get in
  lift match heap s !! timer with Some tm => Ok tm | None => Err Undefined end.

(** [(tv_sec, tv_nsec)] *)
Definition howMuchTimeFromNow (when_ : Z) : M t (Z * Z) :=
  let* now := now_ in
  let* microseconds := lift (int64_op (when_ - now)) in
  let microseconds := if microseconds <? 100 then 100 else microseconds in
  ret (Z.quot microseconds kMicroSecondsPerSecond,
       Z.rem microseconds kMicroSecondsPerSecond * 1000).

Definition readTimerfd : M t unit :=
  modify (emit TimerfdRead) ;;; modify (set_armed None).

Definition resetTimerfd (expiration : Z) : M t unit :=
  let* ts := howMuchTimeFromNow expiration in
  modify (emit (TimerfdSettime (fst ts) (snd ts))) ;;;
  modify (set_armed (Some expiration)).

Definition insert (timer : Z) : M t bool :=
  let* s := get in
  assert_ (length (timers_ s) =? size (activeTimers_ s))%nat ;;;
  let* tm := deref timer in
  let when_ := expiration_ tm in
  let earliestChanged :=
    match timers_ s with
    | [] => true
    | it :: _ => Timestamp_ltb when_ (fst it)
    end in
  modify (fun s => set_timers (set_insert (when_, timer) (timers_ s)) s) ;;;
  modify (fun s => set_active ({[(timer, sequence_ tm)]} ∪ activeTimers_ s) s) ;;;
  let* s := get in
  assert_ (length (timers_ s) =? size (activeTimers_ s))%nat ;;;
  ret earliestChanged.

Definition addTimerInLoop (timer : Z) : M t unit :=
  let* earliestChanged := insert timer in
  when earliestChanged
    (let* tm := deref timer in resetTimerfd (expiration_ tm)).

(** [std::make_shared<Timer>(cb, when, interval)] *)
Definition make_timer (cb when_ : Z) (interval : double) : M t Z :=
  let* s := get in
  let* timer := lift match alloc (heap s) with Some p => Ok p | None => Err Thrown end in
  let* sequence := zoom s_numCreated_ set_created (Atomic.incrementAndGet 64) in
  modify (fun s => set_heap (<[timer := Timer_new cb when_ interval sequence]> (heap s)) s) ;;;
  ret timer.

(** [loop_->runInLoop]: at once in the loop's thread, queued otherwise. *)
Definition addTimer (inLoopThread : bool) (cb when_ : Z) (interval : double) : M t TimerId :=
  let* timer := make_timer cb when_ interval in
  (if inLoopThread then addTimerInLoop timer else modify (enqueue (TaskAdd timer))) ;;;
  let* tm := deref timer in
  ret (timer, sequence_ tm).

Definition cancelInLoop (timerId : TimerId) : M t unit :=
  let* s := get in
  if bool_decide (timerId ∈ activeTimers_ s) then
    let* tm := deref (fst timerId) in
    modify (fun s => set_timers (set_erase (expiration_ tm, fst timerId) (timers_ s)) s) ;;;
    modify (fun s => set_active (activeTimers_ s ∖ {[timerId]}) s)
  else
    when (callingExpiredTimers_ s)
      (modify (fun s => set_canceling ({[timerId]} ∪ cancelingTimers_ s) s)).

Definition cancel (inLoopThread : bool) (timerId : TimerId) : M t unit :=
  if inLoopThread then cancelInLoop timerId else modify (enqueue (TaskCancel timerId)).

(** [EventLoop]'s timer calls. *)
Definition runAt (inLoopThread : bool) (time cb : Z) : M t TimerId :=
  addTimer inLoopThread cb time double_zero.
Definition runAfter (inLoopThread : bool) (delay : double) (cb : Z) : M t TimerId :=
  let* now := now_ in
  let* time := lift (addTime now delay) in
  runAt inLoopThread time cb.
Definition runEvery (inLoopThread : bool) (interval : double) (cb : Z) : M t TimerId :=
  let* now := now_ in
  let* time := lift (addTime now interval) in
  addTimer inLoopThread cb time interval.

(** A call from the loop's thread. *)
Definition exec_cmd (c : cmd) : M t unit :=
  match c with
  | RunAt cb time => runAt true time cb ;;; ret tt
  | RunAfter cb delay => runAfter true delay cb ;;; ret tt
  | RunEvery cb interval => runEvery true interval cb ;;; ret tt
  | Cancel timerId => cancel true timerId
  end.

(** A task another thread queued, run by the loop. *)
Definition exec_task (k : task) : M t unit :=
  match k with
  | TaskAdd timer => addTimerInLoop timer
  | TaskCancel timerId => cancelInLoop timerId
  end.

Definition Timer_run (timer : Z) : M t unit :=
  let* tm := deref timer in
  modify (emit (Ran timer (sequence_ tm) (callback_ tm))) ;;;
  let* s := get in
  for_each exec_cmd (script (callback_ tm) s).

(** [delete] of a [Timer *]. *)
Definition delete_Timer (timer : Z) : M t unit :=
  deref timer ;;; modify (fun s => set_heap (delete timer (heap s)) s).

(** [getExpired]: what it collects, and its end, where the owning
    [shared_ptr] around the address [UINTPTR_MAX] deletes a [Timer] there. *)
Definition collect_expired (now : Z) : M t (list Entry) :=
  let sentry : Entry := (now, UINTPTR_MAX) in
  let* s := get in
  let '(expired, rest) := split_lower_bound sentry (timers_ s) in
  modify (set_timers rest) ;;;
  for_each (fun it : Entry =>
    let* tm := deref (snd it) in
    modify (fun s => set_active (activeTimers_ s ∖ {[(snd it, sequence_ tm)]}) s)) expired ;;;
  ret expired.
Definition getExpired (now : Z) : M t (list Entry) :=
  let* expired := collect_expired now in
  delete_Timer UINTPTR_MAX ;;;
  ret expired.

Definition reset_one (now : Z) (it : Entry) : M t unit :=
  let* tm := deref (snd it) in
  let* s := get in
  when (repeat_ tm && negb (bool_decide ((snd it, sequence_ tm) ∈ cancelingTimers_ s)))
    (let* tm' := lift (Timer_restart now tm) in
     modify (fun s => set_heap (<[snd it := tm']> (heap s)) s) ;;;
     insert (snd it) ;;; ret tt).

Definition reset (expired : list Entry) (now : Z) : M t unit :=
  for_each (reset_one now) expired ;;;
  let* s := get in
  let* nextExpire :=
    match timers_ s with
    | [] => ret Timestamp_invalid
    | it :: _ => let* tm := deref (snd it) in ret (expiration_ tm)
    end in
  when (Timestamp_valid nextExpire) (resetTimerfd nextExpire).

(** [handleRead]; its part behind [getExpired] first. *)
Definition run_expired (expired : list Entry) (now : Z) : M t unit :=
  modify (set_calling true) ;;;
  modify (set_canceling ∅) ;;;
  for_each (fun it : Entry => Timer_run (snd it)) expired ;;;
  modify (set_calling false) ;;;
  reset expired now.
Definition handleRead : M t unit :=
  let* now := now_ in
  readTimerfd ;;;
  let* expired := getExpired now in
  run_expired expired now.

(** What can happen to the queue, one event of the loop's thread or one call
    of another thread at a time. *)
Inductive op : Type :=
| OpCall (c : cmd)                                    (* the loop's thread calls *)
| OpRemoteAdd (cb when_ : Z) (interval : double)      (* another thread does *)
| OpRemoteCancel (timerId : TimerId)
| OpTasks                                             (* doPendingFunctors *)
| OpFire.                                             (* the timerfd is readable *)

Definition step (o : op) : M t unit :=
  match o with
  | OpCall c => exec_cmd c
  | OpRemoteAdd cb when_ interval => addTimer false cb when_ interval ;;; ret tt
  | OpRemoteCancel timerId => cancel false timerId
  | OpTasks =>
      let* s := get in
      modify (set_queued []) ;;;
      for_each exec_task (queued s)
  | OpFire => handleRead
  end.
Definition run (l : list op) : M t unit := for_each step l.
End operations.

(** ** The sorted set *)

Definition entry_lt (a b : Entry) : Prop := fst a < fst b \/ (fst a = fst b /\ snd a < snd b).

Lemma entry_ltb_spec a b : reflect (entry_lt a b) (entry_ltb a b).
Proof.
  apply iff_reflect. unfold entry_lt, entry_ltb, Timestamp_ltb. destruct a as [a1 a2], b as [b1 b2]; cbn.
  rewrite orb_true_iff, andb_true_iff, negb_true_iff, !Z.ltb_lt, Z.ltb_ge. lia.
Qed.

#[export] Instance entry_lt_trans : Transitive entry_lt.
Proof. intros [] [] []; unfold entry_lt; cbn. lia. Qed.
Lemma entry_lt_irrefl a : ~ entry_lt a a.
Proof. unfold entry_lt. lia. Qed.
Lemma entry_lt_total a b : entry_lt a b \/ a = b \/ entry_lt b a.
Proof.
  destruct a as [a1 a2], b as [b1 b2]; unfold entry_lt; cbn.
  destruct (Z.lt_trichotomy a1 b1) as [?|[->|?]], (Z.lt_trichotomy a2 b2) as [?|[->|?]]; auto 6.
Qed.

Abbreviation sorted := (StronglySorted entry_lt).

Lemma elem_of_set_insert x e l : x ∈ set_insert e l <-> x = e \/ x ∈ l.
Proof.
  induction l as [|y l IH]; cbn [set_insert]; [set_solver|].
  destruct (entry_ltb_spec e y); [set_solver|].
  destruct (entry_ltb_spec y e); [set_solver|].
  destruct (entry_lt_total e y) as [?|[->|?]]; [done| |done]. set_solver.
Qed.

Lemma set_insert_sorted e l : sorted l -> sorted (set_insert e l).
Proof.
  induction 1 as [|y l Hl IH Hy]; cbn [set_insert]; [by repeat constructor|].
  destruct (entry_ltb_spec e y) as [H1|H1].
  - constructor; [by constructor|]. constructor; [done|].
    eapply list.Forall_impl; [exact Hy|]. cbn. intros z Hz. by transitivity y.
  - destruct (entry_ltb_spec y e) as [H2|H2]; [|by constructor].
    constructor; [done|]. apply list.Forall_forall. intros z [->|Hz]%elem_of_set_insert; [done|].
    by eapply list.Forall_forall in Hy.
Qed.

Lemma set_erase_spec e l : sorted l ->
  sorted (set_erase e l) /\ forall x, x ∈ set_erase e l <-> x ∈ l /\ x <> e.
Proof.
  induction 1 as [|y l Hl [IH1 IH2] Hy]; cbn [set_erase]; [split; [constructor|set_solver]|].
  rewrite list.Forall_forall in Hy.
  destruct (entry_ltb_spec e y) as [H1|H1].
  - split; [constructor; [done|by apply list.Forall_forall]|]. intros x. split; [|tauto].
    intros Hx. split; [done|]. intros ->. apply elem_of_cons in Hx as [->|Hx].
    + by apply entry_lt_irrefl in H1.
    + apply (entry_lt_irrefl e). transitivity y; auto.
  - destruct (entry_ltb_spec y e) as [H2|H2].
    + split.
      * constructor; [done|]. apply list.Forall_forall. intros z [Hz _]%IH2. by apply Hy.
      * intros x. rewrite !elem_of_cons, IH2. split; [|tauto]. intros [->|?]; [|tauto].
        split; [by left|]. intros ->. by apply entry_lt_irrefl in H2.
    + destruct (entry_lt_total e y) as [?|[->|?]]; [done| |done]. split; [done|].
      intros x. split; [|set_solver]. intros Hx. split; [by right|]. intros ->.
      apply Hy in Hx. by apply entry_lt_irrefl in Hx.
Qed.

Lemma split_lower_bound_spec k l a b : sorted l -> split_lower_bound k l = (a, b) ->
  l = a ++ b /\ sorted a /\ sorted b /\
  (forall x, x ∈ a -> entry_lt x k) /\ (forall x, x ∈ b -> ~ entry_lt x k).
Proof.
  intros Hl. revert a b. induction Hl as [|y l Hl IH Hy]; intros a b; cbn [split_lower_bound].
  - intros [= <- <-]. repeat split; try constructor; set_solver.
  - rewrite list.Forall_forall in Hy. destruct (entry_ltb_spec y k) as [H1|H1].
    + destruct (split_lower_bound k l) as [a' b']. intros [= <- <-].
      destruct (IH a' b' eq_refl) as (-> & Ha & Hb & H2 & H3). repeat split; auto.
      * constructor; [done|]. apply list.Forall_forall. intros z Hz. apply Hy, elem_of_app. auto.
      * intros x [->|?]%elem_of_cons; auto.
    + intros [= <- <-]. repeat split; [constructor|constructor; [done|by apply list.Forall_forall]|set_solver|].
      intros x [->|Hx]%elem_of_cons; [done|]. intros Hk. apply H1. transitivity x; auto.
Qed.

Lemma sorted_NoDup l : sorted l -> NoDup l.
Proof.
  induction 1 as [|y l Hl IH Hy]; constructor; [|done]. rewrite list.Forall_forall in Hy.
  intros Hin%Hy. by apply entry_lt_irrefl in Hin.
Qed.

(** ** The invariant *)

(** [timers_] and [activeTimers_] index the same timers, each under its
    current expiration; every [Timer] has its own address and its own
    sequence number. *)
Record inv (s : t) : Prop := {
  inv_sorted : sorted (timers_ s);
  inv_timers : forall e, e ∈ timers_ s -> exists tm, heap s !! snd e = Some tm /\
    expiration_ tm = fst e /\ (snd e, sequence_ tm) ∈ activeTimers_ s;
  inv_active : forall k, k ∈ activeTimers_ s -> exists tm, heap s !! fst k = Some tm /\
    sequence_ tm = snd k /\ (expiration_ tm, fst k) ∈ timers_ s;
  inv_heap : forall p tm, heap s !! p = Some tm -> 0 < p < UINTPTR_MAX /\
    1 <= sequence_ tm <= s_numCreated_ s /\ repeat_ tm = double_ltb double_zero (interval_ tm);
  inv_unique : forall p q tp tq, heap s !! p = Some tp -> heap s !! q = Some tq ->
    sequence_ tp = sequence_ tq -> p = q;
  inv_created : 0 <= s_numCreated_ s }.

(** No timer can be missed: while a timer is active the timerfd is armed, and
    for no later than the earliest expiration.  While the expired timers run,
    the timerfd has been consumed and [reset] will arm it again, except for a
    head that [reset] takes for an invalid time: [addTimer] armed it for
    that one. *)
Definition armed_ok (s : t) : Prop :=
  match timers_ s with
  | [] => True
  | e :: _ => (callingExpiredTimers_ s = true -> fst e <= 0) ->
      exists a, armed s = Some a /\ a <= fst e
  end.

Definition key (h : gmap Z Timer) (e : Entry) : ActiveTimer :=
  (snd e, from_option sequence_ 0 (h !! snd e)).

(** The two sets have the same number of elements: the assertions of
    [insert] hold. *)
Lemma inv_sizes s : inv s -> length (timers_ s) = size (activeTimers_ s).
Proof.
  intros [H1 H2 H3 H4 H5 H6].
  assert (activeTimers_ s = list_to_set (key (heap s) <$> timers_ s)) as ->.
  { apply set_eq. intros [p q]. rewrite elem_of_list_to_set, list_elem_of_fmap. split.
    - intros Hk. destruct (H3 _ Hk) as (tm & Htm & Hs & Ht); cbn in *.
      exists (expiration_ tm, p). split; [|done]. unfold key; cbn. by rewrite Htm, <- Hs.
    - intros (e & Hk & He). destruct (H2 e He) as (tm & Htm & Hx & Ha).
      unfold key in Hk. rewrite Htm in Hk. cbn in Hk. by injection Hk as -> ->. }
  rewrite size_list_to_set; [by rewrite length_fmap|].
  apply NoDup_fmap_2_strong; [|by apply sorted_NoDup].
  intros [w1 p1] [w2 p2] He1 He2 E. unfold key in E; cbn in E. injection E as -> E.
  destruct (H2 _ He1) as (t1 & Ht1 & Hw1 & _), (H2 _ He2) as (t2 & Ht2 & Hw2 & _).
  cbn in *. rewrite Ht1 in Ht2. injection Ht2 as ->. congruence.
Qed.

(** How the queue may change without a timer firing: existing timers stay in
    the store unchanged, no existing timer becomes active, cancellations
    recorded stay recorded. *)
Record later (s s' : t) : Prop := {
  later_heap : heap s ⊆ heap s';
  later_active : forall k, k ∈ activeTimers_ s' -> is_Some (heap s !! fst k) -> k ∈ activeTimers_ s;
  later_canceling : cancelingTimers_ s ⊆ cancelingTimers_ s';
  later_calling : callingExpiredTimers_ s' = callingExpiredTimers_ s;
  later_tasks : forall p, TaskAdd p ∈ queued s' ->
    TaskAdd p ∈ queued s \/ (heap s !! p = None /\ is_Some (heap s' !! p)) }.

#[export] Instance later_preorder : PreOrder later.
Proof.
  split; [by intros s; constructor; auto|].
  intros a b c [H1 H2 H3 H4 H5] [G1 G2 G3 G4 G5]. constructor.
  - by etransitivity.
  - intros k Hk Hs. apply H2; [|done]. apply G2; [done|]. destruct Hs as [tm Htm].
    exists tm. eapply lookup_weaken; eauto.
  - by etransitivity.
  - congruence.
  - intros p [Hp|[Hp1 Hp2]]%G5.
    + apply H5 in Hp as [?|[? [tm ?]]]; [by left|]. right. split; [done|].
      exists tm. by eapply lookup_weaken.
    + right. split; [|done]. by eapply lookup_weaken_None.
Qed.

(** The timers run, oldest first. *)
Definition ran (l : list event) : list (Z * Z * Z) :=
  omap (fun e => match e with Ran p q cb => Some (p, q, cb) | _ => None end) l.

Lemma ran_app l k : ran (l ++ k) = ran l ++ ran k.
Proof. apply omap_app. Qed.

Section invariant.
Context (clock : nat -> Z) (alloc : gmap Z Timer -> option Z) (script : Z -> t -> list cmd).
Hypothesis alloc_fresh : forall h p, alloc h = Some p -> h !! p = None /\ 0 < p < UINTPTR_MAX.

Lemma wpe_deref E p tm (Q : Timer -> t -> Prop) s :
  heap s !! p = Some tm -> Q tm s -> wpe E (deref p) Q s.
Proof. intros Hp HQ. unfold deref. wp_steps. apply wpe_lift; rewrite Hp; naive_solver. Qed.

Lemma wpe_now E (Q : Z -> t -> Prop) s :
  Q (clock (ticks s)) (set_ticks (S (ticks s)) s) -> wpe E (now_ clock) Q s.
Proof. intros HQ. unfold now_. by wp_steps. Qed.

(** Arming the timerfd touches neither the timers nor the sets. *)
Lemma wpx_resetTimerfd w (Q : unit -> t -> Prop) s :
  (forall n l, ran l = ran (log s) ->
     Q tt (mk (heap s) (s_numCreated_ s) (timers_ s) (activeTimers_ s) (callingExpiredTimers_ s)
            (cancelingTimers_ s) n (Some w) l (queued s))) ->
  wpx (resetTimerfd clock w) Q s.
Proof.
  intros HQ. unfold resetTimerfd, howMuchTimeFromNow. wp_steps. apply wpe_now. wp_steps.
  apply wpe_lift.
  - intros a _. wp_steps. apply HQ. cbn. rewrite ran_app. cbn. by rewrite app_nil_r.
  - unfold int64_op. intros e. destruct (int64 _); congruence.
Qed.

(** The state after [insert]. *)
Definition inserted (p : Z) (tm : Timer) (s : t) : t :=
  set_active ({[(p, sequence_ tm)]} ∪ activeTimers_ s)
    (set_timers (set_insert (expiration_ tm, p) (timers_ s)) s).

Lemma inv_inserted p tm s : inv s -> heap s !! p = Some tm -> inv (inserted p tm s).
Proof.
  intros [H1 H2 H3 H4 H5 H6] Hp. constructor; cbn; auto.
  - by apply set_insert_sorted.
  - intros e [->|He]%elem_of_set_insert; cbn.
    + exists tm. split; [done|]. split; [done|]. set_solver.
    + destruct (H2 e He) as (tm' & ? & ? & ?). exists tm'. set_solver.
  - intros k. rewrite elem_of_union, elem_of_singleton. intros [->|Hk]; cbn.
    + exists tm. split; [done|]. split; [done|]. apply elem_of_set_insert. by left.
    + destruct (H3 k Hk) as (tm' & ? & ? & ?). exists tm'. split; [done|]. split; [done|].
      apply elem_of_set_insert. by right.
Qed.

Lemma wpe_insert E p tm (Q : bool -> t -> Prop) s :
  inv s -> heap s !! p = Some tm ->
  Q (match timers_ s with [] => true | it :: _ => Timestamp_ltb (expiration_ tm) (fst it) end)
    (inserted p tm s) ->
  wpe E (insert p) Q s.
Proof.
  intros Hi Hp HQ. unfold insert. wp_steps. apply wpe_assert.
  { rewrite inv_sizes by done. by rewrite Nat.eqb_refl. }
  intros _. wp_steps. eapply wpe_deref; [exact Hp|]. wp_steps.
  change (set_active _ _) with (inserted p tm s). apply wpe_assert.
  { rewrite inv_sizes by (by apply inv_inserted). by rewrite Nat.eqb_refl. }
  intros _. by wp_steps.
Qed.

(** A timer joins the active ones: armed for it when it is the earliest. *)
Lemma wpx_addTimerInLoop p tm s :
  inv s -> armed_ok s -> heap s !! p = Some tm ->
  wpx (addTimerInLoop clock p) (fun _ s' =>
    inv s' /\ armed_ok s' /\ heap s' = heap s /\
    activeTimers_ s' = {[(p, sequence_ tm)]} ∪ activeTimers_ s /\
    cancelingTimers_ s' = cancelingTimers_ s /\
    callingExpiredTimers_ s' = callingExpiredTimers_ s /\ ran (log s') = ran (log s) /\
    queued s' = queued s) s.
Proof.
  intros Hi Ha Hp. pose proof (inv_inserted p tm s Hi Hp) as [J1 J2 J3 J4 J5 J6].
  unfold addTimerInLoop. wp_steps. eapply wpe_insert; [done|exact Hp|].
  apply wpe_when; intros Hc.
  - wp_steps. eapply wpe_deref; [exact Hp|]. apply wpx_resetTimerfd. intros n l Hl. cbn in *.
    split; [constructor; done|]. split; [|done]. unfold armed_ok in *; cbn.
    destruct (timers_ s) as [|y r]; cbn [set_insert]; [eexists; split; [done|cbn; lia]|].
    unfold Timestamp_ltb in Hc. to_prop.
    assert (entry_ltb (expiration_ tm, p) y = true) as ->.
    { destruct (entry_ltb_spec (expiration_ tm, p) y) as [|N]; [done|]. exfalso. apply N. left. done. }
    eexists. split; [done|cbn; lia].
  - cbn in *. split; [constructor; done|]. split; [|done]. unfold armed_ok in *; cbn in *.
    destruct (timers_ s) as [|y r]; [done|]. cbn [set_insert].
    unfold Timestamp_ltb in Hc. to_prop.
    destruct (entry_ltb_spec (expiration_ tm, p) y) as [Hlt|_].
    + cbn. intros Hf. destruct Ha as (a & -> & Hle); [intros Hc'; specialize (Hf Hc'); destruct Hlt; cbn in *; lia|].
      exists a. split; [done|lia].
    + destruct (entry_ltb y _); exact Ha.
Qed.

(** What every call keeps. *)
Definition good (s : t) : Prop := inv s /\ armed_ok s.

Lemma inv_new_timer p cb w iv s n :
  inv s -> alloc (heap s) = Some p -> n = s_numCreated_ s + 1 ->
  inv (set_heap (<[p := Timer_new cb w iv n]> (heap s)) (set_created n s)).
Proof.
  intros [H1 H2 H3 H4 H5 H6] Hp ->. destruct (alloc_fresh _ _ Hp) as [Hfresh Hrange].
  constructor; cbn; auto with lia.
  - intros e He. destruct (H2 e He) as (tm & Htm & ? & ?). exists tm. split; [|done].
    rewrite lookup_insert_ne; [done|congruence].
  - intros k Hk. destruct (H3 k Hk) as (tm & Htm & ? & ?). exists tm. split; [|done].
    rewrite lookup_insert_ne; [done|congruence].
  - intros q tm. rewrite lookup_insert. case_decide as E; [subst q|].
    + intros [= <-]. cbn. split; [done|]. split; [lia|done].
    + intros Hq. destruct (H4 _ _ Hq) as (? & ? & ?). split; [done|]. split; [lia|done].
  - intros q r tq tr. rewrite !lookup_insert. repeat case_decide; subst; try done.
    + intros [= <-] Hr Hs. cbn in Hs. destruct (H4 _ _ Hr) as (_ & ? & _). lia.
    + intros Hr [= <-] Hs. cbn in Hs. destruct (H4 _ _ Hr) as (_ & ? & _). lia.
    + apply H5.
Qed.

(** [new Timer]: fresh address, fresh sequence number, in neither set. *)
Lemma wpx_make_timer cb w iv s :
  good s ->
  wpx (make_timer alloc cb w iv) (fun p s' => good s' /\ later s s' /\
    (exists n, heap s' !! p = Some (Timer_new cb w iv n)) /\ heap s !! p = None /\
    activeTimers_ s' = activeTimers_ s /\ timers_ s' = timers_ s /\ log s' = log s /\
    queued s' = queued s) s.
Proof.
  intros [Hi Ha]. unfold make_timer. wp_steps. apply wpe_lift.
  2: { intros e. destruct (alloc (heap s)); congruence. }
  intros p. destruct (alloc (heap s)) as [p'|] eqn:Hp; [|done]. intros [= <-].
  destruct (alloc_fresh _ _ Hp) as [Hfresh _].
  wp_steps. apply wpe_zoom. apply Atomic.addAndGet_spec; [done| |done]. intros _. wp_steps. cbn.
  split; [split; [by apply inv_new_timer|done]|].
  split.
  { constructor; cbn; [by apply insert_subseteq|auto|done|done|auto]. }
  split; [eexists; by apply lookup_insert_eq|]. done.
Qed.

Lemma later_fresh_active s s' p (q : Z) :
  later s s' -> heap s !! p = None -> (forall k, k ∈ activeTimers_ s -> is_Some (heap s !! fst k)) ->
  forall s'', heap s'' = heap s' -> cancelingTimers_ s'' = cancelingTimers_ s' ->
    callingExpiredTimers_ s'' = callingExpiredTimers_ s' -> queued s'' = queued s' ->
    activeTimers_ s'' = {[(p, q)]} ∪ activeTimers_ s' -> later s s''.
Proof.
  intros [L1 L2 L3 L4 L5] Hp Hs s'' E1 E2 E3 E4 E5. constructor; rewrite ?E1, ?E2, ?E3, ?E4; auto.
  intros k. rewrite E5, elem_of_union, elem_of_singleton. intros [->|Hk] Hd; [|auto].
  cbn in Hd. rewrite Hp in Hd. by destruct Hd.
Qed.

Lemma inv_active_heap s k : inv s -> k ∈ activeTimers_ s -> is_Some (heap s !! fst k).
Proof. intros [_ _ H3 _ _ _] Hk. destruct (H3 k Hk) as (tm & -> & _). eauto. Qed.

(** The effect of a call that is not a timer firing. *)
Definition quiet (s s' : t) : Prop := good s' /\ later s s' /\ ran (log s') = ran (log s).

Lemma wpx_addTimer inLoop cb w iv s :
  good s -> wpx (addTimer clock alloc inLoop cb w iv) (fun id s' => quiet s s' /\
    heap s !! fst id = None /\
    (exists tm, heap s' !! fst id = Some tm /\ sequence_ tm = snd id /\ expiration_ tm = w) /\
    (inLoop = true -> id ∈ activeTimers_ s')) s.
Proof.
  intros Hg. unfold addTimer. wp_steps.
  eapply wpe_mono; [by apply wpx_make_timer|]. cbn.
  intros p s1 ([Hi1 Ha1] & L1 & (n & Hn) & Hp & Hact & Htm & Hlog & Hqu). destruct inLoop.
  - wp_steps. eapply wpe_mono; [by eapply wpx_addTimerInLoop|]. cbn.
    intros _ s2 (G1 & G2 & G3 & G4 & G5 & G6 & G7 & G8). wp_steps.
    eapply wpe_deref; [rewrite G3; exact Hn|]. wp_steps. cbn.
    split; [split; [done|]|].
    { split; [|by rewrite G7, Hlog].
      eapply (later_fresh_active s s1); eauto. intros k. apply inv_active_heap, Hg. }
    split; [done|]. split; [rewrite G3; eauto|]. intros _. rewrite G4. set_solver.
  - wp_steps. eapply wpe_deref; [exact Hn|]. wp_steps. cbn.
    destruct L1 as [l1 l2 l3 l4 l5]. destruct Hi1 as [i1 i2 i3 i4 i5 i6].
    split; [|split; [done|split; [eauto|done]]].
    split; [split; [constructor; done|done]|]. split.
    { constructor; cbn; auto. intros r [Hr|Hr]%elem_of_app; [auto|].
      apply list_elem_of_singleton in Hr. injection Hr as ->. right. eauto. }
    cbn. by rewrite Hlog.
Qed.

Lemma inv_erased p q tm s : inv s -> (p, q) ∈ activeTimers_ s -> heap s !! p = Some tm ->
  inv (set_active (activeTimers_ s ∖ {[(p, q)]})
        (set_timers (set_erase (expiration_ tm, p) (timers_ s)) s)).
Proof.
  intros [H1 H2 H3 H4 H5 H6] Hk Hp.
  destruct (H3 _ Hk) as (tm' & Htm' & Hq & Ht); cbn in *. rewrite Hp in Htm'. injection Htm' as <-.
  destruct (set_erase_spec (expiration_ tm, p) _ H1) as [S1 S2].
  constructor; cbn; auto.
  - intros e [He Hne]%S2. destruct (H2 e He) as (te & Hte & Hx & Ha). exists te.
    split; [done|]. split; [done|]. apply elem_of_difference. split; [done|].
    rewrite elem_of_singleton. intros [= E1 E2]. apply Hne. destruct e as [w' p']; cbn in *. subst p'.
    congruence.
  - intros k [Hk' Hne]%elem_of_difference. destruct (H3 _ Hk') as (tk & Htk & Hs & Hin).
    exists tk. split; [done|]. split; [done|]. apply S2. split; [done|]. intros [= E1 E2].
    apply Hne. rewrite elem_of_singleton. destruct k as [p' q']; cbn in *. congruence.
Qed.

Lemma armed_ok_erase s e : inv s -> armed_ok s ->
  armed_ok (set_timers (set_erase e (timers_ s)) s).
Proof.
  intros [Hs _ _ _ _ _] Ha. unfold armed_ok in *; cbn. destruct (timers_ s) as [|y l]; [done|].
  inversion_clear Hs as [|? ? Hs' Hy]. cbn [set_erase]. rewrite list.Forall_forall in Hy.
  destruct (entry_ltb e y); [done|]. destruct (entry_ltb y e); [done|].
  destruct l as [|z l]; [done|]. intros Hf. assert (fst y <= fst z) as Hyz.
  { destruct (Hy z ltac:(by left)) as [?|[? _]]; lia. }
  destruct Ha as (a & -> & Hle); [intros Hc; specialize (Hf Hc); lia|]. exists a. split; [done|lia].
Qed.

(** Cancelling: the timer is active no more; one that is being run is
    remembered as cancelled. *)
Lemma wpe_cancelInLoop E id s :
  good s -> wpe E (cancelInLoop id) (fun _ s' => quiet s s' /\ heap s' = heap s /\
    id ∉ activeTimers_ s' /\ activeTimers_ s' ⊆ activeTimers_ s /\
    (callingExpiredTimers_ s = true -> id ∉ activeTimers_ s -> id ∈ cancelingTimers_ s')) s.
Proof.
  intros [Hi Ha]. unfold cancelInLoop, quiet, good. wp_steps. case_bool_decide as Hin.
  - destruct id as [p q]. destruct (inv_active_heap _ _ Hi Hin) as [tm Htm]; cbn in Htm.
    wp_steps. eapply wpe_deref; [exact Htm|]. wp_steps. cbn.
    split; [|split; [done|split; [set_solver|split; [set_solver|done]]]].
    split; [split; [by eapply inv_erased|]|].
    { pose proof (armed_ok_erase s (expiration_ tm, p) Hi Ha) as Ha'.
      unfold armed_ok in *. cbn in *. done. }
    split; [|done]. constructor; cbn; [done|set_solver|done|done|auto].
  - apply wpe_when; intros Hc.
    + wp_steps. cbn. split; [|split; [done|split; [done|split; [done|set_solver]]]].
      split; [split; [by destruct Hi|done]|]. split; [|done].
      constructor; cbn; [done|done|set_solver|done|auto].
    + split; [|split; [done|split; [done|split; [done|intros; congruence]]]]. done.
Qed.

Lemma quiet_ticks s n : good s -> quiet s (set_ticks n s).
Proof.
  intros [[H1 H2 H3 H4 H5 H6] Ha]. split; [split; [by constructor|done]|].
  split; [by constructor; auto|done].
Qed.

Lemma quiet_enqueue id s : good s -> quiet s (enqueue (TaskCancel id) s).
Proof.
  intros [[H1 H2 H3 H4 H5 H6] Ha]. split; [split; [by constructor|done]|]. split; [|done]. constructor; cbn; auto.
  intros p [?|Hp]%elem_of_app; [by left|]. by apply list_elem_of_singleton in Hp.
Qed.

Lemma quiet_trans a b c : quiet a b -> quiet b c -> quiet a c.
Proof.
  intros (Ga & La & Ra) (Gb & Lb & Rb). split; [done|]. split; [by transitivity b|congruence].
Qed.

(** Any call a user can make keeps the invariant and fires no timer. *)
Lemma wpx_exec_cmd c s : good s -> wpx (exec_cmd clock alloc c) (fun _ => quiet s) s.
Proof.
  intros Hg.
  assert (forall w iv cb s', quiet s s' ->
    wpx (addTimer clock alloc true cb w iv ;;; ret tt) (fun _ => quiet s) s') as Hadd.
  { intros w iv cb s' Hq. wp_steps. eapply wpe_mono; [apply wpx_addTimer, Hq|]. cbn.
    intros id s'' (Hq' & _). wp_steps. by eapply quiet_trans. }
  destruct c as [cb time|cb d|cb iv|id]; cbn [exec_cmd].
  - apply Hadd. split; [done|]. split; [reflexivity|done].
  - unfold runAfter, runAt. wp_steps. apply wpe_now. wp_steps. apply wpe_lift.
    + intros w _. pose proof (Hadd w double_zero cb _ (quiet_ticks s (S (ticks s)) Hg)) as H.
      unfold wpe, bind in *. destruct (addTimer _ _ _ _ _ _ _) as [[? ?]|?]; done.
    + intros e ->%addTime_fault. done.
  - unfold runEvery. wp_steps. apply wpe_now. wp_steps. apply wpe_lift.
    + intros w _. pose proof (Hadd w iv cb _ (quiet_ticks s (S (ticks s)) Hg)) as H.
      unfold wpe, bind in *. destruct (addTimer _ _ _ _ _ _ _) as [[? ?]|?]; done.
    + intros e ->%addTime_fault. done.
  - unfold cancel. eapply wpe_mono; [by apply wpe_cancelInLoop|]. cbn. naive_solver.
Qed.

(** Running one timer: logged, then whatever its callback asks for. *)
Lemma wpx_Timer_run p tm s : good s -> heap s !! p = Some tm ->
  wpx (Timer_run clock alloc script p) (fun _ s' => good s' /\ later s s' /\
    ran (log s') = ran (log s) ++ [(p, sequence_ tm, callback_ tm)]) s.
Proof.
  intros [Hi Ha] Hp. unfold Timer_run. wp_steps. eapply wpe_deref; [exact Hp|]. wp_steps.
  set (s1 := emit _ s).
  assert (good s1) as Hg1 by (split; [by destruct Hi|done]).
  eapply wpe_mono.
  { apply (wpe_for_each _ (quiet s1)); [|split; [done|split; [reflexivity|done]]].
    intros c s' _ Hq. eapply wpe_mono; [apply wpx_exec_cmd, Hq|]. cbn.
    intros _ s''. by apply quiet_trans. }
  cbn. intros _ s' (Hg' & L & R). split; [done|]. split.
  - destruct L as [l1 l2 l3 l4 l5]. by constructor.
  - rewrite R. cbn. by rewrite ran_app.
Qed.

(** ** A firing of the timerfd *)

Definition due (now : Z) (e : Entry) : Prop := fst e <= now.

Lemma key_eq (h : gmap Z Timer) e tm : h !! snd e = Some tm -> key h e = (snd e, sequence_ tm).
Proof. unfold key. by intros ->. Qed.

(** The state after [collect_expired]. *)
Definition expired_removed (expired rest : list Entry) (s : t) : t :=
  set_active (activeTimers_ s ∖ list_to_set (key (heap s) <$> expired)) (set_timers rest s).

Lemma inv_expired_removed expired rest s :
  inv s -> timers_ s = expired ++ rest -> inv (expired_removed expired rest s).
Proof.
  intros [H1 H2 H3 H4 H5 H6] Ht. pose proof (sorted_NoDup _ H1) as Hnd. rewrite Ht in Hnd, H1.
  apply list.NoDup_app in Hnd as (_ & Hdisj & _).
  assert (forall e, e ∈ expired ++ rest -> exists tm, heap s !! snd e = Some tm /\
    expiration_ tm = fst e /\ (snd e, sequence_ tm) ∈ activeTimers_ s) as H2' by (by rewrite <- Ht).
  constructor; cbn; auto.
  - clear -H1. induction expired as [|x l IH]; [done|]. apply IH. by inversion H1.
  - intros e He. destruct (H2' e) as (tm & Hp & Hx & Ha); [set_solver|].
    exists tm. split; [done|]. split; [done|]. apply elem_of_difference. split; [done|].
    rewrite elem_of_list_to_set, list_elem_of_fmap. intros (e' & Hk & He').
    destruct (H2' e') as (tm' & Hp' & Hx' & Ha'); [set_solver|].
    rewrite (key_eq _ _ _ Hp') in Hk. injection Hk as E _. rewrite <- E, Hp in Hp'.
    injection Hp' as ->. apply (Hdisj e'); [done|].
    replace e' with e; [done|]. destruct e, e'; cbn in *. congruence.
  - intros k [Hk Hn]%elem_of_difference. destruct (H3 k Hk) as (tm & Hp & Hs & Hin).
    exists tm. split; [done|]. split; [done|]. rewrite Ht in Hin.
    apply elem_of_app in Hin as [Hin|Hin]; [|done]. exfalso. apply Hn.
    rewrite elem_of_list_to_set, list_elem_of_fmap. exists (expiration_ tm, fst k).
    split; [|done]. rewrite (key_eq _ _ tm) by done. destruct k; cbn in *. congruence.
Qed.

(** [collect_expired] takes out exactly the due timers, in expiration order. *)
Lemma wpe_collect_expired E now (Q : list Entry -> t -> Prop) s :
  inv s ->
  (forall expired rest, timers_ s = expired ++ rest ->
     (forall e, e ∈ expired -> due now e) -> (forall e, e ∈ rest -> ~ due now e) ->
     inv (expired_removed expired rest s) -> Q expired (expired_removed expired rest s)) ->
  wpe E (collect_expired now) Q s.
Proof.
  intros Hi HQ. pose proof Hi as [H1 H2 H3 H4 H5 H6]. unfold collect_expired. wp_steps.
  destruct (split_lower_bound (now, UINTPTR_MAX) (timers_ s)) as [expired rest] eqn:Hsp.
  destruct (split_lower_bound_spec _ _ _ _ H1 Hsp) as (Ht & Hs1 & Hs2 & Hlt & Hge).
  assert (forall e, e ∈ timers_ s -> entry_lt e (now, UINTPTR_MAX) <-> due now e) as Hdue.
  { intros e He. destruct (H2 e He) as (tm & Hp & _). apply H4 in Hp as [Hp _].
    unfold entry_lt, due; cbn. lia. }
  wp_steps. eapply wpe_mono.
  { apply (wpe_for_each_split _ (fun d l s' => s' =
      set_active (activeTimers_ s ∖ list_to_set (key (heap s) <$> d)) (set_timers rest s))).
    - intros d e l s' Hl ->. destruct (H2 e) as (tm & Hp & Hx & Ha).
      { rewrite Ht, Hl. set_solver. }
      wp_steps. eapply wpe_deref; [exact Hp|]. wp_steps. unfold set_active, set_timers; cbn.
      f_equal. apply set_eq. intros x. rewrite fmap_app, list_to_set_app. cbn.
      rewrite (key_eq _ _ _ Hp). set_solver.
    - unfold set_active, set_timers; cbn. f_equal. set_solver. }
  cbn. intros _ s' ->. wp_steps. apply HQ.
  - done.
  - intros e He. apply Hdue; [rewrite Ht; set_solver|auto].
  - intros e He Hd. apply (Hge e He). apply Hdue; [rewrite Ht; set_solver|done].
  - by apply inv_expired_removed.
Qed.

(** Rescheduling one timer: only a repeating, uncancelled one comes back,
    one interval after [now]. *)
Definition comes_back (s : t) (e : Entry) (tm : Timer) : Prop :=
  repeat_ tm = true /\ (snd e, sequence_ tm) ∉ cancelingTimers_ s.

Lemma inv_set_heap p tm tm' s :
  inv s -> heap s !! p = Some tm -> (p, sequence_ tm) ∉ activeTimers_ s ->
  sequence_ tm' = sequence_ tm -> repeat_ tm' = repeat_ tm -> interval_ tm' = interval_ tm ->
  inv (set_heap (<[p := tm']> (heap s)) s).
Proof.
  intros [H1 H2 H3 H4 H5 H6] Hp Hna Hs Hr Hiv. constructor; cbn; auto.
  - intros e He. destruct (H2 e He) as (te & Hte & Hx & Ha). exists te. split; [|done].
    rewrite lookup_insert_ne; [done|]. intros ->. rewrite Hp in Hte. congruence.
  - intros k Hk. destruct (H3 k Hk) as (tk & Htk & Hq & Hin). exists tk. split; [|done].
    rewrite lookup_insert_ne; [done|]. intros E. apply Hna. subst p. rewrite Htk in Hp.
    injection Hp as ->. rewrite Hq. by destruct k.
  - intros q tq. rewrite lookup_insert. case_decide; [subst q|apply H4].
    intros [= <-]. rewrite Hs, Hr, Hiv. by apply H4.
  - intros q r tq tr. rewrite !lookup_insert. repeat case_decide; subst; try done.
    + intros [= <-] Hq. rewrite Hs. by apply H5.
    + intros Hq [= <-]. rewrite Hs. intros E. by apply (H5 q r tq tm).
    + apply H5.
Qed.

Lemma wpx_reset_one now e tm s :
  inv s -> heap s !! snd e = Some tm -> (snd e, sequence_ tm) ∉ activeTimers_ s ->
  wpx (reset_one now e) (fun _ s' =>
    (~ comes_back s e tm /\ s' = s) \/
    (comes_back s e tm /\ exists w tm', addTime now (interval_ tm) = Ok w /\
       expiration_ tm' = w /\ sequence_ tm' = sequence_ tm /\ callback_ tm' = callback_ tm /\
       inv s' /\ s' = inserted (snd e) tm' (set_heap (<[snd e := tm']> (heap s)) s))) s.
Proof.
  intros Hi Hp Hna. unfold reset_one. wp_steps. eapply wpe_deref; [exact Hp|]. wp_steps.
  unfold comes_back. apply wpe_when.
  - intros Hc. to_prop. wp_steps. apply wpe_lift.
    + intros tm' Hr. unfold Timer_restart in Hr. rewrite H in Hr.
      destruct (addTime now (interval_ tm)) as [w|] eqn:Hw; [|done]. injection Hr as <-.
      set (tm' := mkTimer _ _ _ _ _). wp_steps.
      assert (inv (set_heap (<[snd e:=tm']> (heap s)) s)) as Hi'
        by (by apply (inv_set_heap _ tm)).
      assert (heap (set_heap (<[snd e:=tm']> (heap s)) s) !! snd e = Some tm') as Hp'
        by apply lookup_insert_eq.
      eapply wpe_insert; [done|exact Hp'|]. wp_steps. right.
      split; [done|]. exists w, tm'. repeat (split; [done|]). split; [|done].
      by apply inv_inserted.
    + intros err. unfold Timer_restart. rewrite H.
      destruct (addTime now (interval_ tm)) as [w|ee] eqn:Hw; [done|].
      apply addTime_fault in Hw as ->. congruence.
  - intros Hc. left. split; [|done]. intros [H1 H2]. rewrite H1 in Hc. cbn in Hc.
    rewrite bool_decide_false in Hc by done. done.
Qed.

(** The whole of [reset]. *)
Record reset_ok (now : Z) (s0 : t) (done left : list Entry) (s : t) : Prop := {
  ro_inv : inv s;
  ro_armed : armed s = armed s0;
  ro_canceling : cancelingTimers_ s = cancelingTimers_ s0;
  ro_log : log s = log s0;
  ro_queued : queued s = queued s0;
  ro_calling : callingExpiredTimers_ s = callingExpiredTimers_ s0;
  ro_heap_dom : forall p tm, heap s0 !! p = Some tm ->
    exists tm', heap s !! p = Some tm' /\ sequence_ tm' = sequence_ tm /\
      (p ∉ snd <$> done -> tm' = tm);
  ro_kept : forall x, x ∈ timers_ s0 -> x ∈ timers_ s;
  ro_new : forall x, x ∈ timers_ s -> x ∈ timers_ s0 \/ now <= fst x;
  ro_active : forall k, k ∈ activeTimers_ s -> k ∈ activeTimers_ s0 \/
    exists e tm, e ∈ done /\ heap s0 !! snd e = Some tm /\ k = (snd e, sequence_ tm);
  ro_done : forall e tm, e ∈ done -> heap s0 !! snd e = Some tm ->
    (comes_back s0 e tm -> exists w, addTime now (interval_ tm) = Ok w /\
       (w, snd e) ∈ timers_ s /\ (snd e, sequence_ tm) ∈ activeTimers_ s) /\
    (~ comes_back s0 e tm -> (snd e, sequence_ tm) ∉ activeTimers_ s) }.

(** One more entry that does not come back. *)
Lemma reset_ok_dropped now s0 d e l tm s : reset_ok now s0 d (e :: l) s -> heap s0 !! snd e = Some tm ->
  ~ comes_back s e tm -> (snd e, sequence_ tm) ∉ activeTimers_ s -> reset_ok now s0 (d ++ [e]) l s.
Proof.
  intros [R1 R2 R3 R4 R5 R5' R6 R7 R8 R9 R10] Hp0 Hn Hna. unfold comes_back in *. constructor; auto.
  - intros p tp Hpp. destruct (R6 p tp Hpp) as (tp' & ? & ? & Hq). exists tp'.
    split; [done|]. split; [done|]. intros Hin. apply Hq. set_solver.
  - intros k Hk. destruct (R9 k Hk) as [?|(e' & te & ? & ? & ?)]; [by left|right].
    exists e', te. set_solver.
  - intros e' te He' Hpe. apply elem_of_app in He' as [He'|He']; [by apply R10|].
    apply list_elem_of_singleton in He' as ->. rewrite Hp0 in Hpe. injection Hpe as <-.
    unfold comes_back. rewrite <- R3. done.
Qed.

(** One more entry that is back at [w]. *)
Lemma reset_ok_restarted now s0 d e l tm w tm' s : reset_ok now s0 d (e :: l) s -> heap s0 !! snd e = Some tm ->
  heap s !! snd e = Some tm -> (forall e', e' ∈ d -> snd e' <> snd e) -> comes_back s e tm ->
  addTime now (interval_ tm) = Ok w -> expiration_ tm' = w -> sequence_ tm' = sequence_ tm ->
  inv (inserted (snd e) tm' (set_heap (<[snd e := tm']> (heap s)) s)) ->
  reset_ok now s0 (d ++ [e]) l (inserted (snd e) tm' (set_heap (<[snd e := tm']> (heap s)) s)).
Proof.
  intros [R1 R2 R3 R4 R5 R5' R6 R7 R8 R9 R10] Hp0 Hp Hne Hc Hw Hexp Hseq Hi'. unfold comes_back in *.
  constructor; cbn; auto.
  - intros p tp Hpp. rewrite lookup_insert. case_decide as E.
    + subst p. rewrite Hp0 in Hpp. injection Hpp as <-. exists tm'. split; [done|].
      split; [done|]. intros Hin. exfalso. apply Hin. rewrite fmap_app. set_solver.
    + destruct (R6 p tp Hpp) as (tp' & ? & ? & Hq). exists tp'. split; [done|]. split; [done|].
      intros Hin. apply Hq. set_solver.
  - intros x Hx'. apply elem_of_set_insert. auto.
  - intros x [->|Hx']%elem_of_set_insert; [|auto]. right. cbn. rewrite Hexp.
    eapply addTime_later; [|exact Hw]. destruct Hc as [Hrep _].
    destruct R1 as [_ _ _ R14 _ _]. destruct (R14 _ _ Hp) as (_ & _ & <-). done.
  - intros k. rewrite elem_of_union, elem_of_singleton. intros [->|Hk].
    + right. exists e, tm. rewrite Hseq. set_solver.
    + destruct (R9 k Hk) as [?|(e' & te & ? & ? & ?)]; [by left|right]. exists e', te. set_solver.
  - intros e' te He' Hpe. apply elem_of_app in He' as [He'|He'].
    + destruct (R10 e' te He' Hpe) as [G1 G2]. split.
      * intros Hb. destruct (G1 Hb) as (w' & ? & ? & ?). exists w'. split; [done|].
        split; [apply elem_of_set_insert; auto|set_solver].
      * intros Hb. rewrite elem_of_union, elem_of_singleton. intros [[= E _]|Hin].
        -- by apply (Hne e' He').
        -- by apply (G2 Hb).
    + apply list_elem_of_singleton in He' as ->. rewrite Hp0 in Hpe. injection Hpe as <-.
      split; [|intros Hb; exfalso; apply Hb; unfold comes_back; rewrite <- R3; done].
      intros _. exists w. split; [done|]. rewrite Hexp, Hseq. split; [|set_solver].
      apply elem_of_set_insert. by left.
Qed.

Lemma wpx_reset_loop now expired s0 :
  inv s0 -> NoDup (snd <$> expired) ->
  (forall e, e ∈ expired -> exists tm, heap s0 !! snd e = Some tm /\
     (snd e, sequence_ tm) ∉ activeTimers_ s0) ->
  wpx (for_each (reset_one now) expired) (fun _ => reset_ok now s0 expired []) s0.
Proof.
  intros Hi Hnd Hx. apply (wpe_for_each_split _ (reset_ok now s0)).
  2: { constructor; auto; try set_solver. }
  intros d e l s Hl HR. pose proof HR as [R1 _ _ _ _ _ R6 _ _ R9 _].
  rewrite Hl, fmap_app, fmap_cons in Hnd. apply list.NoDup_app in Hnd as (_ & Hd1 & Hnd2).
  assert (snd e ∉ snd <$> d) as Hed by (intros Hin; apply (Hd1 _ Hin); by left).
  destruct (Hx e ltac:(rewrite Hl; set_solver)) as (tm & Hp0 & Hna0).
  destruct (R6 _ _ Hp0) as (tm1 & Hp & _ & Htm). rewrite (Htm Hed) in Hp. clear Htm tm1.
  assert (forall k, k ∈ activeTimers_ s -> fst k = snd e -> k ∈ activeTimers_ s0) as Hact.
  { intros k Hk Hf. destruct (R9 k Hk) as [?|(e' & tm' & He' & _ & ->)]; [done|].
    exfalso. apply Hed. rewrite <- Hf. cbn. apply list_elem_of_fmap. eauto. }
  assert ((snd e, sequence_ tm) ∉ activeTimers_ s) as Hna by (intros Hin; by apply Hact in Hin).
  assert (forall e', e' ∈ d -> snd e' <> snd e) as Hne.
  { intros e' He' E. apply Hed. rewrite <- E. apply list_elem_of_fmap. eauto. }
  eapply wpe_mono; [by apply wpx_reset_one|]. cbn.
  intros _ s' [[Hn ->]|(Hc & w & tm' & Hw & Hexp & Hseq & _ & Hi' & ->)].
  - by eapply reset_ok_dropped.
  - by eapply reset_ok_restarted.
Qed.

Lemma sorted_head_le y l z : sorted (y :: l) -> z ∈ y :: l -> fst y <= fst z.
Proof.
  intros Hs [->|Hz]%elem_of_cons; [lia|]. inversion_clear Hs as [|? ? _ Hy].
  rewrite list.Forall_forall in Hy. destruct (Hy z Hz) as [?|[? _]]; lia.
Qed.

Hypothesis clock_positive : forall n, 0 < clock n.

Lemma wpx_reset now expired s0 :
  inv s0 -> armed_ok (set_calling true s0) -> 0 < now -> NoDup (snd <$> expired) ->
  (forall e, e ∈ expired -> exists tm, heap s0 !! snd e = Some tm /\
     (snd e, sequence_ tm) ∉ activeTimers_ s0) ->
  wpx (reset clock expired now) (fun _ s => good s /\ ran (log s) = ran (log s0) /\
    (forall e l, timers_ s = e :: l -> 0 < fst e -> armed s = Some (fst e)) /\
    exists s1, reset_ok now s0 expired [] s1 /\ heap s = heap s1 /\ timers_ s = timers_ s1 /\
      activeTimers_ s = activeTimers_ s1 /\ queued s = queued s1 /\
      cancelingTimers_ s = cancelingTimers_ s1 /\
      callingExpiredTimers_ s = callingExpiredTimers_ s1) s0.
Proof.
  intros Hi Ha Hnow Hnd Hx. unfold reset. wp_steps.
  eapply wpe_mono; [by apply wpx_reset_loop|]. cbn. intros _ s R. wp_steps.
  pose proof R as [R1 R2 R3 R4 R5 R5' R6 R7 R8 R9 R10].
  assert (armed_ok s \/ exists y l, timers_ s = y :: l /\ 0 < fst y) as Hhead.
  { destruct (timers_ s) as [|y l] eqn:Et; [left; unfold armed_ok; by rewrite Et|].
    destruct (Z.lt_ge_cases 0 (fst y)) as [?|Hle]; [right; eauto|left].
    unfold armed_ok. rewrite Et, R2.
    destruct (R8 y ltac:(by left)) as [Hy|?]; [|lia].
    unfold armed_ok in Ha; cbn in Ha. destruct (timers_ s0) as [|z r] eqn:E0; [by apply not_elem_of_nil in Hy|].
    destruct Hi as [Hsort _ _ _ _ _]. rewrite E0 in Hsort.
    pose proof (sorted_head_le _ _ _ Hsort Hy).
    destruct Ha as (a & Haz & Hle'); [lia|]. exists a. split; [done|lia]. }
  destruct (timers_ s) as [|y l] eqn:Et; wp_steps.
  - apply wpe_when; [done|]. intros _. split; [|split; [by rewrite R4|split; [by rewrite Et|]]].
    + split; [done|]. unfold armed_ok. by rewrite Et.
    + exists s. split; [done|]. by rewrite ?Et.
  - pose proof R1 as [I1 I2 I3 I4 I5 I6].
    destruct (I2 y) as (tm & Hp & Hexp & _); [rewrite Et; by left|].
    eapply wpe_deref; [exact Hp|]. wp_steps. apply wpe_when.
    + intros Hv. unfold Timestamp_valid in Hv. to_prop. apply wpx_resetTimerfd. intros n lg Hlg.
      split; [|split; [cbn [log]; by rewrite Hlg, R4|split]].
      * split; [by constructor|]. unfold armed_ok; cbn. rewrite Et. exists (expiration_ tm).
        split; [done|]. rewrite Hexp. lia.
      * cbn. rewrite Et, Hexp. by intros e r [= <- _].
      * exists s. cbn. rewrite Et. done.
    + intros Hv. unfold Timestamp_valid in Hv. to_prop.
      split; [|split; [by rewrite R4|split; [|exists s; split; [done|by rewrite ?Et]]]].
      2: { rewrite Et. intros e r [= <- _] Hpos. exfalso. lia. }
      split; [done|]. destruct Hhead as [?|(y' & l' & Ey & ?)]; [done|].
      injection Ey as <- <-. lia.
Qed.

#[global] Instance due_dec now e : Decision (due now e).
Proof. unfold due. apply _. Defined.

Definition run_entry (h : gmap Z Timer) (e : Entry) : Z * Z * Z :=
  match h !! snd e with
  | Some tm => (snd e, sequence_ tm, callback_ tm)
  | None => (snd e, 0, 0)
  end.

Lemma inv_NoDup_addresses s : inv s -> NoDup (snd <$> timers_ s).
Proof.
  intros [H1 H2 _ _ _ _]. apply NoDup_fmap_2_strong; [|by apply sorted_NoDup].
  intros [w1 p1] [w2 p2] He1 He2 E; cbn in E. subst p2.
  destruct (H2 _ He1) as (t1 & Ht1 & Hw1 & _), (H2 _ He2) as (t2 & Ht2 & Hw2 & _). cbn in *.
  congruence.
Qed.

(** What one firing does, seen from the state [s] before it. *)
Record fired (s s' : t) : Prop := {
  fired_good : good s';
  fired_ran : ran (log s') = ran (log s) ++
    (run_entry (heap s) <$> filter (due (clock (ticks s))) (timers_ s));
  fired_expired : forall e tm, e ∈ timers_ s -> due (clock (ticks s)) e ->
    heap s !! snd e = Some tm ->
    (comes_back s' e tm -> exists w, addTime (clock (ticks s)) (interval_ tm) = Ok w /\
       (w, snd e) ∈ timers_ s' /\ (snd e, sequence_ tm) ∈ activeTimers_ s') /\
    (~ comes_back s' e tm -> (snd e, sequence_ tm) ∉ activeTimers_ s');
  fired_active : forall k, k ∈ activeTimers_ s' -> is_Some (heap s !! fst k) -> k ∈ activeTimers_ s;
  fired_heap : forall p tm, heap s !! p = Some tm ->
    exists tm', heap s' !! p = Some tm' /\ sequence_ tm' = sequence_ tm;
  fired_tasks : forall p, TaskAdd p ∈ queued s' ->
    TaskAdd p ∈ queued s \/ (heap s !! p = None /\ is_Some (heap s' !! p));
  fired_calling : callingExpiredTimers_ s' = false;
  fired_armed : forall e l, timers_ s' = e :: l -> 0 < fst e -> armed s' = Some (fst e) }.

(** Running the expired timers one after the other. *)
Lemma wpx_run_each expired s2 :
  good s2 -> (forall e, e ∈ expired -> is_Some (heap s2 !! snd e)) ->
  wpx (for_each (fun it : Entry => Timer_run clock alloc script (snd it)) expired)
    (fun _ s' => good s' /\ later s2 s' /\
       ran (log s') = ran (log s2) ++ (run_entry (heap s2) <$> expired)) s2.
Proof.
  intros Hg Hx. apply (wpe_for_each_split _ (fun d l s' => good s' /\ later s2 s' /\
    ran (log s') = ran (log s2) ++ (run_entry (heap s2) <$> d))).
  2: { split; [done|]. split; [reflexivity|]. cbn. by rewrite app_nil_r. }
  intros d e l s' Hl (Hg' & L & R).
  destruct (Hx e ltac:(rewrite Hl; set_solver)) as [tm Hp].
  eapply wpe_mono.
  { apply wpx_Timer_run; [done|]. eapply lookup_weaken; [exact Hp|]. by apply later_heap. }
  cbn. intros _ s'' (Hg'' & L' & R'). split; [done|]. split; [by transitivity s'|].
  rewrite R', R, fmap_app, <- app_assoc. do 2 f_equal. cbn. unfold run_entry. by rewrite Hp.
Qed.

Lemma key_in (h : gmap Z Timer) (l : list Entry) e tm :
  e ∈ l -> h !! snd e = Some tm -> (snd e, sequence_ tm) ∈ (list_to_set (key h <$> l) : gset ActiveTimer).
Proof.
  intros He Hp. rewrite elem_of_list_to_set, list_elem_of_fmap. exists e.
  split; [|done]. by rewrite (key_eq _ _ _ Hp).
Qed.

(** The account of a firing: [s2] is the state when the callbacks start, [s3]
    when they have run, [s4] when the repeating timers are back. *)
Lemma fired_account s expired rest s2 s3 s4 s' : let now := clock (ticks s) in
  timers_ s = expired ++ rest -> (forall e, e ∈ expired -> due now e) -> (forall e, e ∈ rest -> ~ due now e) ->
  (forall e, e ∈ expired -> exists tm, heap s !! snd e = Some tm /\ (snd e, sequence_ tm) ∈ activeTimers_ s) ->
  heap s2 = heap s -> ran (log s2) = ran (log s) -> activeTimers_ s2 ⊆ activeTimers_ s -> queued s2 = queued s ->
  later s2 s3 -> ran (log s3) = ran (log s2) ++ (run_entry (heap s2) <$> expired) ->
  reset_ok now (set_calling false s3) expired [] s4 -> good s' -> ran (log s') = ran (log s3) ->
  heap s' = heap s4 -> timers_ s' = timers_ s4 -> activeTimers_ s' = activeTimers_ s4 -> queued s' = queued s4 ->
  cancelingTimers_ s' = cancelingTimers_ s4 -> callingExpiredTimers_ s' = callingExpiredTimers_ s4 ->
  (forall e l, timers_ s' = e :: l -> 0 < fst e -> armed s' = Some (fst e)) -> fired s s'.
Proof.
  intros now Ht Hdue Hndue Hx E2h E2l E2a E2q L R3 RO Hg' R' Eh Et Eact Eq Ec Ecall Harm.
  assert (forall p tm, heap s !! p = Some tm -> heap s3 !! p = Some tm) as Hx3.
  { intros p tm Hp. eapply lookup_weaken; [rewrite <- E2h in Hp; exact Hp|apply L]. }
  pose proof RO as [_ _ G3 _ G5 G5' G6 _ _ G9 G10]. cbn in *. constructor; [done| | | | | | |done].
  - rewrite R', R3, E2l, E2h, Ht. do 2 f_equal. symmetry. by apply filter_split.
  - intros e tm He Hd Hp. rewrite Ht in He. apply elem_of_app in He as [He|He].
    2: { exfalso. by apply (Hndue e). }
    specialize (G10 e tm He (Hx3 _ _ Hp)). unfold comes_back in *. by rewrite Ec, G3, Et, Eact.
  - intros k Hk Hs. rewrite Eact in Hk. destruct (G9 k Hk) as [Hk3|(e & tm & He & Hp & ->)].
    + apply (later_active _ _ L) in Hk3; [by apply E2a|by rewrite E2h].
    + destruct (Hx e He) as (tm' & Hp' & Ha'). pose proof (Hx3 _ _ Hp'). congruence.
  - intros p tm Hp. rewrite Eh. destruct (G6 p tm (Hx3 _ _ Hp)) as (tm' & ? & ? & _). eauto.
  - intros p Hp. rewrite Eq, G5 in Hp. destruct (later_tasks _ _ L _ Hp) as [Hp2|[Hn [tm Hp3]]]; [left; by rewrite <- E2q|].
    right. split; [by rewrite <- E2h|]. rewrite Eh. destruct (G6 _ _ Hp3) as (tm' & ? & _). by exists tm'.
  - by rewrite Ecall, G5'.
Qed.

(** [handleRead] up to the end of [sentry], and from there on. *)
Definition begin_firing : M t (Z * list Entry) :=
  let* now := now_ clock in readTimerfd ;;; let* expired := collect_expired now in ret (now, expired).

Lemma wpe_begin_firing E s : inv s -> wpe E begin_firing (fun r s1 =>
  exists rest, fst r = clock (ticks s) /\ timers_ s = snd r ++ rest /\
    (forall e, e ∈ snd r -> due (fst r) e) /\ (forall e, e ∈ rest -> ~ due (fst r) e) /\ inv s1 /\
    s1 = expired_removed (snd r) rest (set_armed None (emit TimerfdRead (set_ticks (S (ticks s)) s)))) s.
Proof.
  intros Hi. unfold begin_firing, readTimerfd. wp_steps. apply wpe_now. wp_steps.
  set (s1 := set_armed None _). assert (inv s1) as Hi1 by (by destruct Hi).
  apply wpe_collect_expired; [done|]. intros expired rest Ht Hdue Hndue Hi2. wp_steps. by exists rest.
Qed.

(** The deletion of the sentry: no [Timer] is at that address. *)
Lemma delete_sentry s : inv s -> delete_Timer UINTPTR_MAX s = Err Undefined.
Proof.
  intros Hi. unfold delete_Timer, deref, bind, get, lift. destruct (heap s !! UINTPTR_MAX) eqn:Hp; [|done].
  apply (inv_heap _ Hi) in Hp. lia.
Qed.
Lemma handleRead_undefined s : inv s -> handleRead clock alloc script s = Err Undefined.
Proof.
  intros Hi. pose proof (wpe_begin_firing (fun _ => False) s Hi) as Hb.
  unfold begin_firing, handleRead, getExpired, wpe, bind, ret in Hb |- *.
  destruct (now_ clock s) as [[now s0]|]; [|done]. destruct (readTimerfd s0) as [[[] s1]|]; [|done].
  destruct (collect_expired now s1) as [[expired s2]|]; [|done].
  destruct Hb as (rest & _ & _ & _ & _ & Hi2 & _). by rewrite (delete_sentry s2 Hi2).
Qed.

Lemma wpx_run_expired s expired rest : let now := clock (ticks s) in inv s -> timers_ s = expired ++ rest ->
  (forall e, e ∈ expired -> due now e) -> (forall e, e ∈ rest -> ~ due now e) ->
  let s1 := expired_removed expired rest (set_armed None (emit TimerfdRead (set_ticks (S (ticks s)) s))) in inv s1 ->
  wpx (run_expired clock alloc script expired now) (fun _ => fired s) s1.
Proof.
  intros now Hi Ht Hdue Hndue s1 Hi2. unfold run_expired. wp_steps. set (s2 := set_canceling ∅ _).
  assert (forall e, e ∈ expired -> exists tm, heap s !! snd e = Some tm /\
    (snd e, sequence_ tm) ∈ activeTimers_ s) as Hx.
  { intros e He. destruct (inv_timers _ Hi e) as (tm & ? & _ & ?); [rewrite Ht; set_solver|eauto]. }
  assert (good s2) as Hg2.
  { split; [by destruct Hi2|]. unfold armed_ok; cbn. destruct rest as [|y r]; [done|]. intros Hf.
    exfalso. apply (Hndue y); [by left|]. unfold due, now. pose proof (clock_positive (ticks s)). lia. }
  eapply wpe_mono; [apply wpx_run_each; [done|]|].
  { intros e He. destruct (Hx e He) as (tm & ? & _). by exists tm. }
  cbn beta. intros _ s3 ([Hi3 Ha3] & L & R3). wp_steps.
  eapply wpe_mono; [apply wpx_reset|].
  - by destruct Hi3.
  - unfold armed_ok in *; cbn in *. destruct (timers_ s3); [done|]. by rewrite (later_calling _ _ L) in Ha3.
  - apply clock_positive.
  - pose proof (inv_NoDup_addresses s Hi) as Hnd. rewrite Ht, fmap_app in Hnd.
    by apply list.NoDup_app in Hnd as [? _].
  - intros e He. destruct (Hx e He) as (tm & Hp & _). exists tm. split; [eapply lookup_weaken; [exact Hp|apply L]|]. intros Hin.
    apply (later_active _ _ L) in Hin; [|cbn; rewrite Hp; eauto]. cbn in Hin.
    apply elem_of_difference in Hin as [_ Hn]. apply Hn. by apply key_in.
  - cbn beta. intros _ s' (Hg' & R' & Harm & s4 & RO & Eh & Et & Eact & Eq & Ec & Ecall).
    apply (fired_account s expired rest s2 s3 s4 s'); try done.
    + unfold s2, s1. cbn [log set_canceling set_calling expired_removed emit set_active set_timers set_armed set_ticks].
      rewrite ran_app. cbn. by rewrite app_nil_r.
    + cbn. set_solver.
Qed.

(** ** Reachable states *)

(** A timer waiting to be added by the loop exists. *)
Definition queued_ok (s : t) : Prop := forall p, TaskAdd p ∈ queued s -> is_Some (heap s !! p).
Definition settled (s : t) : Prop := good s /\ queued_ok s /\ callingExpiredTimers_ s = false.

Lemma quiet_settled s s' : settled s -> quiet s s' -> settled s'.
Proof.
  intros (Hg & Hq & Hc) (Hg' & [L1 L2 L3 L4 L5] & _). split; [done|]. split; [|congruence].
  intros p [Hp|[_ ?]]%L5; [|done]. destruct (Hq p Hp) as [tm Htm]. exists tm. by eapply lookup_weaken.
Qed.

(** What a step keeps about a timer [id] that is neither active nor waiting
    to be added: it stays so. *)
Definition dead (id : TimerId) (s : t) : Prop :=
  id ∉ activeTimers_ s /\ TaskAdd (fst id) ∉ queued s /\ is_Some (heap s !! fst id).
Definition stays_dead (id : TimerId) (s s' : t) : Prop := dead id s -> dead id s'.

Lemma quiet_stays_dead id s s' : quiet s s' -> stays_dead id s s'.
Proof.
  intros (Hg & [L1 L2 L3 L4 L5] & R) (D1 & D2 & [tm D3]).
  split; [intros Hin; apply D1, L2; [done|by exists tm]|]. split.
  - intros [?|[? _]]%L5; [done|congruence].
  - exists tm. by eapply lookup_weaken.
Qed.

Lemma wpx_exec_task k s : good s -> (forall p, k = TaskAdd p -> is_Some (heap s !! p)) ->
  callingExpiredTimers_ s = false ->
  wpx (exec_task clock k) (fun _ s' => good s' /\ heap s' = heap s /\
    (forall p, TaskAdd p ∈ queued s' -> TaskAdd p ∈ queued s) /\
    callingExpiredTimers_ s' = false /\
    forall id, k <> TaskAdd (fst id) -> stays_dead id s s') s.
Proof.
  intros Hg Hk Hc. destruct k as [p|id']; cbn [exec_task].
  - destruct (Hk p eq_refl) as [tm Hp]. destruct Hg as [Hi Ha].
    eapply wpe_mono; [by apply wpx_addTimerInLoop|]. cbn.
    intros _ s' (G1 & G2 & G3 & G4 & G5 & G6 & G7 & G8).
    split; [done|]. split; [done|]. split; [by rewrite G8|]. split; [congruence|].
    intros id Hne (D1 & D2 & D3). split; [|by rewrite G8, G3]. rewrite G4. rewrite elem_of_union, elem_of_singleton.
    intros [->|?]; [|done]. by apply Hne.
  - eapply wpe_mono; [by apply wpe_cancelInLoop|]. cbn. intros _ s' (Hq & Hh & _).
    split; [apply Hq|]. split; [done|]. destruct Hq as (? & L & ?). split.
    + intros p [?|[Hn [tm ?]]]%(later_tasks _ _ L); [done|congruence].
    + split; [rewrite (later_calling _ _ L); done|]. intros id _. by apply quiet_stays_dead.
Qed.

Lemma wpx_step o s : settled s ->
  wpx (step clock alloc script o) (fun _ s' => settled s' /\ forall id, stays_dead id s s') s.
Proof.
  intros Hs. pose proof Hs as (Hg & Hq & Hc). destruct o as [c|cb w iv|id| |]; cbn [step].
  - eapply wpe_mono; [by apply wpx_exec_cmd|]. cbn. intros _ s' Hs'.
    split; [by eapply quiet_settled|]. intros id. by apply quiet_stays_dead.
  - wp_steps. eapply wpe_mono; [by apply wpx_addTimer|]. cbn. intros id0 s' (Hs' & _). wp_steps.
    split; [by eapply quiet_settled|]. intros id. by apply quiet_stays_dead.
  - unfold cancel. wp_steps. pose proof (quiet_enqueue id s Hg) as Hqt.
    split; [by eapply quiet_settled|]. intros id'. by apply quiet_stays_dead.
  - wp_steps. set (s1 := set_queued [] s).
    assert (good s1) as Hg1 by (destruct Hg as [[] ?]; split; [by constructor|done]).
    eapply wpe_mono.
    { apply (wpe_for_each _ (fun s' => good s' /\ heap s' = heap s /\
        (forall p, TaskAdd p ∉ queued s') /\ callingExpiredTimers_ s' = false /\
        forall id, stays_dead id s s')).
      - intros k s' Hk (J1 & J2 & J3 & J4 & J5).
        eapply wpe_mono; [apply wpx_exec_task; [done|intros p ->; rewrite J2; by apply Hq|done]|].
        cbn. intros _ s'' (K1 & K2 & K3 & K4 & K5).
        split; [done|]. split; [congruence|]. split; [intros p Hp; by apply (J3 p), K3|].
        split; [done|]. intros id Hd. apply K5; [|by apply J5].
        intros ->. by destruct Hd as (_ & Hn & _).
      - split; [done|]. split; [done|]. split; [set_solver|]. split; [done|].
        intros id (D1 & D2 & D3). split; [done|]. split; [set_solver|done]. }
    cbn. intros _ s' (J1 & J2 & J3 & J4 & J5). split; [|done]. split; [done|]. split; [|done].
    intros p Hp. by apply J3 in Hp.
  - unfold wpe. by rewrite (handleRead_undefined s (proj1 Hg)).
Qed.

Lemma wpx_run l s : settled s ->
  wpx (run clock alloc script l) (fun _ s' => settled s' /\ forall id, stays_dead id s s') s.
Proof.
  intros Hs. unfold run.
  apply (wpe_for_each _ (fun s' => settled s' /\ forall id, stays_dead id s s')); [|split; [done|by intros id Hd]].
  intros o s' _ [Hs' Hd]. eapply wpe_mono; [by apply wpx_step|]. cbn. intros _ s'' [Hs'' Hd'].
  split; [done|]. intros id Hdead. by apply Hd', Hd.
Qed.

Lemma settled_init : settled init.
Proof.
  split; [|split; [intros p Hp; by apply not_elem_of_nil in Hp|done]].
  split; [|done]. constructor; cbn; [constructor|set_solver|set_solver| | |lia].
  - intros p tm Hp. by rewrite lookup_empty in Hp.
  - intros p q tp tq Hp. by rewrite lookup_empty in Hp.
Qed.

(** C18: Whatever the loop's thread and other threads ask for, in whatever
    order the queued calls run, no assertion of [TimerQueue::insert] fails;
    [timers_] and [activeTimers_] stay two indexes of the same timers (so
    their sizes agree), every timer waiting to be added exists, and, with a
    timer active, the timerfd is armed no later than the earliest expiration.
    A run goes on to the first firing of the timerfd, which has no defined
    behaviour ([firing_undefined]). *)
Theorem queue_sound l :
  wpx (run clock alloc script l) (fun _ s => inv s /\ armed_ok s /\ queued_ok s /\
    callingExpiredTimers_ s = false /\ length (timers_ s) = size (activeTimers_ s)) init.
Proof.
  eapply wpe_mono; [apply wpx_run, settled_init|]. cbn.
  intros _ s' [((Hi & Ha) & Hq & Hc) _]. repeat (split; [done|]). by apply inv_sizes.
Qed.

(** C19: The firing of the timerfd, from any state the queue can be in,
    whether a timer is due or not: [getExpired] collects the due timers and
    then its sentry, a [shared_ptr] that owns the address [UINTPTR_MAX],
    deletes a [Timer] where there is none, which is undefined; no timer
    callback is reached. *)
Theorem firing_undefined l s :
  run clock alloc script l init = Ok (tt, s) -> handleRead clock alloc script s = Err Undefined.
Proof.
  intros Hr. apply handleRead_undefined.
  by destruct (wpe_elim _ _ _ _ _ _ (wpx_run l init settled_init) Hr) as [((? & _) & _) _].
Qed.

(** C9: The two parts of a firing, before and behind the end of the sentry,
    from any reachable state.  The first reads the timerfd and takes exactly
    the due timers out of the sets, in expiration order.  The second, given
    what the first collected and left, runs each of these once, in that
    order; the repeating ones not cancelled by a callback are active again,
    one interval after the time of the firing, the others are not active any
    more; no timer that was inactive becomes active; the timerfd is armed
    exactly for the earliest timer left, if that is a valid time. *)
Theorem firing_exact l s :
  run clock alloc script l init = Ok (tt, s) ->
  wp begin_firing (fun r s1 =>
    fst r = clock (ticks s) /\ snd r = filter (due (fst r)) (timers_ s) /\
    timers_ s1 = filter (fun e => ~ due (fst r) e) (timers_ s) /\
    activeTimers_ s1 = activeTimers_ s ∖ list_to_set (key (heap s) <$> snd r) /\
    wpx (run_expired clock alloc script (snd r) (fst r)) (fun _ => fired s) s1) s.
Proof.
  intros Hr. destruct (wpe_elim _ _ _ _ _ _ (wpx_run l init settled_init) Hr) as [((Hi & _) & _) _].
  eapply wpe_mono; [by apply wpe_begin_firing|]. cbn beta. intros [now expired] s1 (rest & -> & Ht & Hdue & Hndue & Hi1 & ->).
  cbn [fst snd] in *. split; [done|]. split; [by rewrite Ht, filter_split|]. split.
  - cbn [timers_ expired_removed set_active set_timers]. rewrite Ht. by rewrite filter_split_not.
  - split; [done|]. by apply wpx_run_expired.
Qed.

(** C17: Once a timer that the loop knows is cancelled, whatever is asked
    for afterwards, it is not active any more and no firing collects it. *)
Theorem cancelled_never_collected l1 l2 id s1 s2 s3 now :
  run clock alloc script l1 init = Ok (tt, s1) ->
  is_Some (heap s1 !! fst id) -> TaskAdd (fst id) ∉ queued s1 ->
  cancel true id s1 = Ok (tt, s2) ->
  run clock alloc script l2 s2 = Ok (tt, s3) ->
  id ∉ activeTimers_ s3 /\
  wp (collect_expired now) (fun expired _ => id ∉ (key (heap s3) <$> expired)) s3.
Proof.
  intros R1 Hh Ht Hc R2.
  destruct (wpe_elim _ _ _ _ _ _ (wpx_run l1 init settled_init) R1) as [Hs1 _].
  assert (good s1) as Hg1 by apply Hs1.
  destruct (wpe_elim _ _ _ _ _ _ (wpe_cancelInLoop (fun e => e <> AssertFailed) id s1 Hg1) Hc)
    as (Hq & Eh & Hn & _).
  assert (dead id s2) as Hd.
  { split; [done|]. split; [|by rewrite Eh]. destruct Hq as (_ & L & _).
    intros [?|[Hn' _]]%(later_tasks _ _ L); [done|]. rewrite Hn' in Hh. by destruct Hh. }
  destruct (wpe_elim _ _ _ _ _ _ (wpx_run l2 s2 (quiet_settled _ _ Hs1 Hq)) R2) as [Hs3 Hd3].
  destruct (Hd3 id Hd) as (Ha & _). split; [done|]. destruct Hs3 as ((Hi3 & _) & _).
  apply wpe_collect_expired; [done|]. intros expired rest Et _ _ _ (e & -> & He)%list_elem_of_fmap.
  destruct (inv_timers _ Hi3 e) as (tm & Hp & _ & Hin); [rewrite Et; set_solver|]. by rewrite (key_eq _ _ _ Hp) in Ha.
Qed.
End invariant.

(** The delay the timerfd is armed with: at least 100 microseconds, never
    zero (a zero would disarm it), otherwise the exact time left, as a
    normalised [timespec]; the only other outcome is the overflow of the
    64-bit difference. *)
Theorem settime_bounds clock when_ s :
  match howMuchTimeFromNow clock when_ s with
  | Ok ((tv_sec, tv_nsec), s') =>
      0 <= tv_sec /\ 0 <= tv_nsec < 1000000000 /\ 0 < tv_sec + tv_nsec /\
      tv_sec * 1000000000 + tv_nsec = 1000 * Z.max 100 (when_ - clock (ticks s)) /\
      s' = set_ticks (S (ticks s)) s
  | Err e => e = Undefined /\ int64 (when_ - clock (ticks s)) = false
  end.
Proof.
  unfold howMuchTimeFromNow, now_, bind, get, modify, ret, lift, int64_op. cbn [ticks set_ticks].
  destruct (int64 (when_ - clock (ticks s))); [|done].
  set (us := if _ <? 100 then 100 else _).
  assert (us = Z.max 100 (when_ - clock (ticks s))) as Hus.
  { unfold us. destruct (Z.ltb_spec (when_ - clock (ticks s)) 100); lia. }
  rewrite Hus. change kMicroSecondsPerSecond with 1000000. set (d := Z.max _ _) in *.
  rewrite Z.quot_div_nonneg, Z.rem_mod_nonneg by lia.
  pose proof (Z.div_mod d 1000000 ltac:(lia)). pose proof (Z.mod_pos_bound d 1000000 ltac:(lia)).
  pose proof (Z.div_pos d 1000000). repeat split; try lia.
Qed.

(** ** A run to instantiate the theorems with *)

Module Sample.
Definition clock (n : nat) : Z := 1000000 * (Z.of_nat n + 1).
Definition top (h : gmap Z Timer) : Z := map_fold (fun p _ m => Z.max p m) 0 h.
Definition alloc (h : gmap Z Timer) : option Z :=
  if top h + 16 <? UINTPTR_MAX then Some (top h + 16) else None.
(** Callback 2 cancels the timer that runs it; callback 3 adds a timer. *)
Definition script (cb : Z) (s : t) : list cmd :=
  match cb, list.last (log s) with
  | 2, Some (Ran p q _) => [Cancel (p, q)]
  | 3, _ => [RunAt 1 5000000]
  | _, _ => []
  end.
Definition one : double := double_of_Z 1.

Lemma top_spec h : 0 <= top h /\ forall p, is_Some (h !! p) -> p <= top h.
Proof.
  unfold top. apply (map_fold_weak_ind (fun m h => 0 <= m /\ forall p, is_Some (h !! p) -> p <= m)).
  - split; [lia|]. intros p [? Hp]. by rewrite lookup_empty in Hp.
  - intros p tm h' m Hn [H1 H2]. split; [lia|]. intros q. rewrite lookup_insert.
    case_decide; [subst; lia|]. intros Hq%H2. lia.
Qed.

Lemma alloc_fresh h p : alloc h = Some p -> h !! p = None /\ 0 < p < UINTPTR_MAX.
Proof.
  unfold alloc. destruct (top_spec h) as [H0 H]. case_match; [|done]. intros [= <-]. to_prop.
  split; [|lia]. destruct (h !! (top h + 16)) eqn:E; [|done].
  specialize (H (top h + 16) ltac:(by eexists)). lia.
Qed.

Lemma clock_positive n : 0 < clock n.
Proof. unfold clock. lia. Qed.

Definition ops : list op :=
  [OpCall (RunAt 1 2000000); OpCall (RunEvery 2 one); OpCall (RunEvery 3 one); OpRemoteAdd 1 1500000 double_zero;
   OpTasks].
Definition after (l : list op) : t :=
  match run clock alloc script l init with Ok (_, s) => s | Err _ => init end.
Lemma run_ops : run clock alloc script ops init = Ok (tt, after ops).
Proof. vm_compute. reflexivity. Qed.
End Sample.

Lemma queue_sound_witness :
  timers_ (Sample.after Sample.ops) = [(1500000, 64); (2000000, 16); (3000000, 32); (4000000, 48)] /\
  length (timers_ (Sample.after Sample.ops)) = size (activeTimers_ (Sample.after Sample.ops)).
Proof.
  split; [vm_compute; reflexivity|].
  pose proof (queue_sound Sample.clock Sample.alloc Sample.script Sample.alloc_fresh
    Sample.clock_positive Sample.ops) as H.
  apply (wpe_elim _ _ _ _ _ _ H Sample.run_ops).
Defined.

Lemma firing_undefined_witness : filter (due 4000000) (timers_ (Sample.after Sample.ops)) <> [] /\
  handleRead Sample.clock Sample.alloc Sample.script (Sample.after Sample.ops) = Err Undefined.
Proof.
  split; [vm_compute; congruence|].
  exact (firing_undefined Sample.clock Sample.alloc Sample.script Sample.alloc_fresh Sample.clock_positive
    Sample.ops (Sample.after Sample.ops) Sample.run_ops).
Defined.

(** The callbacks: timer 2 cancels itself, timer 3 adds a timer. *)
Definition sample_collected : Z * list Entry * t :=
  match begin_firing Sample.clock (Sample.after Sample.ops) with Ok (r, s) => (r, s) | Err _ => ((0, []), init) end.
Lemma firing_exact_witness : exists s',
  begin_firing Sample.clock (Sample.after Sample.ops) = Ok (fst sample_collected, snd sample_collected) /\
  run_expired Sample.clock Sample.alloc Sample.script (snd (fst sample_collected)) (fst (fst sample_collected))
    (snd sample_collected) = Ok (tt, s') /\
  fired Sample.clock (Sample.after Sample.ops) s' /\ ran (log s') <> [] /\ armed s' = Some 5000000.
Proof.
  assert (begin_firing Sample.clock (Sample.after Sample.ops) = Ok (fst sample_collected, snd sample_collected)) as E
    by (vm_compute; reflexivity).
  eexists. split; [exact E|]. split; [vm_compute; reflexivity|]. split; [|split; [vm_compute; congruence|vm_compute; reflexivity]].
  pose proof (firing_exact Sample.clock Sample.alloc Sample.script
    Sample.alloc_fresh Sample.clock_positive Sample.ops _ Sample.run_ops) as H.
  destruct (wpe_elim _ _ _ _ _ _ H E) as (_ & _ & _ & _ & Hf).
  refine (wpe_elim _ _ _ _ _ _ Hf _). vm_compute. reflexivity.
Defined.

(** Timer 3 (address 48) repeats; once cancelled no firing finds it. *)
Lemma cancelled_never_collected_witness : exists s2 s3,
  cancel true (48, 3) (Sample.after Sample.ops) = Ok (tt, s2) /\
  run Sample.clock Sample.alloc Sample.script
    [OpRemoteAdd 1 1700000 double_zero; OpTasks; OpCall (RunEvery 2 Sample.one)] s2 = Ok (tt, s3) /\
  (48, 3) ∉ activeTimers_ s3.
Proof.
  eexists _, _. split; [vm_compute; reflexivity|]. split; [vm_compute; reflexivity|].
  eapply (cancelled_never_collected Sample.clock Sample.alloc Sample.script
    Sample.alloc_fresh Sample.clock_positive Sample.ops
    [OpRemoteAdd 1 1700000 double_zero; OpTasks; OpCall (RunEvery 2 Sample.one)] (48, 3) _ _ _ 9000000).
  - exact Sample.run_ops.
  - vm_compute. eexists. reflexivity.
  - vm_compute. intros H. inversion H.
  - vm_compute. reflexivity.
  - vm_compute. reflexivity.
Defined.

End TimerQueue.
