(* ===== verification/Channel.v ===== *)
(** * Channels (Channel.h, Channel.c++) and the interface of a poller
    (Poller.h, Poller.c++)

    A [Channel*] is an address in a store of channels.  The store and the
    poller of one loop make up its [World]; [Poller] is the virtual base
    class: its three virtual functions, and the contract [PollerSpec] both
    implementations fulfil.  The callbacks of a channel are numbers that the
    code running a loop interprets. *)
From S2P Require Import Prelude.

Definition EPOLLIN : Z := 1.
Definition EPOLLPRI : Z := 2.
Definition EPOLLOUT : Z := 4.
Definition EPOLLERR : Z := 8.
Definition EPOLLHUP : Z := 16.
Definition EPOLLRDHUP : Z := 8192.

Definition kNoneEvent : Z := 0.
Definition kReadEvent : Z := Z.lor EPOLLIN EPOLLPRI.
Definition kWriteEvent : Z := EPOLLOUT.

Record Channel : Type := mkChannel {
  loop_ : Z;
  fd_ : Z;
  events_ : Z;
  revents_ : Z;
  index_ : Z;
  logHup_ : bool;
  eventHandling_ : bool;
  addedToLoop_ : bool;
  readCallback_ : option Z;
  writeCallback_ : option Z;
  closeCallback_ : option Z;
  errorCallback_ : option Z }.

Definition set_events v c := mkChannel (loop_ c) (fd_ c) v (revents_ c) (index_ c) (logHup_ c)
  (eventHandling_ c) (addedToLoop_ c) (readCallback_ c) (writeCallback_ c) (closeCallback_ c) (errorCallback_ c).
Definition set_revents v c := mkChannel (loop_ c) (fd_ c) (events_ c) v (index_ c) (logHup_ c)
  (eventHandling_ c) (addedToLoop_ c) (readCallback_ c) (writeCallback_ c) (closeCallback_ c) (errorCallback_ c).
Definition set_index v c := mkChannel (loop_ c) (fd_ c) (events_ c) (revents_ c) v (logHup_ c)
  (eventHandling_ c) (addedToLoop_ c) (readCallback_ c) (writeCallback_ c) (closeCallback_ c) (errorCallback_ c).
Definition set_handling v c := mkChannel (loop_ c) (fd_ c) (events_ c) (revents_ c) (index_ c) (logHup_ c)
  v (addedToLoop_ c) (readCallback_ c) (writeCallback_ c) (closeCallback_ c) (errorCallback_ c).
Definition set_added v c := mkChannel (loop_ c) (fd_ c) (events_ c) (revents_ c) (index_ c) (logHup_ c)
  (eventHandling_ c) v (readCallback_ c) (writeCallback_ c) (closeCallback_ c) (errorCallback_ c).
Definition setReadCallback v c := mkChannel (loop_ c) (fd_ c) (events_ c) (revents_ c) (index_ c) (logHup_ c)
  (eventHandling_ c) (addedToLoop_ c) v (writeCallback_ c) (closeCallback_ c) (errorCallback_ c).
Definition setWriteCallback v c := mkChannel (loop_ c) (fd_ c) (events_ c) (revents_ c) (index_ c) (logHup_ c)
  (eventHandling_ c) (addedToLoop_ c) (readCallback_ c) v (closeCallback_ c) (errorCallback_ c).
Definition setCloseCallback v c := mkChannel (loop_ c) (fd_ c) (events_ c) (revents_ c) (index_ c) (logHup_ c)
  (eventHandling_ c) (addedToLoop_ c) (readCallback_ c) (writeCallback_ c) v (errorCallback_ c).
Definition setErrorCallback v c := mkChannel (loop_ c) (fd_ c) (events_ c) (revents_ c) (index_ c) (logHup_ c)
  (eventHandling_ c) (addedToLoop_ c) (readCallback_ c) (writeCallback_ c) (closeCallback_ c) v.

(** The constructor. *)
Definition Channel_new (loop fd : Z) : Channel :=
  mkChannel loop fd 0 0 (-1) true false false None None None None.

Definition has (flags f : Z) : bool := negb (Z.land flags f =? 0).

Definition isWriting (c : Channel) : bool := has (events_ c) kWriteEvent.
Definition isReading (c : Channel) : bool := has (events_ c) kReadEvent.
Definition isNoneEvent (c : Channel) : bool := events_ c =? kNoneEvent.

Lemma isNoneEvent_false c : events_ c <> 0 -> isNoneEvent c = false.
Proof. apply Z.eqb_neq. Qed.
Lemma isNoneEvent_true c : events_ c = 0 -> isNoneEvent c = true.
Proof. apply Z.eqb_eq. Qed.

(** ** A loop's channels and its poller *)

Record World (P : Type) : Type := mkWorld { chans : gmap Z Channel; poller : P }.
Arguments mkWorld {P}.
Arguments chans {P}.
Arguments poller {P}.

Definition set_chans {P} (h : gmap Z Channel) (w : World P) : World P := mkWorld h (poller w).
Definition set_poller {P} (p : P) (w : World P) : World P := mkWorld (chans w) p.

(** Dereference a [Channel*], and write through it. *)
Definition channel {P} (c : Z) : M (World P) Channel :=
  let* w := get in
  lift match chans w !! c with Some ch => Ok ch | None => Err Undefined end.
Definition write_channel {P} (c : Z) (f : Channel -> Channel) : M (World P) unit :=
  let* ch := channel c in
  modify (fun w => set_chans (<[c := f ch]> (chans w)) w).

(** The virtual functions. [poll] returns the time and the active channels. *)
Class Poller (P : Type) : Type := {
  channels_ : P -> gmap Z Z;
  poll : Z -> M (World P) (Z * list Z);
  updateChannel : Z -> M (World P) unit;
  removeChannel : Z -> M (World P) unit }.

Definition hasChannel {P} `{Poller P} (c : Z) : M (World P) bool :=
  let* ch := channel c in
  let* w := get in
  ret match channels_ (poller w) !! fd_ ch with
      | Some it => it =? c
      | None => false
      end.

Section operations.
Context {P : Type} `{Poller P}.

Definition update (c : Z) : M (World P) unit :=
  write_channel c (set_added true) ;;; updateChannel c.
Definition remove (c : Z) : M (World P) unit :=
  write_channel c (set_added false) ;;; removeChannel c.

Definition enableReading (c : Z) : M (World P) unit :=
  write_channel c (fun ch => set_events (Z.lor (events_ ch) kReadEvent) ch) ;;; update c.
Definition disableReading (c : Z) : M (World P) unit :=
  write_channel c (fun ch => set_events (Z.land (events_ ch) (Z.lnot kReadEvent)) ch) ;;; update c.
Definition enableWriting (c : Z) : M (World P) unit :=
  write_channel c (fun ch => set_events (Z.lor (events_ ch) kWriteEvent) ch) ;;; update c.
Definition disableWriting (c : Z) : M (World P) unit :=
  write_channel c (fun ch => set_events (Z.land (events_ ch) (Z.lnot kWriteEvent)) ch) ;;; update c.
Definition disableAll (c : Z) : M (World P) unit :=
  write_channel c (set_events kNoneEvent) ;;; update c.
End operations.

Section handleEvent.
(** [S]: all that a callback can reach; [run cb time] calls it. *)
Context {S : Type} (get_channel : Z -> M S Channel) (put_channel : Z -> (Channel -> Channel) -> M S unit)
  (run : Z -> Z -> M S unit).

Definition call (cb : option Z) (time : Z) : M S unit :=
  match cb with Some f => run f time | None => ret tt end.

Definition handleEvent (c activeTime : Z) : M S unit :=
  put_channel c (set_handling true) ;;;
  let* ch := get_channel c in
  when (has (revents_ ch) EPOLLHUP && negb (has (revents_ ch) EPOLLIN))
    (call (closeCallback_ ch) activeTime) ;;;
  let* ch := get_channel c in
  when (has (revents_ ch) EPOLLERR) (call (errorCallback_ ch) activeTime) ;;;
  let* ch := get_channel c in
  when (has (revents_ ch) (Z.lor (Z.lor EPOLLIN EPOLLPRI) EPOLLRDHUP))
    (call (readCallback_ ch) activeTime) ;;;
  let* ch := get_channel c in
  when (has (revents_ ch) EPOLLOUT) (call (writeCallback_ ch) activeTime).

(** Whatever the callbacks are: a property that every state of the call has,
    from the first write on, and under which the channel is there. *)
Lemma handleEvent_keeps (E : fault -> Prop) (J : S -> Prop) c t s :
  (forall s, J s -> exists ch, get_channel c s = Ok (ch, s)) ->
  (forall f s, J s -> wpe E (run f t) (fun _ => J) s) ->
  wpe E (put_channel c (set_handling true)) (fun _ => J) s -> wpe E (handleEvent c t) (fun _ => J) s.
Proof.
  intros Hget Hrun Hput. unfold handleEvent. wp_step. eapply wpe_mono; [exact Hput|]. cbn beta. intros _ s1 Hs1.
  assert (forall (b : Channel -> bool) cb (k : M S unit) s2, J s2 -> (forall s3, J s3 -> wpe E k (fun _ => J) s3) ->
    wpe E (let* ch := get_channel c in when (b ch) (call (cb ch) t) ;;; k) (fun _ => J) s2) as Hone.
  { intros b cb k s2 Hs2 Hk. destruct (Hget _ Hs2) as [ch Hch]. wp_step. unfold wpe at 1. rewrite Hch. wp_step.
    apply wpe_when; intros _; [|by apply Hk]. destruct (cb ch) as [f|]; cbn [call]; [|by apply wpe_ret, Hk].
    eapply wpe_mono; [by apply Hrun|]. cbn beta. auto. }
  apply Hone; [done|]. intros s2 Hs2. apply Hone; [done|]. intros s3 Hs3. apply Hone; [done|]. intros s4 Hs4.
  destruct (Hget _ Hs4) as [ch Hch]. wp_step. unfold wpe at 1. rewrite Hch.
  apply wpe_when; intros _; [|done]. destruct (writeCallback_ ch); cbn [call]; [by apply Hrun|by apply wpe_ret].
Qed.
End handleEvent.

(** ** The contract of a poller *)

Definition INT_MAX : Z := 2 ^ 31 - 1.

(** The same channels, but for their [index_] ([revents_]), which belong to
    the poller. *)
Definition same_channels (h h' : gmap Z Channel) : Prop :=
  forall c, match h !! c, h' !! c with
            | Some a, Some b => set_index 0 (set_revents 0 a) = set_index 0 (set_revents 0 b)
            | None, None => True
            | _, _ => False
            end.

#[export] Instance same_channels_equiv : Equivalence same_channels.
Proof.
  split.
  - intros h c. by destruct (h !! c).
  - intros h k H c. specialize (H c). destruct (h !! c), (k !! c); done.
  - intros h k m H G c. specialize (H c). specialize (G c).
    destruct (h !! c), (k !! c), (m !! c); try done. congruence.
Qed.

Lemma same_channels_lookup h h' c ch : same_channels h h' -> h !! c = Some ch ->
  exists ch', h' !! c = Some ch' /\ set_index 0 (set_revents 0 ch) = set_index 0 (set_revents 0 ch').
Proof. intros H Hc. specialize (H c). rewrite Hc in H. destruct (h' !! c); [eauto|done]. Qed.

Lemma wpe_channel {P} (E : fault -> Prop) c ch (Q : Channel -> World P -> Prop) w :
  chans w !! c = Some ch -> Q ch w -> wpe E (channel c) Q w.
Proof. intros Hc HQ. unfold channel. wp_steps. apply wpe_lift; rewrite Hc; naive_solver. Qed.

Lemma wpe_write {P} (E : fault -> Prop) c f ch (Q : unit -> World P -> Prop) w :
  chans w !! c = Some ch -> Q tt (set_chans (<[c := f ch]> (chans w)) w) -> wpe E (write_channel c f) Q w.
Proof. intros Hc HQ. unfold write_channel. wp_steps. eapply wpe_channel; [exact Hc|]. by wp_steps. Qed.

Lemma same_channels_insert h c ch ch' : h !! c = Some ch ->
  set_index 0 (set_revents 0 ch') = set_index 0 (set_revents 0 ch) -> same_channels h (<[c := ch']> h).
Proof.
  intros Hc E d. rewrite lookup_insert. case_decide; [subst; by rewrite Hc|]. by destruct (h !! d).
Qed.

Definition same_dispatch (a b : Channel) : Prop :=
  revents_ a = revents_ b /\ readCallback_ a = readCallback_ b /\ writeCallback_ a = writeCallback_ b /\
  closeCallback_ a = closeCallback_ b /\ errorCallback_ a = errorCallback_ b.

#[export] Instance same_dispatch_equiv : Equivalence same_dispatch.
Proof.
  unfold same_dispatch. split; [by intros a|intros a b; naive_solver|intros a b c; naive_solver congruence].
Qed.

(** The same channels, but for their [index_]. *)
Definition same_but_index (h h' : gmap Z Channel) : Prop :=
  forall c, match h !! c, h' !! c with
            | Some a, Some b => set_index 0 a = set_index 0 b
            | None, None => True
            | _, _ => False
            end.

#[export] Instance same_but_index_equiv : Equivalence same_but_index.
Proof.
  split.
  - intros h c. by destruct (h !! c).
  - intros h k H c. specialize (H c). destruct (h !! c), (k !! c); done.
  - intros h k m H G c. specialize (H c). specialize (G c).
    destruct (h !! c), (k !! c), (m !! c); try done. congruence.
Qed.

Lemma same_but_index_insert h c ch i : h !! c = Some ch -> same_but_index h (<[c := set_index i ch]> h).
Proof.
  intros Hc d. rewrite lookup_insert. case_decide; [subst; by rewrite Hc|]. by destruct (h !! d).
Qed.

Lemma same_but_index_channels h h' : same_but_index h h' -> same_channels h h'.
Proof.
  intros H c. specialize (H c). destruct (h !! c) as [a|], (h' !! c) as [b|]; try done.
  assert (forall x, set_index 0 (set_revents 0 x) = set_revents 0 (set_index 0 x)) as E by done.
  by rewrite !E, H.
Qed.

(** Every channel is still there, with its returned events and callbacks. *)
Definition kept (h h' : gmap Z Channel) : Prop :=
  forall c ch, h !! c = Some ch -> exists ch', h' !! c = Some ch' /\ same_dispatch ch ch'.

#[export] Instance kept_preorder : PreOrder kept.
Proof.
  split; [intros h c ch Hc; by exists ch|]. intros h k l H G c ch Hc.
  destruct (H c ch Hc) as (ch1 & H1 & E1). destruct (G c ch1 H1) as (ch2 & H2 & E2).
  exists ch2. split; [done|]. by transitivity ch1.
Qed.

Lemma kept_write h c ch ch' : h !! c = Some ch -> same_dispatch ch ch' -> kept h (<[c := ch']> h).
Proof.
  intros Hc Hs d dh Hd. rewrite lookup_insert. case_decide; [|by exists dh]. subst d.
  rewrite Hc in Hd. injection Hd as <-. by exists ch'.
Qed.

Lemma same_but_index_kept h h' : same_but_index h h' -> kept h h'.
Proof.
  intros H c ch Hc. specialize (H c). rewrite Hc in H. destruct (h' !! c) as [ch'|]; [|done].
  exists ch'. split; [done|]. destruct ch, ch'; cbn in *. injection H. intros. subst. done.
Qed.

(** A channel not in the table [m] is left alone. *)
Definition untouched (m : gmap Z Z) (h h' : gmap Z Channel) : Prop :=
  forall c ch, h !! c = Some ch -> m !! fd_ ch <> Some c -> h' !! c = Some ch.

Lemma untouched_refl m h : untouched m h h.
Proof. by intros c ch. Qed.

Lemma untouched_insert m h c ch ch' : h !! c = Some ch -> m !! fd_ ch = Some c ->
  untouched m h (<[c := ch']> h).
Proof.
  intros Hc Hm d ch2 Hd Hn. rewrite lookup_insert_ne; [done|]. intros ->. congruence.
Qed.

Lemma untouched_trans m h k l : untouched m h k -> untouched m k l -> untouched m h l.
Proof. intros H G c ch Hc Hn. apply G; [by apply H|done]. Qed.

(** How the watched events [m] may change when the channel [c] asks for [e]:
    a channel without interest is dropped, or, if it was not there, may come
    in with no events. *)
Definition interest_after (fd c e : Z) (m m' : gmap Z (Z * Z)) : Prop :=
  if e =? kNoneEvent then
    (forall fd', fd' <> fd -> m' !! fd' = m !! fd') /\
    (forall v, m' !! fd = Some v -> v = (c, kNoneEvent) /\ m !! fd = None)
  else m' = <[fd := (c, e)]> m.

Lemma interest_after_delete fd c m : interest_after fd c 0 m (delete fd m).
Proof.
  split; [intros fd' Hne; by rewrite lookup_delete_ne|]. intros v. by rewrite lookup_delete_eq.
Qed.

(** What a poller promises.  [interest]: what the operating system watches,
    the channel and its events under each descriptor; [fits h p]: the
    poller's tables agree with the channels of [h]. *)
Class PollerSpec (P : Type) `{Poller P} : Type := {
  fits : gmap Z Channel -> P -> Prop;
  interest : P -> gmap Z (Z * Z);
  fits_registered : forall h p fd c, fits h p -> channels_ p !! fd = Some c ->
    exists ch, h !! c = Some ch /\ fd_ ch = fd;
  fits_interest : forall h p fd c ev, fits h p -> interest p !! fd = Some (c, ev) ->
    channels_ p !! fd = Some c;
  (** Writing a channel's events, callbacks or flags does not disturb it. *)
  fits_write : forall h p c ch f, fits h p -> h !! c = Some ch ->
    fd_ (f ch) = fd_ ch -> index_ (f ch) = index_ ch -> fits (<[c := f ch]> h) p;
  (** Nor does making a new channel. *)
  fits_new : forall h p c ch, fits h p -> h !! c = None -> fits (<[c := ch]> h) p;
  (** A registered channel, or a new one with a free descriptor, is watched
      for its events, see [interest_after]. *)
  update_spec : forall c ch w, fits (chans w) (poller w) -> chans w !! c = Some ch ->
    0 <= fd_ ch < INT_MAX -> 0 <= events_ ch < 2 ^ 15 ->
    (channels_ (poller w) !! fd_ ch = Some c \/
     channels_ (poller w) !! fd_ ch = None /\ index_ ch = -1 /\ events_ ch <> 0) ->
    wpe (eq Aborted) (updateChannel c) (fun _ w' =>
      fits (chans w') (poller w') /\ same_but_index (chans w) (chans w') /\
      untouched (channels_ (poller w')) (chans w) (chans w') /\
      channels_ (poller w') = <[fd_ ch := c]> (channels_ (poller w)) /\
      interest_after (fd_ ch) c (events_ ch) (interest (poller w)) (interest (poller w'))) w;
  (** A registered channel with no events is forgotten. *)
  remove_spec : forall c ch w, fits (chans w) (poller w) -> chans w !! c = Some ch ->
    channels_ (poller w) !! fd_ ch = Some c -> events_ ch = 0 ->
    wpe (eq Aborted) (removeChannel c) (fun _ w' =>
      fits (chans w') (poller w') /\ same_but_index (chans w) (chans w') /\
      untouched (channels_ (poller w)) (chans w) (chans w') /\
      channels_ (poller w') = delete (fd_ ch) (channels_ (poller w)) /\
      interest (poller w') = delete (fd_ ch) (interest (poller w))) w;
  (** The active channels are registered ones that are being watched. *)
  poll_spec : forall timeoutMs w, fits (chans w) (poller w) ->
    wp (poll timeoutMs) (fun r w' =>
      fits (chans w') (poller w') /\ same_channels (chans w) (chans w') /\
      untouched (channels_ (poller w)) (chans w) (chans w') /\
      channels_ (poller w') = channels_ (poller w) /\
      interest (poller w') = interest (poller w) /\
      (forall c, c ∈ snd r -> exists fd ev, interest (poller w) !! fd = Some (c, ev))) w }.

(** ** Dispatch of the returned events *)

(** The callbacks the returned events call for, in order. *)
Definition dispatched (ch : Channel) : list (option Z) :=
  (if has (revents_ ch) EPOLLHUP && negb (has (revents_ ch) EPOLLIN) then [closeCallback_ ch] else []) ++
  (if has (revents_ ch) EPOLLERR then [errorCallback_ ch] else []) ++
  (if has (revents_ ch) EPOLLIN || has (revents_ ch) EPOLLPRI || has (revents_ ch) EPOLLRDHUP
   then [readCallback_ ch] else []) ++
  (if has (revents_ ch) EPOLLOUT then [writeCallback_ ch] else []).

Lemma has_lor flags f g : has flags (Z.lor f g) = has flags f || has flags g.
Proof.
  unfold has. rewrite Z.land_lor_distr_r.
  destruct (Z.eqb_spec (Z.lor (Z.land flags f) (Z.land flags g)) 0) as [E|E].
  - apply Z.lor_eq_0_iff in E as [-> ->]. done.
  - destruct (Z.eqb_spec (Z.land flags f) 0) as [F|F], (Z.eqb_spec (Z.land flags g) 0) as [G|G]; try done.
    rewrite F, G in E. done.
Qed.

Section dispatch.
Context {S : Type} (get_channel : Z -> M S Channel) (put_channel : Z -> (Channel -> Channel) -> M S unit)
  (run : Z -> Z -> M S unit).
(** [at_ ch s]: the channel [c] has the value [ch] in [s]. *)
Context (c : Z) (at_ : Channel -> S -> Prop).
Hypothesis get_at : forall ch s, at_ ch s -> get_channel c s = Ok (ch, s).
Hypothesis put_at : forall ch s f, at_ ch s -> exists s', put_channel c f s = Ok (tt, s') /\ at_ (f ch) s'.
Hypothesis run_keeps : forall cb t ch s s', at_ ch s -> run cb t s = Ok (tt, s') ->
  exists ch', at_ ch' s' /\ same_dispatch ch ch'.

Lemma call_keeps cb t ch s s' : at_ ch s -> call run cb t s = Ok (tt, s') ->
  exists ch', at_ ch' s' /\ same_dispatch ch ch'.
Proof.
  destruct cb as [f|]; cbn; [apply run_keeps|]. intros Hs [= <-]. by exists ch.
Qed.

(** One of the four tests of [handleEvent] and what follows it. *)
Lemma dispatch_one (test : Channel -> bool) (cb : Channel -> option Z) t ch s (k k' : M S unit) :
  at_ ch s -> (forall a b, same_dispatch a b -> test a = test b /\ cb a = cb b) ->
  (forall ch' s', at_ ch' s' -> same_dispatch ch ch' -> k s' = k' s') ->
  (let* x := get_channel c in when (test x) (call run (cb x) t) ;;; k) s =
  (for_each (fun cb => call run cb t) (if test ch then [cb ch] else []) ;;; k') s.
Proof.
  intros Hs Hsame Hk. rewrite (bind_ok _ _ _ _ _ (get_at _ _ Hs)).
  destruct (test ch); cbn [when for_each].
  - unfold bind. destruct (call run (cb ch) t s) as [[[] s']|e] eqn:Hc; [|done]. cbn.
    destruct (call_keeps _ _ _ _ _ Hs Hc) as (ch' & Hs' & Hd). by apply (Hk ch').
  - unfold bind. cbn. by apply (Hk ch).
Qed.

Lemma for_each_app {A} (f : A -> M S unit) l k s :
  for_each f (l ++ k) s = (for_each f l ;;; for_each f k) s.
Proof.
  revert s. induction l as [|a l IH]; intros s; cbn; [done|]. unfold bind in *.
  destruct (f a s) as [[? s']|]; [|done]. apply IH.
Qed.

(** C21: [handleEvent] marks the channel as being handled and calls, in
    order, the close callback for a hang-up with nothing to read, the
    error callback for an error, the read callback for data, urgent data or
    the peer's half close, the write callback for a writable descriptor,
    and no other, as long as the callbacks leave the channel's returned
    events and callbacks alone. *)
Theorem handleEvent_dispatch ch t s : at_ ch s ->
  handleEvent get_channel put_channel run c t s =
  (put_channel c (set_handling true) ;;; for_each (fun cb => call run cb t) (dispatched ch)) s.
Proof.
  intros Hs. unfold handleEvent. destruct (put_at ch s (set_handling true) Hs) as (s0 & Hput & Hs0).
  rewrite !(bind_ok _ _ _ _ _ Hput).
  assert (dispatched ch = dispatched (set_handling true ch)) as -> by (by destruct ch).
  revert Hs0. generalize (set_handling true ch). clear ch Hs Hput. intros ch Hs. unfold dispatched.
  rewrite for_each_app. apply (dispatch_one (fun x => has (revents_ x) EPOLLHUP && negb (has (revents_ x) EPOLLIN)) closeCallback_); [done| |].
  { intros a b (-> & _ & _ & -> & _). done. }
  intros ch1 s1 Hs1 (E1 & E2 & E3 & E4 & E5).
  rewrite for_each_app. rewrite E1, E2, E3, E5.
  apply (dispatch_one (fun x => has (revents_ x) EPOLLERR) errorCallback_); [done| |].
  { intros a b (-> & _ & _ & _ & ->). done. }
  clear -get_at run_keeps. intros ch2 s2 Hs2 (E1 & E2 & E3 & E4 & E5).
  rewrite for_each_app. rewrite E1, E2, E3. rewrite <- !has_lor.
  apply (dispatch_one (fun x => has (revents_ x) (Z.lor (Z.lor EPOLLIN EPOLLPRI) EPOLLRDHUP)) readCallback_); [done| |].
  { intros a b (-> & -> & _). done. }
  clear -get_at run_keeps. intros ch3 s3 Hs3 (E1 & E2 & E3 & E4 & E5). rewrite E1, E3.
  rewrite (bind_ok _ _ _ _ _ (get_at _ _ Hs3)). destruct (has (revents_ ch3) EPOLLOUT); cbn; [|done].
  unfold bind. by destruct (call run (writeCallback_ ch3) t s3) as [[[] ?]|].
Qed.
End dispatch.

(** Callbacks that log their numbers: data and a writable descriptor. *)
Lemma handleEvent_dispatch_witness :
  let ch := setReadCallback (Some 7) (setWriteCallback (Some 8) (setCloseCallback (Some 9)
              (set_revents (EPOLLIN + EPOLLOUT + EPOLLHUP) (Channel_new 1 5)))) in
  handleEvent (fun _ => gets fst) (fun _ f => modify (fun s => (f (fst s), snd s)))
    (fun cb _ => modify (fun s : Channel * list Z => (fst s, snd s ++ [cb]))) 3 0 (ch, []) =
  Ok (tt, (set_handling true ch, [7; 8])).
Proof.
  intros ch. rewrite (handleEvent_dispatch _ _ _ 3 (fun ch s => fst s = ch)) with (ch := ch).
  - reflexivity.
  - intros ? [] <-. reflexivity.
  - intros ? [] f <-. eexists. split; reflexivity.
  - intros cb t ch' [] s' <- [= <-]. eexists. repeat split.
  - reflexivity.
Defined.
