(* ===== verification/EPollPoller.v ===== *)
(** * The epoll(7) poller (EPollPoller.h, EPollPoller.c++)

    The kernel's epoll instance is a parameter: the three calls the source
    makes and the documented behaviour [EpollLaws] they rely on. *)
From S2P Require Import Prelude Channel.

Module EPollPoller.

Definition kNew : Z := -1.
Definition kAdded : Z := 1.
Definition kDeleted : Z := 2.
Definition kInitEventListSize : nat := 64.

Definition EPOLL_CTL_ADD : Z := 1.
Definition EPOLL_CTL_DEL : Z := 2.
Definition EPOLL_CTL_MOD : Z := 3.

(** [struct epoll_event]: the events and [data.ptr]. *)
Record epoll_event : Type := mkEvent { ev_events : Z; ev_ptr : Z }.

(** The system calls on an epoll instance with its clock.  [epoll_wait k n t]
    returns the events it stores (at most [n]), or an error number. *)
Class EpollSys (K : Type) : Type := {
  epoll_ctl : K -> Z -> Z -> epoll_event -> K * Z;
  epoll_wait : K -> Z -> Z -> K * (Z + list epoll_event);
  time_now : K -> K * Z;
  epoll_set : K -> gmap Z epoll_event }.

(** Linux refuses a larger [maxevents] ([EP_MAX_EVENTS], fs/eventpoll.c). *)
Definition EP_MAX_EVENTS : Z := 178956970.

(** epoll_ctl(2), epoll_wait(2): adding may fail (no memory, a descriptor
    that does not support epoll); changing or deleting what was added does
    not. *)
Class EpollLaws (K : Type) `{EpollSys K} : Prop := {
  ctl_add : forall k fd e, epoll_set k !! fd = None ->
    let '(k', r) := epoll_ctl k EPOLL_CTL_ADD fd e in
    0 <= r /\ epoll_set k' = <[fd := e]> (epoll_set k) \/ r < 0 /\ epoll_set k' = epoll_set k;
  ctl_mod : forall k fd e, is_Some (epoll_set k !! fd) ->
    let '(k', r) := epoll_ctl k EPOLL_CTL_MOD fd e in
    0 <= r /\ epoll_set k' = <[fd := e]> (epoll_set k);
  ctl_del : forall k fd e, is_Some (epoll_set k !! fd) ->
    let '(k', r) := epoll_ctl k EPOLL_CTL_DEL fd e in
    0 <= r /\ epoll_set k' = delete fd (epoll_set k);
  wait_events : forall k n t,
    let '(k', r) := epoll_wait k n t in
    epoll_set k' = epoll_set k /\
    match r with
    | inl _ => True
    | inr l => n <= EP_MAX_EVENTS /\ Zlen l <= n /\ forall e, e ∈ l -> 0 <= ev_events e < 2 ^ 31 /\
        exists fd e', epoll_set k !! fd = Some e' /\ ev_ptr e' = ev_ptr e
    end;
  now_set : forall k, epoll_set (fst (time_now k)) = epoll_set k }.

Record t (K : Type) : Type := mk {
  channels : gmap Z Z;
  events_ : list epoll_event;
  kernel : K }.
Arguments mk {K}.
Arguments channels {K}.
Arguments events_ {K}.
Arguments kernel {K}.

Section operations.
Context {K : Type} `{EpollSys K}.
Notation W := (World (t K)).

(** The constructor, over a fresh epoll instance. *)
Definition init (k : K) : t K := mk ∅ (replicate kInitEventListSize (mkEvent 0 0)) k.

Definition set_channels (m : gmap Z Z) : M W unit :=
  modify (fun w => set_poller (mk m (events_ (poller w)) (kernel (poller w))) w).
Definition set_kernel (k : K) : M W unit :=
  modify (fun w => set_poller (mk (channels (poller w)) (events_ (poller w)) k) w).
Definition set_event_list (l : list epoll_event) : M W unit :=
  modify (fun w => set_poller (mk (channels (poller w)) l (kernel (poller w))) w).

Fixpoint fillActiveChannels (numEvents : list epoll_event) (activeChannels : list Z) : M W (list Z) :=
  match numEvents with
  | [] => ret activeChannels
  | e :: l =>
      write_channel (ev_ptr e) (set_revents (s32 (ev_events e))) ;;;
      fillActiveChannels l (activeChannels ++ [ev_ptr e])
  end.

Definition poll (timeoutMs : Z) : M W (Z * list Z) :=
  let* w := get in
  let size := Zlen (events_ (poller w)) in
  let '(k, r) := epoll_wait (kernel (poller w)) (s32 size) timeoutMs in
  let '(k, now) := time_now k in
  set_kernel k ;;;
  match r with
  | inr l =>
      (* the kernel stores [l] at the front of [events_] *)
      set_event_list (l ++ drop (length l) (events_ (poller w))) ;;;
      let* w := get in
      let* activeChannels := fillActiveChannels (take (length l) (events_ (poller w))) [] in
      when ((0 <? Zlen l) && (Zlen l =? size))
        (set_event_list (events_ (poller w) ++ replicate (length (events_ (poller w))) (mkEvent 0 0))) ;;;
      ret (now, activeChannels)
  | inl _ => ret (now, [])
  end.

(** A failed [epoll_ctl] is fatal for every operation. *)
Definition update (operation : Z) (c : Z) : M W unit :=
  let* ch := channel c in
  let event := mkEvent (u32 (Channel.events_ ch)) c in
  let* w := get in
  let '(k, r) := epoll_ctl (kernel (poller w)) operation (fd_ ch) event in
  set_kernel k ;;;
  when (r <? 0) (throw Aborted).

Definition found (fd : Z) : M W unit :=
  let* w := get in
  assert_ (match channels (poller w) !! fd with Some _ => true | None => false end).
(** [assert(channels_[fd] == channel)] *)
Definition maps_to (fd c : Z) : M W unit :=
  let* w := get in
  assert_ (match channels (poller w) !! fd with Some c' => c' =? c | None => false end).

Definition updateChannel (c : Z) : M W unit :=
  let* ch := channel c in
  let index := index_ ch in
  if (index =? kNew) || (index =? kDeleted) then
    (if index =? kNew then
       let* w := get in
       assert_ (match channels (poller w) !! fd_ ch with Some _ => false | None => true end) ;;;
       set_channels (<[fd_ ch := c]> (channels (poller w)))
     else
       found (fd_ ch) ;;; maps_to (fd_ ch) c) ;;;
    write_channel c (set_index kAdded) ;;;
    update EPOLL_CTL_ADD c
  else
    found (fd_ ch) ;;;
    maps_to (fd_ ch) c ;;;
    assert_ (index =? kAdded) ;;;
    if isNoneEvent ch then
      update EPOLL_CTL_DEL c ;;;
      write_channel c (set_index kDeleted)
    else update EPOLL_CTL_MOD c.

Definition removeChannel (c : Z) : M W unit :=
  let* ch := channel c in
  found (fd_ ch) ;;;
  maps_to (fd_ ch) c ;;;
  assert_ (isNoneEvent ch) ;;;
  let index := index_ ch in
  assert_ ((index =? kAdded) || (index =? kDeleted)) ;;;
  let* w := get in
  let n := match channels (poller w) !! fd_ ch with Some _ => 1 | None => 0 end in
  set_channels (delete (fd_ ch) (channels (poller w))) ;;;
  assert_ (n =? 1) ;;;
  when (index =? kAdded) (update EPOLL_CTL_DEL c) ;;;
  write_channel c (set_index kNew).
End operations.

#[global] Instance epoll_poller {K} `{EpollSys K} : Poller (t K) := {
  channels_ := channels;
  Channel.poll := poll;
  Channel.updateChannel := updateChannel;
  Channel.removeChannel := removeChannel }.

(** ** The contract *)

(** [index_] says whether the kernel watches the channel. *)
Record tables {K} `{EpollSys K} (h : gmap Z Channel) (p : t K) : Prop := {
  t_channels : forall fd c, channels p !! fd = Some c -> exists ch, h !! c = Some ch /\ fd_ ch = fd /\
    match epoll_set (kernel p) !! fd with
    | Some e => index_ ch = kAdded /\ ev_ptr e = c
    | None => index_ ch = kDeleted
    end;
  t_kernel : forall fd e, epoll_set (kernel p) !! fd = Some e -> channels p !! fd = Some (ev_ptr e);
  t_events : 0 < Zlen (events_ p) <= 2 ^ 29 }.

Lemma s32_u32_small z : 0 <= z < 2 ^ 31 -> s32 z = z.
Proof. intros. apply s32_small. lia. Qed.

Section contract.
Context {K : Type} `{EpollLaws K}.
Notation W := (World (t K)).

(** The contract holds with the interest the kernel has. *)
Definition interest (p : t K) : gmap Z (Z * Z) :=
  (fun e => (ev_ptr e, ev_events e)) <$> epoll_set (kernel p).

(** Where a channel stands: known and watched, known and not watched, not
    known. *)
Lemma tables_cases h p c ch : tables h p -> h !! c = Some ch -> channels p !! fd_ ch = Some c ->
  (index_ ch = kAdded /\ exists e, epoll_set (kernel p) !! fd_ ch = Some e /\ ev_ptr e = c) \/
  (index_ ch = kDeleted /\ epoll_set (kernel p) !! fd_ ch = None).
Proof.
  intros [T1 T2 T3] Hc Hr. destruct (T1 _ _ Hr) as (ch' & Hc' & _ & Hi). rewrite Hc in Hc'.
  injection Hc' as <-. destruct (epoll_set (kernel p) !! fd_ ch) as [e|]; [left|by right].
  destruct Hi. split; [done|]. by exists e.
Qed.

(** The tables after channel [c] becomes watched, ignored or forgotten. *)
Lemma tables_watch h p c ch k e : tables h p -> h !! c = Some ch ->
  (forall d, channels p !! fd_ ch = Some d -> d = c) ->
  epoll_set k = <[fd_ ch := e]> (epoll_set (kernel p)) -> ev_ptr e = c ->
  tables (<[c := set_index kAdded ch]> h) (mk (<[fd_ ch := c]> (channels p)) (events_ p) k).
Proof.
  intros [T1 T2 T3] Hc Huniq Hk He. constructor; cbn; [| |done].
  - intros fd d. rewrite Hk, !lookup_insert. case_decide as Ef; [subst fd|].
    + intros [= <-]. rewrite decide_True by done. eexists. by split; [done|].
    + intros Hd. destruct (T1 _ _ Hd) as (ch' & Hd' & Hfd & Hi). case_decide as Ec.
      * subst d. rewrite Hc in Hd'. injection Hd' as <-. done.
      * exists ch'. done.
  - intros fd e'. rewrite Hk, !lookup_insert. case_decide; [|auto]. intros [= <-]. congruence.
Qed.

Lemma tables_ignore h p c ch k : tables h p -> h !! c = Some ch -> channels p !! fd_ ch = Some c ->
  epoll_set k = delete (fd_ ch) (epoll_set (kernel p)) ->
  tables (<[c := set_index kDeleted ch]> h) (mk (channels p) (events_ p) k).
Proof.
  intros [T1 T2 T3] Hc Hr Hk. constructor; cbn; [| |done].
  - intros fd d Hd. destruct (T1 _ _ Hd) as (ch' & Hd' & Hfd & Hi).
    rewrite Hk, lookup_insert, lookup_delete. destruct (decide (c = d)) as [->|Hne].
    + rewrite Hc in Hd'. injection Hd' as <-. eexists. split; [done|]. split; [done|].
      by rewrite decide_True by done.
    + exists ch'. split; [done|]. split; [done|]. rewrite decide_False; [done|]. congruence.
  - intros fd e'. rewrite Hk, lookup_delete. case_decide; [done|]. auto.
Qed.

Lemma tables_forget h p c ch k : tables h p -> h !! c = Some ch -> channels p !! fd_ ch = Some c ->
  epoll_set k = delete (fd_ ch) (epoll_set (kernel p)) ->
  tables (<[c := set_index kNew ch]> h) (mk (delete (fd_ ch) (channels p)) (events_ p) k).
Proof.
  intros [T1 T2 T3] Hc Hr Hk. constructor; cbn; [| |done].
  - intros fd d. rewrite lookup_delete. case_decide as Ef; [done|]. intros Hd.
    destruct (T1 _ _ Hd) as (ch' & Hd' & Hfd & Hi). rewrite Hk, lookup_delete, decide_False by done.
    exists ch'. rewrite lookup_insert_ne; [done|]. intros ->. rewrite Hc in Hd'. congruence.
  - intros fd e'. rewrite Hk, !lookup_delete. case_decide; [done|]. auto.
Qed.

Lemma epoll_tables_write h p c ch f : tables h p -> h !! c = Some ch ->
  fd_ (f ch) = fd_ ch -> index_ (f ch) = index_ ch -> tables (<[c := f ch]> h) p.
Proof.
  intros [T1 T2 T3] Hc Ef Ei. constructor; [|done|done]. intros fd d Hd.
  destruct (T1 _ _ Hd) as (ch' & Hd' & Hfd & Hi). rewrite lookup_insert. case_decide as E.
  - subst d. rewrite Hc in Hd'. injection Hd' as <-. exists (f ch). by rewrite Ef, Ei.
  - by exists ch'.
Qed.

Lemma epoll_tables_new h p c ch : tables h p -> h !! c = None -> tables (<[c := ch]> h) p.
Proof.
  intros [T1 T2 T3] Hc. constructor; [|done|done]. intros fd d Hd.
  destruct (T1 _ _ Hd) as (dh & Hdh & ?). exists dh. rewrite lookup_insert_ne; [done|congruence].
Qed.

(** The three uses of [update]. *)
Definition with_kernel (k : K) (w : W) : W :=
  set_poller (mk (channels (poller w)) (events_ (poller w)) k) w.

Lemma wpe_update_add c ch (Q : unit -> W -> Prop) w :
  chans w !! c = Some ch -> epoll_set (kernel (poller w)) !! fd_ ch = None ->
  (forall k, epoll_set k = <[fd_ ch := mkEvent (u32 (Channel.events_ ch)) c]> (epoll_set (kernel (poller w))) ->
     Q tt (with_kernel k w)) ->
  wpe (eq Aborted) (update EPOLL_CTL_ADD c) Q w.
Proof.
  intros Hc Hn HQ. unfold update. wp_steps. eapply wpe_channel; [exact Hc|]. wp_steps.
  pose proof (ctl_add (kernel (poller w)) (fd_ ch) (mkEvent (u32 (Channel.events_ ch)) c) Hn) as G.
  destruct (epoll_ctl _ _ _ _) as [k r]. wp_steps. apply wpe_when; intros Hr; to_prop.
  - by apply wpe_throw.
  - destruct G as [[_ G]|[? _]]; [|lia]. by apply HQ.
Qed.

Lemma wpe_update_mod E c ch (Q : unit -> W -> Prop) w :
  chans w !! c = Some ch -> is_Some (epoll_set (kernel (poller w)) !! fd_ ch) ->
  (forall k, epoll_set k = <[fd_ ch := mkEvent (u32 (Channel.events_ ch)) c]> (epoll_set (kernel (poller w))) ->
     Q tt (with_kernel k w)) ->
  wpe E (update EPOLL_CTL_MOD c) Q w.
Proof.
  intros Hc Hn HQ. unfold update. wp_steps. eapply wpe_channel; [exact Hc|]. wp_steps.
  pose proof (ctl_mod (kernel (poller w)) (fd_ ch) (mkEvent (u32 (Channel.events_ ch)) c) Hn) as G.
  destruct (epoll_ctl _ _ _ _) as [k r]. destruct G as [Hr G]. wp_steps.
  apply wpe_when; intros Hr'; to_prop; [lia|]. by apply HQ.
Qed.

Lemma wpe_update_del E c ch (Q : unit -> W -> Prop) w :
  chans w !! c = Some ch -> is_Some (epoll_set (kernel (poller w)) !! fd_ ch) ->
  (forall k, epoll_set k = delete (fd_ ch) (epoll_set (kernel (poller w))) -> Q tt (with_kernel k w)) ->
  wpe E (update EPOLL_CTL_DEL c) Q w.
Proof.
  intros Hc Hn HQ. unfold update. wp_steps. eapply wpe_channel; [exact Hc|]. wp_steps.
  pose proof (ctl_del (kernel (poller w)) (fd_ ch) (mkEvent (u32 (Channel.events_ ch)) c) Hn) as G.
  destruct (epoll_ctl _ _ _ _) as [k r]. destruct G as [Hr G]. wp_steps.
  apply wpe_when; intros Hr'; to_prop; [lia|]. by apply HQ.
Qed.

Lemma wpe_found E fd c (Q : unit -> W -> Prop) w :
  channels (poller w) !! fd = Some c -> Q tt w -> wpe E (found fd) Q w.
Proof. intros Hc HQ. unfold found. wp_steps. rewrite Hc. by apply wpe_assert. Qed.

Lemma wpe_maps_to E fd c (Q : unit -> W -> Prop) w :
  channels (poller w) !! fd = Some c -> Q tt w -> wpe E (maps_to fd c) Q w.
Proof. intros Hc HQ. unfold maps_to. wp_steps. rewrite Hc, Z.eqb_refl. by apply wpe_assert. Qed.

Lemma events_u32 z : 0 <= z < 2 ^ 15 -> u32 z = z.
Proof. intros. unfold u32. apply Z.mod_small. lia. Qed.

Lemma epoll_update c ch w : tables (chans w) (poller w) -> chans w !! c = Some ch ->
  0 <= Channel.events_ ch < 2 ^ 15 ->
  (channels (poller w) !! fd_ ch = Some c \/
   channels (poller w) !! fd_ ch = None /\ index_ ch = -1 /\ Channel.events_ ch <> 0) ->
  wpe (eq Aborted) (updateChannel c) (fun _ w' =>
    tables (chans w') (poller w') /\ same_but_index (chans w) (chans w') /\
    untouched (channels (poller w')) (chans w) (chans w') /\
    channels (poller w') = <[fd_ ch := c]> (channels (poller w)) /\
    interest_after (fd_ ch) c (Channel.events_ ch) (interest (poller w)) (interest (poller w'))) w.
Proof.
  intros HT Hc Hev Hcase. unfold updateChannel, interest, interest_after in *.
  fold (isNoneEvent ch).
  wp_steps. eapply wpe_channel; [exact Hc|].
  assert (forall i, same_but_index (chans w) (<[c := set_index i ch]> (chans w))) as Hsame.
  { intros i. by eapply same_but_index_insert. }
  destruct Hcase as [Hr|(Hr & Hi & Hne)].
  - destruct (tables_cases _ _ _ _ HT Hc Hr) as [(Hi & e & He & Hp)|[Hi He]]; rewrite Hi; cbn [kAdded kDeleted kNew Z.eqb orb Pos.eqb].
    + (* watched *)
      wp_steps. eapply wpe_found; [done|]. wp_step. apply wpe_maps_to; [done|]. wp_step.
      apply wpe_assert; [done|]. intros _. cbn beta iota. destruct (isNoneEvent ch) eqn:En.
      * wp_step. eapply wpe_update_del; [exact Hc|by rewrite He|]. intros k Hk.
        eapply wpe_write; [exact Hc|]. cbn. split; [by apply tables_ignore|].
        split; [done|]. split; [by eapply untouched_insert|]. split; [by rewrite insert_id|]. rewrite Hk, fmap_delete. apply interest_after_delete.
      * eapply wpe_update_mod; [exact Hc|by rewrite He|]. intros k Hk. cbn.
        assert (<[c := set_index kAdded ch]> (chans w) = chans w) as Eh.
        { apply insert_id. rewrite Hc. f_equal. unfold set_index. rewrite <- Hi. by destruct ch. }
        rewrite <- Eh at 1. rewrite <- (insert_id (channels (poller w)) _ _ Hr) at 1.
        split; [eapply tables_watch; eauto; intros d Hd; congruence|]. split; [reflexivity|].
        split; [apply untouched_refl|]. split; [by rewrite insert_id|]. by rewrite Hk, fmap_insert, events_u32.
    + (* ignored *)
      wp_steps. eapply wpe_found; [done|]. apply wpe_maps_to; [done|]. wp_step. eapply wpe_write; [exact Hc|].
      eapply wpe_update_add; [apply lookup_insert_eq|done|]. intros k Hk. cbn in *.
      rewrite <- (insert_id (channels (poller w)) _ _ Hr) at 1.
      split; [eapply tables_watch; eauto; intros d Hd; congruence|]. split; [done|].
      split; [by eapply untouched_insert|]. split; [by rewrite insert_id|]. rewrite Hk, fmap_insert, events_u32 by done. cbn.
      unfold isNoneEvent. destruct (Z.eqb_spec (Channel.events_ ch) kNoneEvent) as [E0|E0]; [|done].
      split; [intros fd' Hne; by rewrite lookup_insert_ne|]. intros v. rewrite lookup_insert_eq, E0.
      intros [= <-]. by rewrite lookup_fmap, He.
  - rewrite Hi. cbn [kNew Z.eqb Pos.eqb orb]. wp_steps. rewrite Hr. apply wpe_assert; [done|].
    intros _. unfold set_channels. wp_steps. eapply wpe_write; [exact Hc|].
    assert (epoll_set (kernel (poller w)) !! fd_ ch = None) as Hn.
    { destruct (epoll_set _ !! _) eqn:E; [|done]. apply (t_kernel _ _ HT) in E. congruence. }
    eapply wpe_update_add; [apply lookup_insert_eq|done|]. intros k Hk. cbn in *.
    split; [eapply tables_watch; eauto; intros d Hd; congruence|]. split; [done|].
    split; [eapply untouched_insert; [done|apply lookup_insert_eq]|]. split; [done|]. rewrite Hk, fmap_insert, events_u32 by done.
    by rewrite isNoneEvent_false.
Qed.

Lemma epoll_remove c ch w : tables (chans w) (poller w) -> chans w !! c = Some ch ->
  channels (poller w) !! fd_ ch = Some c -> Channel.events_ ch = 0 ->
  wpe (eq Aborted) (removeChannel c) (fun _ w' =>
    tables (chans w') (poller w') /\ same_but_index (chans w) (chans w') /\
    untouched (channels (poller w)) (chans w) (chans w') /\
    channels (poller w') = delete (fd_ ch) (channels (poller w)) /\
    interest (poller w') = delete (fd_ ch) (interest (poller w))) w.
Proof.
  intros HT Hc Hr Hev. unfold removeChannel, set_channels, interest.
  wp_steps. eapply wpe_channel; [exact Hc|]. wp_step.
  eapply wpe_found; [done|]. wp_step. apply wpe_maps_to; [done|]. wp_step. rewrite isNoneEvent_true by done.
  apply wpe_assert; [done|]. intros _. wp_step.
  assert (same_but_index (chans w) (<[c := set_index kNew ch]> (chans w))) as Hsame
    by (by eapply same_but_index_insert).
  destruct (tables_cases _ _ _ _ HT Hc Hr) as [(Hi & e & He & Hp)|[Hi He]]; rewrite Hi;
    cbn [kAdded kDeleted kNew Z.eqb orb Pos.eqb]; (apply wpe_assert; [done|]); intros _; wp_steps;
    rewrite Hr; (apply wpe_assert; [done|]); intros _; wp_steps.
  - cbn [when]. eapply wpe_update_del; [exact Hc|cbn; by rewrite He|]. intros k Hk. cbn in Hk.
    eapply wpe_write; [exact Hc|]. cbn. split; [by apply tables_forget|]. split; [done|].
    split; [by eapply untouched_insert|].
    split; [done|]. by rewrite Hk, fmap_delete.
  - cbn [when]. wp_steps. eapply wpe_write; [exact Hc|]. cbn.
    assert (delete (fd_ ch) (epoll_set (kernel (poller w))) = epoll_set (kernel (poller w))) as Ed
      by (by apply delete_id).
    split; [by apply tables_forget|]. split; [done|].
    split; [by eapply untouched_insert|]. split; [done|]. by rewrite <- fmap_delete, Ed.
Qed.

(** [fillActiveChannels] sets the events of the reported channels. *)
Lemma wp_fill_epoll l acc (p : t K) h : tables h p ->
  (forall e, e ∈ l -> exists fd e', epoll_set (kernel p) !! fd = Some e' /\ ev_ptr e' = ev_ptr e) ->
  wp (fillActiveChannels l acc) (fun r w' => r = acc ++ (ev_ptr <$> l) /\
    poller w' = p /\ tables (chans w') p /\ same_channels h (chans w') /\
    untouched (channels p) h (chans w')) (mkWorld h p).
Proof.
  revert acc h. induction l as [|e l IH]; intros acc h HT Hl; cbn [fillActiveChannels].
  - wp_steps. cbn. rewrite app_nil_r. split; [done|]. split; [done|]. split; [done|].
    split; [reflexivity|apply untouched_refl].
  - destruct (Hl e ltac:(by left)) as (fd & e' & He & Hp).
    assert (channels p !! fd = Some (ev_ptr e)) as Hr by (rewrite <- Hp; by apply (t_kernel _ _ HT)).
    destruct (t_channels _ _ HT fd (ev_ptr e) Hr) as (ch & Hc & Hfd & _).
    wp_steps. eapply wpe_write; [exact Hc|]. cbn. eapply wpe_mono.
    + apply IH; [by eapply epoll_tables_write|]. intros e2 He2. apply Hl. by right.
    + cbn. intros r w' (-> & ? & ? & ? & Hu). rewrite <- app_assoc. split; [done|]. split; [done|].
      split; [done|]. split.
      * transitivity (<[ev_ptr e := set_revents (s32 (ev_events e)) ch]> h); [|done].
        by eapply same_channels_insert.
      * eapply untouched_trans; [|exact Hu]. eapply untouched_insert; [done|by rewrite Hfd].
Qed.

Lemma tables_events h p l k : tables h p -> epoll_set k = epoll_set (kernel p) ->
  0 < Zlen l <= 2 ^ 29 ->
  tables h (mk (channels p) l k).
Proof. intros [T1 T2 T3] Hk Hl. constructor; cbn; rewrite ?Hk; done. Qed.

Lemma epoll_poll timeoutMs w : tables (chans w) (poller w) ->
  wp (poll timeoutMs) (fun r w' =>
    tables (chans w') (poller w') /\ same_channels (chans w) (chans w') /\
    untouched (channels (poller w)) (chans w) (chans w') /\
    channels (poller w') = channels (poller w) /\ interest (poller w') = interest (poller w) /\
    (forall c, c ∈ snd r -> exists fd ev, interest (poller w) !! fd = Some (c, ev))) w.
Proof.
  intros HT. unfold poll, set_kernel, set_event_list. wp_steps. pose proof (t_events _ _ HT) as Hsize.
  rewrite s32_small by lia.
  pose proof (wait_events (kernel (poller w)) (Zlen (events_ (poller w))) timeoutMs) as Hw.
  destruct (epoll_wait _ _ _) as [k1 r]. destruct Hw as [Hk1 Hr].
  pose proof (now_set k1) as Hk2. destruct (time_now k1) as [k2 now]. cbn in Hk2. rewrite Hk1 in Hk2.
  unfold interest. wp_steps. destruct r as [err|l].
  - wp_steps. cbn. rewrite Hk2. split; [apply tables_events; [done|done|apply HT]|].
    split; [reflexivity|]. split; [apply untouched_refl|]. split; [done|]. split; [done|]. by intros c ?%not_elem_of_nil.
  - destruct Hr as (Hmax & Hll & Hl). wp_steps. cbn.
    set (p := mk _ (l ++ _) _).
    assert (Zlen (l ++ drop (length l) (events_ (poller w))) = Zlen (events_ (poller w))) as Hne.
    { rewrite Zlen_app. unfold Zlen in *. rewrite length_drop. lia. }
    rewrite take_app_length. eapply wpe_mono.
    + apply (wp_fill_epoll l [] p (chans w)); [apply tables_events; [done|done|by rewrite Hne]|].
      intros e He. cbn. rewrite Hk2. by apply Hl.
    + cbn. intros r [h' p'] (-> & Ep & HT' & Hs & Hu). cbn in Ep, HT', Hs, Hu. subst p'.
      assert (forall c, c ∈ ev_ptr <$> l -> exists fd ev,
        ((fun e => (ev_ptr e, ev_events e)) <$> epoll_set (kernel (poller w))) !! fd = Some (c, ev)) as Hact.
      { intros c (e & -> & He)%list_elem_of_fmap. destruct (Hl e He) as (_ & fd & e' & He' & Hp).
        exists fd, (ev_events e'). rewrite lookup_fmap, He'. cbn. by rewrite Hp. }
      wp_steps. apply wpe_when.
      * intros _. wp_steps. cbn. split; [|split; [done|split; [done|split; [done|split; [by rewrite Hk2|done]]]]].
        apply (tables_events h' p); [done|done|]. rewrite Zlen_app, Zlen_replicate.
        fold (Zlen (l ++ drop (length l) (events_ (poller w)))). rewrite Hne.
        unfold EP_MAX_EVENTS in Hmax. lia.
      * intros _. cbn. split; [done|split; [done|split; [done|split; [done|split; [by rewrite Hk2|done]]]]].
Qed.

#[global] Program Instance epoll_spec : PollerSpec (t K) := {
  fits := tables;
  Channel.interest := interest }.
Next Obligation.
  intros h p fd c HT Hc. destruct (t_channels _ _ HT _ _ Hc) as (ch & ? & ? & _). eauto.
Qed.
Next Obligation.
  intros h p fd c ev HT. unfold interest. rewrite lookup_fmap, fmap_Some.
  intros (e & He & [= -> ->]). by apply (t_kernel _ _ HT).
Qed.
Next Obligation. intros h p c ch f. apply epoll_tables_write. Qed.
Next Obligation. intros h p c ch. apply epoll_tables_new. Qed.
Next Obligation. intros c ch w HT Hc _ Hev Hcase. by apply epoll_update. Qed.
Next Obligation. intros c ch w HT Hc Hr Hev. by apply epoll_remove. Qed.
Next Obligation. intros timeoutMs w HT. by apply epoll_poll. Qed.
End contract.

End EPollPoller.
