(* ===== verification/PollPoller.v ===== *)
(** * The poll(2) poller (PollPoller.h, PollPoller.c++)

    [pollfds_] is the array handed to [::poll], [index_] the position of a
    channel in it.  An ignored channel has its descriptor [fd] stored as
    [-fd-1].  [operator[]] of a vector is undefined out of range. *)
From S2P Require Import Prelude Channel.

Module PollPoller.

(** [struct pollfd] *)
Record pollfd : Type := mkPollfd { p_fd : Z; p_events : Z; p_revents : Z }.

(** poll(2) returns the number of descriptors with events (-1 on error) and
    the array with the returned events; the clock. *)
Class PollSys (K : Type) : Type := {
  poll_call : K -> list pollfd -> Z -> K * Z * list pollfd;
  time_now : K -> K * Z }.

(** poll(2): only [revents] are written, and nothing is reported for a
    negative descriptor; the result counts the entries with events. *)
Class PollLaws (K : Type) `{PollSys K} : Prop := {
  poll_keeps : forall k l t, let '(_, n, l') := poll_call k l t in
    length l' = length l /\
    (n < 0 -> l' = l) /\
    (0 <= n -> n = Zlen (filter (fun p => p_revents p <> 0) l')) /\
    forall i p, l !! i = Some p -> exists r, l' !! i = Some (mkPollfd (p_fd p) (p_events p) r) /\
      0 <= r < 2 ^ 15 /\ (p_fd p < 0 -> r = 0) }.

Record t (K : Type) : Type := mk {
  channels : gmap Z Z;
  pollfds_ : list pollfd;
  kernel : K }.
Arguments mk {K}.
Arguments channels {K}.
Arguments pollfds_ {K}.
Arguments kernel {K}.

Section operations.
Context {K : Type} `{PollSys K}.
Notation W := (World (t K)).

Definition init (k : K) : t K := mk ∅ [] k.

Definition set_channels (m : gmap Z Z) : M W unit :=
  modify (fun w => set_poller (mk m (pollfds_ (poller w)) (kernel (poller w))) w).
Definition set_pollfds (l : list pollfd) : M W unit :=
  modify (fun w => set_poller (mk (channels (poller w)) l (kernel (poller w))) w).
Definition set_kernel (k : K) : M W unit :=
  modify (fun w => set_poller (mk (channels (poller w)) (pollfds_ (poller w)) k) w).

(** [pollfds_[idx]] *)
Definition slot (idx : Z) : M W pollfd :=
  let* w := get in
  lift match pollfds_ (poller w) !! Z.to_nat idx with
       | Some pfd => if 0 <=? idx then Ok pfd else Err Undefined
       | None => Err Undefined
       end.

Fixpoint fillActiveChannels (pfds : list pollfd) (numEvents : Z) (activeChannels : list Z) : M W (list Z) :=
  match pfds with
  | [] => ret activeChannels
  | pfd :: pfds =>
      if 0 <? numEvents then
        if 0 <? p_revents pfd then
          let* w := get in
          (* [ch->second] of the iterator [find] returns *)
          let* c := lift match channels (poller w) !! p_fd pfd with Some c => Ok c | None => Err Undefined end in
          write_channel c (set_revents (p_revents pfd)) ;;;
          fillActiveChannels pfds (numEvents - 1) (activeChannels ++ [c])
        else fillActiveChannels pfds numEvents activeChannels
      else ret activeChannels
  end.

Definition poll (timeoutMs : Z) : M W (Z * list Z) :=
  let* w := get in
  let '(k, numEvents, pfds) := poll_call (kernel (poller w)) (pollfds_ (poller w)) timeoutMs in
  let '(k, now) := time_now k in
  set_kernel k ;;;
  set_pollfds pfds ;;;
  if 0 <? numEvents then
    let* activeChannels := fillActiveChannels pfds numEvents [] in
    ret (now, activeChannels)
  else ret (now, []).

Definition updateChannel (c : Z) : M W unit :=
  let* ch := channel c in
  if index_ ch <? 0 then
    let pfd := mkPollfd (fd_ ch) (s16 (events_ ch)) 0 in
    let* w := get in
    set_pollfds (pollfds_ (poller w) ++ [pfd]) ;;;
    let* w := get in
    let idx := s32 (Zlen (pollfds_ (poller w))) - 1 in
    write_channel c (set_index idx) ;;;
    set_channels (<[p_fd pfd := c]> (channels (poller w)))
  else
    let idx := index_ ch in
    slot idx ;;;
    let fd := if isNoneEvent ch then - fd_ ch - 1 else fd_ ch in
    let* w := get in
    set_pollfds (<[Z.to_nat idx := mkPollfd fd (s16 (events_ ch)) 0]> (pollfds_ (poller w))).

Definition removeChannel (c : Z) : M W unit :=
  let* ch := channel c in
  let idx := index_ ch in
  slot idx ;;;
  let* w := get in
  set_channels (delete (fd_ ch) (channels (poller w))) ;;;
  let* w := get in
  let last := Zlen (pollfds_ (poller w)) - 1 in
  if idx =? last then
    set_pollfds (take (Z.to_nat last) (pollfds_ (poller w)))
  else
    let* back := slot last in
    let* at_idx := slot idx in
    let channelAtEnd := p_fd back in
    (* iter_swap *)
    set_pollfds (<[Z.to_nat last := at_idx]> (<[Z.to_nat idx := back]> (pollfds_ (poller w)))) ;;;
    let channelAtEnd := if channelAtEnd <? 0 then - channelAtEnd - 1 else channelAtEnd in
    (* [channels_[channelAtEnd]] makes a null entry when there is none *)
    let* w := get in
    let* d := lift match channels (poller w) !! channelAtEnd with Some d => Ok d | None => Err Undefined end in
    write_channel d (set_index idx) ;;;
    let* w := get in
    set_pollfds (take (Z.to_nat last) (pollfds_ (poller w))).
End operations.

#[global] Instance poll_poller {K} `{PollSys K} : Poller (t K) := {
  channels_ := channels;
  Channel.poll := poll;
  Channel.updateChannel := updateChannel;
  Channel.removeChannel := removeChannel }.

(** ** The contract *)

(** The descriptor an entry stands for. *)
Definition entry_fd (p : pollfd) : Z := if p_fd p <? 0 then - p_fd p - 1 else p_fd p.

(** [channels_], the channels' [index_] and [pollfds_] are one bijection. *)
Record tables {K} (h : gmap Z Channel) (p : t K) : Prop := {
  t_channels : forall fd c, channels p !! fd = Some c -> exists ch i pfd, h !! c = Some ch /\
    fd_ ch = fd /\ 0 <= fd < INT_MAX /\ index_ ch = Z.of_nat i /\ pollfds_ p !! i = Some pfd /\
    entry_fd pfd = fd;
  t_pollfds : forall i pfd, pollfds_ p !! i = Some pfd -> exists c ch,
    channels p !! entry_fd pfd = Some c /\ h !! c = Some ch /\ index_ ch = Z.of_nat i }.

(** What poll(2) watches: the entries with the descriptor itself. *)
Definition interest {K} (p : t K) : gmap Z (Z * Z) :=
  map_imap (fun fd c => (fun ip => (c, p_events (snd ip))) <$> list_find (fun pfd => p_fd pfd = fd) (pollfds_ p))
    (channels p).

Lemma entry_fd_nonneg pfd : 0 <= p_fd pfd -> entry_fd pfd = p_fd pfd.
Proof. unfold entry_fd. intros. destruct (Z.ltb_spec (p_fd pfd) 0); lia. Qed.

Lemma slot_unique {K} h (p : t K) i j a b : tables h p -> pollfds_ p !! i = Some a ->
  pollfds_ p !! j = Some b -> entry_fd a = entry_fd b -> i = j.
Proof.
  intros [T1 T2] Hi Hj E. destruct (T2 i a Hi) as (c & ch & H1 & H2 & H3), (T2 j b Hj) as (d & dh & G1 & G2 & G3).
  rewrite E, G1 in H1. injection H1 as ->. rewrite H2 in G2. injection G2 as ->. lia.
Qed.

Lemma interest_spec {K} h (p : t K) fd c ev : tables h p ->
  interest p !! fd = Some (c, ev) <->
  channels p !! fd = Some c /\ exists i pfd, pollfds_ p !! i = Some pfd /\ p_fd pfd = fd /\ p_events pfd = ev.
Proof.
  intros HT. unfold interest. rewrite map_lookup_imap. split.
  - destruct (channels p !! fd) as [d|] eqn:Hd; cbn; [|done]. rewrite fmap_Some.
    intros ([i pfd] & Hf & [= -> ->]). apply list_find_Some in Hf as (? & ? & _). cbn. split; [done|]. by exists i, pfd.
  - intros (Hc & i & pfd & Hi & Hfd & Hev). rewrite Hc. cbn. apply fmap_Some. exists (i, pfd).
    split; [|cbn; congruence]. apply list_find_Some. split; [done|]. split; [done|].
    intros j y Hj Hlt Hy. destruct (t_channels _ _ HT _ _ Hc) as (_ & _ & _ & _ & _ & ? & _).
    assert (i = j); [|lia]. eapply slot_unique; [done..|]. rewrite !entry_fd_nonneg; lia.
Qed.

(** Distinct descriptors fit in an [int]: so do the positions. *)
Lemma tables_length {K} h (p : t K) : tables h p -> Zlen (pollfds_ p) <= INT_MAX.
Proof.
  intros HT. assert (NoDup (entry_fd <$> pollfds_ p)) as Hnd.
  { apply NoDup_alt. intros i j x. rewrite !list_lookup_fmap. intros (a & Ha & Ea)%fmap_Some (b & Hb & Eb)%fmap_Some.
    eapply slot_unique; [done..|congruence]. }
  assert (forall x, x ∈ entry_fd <$> pollfds_ p -> x ∈ seqZ 0 INT_MAX) as Hsub.
  { intros x (a & -> & Ha)%list_elem_of_fmap. apply list_elem_of_lookup in Ha as [i Hi].
    destruct (t_pollfds _ _ HT i a Hi) as (c & ch & H1 & _).
    destruct (t_channels _ _ HT _ _ H1) as (_ & _ & _ & _ & _ & ? & _). apply elem_of_seqZ. lia. }
  pose proof (submseteq_length _ _ (NoDup_submseteq _ _ Hnd Hsub)) as Hl.
  rewrite length_fmap, length_seqZ in Hl. unfold Zlen. unfold INT_MAX in *. lia.
Qed.

Section contract.
Context {K : Type} `{PollLaws K}.
Notation W := (World (t K)).

Lemma poll_tables_write h (p : t K) c ch f : tables h p -> h !! c = Some ch ->
  fd_ (f ch) = fd_ ch -> index_ (f ch) = index_ ch -> tables (<[c := f ch]> h) p.
Proof.
  intros [T1 T2] Hc Ef Ei. constructor.
  - intros fd d Hd. destruct (T1 _ _ Hd) as (dh & i & pfd & Hdh & ? & ? & ? & ? & ?).
    rewrite lookup_insert. case_decide; [subst d|by exists dh, i, pfd].
    rewrite Hc in Hdh. injection Hdh as <-. exists (f ch), i, pfd. by rewrite Ef, Ei.
  - intros i pfd Hi. destruct (T2 i pfd Hi) as (d & dh & ? & Hdh & ?). exists d.
    rewrite lookup_insert. case_decide; [subst d|by exists dh].
    rewrite Hc in Hdh. injection Hdh as <-. exists (f ch). by rewrite Ei.
Qed.

Lemma poll_tables_new h (p : t K) c ch : tables h p -> h !! c = None -> tables (<[c := ch]> h) p.
Proof.
  intros [T1 T2] Hc. constructor.
  - intros fd d Hd. destruct (T1 _ _ Hd) as (dh & i & pfd & Hdh & ?). exists dh, i, pfd.
    rewrite lookup_insert_ne; [done|congruence].
  - intros i pfd Hi. destruct (T2 i pfd Hi) as (d & dh & ? & Hdh & ?). exists d, dh.
    rewrite lookup_insert_ne; [done|congruence].
Qed.

(** A new entry at the end. *)
Lemma tables_append h (p : t K) c ch pfd : tables h p -> h !! c = Some ch ->
  channels p !! fd_ ch = None -> 0 <= fd_ ch < INT_MAX -> p_fd pfd = fd_ ch ->
  tables (<[c := set_index (Z.of_nat (length (pollfds_ p))) ch]> h)
    (mk (<[fd_ ch := c]> (channels p)) (pollfds_ p ++ [pfd]) (kernel p)).
Proof.
  intros HT Hc Hn Hfd Hp. pose proof HT as [T1 T2].
  assert (forall fd d, channels p !! fd = Some d -> d <> c) as Hnc.
  { intros fd d Hd ->. destruct (T1 _ _ Hd) as (ch' & _ & _ & Hc' & ? & _). rewrite Hc in Hc'.
    injection Hc' as <-. congruence. }
  assert (entry_fd pfd = fd_ ch) as Ee by (rewrite entry_fd_nonneg; lia).
  constructor; cbn.
  - intros fd d. rewrite !lookup_insert. case_decide as E.
    + intros [= <-]. rewrite decide_True by done. eexists _, (length (pollfds_ p)), pfd.
      split; [done|]. split; [done|]. split; [lia|]. split; [done|]. split; [|congruence].
      by rewrite list_lookup_middle.
    + intros Hd. rewrite decide_False by (intros ->; by apply (Hnc fd d)).
      destruct (T1 _ _ Hd) as (dh & i & pd & ? & ? & ? & ? & ? & ?). exists dh, i, pd.
      repeat (split; [done|]). split; [|done]. by apply lookup_app_l_Some.
  - intros i pd. rewrite lookup_app_Some. intros [Hi|[Hle Hi]].
    + destruct (T2 i pd Hi) as (d & dh & Hd & Hdh & ?). exists d, dh.
      split; [rewrite lookup_insert_ne; [done|congruence]|].
      split; [|done]. rewrite lookup_insert_ne; [done|]. intros <-. by apply (Hnc _ _ Hd).
    + apply list_lookup_singleton_Some in Hi as [Hi <-]. exists c. eexists.
      rewrite Ee, !lookup_insert_eq. split; [done|]. split; [done|]. cbn. lia.
Qed.

(** The entry of a channel rewritten in place. *)
Lemma tables_rewrite h (p : t K) i a b : tables h p -> pollfds_ p !! i = Some a ->
  entry_fd b = entry_fd a -> tables h (mk (channels p) (<[i := b]> (pollfds_ p)) (kernel p)).
Proof.
  intros HT Hi E. pose proof HT as [T1 T2]. constructor; cbn.
  - intros fd d Hd. destruct (T1 _ _ Hd) as (dh & j & pd & ? & ? & ? & ? & Hj & Hpd).
    destruct (decide (i = j)) as [<-|Hne].
    + exists dh, i, b. rewrite list_lookup_insert_eq by (by eapply lookup_lt_Some).
      repeat (split; [done|]). rewrite E. congruence.
    + exists dh, j, pd. by rewrite list_lookup_insert_ne.
  - intros j pd. rewrite list_lookup_insert_Some. intros [(<- & <- & _)|[_ Hj]]; [|by apply T2].
    rewrite E. by apply T2.
Qed.

(** The last entry moved into the place of a removed one. *)
Lemma tables_removed h h' (p : t K) l' (k : K) c ch idx :
  tables h p -> channels p !! fd_ ch = Some c -> h !! c = Some ch -> index_ ch = Z.of_nat idx ->
  (forall j, l' !! j = if decide (j < length (pollfds_ p) - 1)%nat
                       then if decide (j = idx) then pollfds_ p !! (length (pollfds_ p) - 1)%nat else pollfds_ p !! j
                       else None) ->
  (forall d dh j, d <> c -> h !! d = Some dh -> index_ dh = Z.of_nat j -> channels p !! fd_ dh = Some d ->
     exists dh', h' !! d = Some dh' /\ fd_ dh' = fd_ dh /\
       index_ dh' = Z.of_nat (if decide (j = length (pollfds_ p) - 1)%nat then idx else j)) ->
  tables h' (mk (delete (fd_ ch) (channels p)) l' k).
Proof.
  intros HT Hr Hc Hidx Hl Hh. pose proof HT as [T1 T2].
  set (n := length (pollfds_ p)) in *.
  assert (idx < n)%nat as Hlt.
  { destruct (T1 _ _ Hr) as (ch' & i & pfd & Hc' & _ & _ & Hi & Hp & _). rewrite Hc in Hc'.
    injection Hc' as <-. apply lookup_lt_Some in Hp. unfold n. lia. }
  assert (forall fd d dh j pfd, channels p !! fd = Some d -> fd <> fd_ ch -> h !! d = Some dh ->
    index_ dh = Z.of_nat j -> pollfds_ p !! j = Some pfd -> entry_fd pfd = fd -> d <> c /\ j <> idx) as Hother.
  { intros fd d dh j pfd Hd Hne Hdh Hj Hpfd He. split.
    - intros ->. rewrite Hc in Hdh. injection Hdh as <-.
      destruct (T1 _ _ Hd) as (x & _ & _ & Hx & ? & _). rewrite Hc in Hx. injection Hx as <-. congruence.
    - intros ->. destruct (T1 _ _ Hr) as (x & i & pd & Hx & _ & _ & Hi & Hp & He').
      rewrite Hc in Hx. injection Hx as <-. assert (i = idx) as -> by lia. congruence. }
  constructor; cbn.
  - intros fd d. rewrite lookup_delete. case_decide as E; [done|]. intros Hd.
    destruct (T1 _ _ Hd) as (dh & j & pfd & Hdh & Hfd & Hrange & Hj & Hpfd & He).
    destruct (Hother fd d dh j pfd) as [Hdc Hji]; auto.
    destruct (Hh d dh j) as (dh' & Hdh' & Hfd' & Hj'); auto; [by rewrite Hfd|].
    exists dh', (if decide (j = n - 1)%nat then idx else j), pfd.
    split; [done|]. split; [congruence|]. split; [done|]. split; [done|]. split; [|done].
    rewrite Hl. apply lookup_lt_Some in Hpfd as Hjn. fold n in Hjn. case_decide as Ej.
    + subst j. rewrite decide_True by lia. by rewrite decide_True.
    + rewrite decide_True by lia. by rewrite decide_False.
  - intros j pfd. rewrite Hl. case_decide as Ejn; [|done].
    assert (forall m, (m < n)%nat -> m <> idx -> pollfds_ p !! m = Some pfd ->
      exists d dh, delete (fd_ ch) (channels p) !! entry_fd pfd = Some d /\
      h' !! d = Some dh /\ index_ dh = Z.of_nat (if decide (m = n - 1)%nat then idx else m)) as G.
    { intros m Hm Hmi Hpm. destruct (T2 _ _ Hpm) as (d & dh & Hd & Hdh & Hi).
      destruct (T1 _ _ Hd) as (x & j' & pd & Hx & Hfd & _ & Hj' & Hp' & He').
      rewrite Hdh in Hx. injection Hx as <-.
      assert (entry_fd pfd <> fd_ ch) as Hne.
      { intros E. rewrite E, Hr in Hd. injection Hd as <-. rewrite Hc in Hdh. injection Hdh as <-. lia. }
      destruct (Hother (entry_fd pfd) d dh m pfd) as [Hdc _]; auto.
      destruct (Hh d dh m) as (dh' & ? & ? & ?); auto; [by rewrite Hfd|].
      exists d, dh'. rewrite lookup_delete_ne by done. done. }
    case_decide as Eji.
    + subst j. intros Hp. specialize (G (n - 1)%nat ltac:(lia) ltac:(lia) Hp).
      by rewrite decide_True in G.
    + intros Hp. specialize (G j ltac:(lia) Eji Hp). by rewrite decide_False in G by lia.
Qed.

Lemma wpe_slot E idx pfd i (Q : pollfd -> W -> Prop) w :
  idx = Z.of_nat i -> pollfds_ (poller w) !! i = Some pfd -> Q pfd w -> wpe E (slot idx) Q w.
Proof.
  intros -> Hp HQ. unfold slot. wp_steps. rewrite Nat2Z.id, Hp.
  rewrite (proj2 (Z.leb_le 0 (Z.of_nat i))) by lia. apply wpe_lift; naive_solver.
Qed.

Lemma interest_eq h h' (p p' : t K) m : tables h p -> tables h' p' ->
  (forall fd c ev, m !! fd = Some (c, ev) <->
     channels p' !! fd = Some c /\ exists i pfd, pollfds_ p' !! i = Some pfd /\ p_fd pfd = fd /\ p_events pfd = ev) ->
  interest p' = m.
Proof.
  intros HT HT' Hm. apply map_eq. intros fd. apply option_eq. intros [c ev].
  by rewrite (interest_spec h'), Hm.
Qed.

Lemma s16_events z : 0 <= z < 2 ^ 15 -> s16 z = z.
Proof. intros. unfold s16. apply sint_small; lia. Qed.

(** The interest after the entry of a registered channel is rewritten, or one
    is added. *)
Lemma interest_rewrite h (p : t K) fd0 c i pfd pfd' none : tables h p -> channels p !! fd0 = Some c ->
  0 <= fd0 -> pollfds_ p !! i = Some pfd -> entry_fd pfd = fd0 -> entry_fd pfd' = fd0 ->
  (if none : bool then p_fd pfd' < 0 else p_fd pfd' = fd0) ->
  interest (mk (channels p) (<[i := pfd']> (pollfds_ p)) (kernel p)) =
    if none then delete fd0 (interest p) else <[fd0 := (c, p_events pfd')]> (interest p).
Proof.
  intros HT Hr Hge Hp He He' Hnone. pose proof (tables_rewrite _ _ _ _ pfd' HT Hp (eq_trans He' (eq_sym He))) as HT'.
  eapply interest_eq; [exact HT|exact HT'|]. intros fd d ev. cbn. setoid_rewrite list_lookup_insert_Some.
  assert (forall i0 pd, pollfds_ p !! i0 = Some pd -> p_fd pd = fd -> 0 <= fd -> fd = fd0 <-> i0 = i) as Hii.
  { intros i0 pd Hp0 Hfd0 Hfd. split.
    - intros ->. eapply slot_unique; [exact HT|exact Hp0|exact Hp|]. rewrite entry_fd_nonneg; lia.
    - intros ->. rewrite Hp in Hp0. injection Hp0 as <-. rewrite entry_fd_nonneg in He; lia. }
  assert (forall d, channels p !! fd = Some d -> 0 <= fd) as Hpos.
  { intros d0 Hd0. destruct (t_channels _ _ HT _ _ Hd0) as (_ & _ & _ & _ & _ & ? & _). lia. }
  assert (fd <> fd0 -> interest p !! fd = Some (d, ev) <-> channels p !! fd = Some d /\
    exists j y, (i = j /\ pfd' = y /\ (j < length (pollfds_ p))%nat \/ i <> j /\ pollfds_ p !! j = Some y) /\
      p_fd y = fd /\ p_events y = ev) as Hother.
  { intros Hne. rewrite (interest_spec _ _ _ _ _ HT). split; intros (Hd & j & y & Hy); (split; [done|]).
    - exists j, y. destruct Hy as (Hj & Hf & Hev). split; [|done]. right. split; [|done]. intros <-. by apply Hne, (Hii i y); eauto.
    - destruct Hy as ([(_ & <- & _)|[_ Hj]] & Hf & Hev); [|by exists j, y]. specialize (Hpos d Hd). destruct none; lia. }
  apply lookup_lt_Some in Hp as Hlt. destruct none; rewrite ?lookup_delete, ?lookup_insert; case_decide as Ef; try (by apply Hother).
  - split; [done|]. subst fd. intros (Hd & j & y & [(_ & <- & _)|[Hn Hj]] & Hf & _); [lia|].
    destruct Hn. symmetry. by apply (Hii j y).
  - subst fd. split.
    + intros [= <- <-]. split; [done|]. exists i, pfd'. split; [by left|]. done.
    + intros (Hd & j & y & [(_ & <- & _)|[Hn Hj]] & Hf & <-); [congruence|]. destruct Hn. symmetry. by apply (Hii j y).
Qed.

Lemma interest_append h h' (p : t K) c pfd : tables h p -> 0 <= p_fd pfd ->
  tables h' (mk (<[p_fd pfd := c]> (channels p)) (pollfds_ p ++ [pfd]) (kernel p)) -> channels p !! p_fd pfd = None ->
  interest (mk (<[p_fd pfd := c]> (channels p)) (pollfds_ p ++ [pfd]) (kernel p)) =
    <[p_fd pfd := (c, p_events pfd)]> (interest p).
Proof.
  intros HT Hge HT' Hr. eapply interest_eq; [exact HT|exact HT'|]. cbn.
  intros fd d ev. rewrite !lookup_insert. case_decide as Ef; [subst fd|].
  - split.
    + intros [= <- <-]. split; [done|]. exists (length (pollfds_ p)), pfd. split; [by rewrite list_lookup_middle|done].
    + intros ([= <-] & i & pd & Hp & Hpf & Hpe). apply lookup_app_Some in Hp as [Hp|[_ Hp]].
      * exfalso. destruct (t_pollfds _ _ HT _ _ Hp) as (d & dh & Hd & _). rewrite entry_fd_nonneg in Hd by lia. congruence.
      * apply list_lookup_singleton_Some in Hp as [_ <-]. by rewrite <- Hpe.
  - rewrite (interest_spec _ _ _ _ _ HT). split; intros (Hd & i & pd & Hp & Hpf & Hpe); (split; [done|]).
    + exists i, pd. split; [by apply lookup_app_l_Some|done].
    + apply lookup_app_Some in Hp as [Hp|[_ Hp]]; [by exists i, pd|].
      apply list_lookup_singleton_Some in Hp as [_ <-]. by cbn in Hpf.
Qed.

Lemma poll_update c ch (w : W) : tables (chans w) (poller w) -> chans w !! c = Some ch ->
  0 <= fd_ ch < INT_MAX -> 0 <= events_ ch < 2 ^ 15 ->
  (channels (poller w) !! fd_ ch = Some c \/ channels (poller w) !! fd_ ch = None /\ index_ ch = -1 /\ events_ ch <> 0) ->
  wp (updateChannel c) (fun _ w' =>
    tables (chans w') (poller w') /\ same_but_index (chans w) (chans w') /\
    untouched (channels (poller w')) (chans w) (chans w') /\
    channels (poller w') = <[fd_ ch := c]> (channels (poller w)) /\
    interest (poller w') = if isNoneEvent ch then delete (fd_ ch) (interest (poller w))
                           else <[fd_ ch := (c, events_ ch)]> (interest (poller w))) w.
Proof.
  intros HT Hc Hfd Hev Hcase. pose proof HT as [T1 T2].
  unfold updateChannel, set_pollfds, set_channels. wp_steps.
  eapply wpe_channel; [exact Hc|]. destruct Hcase as [Hr|(Hr & Hi & Hne)].
  - destruct (T1 _ _ Hr) as (x & i & pfd & Hx & _ & _ & Hi & Hp & He).
    rewrite Hc in Hx. injection Hx as <-. rewrite Hi, (proj2 (Z.ltb_ge _ 0)) by lia. wp_steps.
    eapply wpe_slot; [done|exact Hp|]. wp_steps. rewrite Nat2Z.id, s16_events by done.
    set (pfd' := mkPollfd _ _ _). cbn.
    assert (entry_fd pfd' = fd_ ch) as He'.
    { unfold entry_fd, pfd'; cbn. destruct (isNoneEvent ch).
      - rewrite (proj2 (Z.ltb_lt _ 0)); lia.
      - rewrite (proj2 (Z.ltb_ge _ 0)); lia. }
    split; [by apply (tables_rewrite _ _ _ pfd); [..|congruence]|]. split; [reflexivity|]. split; [apply untouched_refl|].
    split; [by rewrite insert_id|].
    apply (interest_rewrite (chans w) (poller w) (fd_ ch) c i pfd pfd' (isNoneEvent ch)); try done; [lia|].
    unfold pfd'; cbn. destruct (isNoneEvent ch); lia.
  - rewrite Hi. cbn [Z.ltb Z.compare]. wp_steps. rewrite s16_events by done. cbn [poller pollfds_ set_poller].
    set (pfd := mkPollfd _ _ _). eapply wpe_write; [exact Hc|]. cbn.
    pose proof (tables_append _ _ _ _ pfd HT Hc Hr Hfd eq_refl) as HT'.
    pose proof (tables_length _ _ HT') as Hlen. cbn in HT', Hlen. unfold INT_MAX in Hlen.
    assert (s32 (Zlen (pollfds_ (poller w) ++ [pfd])) - 1 = Z.of_nat (length (pollfds_ (poller w)))) as ->.
    { pose proof (Zlen_nonneg (pollfds_ (poller w) ++ [pfd])). rewrite s32_small by lia.
      rewrite Zlen_app. change (Zlen [pfd]) with 1. unfold Zlen. lia. }
    split; [done|]. split; [by eapply same_but_index_insert|].
    split; [eapply untouched_insert; [done|apply lookup_insert_eq]|]. split; [done|].
    rewrite isNoneEvent_false by done. apply (interest_append _ _ (poller w) c pfd HT (proj1 Hfd) HT' Hr).
Qed.

(** Removing position [idx] of [l] by moving the last element there. *)
Definition swap_removed (l : list pollfd) (idx : nat) (l' : list pollfd) : Prop :=
  forall j, l' !! j = if decide (j < length l - 1)%nat
                      then if decide (j = idx) then l !! (length l - 1)%nat else l !! j
                      else None.

Lemma swap_removed_elem l idx l' x : swap_removed l idx l' -> (idx < length l)%nat ->
  (exists j, l' !! j = Some x) <-> (exists i, i <> idx /\ l !! i = Some x).
Proof.
  intros Hl Hidx. split.
  - intros [j Hj]. rewrite Hl in Hj. case_decide; [|done]. case_decide.
    + exists (length l - 1)%nat. split; [lia|done].
    + by exists j.
  - intros (i & Hne & Hi). apply lookup_lt_Some in Hi as Hlt.
    destruct (decide (i = length l - 1)%nat) as [->|Hn].
    + exists idx. rewrite Hl, decide_True by lia. by rewrite decide_True.
    + exists i. rewrite Hl, decide_True by lia. by rewrite decide_False.
Qed.

Lemma removed_interest h h' (p : t K) l' (k : K) c ch idx :
  tables h p -> tables h' (mk (delete (fd_ ch) (channels p)) l' k) ->
  h !! c = Some ch -> channels p !! fd_ ch = Some c -> index_ ch = Z.of_nat idx ->
  swap_removed (pollfds_ p) idx l' ->
  interest (mk (delete (fd_ ch) (channels p)) l' k) = delete (fd_ ch) (interest p).
Proof.
  intros HT HT' Hc Hr Hidx Hl. eapply interest_eq; [exact HT|exact HT'|]. cbn.
  destruct (t_channels _ _ HT _ _ Hr) as (x & i & pfd & Hx & _ & Hfd & Hi & Hp & He).
  rewrite Hc in Hx. injection Hx as <-. assert (i = idx) as -> by lia.
  apply lookup_lt_Some in Hp as Hlt.
  intros fd d ev. rewrite !lookup_delete. case_decide as Ef; [naive_solver|].
  rewrite (interest_spec _ _ _ _ _ HT). split; intros (Hd & j & pd & Hpd & Hpf & Hpe); (split; [done|]).
  - destruct (proj2 (swap_removed_elem _ _ _ pd Hl Hlt)) as [j' Hj']; [|by exists j', pd].
    exists j. split; [|done]. intros ->. rewrite Hp in Hpd. injection Hpd as <-.
    destruct (t_channels _ _ HT _ _ Hd) as (_ & _ & _ & _ & _ & ? & _).
    rewrite entry_fd_nonneg in He; lia.
  - destruct (proj1 (swap_removed_elem _ _ _ pd Hl Hlt)) as (i & _ & Hi'); [by exists j|]. by exists i, pd.
Qed.

(** The last entry has moved to the place of the removed one, and its
    channel knows. *)
Lemma tables_swapped c ch idx d dh back (w : W) l' (k : K) : tables (chans w) (poller w) -> chans w !! c = Some ch ->
  channels (poller w) !! fd_ ch = Some c -> index_ ch = Z.of_nat idx ->
  pollfds_ (poller w) !! (length (pollfds_ (poller w)) - 1)%nat = Some back -> idx <> (length (pollfds_ (poller w)) - 1)%nat ->
  channels (poller w) !! entry_fd back = Some d -> chans w !! d = Some dh ->
  index_ dh = Z.of_nat (length (pollfds_ (poller w)) - 1) ->
  swap_removed (pollfds_ (poller w)) idx l' ->
  tables (<[d := set_index (Z.of_nat idx) dh]> (chans w)) (mk (delete (fd_ ch) (channels (poller w))) l' k).
Proof.
  intros HT Hc Hr Hi Hb E Hd Hdh Hdi Hl. pose proof HT as [T1 T2].
  eapply tables_removed; [exact HT|done|done|exact Hi|exact Hl|].
  intros e eh j Hec Heh Hj Her. rewrite lookup_insert. case_decide as Ede.
  - subst e. rewrite Hdh in Heh. injection Heh as <-. eexists. split; [done|]. split; [done|].
    cbn. by rewrite decide_True by lia.
  - exists eh. split; [done|]. split; [done|]. rewrite Hj. rewrite decide_False; [done|].
    intros ->. apply Ede. destruct (T1 _ _ Her) as (x & j' & pd & Hx & _ & _ & Hj' & Hpd & Hpe).
    rewrite Heh in Hx. injection Hx as <-. assert (j' = length (pollfds_ (poller w)) - 1)%nat as -> by lia.
    rewrite Hb in Hpd. injection Hpd as <-. congruence.
Qed.

Lemma poll_remove c ch (w : W) : tables (chans w) (poller w) -> chans w !! c = Some ch ->
  channels (poller w) !! fd_ ch = Some c ->
  wp (removeChannel c) (fun _ w' =>
    tables (chans w') (poller w') /\ same_but_index (chans w) (chans w') /\
    untouched (channels (poller w)) (chans w) (chans w') /\
    channels (poller w') = delete (fd_ ch) (channels (poller w)) /\
    interest (poller w') = delete (fd_ ch) (interest (poller w))) w.
Proof.
  intros HT Hc Hr. pose proof HT as [T1 T2].
  destruct (T1 _ _ Hr) as (x & idx & pfd & Hx & _ & Hfd & Hi & Hp & He).
  rewrite Hc in Hx. injection Hx as <-. apply lookup_lt_Some in Hp as Hlt.
  unfold removeChannel, set_pollfds, set_channels. wp_steps. eapply wpe_channel; [exact Hc|].
  wp_steps. eapply wpe_slot; [exact Hi|exact Hp|]. wp_steps. rewrite Hi. cbn [poller pollfds_ set_poller].
  set (l := pollfds_ (poller w)) in *. unfold Zlen.
  assert (Z.of_nat (length l) - 1 = Z.of_nat (length l - 1)) as -> by lia.
  destruct (Z.eqb_spec (Z.of_nat idx) (Z.of_nat (length l - 1))) as [E|E].
  - wp_steps. rewrite Nat2Z.id. cbn.
    assert (swap_removed l idx (take (length l - 1) l)) as Hl.
    { intros j. rewrite lookup_take. case_decide; [|done]. rewrite decide_False by lia. done. }
    match goal with |- tables _ (mk ?m ?l' ?k) /\ _ =>
      assert (tables (chans w) (mk m l' k)) as HT' end.
    { eapply tables_removed; [exact HT|done|done|exact Hi|exact Hl|].
      intros d dh j _ Hd Hj _. exists dh. split; [done|]. split; [done|]. fold l. case_decide; [|done]. subst j. lia. }
    split; [done|]. split; [reflexivity|]. split; [apply untouched_refl|]. split; [done|].
    by eapply removed_interest.
  - destruct (l !! (length l - 1)%nat) as [back|] eqn:Hb; [|apply lookup_ge_None in Hb; lia].
    wp_steps. eapply wpe_slot; [done|exact Hb|]. wp_steps. eapply wpe_slot; [done|exact Hp|].
    wp_steps. rewrite !Nat2Z.id. fold (entry_fd back). cbn [poller pollfds_ set_poller channels].
    destruct (T2 _ _ Hb) as (d & dh & Hd & Hdh & Hdi).
    assert (entry_fd back <> fd_ ch) as Hne.
    { intros Ee. assert (length l - 1 = idx)%nat; [|lia]. eapply slot_unique; [exact HT|exact Hb|exact Hp|].
      congruence. }
    assert (d <> c) as Hdc by (intros ->; rewrite Hc in Hdh; injection Hdh as <-; lia).
    rewrite lookup_delete_ne, Hd by done. apply wpe_lift; [|done]. intros ? [= <-]. wp_steps.
    eapply wpe_write; [exact Hdh|]. wp_steps. cbn.
    set (l' := take _ _).
    assert (swap_removed l idx l') as Hl.
    { intros j. unfold l'. rewrite lookup_take. case_decide; [|done].
      rewrite list_lookup_insert_ne by lia. case_decide as Ej.
      - subst j. by rewrite list_lookup_insert_eq.
      - by rewrite list_lookup_insert_ne. }
    match goal with |- tables ?h (mk ?m ?l' ?k) /\ _ =>
      assert (tables h (mk m l' k)) as HT' end.
    { apply (tables_swapped c ch idx d dh back w); try done; fold l; lia. }
    split; [done|]. split; [by eapply same_but_index_insert|].
    split. { eapply untouched_insert; [done|].
      destruct (T1 _ _ Hd) as (x & _ & _ & Hx & Hxf & _). rewrite Hdh in Hx. injection Hx as <-. by rewrite Hxf. }
    split; [done|]. by eapply removed_interest.
Qed.

(** The channels of the entries with events. *)
Definition actives (m : gmap Z Z) (pfds : list pollfd) : list Z :=
  omap (fun pfd => if 0 <? p_revents pfd then m !! p_fd pfd else None) pfds.

Lemma wp_fill_poll pfds acc (p : t K) h numEvents : tables h p ->
  numEvents = Zlen (filter (fun p => p_revents p <> 0) pfds) ->
  (forall pfd, pfd ∈ pfds -> 0 <= p_revents pfd /\
     (p_revents pfd <> 0 -> is_Some (channels p !! p_fd pfd))) ->
  wp (fillActiveChannels pfds numEvents acc) (fun r w' => r = acc ++ actives (channels p) pfds /\
    poller w' = p /\ tables (chans w') p /\ same_channels h (chans w') /\
    untouched (channels p) h (chans w')) (mkWorld h p).
Proof.
  revert acc h numEvents. induction pfds as [|pfd pfds IH]; intros acc h n HT Hn Hl; cbn [fillActiveChannels].
  - wp_steps. cbn. rewrite app_nil_r. split; [done|]. split; [done|]. split; [done|]. split; [reflexivity|apply untouched_refl].
  - destruct (Hl pfd ltac:(by left)) as [Hge Hreg].
    assert (forall pfd, pfd ∈ pfds -> 0 <= p_revents pfd /\
      (p_revents pfd <> 0 -> is_Some (channels p !! p_fd pfd))) as Hl' by (intros q Hq; apply Hl; by right).
    cbn [actives omap list_omap]. pose proof (Zlen_nonneg (filter (fun p => p_revents p <> 0) pfds)).
    destruct (Z.ltb_spec 0 (p_revents pfd)) as [Hpos|Hpos].
    + rewrite filter_cons_True, Zlen_cons in Hn by lia. destruct (Hreg ltac:(lia)) as [c Hc].
      rewrite (proj2 (Z.ltb_lt 0 n)) by lia. wp_steps. cbn [poller]. rewrite Hc.
      apply wpe_lift; [|done]. intros ? [= <-]. wp_steps.
      destruct (t_channels _ _ HT _ _ Hc) as (ch & _ & _ & Hch & Hfd & _).
      eapply wpe_write; [exact Hch|]. cbn. eapply wpe_mono.
      * apply IH; [by eapply poll_tables_write|lia|done].
      * cbn. intros r w' (-> & ? & ? & ? & Hu). rewrite <- app_assoc. split; [done|]. split; [done|].
        split; [done|]. split.
        -- transitivity (<[c := set_revents (p_revents pfd) ch]> h); [|done]. by eapply same_channels_insert.
        -- eapply untouched_trans; [|exact Hu]. eapply untouched_insert; [done|by rewrite Hfd].
    + rewrite filter_cons_False in Hn by lia. destruct (0 <? n) eqn:E.
      * by apply IH.
      * to_prop. wp_steps. cbn. assert (actives (channels p) pfds = []) as Ha.
        { assert (filter (fun p => p_revents p <> 0) pfds = []) as Ef by (apply Zlen_0_nil; lia).
          clear -Ef. induction pfds as [|q pfds IH]; [done|]. cbn.
          rewrite filter_cons in Ef. case_decide; [done|].
          rewrite (proj2 (Z.ltb_ge 0 _)) by lia. by apply IH. }
        unfold actives in Ha. cbn in Ha. rewrite Ha, app_nil_r.
        split; [done|]. split; [done|]. split; [done|]. split; [reflexivity|apply untouched_refl].
Qed.

(** The array the kernel hands back stands for the same channels. *)
Lemma tables_polled h (p : t K) l' (k : K) : tables h p -> length l' = length (pollfds_ p) ->
  (forall i q, pollfds_ p !! i = Some q -> exists r, l' !! i = Some (mkPollfd (p_fd q) (p_events q) r)) ->
  tables h (mk (channels p) l' k) /\ interest (mk (channels p) l' k) = interest p.
Proof.
  intros HT Hlen Hl. pose proof HT as [T1 T2].
  assert (forall i q', l' !! i = Some q' -> exists q, pollfds_ p !! i = Some q /\
    p_fd q' = p_fd q /\ p_events q' = p_events q) as Hl'.
  { intros i q' Hq'. destruct (pollfds_ p !! i) as [q|] eqn:Hq.
    - destruct (Hl i q Hq) as [r Hr]. rewrite Hq' in Hr. injection Hr as ->. by exists q.
    - apply lookup_lt_Some in Hq'. apply lookup_ge_None in Hq. lia. }
  assert (tables h (mk (channels p) l' k)) as HT'.
  { constructor; cbn.
    - intros fd c Hc. destruct (T1 _ _ Hc) as (ch & i & q & ? & ? & ? & ? & Hq & He).
      destruct (Hl i q Hq) as [r Hr]. exists ch, i. eexists. do 4 (split; [done|]). split; [exact Hr|done].
    - intros i q' Hq'. destruct (Hl' i q' Hq') as (q & Hq & Ef & _). unfold entry_fd. rewrite Ef. by apply T2. }
  split; [done|]. eapply interest_eq; [exact HT|exact HT'|]. intros fd c ev.
  rewrite (interest_spec _ _ _ _ _ HT). cbn.
  split; intros (Hc & i & q & Hq & Hf & He); (split; [done|]).
  - destruct (Hl i q Hq) as [r Hr]. eexists i, _. by split; [exact Hr|].
  - destruct (Hl' i q Hq) as (q0 & ? & ? & ?). exists i, q0. split; [done|]. split; congruence.
Qed.

(** [poll] reports the channels of the entries with events, in their order,
    and each is watched. *)
Lemma poll_poll timeoutMs (w : W) : tables (chans w) (poller w) ->
  wp (poll timeoutMs) (fun r w' =>
    (tables (chans w') (poller w') /\ same_channels (chans w) (chans w') /\
     untouched (channels (poller w)) (chans w) (chans w') /\
     channels (poller w') = channels (poller w) /\ interest (poller w') = interest (poller w) /\
     (forall c, c ∈ snd r -> exists fd ev, interest (poller w) !! fd = Some (c, ev))) /\
    let '(_, n, l) := poll_call (kernel (poller w)) (pollfds_ (poller w)) timeoutMs in
    snd r = if 0 <? n then actives (channels (poller w)) l else []) w.
Proof.
  intros HT. unfold poll, set_kernel, set_pollfds. wp_steps.
  pose proof (poll_keeps (kernel (poller w)) (pollfds_ (poller w)) timeoutMs) as Hk.
  destruct (poll_call _ _ _) as [[k n] l]. destruct (time_now k) as [k' now].
  destruct Hk as (Hlen & Herr & Hn & Hl).
  destruct (tables_polled (chans w) (poller w) l k' HT Hlen) as [HT' HI].
  { intros i q Hq. destruct (Hl i q Hq) as (r & ? & _). eauto. }
  assert (forall i q, l !! i = Some q -> 0 <= p_revents q /\ (p_revents q <> 0 ->
    exists c, channels (poller w) !! p_fd q = Some c /\
              interest (poller w) !! p_fd q = Some (c, p_events q))) as Hact.
  { intros i q Hq. destruct (pollfds_ (poller w) !! i) as [q0|] eqn:Hq0.
    2: { apply lookup_lt_Some in Hq. apply lookup_ge_None in Hq0. lia. }
    destruct (Hl i q0 Hq0) as (r & Hr & Hrange & Hneg). rewrite Hq in Hr. injection Hr as ->. cbn.
    split; [lia|]. intros Hne. assert (0 <= p_fd q0) by (destruct (Z.lt_ge_cases (p_fd q0) 0); [tauto|lia]).
    destruct (t_pollfds _ _ HT i q0 Hq0) as (c & ch & Hc & _). rewrite entry_fd_nonneg in Hc by done.
    exists c. split; [done|]. rewrite (interest_spec _ _ _ _ _ HT). split; [done|]. by exists i, q0. }
  wp_steps. destruct (Z.ltb_spec 0 n) as [Hpos|Hpos]; wp_steps.
  - eapply wpe_mono.
    + apply (wp_fill_poll l [] (mk (channels (poller w)) l k') (chans w)); [done|apply Hn; lia|].
      intros q [i Hi]%list_elem_of_lookup. destruct (Hact i q Hi) as [? G]. split; [done|].
      intros Hne. destruct (G Hne) as (c & ? & _). by exists c.
    + cbn. intros r [h' p'] (-> & Ep & G1 & G2 & G3). cbn in *. subst p'. wp_steps. cbn.
      split; [|done]. do 5 (split; [done|]). intros c Hc. unfold actives in Hc.
      apply list_elem_of_omap in Hc as (q & Hq & Hqc). apply list_elem_of_lookup in Hq as [i Hi].
      destruct (Z.ltb_spec 0 (p_revents q)); [|done]. destruct (Hact i q Hi) as [_ G].
      destruct (G ltac:(lia)) as (c' & Hc' & Hint). rewrite Hqc in Hc'. injection Hc' as <-. eauto.
  - cbn. split; [|done]. split; [done|]. split; [reflexivity|]. split; [apply untouched_refl|].
    split; [done|]. split; [done|]. by intros c ?%not_elem_of_nil.
Qed.

#[global] Program Instance poll_spec : PollerSpec (t K) := {
  fits := tables;
  Channel.interest := interest }.
Next Obligation.
  intros h p fd c HT Hc. destruct (t_channels _ _ HT _ _ Hc) as (ch & ? & ? & ? & ? & _). eauto.
Qed.
Next Obligation. intros h p fd c ev HT Hi. by apply (interest_spec _ _ _ _ _ HT) in Hi as [? _]. Qed.
Next Obligation. intros h p c ch f. apply poll_tables_write. Qed.
Next Obligation. intros h p c ch. apply poll_tables_new. Qed.
Next Obligation.
  intros c ch w HT Hc Hfd Hev Hcase. eapply wpe_weaken; [eapply wpe_mono; [by apply poll_update|]|done].
  cbn. intros _ w' (? & ? & ? & ? & Hi). do 4 (split; [done|]). unfold interest_after. rewrite Hi.
  unfold isNoneEvent. destruct (Z.eqb_spec (events_ ch) kNoneEvent); [|done]. apply (interest_after_delete _ c).
Qed.
Next Obligation.
  intros c ch w HT Hc Hr Hev. eapply wpe_weaken; [by apply poll_remove|done].
Qed.
Next Obligation.
  intros timeoutMs w HT. eapply wpe_mono; [by apply poll_poll|]. by cbn; intros r w' [? _].
Qed.
End contract.

End PollPoller.
