(* ===== verification/Pollers.v ===== *)
(** * Both pollers against one specification (DefaultPoller.c++)

    The life of the channels of a loop as an abstract machine: which channels
    are registered, and what each is interested in.  Any poller that fulfils
    [PollerSpec] implements it; the epoll and the poll poller do. *)
From S2P Require Import Prelude Channel EPollPoller PollPoller.

(** [Poller::newDefaultPoller]: the environment chooses. *)
Definition newDefaultPoller {K1 K2} `{PollPoller.PollSys K1} `{EPollPoller.EpollSys K2}
    (MUDUO_USE_POLL : bool) (k1 : K1) (k2 : K2) : PollPoller.t K1 + EPollPoller.t K2 :=
  if MUDUO_USE_POLL then inl (PollPoller.init k1) else inr (EPollPoller.init k2).

Module Registry.

Inductive status : Type := Fresh | Registered | Removed.
#[export] Instance status_eq_dec : EqDecision status.
Proof. solve_decision. Defined.

Record achan : Type := AChan { a_fd : Z; a_events : Z; a_status : status }.

Inductive op : Type :=
| EnableReading (c : Z)
| DisableReading (c : Z)
| EnableWriting (c : Z)
| DisableWriting (c : Z)
| DisableAll (c : Z)
| Remove (c : Z)
| Poll (timeoutMs : Z).

(** A channel asks for the events [ev]: a fresh one takes its descriptor if
    no other holds it, a removed one may not come back. *)
Definition ask (a : gmap Z achan) (c : Z) (f : Z -> Z) : option (gmap Z achan) :=
  match a !! c with
  | Some (AChan fd ev st) =>
      let a' := <[c := AChan fd (f ev) Registered]> a in
      match st with
      | Registered => Some a'
      | Fresh =>
          if bool_decide (map_Forall (fun _ x => ~ (a_fd x = fd /\ a_status x = Registered)) a) &&
             negb (f ev =? 0)
          then Some a' else None
      | Removed => None
      end
  | None => None
  end.

Definition step (a : gmap Z achan) (o : op) : option (gmap Z achan) :=
  match o with
  | EnableReading c => ask a c (fun ev => Z.lor ev kReadEvent)
  | DisableReading c => ask a c (fun ev => Z.land ev (Z.lnot kReadEvent))
  | EnableWriting c => ask a c (fun ev => Z.lor ev kWriteEvent)
  | DisableWriting c => ask a c (fun ev => Z.land ev (Z.lnot kWriteEvent))
  | DisableAll c => ask a c (fun _ => kNoneEvent)
  | Remove c =>
      match a !! c with
      | Some (AChan fd ev Registered) => if ev =? 0 then Some (<[c := AChan fd 0 Removed]> a) else None
      | _ => None
      end
  | Poll _ => Some a
  end.
Fixpoint steps (a : gmap Z achan) (l : list op) : option (gmap Z achan) :=
  match l with
  | [] => Some a
  | o :: l => match step a o with Some a' => steps a' l | None => None end
  end.

(** The same on the channels and a poller. *)
Definition exec {P} `{Poller P} (o : op) : M (World P) unit :=
  match o with
  | EnableReading c => enableReading c
  | DisableReading c => disableReading c
  | EnableWriting c => enableWriting c
  | DisableWriting c => disableWriting c
  | DisableAll c => disableAll c
  | Remove c => remove c
  | Poll timeoutMs => poll timeoutMs ;;; ret tt
  end.

(** New channels, by address, with their descriptors. *)
Definition fresh_registry (fds : gmap Z Z) : gmap Z achan := (fun fd => AChan fd 0 Fresh) <$> fds.
Definition fresh_channels (loop : Z) (fds : gmap Z Z) : gmap Z Channel := Channel_new loop <$> fds.

Definition watched (x : achan) : Prop := a_status x = Registered /\ a_events x <> 0.

Section refinement.
Context {P : Type} `{PollerSpec P}.

Definition agrees (x : achan) (c : Z) (ch : Channel) (p : P) : Prop :=
  fd_ ch = a_fd x /\ 0 <= a_fd x < INT_MAX /\ events_ ch = a_events x /\ 0 <= a_events x < 8 /\
  (a_status x = Registered <-> channels_ p !! a_fd x = Some c) /\
  (a_status x = Fresh -> index_ ch = -1).

Record refines (a : gmap Z achan) (w : World P) : Prop := {
  r_fits : fits (chans w) (poller w);
  r_channels : forall c, match a !! c, chans w !! c with
                         | Some x, Some ch => agrees x c ch (poller w)
                         | None, None => True
                         | _, _ => False
                         end;
  r_interest : forall fd c ev, ev <> 0 -> interest (poller w) !! fd = Some (c, ev) <->
    exists x, a !! c = Some x /\ watched x /\ a_fd x = fd /\ a_events x = ev }.

Lemma refines_lookup a w c x : refines a w -> a !! c = Some x ->
  exists ch, chans w !! c = Some ch /\ agrees x c ch (poller w).
Proof.
  intros R Hx. pose proof (r_channels _ _ R c) as Hc. rewrite Hx in Hc.
  destruct (chans w !! c) as [ch|]; [eauto|done].
Qed.

Lemma same_fields (c c' : Channel) : set_index 0 (set_revents 0 c) = set_index 0 (set_revents 0 c') ->
  fd_ c = fd_ c' /\ events_ c = events_ c'.
Proof. destruct c, c'; cbn. by intros [=]. Qed.

(** A poller operation that registers or forgets the channel [c] only. *)
Lemma refines_after a (w w1 w2 : World P) c x ch y :
  refines a w -> a !! c = Some x -> a_fd y = a_fd x -> 0 <= a_events y < 8 ->
  poller w1 = poller w -> chans w1 = <[c := ch]> (chans w) -> fd_ ch = a_fd x -> events_ ch = a_events y ->
  a_status y <> Fresh ->
  (a_status x = Fresh -> channels_ (poller w) !! a_fd x = None) ->
  a_status x <> Removed ->
  channels_ (poller w2) = (match a_status y with Registered => <[a_fd x := c]> | _ => delete (a_fd x) end)
                            (channels_ (poller w)) ->
  fits (chans w2) (poller w2) -> same_channels (chans w1) (chans w2) ->
  (forall d dh, d <> c -> chans w1 !! d = Some dh -> channels_ (poller w) !! fd_ dh <> Some d ->
     chans w2 !! d = Some dh) ->
  (forall fd d ev, ev <> 0 -> interest (poller w2) !! fd = Some (d, ev) <->
     exists z, <[c := y]> a !! d = Some z /\ watched z /\ a_fd z = fd /\ a_events z = ev) ->
  refines (<[c := y]> a) w2.
Proof.
  intros R Hx Ef Hev Ep Ech Hfd Hevents Hy Hfree Hnr Hm Hfits Hsame Hunt Hint.
  constructor; [done| |done]. intros d. rewrite lookup_insert.
  destruct (refines_lookup _ _ _ _ R Hx) as (ch0 & Hch0 & A1 & A2 & _ & _ & A5 & _).
  case_decide as Ed.
  - subst d. destruct (same_channels_lookup _ _ c ch Hsame) as (ch' & Hch' & Es).
    { rewrite Ech. apply lookup_insert_eq. }
    rewrite Hch'. apply same_fields in Es as [Es1 Es2]. split; [congruence|]. rewrite Ef. split; [done|].
    split; [congruence|]. split; [done|]. split; [|done].
    rewrite Hm. destruct (a_status y); [done| |].
    + rewrite lookup_insert_eq. done.
    + rewrite lookup_delete_eq. done.
  - pose proof (r_channels _ _ R d) as Hd. pose proof (Hsame d) as Hs.
    rewrite Ech, lookup_insert_ne in Hs by done.
    destruct (a !! d) as [z|] eqn:Hz, (chans w !! d) as [dh|] eqn:Hdh, (chans w2 !! d) as [dh2|] eqn:Hdh2; try done.
    destruct Hd as (D1 & D2 & D3 & D4 & D5 & D6). apply same_fields in Hs as [Hs1 Hs2].
    split; [congruence|]. split; [done|]. split; [congruence|]. split; [done|]. split.
    + rewrite D5, Hm. destruct (decide (a_fd z = a_fd x)) as [E|E].
      * rewrite E. assert (channels_ (poller w) !! a_fd x <> Some d) as Hn.
        { intros Hd. destruct (a_status x) eqn:Es; [by rewrite Hfree in Hd| |done].
          destruct A5 as [A5 _]. rewrite (A5 eq_refl) in Hd. congruence. }
        destruct (a_status y); [done| |]; rewrite ?lookup_insert_eq, ?lookup_delete_eq; naive_solver.
      * destruct (a_status y); [done| |]; rewrite ?lookup_insert_ne, ?lookup_delete_ne by done; done.
    + intros Hfr. rewrite (Hunt d dh) in Hdh2; [injection Hdh2 as <-; auto|done| |].
      * by rewrite Ech, lookup_insert_ne.
      * rewrite D1. intros Hd. apply D5 in Hd. congruence.
Qed.

(** The interest after channel [c] has been given the events [e]. *)
Lemma interest_updated a w c x fd e m' : refines a w -> a !! c = Some x -> a_fd x = fd ->
  (a_status x = Registered \/ interest (poller w) !! fd = None) ->
  interest_after fd c e (interest (poller w)) m' ->
  forall fd' d ev, ev <> 0 -> m' !! fd' = Some (d, ev) <->
    exists z, <[c := AChan fd e Registered]> a !! d = Some z /\ watched z /\ a_fd z = fd' /\ a_events z = ev.
Proof.
  intros R Hx Ef Hst Hafter fd' d ev Hev0.
  assert (forall d' ev', interest (poller w) !! fd = Some (d', ev') -> d' = c) as Huniq.
  { intros d' ev' Hd. destruct Hst as [Hst|Hst]; [|congruence].
    destruct (refines_lookup _ _ _ _ R Hx) as (ch & _ & _ & _ & _ & _ & A & _).
    apply (fits_interest _ _ _ _ _ (r_fits _ _ R)) in Hd. rewrite <- Ef, (proj1 A Hst) in Hd. congruence. }
  assert (fd' <> fd -> interest (poller w) !! fd' = Some (d, ev) <->
    exists z, <[c := AChan fd e Registered]> a !! d = Some z /\ watched z /\ a_fd z = fd' /\ a_events z = ev) as Hother.
  { intros Hne. rewrite (r_interest _ _ R) by done. split; intros (z & Hz & Hw & Hf & He).
    - exists z. rewrite lookup_insert_ne; [done|]. intros <-. congruence.
    - rewrite lookup_insert in Hz. case_decide; [|by exists z]. injection Hz as <-. cbn in Hf. congruence. }
  assert ((exists z, <[c := AChan fd e Registered]> a !! d = Some z /\ watched z /\ a_fd z = fd /\ a_events z = ev) ->
    d = c) as Hdc.
  { intros (z & Hz & Hw & Hf & He). rewrite lookup_insert in Hz. case_decide as E; [done|].
    apply (Huniq d ev), (r_interest _ _ R); [done|]. by exists z. }
  unfold interest_after in Hafter. destruct (Z.eqb_spec e kNoneEvent) as [He|He].
  - destruct Hafter as [Hsame Hfd]. destruct (decide (fd' = fd)) as [E|E]; [|rewrite Hsame by done; by apply Hother].
    subst fd'. split; [intros Hd; apply Hfd in Hd as [[= _ Hd] _]; done|]. intros G. rewrite (Hdc G) in G. destruct G as (z & Hz & [_ Hw] & _).
    rewrite lookup_insert_eq in Hz. injection Hz as <-. cbn in Hw. done.
  - subst m'. rewrite lookup_insert. case_decide as E; [|by apply Hother]. subst fd'. split.
    + intros [= <- <-]. eexists. rewrite lookup_insert_eq. split; [done|]. done.
    + intros G. rewrite (Hdc G) in G |- *. destruct G as (z & Hz & _ & _ & Hev).
      rewrite lookup_insert_eq in Hz. injection Hz as <-. cbn in Hev. by subst ev.
Qed.

Lemma refines_ask a a' c f (w : World P) :
  (forall ev, 0 <= ev < 8 -> 0 <= f ev < 8) -> refines a w -> ask a c f = Some a' ->
  wpe (eq Aborted) (write_channel c (fun ch => set_events (f (events_ ch)) ch) ;;; update c)
    (fun _ w' => refines a' w' /\ kept (chans w) (chans w')) w.
Proof.
  intros Hf R Hask. unfold ask in Hask. destruct (a !! c) as [[fd ev st]|] eqn:Hx; [|done].
  destruct (refines_lookup _ _ _ _ R Hx) as (ch & Hc & A1 & A2 & A3 & A4 & A5 & A6); cbn in *.
  assert ((st = Registered \/
           st = Fresh /\ f ev <> 0 /\ channels_ (poller w) !! fd = None) /\
          a' = <[c := AChan fd (f ev) Registered]> a) as [Hcase ->].
  { destruct st; [| |done].
    - case_bool_decide as Hfree; cbn in Hask; [|done]. destruct (f ev =? 0) eqn:E; cbn in Hask; [done|].
      injection Hask as <-. to_prop. split; [right|done]. split; [done|]. split; [done|].
      destruct (channels_ (poller w) !! fd) as [d|] eqn:Hd; [|done]. exfalso.
      destruct (fits_registered _ _ _ _ (r_fits _ _ R) Hd) as (dh & Hdh & Hdfd).
      pose proof (r_channels _ _ R d) as Hdr. rewrite Hdh in Hdr.
      destruct (a !! d) as [z|] eqn:Hz; [|done]. destruct Hdr as (B1 & _ & _ & _ & B5 & _).
      apply (Hfree d z Hz). split; [congruence|]. apply B5. congruence.
    - injection Hask as <-. split; [by left|done]. }
  unfold update. wp_steps. eapply wpe_write; [exact Hc|]. wp_steps.
  eapply wpe_write; [apply lookup_insert_eq|]. cbn. rewrite insert_insert_eq, A3.
  set (ch' := set_added true _).
  assert (fits (<[c := ch']> (chans w)) (poller w)) as Hfits.
  { apply (fits_write _ _ _ ch (fun _ => ch')); [apply R|done|by destruct ch|by destruct ch]. }
  assert (fd_ ch' = fd /\ events_ ch' = f ev /\ index_ ch' = index_ ch) as (E1 & E2 & E3) by (by destruct ch).
  assert (kept (chans w) (<[c := ch']> (chans w))) as Hkept by (by eapply kept_write; [exact Hc|destruct ch]).
  set (w1 := mkWorld (<[c := ch']> (chans w)) (poller w)).
  change (set_chans _ _) with w1. clearbody ch'. eapply wpe_mono.
  - apply (update_spec c ch' w1); cbn; [done|apply lookup_insert_eq|by rewrite E1| |].
    + rewrite E2. specialize (Hf ev A4). lia.
    + rewrite E1, E2. destruct Hcase as [->|(-> & Hne & Hfree)].
      * left. by apply A5.
      * right. split; [done|]. split; [|done]. rewrite E3. auto.
  - cbn. intros _ w2 (G1 & G2 & G3 & G4 & G5). rewrite E1 in G4. rewrite E1, E2 in G5.
    split; [|etransitivity; [exact Hkept|by apply same_but_index_kept]].
    apply same_but_index_channels in G2. eapply (refines_after a w w1 w2 c _ ch'); [done|exact Hx|done|by apply Hf|done|done|done|done|done| | | |done|done| |]; cbn.
    + intros ->. by destruct Hcase as [?|(_ & _ & ?)].
    + by destruct Hcase as [->|(-> & _ & _)].
    + done.
    + intros d dh Hdc Hd Hnr. apply G3; [done|]. rewrite G4, lookup_insert. case_decide; congruence.
    + apply (interest_updated a w c (AChan fd ev st) fd (f ev)); [done|exact Hx|done| |done].
      destruct Hcase as [->|(-> & _ & Hfree)]; [by left|right].
      destruct (interest (poller w) !! fd) as [[d ev']|] eqn:Hi; [|done].
      apply (fits_interest _ _ _ _ _ (r_fits _ _ R)) in Hi. congruence.
Qed.

Lemma refines_remove a c fd (w : World P) :
  refines a w -> a !! c = Some (AChan fd 0 Registered) ->
  wpe (eq Aborted) (remove c) (fun _ w' =>
    refines (<[c := AChan fd 0 Removed]> a) w' /\ kept (chans w) (chans w')) w.
Proof.
  intros R Hx. destruct (refines_lookup _ _ _ _ R Hx) as (ch & Hc & A1 & A2 & A3 & A4 & A5 & A6); cbn in *.
  unfold remove. wp_steps. eapply wpe_write; [exact Hc|].
  set (ch' := set_added false ch).
  assert (fits (<[c := ch']> (chans w)) (poller w)) as Hfits.
  { apply (fits_write _ _ _ ch (fun _ => ch')); [apply R|done|by destruct ch|by destruct ch]. }
  assert (fd_ ch' = fd /\ events_ ch' = 0) as [E1 E2] by (by destruct ch).
  assert (kept (chans w) (<[c := ch']> (chans w))) as Hkept by (by eapply kept_write; [exact Hc|destruct ch]).
  set (w1 := mkWorld (<[c := ch']> (chans w)) (poller w)).
  change (set_chans _ _) with w1. clearbody ch'. eapply wpe_mono.
  - apply (remove_spec c ch' w1); cbn; [done|apply lookup_insert_eq| |done]. rewrite E1. by apply A5.
  - cbn. intros _ w2 (G1 & G2 & G3 & G4 & G5). rewrite E1 in G4, G5.
    split; [|etransitivity; [exact Hkept|by apply same_but_index_kept]].
    apply same_but_index_channels in G2. eapply (refines_after a w w1 w2 c _ ch'); [done|exact Hx|done|cbn; lia|done|done|done|done|done| | | |done|done| |]; cbn.
    + done.
    + done.
    + done.
    + intros d dh Hdc Hd Hnr. by apply G3.
    + intros fd' d ev Hev0. rewrite G5.
      rewrite (interest_updated a w c (AChan fd 0 Registered) fd 0 _ R Hx eq_refl (or_introl eq_refl)
        (interest_after_delete _ _ _) fd' d ev Hev0). split; intros (z & Hz & Hw & Hf & He); exists z; (split; [|done]);
        rewrite lookup_insert in Hz |- *; (case_decide; [|done]); injection Hz as <-; by destruct Hw.
Qed.

Lemma refines_poll a timeoutMs (w : World P) :
  refines a w -> wp (poll timeoutMs) (fun _ w' => refines a w') w.
Proof.
  intros R. eapply wpe_mono; [apply poll_spec, R|]. cbn.
  intros r w' (G1 & G2 & G3 & G4 & G5 & _). constructor; [done| |by rewrite G5; apply R].
  intros c. pose proof (r_channels _ _ R c) as Hc. pose proof (G2 c) as Hs.
  destruct (a !! c) as [x|] eqn:Hx, (chans w !! c) as [ch|] eqn:Hch, (chans w' !! c) as [ch'|] eqn:Hch'; try done.
  apply same_fields in Hs as [E1 E2]. destruct Hc as (A1 & A2 & A3 & A4 & A5 & A6).
  split; [congruence|]. split; [done|]. split; [congruence|]. split; [done|]. split; [by rewrite G4|].
  intros Hf. rewrite (G3 c ch Hch) in Hch'; [injection Hch' as <-; auto|].
  rewrite A1. intros Hr. apply A5 in Hr. congruence.
Qed.

Lemma small_events (Q : Z -> Prop) : Q 0 -> Q 1 -> Q 2 -> Q 3 -> Q 4 -> Q 5 -> Q 6 -> Q 7 ->
  forall ev, 0 <= ev < 8 -> Q ev.
Proof.
  intros. assert (ev = 0 \/ ev = 1 \/ ev = 2 \/ ev = 3 \/ ev = 4 \/ ev = 5 \/ ev = 6 \/ ev = 7) as E by lia.
  by destruct E as [->|[->|[->|[->|[->|[->|[->| ->]]]]]]].
Qed.

Definition not_poll (o : op) : bool := match o with Poll _ => false | _ => true end.

Lemma refines_step a a' o (w : World P) : refines a w -> step a o = Some a' ->
  wpe (eq Aborted) (exec o) (fun _ w' => refines a' w' /\ (not_poll o = true -> kept (chans w) (chans w'))) w.
Proof.
  intros R Hs. destruct o as [c|c|c|c|c|c|tm]; cbn [step exec not_poll] in *.
  1-5: (eapply wpe_mono; [refine (refines_ask a a' c _ w _ R Hs); apply small_events; vm_compute; split; congruence|];
        cbn; intros _ w' [? ?]; done).
  - destruct (a !! c) as [[fd ev []]|] eqn:Hx; try done. destruct (Z.eqb_spec ev 0); [|done].
    injection Hs as <-. subst ev. eapply wpe_mono; [by apply refines_remove|]. cbn. intros _ w' [? ?]. done.
  - injection Hs as <-. wp_steps. eapply wpe_mono; [|intros ? ? Hq; apply wpe_ret; split; [exact Hq|done]].
    eapply wpe_weaken; [by apply refines_poll|done].
Qed.

(** The channel an operation is about. *)
Definition op_channel (o : op) : option Z :=
  match o with
  | EnableReading c | DisableReading c | EnableWriting c | DisableWriting c | DisableAll c | Remove c => Some c
  | Poll _ => None
  end.

(** An operation is about its channel only. *)
Lemma step_frame a a' o c d : step a o = Some a' -> op_channel o = Some c -> c <> d -> a' !! d = a !! d.
Proof.
  assert (forall f, ask a c f = Some a' -> c <> d -> a' !! d = a !! d) as Hask.
  { intros f. unfold ask. destruct (a !! c) as [[fd ev st]|]; [|done]. intros E Hne.
    destruct st; [destruct (_ && _)%bool; [|done]| |done]; injection E as <-; by rewrite lookup_insert_ne. }
  intros Hs Ho Hne. destruct o as [c'|c'|c'|c'|c'|c'|tm]; try done; injection Ho as ->; cbn [step] in Hs; try by eapply Hask.
  destruct (a !! c) as [[fd ev st]|]; [|done]. destruct st; try done. destruct (ev =? 0); [|done].
  injection Hs as <-. by rewrite lookup_insert_ne.
Qed.

(** The world fixes the registered channels and their interests; only fresh
    and removed channels may be mistaken for each other. *)
Lemma refines_same a b (w : World P) c x y : refines a w -> refines b w -> a !! c = Some x -> b !! c = Some y ->
  a_fd x = a_fd y /\ a_events x = a_events y /\ (a_status x = Registered <-> a_status y = Registered).
Proof.
  intros R R' Hx Hy. destruct (refines_lookup _ _ _ _ R Hx) as (ch & Hc & A1 & _ & A3 & _ & A5 & _).
  destruct (refines_lookup _ _ _ _ R' Hy) as (ch' & Hc' & B1 & _ & B3 & _ & B5 & _).
  rewrite Hc in Hc'. injection Hc' as <-. split; [congruence|]. split; [congruence|]. rewrite A5, B5. by rewrite <- A1, <- B1.
Qed.

Lemma refines_mix a b (w : World P) c x : refines a w -> refines b w -> a !! c = Some x -> refines (<[c := x]> b) w.
Proof.
  intros R R' Hx. destruct (refines_lookup _ _ _ _ R Hx) as (ch & Hc & HA).
  pose proof (r_channels _ _ R' c) as Hbc. rewrite Hc in Hbc. destruct (b !! c) as [y|] eqn:Hy; [|done].
  destruct (refines_same _ _ _ _ _ _ R R' Hx Hy) as (E1 & E2 & E3).
  constructor; [apply R| |].
  - intros d. rewrite lookup_insert. case_decide; [subst d; by rewrite Hc|apply R'].
  - intros fd d ev Hev. rewrite (r_interest _ _ R' fd d ev Hev). unfold watched.
    split; intros (z & Hz & [W1 W2] & Ef & Ee).
    + rewrite lookup_insert. case_decide; [|by exists z]. subst d. rewrite Hy in Hz. injection Hz as <-.
      exists x. split; [done|]. rewrite E1, E2, E3. done.
    + rewrite lookup_insert in Hz. case_decide; [|by exists z]. subst d. injection Hz as <-.
      exists y. split; [done|]. rewrite <- E1, <- E2, <- E3. done.
Qed.

(** A fresh channel is let in when its descriptor is free in the table. *)
Lemma free_fd a fd (w : World P) : refines a w ->
  map_Forall (fun _ x => ~ (a_fd x = fd /\ a_status x = Registered)) a <-> channels_ (poller w) !! fd = None.
Proof.
  intros R. split.
  - intros Hfree. destruct (channels_ (poller w) !! fd) as [d|] eqn:Hd; [|done]. exfalso.
    destruct (fits_registered _ _ _ _ (r_fits _ _ R) Hd) as (dh & Hdh & Hdfd).
    pose proof (r_channels _ _ R d) as Hdr. rewrite Hdh in Hdr.
    destruct (a !! d) as [z|] eqn:Hz; [|done]. destruct Hdr as (B1 & _ & _ & _ & B5 & _).
    apply (Hfree d z Hz). split; [congruence|]. apply B5. congruence.
  - intros Hn c x Hx [Ef Es]. destruct (refines_lookup _ _ _ _ R Hx) as (ch & _ & _ & _ & _ & _ & A & _).
    apply A in Es. rewrite Ef in Es. congruence.
Qed.

(** An operation on a channel does to another registry of the same world
    what it does to this one. *)
Lemma step_same a b a' o c (w : World P) : refines a w -> refines b w -> step a o = Some a' -> op_channel o = Some c ->
  a !! c = b !! c -> exists y, step b o = Some (<[c := y]> b) /\ a' = <[c := y]> a.
Proof.
  intros R R' Hs Hc Hab.
  assert (forall f, ask a c f = Some a' -> exists y, ask b c f = Some (<[c := y]> b) /\ a' = <[c := y]> a) as Hask.
  { intros f. unfold ask. rewrite <- Hab. destruct (a !! c) as [[fd ev []]|]; [|naive_solver|done..].
    rewrite (bool_decide_ext _ _ (free_fd a fd w R)), (bool_decide_ext _ _ (free_fd b fd w R')).
    destruct (_ && _)%bool; [|done]. naive_solver. }
  destruct o as [d|d|d|d|d|d|tm]; cbn [op_channel step] in *; [..|done]; injection Hc as <-; try (by apply Hask).
  rewrite <- Hab. destruct (a !! d) as [[fd ev []]|]; try done. destruct (ev =? 0); [|done]. naive_solver.
Qed.

(** What happens to one channel leaves the rest of any registry of the world
    as it is. *)
Definition framed (c : Z) (w w' : World P) : Prop := forall b y, refines b w -> b !! c = Some y ->
  exists y', refines (<[c := y']> b) w'.
Definition stable (c : Z) (w w' : World P) : Prop := kept (chans w) (chans w') /\ framed c w w'.

#[global] Instance framed_preorder c : PreOrder (framed c).
Proof.
  split.
  - intros w b y R Hy. exists y. by rewrite insert_id.
  - intros w w1 w2 H1 H2 b y R Hy. destruct (H1 b y R Hy) as [y1 R1].
    destruct (H2 _ y1 R1 (lookup_insert_eq _ _ _)) as [y2 R2]. exists y2. by rewrite insert_insert_eq in R2.
Qed.
#[global] Instance stable_preorder c : PreOrder (stable c).
Proof.
  split; [intros w; by split|]. intros w w1 w2 [K1 F1] [K2 F2].
  split; [by transitivity (chans w1)|by transitivity w1].
Qed.

Lemma refines_step_stable a a' o c (w : World P) : refines a w -> step a o = Some a' -> op_channel o = Some c ->
  wpe (eq Aborted) (exec o) (fun _ w' => refines a' w' /\ stable c w w') w.
Proof.
  intros R Hs Hc. pose proof (refines_step a a' o w R Hs) as Hw.
  assert (forall b y, refines b w -> b !! c = Some y ->
    wpe (eq Aborted) (exec o) (fun _ w' => exists y', refines (<[c := y']> b) w') w) as Hf.
  { intros b y R' Hy. pose proof (r_channels _ _ R c) as Hac. pose proof (r_channels _ _ R' c) as Hbc.
    rewrite Hy in Hbc. destruct (chans w !! c) as [ch|]; [|done]. destruct (a !! c) as [x|] eqn:Hx; [|done].
    destruct (step_same a (<[c := x]> b) a' o c w R (refines_mix a b w c x R R' Hx) Hs Hc) as (z & Hz & _).
    { by rewrite lookup_insert_eq. }
    eapply wpe_mono; [refine (refines_step _ _ o w (refines_mix a b w c x R R' Hx) Hz)|]. cbn.
    intros _ w' [R2 _]. exists z. by rewrite insert_insert_eq in R2. }
  unfold wpe in *. destruct (exec o w) as [[[] w']|e]; [|done]. destruct Hw as [Hw Hk]. split; [done|].
  split; [apply Hk; by destruct o|]. intros b y R' Hy. exact (Hf b y R' Hy).
Qed.

(** Writing a channel's flags, callbacks or returned events. *)
Lemma refines_write a (w : World P) c ch f : refines a w -> chans w !! c = Some ch ->
  fd_ (f ch) = fd_ ch -> index_ (f ch) = index_ ch -> events_ (f ch) = events_ ch ->
  refines a (set_chans (<[c := f ch]> (chans w)) w).
Proof.
  intros R Hc E1 E2 E3. constructor; cbn; [|intros d|apply R].
  - by apply fits_write; [apply R|..].
  - pose proof (r_channels _ _ R d) as Hd. rewrite lookup_insert. case_decide; [subst d|done].
    rewrite Hc in Hd. destruct (a !! c) as [x|]; [|done]. destruct Hd as (A1 & A2 & A3 & A4 & A5 & A6).
    split; [congruence|]. split; [done|]. split; [congruence|]. split; [done|]. split; [done|]. rewrite E2. done.
Qed.

Lemma stable_write (w : World P) c ch f : chans w !! c = Some ch ->
  fd_ (f ch) = fd_ ch -> index_ (f ch) = index_ ch -> events_ (f ch) = events_ ch -> same_dispatch ch (f ch) ->
  stable c w (set_chans (<[c := f ch]> (chans w)) w).
Proof.
  intros Hc E1 E2 E3 E4. split; [by eapply kept_write|]. intros b y R Hy. exists y. rewrite insert_id by done.
  by eapply refines_write.
Qed.

(** The other channels keep their callbacks and their place in the registry. *)
Definition beside (c : Z) (w w' : World P) : Prop := framed c w w' /\
  forall d ch, d <> c -> chans w !! d = Some ch -> exists ch', chans w' !! d = Some ch' /\ same_dispatch ch ch'.

#[global] Instance beside_preorder c : PreOrder (beside c).
Proof.
  split; [intros w; split; [done|intros d ch _ Hd; by exists ch]|]. intros w w1 w2 [F1 K1] [F2 K2].
  split; [by transitivity w1|]. intros d ch Hne Hd. destruct (K1 d ch Hne Hd) as (ch1 & Hd1 & E1).
  destruct (K2 d ch1 Hne Hd1) as (ch2 & Hd2 & E2). exists ch2. split; [done|]. by transitivity ch1.
Qed.

Lemma stable_beside c (w w' : World P) : stable c w w' -> beside c w w'.
Proof. intros [K F]. split; [done|]. intros d ch _. apply K. Qed.

Lemma beside_write (w : World P) c ch f : chans w !! c = Some ch ->
  fd_ (f ch) = fd_ ch -> index_ (f ch) = index_ ch -> events_ (f ch) = events_ ch ->
  beside c w (set_chans (<[c := f ch]> (chans w)) w).
Proof.
  intros Hc E1 E2 E3. split.
  - intros b y R Hy. exists y. rewrite insert_id by done. by eapply refines_write.
  - intros d dh Hne Hd. exists dh. split; [|done]. cbn. by rewrite lookup_insert_ne.
Qed.

(** A new channel under a descriptor that is not registered. *)
Lemma refines_new a (w : World P) c ch fd : refines a w -> chans w !! c = None ->
  fd_ ch = fd -> events_ ch = 0 -> index_ ch = -1 -> 0 <= fd < INT_MAX -> channels_ (poller w) !! fd = None ->
  refines (<[c := AChan fd 0 Fresh]> a) (set_chans (<[c := ch]> (chans w)) w).
Proof.
  intros R Hc E1 E2 E3 Hfd Hfree. pose proof (r_channels _ _ R c) as Hac. rewrite Hc in Hac.
  destruct (a !! c) as [x|] eqn:Ha; [done|]. constructor; cbn.
  - apply fits_new; [apply R|done].
  - intros d. rewrite !lookup_insert. case_decide; [|apply R]. unfold agrees. cbn. rewrite Hfree. naive_solver lia.
  - intros fd' d ev Hev. rewrite (r_interest _ _ R fd' d ev Hev).
    split; intros (z & Hz & Hw & Hr); exists z; (split; [|done]).
    + rewrite lookup_insert_ne; [done|congruence].
    + rewrite lookup_insert in Hz. case_decide; [|done]. injection Hz as <-. by destruct Hw.
Qed.

(** What happens to [c] registers no other descriptor than its own. *)
Lemma framed_free c (w w' : World P) a a' x x' fd : framed c w w' -> refines a w -> a !! c = Some x ->
  refines a' w' -> a' !! c = Some x' -> a_fd x' <> fd ->
  channels_ (poller w) !! fd = None -> channels_ (poller w') !! fd = None.
Proof.
  intros HF R Hx R' Hx' Hne Hfree. destruct (HF a x R Hx) as [y R2].
  apply (free_fd a fd w R) in Hfree. apply (free_fd _ fd w' R2). intros d z Hz. rewrite lookup_insert in Hz.
  case_decide; [|by apply (Hfree d)]. subst d. injection Hz as <-.
  destruct (refines_same _ _ _ c y x' R2 R' (lookup_insert_eq _ _ _) Hx') as (E & _). rewrite E. naive_solver.
Qed.

(** What is registered, read in the registry. *)
Lemma refines_registered a (w : World P) fd d : refines a w ->
  channels_ (poller w) !! fd = Some d <-> exists z, a !! d = Some z /\ a_fd z = fd /\ a_status z = Registered.
Proof.
  intros R. split.
  - intros Hd. destruct (fits_registered _ _ _ _ (r_fits _ _ R) Hd) as (dh & Hdh & Hfd).
    pose proof (r_channels _ _ R d) as Hr. rewrite Hdh in Hr. destruct (a !! d) as [z|]; [|done].
    destruct Hr as (A1 & _ & _ & _ & A5 & _). exists z. split; [done|]. split; [congruence|]. apply A5. congruence.
  - intros (z & Hz & <- & Hs). destruct (refines_lookup _ _ _ _ R Hz) as (? & _ & _ & _ & _ & _ & A & _). by apply A.
Qed.

(** Nor does it take one from another channel or give one to it. *)
Lemma framed_registered c d (w w' : World P) a x fd : framed c w w' -> refines a w -> a !! c = Some x -> d <> c ->
  channels_ (poller w) !! fd = Some d <-> channels_ (poller w') !! fd = Some d.
Proof.
  intros HF R Hx Hne. destruct (HF a x R Hx) as [y R2].
  rewrite (refines_registered _ _ _ _ R), (refines_registered _ _ _ _ R2). by rewrite lookup_insert_ne.
Qed.

Lemma refines_steps l a a' (w : World P) : refines a w -> steps a l = Some a' ->
  wpe (eq Aborted) (for_each exec l) (fun _ w' => refines a' w') w.
Proof.
  revert a w. induction l as [|o l IH]; intros a w R Hs; cbn in *.
  - injection Hs as <-. by wp_steps.
  - destruct (step a o) as [a1|] eqn:Ho; [|done]. wp_steps.
    eapply wpe_mono; [by eapply refines_step|]. cbn. intros _ w' [R' _]. by eapply IH.
Qed.

Lemma refines_fresh loop fds p :
  map_Forall (fun _ fd => 0 <= fd < INT_MAX) fds ->
  fits (fresh_channels loop fds) p -> channels_ p = ∅ -> interest p = ∅ ->
  refines (fresh_registry fds) (mkWorld (fresh_channels loop fds) p).
Proof.
  intros Hfds Hfits Hm Hi. constructor; [done| |].
  - intros c. unfold fresh_registry, fresh_channels; cbn. rewrite !lookup_fmap.
    destruct (fds !! c) as [fd|] eqn:E; cbn; [|done]. specialize (Hfds c fd E).
    unfold agrees; cbn. rewrite Hm, lookup_empty. naive_solver lia.
  - intros fd c ev _. cbn. rewrite Hi, lookup_empty. split; [done|].
    intros (x & Hx & [Hw _] & _). unfold fresh_registry in Hx. rewrite lookup_fmap in Hx.
    destruct (fds !! c); [|done]. injection Hx as <-. done.
Qed.
End refinement.
End Registry.

(** ** The two implementations *)

(** C12: The epoll poller implements the registry: run on new channels, any
    sequence of channel operations the registry allows, with [poll] calls
    anywhere in between, fails no assertion and dereferences nothing it
    should not (a failing [epoll_ctl] aborts), and ends with the kernel
    watching exactly the registered channels that have an interest, each
    under its descriptor for its events. *)
Theorem epoll_refines {K} `{EPollPoller.EpollLaws K} loop (fds : gmap Z Z) (k : K) l a' :
  map_Forall (fun _ fd => 0 <= fd < INT_MAX) fds ->
  EPollPoller.epoll_set k = ∅ ->
  Registry.steps (Registry.fresh_registry fds) l = Some a' ->
  wpe (eq Aborted) (for_each Registry.exec l) (fun _ w' => Registry.refines a' w')
    (mkWorld (Registry.fresh_channels loop fds) (EPollPoller.init k)).
Proof.
  intros Hfds Hk Hl. eapply Registry.refines_steps; [|exact Hl]. apply Registry.refines_fresh; [done| |done|].
  - constructor; cbn; [set_solver|rewrite Hk; set_solver|]. by vm_compute.
  - cbn. unfold EPollPoller.interest; cbn. by rewrite Hk, fmap_empty.
Qed.

(** C15: The poll poller implements the registry too: the array position kept
    in each channel, the swap with the last entry on removal and the negated
    descriptor of an uninterested channel never make the array and the map
    disagree. *)
Theorem poll_refines {K} `{PollPoller.PollLaws K} loop (fds : gmap Z Z) (k : K) l a' :
  map_Forall (fun _ fd => 0 <= fd < INT_MAX) fds ->
  Registry.steps (Registry.fresh_registry fds) l = Some a' ->
  wpe (eq Aborted) (for_each Registry.exec l) (fun _ w' => Registry.refines a' w')
    (mkWorld (Registry.fresh_channels loop fds) (PollPoller.init k)).
Proof.
  intros Hfds Hl. eapply Registry.refines_steps; [|exact Hl]. apply Registry.refines_fresh; [done| |done|].
  - constructor; cbn; [set_solver|]. intros i pfd Hi. by rewrite lookup_nil in Hi.
  - cbn. apply map_eq. intros fd. unfold PollPoller.interest. rewrite map_lookup_imap. cbn. by rewrite !lookup_empty.
Qed.

(** A channel without interest that is told again to have none goes back
    into the epoll set with no events: the kernel then reports its errors and
    hang-ups to a channel that asked for nothing. *)
Theorem epoll_disableAll_twice {K} `{EPollPoller.EpollLaws K} c ch (w : World (EPollPoller.t K)) :
  EPollPoller.tables (chans w) (poller w) -> chans w !! c = Some ch ->
  EPollPoller.channels (poller w) !! fd_ ch = Some c -> index_ ch = EPollPoller.kDeleted ->
  EPollPoller.epoll_set (EPollPoller.kernel (poller w)) !! fd_ ch = None /\
  wpe (eq Aborted) (disableAll c) (fun _ w' =>
    EPollPoller.epoll_set (EPollPoller.kernel (poller w')) !! fd_ ch = Some (EPollPoller.mkEvent 0 c)) w.
Proof.
  intros HT Hc Hr Hi.
  destruct (EPollPoller.tables_cases _ _ _ _ HT Hc Hr) as [[E _]|[_ Hn]]; [by rewrite Hi in E|].
  split; [done|]. unfold disableAll, update. wp_steps. eapply wpe_write; [exact Hc|].
  wp_steps. eapply wpe_write; [apply lookup_insert_eq|]. cbn. rewrite insert_insert_eq.
  set (ch' := set_added true (set_events kNoneEvent ch)). set (w1 := set_chans _ _).
  assert (chans w1 !! c = Some ch') as Hc1 by apply lookup_insert_eq.
  unfold EPollPoller.updateChannel. wp_steps. eapply wpe_channel; [exact Hc1|].
  assert (index_ ch' = EPollPoller.kDeleted) as -> by (by destruct ch).
  cbn [EPollPoller.kNew EPollPoller.kDeleted Z.eqb Pos.eqb orb]. wp_steps.
  eapply EPollPoller.wpe_found; [exact Hr|]. apply EPollPoller.wpe_maps_to; [exact Hr|]. wp_steps.
  eapply wpe_write; [exact Hc1|]. eapply EPollPoller.wpe_update_add; [apply lookup_insert_eq|exact Hn|].
  intros k Hk. cbn. rewrite Hk. by rewrite lookup_insert_eq.
Qed.

(** ** Concrete kernels *)

Module Sample.
(** An epoll instance that reports [ready] (descriptor, events) forever. *)
Record ep : Type := mkEp { ep_set : gmap Z EPollPoller.epoll_event; ep_ready : list (Z * Z); ep_clock : Z }.
#[global] Instance ep_sys : EPollPoller.EpollSys ep := {
  EPollPoller.epoll_ctl k op fd e :=
    match ep_set k !! fd with
    | None => if op =? 1 then (mkEp (<[fd := e]> (ep_set k)) (ep_ready k) (ep_clock k), 0) else (k, -1)
    | Some _ =>
        if op =? 2 then (mkEp (delete fd (ep_set k)) (ep_ready k) (ep_clock k), 0)
        else if op =? 3 then (mkEp (<[fd := e]> (ep_set k)) (ep_ready k) (ep_clock k), 0)
        else (k, -1)
    end;
  EPollPoller.epoll_wait k n t :=
    (k, if (0 <? n) && (n <=? EPollPoller.EP_MAX_EVENTS) then
          inr (take (Z.to_nat n) (omap (fun x : Z * Z =>
            match ep_set k !! fst x with
            | Some e => if (0 <=? snd x) && (snd x <? 2 ^ 31)
                        then Some (EPollPoller.mkEvent (snd x) (EPollPoller.ev_ptr e)) else None
            | None => None
            end) (ep_ready k)))
        else inl 22);
  EPollPoller.time_now k := (mkEp (ep_set k) (ep_ready k) (ep_clock k + 1), ep_clock k);
  EPollPoller.epoll_set := ep_set }.

#[global] Instance ep_laws : EPollPoller.EpollLaws ep.
Proof.
  split.
  - intros k fd e Hn. cbn in *. rewrite Hn. cbn. left. done.
  - intros k fd e [x Hx]. cbn in *. rewrite Hx. done.
  - intros k fd e [x Hx]. cbn in *. rewrite Hx. done.
  - intros k n t. cbn. split; [done|]. destruct (_ && _) eqn:E; [|done]. to_prop. split; [done|].
    split; [unfold Zlen; rewrite length_take; lia|]. intros e He.
    apply elem_of_take in He as (i & Hi & _). apply list_elem_of_lookup_2 in Hi.
    apply list_elem_of_omap in Hi as ([fd ev] & _ & Hx). cbn in Hx.
    destruct (ep_set k !! fd) as [e'|] eqn:He'; [|done]. case_match eqn:Hr; [|done]. injection Hx as <-.
    to_prop. split; [cbn; lia|]. exists fd, e'. done.
  - done.
Qed.

(** A poll(2) that reports [po_ready] forever. *)
Record po : Type := mkPo { po_ready : gmap Z Z; po_clock : Z }.
Definition po_answer (k : po) (p : PollPoller.pollfd) : PollPoller.pollfd :=
  PollPoller.mkPollfd (PollPoller.p_fd p) (PollPoller.p_events p)
    (if PollPoller.p_fd p <? 0 then 0 else default 0 (po_ready k !! PollPoller.p_fd p) mod 2 ^ 15).
#[global] Instance po_sys : PollPoller.PollSys po := {
  PollPoller.poll_call k l t :=
    (k, Zlen (filter (fun p => PollPoller.p_revents p <> 0) (po_answer k <$> l)), po_answer k <$> l);
  PollPoller.time_now k := (mkPo (po_ready k) (po_clock k + 1), po_clock k) }.

#[global] Instance po_laws : PollPoller.PollLaws po.
Proof.
  split. intros k l t. cbn. split; [apply length_fmap|]. split; [|split; [done|]].
  - intros H. pose proof (Zlen_nonneg (filter (fun p => PollPoller.p_revents p <> 0) (po_answer k <$> l))). lia.
  - intros i p Hp. rewrite list_lookup_fmap, Hp. eexists. split; [reflexivity|].
    case_match; [lia|]. to_prop. split; [apply Z.mod_pos_bound; lia|lia].
Qed.

Definition fds : gmap Z Z := {[ 100 := 5; 200 := 6; 300 := 7 ]}.
Definition ops : list Registry.op :=
  [Registry.EnableReading 100; Registry.EnableReading 200; Registry.Poll 0; Registry.EnableWriting 300;
   Registry.DisableAll 100; Registry.Remove 100; Registry.EnableWriting 200; Registry.DisableReading 200;
   Registry.Poll 10].
Definition final : gmap Z Registry.achan :=
  {[ 100 := Registry.AChan 5 0 Registry.Removed; 200 := Registry.AChan 6 4 Registry.Registered;
     300 := Registry.AChan 7 4 Registry.Registered ]}.

Lemma fds_ok : map_Forall (fun _ fd => 0 <= fd < INT_MAX) fds.
Proof. apply (bool_decide_unpack _). by vm_compute. Qed.
End Sample.

Lemma epoll_refines_witness : exists w',
  for_each Registry.exec Sample.ops
    (mkWorld (Registry.fresh_channels 1 Sample.fds) (EPollPoller.init (Sample.mkEp ∅ [(5, 1); (7, 4)] 0))) =
    Ok (tt, w') /\ Registry.refines Sample.final w'.
Proof.
  eexists. split; [vm_compute; reflexivity|].
  refine (wpe_elim _ _ _ _ _ _ (epoll_refines 1 Sample.fds (Sample.mkEp ∅ [(5, 1); (7, 4)] 0) Sample.ops
    Sample.final Sample.fds_ok eq_refl _) _); vm_compute; reflexivity.
Defined.

Lemma poll_refines_witness : exists w',
  for_each Registry.exec Sample.ops
    (mkWorld (Registry.fresh_channels 1 Sample.fds) (PollPoller.init (Sample.mkPo {[ 5 := 1; 7 := 4 ]} 0))) =
    Ok (tt, w') /\ Registry.refines Sample.final w'.
Proof.
  eexists. split; [vm_compute; reflexivity|].
  refine (wpe_elim _ _ _ _ _ _ (poll_refines 1 Sample.fds (Sample.mkPo {[ 5 := 1; 7 := 4 ]} 0) Sample.ops
    Sample.final Sample.fds_ok _) _); vm_compute; reflexivity.
Defined.

Definition ignored_world : World (EPollPoller.t Sample.ep) :=
  mkWorld {[ 100 := set_index 2 (Channel_new 1 5) ]}
    (EPollPoller.mk {[ 5 := 100 ]} (replicate 64 (EPollPoller.mkEvent 0 0)) (Sample.mkEp ∅ [] 0)).

Lemma epoll_disableAll_twice_witness : exists w',
  disableAll 100 ignored_world = Ok (tt, w') /\
  Sample.ep_set (EPollPoller.kernel (poller w')) !! 5 = Some (EPollPoller.mkEvent 0 100).
Proof.
  assert (EPollPoller.tables (chans ignored_world) (poller ignored_world)) as HT.
  { split.
    - intros fd c Hc. change (({[5 := 100]} : gmap Z Z) !! fd = Some c) in Hc.
      apply lookup_singleton_Some in Hc as [<- <-]. eexists. repeat split.
    - intros fd e He. change ((∅ : gmap Z EPollPoller.epoll_event) !! fd = Some e) in He.
      by rewrite lookup_empty in He.
    - vm_compute. split; congruence. }
  pose proof (proj2 (epoll_disableAll_twice 100 (set_index 2 (Channel_new 1 5)) ignored_world HT
    eq_refl eq_refl eq_refl)) as H.
  unfold wpe in H. destruct (disableAll 100 ignored_world) as [[[] w']|e] eqn:E; [by exists w'|].
  vm_compute in E. congruence.
Defined.

(** The poll poller leaves a removed channel its old position: enabling
    the channel again overwrites the entry of the channel that was moved
    there, which is watched no more. *)
Theorem poll_reregister_overwrites :
  let w0 := mkWorld (Registry.fresh_channels 1 Sample.fds) (PollPoller.init (Sample.mkPo ∅ 0)) in
  exists w1 w2,
    (enableReading 100 ;;; enableReading 200 ;;; disableAll 100 ;;; remove 100) w0 = Ok (tt, w1) /\
    interest (poller w1) !! 6 = Some (200, 3) /\
    enableReading 100 w1 = Ok (tt, w2) /\
    interest (poller w2) !! 6 = None /\ hasChannel 100 w2 = Ok (false, w2).
Proof.
  eexists _, _. split; [vm_compute; reflexivity|]. split; [vm_compute; reflexivity|].
  split; [vm_compute; reflexivity|]. split; vm_compute; reflexivity.
Qed.
