(* ===== verification/EventLoop.v ===== *)
(** * The event loop (EventLoop.h, EventLoop.c++)

    [Module EventLoop]: [loop()], [quit()], [queueInLoop()], [runInLoop()],
    [wakeup()] and [doPendingFunctors()] as a transition system of the loop's
    thread and any number of other threads.  A step is what a thread does
    between two points where another can interfere: a critical section of
    [mutex_], a read or write of the eventfd, of [quit_], of
    [callingPendingFunctors_].  The system is executable: [step] takes the
    scheduler's choice.

    [Module Reactor]: what [loop()] does with the channels that the poller
    reports. *)
From S2P Require Import Prelude Channel EPollPoller PollPoller Pollers.

Module EventLoop.

(** A [Functor] is a number; what its body asks of the loop is an [act]. *)
Inductive act : Type :=
| QueueInLoop (f : Z)
| RunInLoop (f : Z)
| Quit.

(** What the loop's thread still has to do for the current callback. *)
Inductive instr : Type :=
| Push (f : Z)                (* the critical section of queueInLoop *)
| WakeupIfCalling             (* the test that follows it *)
| Call (f : Z)                (* runInLoop: cb() *)
| StoreQuit                   (* quit_ = true *)
| ReadWakeupFd.               (* EventLoop::handleRead *)

(** Where the loop's thread is. *)
Inductive pc : Type :=
| Before (todo : list instr)            (* loop() not entered *)
| Check                               (* while (!quit_) *)
| Polling                             (* poller_->poll(...) *)
| Events (todo : list instr)            (* the handleEvent calls *)
| Swap                                (* doPendingFunctors *)
| Functors (todo : list instr) (rest : list Z)
| Exited.

(** An active channel: the wakeup channel, or one whose callback is [f]. *)
Inductive active : Type := WakeupChannel | UserChannel (f : Z).
#[export] Instance active_eq_dec : EqDecision active.
Proof. solve_decision. Defined.

Record t : Type := mk {
  looping_ : bool;
  quit_ : bool;
  eventHandling_ : bool;
  callingPendingFunctors_ : bool;
  iteration_ : Z;
  pendingFunctors_ : list Z;
  wakeupFd_ : Z;              (* the counter of the eventfd *)
  at_ : pc;
  waking : gset Z;            (* other threads about to call wakeup() *)
  pushed : list Z;            (* every functor ever queued, in order *)
  started : list Z }.         (* every queued functor run, in order *)

Definition set_pc v s := mk (looping_ s) (quit_ s) (eventHandling_ s) (callingPendingFunctors_ s) (iteration_ s)
  (pendingFunctors_ s) (wakeupFd_ s) v (waking s) (pushed s) (started s).
Definition set_quit v s := mk (looping_ s) v (eventHandling_ s) (callingPendingFunctors_ s) (iteration_ s)
  (pendingFunctors_ s) (wakeupFd_ s) (at_ s) (waking s) (pushed s) (started s).
Definition set_looping v s := mk v (quit_ s) (eventHandling_ s) (callingPendingFunctors_ s) (iteration_ s)
  (pendingFunctors_ s) (wakeupFd_ s) (at_ s) (waking s) (pushed s) (started s).
Definition set_handling v s := mk (looping_ s) (quit_ s) v (callingPendingFunctors_ s) (iteration_ s)
  (pendingFunctors_ s) (wakeupFd_ s) (at_ s) (waking s) (pushed s) (started s).
Definition set_calling v s := mk (looping_ s) (quit_ s) (eventHandling_ s) v (iteration_ s)
  (pendingFunctors_ s) (wakeupFd_ s) (at_ s) (waking s) (pushed s) (started s).
Definition set_iteration v s := mk (looping_ s) (quit_ s) (eventHandling_ s) (callingPendingFunctors_ s) v
  (pendingFunctors_ s) (wakeupFd_ s) (at_ s) (waking s) (pushed s) (started s).
Definition set_pending v s := mk (looping_ s) (quit_ s) (eventHandling_ s) (callingPendingFunctors_ s) (iteration_ s)
  v (wakeupFd_ s) (at_ s) (waking s) (pushed s) (started s).
Definition set_counter v s := mk (looping_ s) (quit_ s) (eventHandling_ s) (callingPendingFunctors_ s) (iteration_ s)
  (pendingFunctors_ s) v (at_ s) (waking s) (pushed s) (started s).
Definition set_waking v s := mk (looping_ s) (quit_ s) (eventHandling_ s) (callingPendingFunctors_ s) (iteration_ s)
  (pendingFunctors_ s) (wakeupFd_ s) (at_ s) v (pushed s) (started s).

(** The constructor: quiet, the eventfd at zero. *)
Definition init : t := mk false false false false 0 [] 0 (Before []) ∅ [] [].

(** eventfd(2): a write that would pass the maximum fails (EAGAIN, logged). *)
Definition wakeup (s : t) : t :=
  if wakeupFd_ s + 1 <=? 2 ^ 64 - 2 then set_counter (wakeupFd_ s + 1) s else s.
Definition handleRead (s : t) : t := set_counter 0 s.

Definition push (f : Z) (s : t) : t :=
  mk (looping_ s) (quit_ s) (eventHandling_ s) (callingPendingFunctors_ s) (iteration_ s)
    (pendingFunctors_ s ++ [f]) (wakeupFd_ s) (at_ s) (waking s) (pushed s ++ [f]) (started s).
Definition start (f : Z) (s : t) : t :=
  mk (looping_ s) (quit_ s) (eventHandling_ s) (callingPendingFunctors_ s) (iteration_ s)
    (pendingFunctors_ s) (wakeupFd_ s) (at_ s) (waking s) (pushed s) (started s ++ [f]).

(** A call made by the loop's thread. *)
Definition own_call (a : act) : list instr :=
  match a with
  | QueueInLoop f => [Push f; WakeupIfCalling]
  | RunInLoop f => [Call f]
  | Quit => [StoreQuit]
  end.

(** The scheduler: the loop's thread makes its next step ([poll] returning
    the channels [ready], none when it times out), enters [loop()], makes a
    call before that; another thread makes the call [a] up to its wakeup, or
    does the wakeup. *)
Inductive choice : Type :=
| Own (ready : list active)
| EnterLoop
| OwnCall (a : act)
| Other (tid : Z) (a : act)
| OtherWakeup (tid : Z).

Section system.
(** What the functors do. *)
Context (body : Z -> list act).

Definition call_body (f : Z) : list instr := concat (own_call <$> body f).

(** One instruction of the loop's thread; the instructions it expands to
    come first. *)
Definition exec_instr (i : instr) (s : t) : list instr * t :=
  match i with
  | Push f => ([], push f s)
  | WakeupIfCalling => ([], if callingPendingFunctors_ s then wakeup s else s)
  | Call f => (call_body f, s)
  | StoreQuit => ([], set_quit true s)
  | ReadWakeupFd => ([], handleRead s)
  end.

Definition handle (a : active) : list instr :=
  match a with WakeupChannel => [ReadWakeupFd] | UserChannel f => call_body f end.

Definition own_step (ready : list active) (s : t) : option t :=
  match at_ s with
  | Before [] => None
  | Before (i :: todo) => let '(js, s') := exec_instr i s in Some (set_pc (Before (js ++ todo)) s')
  | Check => Some (if quit_ s then set_looping false (set_pc Exited s) else set_pc Polling s)
  | Polling =>
      (* level-triggered: a nonzero eventfd ends the wait, a zero one is
         not reported *)
      if bool_decide (WakeupChannel ∈ ready) && (wakeupFd_ s =? 0) then None
      else if bool_decide (ready = []) && (0 <? wakeupFd_ s) then None
      else Some (set_handling true (set_iteration (iteration_ s + 1)
                  (set_pc (Events (concat (handle <$> ready))) s)))
  | Events [] => Some (set_calling true (set_handling false (set_pc Swap s)))
  | Events (i :: todo) => let '(js, s') := exec_instr i s in Some (set_pc (Events (js ++ todo)) s')
  | Swap => Some (set_pc (Functors [] (pendingFunctors_ s)) (set_pending [] s))
  | Functors [] [] => Some (set_calling false (set_pc Check s))
  | Functors [] (f :: fs) => Some (set_pc (Functors (call_body f) fs) (start f s))
  | Functors (i :: todo) fs => let '(js, s') := exec_instr i s in Some (set_pc (Functors (js ++ todo) fs) s')
  | Exited => None
  end.

Definition step (c : choice) (s : t) : option t :=
  match c with
  | Own ready => own_step ready s
  | EnterLoop =>
      match at_ s with
      | Before [] => Some (set_quit false (set_looping true (set_pc Check s)))
      | _ => None
      end
  | OwnCall a =>
      match at_ s with
      | Before [] => Some (set_pc (Before (own_call a)) s)
      | _ => None
      end
  | Other tid a =>
      if bool_decide (tid ∈ waking s) then None
      else let s := match a with
                    | QueueInLoop f | RunInLoop f => push f s
                    | Quit => set_quit true s
                    end in
           Some (set_waking ({[tid]} ∪ waking s) s)
  | OtherWakeup tid =>
      if bool_decide (tid ∈ waking s) then Some (wakeup (set_waking (waking s ∖ {[tid]}) s)) else None
  end.

Fixpoint run (l : list choice) (s : t) : option t :=
  match l with
  | [] => Some s
  | c :: l => match step c s with Some s' => run l s' | None => None end
  end.
End system.

Definition queueSize (s : t) : Z := Zlen (pendingFunctors_ s).

(** ** Invariants *)

(** Someone is about to make the eventfd readable. *)
Definition woken (s : t) : Prop := 0 < wakeupFd_ s \/ waking s <> ∅.

(** The functors taken out of the queue and not yet run. *)
Definition taken (s : t) : list Z := match at_ s with Functors _ fs => fs | _ => [] end.

(** In each place of the loop, why no queued functor waits behind a blocking
    [poll]. *)
Definition not_lost (s : t) : Prop :=
  pendingFunctors_ s = [] \/
  match at_ s with
  | Check | Polling => woken s
  | Functors todo _ => woken s \/ WakeupIfCalling ∈ todo
  | Before _ | Events _ | Swap | Exited => True
  end.

(** Each [Push] is followed by the test for the wakeup. *)
Fixpoint paired (l : list instr) : bool :=
  match l with
  | [] => true
  | Push _ :: l => match l with WakeupIfCalling :: l => paired l | _ => false end
  | _ :: l => paired l
  end.

Lemma paired_app l k : paired l = true -> paired k = true -> paired (l ++ k) = true.
Proof.
  intros Hl Hk. remember (length l) as n eqn:Hn. revert l Hl Hn.
  induction (Nat.lt_wf_0 n) as [n _ IH]. intros [|i l] Hl ->; [done|].
  assert (forall l', (length l' < S (length l))%nat -> paired l' = true -> paired (l' ++ k) = true) as G.
  { intros l' Hlt Hl'. by eapply (IH (length l')). }
  destruct i; cbn in Hl |- *; [destruct l as [|[] l]; try done|..]; apply G; cbn; auto with lia.
Qed.

Record inv (s : t) : Prop := {
  inv_counter : 0 <= wakeupFd_ s <= 2 ^ 64 - 2;
  inv_calling : callingPendingFunctors_ s = match at_ s with Swap | Functors _ _ => true | _ => false end;
  inv_handling : eventHandling_ s = match at_ s with Events _ => true | _ => false end;
  inv_looping : looping_ s = match at_ s with Before _ | Exited => false | _ => true end;
  inv_fifo : pushed s = started s ++ taken s ++ pendingFunctors_ s;
  inv_iteration : 0 <= iteration_ s;
  inv_read : match at_ s with Functors todo _ => ReadWakeupFd ∉ todo | _ => True end;
  inv_paired : match at_ s with
               | Before todo | Events todo | Functors todo _ => paired todo = true
               | _ => True
               end }.

Lemma wakeup_woken s : 0 <= wakeupFd_ s -> 0 < wakeupFd_ (wakeup s).
Proof. unfold wakeup. destruct (Z.leb_spec (wakeupFd_ s + 1) (2 ^ 64 - 2)); cbn; lia. Qed.

Lemma wakeup_counter s : exists v, wakeup s = set_counter v s.
Proof.
  unfold wakeup. destruct (_ <=? _); [by eexists|]. exists (wakeupFd_ s). by destruct s.
Qed.

Section proofs.
Context (body : Z -> list act).

Lemma call_body_no_read f : ReadWakeupFd ∉ call_body body f.
Proof.
  unfold call_body. rewrite list_elem_of_In, in_concat. intros (l & Hl & Hin).
  apply list_elem_of_In, list_elem_of_fmap in Hl as (a & -> & _). apply list_elem_of_In in Hin.
  destruct a; cbn in Hin; set_solver.
Qed.

Lemma call_body_paired f : paired (call_body body f) = true.
Proof.
  unfold call_body. induction (body f) as [|a l IH]; [done|]. cbn. apply paired_app; [by destruct a|done].
Qed.

(** What one instruction changes: the queue grows, the counter moves. *)
Lemma exec_instr_spec i s js s' : exec_instr body i s = (js, s') -> 0 <= wakeupFd_ s <= 2 ^ 64 - 2 ->
  at_ s' = at_ s /\ waking s' = waking s /\ callingPendingFunctors_ s' = callingPendingFunctors_ s /\
  eventHandling_ s' = eventHandling_ s /\ looping_ s' = looping_ s /\ started s' = started s /\
  iteration_ s' = iteration_ s /\ 0 <= wakeupFd_ s' <= 2 ^ 64 - 2 /\
  (exists new, pushed s' = pushed s ++ new /\ pendingFunctors_ s' = pendingFunctors_ s ++ new /\
     (new <> [] -> exists f, i = Push f)) /\
  (i <> ReadWakeupFd -> wakeupFd_ s <= wakeupFd_ s') /\
  (i = WakeupIfCalling -> callingPendingFunctors_ s = true -> 0 < wakeupFd_ s') /\
  ReadWakeupFd ∉ js /\ (quit_ s = true -> quit_ s' = true).
Proof.
  intros E Hc. destruct i; cbn in E; injection E as <- <-.
  - cbn. do 8 (split; [done|]). split; [exists [f]; naive_solver|]. split; [lia|]. split; [done|].
    split; [apply not_elem_of_nil|done].
  - destruct (callingPendingFunctors_ s) eqn:Ec; cbn; rewrite ?Ec.
    + pose proof (wakeup_woken s ltac:(lia)) as Hw.
      assert (wakeupFd_ (wakeup s) <= 2 ^ 64 - 2 /\ wakeupFd_ s <= wakeupFd_ (wakeup s)) as Hr.
      { unfold wakeup. destruct (Z.leb_spec (wakeupFd_ s + 1) (2 ^ 64 - 2)); cbn; lia. }
      destruct (wakeup_counter s) as [v Ev].
      rewrite Ev in *; cbn in *. do 2 (split; [done|]). split; [done|]. do 4 (split; [done|]). split; [lia|].
      split; [exists []; rewrite !app_nil_r; naive_solver|]. split; [lia|]. split; [done|].
      split; [apply not_elem_of_nil|done].
    + do 8 (split; [done|]). split; [exists []; rewrite !app_nil_r; naive_solver|]. split; [lia|].
      split; [done|]. split; [apply not_elem_of_nil|done].
  - do 8 (split; [done|]). split; [exists []; rewrite !app_nil_r; naive_solver|]. split; [lia|].
    split; [done|]. split; [apply call_body_no_read|done].
  - cbn. do 8 (split; [done|]). split; [exists []; rewrite !app_nil_r; naive_solver|]. split; [lia|].
    split; [done|]. split; [apply not_elem_of_nil|done].
  - cbn. do 7 (split; [done|]). split; [lia|]. split; [exists []; rewrite !app_nil_r; naive_solver|].
    split; [done|]. split; [done|]. split; [apply not_elem_of_nil|done].
Qed.

(** The loop's thread runs one instruction of a callback. *)
Lemma inv_instr i todo js s s' (k : list instr -> pc) :
  exec_instr body i s = (js, s') -> inv s -> at_ s = k (i :: todo) ->
  (k = Before \/ k = Events \/ exists fs, k = fun todo => Functors todo fs) ->
  inv (set_pc (k (js ++ todo)) s').
Proof.
  intros E [I1 I2 I3 I4 I5 I6 I7 I8] Hat Hk.
  destruct (exec_instr_spec _ _ _ _ E I1) as (_ & _ & E3 & E4 & E5 & E6 & E7 & E8 & (new & E9 & E10 & _) & _ & _ & E13 & _).
  unfold taken in I5. rewrite Hat in *.
  assert (paired (i :: todo) = true -> paired (js ++ todo) = true) as Hp.
  { clear -E. intros Hp. destruct i; cbn in E; injection E as <- _; cbn in Hp |- *; try done.
    - by destruct todo as [|[] todo].
    - apply paired_app; [apply call_body_paired|done]. }
  destruct Hk as [->|[->|[fs ->]]]; constructor; cbn; rewrite ?E3, ?E4, ?E5, ?E7; try done.
  all: try (rewrite E9, E10, E6, I5; unfold taken; cbn; by rewrite <- ?app_assoc).
  all: try by apply Hp.
  set_solver.
Qed.

Lemma not_lost_instr i todo js s s' (k : list instr -> pc) :
  exec_instr body i s = (js, s') -> inv s -> not_lost s -> at_ s = k (i :: todo) ->
  (k = Events \/ exists fs, k = fun todo => Functors todo fs) ->
  not_lost (set_pc (k (js ++ todo)) s').
Proof.
  intros E Hi Hn Hat Hk. unfold not_lost.
  destruct Hk as [->|[fs ->]]; [by right|]. unfold not_lost in Hn. destruct Hi as [I1 I2 _ _ _ _ I7 I8]. rewrite Hat in *.
  destruct (exec_instr_spec _ _ _ _ E I1) as (_ & E2 & E3 & _ & _ & _ & _ & E8 & (new & _ & E10 & E11) & E12 & E12' & _).
  cbn [set_pc at_ pendingFunctors_]. unfold woken in *; cbn [set_pc wakeupFd_ waking].
  assert (i <> ReadWakeupFd) as Hread by set_solver. specialize (E12 Hread).
  destruct (decide (new = [])) as [->|Hnew].
  - rewrite app_nil_r in E10. rewrite E10. destruct Hn as [->|[[Hw|Hw]|Hin]]; [by left|right..].
    + left. left. lia.
    + left. right. by rewrite E2.
    + apply elem_of_cons in Hin as [<-|Hin]; [|right; set_solver]. left. left. by apply E12'.
  - destruct (E11 Hnew) as [f ->]. right. right. 
    cbn in I8. destruct todo as [|[] todo]; try done. set_solver.
Qed.

Lemma inv_wakeup s : inv s -> inv (wakeup s).
Proof.
  intros [I1 I2 I3 I4 I5 I6 I7 I8]. unfold wakeup.
  destruct (Z.leb_spec (wakeupFd_ s + 1) (2 ^ 64 - 2)); [|done]. constructor; cbn; auto. lia.
Qed.

Lemma inv_step c s s' : step body c s = Some s' -> inv s -> inv s'.
Proof.
  intros Hs Hi. pose proof Hi as [I1 I2 I3 I4 I5 I6 I7 I8]. unfold taken in I5.
  destruct c as [ready| |a|tid a|tid]; cbn [step] in Hs.
  - unfold own_step in Hs. destruct (at_ s) as [[|i todo]| | |[|i todo]| |[|i todo] [|f fs]|] eqn:Hat; try done.
    + destruct (exec_instr body i s) as [js s1] eqn:E. injection Hs as <-. eapply (inv_instr _ _ _ _ _ Before); eauto.
    + injection Hs as <-. destruct (quit_ s); constructor; cbn; auto; by rewrite I5.
    + case_match; [done|]. case_match; [done|]. injection Hs as <-. constructor; cbn; auto with lia.
      clear. induction ready as [|a ready IH]; cbn; [done|]. apply paired_app; [|done].
      destruct a; cbn; [done|apply call_body_paired].
    + injection Hs as <-. constructor; cbn; auto; by rewrite I5.
    + destruct (exec_instr body i s) as [js s1] eqn:E. injection Hs as <-. eapply (inv_instr _ _ _ _ _ Events); eauto.
    + injection Hs as <-. constructor; cbn; auto; try set_solver; rewrite I5; by rewrite app_nil_r.
    + injection Hs as <-. constructor; cbn; auto; by rewrite I5.
    + injection Hs as <-. constructor; cbn; auto.
      * rewrite I5. unfold taken; cbn. by rewrite <- app_assoc.
      * apply call_body_no_read.
      * apply call_body_paired.
    + destruct (exec_instr body i s) as [js s1] eqn:E. injection Hs as <-.
      eapply (inv_instr _ _ _ _ _ (fun todo => Functors todo [])); eauto.
    + destruct (exec_instr body i s) as [js s1] eqn:E. injection Hs as <-.
      eapply (inv_instr _ _ _ _ _ (fun todo => Functors todo (f :: fs))); eauto.
  - destruct (at_ s) as [[]| | | | | |] eqn:Hat; try done. injection Hs as <-.
    constructor; cbn; auto; by rewrite ?I2, ?I3, ?I5.
  - destruct (at_ s) as [[]| | | | | |] eqn:Hat; try done. injection Hs as <-.
    constructor; cbn; auto; by destruct a.
  - case_bool_decide; [done|]. injection Hs as <-.
    destruct a; constructor; cbn; auto; rewrite I5; unfold taken; cbn; by rewrite <- ?app_assoc.
  - case_bool_decide; [|done]. injection Hs as <-. apply inv_wakeup. by constructor; cbn.
Qed.

(** While the loop runs, no step loses a wakeup. *)
Lemma not_lost_step c s s' : step body c s = Some s' -> inv s ->
  (forall todo, at_ s <> Before todo) -> not_lost s -> not_lost s' /\ (forall todo, at_ s' <> Before todo).
Proof.
  intros Hs Hi Hb Hn. pose proof Hi as [I1 I2 I3 I4 I5 I6 I7 I8].
  destruct c as [ready| |a|tid a|tid]; cbn [step] in Hs.
  - unfold own_step in Hs. destruct (at_ s) as [todo| | |[|i todo]| |[|i todo] [|f fs]|] eqn:Hat; try done.
    + by destruct (Hb todo).
    + injection Hs as <-. unfold not_lost in *. rewrite Hat in *. destruct (quit_ s); cbn; (split; [|done]).
      * by right.
      * exact Hn.
    + case_match; [done|]. case_match; [done|]. injection Hs as <-. split; [by right|done].
    + injection Hs as <-. split; [by right|done].
    + destruct (exec_instr body i s) as [js s1] eqn:E. injection Hs as <-. split; [by right|done].
    + injection Hs as <-. split; [by left|done].
    + injection Hs as <-. split; [|done]. unfold not_lost in *. rewrite Hat in *. cbn.
      destruct Hn as [?|[?|Hin]]; [by left|by right|]. by apply not_elem_of_nil in Hin.
    + injection Hs as <-. split; [|done]. unfold not_lost in *. rewrite Hat in *. cbn.
      destruct Hn as [?|[?|Hin]]; [by left|by right; left|]. by apply not_elem_of_nil in Hin.
    + destruct (exec_instr body i s) as [js s1] eqn:E. injection Hs as <-. split; [|done].
      eapply (not_lost_instr _ _ _ _ _ (fun todo => Functors todo [])); eauto.
    + destruct (exec_instr body i s) as [js s1] eqn:E. injection Hs as <-. split; [|done].
      eapply (not_lost_instr _ _ _ _ _ (fun todo => Functors todo (f :: fs))); eauto.
  - destruct (at_ s) as [todo| | | | | |] eqn:Hat; try done. by destruct (Hb todo).
  - destruct (at_ s) as [todo| | | | | |] eqn:Hat; try done. by destruct (Hb todo).
  - case_bool_decide; [done|]. injection Hs as <-.
    assert (woken (set_waking ({[tid]} ∪ waking s) s)) as Hw by (right; cbn; set_solver).
    split; [|by destruct a]. unfold not_lost. right.
    destruct a; cbn; destruct (at_ s); try done; by left.
  - case_bool_decide; [|done]. injection Hs as <-.
    set (s1 := set_waking _ s). assert (0 < wakeupFd_ (wakeup s1)) as Hw by (apply wakeup_woken; cbn; lia).
    destruct (wakeup_counter s1) as [v Ev].
    rewrite Ev in *. split; [|done]. unfold not_lost, woken in *; cbn in *.
    destruct Hn as [?|Hn]; [by left|right]. destruct (at_ s); try done; first [by left | left; by left].
Qed.

Lemma run_app l k s : run body (l ++ k) s = match run body l s with Some s' => run body k s' | None => None end.
Proof. revert s. induction l as [|c l IH]; intros s; cbn; [done|]. destruct (step body c s); [apply IH|done]. Qed.

Lemma inv_init : inv init.
Proof. by constructor; cbn. Qed.

Lemma inv_run l s s' : run body l s = Some s' -> inv s -> inv s'.
Proof.
  revert s. induction l as [|c l IH]; intros s; cbn; [by intros [= <-]|].
  destruct (step body c s) as [s1|] eqn:E; [|done]. intros Hr Hi. eapply IH; [done|]. by eapply inv_step.
Qed.

Lemma not_lost_run l s s' : run body l s = Some s' -> inv s ->
  (forall todo, at_ s <> Before todo) -> not_lost s -> not_lost s'.
Proof.
  revert s. induction l as [|c l IH]; intros s; cbn; [by intros [= <-]|].
  destruct (step body c s) as [s1|] eqn:E; [|done]. intros Hr Hi Hb Hn.
  destruct (not_lost_step _ _ _ E Hi Hb Hn). eapply IH; eauto. by eapply inv_step.
Qed.

(** A loop told to quit is not left waiting. *)
Definition quit_seen (s : t) : Prop := at_ s = Polling -> quit_ s = true -> woken s.
(** The polls a loop told to quit can still make. *)
Definition polls_left (s : t) : Z := match at_ s with Polling => 1 | _ => 0 end.

Lemma quit_step c s s' : step body c s = Some s' -> inv s ->
  (quit_seen s -> quit_seen s') /\
  ((forall todo, at_ s <> Before todo) -> quit_ s = true ->
     quit_ s' = true /\ (forall todo, at_ s' <> Before todo) /\
     iteration_ s' + polls_left s' <= iteration_ s + polls_left s).
Proof.
  intros Hs Hi. pose proof Hi as [I1 _ _ _ _ _ _ _].
  unfold quit_seen, polls_left. destruct c as [ready| |a|tid a|tid]; cbn [step] in Hs.
  - unfold own_step in Hs. destruct (at_ s) as [[|i todo]| | |[|i todo]| |[|i todo] [|f fs]|] eqn:Hat; try done.
    all: try (destruct (exec_instr body i s) as [js s1] eqn:E;
      destruct (exec_instr_spec _ _ _ _ E I1) as (_ & _ & _ & _ & _ & _ & E7 & _ & _ & _ & _ & _ & E13);
      injection Hs as <-; cbn; rewrite ?E7; split; [done|]; intros Hb Hq;
      split; [by apply E13|]; split; [try done; by intros ?; destruct (Hb (i :: todo))|lia]).
    + injection Hs as <-. destruct (quit_ s) eqn:Eq; cbn; (split; [try done; congruence|]);
        intros _ Hq; (split; [congruence|]); (split; [done|]); [lia|congruence].
    + case_match; [done|]. case_match; [done|]. injection Hs as <-. cbn. split; [done|]. intros _ Hq.
      split; [done|]. split; [done|lia].
    + injection Hs as <-. cbn. split; [done|]. intros _ Hq. split; [done|]. split; [done|lia].
    + injection Hs as <-. cbn. split; [done|]. intros _ Hq. split; [done|]. split; [done|lia].
    + injection Hs as <-. cbn. split; [done|]. intros _ Hq. split; [done|]. split; [done|lia].
    + injection Hs as <-. cbn. split; [done|]. intros _ Hq. split; [done|]. split; [done|lia].
  - destruct (at_ s) as [[]| | | | | |] eqn:Hat; try done. injection Hs as <-. cbn. split; [done|].
    intros Hb. by destruct (Hb []).
  - destruct (at_ s) as [[]| | | | | |] eqn:Hat; try done. injection Hs as <-. cbn. split; [done|].
    intros Hb. by destruct (Hb []).
  - case_bool_decide; [done|]. injection Hs as <-.
    assert (woken (set_waking ({[tid]} ∪ waking s) s)) as Hw by (right; cbn; set_solver).
    split; [intros _ _ _; right; destruct a; cbn; set_solver|]. intros Hb Hq. destruct a; cbn; done || lia.
  - case_bool_decide; [|done]. injection Hs as <-.
    set (s1 := set_waking _ s). assert (0 < wakeupFd_ (wakeup s1)) as Hw by (apply wakeup_woken; cbn; lia).
    destruct (wakeup_counter s1) as [v Ev]. rewrite Ev in *. split; [by left|]. cbn. intros Hb Hq.
    split; [done|]. split; [done|lia].
Qed.

Lemma quit_run l s s' : run body l s = Some s' -> inv s ->
  (quit_seen s -> quit_seen s') /\
  ((forall todo, at_ s <> Before todo) -> quit_ s = true ->
     quit_ s' = true /\ (forall todo, at_ s' <> Before todo) /\
     iteration_ s' + polls_left s' <= iteration_ s + polls_left s).
Proof.
  revert s. induction l as [|c l IH]; intros s; cbn.
  { intros [= <-] _. split; [done|]. intros. repeat (split; [done|]). lia. }
  destruct (step body c s) as [s1|] eqn:E; [|done]. intros Hr Hi.
  destruct (quit_step _ _ _ E Hi) as [Q1 Q2]. destruct (IH _ Hr (inv_step _ _ _ E Hi)) as [R1 R2].
  split; [auto|]. intros Hb Hq. destruct (Q2 Hb Hq) as (q1 & q2 & q3). destruct (R2 q2 q1) as (r1 & r2 & r3).
  repeat (split; [done|]). lia.
Qed.

(** C11: If [loop()] is entered with an empty queue or with a wakeup under
    way, then no functor queued for the running loop waits for the poll to
    time out: whenever the loop is about to block (or blocked) in [poll] with
    a functor in its queue, the eventfd is readable, or another thread is
    between its push and its [wakeup()].  (Without that the first poll can
    block on a functor that the loop's own thread queued before [loop()]:
    [own_queue_before_loop_waits].) *)
Theorem no_lost_wakeup l1 l2 s1 s2 :
  run body l1 init = Some s1 ->
  pendingFunctors_ s1 = [] \/ 0 < wakeupFd_ s1 \/ waking s1 <> ∅ ->
  run body (EnterLoop :: l2) s1 = Some s2 ->
  at_ s2 = Polling -> pendingFunctors_ s2 <> [] ->
  0 < wakeupFd_ s2 \/ waking s2 <> ∅.
Proof.
  intros R1 H1 R2 Hat Hp. pose proof (inv_run _ _ _ R1 inv_init) as Hi1.
  cbn [run] in R2. destruct (step body EnterLoop s1) as [s|] eqn:E; [|done].
  pose proof (inv_step _ _ _ E Hi1) as Hi. cbn in E.
  destruct (at_ s1) as [[]| | | | | |] eqn:Hat1; try done. injection E as <-.
  destruct (not_lost_run _ _ _ R2 Hi) as [?|G]; [done|exact H1|done|by rewrite Hat in G].
Qed.

(** Queued functors run exactly once and in the order in which they
    were queued, whichever threads queued them: at any moment the functors
    queued so far are those that have been started, then those taken out
    by [doPendingFunctors], then those still in the queue. *)
Theorem functors_fifo l s : run body l init = Some s -> pushed s = started s ++ taken s ++ pendingFunctors_ s.
Proof. intros R. apply (inv_run _ _ _ R inv_init). Qed.

(** C24: After [quit()] a running loop polls at most once more, and that
    poll does not block: the eventfd is readable or the quitting thread is
    about to write to it. *)
Theorem quit_stops l1 l2 s1 s2 :
  run body l1 init = Some s1 -> (forall todo, at_ s1 <> Before todo) -> quit_ s1 = true ->
  run body l2 s1 = Some s2 ->
  quit_ s2 = true /\ iteration_ s2 <= iteration_ s1 + 1 /\
  (at_ s2 = Polling -> 0 < wakeupFd_ s2 \/ waking s2 <> ∅).
Proof.
  intros R1 Hb Hq R2. pose proof (inv_run _ _ _ R1 inv_init) as Hi1.
  destruct (quit_run _ _ _ R1 inv_init) as [Q1 _]. destruct (quit_run _ _ _ R2 Hi1) as [Q2 Q3].
  destruct (Q3 Hb Hq) as (H1 & _ & H3). split; [done|]. split.
  - unfold polls_left in H3. destruct (at_ s1), (at_ s2); lia.
  - intros Hat. apply Q2; [|done|done]. apply Q1. done.
Qed.
End proofs.

(** Functor 1 does nothing, 2 queues 1, 3 quits. *)
Definition sample_body (f : Z) : list act :=
  match f with 2 => [QueueInLoop 1] | 3 => [Quit] | _ => [] end.

(** Another thread queues 2; running it queues 1, and the loop comes back to
    [poll] with 1 in its queue. *)
Definition sample_round : list choice :=
  [Other 7 (QueueInLoop 2); OtherWakeup 7; Own []; Own [WakeupChannel]; Own []; Own []; Own []; Own [];
   Own []; Own []; Own []; Own []].

Lemma no_lost_wakeup_witness : exists s2,
  run sample_body (EnterLoop :: sample_round) init = Some s2 /\ pendingFunctors_ s2 = [1] /\
  (0 < wakeupFd_ s2 \/ waking s2 <> ∅).
Proof.
  eexists. split; [vm_compute; reflexivity|]. split; [reflexivity|].
  refine (no_lost_wakeup sample_body [] sample_round init _ eq_refl (or_introl eq_refl) _ _ _);
    [vm_compute; reflexivity|reflexivity|done].
Defined.

Lemma functors_fifo_witness : exists s,
  run sample_body (EnterLoop :: sample_round) init = Some s /\
  pushed s = [2; 1] /\ pushed s = started s ++ taken s ++ pendingFunctors_ s.
Proof.
  eexists. split; [vm_compute; reflexivity|]. split; [reflexivity|].
  refine (functors_fifo sample_body (EnterLoop :: sample_round) _ _). vm_compute. reflexivity.
Defined.

Lemma quit_stops_witness : exists s1 s2,
  run sample_body [EnterLoop; Own []; Other 7 Quit] init = Some s1 /\
  run sample_body [OtherWakeup 7; Own [WakeupChannel]; Own []; Own []; Own []; Own []; Own []] s1 = Some s2 /\
  at_ s2 = Exited /\ iteration_ s2 <= iteration_ s1 + 1.
Proof.
  eexists _, _. split; [vm_compute; reflexivity|]. split; [vm_compute; reflexivity|]. split; [reflexivity|].
  refine (proj1 (proj2 (quit_stops sample_body [EnterLoop; Own []; Other 7 Quit]
    [OtherWakeup 7; Own [WakeupChannel]; Own []; Own []; Own []; Own []; Own []] _ _ _ _ _ _)));
    vm_compute; try reflexivity. done.
Defined.

(** A [quit()] that comes before [loop()] is lost: [loop()] overwrites
    it, consumes the wakeup and waits in its second poll. *)
Theorem early_quit_lost : exists s,
  run sample_body [Other 7 Quit; OtherWakeup 7; EnterLoop; Own []; Own [WakeupChannel]; Own []; Own []; Own [];
                   Own []; Own []] init = Some s /\
  at_ s = Polling /\ quit_ s = false /\ wakeupFd_ s = 0 /\ waking s = ∅.
Proof. eexists. split; [vm_compute; reflexivity|]. do 3 (split; [reflexivity|]). reflexivity. Qed.

(** A functor that the loop's own thread queues before [loop()] wakes
    nobody: the loop blocks in [poll] with it in the queue. *)
Theorem own_queue_before_loop_waits : exists s,
  run sample_body [OwnCall (QueueInLoop 1); Own []; Own []; EnterLoop; Own []] init = Some s /\
  at_ s = Polling /\ pendingFunctors_ s = [1] /\ wakeupFd_ s = 0 /\ waking s = ∅.
Proof. eexists. split; [vm_compute; reflexivity|]. do 3 (split; [reflexivity|]). reflexivity. Qed.

(** [loop()] tests [quit_] behind [doPendingFunctors]: a functor that another
    thread queues after the queue has been taken, with a [quit()] right
    behind it, is never run.  [~TcpServer] does this to a loop of its pool:
    it queues [connectDestroyed], and the pool quits the loop. *)
Theorem quit_drops_functor : exists s,
  run sample_body [EnterLoop; Own []; Own [UserChannel 1]; Own []; Own []; Other 7 (QueueInLoop 1); OtherWakeup 7;
                   Other 7 Quit; OtherWakeup 7; Own []; Own []] init = Some s /\
  at_ s = Exited /\ pendingFunctors_ s = [1] /\ pushed s = [1] /\ started s = [].
Proof. eexists. split; [vm_compute; reflexivity|]. do 3 (split; [reflexivity|]). reflexivity. Qed.
End EventLoop.

Module Reactor.

(** The part of an [EventLoop] that deals with channels; [user]: the rest. *)
Record reactor_state (P U : Type) : Type := mk {
  world : World P;
  handling : bool;
  activeChannels_ : list Z;
  currentActiveChannel_ : option Z;
  iteration : Z;
  pollReturnTime_ : Z;
  user : U }.
Arguments mk {P U}.
Arguments world {P U}.
Arguments handling {P U}.
Arguments activeChannels_ {P U}.
Arguments currentActiveChannel_ {P U}.
Arguments iteration {P U}.
Arguments pollReturnTime_ {P U}.
Arguments user {P U}.

Section reactor.
Context {P U : Type} `{PollerSpec P}.
Notation R := (reactor_state P U).

Definition set_world (w : World P) (s : R) : R :=
  mk w (handling s) (activeChannels_ s) (currentActiveChannel_ s) (iteration s) (pollReturnTime_ s) (user s).
Definition set_handling_ (b : bool) (s : R) : R :=
  mk (world s) b (activeChannels_ s) (currentActiveChannel_ s) (iteration s) (pollReturnTime_ s) (user s).
Definition set_current (c : option Z) (s : R) : R :=
  mk (world s) (handling s) (activeChannels_ s) c (iteration s) (pollReturnTime_ s) (user s).
Definition set_active (l : list Z) (s : R) : R :=
  mk (world s) (handling s) l (currentActiveChannel_ s) (iteration s) (pollReturnTime_ s) (user s).
Definition polled (now : Z) (s : R) : R :=
  mk (world s) (handling s) (activeChannels_ s) (currentActiveChannel_ s) (iteration s + 1) now (user s).

Definition in_world {A} (m : M (World P) A) : M R A := zoom world set_world m.

Definition updateChannel (inLoopThread : bool) (c : Z) : M R unit :=
  (if inLoopThread then ret tt else throw Aborted) ;;; in_world (Channel.updateChannel c).
Definition removeChannel (inLoopThread : bool) (c : Z) : M R unit :=
  (if inLoopThread then ret tt else throw Aborted) ;;;
  let* s := get in
  when (handling s)
    (assert_ (bool_decide (currentActiveChannel_ s = Some c) || negb (bool_decide (c ∈ activeChannels_ s)))) ;;;
  in_world (Channel.removeChannel c).
Definition hasChannel (inLoopThread : bool) (c : Z) : M R bool :=
  (if inLoopThread then ret tt else throw Aborted) ;;; in_world (Channel.hasChannel c).

Context (run : Z -> Z -> M R unit).
Definition kPollTimeMs : Z := 10000.

Definition handle_one (c : Z) : M R unit :=
  modify (set_current (Some c)) ;;;
  let* s := get in
  handleEvent (fun c => in_world (channel c)) (fun c f => in_world (write_channel c f)) run c (pollReturnTime_ s).

(** One turn of [loop()], up to [doPendingFunctors]. *)
Definition turn : M R unit :=
  modify (set_active []) ;;;
  let* r := in_world (poll kPollTimeMs) in
  modify (set_active (snd r)) ;;;
  modify (polled (fst r)) ;;;
  modify (set_handling_ true) ;;;
  for_each handle_one (snd r) ;;;
  modify (set_current None) ;;;
  modify (set_handling_ false).

(** What callbacks may do: register channels, change and remove them through
    [updateChannel] and [removeChannel] (see [updateChannel_keeps],
    [removeChannel_guarded]).  An active channel other than the one being
    handled stays registered. *)
Definition keeps (s s' : R) : Prop :=
  fits (chans (world s')) (poller (world s')) /\
  (forall c fd, c ∈ activeChannels_ s -> currentActiveChannel_ s <> Some c ->
     channels_ (poller (world s)) !! fd = Some c -> channels_ (poller (world s')) !! fd = Some c) /\
  (forall c, is_Some (chans (world s) !! c) -> is_Some (chans (world s') !! c)) /\
  activeChannels_ s' = activeChannels_ s /\ handling s' = handling s /\ iteration s' = iteration s /\
  currentActiveChannel_ s' = currentActiveChannel_ s.

#[local] Instance keeps_trans : Transitive keeps.
Proof.
  intros a b c (A1 & A2 & A3 & A4 & A5 & A6 & A7) (B1 & B2 & B3 & B4 & B5 & B6 & B7).
  split; [done|]. split; [intros d fd Hd Hn Hr; apply B2; [congruence..|by apply A2]|].
  split; [auto|]. split; [congruence|]. split; [congruence|]. split; congruence.
Qed.

Lemma updateChannel_keeps c ch s : fits (chans (world s)) (poller (world s)) -> chans (world s) !! c = Some ch ->
  0 <= fd_ ch < INT_MAX -> 0 <= events_ ch < 2 ^ 15 ->
  (channels_ (poller (world s)) !! fd_ ch = Some c \/
   channels_ (poller (world s)) !! fd_ ch = None /\ index_ ch = -1 /\ events_ ch <> 0) ->
  wpe (eq Aborted) (updateChannel true c) (fun _ s' => keeps s s') s.
Proof.
  intros Hf Hc Hfd Hev Hr. unfold updateChannel, in_world. wp_steps. apply wpe_zoom.
  eapply wpe_mono; [by eapply update_spec|]. cbn. intros _ w' (G1 & G2 & _ & G4 & _).
  split; [done|]. split; [|split; [|done]].
  - intros d fd _ _ Hd. cbn. rewrite G4, lookup_insert. case_decide; [|done]. subst fd. destruct Hr as [Hr|[Hr _]]; congruence.
  - intros d [x Hd]. destruct (same_channels_lookup _ _ _ _ (same_but_index_channels _ _ G2) Hd) as (y & Hy & _). by exists y.
Qed.

(** C25: While events are handled [removeChannel] fails its assertion exactly
    for an active channel other than the current one, and so whatever a
    callback removes through it, the channels still to be handled stay
    registered. *)
Theorem removeChannel_guarded c ch s : fits (chans (world s)) (poller (world s)) -> handling s = true ->
  chans (world s) !! c = Some ch -> channels_ (poller (world s)) !! fd_ ch = Some c -> events_ ch = 0 ->
  if bool_decide (currentActiveChannel_ s = Some c) || negb (bool_decide (c ∈ activeChannels_ s)) then
    wpe (eq Aborted) (removeChannel true c) (fun _ s' => keeps s s' /\ channels_ (poller (world s')) !! fd_ ch = None) s
  else removeChannel true c s = Err AssertFailed.
Proof.
  intros Hf Hh Hc Hr Hev. unfold removeChannel. destruct (_ || _)%bool eqn:Eb.
  2: { unfold bind, ret, get. cbn. rewrite Hh. cbn. by rewrite Eb. }
  wp_steps. rewrite Hh. cbn [when]. rewrite Eb. cbn [assert_]. wp_steps. unfold in_world. apply wpe_zoom.
  eapply wpe_mono; [by eapply remove_spec|]. cbn. intros _ w' (G1 & G2 & _ & G4 & _). split; [|by rewrite G4, lookup_delete_eq].
  split; [done|]. split; [|split; [|done]].
  - intros d fd Hd Hn Hfd. cbn. rewrite G4, lookup_delete_ne; [done|]. intros <-.
    assert (d = c) as -> by congruence. apply orb_true_iff in Eb as [E|E].
    + by apply bool_decide_eq_true in E.
    + apply negb_true_iff, bool_decide_eq_false in E. done.
  - intros d [x Hd]. destruct (same_channels_lookup _ _ _ _ (same_but_index_channels _ _ G2) Hd) as (y & Hy & _). by exists y.
Qed.

(** [E]: the faults of the callbacks. *)
Context (E : fault -> Prop).
Hypothesis run_keeps : forall cb time s, fits (chans (world s)) (poller (world s)) -> handling s = true ->
  wpe E (run cb time) (fun _ s' => keeps s s') s.

Lemma in_channel_ok c s ch : chans (world s) !! c = Some ch -> in_world (channel c) s = Ok (ch, s).
Proof. intros Hc. unfold in_world, zoom, channel, bind, get, lift. rewrite Hc. by destruct s. Qed.

Lemma wpe_handle_one c s : fits (chans (world s)) (poller (world s)) -> is_Some (chans (world s) !! c) -> handling s = true ->
  wpe E (handle_one c) (fun _ s' => keeps (set_current (Some c) s) s') s.
Proof.
  intros Hfits [ch Hch] Hh. unfold handle_one. wp_steps. set (s0 := set_current (Some c) s).
  apply handleEvent_keeps.
  - intros s1 (_ & _ & K & _). destruct (K c) as [ch1 Hch1]; [by exists ch|]. exists ch1.
    by apply in_channel_ok.
  - intros f s1 K. pose proof K as (K' & _ & _ & _ & Kh & _). eapply wpe_mono; [apply run_keeps; [done|by rewrite Kh]|].
    cbn beta. intros _ s2 ?. by transitivity s1.
  - apply wpe_zoom. eapply wpe_write; [exact Hch|]. cbn.
    split; [apply (fits_write _ _ _ ch (Channel.set_handling true)); [done|done|by destruct ch|by destruct ch]|].
    split; [done|]. split; [|done]. intros d [x Hd]. cbn in *. rewrite lookup_insert. by case_decide.
Qed.

(** The loop after [poll], with the active channels [left] still to be handled. *)
Record handling_inv (active : list Z) (n : Z) (left : list Z) (s : R) : Prop := {
  h_fits : fits (chans (world s)) (poller (world s));
  h_active : activeChannels_ s = active;
  h_handling : handling s = true;
  h_iteration : iteration s = n;
  h_there : forall c, c ∈ active -> is_Some (chans (world s) !! c);
  h_left : forall c, c ∈ left -> exists fd, channels_ (poller (world s)) !! fd = Some c }.

Lemma wpe_handle_next active n c left s : NoDup active -> (exists done, active = done ++ c :: left) ->
  handling_inv active n (c :: left) s -> wpe E (handle_one c) (fun _ => handling_inv active n left) s.
Proof.
  intros Hnd [done_ Ea] [I1 I2 I3 I4 I5 I6]. assert (c ∈ active) as Hin by (rewrite Ea; set_solver).
  eapply wpe_mono; [apply wpe_handle_one; [done|by apply I5|done]|]. cbn beta.
  intros _ s' (K1 & K2 & K3 & K4 & K5 & K6 & K7). cbn in K2, K3, K4, K5, K6. constructor; [done|congruence..|auto|].
  intros d Hd. destruct (I6 d) as [fd Hfd]; [by right|]. exists fd. apply K2; [rewrite I2, Ea; set_solver| |done].
  intros [= <-]. rewrite Ea in Hnd. apply list.NoDup_app in Hnd as (_ & _ & Hnd). by apply list.NoDup_cons in Hnd as [? _].
Qed.

Lemma wpe_handle_prefix active n done_ left s : NoDup active -> active = done_ ++ left -> handling_inv active n active s ->
  wpe E (for_each handle_one done_) (fun _ => handling_inv active n left) s.
Proof.
  intros Hnd Ea Hi.
  assert (forall l l0 s, active = l0 ++ l ++ left -> handling_inv active n (l ++ left) s ->
    wpe E (for_each handle_one l) (fun _ => handling_inv active n left) s) as Hall.
  { clear Ea Hi s. induction l as [|c l IH]; intros l0 s Ea Hi; cbn [for_each]; [by wp_steps|]. wp_steps.
    eapply wpe_mono; [apply (wpe_handle_next active n c (l ++ left)); [done|by exists l0|exact Hi]|]. cbn beta.
    intros _ s' Hi'. apply (IH (l0 ++ [c])); [by rewrite <- app_assoc|done]. }
  apply (Hall done_ []); [done|by rewrite <- Ea].
Qed.

(** The state in which the active channels are handled. *)
Definition started (r : Z * list Z) (w : World P) (s : R) : R :=
  set_handling_ true (polled (fst r) (set_active (snd r) (set_world w (set_active [] s)))).

Lemma started_inv r w s : fits (chans (world s)) (poller (world s)) -> poll kPollTimeMs (world s) = Ok (r, w) ->
  handling_inv (snd r) (iteration s + 1) (snd r) (started r w s) /\
  forall c, c ∈ snd r -> exists fd ev, interest (poller (world s)) !! fd = Some (c, ev).
Proof.
  intros Hf Hp. destruct (wpe_elim _ _ _ _ _ _ (poll_spec kPollTimeMs (world s) Hf) Hp) as (G1 & G2 & G3 & G4 & G5 & G6).
  split; [|exact G6].
  assert (forall c, c ∈ snd r -> exists fd, channels_ (poller w) !! fd = Some c) as Hreg.
  { intros c Hc. destruct (G6 c Hc) as (fd & ev & Hi). exists fd. rewrite <- G5 in Hi. by apply (fits_interest _ _ _ _ _ G1) in Hi. }
  constructor; try done. intros c Hc. destruct (Hreg c Hc) as [fd Hfd].
  destruct (fits_registered _ _ _ _ G1 Hfd) as (ch & Hch & _). by exists ch.
Qed.

(** A turn of the loop over any poller leaves the loop outside of event
    handling, one iteration later, with its channels and its poller in step,
    for callbacks that register, change and remove channels as [keeps] says;
    and whenever the turn of a reported channel comes, it is still there and
    still registered, whatever the callbacks of the channels before it did. *)
Theorem turn_safe s r w : fits (chans (world s)) (poller (world s)) ->
  poll kPollTimeMs (world s) = Ok (r, w) -> NoDup (snd r) ->
  wpe E turn (fun _ s' => fits (chans (world s')) (poller (world s')) /\
    handling s' = false /\ currentActiveChannel_ s' = None /\ iteration s' = iteration s + 1 /\ activeChannels_ s' = snd r) s /\
  (forall c, c ∈ snd r -> exists fd ev, interest (poller (world s)) !! fd = Some (c, ev)) /\
  (forall done c left, snd r = done ++ c :: left ->
    wpe E (for_each handle_one done) (fun _ s' => is_Some (chans (world s') !! c) /\
      exists fd, channels_ (poller (world s')) !! fd = Some c) (started r w s)).
Proof.
  intros Hf Hp Hnd. destruct (started_inv r w s Hf Hp) as [Hi Hint]. split; [|split; [exact Hint|]].
  - unfold turn. wp_steps. unfold in_world. apply wpe_zoom. unfold wpe at 1. cbn [world set_active]. rewrite Hp.
    wp_steps. eapply wpe_mono; [apply (wpe_handle_prefix (snd r) (iteration s + 1) (snd r) []); [done|by rewrite app_nil_r|exact Hi]|].
    cbn beta. intros _ s' [I1 I2 I3 I4 I5 I6]. by wp_steps.
  - intros done_ c left Ea. eapply wpe_mono; [by apply (wpe_handle_prefix (snd r) (iteration s + 1) done_ (c :: left))|].
    cbn beta. intros _ s' [I1 I2 I3 I4 I5 I6]. split; [apply I5; rewrite Ea; set_solver|apply I6; by left].
Qed.
End reactor.
End Reactor.

(** A poll poller with two registered channels, one of them readable; the
    callbacks log their numbers. *)
Definition sample_channels : gmap Z Channel :=
  {[ 100 := setReadCallback (Some 1) (mkChannel 1 5 3 0 0 true false true None None None None);
     200 := mkChannel 1 6 4 0 1 true false true None None None None ]}.
Definition sample_poller : PollPoller.t Sample.po :=
  PollPoller.mk {[ 5 := 100; 6 := 200 ]} [PollPoller.mkPollfd 5 3 0; PollPoller.mkPollfd 6 4 0]
    (Sample.mkPo {[ 5 := 1 ]} 77).
Definition sample_log (cb time : Z) : M (Reactor.reactor_state (PollPoller.t Sample.po) (list (Z * Z))) unit :=
  modify (fun s => Reactor.mk (Reactor.world s) (Reactor.handling s) (Reactor.activeChannels_ s)
    (Reactor.currentActiveChannel_ s) (Reactor.iteration s) (Reactor.pollReturnTime_ s)
    (Reactor.user s ++ [(cb, time)])).
Definition sample_loop : Reactor.reactor_state (PollPoller.t Sample.po) (list (Z * Z)) :=
  Reactor.mk (mkWorld sample_channels sample_poller) false [] None 0 0 [].

Lemma sample_tables : PollPoller.tables sample_channels sample_poller.
Proof.
  split.
  - intros fd c Hc. change (({[ 5 := 100; 6 := 200 ]} : gmap Z Z) !! fd = Some c) in Hc.
    apply lookup_insert_Some in Hc as [[<- <-]|[_ Hc]].
    + eexists _, 0%nat, _. repeat split; vm_compute; congruence.
    + apply lookup_singleton_Some in Hc as [<- <-]. eexists _, 1%nat, _. repeat split; vm_compute; congruence.
  - intros [|[|i]] pfd Hi; [injection Hi as <-..|done].
    + exists 100. eexists. repeat split; vm_compute; reflexivity.
    + exists 200. eexists. repeat split; vm_compute; reflexivity.
Qed.

Lemma turn_safe_witness : exists s',
  Reactor.turn sample_log sample_loop = Ok (tt, s') /\ Reactor.user s' = [(1, 77)] /\
  Reactor.activeChannels_ s' = [100] /\ Reactor.iteration s' = 1.
Proof.
  assert (forall cb time s, fits (chans (Reactor.world s)) (poller (Reactor.world s)) -> Reactor.handling s = true ->
    wp (sample_log cb time) (fun _ s' => Reactor.keeps s s') s) as Hlog.
  { intros cb time s Hf _. unfold wpe, Reactor.keeps. cbn. split; [exact Hf|]. repeat (split; [done|]). done. }
  assert (exists w, poll Reactor.kPollTimeMs (Reactor.world sample_loop) = Ok ((77, [100]), w)) as [w Hp]
    by (eexists; vm_compute; reflexivity).
  destruct (Reactor.turn_safe sample_log (fun _ => False) Hlog sample_loop (77, [100]) w sample_tables Hp
    ltac:(apply NoDup_singleton)) as (Hw & _).
  destruct (wp_elim _ _ _ Hw) as ([] & s' & E & G).
  exists s'. split; [done|]. destruct G as (_ & _ & _ & -> & ->).
  assert (match Reactor.turn sample_log sample_loop with
          | Ok (_, s) => Reactor.user s = [(1, 77)] | Err _ => False end) as G by (vm_compute; reflexivity).
  rewrite E in G. done.
Defined.

(** A channel without interest, active like the one being handled. *)
Definition sample_idle : gmap Z Channel := {[ 100 := mkChannel 1 5 0 1 0 true false true None None None None ]}.
Definition sample_handling (current : Z) : Reactor.reactor_state (PollPoller.t Sample.po) unit :=
  Reactor.mk (mkWorld sample_idle (PollPoller.mk {[ 5 := 100 ]} [PollPoller.mkPollfd (-6) 0 0] (Sample.mkPo ∅ 0)))
    true [200; 100] (Some current) 0 0 tt.

Lemma removeChannel_guarded_witness :
  Reactor.removeChannel true 100 (sample_handling 200) = Err AssertFailed /\
  exists s', Reactor.removeChannel true 100 (sample_handling 100) = Ok (tt, s') /\
    channels_ (poller (Reactor.world s')) !! 5 = None.
Proof.
  assert (forall c, fits (chans (Reactor.world (sample_handling c))) (poller (Reactor.world (sample_handling c)))) as HT.
  { intros c. split.
    - intros fd d Hd. change (({[ 5 := 100 ]} : gmap Z Z) !! fd = Some d) in Hd. apply lookup_singleton_Some in Hd as [<- <-].
      eexists _, 0%nat, _. repeat split; vm_compute; congruence.
    - intros [|i] pfd Hi; [injection Hi as <-|done]. exists 100. eexists. repeat split; vm_compute; reflexivity. }
  assert (forall c, chans (Reactor.world (sample_handling c)) !! 100 =
    Some (mkChannel 1 5 0 1 0 true false true None None None None)) as Hc by done.
  split; [exact (Reactor.removeChannel_guarded 100 _ (sample_handling 200) (HT 200) eq_refl (Hc 200) eq_refl eq_refl)|].
  pose proof (Reactor.removeChannel_guarded 100 _ (sample_handling 100) (HT 100) eq_refl (Hc 100) eq_refl eq_refl) as H.
  change (wpe (eq Aborted) (Reactor.removeChannel true 100) (fun _ s' => Reactor.keeps (sample_handling 100) s' /\
    channels_ (poller (Reactor.world s')) !! 5 = None) (sample_handling 100)) in H.
  unfold wpe in H. destruct (Reactor.removeChannel true 100 (sample_handling 100)) as [[[] s']|e] eqn:E.
  - exists s'. split; [done|apply H].
  - assert (match Reactor.removeChannel true 100 (sample_handling 100) with Ok _ => True | Err _ => False end) as G by (by vm_compute).
    by rewrite E in G.
Defined.

(** ** The life of a loop

    What the constructors of [EventLoop] and its [TimerQueue] do to the
    poller and to the thread, and what their destructors undo.  The
    descriptors come from a parameter [K]. *)
Module Lifetime.

(** eventfd(2) and timerfd_create(2) return a new descriptor or -1. *)
Class LoopSys (K : Type) : Type := {
  eventfd : K -> K * Z;
  timerfd_create : K -> K * Z;
  close : Z -> K -> K;
  opened : K -> gset Z }.
Class LoopLaws (K : Type) `{LoopSys K} : Prop := {
  eventfd_new : forall k, let (k', fd) := eventfd k in
    fd < 0 /\ opened k' = opened k \/ 0 <= fd < INT_MAX /\ fd ∉ opened k /\ opened k' = {[fd]} ∪ opened k;
  timerfd_new : forall k, let (k', fd) := timerfd_create k in
    fd < 0 /\ opened k' = opened k \/ 0 <= fd < INT_MAX /\ fd ∉ opened k /\ opened k' = {[fd]} ∪ opened k;
  close_opened : forall fd k, opened (close fd k) = opened k ∖ {[fd]} }.

(** One thread: its [t_loopInThisThread], the channels and poller of the
    loop, and the descriptors of the process. *)
Record thread_state (P K : Type) : Type := mk { world : World P; kernel : K; t_loopInThisThread : option Z }.
Arguments mk {P K}.
Arguments world {P K}.
Arguments kernel {P K}.
Arguments t_loopInThisThread {P K}.

Section operations.
Context {P K : Type} `{Poller P} `{LoopSys K}.
Notation T := (thread_state P K).

Definition set_world w (s : T) : T := mk w (kernel s) (t_loopInThisThread s).
Definition set_kernel k (s : T) : T := mk (world s) k (t_loopInThisThread s).
Definition set_loop l (s : T) : T := mk (world s) (kernel s) l.
Definition in_world {A} (m : M (World P) A) : M T A := zoom world set_world m.

Definition descriptor (f : K -> K * Z) : M T Z :=
  let* s := get in
  let '(k, fd) := f (kernel s) in
  modify (set_kernel k) ;;;
  if fd <? 0 then throw Aborted else ret fd.
Definition createEventfd : M T Z := descriptor eventfd.
Definition createTimerfd : M T Z := descriptor timerfd_create.

(** [Channel ch(loop, fd)] at the address [c]. *)
Definition new_channel (loop c fd : Z) : M (World P) unit :=
  modify (fun w => set_chans (<[c := Channel_new loop fd]> (chans w)) w).

(** The read callbacks: 0 is [TimerQueue::handleRead], 1 [EventLoop::handleRead]. *)
Definition TimerQueue_make (this c : Z) : M T Z :=
  let* timerfd := createTimerfd in
  in_world (new_channel this c timerfd) ;;;
  in_world (write_channel c (setReadCallback (Some 0))) ;;;
  in_world (enableReading c) ;;;
  ret timerfd.
Definition TimerQueue_destroy (c timerfd : Z) : M T unit :=
  in_world (disableAll c) ;;;
  in_world (remove c) ;;;
  modify (fun s => set_kernel (close timerfd (kernel s)) s).

(** [timer] and [wakeup]: the addresses of the two channels. *)
Definition construct (this timer wakeup : Z) : M T (Z * Z) :=
  let* timerfd := TimerQueue_make this timer in
  let* wakeupFd := createEventfd in
  in_world (new_channel this wakeup wakeupFd) ;;;
  let* s := get in
  match t_loopInThisThread s with
  | Some _ => throw Aborted
  | None => modify (set_loop (Some this))
  end ;;;
  in_world (write_channel wakeup (setReadCallback (Some 1))) ;;;
  in_world (enableReading wakeup) ;;;
  ret (timerfd, wakeupFd).

(** The body of the destructor, then its members. *)
Definition destruct_ (timer wakeup timerfd wakeupFd : Z) : M T unit :=
  in_world (disableAll wakeup) ;;;
  in_world (remove wakeup) ;;;
  modify (fun s => set_kernel (close wakeupFd (kernel s)) s) ;;;
  modify (set_loop None) ;;;
  TimerQueue_destroy timer timerfd.
End operations.

Section proofs.
Context {P K : Type} `{PollerSpec P} `{LoopLaws K}.
Notation T := (thread_state P K).
Implicit Types (s : T) (a : gmap Z Registry.achan).

(** The registry [a] describes the channels, and what is registered is open. *)
Definition ok a s : Prop := Registry.refines a (world s) /\
  forall c x, a !! c = Some x -> Registry.a_status x = Registry.Registered -> Registry.a_fd x ∈ opened (kernel s).

Lemma ok_free a s fd : ok a s -> fd ∉ opened (kernel s) -> channels_ (poller (world s)) !! fd = None.
Proof. intros [R Ho] Hn. apply (Registry.free_fd a fd _ R). intros c x Hx [<- Hs]. by apply Hn, (Ho c). Qed.

Lemma wpe_registry (m : M (World P) unit) o a a' (Q : unit -> T -> Prop) s : Registry.refines a (world s) ->
  Registry.step a o = Some a' -> Registry.exec o = m -> Registry.not_poll o = true ->
  (forall w', Registry.refines a' w' -> kept (chans (world s)) (chans w') -> Q tt (set_world w' s)) ->
  wpe (eq Aborted) (in_world m) Q s.
Proof.
  intros R Hs <- Hnp HQ. apply wpe_zoom. eapply wpe_mono; [by eapply Registry.refines_step|]. cbn. intros [] w' [R' Hk].
  apply HQ; auto.
Qed.

(** A channel with a read callback only. *)
Definition reads (c cb : Z) (w : World P) : Prop := exists ch, chans w !! c = Some ch /\
  readCallback_ ch = Some cb /\ writeCallback_ ch = None /\ closeCallback_ ch = None /\ errorCallback_ ch = None.

Lemma reads_kept c cb w w' : kept (chans w) (chans w') -> reads c cb w -> reads c cb w'.
Proof.
  intros Hk (ch & Hch & Hr). destruct (Hk c ch Hch) as (ch' & Hch' & _ & E1 & E2 & E3 & E4).
  exists ch'. split; [done|]. by rewrite <- E1, <- E2, <- E3, <- E4.
Qed.

Definition watching fd : Registry.achan := Registry.AChan fd kReadEvent Registry.Registered.
Definition removed fd : Registry.achan := Registry.AChan fd 0 Registry.Removed.

(** A new channel; its callback and its interest in reading. *)
Lemma wpe_new {A} a this c fd (k : M T A) (Q : A -> T -> Prop) s : ok a s -> a !! c = None -> 0 <= fd < INT_MAX ->
  channels_ (poller (world s)) !! fd = None ->
  (forall w', let s' := set_world w' s in ok (<[c := Registry.AChan fd 0 Registry.Fresh]> a) s' ->
     channels_ (poller w') !! fd = None -> kept (chans (world s)) (chans w') ->
     chans w' !! c = Some (Channel_new this fd) -> wpe (eq Aborted) k Q s') ->
  wpe (eq Aborted) (in_world (new_channel this c fd) ;;; k) Q s.
Proof.
  intros [R Ho] Ha Hfd Hfree HQ. assert (chans (world s) !! c = None) as Hc.
  { pose proof (Registry.r_channels _ _ R c) as Hr. rewrite Ha in Hr. by destruct (chans (world s) !! c). }
  unfold new_channel. wp_steps. apply wpe_zoom. wp_steps. apply HQ; [|exact Hfree| |apply lookup_insert_eq].
  2: { intros d x Hd. exists x. cbn. rewrite lookup_insert_ne by congruence. done. }
  split.
  - exact (Registry.refines_new a (world s) c (Channel_new this fd) fd R Hc eq_refl eq_refl eq_refl Hfd Hfree).
  - intros d x. rewrite lookup_insert. case_decide; [intros [= <-]; done|]. by apply Ho.
Qed.

Lemma wpe_watch {A} a this c fd cb (k : M T A) (Q : A -> T -> Prop) s : ok a s ->
  chans (world s) !! c = Some (Channel_new this fd) -> a !! c = Some (Registry.AChan fd 0 Registry.Fresh) -> channels_ (poller (world s)) !! fd = None -> fd ∈ opened (kernel s) ->
  (forall w', let s' := set_world w' s in ok (<[c := watching fd]> a) s' -> reads c cb w' ->
     (forall d cb', d <> c -> reads d cb' (world s) -> reads d cb' w') -> wpe (eq Aborted) k Q s') ->
  wpe (eq Aborted) (in_world (write_channel c (setReadCallback (Some cb))) ;;; in_world (enableReading c) ;;; k) Q s.
Proof.
  intros [R Ho] Hch Ha Hfree Hopen HQ. set (ch := Channel_new this fd) in *.
  wp_step. apply wpe_zoom. eapply wpe_write; [exact Hch|].
  pose proof (Registry.refines_write _ _ c ch (setReadCallback (Some cb)) R Hch eq_refl eq_refl eq_refl) as R2.
  wp_step. eapply (wpe_registry _ (Registry.EnableReading c)); [exact R2| |done|done|].
  - cbn. unfold Registry.ask. rewrite Ha. rewrite bool_decide_true; [reflexivity|].
    apply (Registry.free_fd _ fd _ R2). exact Hfree.
  - intros w' R' Hk. apply (HQ w').
    + split; [exact R'|]. intros d x. rewrite lookup_insert. case_decide; [by intros [= <-]|]. by apply Ho.
    + apply (reads_kept _ _ _ _ Hk). exists (setReadCallback (Some cb) ch). split; [apply lookup_insert_eq|done].
    + intros d cb' Hne (dh & Hd & Hr). apply (reads_kept _ _ _ _ Hk). exists dh. split; [|done].
      cbn. by rewrite lookup_insert_ne.
Qed.

(** The end of a watched channel. *)
Lemma wpe_unwatch {A} a c fd (k : M T A) (Q : A -> T -> Prop) s : Registry.refines a (world s) -> a !! c = Some (watching fd) ->
  (forall w', Registry.refines (<[c := removed fd]> a) w' -> wpe (eq Aborted) k Q (set_world w' s)) ->
  wpe (eq Aborted) (in_world (disableAll c) ;;; in_world (remove c) ;;; k) Q s.
Proof.
  intros R Ha HQ. wp_step. eapply (wpe_registry _ (Registry.DisableAll c)); [exact R| |done|done|].
  { cbn. unfold Registry.ask. rewrite Ha. reflexivity. }
  intros w1 R1 _. wp_step. eapply (wpe_registry _ (Registry.Remove c)); [exact R1| |done|done|].
  { cbn. rewrite lookup_insert_eq. reflexivity. }
  intros w2 R2 _. rewrite insert_insert_eq in R2. by apply (HQ w2).
Qed.

Lemma wpe_descriptor {A} (f : K -> K * Z) (k : Z -> M T A) (Q : A -> T -> Prop) s :
  (forall k0, let (k', fd) := f k0 in fd < 0 /\ opened k' = opened k0 \/
     0 <= fd < INT_MAX /\ fd ∉ opened k0 /\ opened k' = {[fd]} ∪ opened k0) ->
  (forall k' fd, 0 <= fd < INT_MAX -> fd ∉ opened (kernel s) -> opened k' = {[fd]} ∪ opened (kernel s) ->
     wpe (eq Aborted) (k fd) Q (set_kernel k' s)) ->
  wpe (eq Aborted) (bind (descriptor f) k) Q s.
Proof.
  intros Hf Hk. unfold descriptor. wp_steps. specialize (Hf (kernel s)). destruct (f (kernel s)) as [k' fd]. wp_steps.
  destruct (Z.ltb_spec fd 0); [by apply wpe_throw|]. wp_steps. destruct Hf as [[? _]|(? & ? & ?)]; [lia|]. by apply Hk.
Qed.

Lemma wpe_construct a this timer wakeup s : ok a s -> a !! timer = None -> a !! wakeup = None -> timer <> wakeup ->
  wpe (eq Aborted) (construct this timer wakeup) (fun r s' => t_loopInThisThread s = None /\
    t_loopInThisThread s' = Some this /\ fst r <> snd r /\ fst r ∉ opened (kernel s) /\ snd r ∉ opened (kernel s) /\
    opened (kernel s') = {[snd r]} ∪ ({[fst r]} ∪ opened (kernel s)) /\
    ok (<[wakeup := watching (snd r)]> (<[timer := watching (fst r)]> a)) s' /\
    reads timer 0 (world s') /\ reads wakeup 1 (world s')) s.
Proof.
  intros Hok Ht Hw Hne. unfold construct, TimerQueue_make, createTimerfd, createEventfd. wp_step.
  apply wpe_descriptor; [exact timerfd_new|]. intros k1 tfd Htf Htn Hto.
  assert (ok a (set_kernel k1 s)) as Hok1.
  { destruct Hok as [R Ho]. split; [exact R|]. intros c x Hx Hs. cbn. rewrite Hto. apply elem_of_union_r. by eapply Ho. }
  eapply wpe_new; [exact Hok1|exact Ht|done|by apply (ok_free a s)|]. intros w1 s1 Hok2 Hfree1 _ Hch1.
  eapply wpe_watch; [exact Hok2|exact Hch1|apply lookup_insert_eq|exact Hfree1|cbn; rewrite Hto; set_solver|].
  intros w2 s2 Hok3 Hr2 _. rewrite insert_insert_eq in Hok3. wp_step.
  apply wpe_descriptor; [exact eventfd_new|]. intros k2 wfd Hwf Hwn Hwo. cbn in Hwn, Hwo. rewrite Hto in Hwn, Hwo.
  assert (ok (<[timer := watching tfd]> a) (set_kernel k2 s2)) as Hok4.
  { destruct Hok3 as [R Ho]. split; [exact R|]. intros c x Hx Hs. cbn. rewrite Hwo, <- Hto.
    apply elem_of_union_r. by apply (Ho c). }
  eapply wpe_new; [exact Hok4|by rewrite lookup_insert_ne|done| |].
  { apply (ok_free _ _ wfd Hok3). cbn. by rewrite Hto. }
  intros w3 s3 Hok5 Hfree3 K3 Hch3. wp_steps. cbn [t_loopInThisThread set_world set_kernel s3 s2 s1].
  destruct (t_loopInThisThread s) eqn:El; [by apply wpe_throw|]. wp_step. cbn beta.
  eapply wpe_watch; [|exact Hch3|apply lookup_insert_eq|exact Hfree3|cbn; rewrite Hwo; set_solver|].
  { destruct Hok5 as [R Ho]. split; [exact R|exact Ho]. }
  intros w4 s4 Hok6 Hr4 Hother. rewrite insert_insert_eq in Hok6. wp_steps. cbn [fst snd].
  split; [done|]. split; [done|]. split; [set_solver|]. split; [done|]. split; [set_solver|]. split; [done|]. split; [done|].
  split; [|exact Hr4]. apply Hother; [done|]. by apply (reads_kept _ _ w2).
Qed.

(** Closing the descriptor of a channel that has been removed. *)
Lemma ok_close a c fd s : ok a s -> a !! c = Some (watching fd) -> forall w', Registry.refines (<[c := removed fd]> a) w' ->
  ok (<[c := removed fd]> a) (set_kernel (close fd (kernel s)) (set_world w' s)).
Proof.
  intros [R Ho] Ha w' R'. split; [exact R'|]. intros d x. rewrite lookup_insert. case_decide; [by intros [= <-]|].
  intros Hx Hs. cbn. rewrite close_opened. apply elem_of_difference. split; [by apply (Ho d)|].
  intros Ef%elem_of_singleton. destruct (Registry.refines_lookup _ _ _ _ R Ha) as (? & _ & _ & _ & _ & _ & A & _).
  destruct (Registry.refines_lookup _ _ _ _ R Hx) as (? & _ & _ & _ & _ & _ & B & _).
  pose proof (proj1 A eq_refl) as A'. pose proof (proj1 B Hs) as B'. cbn in A'. congruence.
Qed.

Lemma wpe_destruct a timer wakeup tfd wfd s : ok a s -> a !! timer = Some (watching tfd) ->
  a !! wakeup = Some (watching wfd) -> timer <> wakeup ->
  wpe (eq Aborted) (destruct_ timer wakeup tfd wfd) (fun _ s' => t_loopInThisThread s' = None /\
    opened (kernel s') = opened (kernel s) ∖ {[wfd]} ∖ {[tfd]} /\
    ok (<[timer := removed tfd]> (<[wakeup := removed wfd]> a)) s') s.
Proof.
  intros Hok Ht Hw Hne. unfold destruct_, TimerQueue_destroy. eapply wpe_unwatch; [apply Hok|exact Hw|]. intros w1 R1.
  pose proof (ok_close a wakeup wfd s Hok Hw w1 R1) as Hok1. wp_step. cbn beta. wp_step. cbn beta.
  assert ((<[wakeup := removed wfd]> a) !! timer = Some (watching tfd)) as Ht1 by (by rewrite lookup_insert_ne).
  wp_step. cbn beta. wp_step. cbn beta. eapply wpe_unwatch; [apply Hok1|exact Ht1|]. intros w2 R2. wp_steps.
  split; [done|]. split; [by cbn; rewrite !close_opened|]. exact (ok_close _ timer tfd _ Hok1 Ht1 w2 R2).
Qed.

(** C26: A thread has at most one loop (a second constructor aborts), and the
    destructor undoes the constructor: both channels are out of the
    poller, both descriptors closed, whatever else is registered is as it
    was, and the thread may make another loop. *)
Theorem loop_lifetime a this timer wakeup s : ok a s -> a !! timer = None -> a !! wakeup = None -> timer <> wakeup ->
  wpe (eq Aborted) (let* r := construct this timer wakeup in destruct_ timer wakeup (fst r) (snd r)) (fun _ s' =>
    t_loopInThisThread s = None /\ t_loopInThisThread s' = None /\ opened (kernel s') = opened (kernel s) /\
    exists tfd wfd, ok (<[timer := removed tfd]> (<[wakeup := removed wfd]> a)) s') s.
Proof.
  intros Hok Ht Hw Hne. wp_step. eapply wpe_mono; [by apply wpe_construct|]. cbn beta.
  intros [tfd wfd] s1 (E1 & E2 & E3 & E4 & E5 & E6 & Hok1 & _). cbn [fst snd] in *. eapply wpe_mono.
  - apply (wpe_destruct _ timer wakeup tfd wfd s1 Hok1); [|by rewrite lookup_insert_eq|done].
    by rewrite lookup_insert_ne, lookup_insert_eq.
  - cbn beta. intros _ s2 (F1 & F2 & F3). split; [done|]. split; [done|]. split.
    + rewrite F2, E6. set_solver.
    + exists tfd, wfd. rewrite insert_insert_eq in F3.
      rewrite (insert_insert_ne (<[timer := watching tfd]> a)), insert_insert_eq in F3 by done.
      by rewrite (insert_insert_ne a).
Qed.
End proofs.
End Lifetime.

(** A process whose next descriptor is the one above all that are open. *)
Definition next_fd (k : gset Z) : gset Z * Z :=
  let fd := 1 + foldr Z.max 2 (elements k) in
  if fd <? INT_MAX then ({[fd]} ∪ k, fd) else (k, -1).
#[global] Instance sample_loop_sys : Lifetime.LoopSys (gset Z) := {
  Lifetime.eventfd := next_fd;
  Lifetime.timerfd_create := next_fd;
  Lifetime.close fd k := k ∖ {[fd]};
  Lifetime.opened k := k }.

Lemma foldr_max l : 2 <= foldr Z.max 2 l /\ forall x, x ∈ l -> x <= foldr Z.max 2 l.
Proof.
  induction l as [|y l [IH1 IH2]]; cbn [foldr]; [split; [lia|by intros x ?%not_elem_of_nil]|].
  split; [lia|]. intros x [->|Hx]%elem_of_cons; [lia|]. specialize (IH2 x Hx). lia.
Qed.
Lemma next_fd_new k : let (k', fd) := next_fd k in
  fd < 0 /\ k' = k \/ 0 <= fd < INT_MAX /\ fd ∉ k /\ k' = {[fd]} ∪ k.
Proof.
  unfold next_fd. destruct (foldr_max (elements k)) as [Hpos Hmax].
  destruct (Z.ltb_spec (1 + foldr Z.max 2 (elements k)) INT_MAX); [right|by left].
  split; [lia|]. split; [|done].
  intros Hin%elem_of_elements%Hmax.
  lia.
Qed.
#[global] Instance sample_loop_laws : Lifetime.LoopLaws (gset Z).
Proof. split; [apply next_fd_new..|done]. Qed.

(** [ready]: what epoll will report. *)
Definition sample_thread_ready (ready : list (Z * Z)) (loop : option Z) : Lifetime.thread_state (EPollPoller.t Sample.ep) (gset Z) :=
  Lifetime.mk (mkWorld ∅ (EPollPoller.init (Sample.mkEp ∅ ready 0))) {[0; 1; 2]} loop.
Definition sample_thread := sample_thread_ready [].

Lemma sample_thread_ok ready loop : Lifetime.ok ∅ (sample_thread_ready ready loop).
Proof.
  split; [|by intros c x Hx; rewrite lookup_empty in Hx].
  assert (Registry.refines (Registry.fresh_registry ∅) (mkWorld (Registry.fresh_channels 1 ∅)
    (EPollPoller.init (Sample.mkEp ∅ ready 0)))) as R; [|exact R].
  apply Registry.refines_fresh; [apply (bool_decide_unpack _); by vm_compute| |done|done].
  constructor; cbn; [set_solver|set_solver|]. by vm_compute.
Qed.

Lemma loop_lifetime_witness : exists s r s1,
  Lifetime.construct 7 100 200 (sample_thread None) = Ok (r, s1) /\ r = (3, 4) /\
  interest (poller (Lifetime.world s1)) = {[ 3 := (100, kReadEvent); 4 := (200, kReadEvent) ]} /\
  Lifetime.destruct_ 100 200 3 4 s1 = Ok (tt, s) /\ Lifetime.opened (Lifetime.kernel s) = {[0; 1; 2]} /\
  Lifetime.t_loopInThisThread s = None /\ Lifetime.construct 7 100 200 (sample_thread (Some 8)) = Err Aborted.
Proof.
  pose proof (Lifetime.loop_lifetime ∅ 7 100 200 (sample_thread None) (sample_thread_ok [] None) eq_refl eq_refl ltac:(done)) as H.
  assert (match Lifetime.construct 7 100 200 (sample_thread None) with
    | Ok (r, s1) => r = (3, 4) /\
        interest (poller (Lifetime.world s1)) = {[ 3 := (100, kReadEvent); 4 := (200, kReadEvent) ]} /\
        match Lifetime.destruct_ 100 200 3 4 s1 with Ok _ => True | Err _ => False end
    | Err _ => False end) as G by (vm_compute; repeat split).
  unfold wpe, bind in H. destruct (Lifetime.construct 7 100 200 (sample_thread None)) as [[r s1]|e]; [|destruct G].
  destruct G as (-> & Hint & Hd). cbn [fst snd] in H. destruct (Lifetime.destruct_ 100 200 3 4 s1) as [[[] s]|e] eqn:Ed; [|done].
  destruct H as (_ & Ht & Hop & _). exists s, (3, 4), s1.
  split; [reflexivity|]. split; [reflexivity|]. split; [exact Hint|]. split; [exact Ed|].
  split; [exact Hop|]. split; [exact Ht|]. by vm_compute.
Defined.
