(* ===== verification/Loop.v ===== *)
(** * One whole loop (EventLoop.c++ with TimerQueue.c++, Channel.c++ and a poller)

    The parts of an [EventLoop] put together: its channels and its poller
    ([Reactor]), the [TimerQueue] behind the channel of the timerfd, the
    functor queue behind the channel of the eventfd, and the other threads
    that queue functors, add and cancel timers and call [quit].  A step of
    the loop's thread is one call of [loop()]: the test of [quit_], [poll],
    one [handleEvent], the swap of the functor queue, one functor.  The
    straight-line body of [loop()] is [iterate]; [iterate_by_steps] relates
    the two.

    A callback or functor is a number; what its body asks of the loop is a
    list of commands chosen from the loop's state.  [runInLoop] in the
    loop's own thread is the call itself, from another thread it is
    [queueInLoop].  The callbacks of timers do not run: a firing of the
    timerfd is undefined ([TimerQueue.firing_undefined]). *)
From Stdlib Require Import Sorting.Sorted Relations Wellfounded.
From S2P Require Import Prelude Timestamp TimerQueue Channel EPollPoller PollPoller Pollers EventLoop.

Module Loop.

(** A functor in [pendingFunctors_]: bound by [TimerQueue::addTimer] or
    [cancel] in another thread, or the user's. *)
Inductive functor : Type := InTimers (k : TimerQueue.task) | User (f : Z).

Inductive action : Type :=
| QueueInLoop (f : Z)
| Quit
| NewChannel (c : Z) (ch : Channel)   (* make a channel and set its callbacks *)
| Ask (o : Registry.op).              (* enable, disable, remove a channel *)
Inductive cmd : Type := OfTimers (c : TimerQueue.cmd) | OfLoop (c : action).

(** The loop but for its channels. *)
Record parts : Type := mk {
  timers : TimerQueue.t;
  registry : gmap Z Registry.achan;    (* what its channels have asked for *)
  pendingFunctors_ : list functor;
  callingPendingFunctors_ : bool;
  quit_ : bool;
  wakeupFd_ : Z;                       (* the counter of the eventfd *)
  waking : gset Z;                     (* other threads about to call wakeup() *)
  pushed : list functor;               (* every functor ever queued, in order *)
  started : list functor }.            (* every functor run, in order *)

Definition set_timers v s := mk v (registry s) (pendingFunctors_ s) (callingPendingFunctors_ s) (quit_ s)
  (wakeupFd_ s) (waking s) (pushed s) (started s).
Definition set_registry v s := mk (timers s) v (pendingFunctors_ s) (callingPendingFunctors_ s) (quit_ s)
  (wakeupFd_ s) (waking s) (pushed s) (started s).
Definition set_pending v s := mk (timers s) (registry s) v (callingPendingFunctors_ s) (quit_ s)
  (wakeupFd_ s) (waking s) (pushed s) (started s).
Definition set_calling v s := mk (timers s) (registry s) (pendingFunctors_ s) v (quit_ s)
  (wakeupFd_ s) (waking s) (pushed s) (started s).
Definition set_quit v s := mk (timers s) (registry s) (pendingFunctors_ s) (callingPendingFunctors_ s) v
  (wakeupFd_ s) (waking s) (pushed s) (started s).
Definition set_counter v s := mk (timers s) (registry s) (pendingFunctors_ s) (callingPendingFunctors_ s) (quit_ s)
  v (waking s) (pushed s) (started s).
Definition set_waking v s := mk (timers s) (registry s) (pendingFunctors_ s) (callingPendingFunctors_ s) (quit_ s)
  (wakeupFd_ s) v (pushed s) (started s).
Definition push f s := mk (timers s) (registry s) (pendingFunctors_ s ++ [f]) (callingPendingFunctors_ s) (quit_ s)
  (wakeupFd_ s) (waking s) (pushed s ++ [f]) (started s).
Definition start f s := mk (timers s) (registry s) (pendingFunctors_ s) (callingPendingFunctors_ s) (quit_ s)
  (wakeupFd_ s) (waking s) (pushed s) (started s ++ [f]).
(** A write that would pass the maximum of an eventfd fails (EAGAIN). *)
Definition wakeup s := if wakeupFd_ s + 1 <=? 2 ^ 64 - 2 then set_counter (wakeupFd_ s + 1) s else s.

(** Where the loop's thread is. *)
Inductive pc : Type :=
| Before                            (* loop() not entered *)
| Check                             (* while (!quit_) *)
| Polling                           (* poller_->poll(...) *)
| Handling (todo : list Z)          (* the active channels still to be handled *)
| Swap                              (* in doPendingFunctors *)
| Functors (todo : list functor)    (* the functors taken, not yet called *)
| Exited.

Section operations.
Context {P : Type} `{Poller P}.
Notation R := (Reactor.reactor_state P parts).
Context (clock : nat -> Z) (alloc : gmap Z TimerQueue.Timer -> option Z)
  (script : Z -> TimerQueue.t -> list TimerQueue.cmd).
(** The channels of the loop's own descriptors, and the user's code:
    callbacks and functors. *)
Context (timerfdChannel_ wakeupChannel_ : Z) (body : Z -> R -> list cmd).

Definition on_parts (f : parts -> parts) (s : R) : R :=
  Reactor.mk (Reactor.world s) (Reactor.handling s) (Reactor.activeChannels_ s) (Reactor.currentActiveChannel_ s)
    (Reactor.iteration s) (Reactor.pollReturnTime_ s) (f (Reactor.user s)).
Definition in_timers {A} (m : M TimerQueue.t A) : M R A :=
  zoom (fun s => timers (Reactor.user s)) (fun t => on_parts (set_timers t)) m.

(** ** The loop's own thread *)

Definition queueInLoop (f : functor) : M R unit :=
  modify (on_parts (push f)) ;;;
  let* s := get in
  when (callingPendingFunctors_ (Reactor.user s)) (modify (on_parts wakeup)).

(** The rules a user of channels keeps to: only what the registry allows,
    of no channel but his own, and no removal of a channel whose turn is
    still to come. *)
Definition allowed (o : Registry.op) (s : R) : option (gmap Z Registry.achan) :=
  match Registry.op_channel o with
  | Some c =>
      if bool_decide (c = timerfdChannel_) || bool_decide (c = wakeupChannel_) then None
      else match o with
           | Registry.Remove _ =>
               if bool_decide (Reactor.currentActiveChannel_ s = Some c) ||
                  negb (bool_decide (c ∈ Reactor.activeChannels_ s))
               then Registry.step (registry (Reactor.user s)) o else None
           | _ => Registry.step (registry (Reactor.user s)) o
           end
  | None => None
  end.

(** [Channel::update] and [Channel::remove] go through the loop, whose
    [removeChannel] has an assertion. *)
Definition perform (o : Registry.op) : M R unit :=
  match o with
  | Registry.Remove c =>
      Reactor.in_world (write_channel c (set_added false)) ;;; Reactor.removeChannel true c
  | _ => Reactor.in_world (Registry.exec o)
  end.
Definition ask (o : Registry.op) : M R unit :=
  let* s := get in
  match allowed o s with
  | Some a => perform o ;;; modify (on_parts (set_registry a))
  | None => ret tt
  end.

(** A new channel, as the constructor leaves it but for its callbacks, at a
    free address and with a descriptor that no registered channel has. *)
Definition constructible (c : Z) (ch : Channel) (s : R) : bool :=
  (events_ ch =? 0) && (index_ ch =? -1) && (0 <=? fd_ ch) && (fd_ ch <? INT_MAX) &&
  match chans (Reactor.world s) !! c, channels_ (poller (Reactor.world s)) !! fd_ ch with None, None => true | _, _ => false end.
Definition new_channel (c : Z) (ch : Channel) : M R unit :=
  let* s := get in
  when (constructible c ch s)
    (Reactor.in_world (modify (fun w => set_chans (<[c := ch]> (chans w)) w)) ;;;
     modify (on_parts (fun u => set_registry (<[c := Registry.AChan (fd_ ch) 0 Registry.Fresh]> (registry u)) u))).

Definition exec_call (c : action) : M R unit :=
  match c with
  | QueueInLoop f => queueInLoop (User f)
  | Quit => modify (on_parts (set_quit true))
  | NewChannel c ch => new_channel c ch
  | Ask o => ask o
  end.
Definition exec (c : cmd) : M R unit :=
  match c with
  | OfTimers c => in_timers (TimerQueue.exec_cmd clock alloc c)
  | OfLoop c => exec_call c
  end.

(** [TimerQueue::handleRead], the read callback of the timerfd's channel. *)
Definition timers_handleRead : M R unit := in_timers (TimerQueue.handleRead clock alloc script).
(** [EventLoop::handleRead], that of the eventfd's channel. *)
Definition handleRead : M R unit := modify (on_parts (set_counter 0)).

(** The user's code number [f] is called. *)
Definition call_user (f : Z) : M R unit := let* s := get in for_each exec (body f s).

Definition run_callback (cb time : Z) : M R unit :=
  if cb =? 0 then timers_handleRead
  else if cb =? 1 then handleRead
  else call_user cb.

(** [functors[i]()]; a task of the timers leaves their queue of tasks. *)
Definition run_functor (f : functor) : M R unit :=
  modify (on_parts (start f)) ;;;
  match f with
  | InTimers k =>
      in_timers (modify (fun t => TimerQueue.set_queued (tail (TimerQueue.queued t)) t) ;;;
                 TimerQueue.exec_task clock k)
  | User f => call_user f
  end.

(** One step of [loop()], from one program point to the next. *)
Definition own (at_ : pc) : M R pc :=
  match at_ with
  | Before => ret Before
  | Check => gets (fun s => if quit_ (Reactor.user s) then Exited else Polling)
  | Polling =>
      modify (Reactor.set_active []) ;;;
      let* r := Reactor.in_world (poll Reactor.kPollTimeMs) in
      modify (Reactor.set_active (snd r)) ;;;
      modify (Reactor.polled (fst r)) ;;;
      modify (Reactor.set_handling_ true) ;;;
      ret (Handling (snd r))
  | Handling (c :: todo) => Reactor.handle_one run_callback c ;;; ret (Handling todo)
  | Handling [] =>
      modify (Reactor.set_current None) ;;;
      modify (Reactor.set_handling_ false) ;;;
      modify (on_parts (set_calling true)) ;;;
      ret Swap
  | Swap =>
      let* s := get in
      modify (on_parts (set_pending [])) ;;;
      ret (Functors (pendingFunctors_ (Reactor.user s)))
  | Functors (f :: todo) => run_functor f ;;; ret (Functors todo)
  | Functors [] => modify (on_parts (set_calling false)) ;;; ret Check
  | Exited => ret Exited
  end.

(** The body of [loop()] when no other thread comes in between. *)
Definition doPendingFunctors : M R unit :=
  modify (on_parts (set_calling true)) ;;;
  let* s := get in
  modify (on_parts (set_pending [])) ;;;
  for_each run_functor (pendingFunctors_ (Reactor.user s)) ;;;
  modify (on_parts (set_calling false)).
Definition iterate : M R unit := Reactor.turn run_callback ;;; doPendingFunctors.

(** ** The other threads *)

(** [runAt], [runAfter], [runEvery]. *)
Inductive timer_call : Type := At (cb time : Z) | After (cb : Z) (delay : double) | Every (cb : Z) (interval : double).
Definition call_timer (c : timer_call) : M TimerQueue.t TimerQueue.TimerId :=
  match c with
  | At cb time => TimerQueue.runAt clock alloc false time cb
  | After cb delay => TimerQueue.runAfter clock alloc false delay cb
  | Every cb interval => TimerQueue.runEvery clock alloc false interval cb
  end.

Inductive request : Type :=
| AddTimer (c : timer_call)
| CancelTimer (timerId : TimerQueue.TimerId)
| QueueFunctor (f : Z)
| AskQuit.

(** A call from another thread, up to its [wakeup()]. *)
Definition other (a : request) : M R unit :=
  match a with
  | AddTimer c =>
      let* id := in_timers (call_timer c) in
      modify (on_parts (push (InTimers (TimerQueue.TaskAdd (fst id)))))
  | CancelTimer id =>
      in_timers (TimerQueue.cancel false id) ;;;
      modify (on_parts (push (InTimers (TimerQueue.TaskCancel id))))
  | QueueFunctor f => modify (on_parts (push (User f)))
  | AskQuit => modify (on_parts (set_quit true))
  end.

(** ** The transition system *)

(** [stale]: [loop()] was entered with functors that its own thread had
    queued, so that no [wakeup()] announces them, and has not taken them yet. *)
Record t : Type := State { at_ : pc; stale : bool; reactor : R }.

(** The scheduler: before [loop()] its thread runs user code, then it enters
    [loop()] and makes its next step; another thread makes a call up to its
    wakeup, or does the wakeup, at any time.  A choice that is not possible
    does nothing. *)
Inductive choice : Type :=
| Own
| OwnCall (f : Z)
| EnterLoop
| Other (tid : Z) (a : request)
| OtherWakeup (tid : Z).

Definition own_step : M t unit := fun s =>
  match own (at_ s) (reactor s) with
  | Ok (p, r) => Ok (tt, State p (stale s && match at_ s with Swap => false | _ => true end) r)
  | Err e => Err e
  end.
Definition on_reactor (m : M R unit) : M t unit := zoom reactor (fun r s => State (at_ s) (stale s) r) m.
Definition with_waking (f : gset Z -> gset Z) : R -> R := on_parts (fun u => set_waking (f (waking u)) u).

(** No functor is in the queue, or a wakeup is done or under way. *)
Definition announced (s : R) : bool :=
  match pendingFunctors_ (Reactor.user s) with
  | [] => true
  | _ => (0 <? wakeupFd_ (Reactor.user s)) || negb (bool_decide (waking (Reactor.user s) = ∅))
  end.
Definition enter_loop : M t unit :=
  modify (fun x => State Check (negb (announced (reactor x))) (on_parts (set_quit false) (reactor x))).

Definition step (c : choice) : M t unit :=
  match c with
  | Own => own_step
  | OwnCall f => let* s := get in match at_ s with Before => on_reactor (call_user f) | _ => ret tt end
  | EnterLoop => let* s := get in match at_ s with Before => enter_loop | _ => ret tt end
  | Other tid a =>
      let* s := get in
      when (negb (bool_decide (tid ∈ waking (Reactor.user (reactor s)))))
        (on_reactor (other a ;;; modify (with_waking (union {[tid]}))))
  | OtherWakeup tid =>
      let* s := get in
      when (bool_decide (tid ∈ waking (Reactor.user (reactor s))))
        (on_reactor (modify (with_waking (fun l => l ∖ {[tid]})) ;;; modify (on_parts wakeup)))
  end.
Definition run (l : list choice) : M t unit := for_each step l.

(** A loop whose channels are as the constructor left them. *)
Definition fresh (a : gmap Z Registry.achan) (w : World P) : t :=
  State Before false (Reactor.mk w false [] None 0 0 (mk TimerQueue.init a [] false false 0 ∅ [] [])).
End operations.

(** ** The timers leave the functor queue alone *)

Definition same_tasks (t t' : TimerQueue.t) : Prop := TimerQueue.queued t' = TimerQueue.queued t.
#[export] Instance same_tasks_preorder : PreOrder same_tasks.
Proof. split; [done|]. intros a b c E F. unfold same_tasks in *. congruence. Qed.

Section tasks.
Context (clock : nat -> Z) (alloc : gmap Z TimerQueue.Timer -> option Z).

#[local] Hint Extern 1 (moves same_tasks (modify _)) => (apply moves_modify; done) : moves.

Lemma tasks_resetTimerfd w : moves same_tasks (TimerQueue.resetTimerfd clock w).
Proof. unfold TimerQueue.resetTimerfd, TimerQueue.howMuchTimeFromNow, TimerQueue.now_. moves_tac. Qed.
#[local] Hint Resolve tasks_resetTimerfd : moves.
Lemma tasks_insert p : moves same_tasks (TimerQueue.insert p).
Proof. unfold TimerQueue.insert, TimerQueue.deref. moves_tac. Qed.
#[local] Hint Resolve tasks_insert : moves.
Lemma tasks_addTimerInLoop p : moves same_tasks (TimerQueue.addTimerInLoop clock p).
Proof. unfold TimerQueue.addTimerInLoop, TimerQueue.deref. moves_tac. Qed.
#[local] Hint Resolve tasks_addTimerInLoop : moves.
Lemma tasks_make_timer cb w iv : moves same_tasks (TimerQueue.make_timer alloc cb w iv).
Proof.
  unfold TimerQueue.make_timer. moves_tac.
  apply (moves_zoom _ (fun _ _ => True)); [|done]. intros n. unfold wpe. by case_all.
Qed.
#[local] Hint Resolve tasks_make_timer : moves.
Lemma tasks_cancelInLoop id : moves same_tasks (TimerQueue.cancelInLoop id).
Proof. unfold TimerQueue.cancelInLoop, TimerQueue.deref. moves_tac. Qed.
#[local] Hint Resolve tasks_cancelInLoop : moves.
Lemma tasks_addTimer cb w iv : moves same_tasks (TimerQueue.addTimer clock alloc true cb w iv).
Proof. unfold TimerQueue.addTimer, TimerQueue.deref. moves_tac. Qed.
#[local] Hint Resolve tasks_addTimer : moves.
Lemma tasks_exec_cmd c : moves same_tasks (TimerQueue.exec_cmd clock alloc c).
Proof.
  unfold TimerQueue.exec_cmd, TimerQueue.runAt, TimerQueue.runAfter, TimerQueue.runEvery, TimerQueue.runAt, TimerQueue.now_,
    TimerQueue.cancel. moves_tac.
Qed.
#[local] Hint Resolve tasks_exec_cmd : moves.
Lemma tasks_exec_task k : moves same_tasks (TimerQueue.exec_task clock k).
Proof. unfold TimerQueue.exec_task. moves_tac. Qed.
End tasks.

(** ** The invariant *)

Section invariant.
Context {P : Type} `{PollerSpec P}.
Notation R := (Reactor.reactor_state P parts).
Notation loop := (t (P := P)).
Context (clock : nat -> Z) (alloc : gmap Z TimerQueue.Timer -> option Z)
  (script : Z -> TimerQueue.t -> list TimerQueue.cmd).
Hypothesis alloc_fresh : forall h p, alloc h = Some p -> h !! p = None /\ 0 < p < TimerQueue.UINTPTR_MAX.
Hypothesis clock_positive : forall n, 0 < clock n.
Context (timerfdChannel_ wakeupChannel_ timerfd wakeupfd : Z) (body : Z -> R -> list cmd).
Implicit Types (s : R) (x : loop).

Notation own_ := (own clock alloc script timerfdChannel_ wakeupChannel_ body).
Notation exec_ := (exec clock alloc timerfdChannel_ wakeupChannel_).
Notation exec_call_ := (exec_call timerfdChannel_ wakeupChannel_).
Notation run_callback_ := (run_callback clock alloc script timerfdChannel_ wakeupChannel_ body).
Notation run_functor_ := (run_functor clock alloc timerfdChannel_ wakeupChannel_ body).
Notation step_ := (step clock alloc script timerfdChannel_ wakeupChannel_ body).
Notation own_step_ := (own_step clock alloc script timerfdChannel_ wakeupChannel_ body).
Notation run_ := (run clock alloc script timerfdChannel_ wakeupChannel_ body).

(** The channels are those of the registry, the loop's own two are watched
    for reading and have their callbacks; the timers are between firings. *)
Record inv s : Prop := {
  i_refines : Registry.refines (registry (Reactor.user s)) (Reactor.world s);
  i_timer_channel : Lifetime.reads timerfdChannel_ 0 (Reactor.world s);
  i_wakeup_channel : Lifetime.reads wakeupChannel_ 1 (Reactor.world s);
  i_timer_watched : registry (Reactor.user s) !! timerfdChannel_ = Some (Lifetime.watching timerfd);
  i_wakeup_watched : registry (Reactor.user s) !! wakeupChannel_ = Some (Lifetime.watching wakeupfd);
  i_timers : TimerQueue.settled (timers (Reactor.user s));
  i_counter : 0 <= wakeupFd_ (Reactor.user s) <= 2 ^ 64 - 2 }.

(** What the loop's own thread may change between two program points.  [rd]:
    it may read the eventfd. *)
Record moved (rd : bool) s s' : Prop := {
  m_tasks : same_tasks (timers (Reactor.user s)) (timers (Reactor.user s'));
  m_pushed : exists new, pendingFunctors_ (Reactor.user s') = pendingFunctors_ (Reactor.user s) ++ (User <$> new) /\
    pushed (Reactor.user s') = pushed (Reactor.user s) ++ (User <$> new) /\
    (rd = false -> callingPendingFunctors_ (Reactor.user s) = true -> new <> [] -> 0 < wakeupFd_ (Reactor.user s'));
  m_counter : rd = false -> wakeupFd_ (Reactor.user s) <= wakeupFd_ (Reactor.user s');
  m_started : started (Reactor.user s') = started (Reactor.user s);
  m_calling : callingPendingFunctors_ (Reactor.user s') = callingPendingFunctors_ (Reactor.user s);
  m_waking : waking (Reactor.user s') = waking (Reactor.user s);
  m_handling : Reactor.handling s' = Reactor.handling s;
  m_chans : forall c, is_Some (chans (Reactor.world s) !! c) -> is_Some (chans (Reactor.world s') !! c) }.

#[local] Instance moved_preorder rd : PreOrder (moved rd).
Proof.
  split.
  - intros s. constructor; try done. exists []. by rewrite !app_nil_r.
  - intros a b c [A1 (n1 & A2 & A2' & A2'') A3 A4 A5 A6 A7 A8] [B1 (n2 & B2 & B2' & B2'') B3 B4 B5 B6 B7 B8].
    constructor; [by etransitivity| |intros Hr; transitivity (wakeupFd_ (Reactor.user b)); auto|congruence..|auto].
    + exists (n1 ++ n2). rewrite fmap_app, B2, A2, B2', A2', <- !app_assoc. split; [done|]. split; [done|].
      intros Hr Hc Hn. destruct n2 as [|f n2]; [|apply B2''; [done|congruence|done]].
      rewrite app_nil_r in Hn. specialize (A2'' Hr Hc Hn). specialize (B3 Hr). lia.
Qed.

Lemma moved_read s s' rd : moved false s s' -> moved rd s s'.
Proof. intros [A1 (n & A2 & A2' & A2'') A3 A4 A5 A6 A7 A8]. constructor; auto. exists n. auto. Qed.

(** A computation of the loop's thread that fails no assertion and keeps
    the invariant. *)
Definition safe {A} rd (m : M R A) : Prop := forall s, inv s -> wpx m (fun _ s' => inv s' /\ moved rd s s') s.

Lemma safe_ret {A} rd (a : A) : safe rd (ret a).
Proof. intros s Hs. split; [done|reflexivity]. Qed.
Lemma safe_bind {A B} rd (m : M R A) (k : A -> M R B) : safe rd m -> (forall a, safe rd (k a)) -> safe rd (bind m k).
Proof.
  intros Hm Hk s Hs. wp_step. eapply wpe_mono; [by apply Hm|]. cbn beta. intros a s1 [Hs1 M1].
  eapply wpe_mono; [by apply Hk|]. cbn beta. intros _ s2 [Hs2 M2]. split; [done|]. by transitivity s1.
Qed.
Lemma safe_get {A} rd (k : R -> M R A) : (forall s, safe rd (k s)) -> safe rd (bind get k).
Proof. intros Hk s Hs. wp_steps. by apply Hk. Qed.
Lemma safe_for_each {A} rd (f : A -> M R unit) l : (forall a, safe rd (f a)) -> safe rd (for_each f l).
Proof. intros Hf. induction l as [|a l IH]; cbn [for_each]; [apply safe_ret|by apply safe_bind]. Qed.
Lemma safe_read {A} rd (m : M R A) : safe false m -> safe rd m.
Proof.
  intros Hm s Hs. eapply wpe_mono; [by apply Hm|]. cbn beta. intros _ s' [Hs' Hm']. split; [done|]. by apply moved_read.
Qed.

Lemma wakeup_sets (u : parts) : 0 <= wakeupFd_ u <= 2 ^ 64 - 2 -> exists v, wakeup u = set_counter v u /\
  0 < v <= 2 ^ 64 - 2 /\ wakeupFd_ u <= v.
Proof.
  intros Hu. unfold wakeup. destruct (Z.leb_spec (wakeupFd_ u + 1) (2 ^ 64 - 2)).
  - exists (wakeupFd_ u + 1). split; [done|lia].
  - exists (wakeupFd_ u). split; [by destruct u|lia].
Qed.

(** The channels and the timers do not depend on the other parts. *)
Lemma inv_parts s f : inv s -> registry (f (Reactor.user s)) = registry (Reactor.user s) ->
  timers (f (Reactor.user s)) = timers (Reactor.user s) -> 0 <= wakeupFd_ (f (Reactor.user s)) <= 2 ^ 64 - 2 ->
  inv (on_parts f s).
Proof. intros [I1 I2 I3 I4 I5 I6 I7] Er Et Hc. constructor; cbn; rewrite ?Er, ?Et; done. Qed.

Lemma safe_queueInLoop f : safe false (queueInLoop (User f)).
Proof.
  intros s Hs. pose proof (i_counter _ Hs) as Hc. unfold queueInLoop. wp_steps. cbn [on_parts Reactor.user push callingPendingFunctors_].
  set (s1 := on_parts (push (User f)) s). assert (inv s1) as Hs1 by by apply inv_parts.
  destruct (callingPendingFunctors_ (Reactor.user s)) eqn:Eca; cbn [when]; wp_steps.
  - destruct (wakeup_sets (Reactor.user s1)) as (v & Ev & Hv & Hle); [done|].
    assert (on_parts wakeup s1 = on_parts (set_counter v) s1) as -> by (unfold on_parts; by rewrite Ev).
    split; [apply inv_parts; try done; cbn; lia|]. constructor; cbn in *; try done.
    exists [f]. split; [done|]. split; [done|]. intros. lia.
  - split; [done|]. constructor; cbn; try done. exists [f]. split; [done|]. split; [done|]. congruence.
Qed.

Lemma safe_quit : safe false (modify (on_parts (set_quit true))).
Proof.
  intros s Hs. wp_steps. split; [by apply inv_parts, Hs|]. constructor; try done. exists []. by rewrite !app_nil_r.
Qed.

(** A user's channel operation: the poller's, the assertion of
    [EventLoop::removeChannel] holds. *)
Lemma allowed_inv o a s : allowed timerfdChannel_ wakeupChannel_ o s = Some a ->
  Registry.step (registry (Reactor.user s)) o = Some a /\ Registry.not_poll o = true /\
  a !! timerfdChannel_ = registry (Reactor.user s) !! timerfdChannel_ /\
  a !! wakeupChannel_ = registry (Reactor.user s) !! wakeupChannel_ /\
  perform o s = Reactor.in_world (Registry.exec o) s.
Proof.
  unfold allowed. destruct (Registry.op_channel o) as [c|] eqn:Eo; [|done].
  destruct (bool_decide_reflect (c = timerfdChannel_)) as [|Ht]; [done|].
  destruct (bool_decide_reflect (c = wakeupChannel_)) as [|Hw]; [done|]. cbn [orb].
  assert (forall a, Registry.step (registry (Reactor.user s)) o = Some a ->
    Registry.not_poll o = true /\ a !! timerfdChannel_ = registry (Reactor.user s) !! timerfdChannel_ /\
    a !! wakeupChannel_ = registry (Reactor.user s) !! wakeupChannel_) as Hstep.
  { intros a' Hs. split; [by destruct o|]. split; by apply (Registry.step_frame _ _ o c). }
  destruct o as [d|d|d|d|d|d|tm]; try done; cbn [Registry.op_channel] in Eo; injection Eo as ->;
    try (intros E; split; [done|]; destruct (Hstep _ E) as (? & ? & ?); done).
  destruct (_ || _)%bool eqn:Eg; [|done]. intros E. split; [done|]. destruct (Hstep _ E) as (? & ? & ?).
  do 3 (split; [done|]). cbn [perform Registry.exec]. unfold Reactor.removeChannel, Reactor.in_world, remove, zoom, bind, ret, get.
  destruct (write_channel c (set_added false) (Reactor.world s)) as [[[] w]|e]; [|done].
  cbn. destruct (Reactor.handling s); cbn; rewrite ?Eg; cbn;
    by destruct (removeChannel c w) as [[[] ?]|].
Qed.

Lemma safe_ask o : safe false (ask timerfdChannel_ wakeupChannel_ o).
Proof.
  intros s Hs. unfold ask. wp_steps. destruct (allowed _ _ o s) as [a|] eqn:Ea; [|by apply safe_ret].
  destruct (allowed_inv _ _ _ Ea) as (Hstep & Hnp & Et & Ew & Hp). destruct Hs as [I1 I2 I3 I4 I5 I6 I7].
  wp_step. unfold wpe at 1. rewrite Hp. change (wpx (Reactor.in_world (Registry.exec o)) (fun _ s1 =>
    wpx (modify (on_parts (set_registry a))) (fun _ s' => inv s' /\ moved false s s') s1) s).
  apply wpe_zoom. eapply wpe_weaken; [eapply wpe_mono; [by eapply Registry.refines_step|]|by intros ? <-].
  cbn beta. intros _ w' [R' K]. specialize (K Hnp). wp_steps. split.
  - constructor; cbn; [done|by eapply Lifetime.reads_kept|by eapply Lifetime.reads_kept|congruence|congruence|done|done].
  - constructor; cbn; try done.
    + exists []. by rewrite !app_nil_r.
    + intros c [ch Hch]. destruct (K c ch Hch) as (ch' & ? & _). by exists ch'.
Qed.

Lemma safe_new_channel c ch : safe false (new_channel c ch).
Proof.
  intros s Hs. unfold new_channel. wp_steps. apply wpe_when; intros Hc; [|by split]. unfold constructible in Hc.
  destruct (chans (Reactor.world s) !! c) as [|] eqn:Ec; [by rewrite andb_false_r in Hc|].
  destruct (channels_ (poller (Reactor.world s)) !! fd_ ch) as [|] eqn:Ef; [by rewrite andb_false_r in Hc|]. to_prop.
  destruct Hs as [I1 I2 I3 I4 I5 I6 I7].
  assert (kept (chans (Reactor.world s)) (<[c := ch]> (chans (Reactor.world s)))) as K.
  { intros d dh Hd. exists dh. split; [|done]. rewrite lookup_insert_ne by congruence. done. }
  assert (forall d (y : Registry.achan), registry (Reactor.user s) !! d = Some y -> c <> d) as Hne.
  { intros d y Hd <-. destruct (Registry.refines_lookup _ _ _ _ I1 Hd) as (dh & Hdh & _). congruence. }
  wp_step. apply wpe_zoom. wp_steps. split.
  - constructor; cbn; try done.
    + by apply Registry.refines_new.
    + by eapply Lifetime.reads_kept.
    + by eapply Lifetime.reads_kept.
    + by rewrite lookup_insert_ne by by eapply Hne.
    + by rewrite lookup_insert_ne by by eapply Hne.
  - constructor; cbn; try done.
    + exists []. by rewrite !app_nil_r.
    + intros d [dh Hd]. destruct (K d dh Hd) as (dh' & ? & _). by exists dh'.
Qed.

Lemma safe_exec_call c : safe false (exec_call_ c).
Proof.
  destruct c as [f| |c ch|o]; cbn [exec_call]; [apply safe_queueInLoop|apply safe_quit|apply safe_new_channel|apply safe_ask].
Qed.

Lemma safe_in_timers {A} (m : M TimerQueue.t A) : (forall q, TimerQueue.settled q -> wpx m (fun _ => TimerQueue.settled) q) ->
  moves same_tasks m -> safe false (in_timers m).
Proof.
  intros Hm Hq s [I1 I2 I3 I4 I5 I6 I7]. apply wpe_zoom.
  eapply wpe_mono; [apply wpe_conj_wlp; [by apply Hm|apply Hq]|]. cbn beta. intros _ q' [Hs' Ht].
  split; [by constructor|]. constructor; try done. exists []. by rewrite !app_nil_r.
Qed.

Lemma safe_exec c : safe false (exec_ c).
Proof.
  destruct c as [c|c]; cbn [exec]; [|apply safe_exec_call].
  apply safe_in_timers; [|apply tasks_exec_cmd]. intros q Hq. eapply wpe_mono; [by apply TimerQueue.wpx_exec_cmd, Hq|].
  cbn beta. intros _ q' ?. by eapply TimerQueue.quiet_settled.
Qed.

(** The read callback of the timerfd's channel does not return. *)
Lemma timers_handleRead_undefined E s : inv s -> E Undefined ->
  wpe E (timers_handleRead clock alloc script) (fun _ _ => False) s.
Proof.
  intros Hs HE. apply wpe_zoom. unfold wpe.
  by rewrite (TimerQueue.handleRead_undefined clock alloc script alloc_fresh _ (proj1 (proj1 (i_timers _ Hs)))).
Qed.

Lemma safe_call_user f : safe false (call_user clock alloc timerfdChannel_ wakeupChannel_ body f).
Proof. unfold call_user. apply safe_get. intros s. apply safe_for_each. intros c. apply safe_exec. Qed.

Lemma safe_run_callback cb time : safe true (run_callback_ cb time).
Proof.
  unfold run_callback. destruct (cb =? 0); [|destruct (cb =? 1)].
  - intros s Hs. eapply wpe_mono; [by apply timers_handleRead_undefined|]. by cbn beta.
  - intros s Hs. unfold handleRead. wp_steps. split; [apply inv_parts; try done; cbn; lia|].
    constructor; try done. exists []. by rewrite !app_nil_r.
  - apply safe_read, safe_call_user.
Qed.

(** ** One event, one functor *)

Lemma wpx_handle_one c s : inv s -> is_Some (chans (Reactor.world s) !! c) ->
  wpx (Reactor.handle_one run_callback_ c) (fun _ s' => inv s' /\ moved true s s') s.
Proof.
  intros Hs [ch Hch]. unfold Reactor.handle_one. wp_steps. set (s0 := Reactor.set_current (Some c) s).
  apply (handleEvent_keeps _ _ _ _ (fun s' => inv s' /\ moved true s s')).
  - intros s1 [_ M]. destruct (m_chans _ _ _ M c) as [ch1 Hch1]; [by exists ch|]. exists ch1. by apply Reactor.in_channel_ok.
  - intros f s1 [Hs1 M1]. eapply wpe_mono; [by apply safe_run_callback|]. cbn beta. intros _ s2 [Hs2 M2].
    split; [done|]. by transitivity s1.
  - apply wpe_zoom. eapply wpe_write; [exact Hch|]. set (w' := set_chans _ _).
    assert (kept (chans (Reactor.world s0)) (chans w')) as K by by eapply kept_write.
    destruct Hs as [I1 I2 I3 I4 I5 I6 I7]. split; [constructor; cbn; try done|].
    + apply (Registry.refines_write _ _ c ch (Channel.set_handling true) I1 Hch); by destruct ch.
    + by eapply Lifetime.reads_kept.
    + by eapply Lifetime.reads_kept.
    + constructor; try done; [exists []; by rewrite !app_nil_r|].
      intros d [dh Hd]. destruct (K d dh Hd) as (dh' & ? & _). by exists dh'.
Qed.



(** What a functor takes from the queues before it runs. *)
Definition taken_off (f : functor) s : R := on_parts (fun u =>
  match f with
  | InTimers _ => set_timers (TimerQueue.set_queued (tail (TimerQueue.queued (timers u))) (timers u)) (start f u)
  | User _ => start f u
  end) s.

Lemma settled_set_queued l q : (forall k, k ∈ l -> k ∈ TimerQueue.queued q) -> TimerQueue.settled q ->
  TimerQueue.settled (TimerQueue.set_queued l q).
Proof.
  intros Hl (([I1 I2 I3 I4 I5 I6] & Ha) & Hq & Hc). split; [split; [by constructor|done]|]. split; [|done].
  intros p Hp. apply Hq. by apply Hl.
Qed.

Lemma wpx_run_functor f s : inv s ->
  (forall k, f = InTimers k -> exists l, TimerQueue.queued (timers (Reactor.user s)) = k :: l) ->
  wpx (run_functor_ f) (fun _ s' => inv s' /\ moved false (taken_off f s) s') s.
Proof.
  intros Hs Hk. pose proof Hs as [I1 I2 I3 I4 I5 I6 I7]. unfold run_functor. wp_steps. destruct f as [k|f].
  - destruct (Hk k eq_refl) as [l El]. apply wpe_zoom. wp_steps. cbn [on_parts Reactor.user timers start].
    set (q := TimerQueue.set_queued (tail (TimerQueue.queued (timers (Reactor.user s)))) (timers (Reactor.user s))).
    assert (TimerQueue.settled q) as Hq.
    { apply settled_set_queued; [|done]. rewrite El. cbn. by intros k' Hk'; right. }
    pose proof Hq as (Hg & Hok & Hcalm).
    assert (forall p, k = TimerQueue.TaskAdd p -> is_Some (TimerQueue.heap q !! p)) as Hadd.
    { intros p ->. destruct I6 as (_ & Hqok & _). apply Hqok. rewrite El. by left. }
    eapply wpe_mono; [apply wpe_conj_wlp; [by apply (TimerQueue.wpx_exec_task clock alloc)|apply tasks_exec_task]|].
    cbn beta. intros _ q' [(G1 & G2 & G3 & G4 & _) Et].
    assert (TimerQueue.settled q') as Hq' by (split; [done|]; split; [intros p Hp; rewrite G2; by apply Hok, G3|done]).
    split; [by constructor|]. constructor; try done. exists []. by rewrite !app_nil_r.
  - apply safe_call_user. by apply inv_parts.
Qed.

(** ** The loop between two steps *)

Definition taken (p : pc) : list functor := match p with Functors l => l | _ => [] end.
Definition left_to_handle (p : pc) : list Z := match p with Handling l => l | _ => [] end.
Definition tasks (l : list functor) : list TimerQueue.task :=
  omap (fun f => match f with InTimers k => Some k | User _ => None end) l.
(** The eventfd is readable, or another thread is about to make it so. *)
Definition woken s : Prop := 0 < wakeupFd_ (Reactor.user s) \/ waking (Reactor.user s) <> ∅.

Lemma tasks_app l k : tasks (l ++ k) = tasks l ++ tasks k.
Proof. apply omap_app. Qed.
Lemma tasks_user l : tasks (User <$> l) = [].
Proof. by induction l. Qed.

Record loop_inv x : Prop := {
  l_inv : inv (reactor x);
  l_tasks : TimerQueue.queued (timers (Reactor.user (reactor x))) =
    tasks (taken (at_ x) ++ pendingFunctors_ (Reactor.user (reactor x)));
  l_order : pushed (Reactor.user (reactor x)) =
    started (Reactor.user (reactor x)) ++ taken (at_ x) ++ pendingFunctors_ (Reactor.user (reactor x));
  l_calling : callingPendingFunctors_ (Reactor.user (reactor x)) = match at_ x with Swap | Functors _ => true | _ => false end;
  l_handling : Reactor.handling (reactor x) = match at_ x with Handling _ => true | _ => false end;
  l_there : forall c, c ∈ left_to_handle (at_ x) -> is_Some (chans (Reactor.world (reactor x)) !! c);
  l_woken : match at_ x with
    | Check | Polling | Functors _ => stale x = false -> pendingFunctors_ (Reactor.user (reactor x)) = [] \/ woken (reactor x)
    | _ => True
    end;
  l_stale : match at_ x with Functors _ => stale x = false | _ => True end;
  l_quit : at_ x = Polling -> quit_ (Reactor.user (reactor x)) = true -> woken (reactor x) }.


Lemma inv_same s s' : inv s -> Reactor.world s' = Reactor.world s -> Reactor.user s' = Reactor.user s -> inv s'.
Proof. intros [I1 I2 I3 I4 I5 I6 I7] Ew Eu. constructor; rewrite ?Ew, ?Eu; done. Qed.

Lemma reads_polled c cb (w w' : World P) : same_channels (chans w) (chans w') -> Lifetime.reads c cb w -> Lifetime.reads c cb w'.
Proof.
  intros Hs (ch & Hch & E). destruct (same_channels_lookup _ _ _ _ Hs Hch) as (ch' & Hch' & Ef). exists ch'. split; [done|].
  destruct ch, ch'; cbn in *. injection Ef. intros. subst. done.
Qed.

(** The poll. *)
Lemma wpx_poll s : inv s -> wpx (Reactor.in_world (poll Reactor.kPollTimeMs)) (fun r s' => inv s' /\
  (exists w', s' = Reactor.set_world w' s) /\ forall c, c ∈ snd r -> is_Some (chans (Reactor.world s') !! c)) s.
Proof.
  intros [I1 I2 I3 I4 I5 I6 I7]. apply wpe_zoom. apply (wpe_weaken (fun _ => False)); [|done].
  eapply wpe_mono; [apply wpe_conj; [apply poll_spec, (Registry.r_fits _ _ I1)|by apply Registry.refines_poll]|].
  cbn beta. intros r w' [(G1 & G2 & _ & G4 & _ & G6) R']. split; [|split; [by exists w'|]].
  - constructor; try done; by eapply reads_polled.
  - intros c (fd & ev & Hi)%G6. apply (fits_interest _ _ _ _ _ (Registry.r_fits _ _ I1)) in Hi. rewrite <- G4 in Hi.
    destruct (fits_registered _ _ _ _ G1 Hi) as (ch & Hch & _). by exists ch.
Qed.

Lemma wpe_loop_own E (Q : loop -> Prop) p b s :
  wpe E (own_ p) (fun p' s' => Q (State p' (b && match p with Swap => false | _ => true end) s')) s ->
  wpe E own_step_ (fun _ => Q) (State p b s).
Proof. unfold wpe, own_step. cbn [at_ reactor stale]. by destruct (own_ p s) as [[? ?]|]. Qed.

(** A functor has run. *)
Lemma functor_inv f todo b s s' : loop_inv (State (Functors (f :: todo)) b s) -> inv s' -> moved false (taken_off f s) s' ->
  loop_inv (State (Functors todo) b s').
Proof.
  intros [L1 L2 L3 L4 L5 L6 L7 Lb L8] Hs' [M1 (new & M2 & M3 & Mw) Mc M4 M5 M6 M7 M8]. cbn in L2, L3, L4, L5, L7, Lb.
  assert (pendingFunctors_ (Reactor.user (taken_off f s)) = pendingFunctors_ (Reactor.user s) /\
    pushed (Reactor.user (taken_off f s)) = pushed (Reactor.user s) /\
    started (Reactor.user (taken_off f s)) = started (Reactor.user s) ++ [f] /\
    callingPendingFunctors_ (Reactor.user (taken_off f s)) = true /\
    waking (Reactor.user (taken_off f s)) = waking (Reactor.user s) /\
    wakeupFd_ (Reactor.user (taken_off f s)) = wakeupFd_ (Reactor.user s)) as (E1 & E2 & E3 & E4 & E5 & E6).
  { by destruct f. }
  rewrite E1 in M2. rewrite E2 in M3. rewrite E3 in M4. rewrite E4 in M5, Mw. rewrite E5 in M6. rewrite E6 in Mc.
  constructor; cbn; try done.
  - rewrite M1, M2. cbn. rewrite !tasks_app, tasks_user, app_nil_r, <- tasks_app. destruct f; cbn; by rewrite L2.
  - rewrite M3, L3, M4, M2, <- !app_assoc. cbn. by rewrite <- app_assoc.
  - rewrite M7. exact L5.
  - by intros c ?%not_elem_of_nil.
  - intros Hb. rewrite M2. destruct (decide (new = [])) as [->|Hn]; [|right; left; auto]. rewrite app_nil_r.
    destruct (L7 Hb) as [->|[Hw|Hw]]; [by left|right; left|right; right; congruence]. specialize (Mc eq_refl). cbn in Hw. lia.
Qed.

Lemma own_inv x : loop_inv x -> wpx own_step_ (fun _ => loop_inv) x.
Proof.
  destruct x as [p b s]. intros L. pose proof L as [L1 L2 L3 L4 L5 L6 L7 Lb L8]. cbn in L1, L2, L3, L4, L5, L6, L7, Lb, L8.
  apply wpe_loop_own. destruct p as [| | |[|c todo]| |[|f todo]|]; cbn [own taken left_to_handle] in *; rewrite ?andb_true_r, ?andb_false_r.
  - by wp_steps.
  - wp_steps. destruct (quit_ (Reactor.user s)) eqn:Eq; constructor; cbn; try done. congruence.
  - wp_steps. eapply wpe_mono; [apply wpx_poll; by eapply inv_same|]. cbn beta. intros r s1 (Hs1 & [w ->] & Hr).
    wp_steps. constructor; cbn; try done. by eapply inv_same.
  - wp_steps. constructor; cbn; try done. apply inv_parts; [by eapply inv_same|done|done|apply L1].
  - wp_step. eapply wpe_mono; [apply wpx_handle_one; [done|apply L6; by left]|]. cbn beta.
    intros _ s' [Hs' [M1 (new & M2 & M3 & _) _ M4 M5 M6 M7 M8]]. wp_steps. constructor; cbn; try done; try congruence.
    + rewrite M1, L2, M2. cbn. by rewrite tasks_app, tasks_user, app_nil_r.
    + rewrite M3, L3, M4, M2. cbn. by rewrite <- app_assoc.
    + intros d Hd. apply M8, L6. by right.
  - wp_steps. constructor; cbn; try done.
    + apply inv_parts; try done. apply L1.
    + rewrite app_nil_r. exact L2.
    + rewrite app_nil_r. exact L3.
    + by left.
  - wp_steps. constructor; cbn; try done. apply inv_parts; try done. apply L1.
  - wp_step. eapply wpe_mono; [apply wpx_run_functor; [done|]|].
    { intros k ->. cbn in L2. by eexists. }
    cbn beta. intros _ s' [Hs' M]. wp_steps. by apply (functor_inv f todo b s).
  - by wp_steps.
Qed.

(** ** The other threads' steps *)

(** A call that adds a timer in another thread, from a settled queue. *)
Definition adds (q : TimerQueue.t) (id : TimerQueue.TimerId) (q' : TimerQueue.t) : Prop :=
  TimerQueue.settled q' /\ TimerQueue.queued q' = TimerQueue.queued q ++ [TimerQueue.TaskAdd (fst id)].

Lemma adds_addTimer cb w iv q : TimerQueue.settled q -> wpx (TimerQueue.addTimer clock alloc false cb w iv) (adds q) q.
Proof.
  intros Hq. assert (wlp (TimerQueue.addTimer clock alloc false cb w iv)
    (fun id q' => TimerQueue.queued q' = TimerQueue.queued q ++ [TimerQueue.TaskAdd (fst id)]) q) as Ht.
  { unfold TimerQueue.addTimer, TimerQueue.deref. wp_step. eapply wpe_mono; [apply tasks_make_timer|]. cbn beta. intros p q1 E.
    wp_steps. apply wpe_lift; [|done]. intros tm _. wp_steps. cbn. by rewrite E. }
  eapply wpe_mono; [apply wpe_conj_wlp; [by apply (TimerQueue.wpx_addTimer clock alloc), Hq|exact Ht]|].
  cbn beta. intros id q' [[Hq' _] E]. split; [by eapply TimerQueue.quiet_settled|done].
Qed.

Lemma adds_call_timer c q : TimerQueue.settled q -> wpx (call_timer clock alloc c) (adds q) q.
Proof.
  intros Hq. assert (forall n, TimerQueue.settled (TimerQueue.set_ticks n q)) as Hn.
  { intros n. eapply TimerQueue.quiet_settled; [exact Hq|]. apply TimerQueue.quiet_ticks, Hq. }
  destruct c as [cb time|cb delay|cb iv]; cbn [call_timer].
  - by apply adds_addTimer.
  - unfold TimerQueue.runAfter, TimerQueue.runAt, TimerQueue.now_. wp_steps. apply wpe_lift.
    + intros w _. exact (adds_addTimer _ _ _ (TimerQueue.set_ticks _ q) (Hn _)).
    + by intros e ->%addTime_fault.
  - unfold TimerQueue.runEvery, TimerQueue.now_. wp_steps. apply wpe_lift.
    + intros w _. exact (adds_addTimer _ _ _ (TimerQueue.set_ticks _ q) (Hn _)).
    + by intros e ->%addTime_fault.
Qed.

Lemma woken_by tid s : woken (with_waking (union {[tid]}) s).
Proof. right. cbn. set_solver. Qed.

(** A functor has come into the queue, with its task; its thread goes on to
    [wakeup()]. *)
Lemma pushed_inv p b s f q tid : loop_inv (State p b s) -> TimerQueue.settled q ->
  TimerQueue.queued q = TimerQueue.queued (timers (Reactor.user s)) ++ tasks [f] ->
  loop_inv (State p b (with_waking (union {[tid]}) (on_parts (push f) (on_parts (set_timers q) s)))).
Proof.
  intros [[I1 I2 I3 I4 I5 I6 I7] L2 L3 L4 L5 L6 L7 Lb L8] Hq Eq. cbn in L2, L3, L4, L5, L6, L7, Lb, L8.
  constructor; cbn [at_ reactor]; try done.
  - cbn. rewrite Eq, L2. by rewrite !tasks_app, app_assoc.
  - cbn. rewrite L3. by rewrite <- !app_assoc.
  - pose proof (woken_by tid (on_parts (push f) (on_parts (set_timers q) s))). destruct p; auto.
  - intros _ _. apply woken_by.
Qed.

Lemma other_inv tid a x : loop_inv x ->
  wpx (on_reactor (other clock alloc a ;;; modify (with_waking (union {[tid]})))) (fun _ => loop_inv) x.
Proof.
  destruct x as [p b s]. intros L. apply wpe_zoom. cbn [reactor at_ stale]. destruct a as [c|id|f|]; cbn [other]; wp_step.
  - wp_step. apply wpe_zoom. eapply wpe_mono; [apply adds_call_timer, (i_timers _ (l_inv _ L))|].
    cbn beta. intros id q [Hq Eq]. wp_steps. by apply pushed_inv.
  - unfold TimerQueue.cancel. wp_step. apply wpe_zoom. wp_steps. pose proof (i_timers _ (l_inv _ L)) as Hset. cbn in Hset.
    apply pushed_inv; [done| |done]. eapply TimerQueue.quiet_settled; [exact Hset|]. apply TimerQueue.quiet_enqueue, Hset.
  - wp_steps. replace (on_parts (push (User f)) s) with
      (on_parts (push (User f)) (on_parts (set_timers (timers (Reactor.user s))) s)) by by destruct s as [?????? []].
    apply pushed_inv; [done|apply L|]. cbn. by rewrite app_nil_r.
  - wp_steps. destruct L as [L1 L2 L3 L4 L5 L6 L7 Lb L8]. cbn in L2, L3, L4, L5, L6, L7, Lb, L8.
    pose proof (woken_by tid (on_parts (set_quit true) s)). constructor; cbn [at_ reactor]; try done.
    + destruct L1. by constructor.
    + destruct p; auto.
Qed.

Lemma wakeup_inv tid x : loop_inv x ->
  wpx (on_reactor (modify (with_waking (fun l => l ∖ {[tid]})) ;;; modify (on_parts wakeup))) (fun _ => loop_inv) x.
Proof.
  destruct x as [p b s]. intros [L1 L2 L3 L4 L5 L6 L7 Lb L8]. cbn in L2, L3, L4, L5, L6, L7, Lb, L8.
  apply wpe_zoom. cbn [reactor at_ stale]. wp_steps. set (s1 := with_waking _ s).
  destruct (wakeup_sets (Reactor.user s1)) as (v & Ev & Hv & Hle); [apply L1|].
  assert (on_parts wakeup s1 = on_parts (set_counter v) s1) as -> by (unfold on_parts; by rewrite Ev).
  assert (woken (on_parts (set_counter v) s1)) as Hw by (left; cbn; lia).
  constructor; cbn [at_ reactor]; try done; [|destruct p; auto].
  apply inv_parts; [|done|done|cbn; lia]. apply inv_parts; try done. apply L1.
Qed.

(** The loop's thread before [loop()]. *)
Lemma own_call_inv f x : loop_inv x -> at_ x = Before ->
  wpx (on_reactor (call_user clock alloc timerfdChannel_ wakeupChannel_ body f)) (fun _ => loop_inv) x.
Proof.
  destruct x as [p b s]. intros [L1 L2 L3 L4 L5 L6 L7 Lb L8] Hat. cbn in Hat, L1, L2, L3, L4, L5, L6. subst p. apply wpe_zoom.
  cbn [reactor at_ stale]. eapply wpe_mono; [by apply safe_call_user|]. cbn beta.
  intros _ s' [Hs' [M1 (new & M2 & M3 & _) _ M4 M5 M6 M7 M8]]. constructor; cbn; try done; try congruence.
  - rewrite M1, L2, M2. cbn. by rewrite tasks_app, tasks_user, app_nil_r.
  - rewrite M3, L3, M4, M2. cbn. by rewrite <- app_assoc.
  - by intros c ?%not_elem_of_nil.
Qed.
Lemma announced_spec s : announced s = true -> pendingFunctors_ (Reactor.user s) = [] \/ woken s.
Proof.
  unfold announced, woken. intros Ha. destruct (pendingFunctors_ _); [by left|right].
  apply orb_true_iff in Ha as [Hc|Hw]; to_prop; [by left|by right].
Qed.
Lemma enter_loop_inv x : loop_inv x -> at_ x = Before -> wpx enter_loop (fun _ => loop_inv) x.
Proof.
  destruct x as [p b s]. intros [L1 L2 L3 L4 L5 L6 L7 Lb L8] Hat. cbn in Hat, L1, L2, L3, L4, L5, L6. subst p.
  unfold enter_loop. wp_steps. constructor; cbn; try done.
  - apply inv_parts; try done. apply L1.
  - intros Hb. apply negb_false_iff in Hb. destruct (announced_spec s Hb); [by left|by right].
Qed.

Lemma step_inv c x : loop_inv x -> wpx (step_ c) (fun _ => loop_inv) x.
Proof.
  intros L. destruct c as [|f| |tid a|tid]; cbn [step]; [by apply own_inv|..]; wp_steps.
  - destruct (at_ x) eqn:Hat; try (by wp_steps). by apply own_call_inv.
  - destruct (at_ x) eqn:Hat; try (by wp_steps). by apply enter_loop_inv.
  - apply wpe_when; intros _; try done. by apply other_inv.
  - apply wpe_when; intros _; try done. by apply wakeup_inv.
Qed.

Lemma loop_run_inv l x : loop_inv x -> wpx (run_ l) (fun _ => loop_inv) x.
Proof. apply wpe_for_each. intros c y _. apply step_inv. Qed.

Lemma fresh_inv a (w : World P) : Registry.refines a w -> Lifetime.reads timerfdChannel_ 0 w -> Lifetime.reads wakeupChannel_ 1 w ->
  a !! timerfdChannel_ = Some (Lifetime.watching timerfd) -> a !! wakeupChannel_ = Some (Lifetime.watching wakeupfd) ->
  loop_inv (fresh a w).
Proof.
  intros. constructor; cbn; try done.
  - constructor; cbn; try done. by apply (TimerQueue.settled_init clock alloc).
  - by intros c ?%not_elem_of_nil.
Qed.

(** ** An undisturbed iteration *)

Lemma run_own l p b s : run_ (Own :: l) (State p b s) =
  match own_ p s with
  | Ok (p', s') => run_ l (State p' (b && match p with Swap => false | _ => true end) s')
  | Err e => Err e
  end.
Proof. unfold run. cbn [for_each step]. unfold bind, own_step. cbn [at_ reactor stale]. by destruct (own_ p s) as [[? ?]|]. Qed.

Lemma handle_by_steps todo l b s : run_ (replicate (length todo) Own ++ l) (State (Handling todo) b s) =
  match for_each (Reactor.handle_one run_callback_) todo s with
  | Ok (_, s') => run_ l (State (Handling []) b s') | Err e => Err e end.
Proof.
  revert s. induction todo as [|c todo IH]; intros s; [done|]. cbn [length replicate app for_each].
  rewrite run_own. cbn [own]. unfold bind. destruct (Reactor.handle_one _ c s) as [[[] s']|]; [|done]. rewrite andb_true_r. apply IH.
Qed.

Lemma functors_by_steps todo l b s : run_ (replicate (length todo) Own ++ l) (State (Functors todo) b s) =
  match for_each run_functor_ todo s with
  | Ok (_, s') => run_ l (State (Functors []) b s') | Err e => Err e end.
Proof.
  revert s. induction todo as [|f todo IH]; intros s; [done|]. cbn [length replicate app for_each].
  rewrite run_own. cbn [own]. unfold bind. destruct (run_functor_ f s) as [[[] s']|]; [|done]. rewrite andb_true_r. apply IH.
Qed.

(** The body of [loop()], written as the code has it, does what the steps
    of the loop's thread do from [poll] to the next test of [quit_] when no
    other thread comes in between, faults included. *)
Theorem iterate_by_steps b s :
  match iterate clock alloc script timerfdChannel_ wakeupChannel_ body s with
  | Ok (_, s') => exists n, run_ (replicate n Own) (State Polling b s) = Ok (tt, State Check false s')
  | Err e => exists n, run_ (replicate n Own) (State Polling b s) = Err e
  end.
Proof.
  unfold iterate, Reactor.turn, doPendingFunctors, bind, modify, get. unfold Reactor.in_world at 1, zoom at 1.
  assert (forall l, run_ (Own :: l) (State Polling b s) = match own_ Polling s with
    Ok (p', s') => run_ l (State p' b s') | Err e => Err e end) as Hpoll by (intros; rewrite run_own; by rewrite andb_true_r).
  cbn [own] in Hpoll. unfold bind, modify, Reactor.in_world, zoom, ret in Hpoll.
  destruct (poll _ _) as [[r w]|e]; [|by exists 1%nat; apply (Hpoll [])]. cbn beta iota in Hpoll.
  set (s1 := Reactor.set_handling_ true _) in *.
  pose proof (fun l => handle_by_steps (snd r) l b s1) as Hhandle.
  destruct (for_each (Reactor.handle_one _) (snd r) s1) as [[[] s2]|e].
  2: { exists (S (length (snd r))). cbn [replicate]. rewrite Hpoll. specialize (Hhandle []). by rewrite app_nil_r in Hhandle. }
  set (s3 := on_parts (set_calling true) _).
  pose proof (fun l => functors_by_steps (pendingFunctors_ (Reactor.user s3)) l false (on_parts (set_pending []) s3)) as Hfunctors.
  assert (forall l, run_ (Own :: replicate (length (snd r)) Own ++ Own :: Own :: l) (State Polling b s) =
    run_ l (State (Functors (pendingFunctors_ (Reactor.user s3))) false (on_parts (set_pending []) s3))) as Hswap.
  { intros l. rewrite Hpoll, Hhandle, !run_own. cbn [own]. unfold bind, modify, ret, get. rewrite run_own. cbn [own].
    unfold bind, modify, ret, get. by rewrite andb_false_r. }
  set (n := length (pendingFunctors_ (Reactor.user s3))) in *.
  destruct (for_each run_functor_ _ _) as [[[] s4]|e].
  - exists (S (length (snd r) + S (S (n + 1)))). cbn [replicate]. rewrite replicate_add. cbn [replicate].
    rewrite replicate_add, Hswap, Hfunctors. done.
  - exists (S (length (snd r) + S (S (n + 0)))). cbn [replicate]. rewrite replicate_add. cbn [replicate].
    rewrite replicate_add, Hswap, Hfunctors. done.
Qed.

(** ** The loop *)

Context {K : Type} `{Lifetime.LoopLaws K}.

(** A loop that its constructor has just made. *)
Definition constructed x : Prop := exists this a (s s1 : Lifetime.thread_state P K),
  Lifetime.ok a s /\ a !! timerfdChannel_ = None /\ a !! wakeupChannel_ = None /\ timerfdChannel_ <> wakeupChannel_ /\
  Lifetime.construct this timerfdChannel_ wakeupChannel_ s = Ok ((timerfd, wakeupfd), s1) /\
  x = fresh (<[wakeupChannel_ := Lifetime.watching wakeupfd]> (<[timerfdChannel_ := Lifetime.watching timerfd]> a))
        (Lifetime.world s1).

Lemma constructed_inv x : constructed x -> loop_inv x.
Proof.
  intros (this & a & s & s1 & Hok & Ht & Hw & Hne & Hc & ->).
  destruct (wpe_elim _ _ _ _ _ _ (Lifetime.wpe_construct a this _ _ s Hok Ht Hw Hne) Hc)
    as (_ & _ & _ & _ & _ & _ & [R _] & Hr & Hr'). cbn [fst snd] in R.
  apply fresh_inv; [done..| |apply lookup_insert_eq]. by rewrite lookup_insert_ne, lookup_insert_eq.
Qed.






(** ** Every functor is run *)

(** The loop's thread is in [loop()]; the functor number [n] has been queued
    and has not started. *)
Definition waiting (n : nat) x : Prop := at_ x <> Before /\ at_ x <> Exited /\
  (length (started (Reactor.user (reactor x))) <= n < length (pushed (Reactor.user (reactor x))))%nat.

(** How far the loop's thread is from it. *)
Definition distance (n : nat) x : nat * nat :=
  match at_ x with
  | Functors l => (if n <? length (started (Reactor.user (reactor x))) + length l then 0 else 5, length l)
  | Swap => (1, 0)
  | Handling l => (2, length l)
  | Polling => (3, 0)
  | Check => (4, 0)
  | Before | Exited => (0, 0)
  end%nat.
Definition nearer : nat * nat -> nat * nat -> Prop := slexprod _ _ lt lt.

Lemma own_nearer n x x' : loop_inv x -> waiting n x -> own_step_ x = Ok (tt, x') -> waiting n x' ->
  nearer (distance n x') (distance n x).
Proof.
  destruct x as [p b s]. intros L (Hnb & _ & Hn) Hs. cbn in Hn, Hnb.
  assert (wpx own_step_ (fun _ y => waiting n y -> nearer (distance n y) (distance n (State p b s))) (State p b s)) as H9;
    [|by apply (wpe_elim _ _ _ _ _ _ H9 Hs)].
  clear Hs x'. apply wpe_loop_own. pose proof (l_inv _ L) as Hi. cbn in Hi.
  destruct p as [| | |[|c todo]| |[|f todo]|]; cbn [own distance at_ reactor]; [done|..].
  - wp_steps. intros (_ & Hx & _). cbn in Hx |- *. destruct (quit_ _); [done|]. left. lia.
  - wp_steps. eapply wpe_mono; [apply wpx_poll; by eapply inv_same|]. cbn beta. intros r s1 _. wp_steps. intros _. left. lia.
  - wp_steps. intros _. left. lia.
  - wp_step. eapply wpe_mono; [apply wpx_handle_one; [done|apply (l_there _ L); by left]|]. cbn beta. intros _ s' _. wp_steps.
    intros _. right. cbn. lia.
  - wp_steps. intros _. pose proof (l_order _ L) as Ho. cbn in Ho. apply (f_equal length) in Ho. rewrite length_app in Ho.
    unfold distance. cbn [at_ reactor]. rewrite (proj2 (Nat.ltb_lt _ _)) by (cbn; lia). left. lia.
  - wp_steps. intros _. rewrite (proj2 (Nat.ltb_ge _ _)) by (cbn; lia). left. lia.
  - wp_step. pose proof (l_tasks _ L) as Ht. cbn in Ht. eapply wpe_mono; [apply wpx_run_functor; [done|intros k ->; by eexists]|].
    cbn beta. intros _ s' [_ M]. pose proof (m_started _ _ _ M) as Es. replace (started (Reactor.user (taken_off f s)))
      with (started (Reactor.user s) ++ [f]) in Es by by destruct f.
    wp_steps. intros _. unfold distance. cbn [at_ reactor]. rewrite Es, length_app. cbn [length].
    replace (length (started (Reactor.user s)) + 1 + length todo)%nat with (length (started (Reactor.user s)) + S (length todo))%nat by lia.
    destruct (_ <? _)%nat; right; lia.
  - wp_steps. by intros (_ & ? & _).
Qed.

Lemma other_same n c x x' : c <> Own -> waiting n x -> step_ c x = Ok (tt, x') ->
  distance n x' = distance n x /\ waiting n x'.
Proof.
  intros Hc Hw Hs. set (R := fun s s' : R => started (Reactor.user s') = started (Reactor.user s) /\
    (length (pushed (Reactor.user s)) <= length (pushed (Reactor.user s')))%nat).
  assert (at_ x' = at_ x /\ R (reactor x) (reactor x')) as (E1 & E2 & E3).
  2: { unfold distance, waiting in *. rewrite E1, E2. split; [done|]. destruct Hw as (? & ? & ?). do 2 (split; [done|]). lia. }
  assert (PreOrder R) as HR.
  { split; [done|]. intros a b d [E F] [E' F']. split; [congruence|lia]. }
  assert (forall m : M _ unit, moves R m -> forall y, wlp (on_reactor m)
    (fun _ y' => at_ y' = at_ y /\ R (reactor y) (reactor y')) y) as Hon.
  { intros m Hm y. apply wpe_zoom. eapply wpe_mono; [apply Hm|]. done. }
  assert (forall f, (forall u, started (f u) = started u /\ (length (pushed u) <= length (pushed (f u)))%nat) ->
    moves R (modify (on_parts f))) as Hmod by (intros f Hf; apply moves_modify; intros s; apply Hf).
  assert (forall f, moves R (modify (on_parts (push f)))) as Hpush.
  { intros f. apply Hmod. intros u. cbn. rewrite length_app. split; [done|lia]. }
  assert (forall A (m : M TimerQueue.t A), moves R (in_timers m)) as Htm.
  { intros A m. apply (moves_zoom _ (fun _ _ => True)); [|done]. intros q. unfold wpe. by destruct (m q) as [[]|]. }
  assert (wlp (step_ c) (fun _ y => at_ y = at_ x /\ R (reactor x) (reactor y)) x) as H9;
    [|by apply (wpe_elim _ _ _ _ _ _ H9 Hs)].
  destruct Hw as (Hnb & _ & _).
  destruct c as [|f| |tid a|tid]; [done|..]; cbn [step]; wp_steps.
  1-2: destruct (at_ x) eqn:Hat; try done; wp_steps; by rewrite Hat.
  1-2: apply wpe_when; intros _; [|done]; apply Hon.
  - apply moves_bind; [done| |intros _; by apply Hmod]. destruct a; cbn [other]; try (by apply Hmod); try apply Hpush;
      (apply moves_bind; [done|apply Htm|intros ?; apply Hpush]).
  - apply moves_bind; [done|by apply Hmod|intros _]. apply Hmod. intros u. unfold wakeup. by case_all.
Qed.

Lemma others_same n l x x' : Forall (fun c => c <> Own) l -> waiting n x -> run_ l x = Ok (tt, x') ->
  distance n x' = distance n x /\ waiting n x'.
Proof.
  unfold run. intros Hl. revert x. induction Hl as [|c l Hc Hl IH]; intros x Hw; cbn [for_each]; [by intros [= ->]|].
  unfold bind. destruct (step_ c x) as [[[] y]|] eqn:Ec; [|done]. intros Hr.
  destruct (other_same n c x y Hc Hw Ec) as [E1 W1]. destruct (IH y W1 Hr) as [E2 W2]. split; [congruence|done].
Qed.

(** [x'] comes after [x] by a step of the loop's thread, with any number of
    steps of the other threads before it, and the functor waits in both. *)
Definition still_waiting (n : nat) x' x : Prop := waiting n x /\ waiting n x' /\
  exists l y, Forall (fun c => c <> Own) l /\ run_ l x = Ok (tt, y) /\ own_step_ y = Ok (tt, x').

(** C10: A functor in the queue is run: the loop's thread cannot go on step by
    step for ever with the functor waiting, whatever the other threads do in
    between, unless it leaves the loop (or a call does not return). *)
Theorem functors_run n x0 l x : constructed x0 -> run_ l x0 = Ok (tt, x) -> Acc (still_waiting n) x.
Proof.
  intros Hx0 Hr. pose proof (wpe_elim _ _ _ _ _ _ (loop_run_inv l x0 (constructed_inv x0 Hx0)) Hr) as L. clear Hr Hx0 x0 l.
  assert (well_founded nearer) as Hwf by (apply wf_slexprod; apply lt_wf).
  remember (distance n x) as d eqn:Ed. revert x L Ed. induction d as [d IH] using (well_founded_ind Hwf).
  intros x L ->. constructor. intros x' (Hw & Hw' & l & y & Hl & Hr & Hs).
  pose proof (wpe_elim _ _ _ _ _ _ (loop_run_inv l x L) Hr) as Ly. destruct (others_same n l x y Hl Hw Hr) as [Ed Hwy].
  pose proof (own_nearer n y x' Ly Hwy Hs Hw') as Hnear. rewrite Ed in Hnear. apply (IH _ Hnear); [|done].
  apply (wpe_elim _ _ _ _ _ _ (own_inv y Ly) Hs).
Qed.
End invariant.

(** ** A loop to instantiate the theorems with: callback 5 is a functor that
    starts a timer and watches a channel of its own, 4 queues functor 6, which
    quits. *)
Module Sample.
Notation P := (EPollPoller.t Sample.ep).
Notation R := (Reactor.reactor_state P parts).
Definition body (f : Z) (s : R) : list cmd :=
  if f =? 5 then [OfTimers (TimerQueue.RunAt 1 2500000);
                  OfLoop (NewChannel 300 (setReadCallback (Some 9) (Channel_new 7 9)));
                  OfLoop (Ask (Registry.EnableReading 300))]
  else if f =? 4 then [OfLoop (QueueInLoop 6)]
  else [OfLoop Quit].
Definition run := run TimerQueue.Sample.clock TimerQueue.Sample.alloc TimerQueue.Sample.script 100 200 body.
(** The kernel always reports the descriptor [fd]. *)
Definition start_with (fd : Z) : t (P := P) :=
  match Lifetime.construct 7 100 200 (sample_thread_ready [(fd, EPOLLIN)] None) with
  | Ok (_, s1) => fresh (<[200 := Lifetime.watching 4]> (<[100 := Lifetime.watching 3]> ∅)) (Lifetime.world s1)
  | Err _ => fresh ∅ (mkWorld ∅ (EPollPoller.init (Sample.mkEp ∅ [] 0)))
  end.

Definition start : t (P := P) := start_with 4.

Lemma start_constructed : constructed (K := gset Z) 100 200 3 4 start.
Proof.
  exists 7, ∅, (sample_thread_ready [(4, EPOLLIN)] None).
  assert (match Lifetime.construct 7 100 200 (sample_thread_ready [(4, EPOLLIN)] None) with
    | Ok (r, _) => r = (3, 4) | Err _ => False end) as E by by vm_compute.
  unfold start, start_with. destruct (Lifetime.construct 7 100 200 _) as [[r s1]|]; [|done]. subst r. exists s1.
  split; [apply sample_thread_ok|]. split; [done|]. split; [done|]. split; [done|]. by split.
Qed.

Definition after (l : list choice) : t := match run l start with Ok (_, x) => x | Err _ => start end.
End Sample.


(** The kernel reports the timerfd. *)
Example firing_undefined_in_loop :
  Sample.run [EnterLoop; Own; Own; Own] (Sample.start_with 3) = Err Undefined.
Proof. by vm_compute. Qed.

(** A functor that the own thread queues before [loop()]: the first poll
    blocks with it in the queue. *)
Example own_functor_waits : exists x, Sample.run [OwnCall 4; EnterLoop; Own] Sample.start = Ok (tt, x) /\
  at_ x = Polling /\ stale x = true /\ pendingFunctors_ (Reactor.user (reactor x)) = [User 6] /\
  wakeupFd_ (Reactor.user (reactor x)) = 0 /\ waking (Reactor.user (reactor x)) = ∅.
Proof. eexists. split; [vm_compute; reflexivity|]. repeat split. Qed.

Lemma functors_run_witness : let x := Sample.after [Other 7 (QueueFunctor 5); EnterLoop] in
  Sample.run [Other 7 (QueueFunctor 5); EnterLoop] Sample.start = Ok (tt, x) /\ waiting 0 x /\
  Acc (still_waiting TimerQueue.Sample.clock TimerQueue.Sample.alloc TimerQueue.Sample.script 100 200
    Sample.body 0) x.
Proof.
  intros x. assert (Sample.run [Other 7 (QueueFunctor 5); EnterLoop] Sample.start = Ok (tt, x)) as Hr by (vm_compute; reflexivity).
  split; [exact Hr|]. split; [split; [vm_compute; congruence|split; [vm_compute; congruence|vm_compute; split; [apply le_n|apply le_n]]]|].
  exact (functors_run TimerQueue.Sample.clock TimerQueue.Sample.alloc TimerQueue.Sample.script
    TimerQueue.Sample.alloc_fresh TimerQueue.Sample.clock_positive 100 200 3 4 Sample.body
    0 Sample.start [Other 7 (QueueFunctor 5); EnterLoop] x Sample.start_constructed Hr).
Defined.
End Loop.
