(* ===== verification/TcpConnection.v ===== *)
(** * A TCP connection (TcpConnection.h, TcpConnection.c++)

    One connection in its loop's thread: its state, its channel in the loop's
    poller (any poller), its two buffers, the functors it has queued on the
    loop, and the calls other threads make, in their steps.  The socket is a parameter with
    the documented behaviour of its system calls; the user's callbacks are
    programs of [cmd]s chosen by [script] from the connection's state.
    [TcpServer]'s close callback and its call of [connectDestroyed] are
    steps of the environment. *)
From S2P Require Import Prelude Channel EPollPoller PollPoller Pollers.
From S2P Require Import Endian StringPiece Buffer.

Module TcpConnection.

Inductive StateE : Type := kDisconnected | kConnecting | kConnected | kDisconnecting.
#[export] Instance StateE_eq_dec : EqDecision StateE.
Proof. solve_decision. Defined.

Definition stateToString (st : StateE) : string :=
  match st with
  | kDisconnected => "kDisconnected"
  | kConnecting => "kConnecting"
  | kConnected => "kConnected"
  | kDisconnecting => "kDisconnecting"
  end.

(** The message callback of a user who sets none. *)
Definition defaultMessageCallback : M Buffer.t unit := Buffer.retrieveAll.

Definition EWOULDBLOCK : Z := 11.
Definition EPIPE : Z := 32.
Definition ECONNRESET : Z := 104.

(** write(2) returns an error number or the count written; readv(2) answers
    the lengths of the vectors; shutdown(2) of the writing side;
    getsockopt(SO_ERROR). *)
Class Socket (K : Type) : Type := {
  sock_write : K -> list byte -> K * (Z + Z);
  sock_readv : K -> list Z -> K * Buffer.read_result;
  sock_shutdownWrite : K -> K;
  sock_getSocketError : K -> K * Z }.
Class SocketLaws (K : Type) `{Socket K} : Prop := {
  write_count : forall k d n, snd (sock_write k d) = inr n -> 0 <= n <= Zlen d;
  readv_count : forall k iov d, snd (sock_readv k iov) = Buffer.ReadOk d -> Zlen d <= foldr Z.add 0 iov }.

(** The functors queued on the loop. *)
Inductive functor : Type :=
| SendInLoop (d : list byte)
| ShutdownInLoop
| ForceCloseInLoop
| StartReadInLoop
| StopReadInLoop
| WriteCompleteCallback
| HighWaterMarkCallback (n : Z).

(** What user code calls on a connection. *)
Inductive cmd : Type :=
| Send (d : list byte)
| Shutdown
| ForceClose
| ForceCloseWithDelay
| StartRead
| StopRead
| Retrieve (n : Z).      (* inputBuffer()->retrieve, at most what is there *)

(** The user's callbacks. *)
Inductive callback : Type := OnConnection | OnMessage | OnWriteComplete | OnHighWaterMark (n : Z).

Inductive event : Type :=
| Called (cb : callback) (st : StateE)     (* a user callback, in which state *)
| CloseCallback                            (* closeCallback_ *)
| Sending (d : list byte)                  (* sendInLoop called *)
| Wrote (d : list byte)                    (* bytes the socket took *)
| Received (d : list byte)                 (* bytes the socket delivered *)
| ShutdownWrite
| Error (err : Z).

Record t (P K : Type) : Type := mk {
  world : World P;
  kernel : K;
  state_ : StateE;
  reading_ : bool;
  writeCompleteCallback_ : bool;           (* set or not *)
  highWaterMarkCallback_ : bool;
  highWaterMark_ : Z;
  inputBuffer_ : Buffer.t;
  outputBuffer_ : Buffer.t;
  pending : list functor;
  delayed : nat;                           (* armed forceCloseWithDelay timers *)
  racing : list (bool * cmd);              (* calls under way in other threads, see OpCheck *)
  log : list event }.
Arguments mk {P K}.
Arguments world {P K}.
Arguments kernel {P K}.
Arguments state_ {P K}.
Arguments reading_ {P K}.
Arguments writeCompleteCallback_ {P K}.
Arguments highWaterMarkCallback_ {P K}.
Arguments highWaterMark_ {P K}.
Arguments inputBuffer_ {P K}.
Arguments outputBuffer_ {P K}.
Arguments pending {P K}.
Arguments delayed {P K}.
Arguments racing {P K}.
Arguments log {P K}.

Section setters.
Context {P K : Type}.
Definition set_world v (s : t P K) : t P K := mk v (kernel s) (state_ s) (reading_ s) (writeCompleteCallback_ s) (highWaterMarkCallback_ s)
  (highWaterMark_ s) (inputBuffer_ s) (outputBuffer_ s) (pending s) (delayed s) (racing s) (log s).
Definition set_kernel v (s : t P K) : t P K := mk (world s) v (state_ s) (reading_ s) (writeCompleteCallback_ s) (highWaterMarkCallback_ s)
  (highWaterMark_ s) (inputBuffer_ s) (outputBuffer_ s) (pending s) (delayed s) (racing s) (log s).
Definition setState v (s : t P K) : t P K := mk (world s) (kernel s) v (reading_ s) (writeCompleteCallback_ s) (highWaterMarkCallback_ s)
  (highWaterMark_ s) (inputBuffer_ s) (outputBuffer_ s) (pending s) (delayed s) (racing s) (log s).
Definition set_reading v (s : t P K) : t P K := mk (world s) (kernel s) (state_ s) v (writeCompleteCallback_ s) (highWaterMarkCallback_ s)
  (highWaterMark_ s) (inputBuffer_ s) (outputBuffer_ s) (pending s) (delayed s) (racing s) (log s).
Definition set_input v (s : t P K) : t P K := mk (world s) (kernel s) (state_ s) (reading_ s) (writeCompleteCallback_ s) (highWaterMarkCallback_ s)
  (highWaterMark_ s) v (outputBuffer_ s) (pending s) (delayed s) (racing s) (log s).
Definition set_output v (s : t P K) : t P K := mk (world s) (kernel s) (state_ s) (reading_ s) (writeCompleteCallback_ s) (highWaterMarkCallback_ s)
  (highWaterMark_ s) (inputBuffer_ s) v (pending s) (delayed s) (racing s) (log s).
Definition set_pending v (s : t P K) : t P K := mk (world s) (kernel s) (state_ s) (reading_ s) (writeCompleteCallback_ s) (highWaterMarkCallback_ s)
  (highWaterMark_ s) (inputBuffer_ s) (outputBuffer_ s) v (delayed s) (racing s) (log s).
Definition set_delayed v (s : t P K) : t P K := mk (world s) (kernel s) (state_ s) (reading_ s) (writeCompleteCallback_ s) (highWaterMarkCallback_ s)
  (highWaterMark_ s) (inputBuffer_ s) (outputBuffer_ s) (pending s) v (racing s) (log s).
Definition set_racing v (s : t P K) : t P K := mk (world s) (kernel s) (state_ s) (reading_ s) (writeCompleteCallback_ s) (highWaterMarkCallback_ s)
  (highWaterMark_ s) (inputBuffer_ s) (outputBuffer_ s) (pending s) (delayed s) v (log s).
Definition emit e (s : t P K) : t P K := mk (world s) (kernel s) (state_ s) (reading_ s) (writeCompleteCallback_ s) (highWaterMarkCallback_ s)
  (highWaterMark_ s) (inputBuffer_ s) (outputBuffer_ s) (pending s) (delayed s) (racing s) (log s ++ [e]).
Definition queueInLoop f (s : t P K) : t P K := set_pending (pending s ++ [f]) s.
End setters.

Section operations.
Context {P K : Type} `{Poller P} `{Socket K}.
Notation C := (t P K).
(** The channel's address; [Channel::tie], which the repository declares
    and does not define; the user's callbacks. *)
Context (channel_ : Z) (tie : M C unit) (script : callback -> C -> list cmd).

Definition in_world {A} (m : M (World P) A) : M C A := zoom world set_world m.
Definition in_input {A} (m : M Buffer.t A) : M C A := zoom inputBuffer_ set_input m.
Definition in_output {A} (m : M Buffer.t A) : M C A := zoom outputBuffer_ set_output m.
Definition channel_isWriting : M C bool := let* ch := in_world (channel channel_) in ret (isWriting ch).
Definition channel_isReading : M C bool := let* ch := in_world (channel channel_) in ret (isReading ch).

(** [sockets::write(channel_->fd(), ...)], with what the socket took. *)
Definition write (d : list byte) : M C (Z + Z) :=
  let* s := get in
  let '(k, r) := sock_write (kernel s) d in
  modify (set_kernel k) ;;;
  match r with
  | inr n => modify (emit (Wrote (ztake n d))) ;;; ret r
  | inl _ => ret r
  end.

(** Returns the bytes left to send and whether the connection is broken. *)
Definition write_directly (d : list byte) : M C (Z * Z * bool) :=
  let len := Zlen d in
  let* r := write d in
  match r with
  | inr nwrote =>
      let remaining := u64 (len - nwrote) in
      let* s := get in
      when ((remaining =? 0) && writeCompleteCallback_ s) (modify (queueInLoop WriteCompleteCallback)) ;;;
      ret (nwrote, remaining, false)
  | inl err =>
      ret (0, len, negb (err =? EWOULDBLOCK) && ((err =? EPIPE) || (err =? ECONNRESET)))
  end.

Definition sendInLoop (d : list byte) : M C unit :=
  modify (emit (Sending d)) ;;;
  let len := Zlen d in
  let* s := get in
  if decide (state_ s = kDisconnected) then ret tt
  else
    let* w := channel_isWriting in
    let* r :=
      if negb w && (Buffer.readableBytes (outputBuffer_ s) =? 0) then write_directly d
      else ret (0, len, false) in
    let '(nwrote, remaining, faultError) := r in
    assert_ (remaining <=? len) ;;;
    when (negb faultError && (0 <? remaining))
      (let* s := get in
       let oldLen := Buffer.readableBytes (outputBuffer_ s) in
       when ((highWaterMark_ s <=? u64 (oldLen + remaining)) && (oldLen <? highWaterMark_ s) && highWaterMarkCallback_ s)
         (modify (queueInLoop (HighWaterMarkCallback (u64 (oldLen + remaining))))) ;;;
       in_output (Buffer.append (cptr_add (ptr_to d) nwrote) remaining) ;;;
       let* w := channel_isWriting in
       when (negb w) (in_world (enableWriting channel_))).

Definition shutdownInLoop : M C unit :=
  let* w := channel_isWriting in
  when (negb w) (modify (emit ShutdownWrite) ;;; modify (fun s => set_kernel (sock_shutdownWrite (kernel s)) s)).

Definition startReadInLoop : M C unit :=
  let* s := get in
  let* r := channel_isReading in
  when (negb (reading_ s) || negb r)
    (in_world (enableReading channel_) ;;; modify (set_reading true)).
Definition stopReadInLoop : M C unit :=
  let* s := get in
  let* r := channel_isReading in
  when (reading_ s || r)
    (in_world (disableReading channel_) ;;; modify (set_reading false)).

(** The public calls; [loop_->runInLoop] runs at once in the loop's thread. *)
Definition run_or_queue (inLoopThread : bool) (m : M C unit) (f : functor) : M C unit :=
  if inLoopThread then m else modify (queueInLoop f).

Definition send (inLoopThread : bool) (d : list byte) : M C unit :=
  let* s := get in
  when (bool_decide (state_ s = kConnected)) (run_or_queue inLoopThread (sendInLoop d) (SendInLoop d)).
Definition shutdown (inLoopThread : bool) : M C unit :=
  let* s := get in
  when (bool_decide (state_ s = kConnected))
    (modify (setState kDisconnecting) ;;; run_or_queue inLoopThread shutdownInLoop ShutdownInLoop).
Definition forceClose : M C unit :=
  let* s := get in
  when (bool_decide (state_ s = kConnected) || bool_decide (state_ s = kDisconnecting))
    (modify (setState kDisconnecting) ;;; modify (queueInLoop ForceCloseInLoop)).
Definition forceCloseWithDelay : M C unit :=
  let* s := get in
  when (bool_decide (state_ s = kConnected) || bool_decide (state_ s = kDisconnecting))
    (modify (setState kDisconnecting) ;;; modify (fun s => set_delayed (S (delayed s)) s)).
Definition startRead (inLoopThread : bool) : M C unit :=
  run_or_queue inLoopThread startReadInLoop StartReadInLoop.
Definition stopRead (inLoopThread : bool) : M C unit :=
  run_or_queue inLoopThread stopReadInLoop StopReadInLoop.

(** The overload of [send] for a [Buffer], which is emptied when the
    message is taken. *)
Definition send_buffer (inLoopThread : bool) (buf : Buffer.t) : M C Buffer.t :=
  let* s := get in
  if decide (state_ s = kConnected) then
    if inLoopThread then
      let* d := lift (Buffer.range buf (Buffer.peek buf) (Buffer.peek buf + Buffer.readableBytes buf)) in
      sendInLoop d ;;;
      let* r := lift (Buffer.retrieveAll buf) in
      ret (snd r)
    else
      let* r := lift (Buffer.retrieveAllAsString buf) in
      modify (queueInLoop (SendInLoop (fst r))) ;;;
      ret (snd r)
  else ret buf.

Definition exec_cmd (inLoopThread : bool) (c : cmd) : M C unit :=
  match c with
  | Send d => send inLoopThread d
  | Shutdown => shutdown inLoopThread
  | ForceClose => forceClose
  | ForceCloseWithDelay => forceCloseWithDelay
  | StartRead => startRead inLoopThread
  | StopRead => stopRead inLoopThread
  | Retrieve n =>
      let* s := get in
      in_input (Buffer.retrieve (Z.min (Z.max 0 n) (Buffer.readableBytes (inputBuffer_ s))))
  end.

Definition call_user (cb : callback) : M C unit :=
  let* s := get in
  modify (emit (Called cb (state_ s))) ;;;
  let* s := get in
  for_each (exec_cmd true) (script cb s).

Definition handleError : M C unit :=
  let* s := get in
  let '(k, err) := sock_getSocketError (kernel s) in
  modify (set_kernel k) ;;;
  modify (emit (Error err)).

Definition handleClose : M C unit :=
  let* s := get in
  assert_ (bool_decide (state_ s = kConnected) || bool_decide (state_ s = kDisconnecting)) ;;;
  modify (setState kDisconnected) ;;;
  in_world (disableAll channel_) ;;;
  call_user OnConnection ;;;
  modify (emit CloseCallback).

Definition handleRead : M C unit :=
  let* s := get in
  let k := kernel s in
  let b := inputBuffer_ s in
  let* r := in_input (Buffer.readFd (fun iov => snd (sock_readv k iov))) in
  modify (set_kernel (fst (sock_readv k (Buffer.readFd_iov b)))) ;;;
  let n := fst r in
  if 0 <? n then
    modify (fun s => emit (Received (zdrop (Zlen (Buffer.content b)) (Buffer.content (inputBuffer_ s)))) s) ;;;
    call_user OnMessage
  else if n =? 0 then handleClose
  else handleError.

Definition handleWrite : M C unit :=
  let* w := channel_isWriting in
  when w
    (let* s := get in
     let* d := lift (Buffer.range (outputBuffer_ s) (Buffer.peek (outputBuffer_ s))
                       (Buffer.peek (outputBuffer_ s) + Buffer.readableBytes (outputBuffer_ s))) in
     let* r := write d in
     match r with
     | inr n =>
         when (0 <? n)
           (in_output (Buffer.retrieve n) ;;;
            let* s := get in
            when (Buffer.readableBytes (outputBuffer_ s) =? 0)
              (in_world (disableWriting channel_) ;;;
               when (writeCompleteCallback_ s) (modify (queueInLoop WriteCompleteCallback)) ;;;
               let* s := get in
               when (bool_decide (state_ s = kDisconnecting)) shutdownInLoop))
     | inl _ => ret tt
     end).

Definition forceCloseInLoop : M C unit :=
  let* s := get in
  when (bool_decide (state_ s = kConnected) || bool_decide (state_ s = kDisconnecting)) handleClose.

Definition connectEstablished : M C unit :=
  let* s := get in
  assert_ (bool_decide (state_ s = kConnecting)) ;;;
  modify (setState kConnected) ;;;
  tie ;;;
  in_world (enableReading channel_) ;;;
  call_user OnConnection.

Definition connectDestroyed : M C unit :=
  let* s := get in
  when (bool_decide (state_ s = kConnected))
    (modify (setState kDisconnected) ;;;
     in_world (disableAll channel_) ;;;
     call_user OnConnection) ;;;
  in_world (remove channel_).

(** The destructor's assertion. *)
Definition destructor : M C unit :=
  let* s := get in assert_ (bool_decide (state_ s = kDisconnected)).

Definition exec_functor (f : functor) : M C unit :=
  match f with
  | SendInLoop d => sendInLoop d
  | ShutdownInLoop => shutdownInLoop
  | ForceCloseInLoop => forceCloseInLoop
  | StartReadInLoop => startReadInLoop
  | StopReadInLoop => stopReadInLoop
  | WriteCompleteCallback => call_user OnWriteComplete
  | HighWaterMarkCallback n => call_user (OnHighWaterMark n)
  end.

(** The callbacks the constructor gives the channel. *)
Definition run_channel (cb time : Z) : M C unit :=
  match cb with
  | 0 => handleRead
  | 1 => handleWrite
  | 2 => handleClose
  | _ => handleError
  end.

(** A call from another thread in its steps: [if (state_ == ...)],
    [setState(kDisconnecting)], and [runInLoop], [queueInLoop] or [runAfter]. *)
Definition tests (c : cmd) (st : StateE) : bool :=
  match c with
  | Send _ | Shutdown => bool_decide (st = kConnected)
  | ForceClose | ForceCloseWithDelay => bool_decide (st = kConnected) || bool_decide (st = kDisconnecting)
  | StartRead | StopRead => true
  | Retrieve _ => false                    (* not a call of other threads *)
  end.
Definition sets (c : cmd) : bool :=
  match c with Shutdown | ForceClose | ForceCloseWithDelay => true | _ => false end.
Definition hand_over (c : cmd) : M C unit :=
  match c with
  | Send d => modify (queueInLoop (SendInLoop d))
  | Shutdown => modify (queueInLoop ShutdownInLoop)
  | ForceClose => modify (queueInLoop ForceCloseInLoop)
  | ForceCloseWithDelay => modify (fun s => set_delayed (S (delayed s)) s)
  | StartRead => modify (queueInLoop StartReadInLoop)
  | StopRead => modify (queueInLoop StopReadInLoop)
  | Retrieve _ => ret tt
  end.
Definition remote_check (c : cmd) : M C unit :=
  let* s := get in when (tests c (state_ s)) (modify (set_racing (racing s ++ [(sets c, c)]))).
Definition remote_set (i : nat) : M C unit :=
  let* s := get in
  match racing s !! i with
  | Some (true, c) => modify (set_racing (<[i := (false, c)]> (racing s))) ;;; modify (setState kDisconnecting)
  | _ => ret tt
  end.
Definition remote_queue (i : nat) : M C unit :=
  let* s := get in
  match racing s !! i with
  | Some (false, c) => modify (set_racing (delete i (racing s))) ;;; hand_over c
  | _ => ret tt
  end.

Inductive op : Type :=
| OpEstablish                    (* TcpServer: ioLoop->runInLoop(connectEstablished) *)
| OpEvents (revents time : Z)    (* the poller reports events on the channel *)
| OpFunctor                      (* doPendingFunctors runs the oldest functor *)
| OpTimer                        (* a forceCloseWithDelay timer calls forceClose *)
| OpUser (c : cmd)               (* a call from the loop's thread *)
| OpRemote (c : cmd)             (* a call from another thread, undisturbed *)
| OpCheck (c : cmd)              (* another thread calls: it tests state_ ... *)
| OpSet (i : nat)                (* ... the [i]-th of those under way sets it ... *)
| OpQueue (i : nat)              (* ... or hands the rest over to the loop *)
| OpDestroy.                     (* TcpServer: connectDestroyed *)

Definition step (o : op) : M C unit :=
  match o with
  | OpEstablish => connectEstablished
  | OpEvents revents time =>
      in_world (write_channel channel_ (set_revents revents)) ;;;
      handleEvent (fun c => in_world (channel c)) (fun c f => in_world (write_channel c f)) run_channel channel_ time
  | OpFunctor =>
      let* s := get in
      match pending s with
      | [] => ret tt
      | f :: fs => modify (set_pending fs) ;;; exec_functor f
      end
  | OpTimer =>
      let* s := get in
      match delayed s with
      | O => ret tt
      | S n => modify (set_delayed n) ;;; forceClose
      end
  | OpUser c => exec_cmd true c
  | OpRemote c => exec_cmd false c
  | OpCheck c => remote_check c
  | OpSet i => remote_set i
  | OpQueue i => remote_queue i
  | OpDestroy => connectDestroyed
  end.

(** The constructor; the channel is a new one of its loop. *)
Definition new_channel (loop sockfd : Z) : Channel :=
  setErrorCallback (Some 3) (setCloseCallback (Some 2) (setWriteCallback (Some 1)
    (setReadCallback (Some 0) (Channel_new loop sockfd)))).
Definition make (w : World P) (k : K) (writeComplete highWater : bool) : result C :=
  match Buffer.make Buffer.kInitialSize with
  | Ok b => Ok (mk w k kConnecting true writeComplete highWater (64 * 1024 * 1024) b b [] 0 [] [])
  | Err e => Err e
  end.
End operations.

(** ** Invariants *)

(** What the log says: the bytes the socket took, the messages given to
    [sendInLoop], the states in which the connection callback was called, how
    often the close callback was. *)
Definition wire (l : list event) : list byte :=
  concat (omap (fun e => match e with Wrote d => Some d | _ => None end) l).
Definition sendings (l : list event) : list (list byte) :=
  omap (fun e => match e with Sending d => Some d | _ => None end) l.
Definition connections (l : list event) : list StateE :=
  omap (fun e => match e with Called OnConnection st => Some st | _ => None end) l.
Definition closes (l : list event) : Z :=
  Zlen (omap (fun e => match e with CloseCallback => Some tt | _ => None end) l).

Definition halves (l : list event) : list unit :=
  omap (fun e => match e with ShutdownWrite => Some tt | _ => None end) l.

Lemma wire_app l k : wire (l ++ k) = wire l ++ wire k.
Proof. unfold wire. by rewrite omap_app, concat_app. Qed.
Lemma sendings_app l k : sendings (l ++ k) = sendings l ++ sendings k.
Proof. apply omap_app. Qed.
Lemma connections_app l k : connections (l ++ k) = connections l ++ connections k.
Proof. apply omap_app. Qed.
Lemma closes_app l k : closes (l ++ k) = closes l + closes k.
Proof. unfold closes. by rewrite omap_app, Zlen_app. Qed.

(** No close callback and no half-close. *)
Definition quiet (l : list event) : Prop := closes l = 0 /\ halves l = [].

(** Every half-close in the log comes after the close of the connection, or
    finds every message accepted so far on the wire. *)
Definition drained (l : list event) : Prop := forall l1 l2, l = l1 ++ ShutdownWrite :: l2 ->
  kDisconnected ∈ connections l1 \/
  exists msgs, msgs `sublist_of` sendings l1 /\ wire l1 = concat msgs.

Lemma drained_app l k : drained l -> halves k = [] -> drained (l ++ k).
Proof.
  intros Hl Hk l1 l2 E. apply app_eq_app in E as (m & [[-> E]|[-> E]]).
  - destruct m as [|e m]; cbn in E.
    + subst k. discriminate.
    + injection E as <- ->. by apply (Hl l1 m).
  - exfalso. subst k. unfold halves in Hk. rewrite omap_app in Hk. by apply app_eq_nil in Hk as [_ [=]].
Qed.

Lemma drained_shutdown l : drained l ->
  (kDisconnected ∈ connections l \/ exists msgs, msgs `sublist_of` sendings l /\ wire l = concat msgs) ->
  drained (l ++ [ShutdownWrite]).
Proof.
  intros Hl Hd l1 l2 E. apply app_eq_app in E as (m & [[-> E]|[-> E]]).
  - destruct m as [|e m]; cbn in E.
    + rewrite app_nil_r in *. done.
    + injection E as <- ->. by apply (Hl l1 m).
  - destruct m as [|e m]; [by rewrite app_nil_r|]. cbn in E. injection E as _ E.
    by destruct m.
Qed.

(** A message fits the [int] length of a [StringPiece]. *)
Definition small (d : list byte) : Prop := Zlen d < 2 ^ 31.

Definition is_open (st : StateE) : Prop := st = kConnected \/ st = kDisconnecting.

Definition events_of (r w : bool) : Z := (if r then kReadEvent else 0) + (if w then kWriteEvent else 0).

Lemma events_of_write r w : has (events_of r w) kWriteEvent = w.
Proof. by destruct r, w. Qed.
Lemma events_of_read r w : has (events_of r w) kReadEvent = r.
Proof. by destruct r, w. Qed.

Definition writing {P K} (s : t P K) : bool := negb (bool_decide (Buffer.content (outputBuffer_ s) = [])).

(** The faults that are not the connection's: a failing [epoll_ctl] is fatal,
    memory can run out. *)
Definition external (e : fault) : Prop := e = Aborted \/ e = Thrown.

Section invariant.
Context {P K : Type} `{PollerSpec P} `{SocketLaws K}.
Notation C := (t P K).
Context (channel_ fd : Z) (tie : M C unit) (script : callback -> C -> list cmd).
Hypothesis tie_keeps : forall s, tie s = Ok (tt, s).

(** What the channel asks for in each state. *)
Definition chan_state (s : C) (ev : Z) (st : Registry.status) : Prop :=
  match state_ s with
  | kConnecting => ev = 0 /\ st = Registry.Fresh
  | kConnected | kDisconnecting => ev = events_of (reading_ s) (writing s) /\ st = Registry.Registered
  | kDisconnected => ev = 0 /\ st <> Registry.Fresh
  end.

Record inv (s : C) : Prop := {
  inv_chan : exists a ev st, Registry.refines a (world s) /\
    a !! channel_ = Some (Registry.AChan fd ev st) /\ chan_state s ev st;
  inv_input : Buffer.wf (inputBuffer_ s);
  inv_output : Buffer.wf (outputBuffer_ s);
  inv_stream : exists msgs, msgs `sublist_of` sendings (log s) /\
    wire (log s) ++ Buffer.content (outputBuffer_ s) = concat msgs;
  inv_calls : connections (log s) =
    match state_ s with
    | kConnecting => []
    | kConnected | kDisconnecting => [kConnected]
    | kDisconnected => [kConnected; kDisconnected]
    end;
  inv_closes : closes (log s) <= (if decide (state_ s = kDisconnected) then 1 else 0);
  inv_pending : forall d, SendInLoop d ∈ pending s -> small d;
  inv_connecting : state_ s = kConnecting -> pending s = [] /\ delayed s = O /\
    Buffer.content (outputBuffer_ s) = [] /\ reading_ s = true /\ racing s = [];
  inv_racing : forall b d, (b, Send d) ∈ racing s -> small d;
  inv_half : drained (log s) }.

Lemma wpe_exec E (o : Registry.op) a a' (m : M (World P) unit) (Q : unit -> C -> Prop) s :
  Registry.refines a (world s) -> Registry.step a o = Some a' -> Registry.exec o = m -> E Aborted ->
  Registry.op_channel o = Some channel_ ->
  (forall w', Registry.refines a' w' -> Registry.stable channel_ (world s) w' -> Q tt (set_world w' s)) ->
  wpe E (in_world m) Q s.
Proof.
  intros R Hs <- HE Hnp HQ. unfold in_world. apply wpe_zoom. eapply wpe_weaken.
  - eapply wpe_mono; [by eapply Registry.refines_step_stable|]. cbn. intros [] w' [R' Hk]. by apply HQ.
  - by intros e <-.
Qed.

Lemma wpe_isWriting E a ev st (Q : bool -> C -> Prop) s :
  Registry.refines a (world s) -> a !! channel_ = Some (Registry.AChan fd ev st) ->
  Q (has ev kWriteEvent) s -> wpe E (channel_isWriting channel_) Q s.
Proof.
  intros R Ha HQ. destruct (Registry.refines_lookup _ _ _ _ R Ha) as (ch & Hc & _ & _ & Hev & _).
  unfold channel_isWriting, in_world. wp_steps. apply wpe_zoom. eapply wpe_channel; [exact Hc|]. wp_steps.
  unfold isWriting. rewrite Hev. cbn. by destruct s.
Qed.

Lemma wpe_isReading E a ev st (Q : bool -> C -> Prop) s :
  Registry.refines a (world s) -> a !! channel_ = Some (Registry.AChan fd ev st) ->
  Q (has ev kReadEvent) s -> wpe E (channel_isReading channel_) Q s.
Proof.
  intros R Ha HQ. destruct (Registry.refines_lookup _ _ _ _ R Ha) as (ch & Hc & _ & _ & Hev & _).
  unfold channel_isReading, in_world. wp_steps. apply wpe_zoom. eapply wpe_channel; [exact Hc|]. wp_steps.
  unfold isReading. rewrite Hev. cbn. by destruct s.
Qed.

(** What [sendInLoop] does to a message. *)
Definition broken (r : Z + Z) : Prop := r = inl EPIPE \/ r = inl ECONNRESET.
Definition sent (d : list byte) (s s' : C) : Prop :=
  state_ s' = state_ s /\ reading_ s' = reading_ s /\ inputBuffer_ s' = inputBuffer_ s /\
  closes (log s') = closes (log s) /\
  (state_ s = kDisconnected -> world s' = world s) /\
  Registry.stable channel_ (world s) (world s') /\
  exists took : bool,
    wire (log s') ++ Buffer.content (outputBuffer_ s') =
      wire (log s) ++ Buffer.content (outputBuffer_ s) ++ (if took then d else []) /\
    (took = false -> state_ s = kDisconnected \/
       Buffer.content (outputBuffer_ s) = [] /\ broken (snd (sock_write (kernel s) d))).

(** The rest of [sendInLoop], once [nwrote] bytes are on the wire. *)
Lemma wpe_write_directly d (s : C) : small d ->
  wp (write_directly d) (fun r s' =>
    let '(nwrote, remaining, faultError) := r in
    0 <= nwrote <= Zlen d /\ remaining = Zlen d - nwrote /\
    (faultError = true <-> broken (snd (sock_write (kernel s) d))) /\ (faultError = true -> nwrote = 0) /\
    exists k p l, s' = mk (world s) k (state_ s) (reading_ s) (writeCompleteCallback_ s) (highWaterMarkCallback_ s)
        (highWaterMark_ s) (inputBuffer_ s) (outputBuffer_ s) (pending s ++ p) (delayed s) (racing s) (log s ++ l) /\
      wire l = ztake nwrote d /\ sendings l = [] /\ connections l = [] /\ quiet l /\
      (forall d', SendInLoop d' ∉ p)) s.
Proof.
  intros Hd. unfold write_directly, write. wp_steps.
  pose proof (write_count (kernel s) d) as Hn. pose proof (Zlen_nonneg d). unfold small in Hd.
  destruct (sock_write (kernel s) d) as [k [err|n]] eqn:Ew; cbn [snd] in Hn.
  - wp_steps. split; [lia|]. split; [lia|]. unfold broken; cbn. split; [|split; [done|]].
    + unfold EPIPE, ECONNRESET, EWOULDBLOCK. rewrite andb_true_iff, orb_true_iff, negb_true_iff, !Z.eqb_eq, Z.eqb_neq.
      split; [intros [_ [->| ->]]; auto|]. intros [[= ->]|[= ->]]; auto.
    + exists k, [], []. rewrite !app_nil_r. split; [done|]. repeat (split; [done|]). set_solver.
  - specialize (Hn n eq_refl). wp_steps. rewrite u64_small by lia.
    assert (forall p, (forall d', SendInLoop d' ∉ p) ->
      exists k' p' l, set_pending (pending s ++ p) (emit (Wrote (ztake n d)) (set_kernel k s)) =
        mk (world s) k' (state_ s) (reading_ s) (writeCompleteCallback_ s) (highWaterMarkCallback_ s)
        (highWaterMark_ s) (inputBuffer_ s) (outputBuffer_ s) (pending s ++ p') (delayed s) (racing s) (log s ++ l) /\
      wire l = ztake n d /\ sendings l = [] /\ connections l = [] /\ quiet l /\
      (forall d', SendInLoop d' ∉ p')) as Hex.
    { intros p Hp. exists k, p, [Wrote (ztake n d)]. split; [done|]. unfold wire; cbn. rewrite app_nil_r. done. }
    apply wpe_when; intros _; wp_steps.
    + split; [lia|]. split; [lia|]. split; [unfold broken; split; [done|intros [?|?]; done]|]. split; [done|].
      apply (Hex [WriteCompleteCallback]). set_solver.
    + split; [lia|]. split; [lia|]. split; [unfold broken; split; [done|intros [?|?]; done]|]. split; [done|].
      destruct (Hex []) as (k' & p' & l & E & G); [set_solver|]. exists k', p', l. split; [|done]. rewrite <- E.
      unfold set_pending, emit, set_kernel; cbn. by rewrite app_nil_r.
Qed.

(** The state once [sendInLoop] has dealt with [d]. *)
Definition after_send (d : list byte) (s : C) (w' : World P) (k' : K) (out' : Buffer.t) p l : C :=
  mk w' k' (state_ s) (reading_ s) (writeCompleteCallback_ s) (highWaterMarkCallback_ s)
    (highWaterMark_ s) (inputBuffer_ s) out' (pending s ++ p) (delayed s) (racing s) (log s ++ Sending d :: l).

Lemma inv_after_send (took : bool) d s w' k' out' p l a ev st :
  inv s -> state_ s <> kConnecting ->
  Registry.refines a w' -> a !! channel_ = Some (Registry.AChan fd ev st) ->
  chan_state (after_send d s w' k' out' p l) ev st ->
  Buffer.wf out' ->
  wire l ++ Buffer.content out' = Buffer.content (outputBuffer_ s) ++ (if took then d else []) ->
  (wire l = [] \/ Buffer.content (outputBuffer_ s) = []) ->
  sendings l = [] -> connections l = [] -> quiet l -> (forall d', SendInLoop d' ∉ p) ->
  (took = false -> state_ s = kDisconnected \/
     Buffer.content (outputBuffer_ s) = [] /\ broken (snd (sock_write (kernel s) d))) ->
  (state_ s = kDisconnected -> w' = world s) -> Registry.stable channel_ (world s) w' ->
  inv (after_send d s w' k' out' p l) /\ sent d s (after_send d s w' k' out' p l).
Proof.
  intros [I1 I2 I3 (msgs & I4 & I4') I5 I6 I7 I8 I9 I10] Hst R Ha Hchan Hwf Hwire Hw Hs Hc Hcl Hp Htook Hworld Hkept.
  assert (wire (log s ++ Sending d :: l) ++ Buffer.content out' =
    wire (log s) ++ Buffer.content (outputBuffer_ s) ++ (if took then d else [])) as Hstream.
  { rewrite wire_app. change (wire (Sending d :: l)) with (wire l). rewrite <- app_assoc. by rewrite Hwire. }
  split.
  - constructor; cbn [after_send world kernel state_ inputBuffer_ outputBuffer_ pending delayed racing log]; try done.
    + by exists a, ev, st.
    + exists (msgs ++ if took then [d] else []). split.
      * rewrite sendings_app. apply sublist_app; [done|]. change (sendings (Sending d :: l)) with (d :: sendings l).
        rewrite Hs. destruct took; [done|]. apply sublist_nil_l.
      * rewrite Hstream, concat_app, app_assoc, I4'. f_equal. destruct took; cbn; by rewrite ?app_nil_r.
    + rewrite connections_app. change (connections (Sending d :: l)) with (connections l).
      by rewrite Hc, app_nil_r.
    + rewrite closes_app. change (closes (Sending d :: l)) with (closes l). destruct Hcl. lia.
    + intros d' [Hd'|Hd']%elem_of_app; [auto|by apply Hp in Hd'].
    + apply drained_app; [done|]. apply Hcl.
  - do 3 (split; [done|]). split; [|split; [done|split; [done|by exists took]]]. cbn [after_send log].
    rewrite closes_app. change (closes (Sending d :: l)) with (closes l). destruct Hcl. lia.
Qed.

Lemma content_readable b : Buffer.wf b -> Buffer.readableBytes b = 0 <-> Buffer.content b = [].
Proof.
  intros Hb. rewrite Buffer.readable_content by done. split; [apply Zlen_0_nil|by intros ->].
Qed.

(** The rest of [sendInLoop], after [nwrote] bytes of [d] went out: [append]
    is the end of it, [queue_rest] begins with the high-water mark. *)
Notation append_rest d nwrote := (
  in_output (Buffer.append (cptr_add (ptr_to d) nwrote) (Zlen d - nwrote)) ;;;
  let* w := channel_isWriting channel_ in
  when (negb w) (in_world (enableWriting channel_))).
Notation queue_rest d nwrote := (
  when (0 <? Zlen d - nwrote)
    (let* s := get in
     let oldLen := Buffer.readableBytes (outputBuffer_ s) in
     when ((highWaterMark_ s <=? u64 (oldLen + (Zlen d - nwrote))) && (oldLen <? highWaterMark_ s) && highWaterMarkCallback_ s)
       (modify (queueInLoop (HighWaterMarkCallback (u64 (oldLen + (Zlen d - nwrote)))))) ;;;
     append_rest d nwrote)).

(** What has been done when the rest begins. *)
Record part_sent (a : gmap Z Registry.achan) (d : list byte) (nwrote : Z) (l : list event) s : Prop := {
  ps_inv : inv s;
  ps_open : state_ s <> kConnecting /\ state_ s <> kDisconnected;
  ps_registry : Registry.refines a (world s) /\
    a !! channel_ = Some (Registry.AChan fd (events_of (reading_ s) (writing s)) Registry.Registered);
  ps_count : 0 <= nwrote <= Zlen d /\ Zlen d < 2 ^ 31;
  ps_wire : wire l = ztake nwrote d;
  ps_behind : Buffer.content (outputBuffer_ s) = [] \/ nwrote = 0;
  ps_log : sendings l = [] /\ connections l = [] /\ quiet l }.

Lemma part_sent_wire a d nwrote l s : part_sent a d nwrote l s -> wire l = [] \/ Buffer.content (outputBuffer_ s) = [].
Proof. intros [_ _ _ _ Hw [?| ->] _]; [by right|left]. by rewrite Hw, ztake_0. Qed.

Lemma part_sent_chan a d nwrote l s : part_sent a d nwrote l s -> chan_state s (events_of (reading_ s) (writing s)) Registry.Registered.
Proof. intros [_ [Ho Hd] _ _ _ _ _]. unfold chan_state. by destruct (state_ s). Qed.

Lemma wpe_append_rest a d nwrote k p l s : part_sent a d nwrote l s -> nwrote < Zlen d -> (forall d', SendInLoop d' ∉ p) ->
  wpe external (append_rest d nwrote) (fun _ s' => inv s' /\ sent d s s') (after_send d s (world s) k (outputBuffer_ s) p l).
Proof.
  intros Hps Hrem Hp. pose proof (part_sent_wire _ _ _ _ _ Hps) as Hw'. pose proof (part_sent_chan _ _ _ _ _ Hps) as Hchan.
  destruct Hps as [Hi [Ho Hdis] [R Ha] [Hn Hd] Hw He (Hs & Hc & Hcl)]. pose proof (inv_output _ Hi) as Hout.
  wp_steps. unfold in_output at 1. apply wpe_zoom. apply (wpe_weaken (eq Thrown)); [|by intros e <-; right].
  cbn [after_send outputBuffer_]. eapply wpe_mono.
  { apply (Buffer.append_safe (outputBuffer_ s) _ _ (zdrop nwrote d)); [done| |unfold Buffer.max_size, Buffer.kCheapPrepend; lia].
    rewrite load_ok; unfold cptr_add, ptr_to; cbn; [|lia..]. f_equal. unfold zslice. apply ztake_ge.
    rewrite Zlen_zdrop; lia. }
  cbn. intros _ out' [Hwf Hcontent]. wp_steps.
  change (set_output out' _) with (after_send d s (world s) k out' p l).
  assert (Buffer.content out' <> []) as Hne.
  { rewrite Hcontent. intros [_ E]%app_eq_nil. pose proof (Zlen_zdrop nwrote d ltac:(lia)) as Hz. rewrite E in Hz. zlen. }
  assert (wire l ++ Buffer.content out' = Buffer.content (outputBuffer_ s) ++ d) as Hstream.
  { rewrite Hw, Hcontent. destruct He as [->| ->]; [cbn; by rewrite ztake_zdrop|by rewrite ztake_0, zdrop_0]. }
  eapply wpe_isWriting; [exact R|exact Ha|]. rewrite events_of_write. wp_steps.
  assert (forall w' a' , Registry.refines a' w' -> Registry.stable channel_ (world s) w' ->
    a' !! channel_ = Some (Registry.AChan fd (events_of (reading_ s) true) Registry.Registered) ->
    inv (after_send d s w' k out' p l) /\ sent d s (after_send d s w' k out' p l)) as Hfin.
  { intros w' a' R' Hk Ha'. eapply (inv_after_send true); eauto; [|done|done].
    assert (writing (after_send d s w' k out' p l) = true) as Hwt by (unfold writing; cbn; by rewrite bool_decide_false).
    unfold chan_state. rewrite Hwt. cbn. unfold chan_state in Hchan. by destruct (state_ s). }
  apply wpe_when; intros Hneg; [apply negb_true_iff in Hneg|apply negb_false_iff in Hneg].
  - eapply (wpe_exec _ (Registry.EnableWriting channel_)); [exact R| |done|by left|done|].
    { cbn. unfold Registry.ask. rewrite Ha. reflexivity. }
    intros w' R' Hk. apply (Hfin w' _ R' Hk). rewrite lookup_insert_eq. rewrite Hneg. by destruct (reading_ s).
  - apply (Hfin (world s) a R (reflexivity _)). by rewrite Ha, Hneg.
Qed.

Lemma wpe_queue_rest a d nwrote k p l s : part_sent a d nwrote l s -> (forall d', SendInLoop d' ∉ p) ->
  wpe external (queue_rest d nwrote) (fun _ s' => inv s' /\ sent d s s') (after_send d s (world s) k (outputBuffer_ s) p l).
Proof.
  intros Hps Hp. apply wpe_when; intros Hrem; to_prop.
  - wp_steps. set (s1 := after_send d s (world s) k (outputBuffer_ s) p l). apply wpe_when; intros _.
    + wp_step. pose proof (wpe_append_rest a d nwrote k
        (p ++ [HighWaterMarkCallback (u64 (Buffer.readableBytes (outputBuffer_ s1) + (Zlen d - nwrote)))]) l s Hps ltac:(lia)) as G.
      unfold after_send in G. rewrite app_assoc in G. apply G. set_solver.
    + apply (wpe_append_rest a); [done|lia|done].
  - pose proof (part_sent_wire _ _ _ _ _ Hps) as Hw'. pose proof (part_sent_chan _ _ _ _ _ Hps) as Hchan.
    destruct Hps as [Hi [Ho Hdis] [R Ha] [Hn Hd] Hw He (Hs & Hc & Hcl)].
    apply (inv_after_send true _ _ _ _ _ _ _ a (events_of (reading_ s) (writing s)) Registry.Registered);
      auto; [apply Hi| |done|reflexivity].
    assert (nwrote = Zlen d) as -> by lia. rewrite Hw, ztake_ge by lia. destruct He as [->|He]; [by rewrite app_nil_r|].
    assert (d = []) as -> by (apply Zlen_0_nil; lia). by rewrite app_nil_r.
Qed.

Lemma wpe_sendInLoop d s : inv s -> small d -> state_ s <> kConnecting ->
  wpe external (sendInLoop channel_ d) (fun _ s' => inv s' /\ sent d s s') s.
Proof.
  intros Hi Hd Hst. pose proof Hi as [(a & ev & st & R & Ha & Hchan) Hin Hout _ _ _ _ _ _].
  pose proof (Zlen_nonneg d) as Hpos. unfold small in Hd.
  unfold sendInLoop. wp_steps. cbn [state_ emit].
  destruct (decide (state_ s = kDisconnected)) as [Hdis|Hdis].
  { wp_steps. pose proof (inv_after_send false d s (world s) (kernel s) (outputBuffer_ s) [] [] a ev st) as G.
    unfold after_send in G. rewrite app_nil_r in G. apply G; auto; try done; [by rewrite app_nil_r|].
    intros d'. apply not_elem_of_nil. }
  assert (ev = events_of (reading_ s) (writing s) /\ st = Registry.Registered) as [-> ->].
  { unfold chan_state in Hchan. by destruct (state_ s). }
  wp_steps. eapply wpe_isWriting; [exact R|exact Ha|]. rewrite events_of_write. cbn [outputBuffer_ emit]. wp_steps.
  destruct (writing s) eqn:Hwr; cbn [negb andb].
  - wp_steps. apply wpe_assert; [intros E; apply Z.leb_gt in E; lia|]. intros _. wp_steps.
    pose proof (wpe_queue_rest a d 0 (kernel s) [] [] s) as Hrest. rewrite Z.sub_0_r in Hrest.
    unfold after_send in Hrest. rewrite app_nil_r in Hrest. apply Hrest; [|set_solver].
    constructor; try done; [by rewrite Hwr|by right].
  - assert (Buffer.content (outputBuffer_ s) = []) as Hempty.
    { unfold writing in Hwr. apply negb_false_iff, bool_decide_eq_true in Hwr. done. }
    rewrite (proj2 (content_readable _ Hout)) by done. cbn [Z.eqb].
    wp_steps. apply (wpe_weaken (fun _ => False)); [|intros e []]. eapply wpe_mono; [by apply wpe_write_directly|]. cbn.
    intros [[nwrote remaining] faultError] s1 (Hn & -> & Hf & Hf0 & k & p & l & -> & Hw & Hs & Hc & Hcl & Hp).
    wp_steps. apply wpe_assert; [intros E; apply Z.leb_gt in E; lia|]. intros _.
    cbn [world state_ reading_ writeCompleteCallback_ highWaterMarkCallback_ highWaterMark_ inputBuffer_ outputBuffer_
         pending delayed racing log emit kernel] in *.
    rewrite <- app_assoc. cbn [app]. destruct faultError; cbn [negb andb].
    + cbn [when]. wp_steps. apply (inv_after_send false d s (world s) k (outputBuffer_ s) p l a
        (events_of (reading_ s) false) Registry.Registered); auto.
      * by rewrite Hw, (Hf0 eq_refl), ztake_0, app_nil_r.
      * intros _. right. split; [done|]. by apply Hf.
      * reflexivity.
    + apply (wpe_queue_rest a); [|done]. constructor; try done; [by rewrite Hwr|by left].
Qed.

(** ** The other calls *)

(** Calls move the connection towards its end, and call [closeCallback_]
    only through [handleClose]. *)
Definition moved (s s' : C) : Prop :=
  (state_ s' = state_ s \/ is_open (state_ s) /\ state_ s' = kDisconnecting) /\
  closes (log s') = closes (log s) /\
  (state_ s = kDisconnected -> world s' = world s) /\
  Registry.stable channel_ (world s) (world s').

Lemma moved_refl s : moved s s.
Proof. split; [by left|]. by do 2 (split; [done|]). Qed.
Lemma moved_trans a b c : moved a b -> moved b c -> moved a c.
Proof.
  intros (A1 & A2 & A3 & A4) (B1 & B2 & B3 & B4). split.
  2: { split; [congruence|]. split; [|by etransitivity]. intros E. rewrite <- A3 by done. apply B3.
       destruct A1 as [A1|[[A1|A1] _]]; congruence. }
  destruct A1 as [A1|[A1 A1']], B1 as [B1|[B1 B1']].
  - left. congruence.
  - right. by rewrite A1 in B1.
  - right. split; [done|congruence].
  - by right.
Qed.
Lemma moved_not s s' st : moved s s' -> st <> kDisconnecting -> state_ s <> st -> state_ s' <> st.
Proof. intros [[->|[_ ->]] _] Hst Hs; [done|congruence]. Qed.

(** An event of the log that the invariant does not speak of. *)
Definition neutral (e : event) : Prop :=
  wire [e] = [] /\ sendings [e] = [] /\ connections [e] = [] /\ quiet [e].

Lemma inv_emit e s : neutral e -> inv s -> inv (emit e s).
Proof.
  intros (E1 & E2 & E3 & E4) [I1 I2 I3 I4 I5 I6 I7 I8 I9 I10].
  constructor; cbn [emit world state_ inputBuffer_ outputBuffer_ pending delayed racing log]; try done.
  - rewrite wire_app, sendings_app, E1, E2, !app_nil_r. done.
  - by rewrite connections_app, E3, app_nil_r.
  - rewrite closes_app, (proj1 E4). lia.
  - apply drained_app; [done|]. apply E4.
Qed.

Lemma closes_emit e (s : C) : closes [e] = 0 -> closes (log (emit e s)) = closes (log s).
Proof. cbn [emit log]. rewrite closes_app. lia. Qed.

Lemma inv_set_kernel k s : inv s -> inv (set_kernel k s).
Proof. intros [I1 I2 I3 I4 I5 I6 I7 I8 I9 I10]. by constructor. Qed.

Lemma inv_set_input b s : Buffer.wf b -> inv s -> inv (set_input b s).
Proof. intros Hb [I1 I2 I3 I4 I5 I6 I7 I8 I9 I10]. by constructor. Qed.

Lemma inv_queue f s : (forall d, f = SendInLoop d -> small d) -> state_ s <> kConnecting -> inv s ->
  inv (queueInLoop f s).
Proof.
  intros Hf Hst [I1 I2 I3 I4 I5 I6 I7 I8 I9 I10]. constructor; try done.
  intros d [Hd|Hd]%elem_of_app; [auto|]. apply list_elem_of_singleton in Hd. by apply Hf.
Qed.

Lemma inv_disconnecting s : is_open (state_ s) -> inv s -> inv (setState kDisconnecting s).
Proof.
  intros Ho [(a & ev & st & R & Ha & Hc) I2 I3 I4 I5 I6 I7 I8 I9 I10].
  constructor; try done.
  - exists a, ev, st. do 2 (split; [done|]). unfold chan_state in *. by destruct Ho as [E|E]; rewrite E in Hc.
  - cbn. by destruct Ho as [E|E]; rewrite E in I5.
  - cbn. by destruct Ho as [E|E]; rewrite E in I6.
Qed.

Lemma is_open_spec (s : C) : bool_decide (state_ s = kConnected) || bool_decide (state_ s = kDisconnecting) = true <->
  is_open (state_ s).
Proof. unfold is_open. by rewrite orb_true_iff, !bool_decide_eq_true. Qed.

Lemma wpe_shutdownInLoop E s : inv s ->
  wpe E (shutdownInLoop channel_) (fun _ s' => inv s' /\ moved s s') s.
Proof.
  intros Hi. destruct (inv_chan _ Hi) as (a & ev & st & R & Ha & Hch).
  unfold shutdownInLoop. wp_steps. eapply wpe_isWriting; [exact R|exact Ha|].
  apply wpe_when; intros Hw; [|split; [done|apply moved_refl]]. wp_steps. split.
  - apply inv_set_kernel. destruct Hi as [I1 I2 I3 (msgs & I4 & I4') I5 I6 I7 I8 I9 I10].
    constructor; cbn [emit world state_ inputBuffer_ outputBuffer_ pending delayed racing log]; try done.
    + exists msgs. rewrite wire_app, sendings_app. cbn. by rewrite !app_nil_r.
    + rewrite connections_app. cbn. by rewrite app_nil_r.
    + by rewrite closes_app, Z.add_0_r.
    + apply drained_shutdown; [done|].
      destruct (decide (state_ s = kDisconnected)) as [Ed|Ed]; [left; rewrite I5, Ed; set_solver|right].
      exists msgs. split; [done|]. rewrite <- I4'. apply negb_true_iff in Hw.
      assert (Buffer.content (outputBuffer_ s) = []) as ->; [|by rewrite app_nil_r].
      assert (writing s = false) as Hwr.
      { unfold chan_state in Hch. clear I5 I6. destruct (state_ s); [done| | |].
        - destruct I8 as (_ & _ & Eo & _); [done|]. unfold writing. by rewrite Eo.
        - destruct Hch as [-> _]. by rewrite events_of_write in Hw.
        - destruct Hch as [-> _]. by rewrite events_of_write in Hw. }
      unfold writing in Hwr. by apply negb_false_iff, bool_decide_eq_true in Hwr.
  - split; [by left|]. split; [by apply (closes_emit ShutdownWrite)|done].
Qed.

(** The read interest of a live connection is [reading_]. *)
Lemma open_channel s : inv s -> is_open (state_ s) -> exists a, Registry.refines a (world s) /\
  a !! channel_ = Some (Registry.AChan fd (events_of (reading_ s) (writing s)) Registry.Registered).
Proof.
  intros Hi Ho. destruct (inv_chan _ Hi) as (a & ev & st & R & Ha & Hc). exists a. split; [done|].
  unfold chan_state in Hc. by destruct Ho as [E|E]; rewrite E in Hc; destruct Hc as [<- <-].
Qed.

Lemma inv_set_world s w' r a ev : inv s -> is_open (state_ s) -> Registry.refines a w' ->
  a !! channel_ = Some (Registry.AChan fd ev Registry.Registered) -> ev = events_of r (writing s) ->
  inv (set_reading r (set_world w' s)).
Proof.
  intros [I1 I2 I3 I4 I5 I6 I7 I8 I9 I10] Ho R Ha ->. constructor; try done.
  - exists a, (events_of r (writing s)), Registry.Registered. split; [done|]. split; [done|].
    unfold chan_state; cbn. by destruct Ho as [->| ->].
  - cbn. intros Hc. by destruct Ho as [E|E]; rewrite E in Hc.
Qed.

Lemma wpe_startReadInLoop s : inv s -> is_open (state_ s) ->
  wpe external (startReadInLoop channel_) (fun _ s' => inv s' /\ moved s s' /\ reading_ s' = true) s.
Proof.
  intros Hi Ho. destruct (open_channel s Hi Ho) as (a & R & Ha).
  unfold startReadInLoop. wp_steps. eapply wpe_isReading; [exact R|exact Ha|]. rewrite events_of_read.
  apply wpe_when; intros Hr.
  - wp_steps. eapply (wpe_exec _ (Registry.EnableReading channel_)); [exact R| |done|by left|done|].
    { cbn. unfold Registry.ask. rewrite Ha. reflexivity. }
    intros w' R' Hk. wp_steps. split; [|split; [|done]].
    2: { split; [by left|]. split; [done|]. split; [intros E; by destruct Ho as [E'|E']; rewrite E' in E|exact Hk]. }
    eapply inv_set_world; [done|done|exact R'|apply lookup_insert_eq|].
    by destruct (reading_ s), (writing s).
  - split; [done|]. split; [apply moved_refl|]. by destruct (reading_ s).
Qed.

Lemma wpe_stopReadInLoop s : inv s -> is_open (state_ s) ->
  wpe external (stopReadInLoop channel_) (fun _ s' => inv s' /\ moved s s' /\ reading_ s' = false) s.
Proof.
  intros Hi Ho. destruct (open_channel s Hi Ho) as (a & R & Ha).
  unfold stopReadInLoop. wp_steps. eapply wpe_isReading; [exact R|exact Ha|]. rewrite events_of_read.
  apply wpe_when; intros Hr.
  - wp_steps. eapply (wpe_exec _ (Registry.DisableReading channel_)); [exact R| |done|by left|done|].
    { cbn. unfold Registry.ask. rewrite Ha. reflexivity. }
    intros w' R' Hk. wp_steps. split; [|split; [|done]].
    2: { split; [by left|]. split; [done|]. split; [intros E; by destruct Ho as [E'|E']; rewrite E' in E|exact Hk]. }
    eapply inv_set_world; [done|done|exact R'|apply lookup_insert_eq|].
    by destruct (reading_ s), (writing s).
  - split; [done|]. split; [apply moved_refl|]. by destruct (reading_ s).
Qed.

(** A command a user may give in a state: messages fit an [int], and
    reading is neither started nor stopped once the connection is closed. *)
Definition cmd_ok (st : StateE) (c : cmd) : Prop :=
  match c with
  | Send d => small d
  | StartRead | StopRead => is_open st
  | _ => True
  end.

Lemma cmd_ok_moved s s' c : moved s s' -> cmd_ok (state_ s) c -> cmd_ok (state_ s') c.
Proof. intros [[->|[_ ->]] _] Hc; [done|]. destruct c; try done; by right. Qed.

Lemma wpe_exec_cmd inLoop c s : inv s -> state_ s <> kConnecting -> cmd_ok (state_ s) c ->
  wpe external (exec_cmd channel_ inLoop c) (fun _ s' => inv s' /\ moved s s') s.
Proof.
  intros Hi Hst Hc.
  assert (forall f, (forall d, f = SendInLoop d -> small d) -> inv (queueInLoop f s) /\ moved s (queueInLoop f s)) as Hq.
  { intros f Hf. split; [by apply inv_queue|]. split; [by left|done]. }
  assert (is_open (state_ s) -> inv (setState kDisconnecting s) /\ moved s (setState kDisconnecting s)) as Hd.
  { intros Ho. split; [by apply inv_disconnecting|]. split; [by right|done]. }
  destruct c as [d| | | | | |n]; cbn [exec_cmd] in *.
  - unfold send, run_or_queue. wp_steps. apply wpe_when; intros _; [|split; [done|apply moved_refl]].
    destruct inLoop; [|wp_steps; apply Hq; by intros ? [= ->]].
    eapply wpe_mono; [by apply wpe_sendInLoop|]. cbn. intros _ s' (? & S1 & _ & _ & S2 & S3 & S4 & _).
    split; [done|]. split; [by left|done].
  - unfold shutdown, run_or_queue. wp_steps. apply wpe_when; intros Ho; [|split; [done|apply moved_refl]].
    to_prop. destruct Hd as [Hd1 Hd2]; [by left|]. wp_steps. destruct inLoop.
    + eapply wpe_mono; [by apply wpe_shutdownInLoop|]. cbn. intros _ s' [? ?]. split; [done|].
      by eapply moved_trans.
    + wp_steps. split; [by apply inv_queue|]. split; [by right; split; [left|]|done].
  - unfold forceClose. wp_steps. apply wpe_when; intros Ho; [|split; [done|apply moved_refl]].
    apply is_open_spec in Ho. destruct (Hd Ho) as [Hd1 Hd2]. wp_steps.
    split; [by apply inv_queue|]. by split; [right|].
  - unfold forceCloseWithDelay. wp_steps. apply wpe_when; intros Ho; [|split; [done|apply moved_refl]].
    apply is_open_spec in Ho. destruct (Hd Ho) as [[I1 I2 I3 I4 I5 I6 I7 I8 I9 I10] Hd2]. wp_steps.
    split; [by constructor|]. by split; [right|].
  - unfold startRead, run_or_queue. destruct inLoop; [|wp_steps; by apply Hq].
    eapply wpe_mono; [by apply wpe_startReadInLoop|]. cbn. naive_solver.
  - unfold stopRead, run_or_queue. destruct inLoop; [|wp_steps; by apply Hq].
    eapply wpe_mono; [by apply wpe_stopReadInLoop|]. cbn. naive_solver.
  - wp_steps. unfold in_input. apply wpe_zoom. apply (wpe_weaken (fun _ => False)); [|intros ? []].
    eapply wpe_mono; [apply Buffer.retrieve_spec; [apply Hi|]|].
    { pose proof (Zlen_nonneg (Buffer.content (inputBuffer_ s))).
      rewrite Buffer.readable_content by apply Hi. lia. }
    cbn. intros _ b (Hb & _). split; [by apply inv_set_input|]. split; [by left|done].
Qed.

Hypothesis script_ok : forall cb s c, c ∈ script cb s -> cmd_ok (state_ s) c.

(** A user callback, once its call is in the log. *)
Lemma wpe_call_user cb s : inv (emit (Called cb (state_ s)) s) -> state_ s <> kConnecting ->
  wpe external (call_user channel_ script cb) (fun _ s' => inv s' /\ moved s s') s.
Proof.
  intros Hi Hst. unfold call_user. wp_steps. set (s1 := emit _ s).
  assert (closes (log s1) = closes (log s)) as Hcl by (by apply closes_emit).
  apply (wpe_mono _ _ (fun _ s' => inv s' /\ moved s1 s')).
  - apply (wpe_for_each _ (fun s' => inv s' /\ moved s1 s')); [|split; [done|apply moved_refl]].
    intros c s' Hc [Hi' Hm]. eapply wpe_mono; [apply wpe_exec_cmd; [done| |]|].
    + by apply (moved_not s1).
    + apply (cmd_ok_moved s1); [done|]. by apply (script_ok cb).
    + cbn. intros _ s'' [? ?]. split; [done|]. by eapply moved_trans.
  - cbn. intros _ s' [? (Hm1 & Hm2 & Hm3 & Hm4)]. split; [done|]. split; [exact Hm1|].
    split; [congruence|]. split; [exact Hm3|exact Hm4].
Qed.

Lemma closes_open s : inv s -> state_ s <> kDisconnected -> closes (log s) = 0.
Proof.
  intros Hi Ho. pose proof (inv_closes _ Hi) as Hc. rewrite decide_False in Hc by done.
  assert (0 <= closes (log s)) by apply Zlen_nonneg. lia.
Qed.

(** Closing: the channel loses its interest, the connection callback runs a
    last time. *)
Lemma wpe_go_down s : inv s -> is_open (state_ s) ->
  wpe external (modify (setState kDisconnected) ;;; in_world (disableAll channel_) ;;;
                call_user channel_ script OnConnection)
    (fun _ s' => inv s' /\ state_ s' = kDisconnected /\ closes (log s') = 0 /\
      channels_ (poller (world s')) !! fd = Some channel_ /\ Registry.stable channel_ (world s) (world s')) s.
Proof.
  intros Hi Ho. destruct (open_channel s Hi Ho) as (a & R & Ha).
  pose proof Hi as [I1 I2 I3 I4 I5 I6 I7 I8 I9 I10].
  pose proof (closes_open s Hi ltac:(by destruct Ho as [->| ->])) as Hcl.
  assert (connections (log s) = [kConnected]) as Hcon by (by destruct Ho as [E|E]; rewrite E in I5).
  wp_steps. eapply (wpe_exec _ (Registry.DisableAll channel_)); [exact R| |done|by left|done|].
  { cbn. unfold Registry.ask. rewrite Ha. reflexivity. }
  intros w' R' Hk. wp_steps. eapply wpe_mono; [apply wpe_call_user|].
  - cbn [state_ setState set_world]. constructor;
      cbn [emit world state_ inputBuffer_ outputBuffer_ pending delayed racing log set_world setState]; try done.
    + eexists _, 0, Registry.Registered. split; [exact R'|]. split; [apply lookup_insert_eq|]. done.
    + rewrite wire_app, sendings_app. cbn. by rewrite !app_nil_r.
    + by rewrite connections_app, Hcon.
    + rewrite closes_app, Hcl. done.
    + by apply drained_app.
  - done.
  - cbn. intros _ s' [? (Hm & Hc' & Hw' & Hk')]. split; [done|]. split; [destruct Hm as [?|[[?|?] _]]; done|].
    split; [etransitivity; [exact Hc'|exact Hcl]|]. split; [|by etransitivity]. rewrite Hw' by done. cbn [world set_world].
    destruct (Registry.refines_lookup _ _ _ _ R' (lookup_insert_eq a channel_ _)) as (ch & _ & _ & _ & _ & _ & A & _).
    by apply A.
Qed.

Lemma wpe_handleClose s : inv s -> is_open (state_ s) ->
  wpe external (handleClose channel_ script) (fun _ s' =>
    inv s' /\ state_ s' = kDisconnected /\ closes (log s') = 1 /\
    channels_ (poller (world s')) !! fd = Some channel_ /\ Registry.stable channel_ (world s) (world s')) s.
Proof.
  intros Hi Ho. unfold handleClose. wp_steps. apply wpe_assert.
  { intros E. apply is_open_spec in Ho. congruence. }
  intros _. apply wpe_bind3. eapply wpe_mono; [by apply wpe_go_down|]. cbn.
  intros _ s' (Hi' & Hst & Hcl & Hreg & Hk). wp_steps.
  assert (closes (log (emit CloseCallback s')) = 1) as Hcl'.
  { cbn [emit log]. rewrite closes_app, Hcl. done. }
  split; [|by do 3 (split; [done|])]. destruct Hi' as [I1 I2 I3 I4 I5 I6 I7 I8 I9 I10]. constructor; try done.
  - cbn [emit log outputBuffer_]. rewrite wire_app, sendings_app. cbn. by rewrite !app_nil_r.
  - cbn [emit log state_]. rewrite connections_app. cbn. by rewrite app_nil_r.
  - rewrite Hcl'. cbn [emit state_]. by rewrite Hst.
  - by apply drained_app.
Qed.

Lemma wpe_handleError E s : inv s -> wpe E handleError (fun _ s' => inv s' /\ moved s s') s.
Proof.
  intros Hi. unfold handleError. wp_steps. destruct (sock_getSocketError (kernel s)) as [k err]. wp_steps.
  split; [by apply inv_emit, inv_set_kernel|]. split; [by left|]. split; [by rewrite (closes_emit (Error err))|done].
Qed.

(** After a callback of the channel: still open, or closed by the one call
    of [handleClose]. *)
Definition outcome (s s' : C) : Prop :=
  is_open (state_ s') /\ closes (log s') = closes (log s) \/
  state_ s' = kDisconnected /\ closes (log s') = 1 /\ channels_ (poller (world s')) !! fd = Some channel_.
Definition handled (s s' : C) : Prop := Registry.stable channel_ (world s) (world s') /\ outcome s s'.

Lemma handled_moved a b c : handled a b -> moved b c -> handled a c.
Proof.
  intros [K1 Hh] (M1 & M2 & M3 & M4). split; [by transitivity (world b)|].
  destruct Hh as [[Ho Hc]|(Hd & Hc & Hr)]; [left|right].
  - split; [|congruence]. destruct M1 as [->|[_ ->]]; [done|by right].
  - rewrite M3, M2 by done. split; [|done]. destruct M1 as [->|[[?|?] _]]; congruence.
Qed.
Lemma moved_handled s s' : is_open (state_ s) -> moved s s' -> handled s s'.
Proof. intros Ho. apply handled_moved. split; [done|by left]. Qed.

Lemma wpe_handleRead s : inv s -> is_open (state_ s) ->
  wpe external (handleRead channel_ script) (fun _ s' => inv s' /\ handled s s') s.
Proof.
  intros Hi Ho. unfold handleRead. wp_steps. unfold in_input. apply wpe_zoom.
  eapply wpe_mono.
  { apply (Buffer.readFd_spec external); [intros iov d; apply readv_count|apply Hi|right; by right]. }
  intros r b Hr. cbn beta in Hr. wp_steps.
  set (s1 := set_kernel _ (set_input b s)).
  destruct (sock_readv (kernel s) (Buffer.readFd_iov (inputBuffer_ s))) as [k rr] eqn:Erv. cbn [snd] in Hr.
  destruct rr as [e|d].
  - destruct Hr as [-> ->]. cbn [fst Z.ltb Z.eqb Z.compare].
    assert (inv s1) as Hi1 by (apply inv_set_kernel, inv_set_input; [apply Hi|done]).
    eapply wpe_mono; [by apply wpe_handleError|]. cbn. intros _ s' [? Hm]. split; [done|]. by apply (moved_handled s1 s').
  - destruct Hr as (-> & Hb & _). cbn [fst].
    assert (inv s1) as Hi1 by (by apply inv_set_kernel, inv_set_input).
    destruct (Z.ltb_spec 0 (Zlen d)).
    + wp_steps. set (s2 := emit _ s1). assert (inv s2) as Hi2 by (by apply inv_emit).
      eapply wpe_mono; [apply wpe_call_user; [by apply inv_emit, Hi2|]|].
      { by destruct Ho as [E|E]; cbn; rewrite E. }
      cbn. intros _ s' [? Hm]. split; [done|]. apply (handled_moved s s2); [|done]. split; [done|]. left.
      split; [done|]. unfold s2. by rewrite closes_emit.
    + destruct (Z.eqb_spec (Zlen d) 0); [|pose proof (Zlen_nonneg d); lia].
      eapply wpe_mono; [by apply wpe_handleClose|]. cbn. intros _ s' (? & ? & ? & ? & Hk). split; [done|]. split; [exact Hk|by right].
Qed.

(** Taking [n] bytes off the output buffer and putting them on the wire. *)
Lemma inv_flushed s k out' n p l (w' : World P) a :
  inv s -> is_open (state_ s) -> Registry.refines a w' ->
  Buffer.wf out' -> 0 <= n <= Zlen (Buffer.content (outputBuffer_ s)) ->
  Buffer.content out' = zdrop n (Buffer.content (outputBuffer_ s)) ->
  wire l = ztake n (Buffer.content (outputBuffer_ s)) -> sendings l = [] -> connections l = [] -> quiet l ->
  (forall d', SendInLoop d' ∉ p) -> Registry.stable channel_ (world s) w' ->
  let s' := mk w' k (state_ s) (reading_ s) (writeCompleteCallback_ s) (highWaterMarkCallback_ s)
    (highWaterMark_ s) (inputBuffer_ s) out' (pending s ++ p) (delayed s) (racing s) (log s ++ l) in
  a !! channel_ = Some (Registry.AChan fd (events_of (reading_ s) (writing s')) Registry.Registered) ->
  inv s' /\ moved s s'.
Proof.
  intros [I1 I2 I3 (msgs & I4 & I4') I5 I6 I7 I8 I9 I10] Ho R Hwf Hn Hout Hw Hs Hc Hcl Hp Hkept s' Ha.
  unfold s' in *. split.
  - constructor; cbn [world state_ inputBuffer_ outputBuffer_ pending delayed racing log]; try done.
    + eexists a, _, _. split; [done|]. split; [exact Ha|]. unfold chan_state; cbn. by destruct Ho as [->| ->].
    + exists msgs. rewrite sendings_app, Hs, app_nil_r. split; [done|].
      rewrite wire_app, Hw, Hout, <- app_assoc, ztake_zdrop. done.
    + by rewrite connections_app, Hc, app_nil_r.
    + rewrite closes_app, (proj1 Hcl). lia.
    + intros d' [Hd'|Hd']%elem_of_app; [auto|by apply Hp in Hd'].
    + intros E. by destruct Ho as [E'|E']; rewrite E' in E.
    + apply drained_app; [done|]. apply Hcl.
  - split; [by left|]. split; [cbn [log]; rewrite closes_app, (proj1 Hcl); lia|].
    split; [intros E; by destruct Ho as [E'|E']; rewrite E' in E|done].
Qed.

Lemma peek_all b : Buffer.wf b ->
  Buffer.range b (Buffer.peek b) (Buffer.peek b + Buffer.readableBytes b) = Ok (Buffer.content b).
Proof.
  intros Hb. pose proof (Zlen_nonneg (Buffer.content b)). rewrite Buffer.range_content by (try done; rewrite Buffer.readable_content by done; lia).
  f_equal. apply ztake_ge. rewrite Buffer.readable_content by done. lia.
Qed.

(** Everything is written: writing stops, the write-complete callback is
    queued, a pending shutdown goes on. *)
Notation finish_writing b := (in_world (disableWriting channel_) ;;;
  when b (modify (queueInLoop WriteCompleteCallback)) ;;;
  let* s := get in when (bool_decide (state_ s = kDisconnecting)) (shutdownInLoop channel_)).

Lemma wpe_finish_writing b a s s2 : Registry.refines a (world s) -> world s2 = world s -> pending s2 = pending s ->
  a !! channel_ = Some (Registry.AChan fd (events_of (reading_ s) true) Registry.Registered) ->
  (forall w' a' p, Registry.refines a' w' -> Registry.stable channel_ (world s) w' -> (forall d', SendInLoop d' ∉ p) ->
    a' !! channel_ = Some (Registry.AChan fd (events_of (reading_ s) false) Registry.Registered) ->
    inv (set_pending (pending s ++ p) (set_world w' s2)) /\ moved s (set_pending (pending s ++ p) (set_world w' s2))) ->
  wpe external (finish_writing b) (fun _ s' => inv s' /\ moved s s') s2.
Proof.
  intros R Ew Ep Ha Hfl. rewrite <- Ew in R. wp_steps.
  eapply (wpe_exec _ (Registry.DisableWriting channel_)); [exact R| |done|by left|done|].
  { cbn. unfold Registry.ask. rewrite Ha. reflexivity. }
  intros w' R' Hk. rewrite Ew in Hk.
  assert (forall p, (forall d', SendInLoop d' ∉ p) ->
    inv (set_pending (pending s ++ p) (set_world w' s2)) /\ moved s (set_pending (pending s ++ p) (set_world w' s2))) as Hfl'.
  { intros p Hp. eapply Hfl; [exact R'|done|done|]. rewrite lookup_insert_eq. by destruct (reading_ s). }
  assert (forall s3, inv s3 -> moved s s3 ->
    wpe external (let* s := get in when (bool_decide (state_ s = kDisconnecting)) (shutdownInLoop channel_))
      (fun _ s' => inv s' /\ moved s s') s3) as Hend.
  { intros s3 Hi3 Hm3. wp_steps. apply wpe_when; intros _; [|done].
    eapply wpe_mono; [by apply wpe_shutdownInLoop|]. cbn. intros _ s' [? ?]. split; [done|]. by eapply moved_trans. }
  wp_steps. apply wpe_when; intros _.
  - wp_step. destruct (Hfl' [WriteCompleteCallback]) as [? ?]; [set_solver|]. apply Hend; unfold queueInLoop; cbn [pending set_world]; by rewrite Ep.
  - destruct (Hfl' []) as [G1 G2]; [set_solver|]. rewrite app_nil_r, <- Ep in G1, G2. by apply Hend; destruct s2.
Qed.

Lemma wpe_handleWrite s : inv s ->
  wpe external (handleWrite channel_) (fun _ s' => inv s' /\ moved s s') s.
Proof.
  intros Hi. destruct (inv_chan _ Hi) as (a & ev & st & R & Ha & Hchan).
  pose proof (inv_output _ Hi) as Hout. pose proof (Zlen_nonneg (Buffer.content (outputBuffer_ s))) as Hpos.
  unfold handleWrite. wp_steps. eapply wpe_isWriting; [exact R|exact Ha|].
  apply wpe_when; intros Hw; [|split; [done|apply moved_refl]].
  assert (is_open (state_ s)) as Ho.
  { unfold chan_state in Hchan. destruct (state_ s); destruct Hchan as [-> _]; [| |by left|by right];
      vm_compute in Hw; discriminate. }
  assert (ev = events_of (reading_ s) (writing s) /\ st = Registry.Registered) as [-> ->].
  { unfold chan_state in Hchan. by destruct Ho as [E|E]; rewrite E in Hchan. }
  rewrite events_of_write in Hw. wp_steps. apply wpe_lift; rewrite peek_all by done; [|done]. intros ? [= <-].
  unfold write. wp_steps.
  pose proof (write_count (kernel s) (Buffer.content (outputBuffer_ s))) as Hn.
  destruct (sock_write (kernel s) (Buffer.content (outputBuffer_ s))) as [k [err|n]]; cbn [snd] in Hn; wp_steps.
  { split; [by apply inv_set_kernel|]. by split; [left|]. }
  specialize (Hn n eq_refl). set (c := Buffer.content (outputBuffer_ s)) in *.
  set (s1 := emit (Wrote (ztake n c)) (set_kernel k s)).
  apply wpe_when; intros Hnz; to_prop.
  2: { assert (neutral (Wrote (ztake n c))) as Hneu by (by assert (n = 0) as -> by lia).
       split; [by apply inv_emit, inv_set_kernel|]. split; [by left|]. split; [unfold s1; by rewrite closes_emit|done]. }
  wp_steps. unfold in_output. apply wpe_zoom. apply (wpe_weaken (fun _ => False)); [|intros ? []].
  eapply wpe_mono; [apply Buffer.retrieve_spec; [exact Hout|]|].
  { change (outputBuffer_ s1) with (outputBuffer_ s). rewrite Buffer.readable_content by done. fold c. lia. }
  cbn beta. intros _ out' (Hwf & Hcont & _). change (Buffer.content (outputBuffer_ s1)) with c in Hcont. wp_steps. cbn [outputBuffer_ set_output].
  set (s2 := set_output out' s1).
  assert (forall w' a' p, Registry.refines a' w' -> Registry.stable channel_ (world s) w' -> (forall d', SendInLoop d' ∉ p) ->
    a' !! channel_ = Some (Registry.AChan fd (events_of (reading_ s) (writing s2)) Registry.Registered) ->
    inv (set_pending (pending s ++ p) (set_world w' s2)) /\ moved s (set_pending (pending s ++ p) (set_world w' s2))) as Hfl.
  { intros w' a' p R' Hk Hp Ha'. eapply (inv_flushed s k out' n p [Wrote (ztake n c)] w' a'); auto; [|done].
    unfold wire; cbn. by rewrite app_nil_r. }
  assert (writing s2 = negb (Buffer.readableBytes out' =? 0)) as Hws2.
  { unfold writing, s2; cbn [outputBuffer_ set_output]. f_equal. apply eq_bool_prop_intro.
    rewrite bool_decide_spec, Is_true_true, Z.eqb_eq. symmetry. by apply content_readable. }
  apply wpe_when; intros Hz; rewrite Hz in Hws2; cbn in Hws2.
  - apply (wpe_finish_writing (writeCompleteCallback_ s) a s s2); try done; [by rewrite Ha, Hw|].
    intros w' a' p R' Hk Hp Ha'. apply (Hfl w' a' p); [done..|]. by rewrite Hws2.
  - destruct (Hfl (world s) a [] R) as [G1 G2]; [reflexivity|set_solver|by rewrite Ha, Hws2, Hw|].
    rewrite app_nil_r in G1, G2. split; [exact G1|exact G2].
Qed.

(** ** Events of the channel *)

(** The channel has the callbacks the constructor gave it, and the returned
    events [r]. *)
Definition wired (r : Z) (s : C) : Prop := exists ch, chans (world s) !! channel_ = Some ch /\
  revents_ ch = r /\ readCallback_ ch = Some 0 /\ writeCallback_ ch = Some 1 /\
  closeCallback_ ch = Some 2 /\ errorCallback_ ch = Some 3.

Lemma wired_stable r s s' : Registry.stable channel_ (world s) (world s') -> wired r s -> wired r s'.
Proof.
  intros [Hk _] (ch & Hc & E1 & E2 & E3 & E4 & E5). destruct (Hk _ _ Hc) as (ch' & Hc' & D1 & D2 & D3 & D4 & D5).
  exists ch'. split; [done|]. repeat split; congruence.
Qed.

Lemma inv_write_channel f ch s : inv s -> chans (world s) !! channel_ = Some ch ->
  fd_ (f ch) = fd_ ch -> index_ (f ch) = index_ ch -> events_ (f ch) = events_ ch ->
  inv (set_world (set_chans (<[channel_ := f ch]> (chans (world s))) (world s)) s).
Proof.
  intros [(a & ev & st & R & Ha & Hc) I2 I3 I4 I5 I6 I7 I8 I9 I10] Hch E1 E2 E3. constructor; try done.
  exists a, ev, st. split; [by eapply Registry.refines_write|done].
Qed.

Lemma wpe_get_channel E r (Q : Channel -> C -> Prop) s : wired r s ->
  (forall ch, revents_ ch = r -> readCallback_ ch = Some 0 -> writeCallback_ ch = Some 1 ->
     closeCallback_ ch = Some 2 -> errorCallback_ ch = Some 3 -> Q ch s) ->
  wpe E (in_world (channel channel_)) Q s.
Proof.
  intros (ch & Hc & E1 & E2 & E3 & E4 & E5) HQ. unfold in_world. apply wpe_zoom.
  eapply wpe_channel; [exact Hc|]. destruct s. by apply HQ.
Qed.

(** poll(2) and epoll(7) report a hang-up without readable data only for a
    connection that is not being read: then nothing else to read either. *)
Definition sane_events (r : Z) : Prop :=
  has r EPOLLHUP = true -> has r EPOLLIN = false -> has r (Z.lor (Z.lor EPOLLIN EPOLLPRI) EPOLLRDHUP) = false.

(** A hang-up closes the connection; then there is nothing to read. *)
Lemma wpe_hang_up r time s : sane_events r -> inv s -> is_open (state_ s) -> wired r s ->
  wpe external (when (has r EPOLLHUP && negb (has r EPOLLIN)) (call (run_channel channel_ script) (Some 2) time))
    (fun _ s' => inv s' /\ wired r s' /\ handled s s' /\ (is_open (state_ s') \/
      has r (Z.lor (Z.lor EPOLLIN EPOLLPRI) EPOLLRDHUP) = false)) s.
Proof.
  intros Hsane Hi Ho Hw. apply wpe_when; intros Hh.
  2: { split; [done|]. split; [done|]. split; [by split; [|left]|by left]. }
  apply andb_true_iff in Hh as [Hh1 Hh2]. apply negb_true_iff in Hh2. cbn [call run_channel].
  eapply wpe_mono; [by apply wpe_handleClose|]. cbn. intros _ s' (? & ? & ? & ? & Hk). split; [done|].
  split; [by eapply wired_stable|]. split; [split; [exact Hk|by right]|right; by apply Hsane].
Qed.

Lemma wpe_handleEvent r time s : sane_events r -> inv s -> is_open (state_ s) -> wired r s ->
  wpe external (handleEvent (fun c => in_world (channel c)) (fun c f => in_world (write_channel c f))
      (run_channel channel_ script) channel_ time)
    (fun _ s' => inv s' /\ wired r s' /\ handled s s') s.
Proof.
  intros Hsane Hi Ho Hw. pose proof Hw as (ch & Hc & Hr & _). unfold handleEvent. wp_steps.
  unfold in_world at 1. apply wpe_zoom. eapply wpe_write; [exact Hc|].
  set (s1 := set_world _ s).
  assert (Registry.stable channel_ (world s) (world s1)) as Hk1.
  { by eapply (Registry.stable_write _ _ _ (set_handling true)); [exact Hc|destruct ch..]. }
  assert (inv s1) as Hi1 by (by apply (inv_write_channel (set_handling true))).
  assert (wired r s1) as Hw1 by (by eapply wired_stable).
  apply (wpe_mono _ _ (fun _ s' => inv s' /\ wired r s' /\ handled s1 s')).
  2: { intros _ s' (? & ? & [Hk Hh]). split; [done|]. split; [done|]. split; [by transitivity (world s1)|exact Hh]. }
  assert (handled s1 s1) as Hh1 by (by split; [|left]).
  assert (is_open (state_ s1)) as Ho1 by done. clearbody s1. clear Hk1 Hi Hw Hc Ho Hr ch s.
  (* the close callback *)
  wp_step. eapply wpe_get_channel; [exact Hw1|]. intros ch1 Hr1 _ _ Hcb _. wp_steps. rewrite Hr1, Hcb.
  eapply wpe_mono; [by apply wpe_hang_up|].
  cbn. clear Hi1 Hw1 Hh1 Ho1 ch1 Hr1 Hcb. intros _ s (Hi & Hw & Hhd & Hst).
  (* the error callback *)
  wp_steps. eapply wpe_get_channel; [exact Hw|]. intros ch Hr _ _ _ Hcb. wp_steps. rewrite Hr, Hcb.
  apply (wpe_mono _ _ (fun _ s' => inv s' /\ wired r s' /\ handled s1 s' /\ (is_open (state_ s') \/
    has r (Z.lor (Z.lor EPOLLIN EPOLLPRI) EPOLLRDHUP) = false))).
  { apply wpe_when; intros Hh; [|done]. cbn [call run_channel]. eapply wpe_mono; [by apply wpe_handleError|]. cbn.
    intros _ s' [? Hmv]. pose proof Hmv as (Hm & _ & _ & Hk). split; [done|]. split; [by eapply wired_stable|].
    split; [by eapply handled_moved|]. destruct Hm as [->|[_ ->]]; [done|]. left. by right. }
  cbn. clear s Hi Hw Hhd Hst ch Hr Hcb. intros _ s (Hi & Hw & Hhd & Hst).
  (* the read callback *)
  wp_steps. eapply wpe_get_channel; [exact Hw|]. intros ch Hr Hcb _ _ _. wp_steps. rewrite Hr, Hcb.
  apply (wpe_mono _ _ (fun _ s' => inv s' /\ wired r s' /\ handled s1 s')).
  { apply wpe_when; intros Hh; [|done]. destruct Hst as [Ho|E]; [|by rewrite E in Hh]. cbn [call run_channel].
    eapply wpe_mono; [by apply wpe_handleRead|]. cbn. intros _ s' [? (Hk & Hm)].
    split; [done|]. split; [by eapply wired_stable|]. destruct Hhd as [Hk0 Hhd].
    split; [by transitivity (world s)|]. destruct Hm as [[? Hcl]|?]; [left|by right]. split; [done|].
    destruct Hhd as [[_ <-]|[E _]]; [done|]. destruct Ho; congruence. }
  cbn. clear s Hi Hw Hhd Hst ch Hr Hcb. intros _ s (Hi & Hw & Hhd).
  (* the write callback *)
  wp_steps. eapply wpe_get_channel; [exact Hw|]. intros ch Hr _ Hcb _ _. rewrite Hr, Hcb.
  apply wpe_when; intros Hh; [|done]. cbn [call run_channel].
  eapply wpe_mono; [by apply wpe_handleWrite|]. cbn. intros _ s' [? Hmv].
  split; [done|]. split; [by eapply wired_stable; [apply Hmv|]|]. by eapply handled_moved.
Qed.

(** ** Runs *)

(** The steps the loop, the server and the users may take, in a state:
    the server establishes once and destroys after the close callback (or
    from its own destructor, while connected); the poller reports events
    of registered channels; users follow [cmd_ok], and no queued start or
    stop of reading comes late; calls from other threads take their steps at
    any time, but no close comes between the test and the setting of [state_]
    in [shutdown] or [forceClose]. *)
Definition allowed (o : op) (s : C) : Prop :=
  match o with
  | OpEstablish => state_ s = kConnecting /\ channels_ (poller (world s)) !! fd = None
  | OpEvents r _ => is_open (state_ s) /\ sane_events r
  | OpFunctor => match pending s with
                 | (StartReadInLoop | StopReadInLoop) :: _ => is_open (state_ s)
                 | _ => True
                 end
  | OpTimer => True
  | OpUser c | OpRemote c => state_ s <> kConnecting /\ cmd_ok (state_ s) c
  | OpCheck c => state_ s <> kConnecting /\ match c with Send d => small d | _ => True end
  | OpSet i => match racing s !! i with Some (true, _) => is_open (state_ s) | _ => True end
  | OpQueue _ => True
  | OpDestroy => state_ s = kConnected \/
                 state_ s = kDisconnected /\ channels_ (poller (world s)) !! fd = Some channel_
  end.

Notation cstep := (step channel_ tie script).

Fixpoint allowed_run (l : list op) (s : C) : Prop :=
  match l with
  | [] => True
  | o :: l => allowed o s /\ match cstep o s with Ok (_, s') => allowed_run l s' | Err _ => True end
  end.

Definition fine (s : C) : Prop := inv s /\ exists r, wired r s.

Lemma fine_moved s s' : (exists r, wired r s) -> inv s' -> moved s s' -> fine s'.
Proof. intros [r Hw] ? (_ & _ & _ & Hk). split; [done|]. exists r. by eapply wired_stable. Qed.

Lemma fine_stable s s' : (exists r, wired r s) -> inv s' -> Registry.stable channel_ (world s) (world s') -> fine s'.
Proof. intros [r Hw] ? Hk. split; [done|]. exists r. by eapply wired_stable. Qed.

Lemma wpe_connectEstablished s : fine s -> state_ s = kConnecting -> channels_ (poller (world s)) !! fd = None ->
  wpe external (connectEstablished channel_ tie script) (fun _ s' =>
    fine s' /\ Registry.stable channel_ (world s) (world s') /\ is_open (state_ s') /\ closes (log s') = closes (log s)) s.
Proof.
  intros [Hi Hw] Hst Hfree. pose proof Hi as [(a & ev & st & R & Ha & Hc) I2 I3 I4 I5 I6 I7 I8 I9 I10].
  destruct (I8 Hst) as (Hp & Hdl & Ho & Hrd & _). unfold chan_state in Hc. rewrite Hst in Hc, I5, I6.
  destruct Hc as [-> ->]. unfold connectEstablished. wp_steps.
  apply wpe_assert; [rewrite Hst; done|]. intros _. wp_steps. eapply wp_intro; [apply tie_keeps|]. wp_steps.
  eapply (wpe_exec _ (Registry.EnableReading channel_)); [exact R| |done|by left|done|].
  { cbn. unfold Registry.ask. rewrite Ha. rewrite bool_decide_true; [reflexivity|].
    intros c x Hx [E1 E2]. destruct (Registry.refines_lookup _ _ _ _ R Hx) as (ch & _ & _ & _ & _ & _ & A & _).
    rewrite E1 in A. apply A in E2. rewrite Hfree in E2. discriminate E2. }
  intros w' R' Hk. wp_steps. eapply wpe_mono; [apply wpe_call_user|].
  - cbn [state_ setState set_world]. constructor;
      cbn [emit world state_ inputBuffer_ outputBuffer_ pending delayed racing log set_world setState]; try done.
    + eexists _, _, Registry.Registered. split; [exact R'|]. split; [apply lookup_insert_eq|].
      unfold chan_state, writing; cbn. by rewrite Ho, Hrd.
    + rewrite wire_app, sendings_app. cbn. by rewrite !app_nil_r.
    + by rewrite connections_app, I5.
    + rewrite closes_app. change (closes [_]) with 0. by rewrite Z.add_0_r.
    + by apply drained_app.
  - done.
  - cbn. intros _ s' [? (Hm & Hcl & _ & Hk')].
    assert (Registry.stable channel_ (world s) (world s')) as Hks by (etransitivity; [exact Hk|exact Hk']).
    split; [by eapply fine_stable|]. split; [done|]. split.
    + destruct Hm as [->|[_ ->]]; [by left|by right].
    + exact Hcl.
Qed.

Lemma wpe_remove s : fine s -> state_ s = kDisconnected -> channels_ (poller (world s)) !! fd = Some channel_ ->
  wpe external (in_world (remove channel_)) (fun _ s' =>
    fine s' /\ Registry.stable channel_ (world s) (world s') /\ state_ s' = kDisconnected /\ log s' = log s /\
    channels_ (poller (world s')) !! fd <> Some channel_) s.
Proof.
  intros [Hi Hw] Hst Hm. pose proof Hi as [(a & ev & st & R & Ha & Hc) I2 I3 I4 I5 I6 I7 I8 I9 I10].
  unfold chan_state in Hc. rewrite Hst in Hc. destruct Hc as [-> _].
  destruct (Registry.refines_lookup _ _ _ _ R Ha) as (ch & _ & _ & _ & _ & _ & A & _). apply A in Hm. cbn in Hm. subst st.
  eapply (wpe_exec _ (Registry.Remove channel_)); [exact R| |done|by left|done|].
  { cbn. rewrite Ha. reflexivity. }
  intros w' R' Hk. split.
  2: { do 3 (split; [done|]). destruct (Registry.refines_lookup _ _ _ _ R' (lookup_insert_eq _ _ _)) as (? & _ & _ & _ & _ & _ & B & _).
       cbn in B |- *. intros Hr. by apply B in Hr. }
  apply (fine_stable s); [done| |done]. constructor; try done.
  exists (<[channel_ := Registry.AChan fd 0 Registry.Removed]> a), 0, Registry.Removed.
  split; [done|]. split; [apply lookup_insert_eq|]. unfold chan_state; cbn. by rewrite Hst.
Qed.

Lemma wpe_connectDestroyed s : fine s ->
  state_ s = kConnected \/ state_ s = kDisconnected /\ channels_ (poller (world s)) !! fd = Some channel_ ->
  wpe external (connectDestroyed channel_ script) (fun _ s' =>
    fine s' /\ Registry.stable channel_ (world s) (world s') /\ state_ s' = kDisconnected /\
    (state_ s = kDisconnected -> log s' = log s) /\ channels_ (poller (world s')) !! fd <> Some channel_) s.
Proof.
  intros Hf Hor. pose proof Hf as [Hi Hw]. unfold connectDestroyed. wp_steps.
  apply (wpe_mono _ _ (fun _ s' => fine s' /\ Registry.stable channel_ (world s) (world s') /\
    state_ s' = kDisconnected /\ (state_ s = kDisconnected -> log s' = log s) /\
    channels_ (poller (world s')) !! fd = Some channel_)); [apply wpe_when; intros E; to_prop|].
  - eapply wpe_mono; [apply wpe_go_down; [done|by left]|]. cbn. intros _ s' (? & ? & _ & ? & Hk).
    split; [by apply (fine_stable s)|]. split; [done|]. split; [done|]. split; [congruence|done].
  - by destruct Hor as [?|[? ?]].
  - cbn. intros _ s' (? & ? & ? & Hl & ?). eapply wpe_mono; [by apply wpe_remove|]. cbn.
    intros _ s'' (? & ? & ? & E & ?). split; [done|]. split; [by transitivity (world s')|]. split; [done|].
    split; [|done]. intros Es. by rewrite E, Hl.
Qed.

(** What any step but the first and the last does to a connection. *)
Definition advanced (s s' : C) : Prop :=
  Registry.beside channel_ (world s) (world s') /\
  (state_ s = kConnecting -> state_ s' = kConnecting /\ world s' = world s) /\
  (is_open (state_ s) -> outcome s s') /\
  (state_ s = kDisconnected -> state_ s' = kDisconnected /\ closes (log s') = closes (log s) /\ world s' = world s).

Lemma advanced_refl s : advanced s s.
Proof. split; [done|]. split; [done|]. split; [by left|done]. Qed.
Lemma moved_advanced s s' : state_ s <> kConnecting -> moved s s' -> advanced s s'.
Proof.
  intros Hst Hm. pose proof Hm as (M1 & M2 & M3 & M4). split; [by apply Registry.stable_beside|]. split; [done|split].
  - intros Ho. by apply moved_handled in Hm as [_ ?].
  - intros E. split; [destruct M1 as [->|[[?|?] _]]; congruence|auto].
Qed.
Lemma outcome_advanced s s' : is_open (state_ s) -> Registry.beside channel_ (world s) (world s') -> outcome s s' ->
  advanced s s'.
Proof.
  intros Ho Hb Hh. split; [done|]. split; [intros E; destruct Ho; congruence|]. split; [done|].
  intros E; destruct Ho; congruence.
Qed.

Lemma sent_moved d s s' : sent d s s' -> moved s s'.
Proof. intros (S1 & _ & _ & S2 & S3 & S4 & _). split; [by left|done]. Qed.

Lemma wpe_exec_functor f s : fine s -> state_ s <> kConnecting -> (forall d, f = SendInLoop d -> small d) ->
  (f = StartReadInLoop \/ f = StopReadInLoop -> is_open (state_ s)) ->
  wpe external (exec_functor channel_ script f) (fun _ s' => fine s' /\ advanced s s') s.
Proof.
  intros [Hi Hw] Hst Hd Hs.
  assert (forall (m : M C unit), wpe external m (fun _ s' => inv s' /\ moved s s') s ->
    wpe external m (fun _ s' => fine s' /\ advanced s s') s) as Hm.
  { intros m Hm. eapply wpe_mono; [exact Hm|]. cbn. intros _ s' [? ?].
    split; [by apply (fine_moved s)|by apply moved_advanced]. }
  destruct f as [d| | | | | |n]; cbn [exec_functor].
  - apply Hm. eapply wpe_mono; [apply wpe_sendInLoop; auto|]. cbn. intros _ s' [? ?]. split; [done|by eapply sent_moved].
  - by apply Hm, wpe_shutdownInLoop.
  - unfold forceCloseInLoop. wp_steps. apply wpe_when; intros Ho; [|split; [done|apply advanced_refl]].
    apply is_open_spec in Ho. eapply wpe_mono; [by apply wpe_handleClose|]. cbn. intros _ s' (? & ? & ? & ? & ?).
    split; [by apply (fine_stable s)|]. apply outcome_advanced; [done|by apply Registry.stable_beside|by right].
  - apply Hm. eapply wpe_mono; [apply wpe_startReadInLoop; auto|]. cbn. by intros _ s' (? & ? & _).
  - apply Hm. eapply wpe_mono; [apply wpe_stopReadInLoop; auto|]. cbn. by intros _ s' (? & ? & _).
  - apply Hm, wpe_call_user; [|done]. by apply inv_emit.
  - apply Hm, wpe_call_user; [|done]. by apply inv_emit.
Qed.

Lemma inv_set_pending p s : (forall f, f ∈ p -> f ∈ pending s) -> inv s -> inv (set_pending p s).
Proof.
  intros Hp [I1 I2 I3 I4 I5 I6 I7 I8 I9 I10]. constructor; try done; cbn.
  - intros d Hd. by apply I7, Hp.
  - intros E. destruct (I8 E) as (Ep & ?). split; [|done]. apply elem_of_nil_inv. intros f Hf. apply Hp in Hf.
    rewrite Ep in Hf. by apply not_elem_of_nil in Hf.
Qed.

(** The steps of a call from another thread. *)
Lemma inv_set_racing l s : (forall b d, (b, Send d) ∈ l -> small d) -> state_ s <> kConnecting -> inv s -> inv (set_racing l s).
Proof. intros Hl Hst [I1 I2 I3 I4 I5 I6 I7 I8 I9 I10]. by constructor. Qed.

Lemma racing_state i x s : inv s -> racing s !! i = Some x -> state_ s <> kConnecting.
Proof. intros Hi Hr E. destruct (inv_connecting _ Hi E) as (_ & _ & _ & _ & E'). by rewrite E' in Hr. Qed.

Lemma wpe_remote_check c s : fine s -> state_ s <> kConnecting /\ match c with Send d => small d | _ => True end ->
  wpe external (remote_check c) (fun _ s' => fine s' /\ advanced s s') s.
Proof.
  intros [Hi Hw] [Hst Hc]. unfold remote_check. wp_steps. apply wpe_when; intros _; [|by split; [|apply advanced_refl]].
  wp_steps. split; [|by apply (moved_advanced s); [|split; [left|]]].
  split; [|done]. apply inv_set_racing; [|done..]. intros b d [Hd|[= -> <-]%list_elem_of_singleton]%elem_of_app; [|done].
  by eapply inv_racing.
Qed.

Lemma wpe_remote_set i s : fine s -> match racing s !! i with Some (true, _) => is_open (state_ s) | _ => True end ->
  wpe external (remote_set i) (fun _ s' => fine s' /\ advanced s s') s.
Proof.
  intros [Hi Hw] Ho. unfold remote_set. wp_steps.
  destruct (racing s !! i) as [[[] c]|] eqn:Er; wp_steps; [|by split; [|apply advanced_refl]..].
  assert (inv (set_racing (<[i := (false, c)]> (racing s)) s)) as Hi'.
  { apply inv_set_racing; [|by eapply racing_state|done]. intros b d [j Hj]%list_elem_of_lookup.
    apply list_lookup_insert_Some in Hj as [(-> & [= <- ->] & _)|[_ Hj]]; (eapply inv_racing; [done|]); by eapply list_elem_of_lookup_2. }
  split; [split; [by apply inv_disconnecting|done]|].
  apply moved_advanced; [by eapply racing_state|]. by split; [right|].
Qed.

Lemma wpe_remote_queue i s : fine s -> wpe external (remote_queue i) (fun _ s' => fine s' /\ advanced s s') s.
Proof.
  intros [Hi Hw]. unfold remote_queue. wp_steps.
  destruct (racing s !! i) as [[[] c]|] eqn:Er; wp_steps; [by split; [|apply advanced_refl]| |by split; [|apply advanced_refl]].
  pose proof (racing_state _ _ _ Hi Er) as Hst.
  assert (inv (set_racing (delete i (racing s)) s)) as Hi'.
  { apply inv_set_racing; [|done..]. intros b d Hin. eapply inv_racing; [done|]. eapply elem_of_sublist; [exact Hin|]. apply sublist_delete. }
  assert (forall f, (forall d, f = SendInLoop d -> small d) ->
    fine (queueInLoop f (set_racing (delete i (racing s)) s)) /\ advanced s (queueInLoop f (set_racing (delete i (racing s)) s))) as Hq.
  { intros f Hf. split; [split; [by apply inv_queue|done]|].
    apply moved_advanced; [done|]. by split; [left|]. }
  destruct c; cbn [hand_over]; wp_steps; try (apply Hq; done).
  - apply Hq. intros ? [= ->]. apply (inv_racing _ Hi false). by eapply list_elem_of_lookup_2.
  - split; [split; [|done]|apply moved_advanced; [done|by split; [left|]]].
    destruct Hi' as [I1 I2 I3 I4 I5 I6 I7 I8 I9 I10]. by constructor.
  - split; [by split|]. apply moved_advanced; [done|]. by split; [left|].
Qed.

(** Undisturbed, the steps are the call. *)
Lemma remote_by_steps c s : racing s = [] -> (forall n, c <> Retrieve n) ->
  (remote_check c ;;; remote_set 0 ;;; remote_queue 0) s = exec_cmd channel_ false c s.
Proof.
  intros Hr Hc. destruct s as [w k st]; cbn in Hr; subst.
  destruct c; [destruct st; reflexivity..|by destruct (Hc n)].
Qed.

(** The steps between the connection's establishment and its destruction. *)
Lemma wpe_step_advanced o s : fine s -> allowed o s -> o <> OpEstablish -> o <> OpDestroy ->
  wpe external (cstep o) (fun _ s' => fine s' /\ advanced s s') s.
Proof.
  intros Hf Ha Hne Hnd. pose proof Hf as [Hi Hw].
  assert (forall inLoop c, state_ s <> kConnecting -> cmd_ok (state_ s) c ->
    wpe external (exec_cmd channel_ inLoop c) (fun _ s' => fine s' /\ advanced s s') s) as Hcmd.
  { intros inLoop c ? ?. eapply wpe_mono; [by apply wpe_exec_cmd|]. cbn. intros _ s' [? ?].
    split; [by apply (fine_moved s)|by apply moved_advanced]. }
  destruct o as [|r tm| | |c|c|c|i|i|]; cbn [allowed step] in *; try done.
  - destruct Ha as [Ho Hsane], Hw as (r0 & ch & Hc & _ & Hw). wp_steps. unfold in_world at 1. apply wpe_zoom.
    eapply wpe_write; [exact Hc|]. set (s1 := set_world _ s).
    assert (wired r s1) as Hw' by (exists (set_revents r ch); split; [apply lookup_insert_eq|]; by destruct ch).
    assert (Registry.beside channel_ (world s) (world s1)) as Hk.
    { by eapply (Registry.beside_write _ _ _ (set_revents r)). }
    eapply wpe_mono; [apply wpe_handleEvent; [done|by apply (inv_write_channel (set_revents r))|done|exact Hw']|].
    cbn. intros _ s' (? & ? & Hh1 & Hh2). split; [split; [done|by eexists]|]. apply outcome_advanced; [done| |exact Hh2].
    transitivity (world s1); [done|by apply Registry.stable_beside].
  - wp_steps. destruct (pending s) as [|f fs] eqn:Ep; [wp_steps; split; [done|apply advanced_refl]|]. wp_steps.
    assert (state_ s <> kConnecting) as Hst.
    { intros E. destruct (inv_connecting _ Hi E) as [E' _]. by rewrite Ep in E'. }
    apply (wpe_mono _ _ (fun _ s' => fine s' /\ advanced (set_pending fs s) s')); [|done].
    apply wpe_exec_functor; [|done| |].
    + apply (fine_stable s); [done| |done]. apply inv_set_pending; [|done]. rewrite Ep. set_solver.
    + intros d ->. apply (inv_pending _ Hi). rewrite Ep. set_solver.
    + by intros [->| ->].
  - wp_steps. destruct (delayed s) as [|n] eqn:Ed; [wp_steps; split; [done|apply advanced_refl]|]. wp_steps.
    assert (state_ s <> kConnecting) as Hst.
    { intros E. destruct (inv_connecting _ Hi E) as (_ & E' & _). by rewrite Ed in E'. }
    assert (inv (set_delayed n s)) as Hi'.
    { destruct Hi as [I1 I2 I3 I4 I5 I6 I7 I8 I9 I10]. by constructor. }
    eapply wpe_mono; [by apply (wpe_exec_cmd true ForceClose)|]. cbn. intros _ s' [? Hm].
    split; [by apply (fine_moved (set_delayed n s))|]. by apply (moved_advanced (set_delayed n s)).
  - destruct Ha. by apply Hcmd.
  - destruct Ha. by apply Hcmd.
  - by apply wpe_remote_check.
  - by apply wpe_remote_set.
  - by apply wpe_remote_queue.
Qed.

Lemma wpe_step o s : fine s -> allowed o s -> wpe external (cstep o) (fun _ => fine) s.
Proof.
  intros Hf Ha. assert (o = OpEstablish \/ o = OpDestroy \/ o <> OpEstablish /\ o <> OpDestroy) as [->|[->|[??]]].
  { destruct o; auto; right; right; done. }
  - destruct Ha. eapply wpe_mono; [by apply wpe_connectEstablished|]. by intros _ s' [? _].
  - eapply wpe_mono; [by apply wpe_connectDestroyed|]. by intros _ s' [? _].
  - eapply wpe_mono; [by apply wpe_step_advanced|]. by intros _ s' [? _].
Qed.

Lemma wpe_run l s : fine s -> allowed_run l s -> wpe external (for_each cstep l) (fun _ => fine) s.
Proof.
  revert s. induction l as [|o l IH]; intros s Hf Ha; cbn [for_each].
  - by wp_steps.
  - destruct Ha as [Ha Hl]. apply wpe_bind. pose proof (wpe_step o s Hf Ha) as Hs.
    unfold wpe in Hs |- *. destruct (cstep o s) as [[[] s']|e]; [by apply IH|done].
Qed.

(** The connection [TcpServer::newConnection] makes. *)
Lemma make_fine a w k wc hw s : make w k wc hw = Ok s -> Registry.refines a w ->
  a !! channel_ = Some (Registry.AChan fd 0 Registry.Fresh) ->
  (exists r, wired r s) -> fine s.
Proof.
  intros Hm R Ha Hw. split; [|done]. unfold make in Hm.
  destruct (Buffer.make Buffer.kInitialSize) as [b|e] eqn:Eb; [|done]. injection Hm as <-.
  assert (Buffer.wf b /\ Buffer.content b = []) as [Hb Hb'].
  { vm_compute in Eb. injection Eb as <-. split; vm_compute; [|done]. by repeat split. }
  constructor; cbn; try done.
  - by exists a, 0, Registry.Fresh.
  - exists []. split; [done|]. by rewrite Hb'.
  - intros d Hd. by apply not_elem_of_nil in Hd.
  - intros b' d Hd. by apply not_elem_of_nil in Hd.
  - intros l1 l2 E. by destruct l1.
Qed.

(** The states of a connection from its construction on. *)
Definition constructed (s : C) : Prop := exists a w k wc hw loop,
  make w k wc hw = Ok s /\ Registry.refines a w /\ a !! channel_ = Some (Registry.AChan fd 0 Registry.Fresh) /\
  chans w !! channel_ = Some (new_channel loop fd).
Definition reachable (s : C) : Prop := exists s0 l,
  constructed s0 /\ allowed_run l s0 /\ for_each cstep l s0 = Ok (tt, s).

Lemma constructed_fine s : constructed s -> fine s.
Proof.
  intros (a & w & k & wc & hw & loop & Hm & R & Ha & Hc). eapply make_fine; [done..|].
  exists 0. unfold make in Hm. destruct (Buffer.make Buffer.kInitialSize); [|done]. injection Hm as <-.
  exists (new_channel loop fd). done.
Qed.

(** The other channels of the loop and its poller may change under a
    connection. *)
Definition same_callbacks (a b : Channel) : Prop :=
  readCallback_ a = readCallback_ b /\ writeCallback_ a = writeCallback_ b /\
  closeCallback_ a = closeCallback_ b /\ errorCallback_ a = errorCallback_ b.

Lemma fine_world w' s : fine s ->
  (forall a x, Registry.refines a (world s) -> a !! channel_ = Some x ->
     exists a', Registry.refines a' w' /\ a' !! channel_ = Some x) ->
  (forall ch, chans (world s) !! channel_ = Some ch ->
     exists ch', chans w' !! channel_ = Some ch' /\ same_callbacks ch ch') ->
  fine (set_world w' s).
Proof.
  intros [[(a & ev & st & R & Ha & Hc) I2 I3 I4 I5 I6 I7 I8 I9 I10] (r & ch & Hch & _ & W1 & W2 & W3 & W4)] HR HC.
  split.
  - constructor; try done. destruct (HR _ _ R Ha) as (a' & R' & Ha'). by exists a', ev, st.
  - destruct (HC _ Hch) as (ch' & Hch' & C1 & C2 & C3 & C4). exists (revents_ ch'), ch'. split; [done|].
    repeat split; congruence.
Qed.

Lemma fine_beside d w' s : fine s -> d <> channel_ -> is_Some (chans (world s) !! d) ->
  Registry.beside d (world s) w' -> fine (set_world w' s).
Proof.
  intros Hf Hne [dh Hd] [HF HK]. apply fine_world; [done| |].
  - intros a x R Ha. pose proof (Registry.r_channels _ _ R d) as Had. rewrite Hd in Had.
    destruct (a !! d) as [y|] eqn:Hy; [|done]. destruct (HF a y R Hy) as [y' R']. eexists. split; [exact R'|].
    by rewrite lookup_insert_ne.
  - intros ch Hch. destruct (HK channel_ ch ltac:(done) Hch) as (ch' & ? & _ & ?). by exists ch'.
Qed.

Lemma fine_poll w' s : fine s -> (forall a, Registry.refines a (world s) -> Registry.refines a w') ->
  same_channels (chans (world s)) (chans w') -> fine (set_world w' s).
Proof.
  intros Hf HR HS. apply fine_world; [done|intros a x R Ha; by exists a; auto|].
  intros ch Hch. destruct (same_channels_lookup _ _ _ _ HS Hch) as (ch' & Hch' & E). exists ch'. split; [done|].
  destruct ch, ch'. cbn in E. injection E. intros. by subst.
Qed.

Lemma fine_new d ch fd' s : fine s -> chans (world s) !! d = None ->
  fd_ ch = fd' -> events_ ch = 0 -> index_ ch = -1 -> 0 <= fd' < INT_MAX -> channels_ (poller (world s)) !! fd' = None ->
  fine (set_world (set_chans (<[d := ch]> (chans (world s))) (world s)) s).
Proof.
  intros Hf Hd E1 E2 E3 Hfd Hfree. apply fine_world; [done| |].
  - intros a x R Ha. eexists. split; [by eapply Registry.refines_new|]. rewrite lookup_insert_ne; [done|].
    intros ->. pose proof (Registry.r_channels _ _ R channel_) as Hac. by rewrite Ha, Hd in Hac.
  - intros dh Hdh. exists dh. split; [|done]. cbn. rewrite lookup_insert_ne; [done|congruence].
Qed.

Lemma reachable_fine s : reachable s -> fine s.
Proof.
  intros (s0 & l & Hc & Ha & Hl). apply constructed_fine in Hc.
  exact (wpe_elim _ _ _ _ _ _ (wpe_run l s0 Hc Ha) Hl).
Qed.

(** What is true at every moment of the life of a connection. *)
Definition lifecycle (s : C) : Prop :=
  connections (log s) = match state_ s with
                        | kConnecting => []
                        | kConnected | kDisconnecting => [kConnected]
                        | kDisconnected => [kConnected; kDisconnected]
                        end /\
  closes (log s) <= (if decide (state_ s = kDisconnected) then 1 else 0) /\
  (exists a ev st, Registry.refines a (world s) /\
     a !! channel_ = Some (Registry.AChan fd ev st) /\ chan_state s ev st).

(** C7: From its construction on, under every sequence of the steps
    [allowed], over either poller and any socket, a connection fails no
    assertion (only a failing [epoll_ctl] or exhausted memory can stop
    it); the connection callback runs once for the connect and once for
    the disconnect, in this order; the close callback runs at most once,
    and only on a disconnected connection; and the poller watches the
    channel exactly as the state, [reading_] and the output buffer say. *)
Theorem connection_lifecycle s0 l : constructed s0 -> allowed_run l s0 ->
  wpe external (for_each cstep l) (fun _ => lifecycle) s0.
Proof.
  intros Hc Ha. eapply wpe_mono; [by apply wpe_run; [apply constructed_fine|]|].
  cbn. intros _ s [[I1 I2 I3 I4 I5 I6 I7 I8 I9 I10] _]. done.
Qed.

(** C8: No byte is lost, repeated or reordered: at every moment the bytes
    the socket took, followed by the output buffer, are the messages given
    to [sendInLoop] in order, where a message is there whole or not at all;
    and every half-close of a live connection comes when all of them are
    on the wire. *)
Theorem stream_integrity s : reachable s ->
  (exists msgs, msgs `sublist_of` sendings (log s) /\
     wire (log s) ++ Buffer.content (outputBuffer_ s) = concat msgs) /\
  drained (log s).
Proof. intros Hr. destruct (reachable_fine s Hr) as [[I1 I2 I3 I4 I5 I6 I7 I8 I9 I10] _]. done. Qed.

(** C22: A message is dropped only when the connection is down, or when the
    socket reports that the peer is gone and nothing was queued; otherwise
    all of it is on the wire or queued behind what was queued before. *)
Theorem send_exact d s : reachable s -> small d -> state_ s <> kConnecting ->
  wpe external (sendInLoop channel_ d) (fun _ s' => sent d s s') s.
Proof.
  intros Hr Hd Hst. eapply wpe_mono; [apply wpe_sendInLoop; [apply (reachable_fine s Hr)|done|done]|].
  by intros _ s' [_ ?].
Qed.

(** What [handleWrite] leaves when the socket takes [n] bytes. *)
Definition flushed (n : Z) (s s' : C) : Prop :=
  let c := Buffer.content (outputBuffer_ s) in
  Buffer.content (outputBuffer_ s') = zdrop n c /\ state_ s' = state_ s /\
  if n =? Zlen c then
    pending s' = pending s ++ (if writeCompleteCallback_ s then [WriteCompleteCallback] else []) /\
    log s' = log s ++ Wrote c :: (if decide (state_ s = kDisconnecting) then [ShutdownWrite] else [])
  else pending s' = pending s /\ log s' = log s ++ [Wrote (ztake n c)].

(** C23: When the channel is writable and the socket takes [n] bytes of the
    output, exactly these leave the buffer; with the last one the channel
    stops asking for writability, the write-complete callback is queued,
    and a connection that [shutdown] found still writing is half-closed. *)
Theorem handleWrite_exact s k n : reachable s -> is_open (state_ s) -> Buffer.content (outputBuffer_ s) <> [] ->
  sock_write (kernel s) (Buffer.content (outputBuffer_ s)) = (k, inr n) -> 0 < n ->
  wpe external (handleWrite channel_) (fun _ s' => flushed n s s' /\ lifecycle s') s.
Proof.
  intros Hr Ho Hne Hk Hn. destruct (reachable_fine s Hr) as [Hi _].
  assert (wpe external (handleWrite channel_) (fun _ s' => flushed n s s') s) as Hf.
  2: { unfold wpe in *. pose proof (wpe_handleWrite s Hi) as Hi'. unfold wpe in Hi'.
       destruct (handleWrite channel_ s) as [[u s']|e]; [|done]. split; [done|].
       by destruct Hi' as [[I1 I2 I3 I4 I5 I6 I7 I8 I9 I10] _]. }
  destruct (open_channel s Hi Ho) as (a & R & Ha). pose proof (inv_output _ Hi) as Hout.
  set (c := Buffer.content (outputBuffer_ s)) in *.
  assert (writing s = true) as Hw by (unfold writing; by rewrite bool_decide_false).
  unfold handleWrite. wp_steps. eapply wpe_isWriting; [exact R|exact Ha|]. rewrite events_of_write, Hw. cbn [when].
  wp_steps. apply wpe_lift; rewrite peek_all by done; [|done]. intros ? [= <-]. fold c.
  pose proof (write_count (kernel s) c n) as Hc. unfold write. wp_steps. rewrite Hk in *. specialize (Hc eq_refl). wp_steps.
  rewrite (proj2 (Z.ltb_lt _ _) Hn). cbn [when]. wp_steps. unfold in_output. apply wpe_zoom.
  apply (wpe_weaken (fun _ => False)); [|intros ? []].
  eapply wpe_mono; [apply Buffer.retrieve_spec; [exact Hout|]|].
  { cbn [outputBuffer_ emit set_kernel]. rewrite Buffer.readable_content by done. fold c. lia. }
  cbn beta. intros _ out' (Hwf & Hcont & _). change (Buffer.content (outputBuffer_ _)) with c in Hcont. wp_steps.
  cbn [outputBuffer_ set_output]. rewrite Buffer.readable_content, Hcont, Zlen_zdrop by (done || lia).
  unfold flushed. fold c. destruct (Z.eqb_spec n (Zlen c)) as [E|E].
  2: { rewrite (proj2 (Z.eqb_neq _ _)) by lia. by wp_steps. }
  rewrite (proj2 (Z.eqb_eq _ _)) by lia. cbn [when]. wp_steps.
  eapply (wpe_exec _ (Registry.DisableWriting channel_)); [exact R| |done|by left|done|].
  { cbn. unfold Registry.ask. rewrite Ha. reflexivity. }
  intros w' R' _. wp_steps. rewrite (ztake_ge n c) by lia.
  assert (forall s1 : C, world s1 = w' -> state_ s1 = state_ s -> log s1 = log s ++ [Wrote c] ->
    Buffer.content (outputBuffer_ s1) = zdrop n c ->
    wpe external (let* s := get in when (bool_decide (state_ s = kDisconnecting)) (shutdownInLoop channel_))
      (fun _ s' => Buffer.content (outputBuffer_ s') = zdrop n c /\ state_ s' = state_ s /\ pending s' = pending s1 /\
         log s' = log s ++ Wrote c :: (if decide (state_ s = kDisconnecting) then [ShutdownWrite] else [])) s1) as Hend.
  { intros s1 E1 E2 E3 E4. wp_steps. rewrite E2. destruct (decide (state_ s = kDisconnecting)) as [Ed|Ed].
    - rewrite bool_decide_true by done. cbn [when]. unfold shutdownInLoop. wp_steps.
      eapply wpe_isWriting; [by rewrite E1|apply lookup_insert_eq|].
      replace (has _ kWriteEvent) with false by (rewrite Hw; by destruct (reading_ s)). cbn [negb when]. wp_steps.
      cbn [outputBuffer_ set_kernel emit state_ pending log]. rewrite E3, <- app_assoc. by rewrite E2.
    - rewrite bool_decide_false by done. cbn [when]. wp_steps. by rewrite E2. }
  cbn [writeCompleteCallback_ set_world set_output emit set_kernel].
  destruct (writeCompleteCallback_ s); cbn [when]; wp_step; cbn beta.
  - eapply wpe_mono; [by apply Hend|]. cbn. naive_solver.
  - eapply wpe_mono; [by apply Hend|]. cbn. rewrite app_nil_r. naive_solver.
Qed.
End invariant.

(** ** A concrete connection *)

(** A socket that answers the writes and reads it is told to, then takes and
    has nothing. *)
Record sock : Type := mkSock { sk_writes : list (Z + Z); sk_reads : list (list byte); sk_shut : bool }.
Definition sock_write_ (k : sock) (d : list byte) : sock * (Z + Z) :=
  match sk_writes k with
  | r :: l => (mkSock l (sk_reads k) (sk_shut k),
               match r with inl e => inl e | inr n => inr (Z.min (Z.max 0 n) (Zlen d)) end)
  | [] => (k, inl EWOULDBLOCK)
  end.
Definition sock_readv_ (k : sock) (iov : list Z) : sock * Buffer.read_result :=
  match sk_reads k with
  | d :: l => (mkSock (sk_writes k) l (sk_shut k),
               if Zlen d <=? foldr Z.add 0 iov then Buffer.ReadOk d else Buffer.ReadErr 11)
  | [] => (k, Buffer.ReadErr 11)
  end.
#[global] Instance sock_sys : Socket sock := {
  sock_write := sock_write_;
  sock_readv := sock_readv_;
  sock_shutdownWrite k := mkSock (sk_writes k) (sk_reads k) true;
  sock_getSocketError k := (k, 0) }.
#[global] Instance sock_laws : SocketLaws sock.
Proof.
  split.
  - intros [[|[e|m] ws] rs b] d n; cbn; try done. intros [= <-]. pose proof (Zlen_nonneg d). lia.
  - intros [ws [|d rs] b] iov d'; cbn; try done. destruct (Z.leb_spec (Zlen d) (foldr Z.add 0 iov)); [|done].
    by intros [= <-].
Qed.

Abbreviation sample_t := (t (EPollPoller.t Sample.ep) sock).
Definition sample_tie : M sample_t unit := ret tt.
(** The user echoes what it reads. *)
Definition sample_script (cb : callback) (s : sample_t) : list cmd :=
  match cb with
  | OnMessage => if Zlen (Buffer.content (inputBuffer_ s)) <? 2 ^ 31
                 then [Send (Buffer.content (inputBuffer_ s)); Retrieve 2000] else []
  | _ => []
  end.
Definition sample_world : World (EPollPoller.t Sample.ep) :=
  mkWorld {[ 100 := new_channel 1 5 ]} (EPollPoller.init (Sample.mkEp ∅ [] 0)).
Definition sample_conn (ws : list (Z + Z)) (rs : list (list byte)) : sample_t :=
  match make sample_world (mkSock ws rs false) true false with
  | Ok s => s
  | Err _ => mk sample_world (mkSock ws rs false) kConnecting true true false 0 (Buffer.mk [] 0 0) (Buffer.mk [] 0 0) [] 0 [] []
  end.
Definition sample_run (l : list op) (s : sample_t) : result (unit * sample_t) :=
  for_each (step 100 sample_tie sample_script) l s.

Lemma sample_tie_keeps s : sample_tie s = Ok (tt, s).
Proof. done. Qed.
Lemma sample_script_ok cb s c : c ∈ sample_script cb s -> cmd_ok (state_ s) c.
Proof.
  destruct cb; cbn; try (intros Hc; by apply not_elem_of_nil in Hc). case_match eqn:E; [|by intros Hc%not_elem_of_nil].
  to_prop. intros [->|[->|Hc%not_elem_of_nil]%elem_of_cons]%elem_of_cons; done.
Qed.
Lemma sample_constructed ws rs : constructed 100 5 (sample_conn ws rs).
Proof.
  exists {[ 100 := Registry.AChan 5 0 Registry.Fresh ]}, sample_world, (mkSock ws rs false), true, false, 1.
  split; [by vm_compute|]. split; [|done].
  assert (Registry.refines (Registry.fresh_registry {[ 100 := 5 ]})
    (mkWorld (Registry.fresh_channels 1 {[ 100 := 5 ]}) (EPollPoller.init (Sample.mkEp ∅ [] 0)))) as R.
  { apply Registry.refines_fresh; [|..]; [apply (bool_decide_unpack _); by vm_compute| |done|done].
    constructor; cbn; [set_solver|set_solver|]. by vm_compute. }
  replace sample_world with (set_chans (<[100 := new_channel 1 5]>
    (chans (mkWorld (Registry.fresh_channels 1 {[ 100 := 5 ]}) (EPollPoller.init (Sample.mkEp ∅ [] 0)))))
    (mkWorld (Registry.fresh_channels 1 {[ 100 := 5 ]}) (EPollPoller.init (Sample.mkEp ∅ [] 0)))) by (by vm_compute).
  refine (Registry.refines_write {[ 100 := Registry.AChan 5 0 Registry.Fresh ]} _ 100 (Channel_new 1 5)
    (fun _ => new_channel 1 5) R _ _ _ _); done.
Qed.

(** The peer sends five bytes, they are echoed in two writes with a shutdown
    in between, the peer closes, the server destroys. *)
Definition hello : list byte := [x68; x65; x6c; x6c; x6f].
Definition echo_writes : list (Z + Z) := [inr 2; inr 3].
Definition echo_reads : list (list byte) := [hello; []].
Definition echo_up : list op := [OpEstablish; OpEvents EPOLLIN 1; OpUser Shutdown].
Definition echo_down : list op := [OpEvents EPOLLOUT 2; OpFunctor; OpEvents EPOLLIN 3; OpDestroy].

Lemma connection_lifecycle_witness : exists s,
  sample_run (echo_up ++ echo_down) (sample_conn echo_writes echo_reads) = Ok (tt, s) /\
  wire (log s) = hello /\ closes (log s) = 1 /\ lifecycle 100 5 s.
Proof.
  assert (allowed_run 100 5 sample_tie sample_script (echo_up ++ echo_down) (sample_conn echo_writes echo_reads)) as Ha.
  { cbn [app echo_up echo_down allowed_run]. vm_compute. naive_solver. }
  pose proof (connection_lifecycle 100 5 sample_tie sample_script sample_tie_keeps sample_script_ok
    (sample_conn echo_writes echo_reads) (echo_up ++ echo_down) (sample_constructed echo_writes echo_reads) Ha) as H.
  assert (match sample_run (echo_up ++ echo_down) (sample_conn echo_writes echo_reads) with
          | Ok (_, s) => wire (log s) = hello /\ closes (log s) = 1 | Err _ => False end) as G by (vm_compute; repeat split).
  unfold wpe in H. unfold sample_run in *. destruct (for_each _ _ _) as [[[] s]|e]; [|destruct G].
  exists s. split; [reflexivity|]. split; [apply G|]. split; [apply G|exact H].
Defined.

(** The state between the two halves: three bytes wait, [shutdown] was called. *)
Definition echo_half : sample_t :=
  match sample_run echo_up (sample_conn echo_writes echo_reads) with
  | Ok (_, s) => s
  | Err _ => sample_conn [] []
  end.
Lemma echo_half_run : sample_run echo_up (sample_conn echo_writes echo_reads) = Ok (tt, echo_half).
Proof. by vm_compute. Qed.

Lemma echo_half_reachable : reachable 100 5 sample_tie sample_script echo_half.
Proof.
  exists (sample_conn echo_writes echo_reads), echo_up. split; [apply sample_constructed|].
  split; [|apply echo_half_run]. cbn [echo_up allowed_run]. vm_compute. naive_solver.
Qed.

Lemma stream_integrity_witness :
  wire (log echo_half) = [x68; x65] /\ Buffer.content (outputBuffer_ echo_half) = [x6c; x6c; x6f] /\
  exists msgs, msgs `sublist_of` sendings (log echo_half) /\
    wire (log echo_half) ++ Buffer.content (outputBuffer_ echo_half) = concat msgs.
Proof.
  split; [by vm_compute|]. split; [by vm_compute|].
  exact (proj1 (stream_integrity 100 5 sample_tie sample_script sample_tie_keeps sample_script_ok
    echo_half echo_half_reachable)).
Defined.

Lemma send_exact_witness : exists s', sendInLoop 100 [x21] echo_half = Ok (tt, s') /\
  sent 100 [x21] echo_half s' /\ Buffer.content (outputBuffer_ s') = [x6c; x6c; x6f; x21].
Proof.
  pose proof (send_exact 100 5 sample_tie sample_script sample_tie_keeps sample_script_ok [x21]
    echo_half echo_half_reachable ltac:(by vm_compute) ltac:(by vm_compute)) as H.
  assert (match sendInLoop 100 [x21] echo_half with
          | Ok (_, s) => Buffer.content (outputBuffer_ s) = [x6c; x6c; x6f; x21] | Err _ => False end) as G by (vm_compute; repeat split).
  unfold wpe in H. destruct (sendInLoop 100 [x21] echo_half) as [[[] s']|e]; [|destruct G].
  exists s'. split; [reflexivity|]. split; [exact H|exact G].
Defined.

Lemma handleWrite_exact_witness : exists s', handleWrite 100 echo_half = Ok (tt, s') /\
  flushed 3 echo_half s' /\ sk_shut (kernel s') = true.
Proof.
  pose proof (handleWrite_exact 100 5 sample_tie sample_script sample_tie_keeps sample_script_ok
    echo_half (mkSock [] [[]] false) 3 echo_half_reachable ltac:(right; by vm_compute) ltac:(by vm_compute)
    ltac:(by vm_compute) eq_refl) as H.
  assert (match handleWrite 100 echo_half with
          | Ok (_, s) => sk_shut (kernel s) = true | Err _ => False end) as G by (vm_compute; repeat split).
  unfold wpe in H. destruct (handleWrite 100 echo_half) as [[[] s']|e]; [|destruct G].
  exists s'. split; [reflexivity|]. split; [apply H|exact G].
Defined.

(** ** What the allowed runs exclude *)

(** [forceClose] and [shutdown] test the state and set it in two steps:
    when the peer hangs up in between, the closed connection becomes
    kDisconnecting again, and the queued [forceCloseInLoop] closes it a
    second time, with a second disconnect callback and a second close
    callback. *)
Theorem forceClose_race_closes_twice : exists s,
  sample_run [OpEstablish; OpCheck ForceClose; OpEvents EPOLLHUP 1; OpSet 0; OpQueue 0; OpFunctor]
    (sample_conn [] []) = Ok (tt, s) /\
  closes (log s) = 2 /\ connections (log s) = [kConnected; kDisconnected; kDisconnected].
Proof. eexists. split; [vm_compute; reflexivity|]. split; vm_compute; reflexivity. Qed.

(** [connectDestroyed] disables the channel of a connected connection
    only: destroyed while a shutdown is under way (as [~TcpServer] does), the
    channel still has its interest, and the poller's assertion fails. *)
Theorem destroy_while_disconnecting_asserts :
  sample_run [OpEstablish; OpUser Shutdown; OpDestroy] (sample_conn [] []) = Err AssertFailed.
Proof. by vm_compute. Qed.

(** [startRead] does not look at the state: after the close it registers
    the channel again, and the next event of the dead connection fails the
    assertion of [handleClose]. *)
Theorem startRead_after_close_asserts :
  (exists s, sample_run [OpEstablish; OpEvents EPOLLHUP 1; OpUser StartRead] (sample_conn [] [[]]) = Ok (tt, s) /\
     state_ s = kDisconnected /\ interest (poller (world s)) !! 5 = Some (100, kReadEvent)) /\
  sample_run [OpEstablish; OpEvents EPOLLHUP 1; OpUser StartRead; OpEvents EPOLLIN 2] (sample_conn [] [[]]) =
    Err AssertFailed.
Proof. split; [eexists; split; [vm_compute; reflexivity|]; split; vm_compute; reflexivity|by vm_compute]. Qed.

(** A connection that has stopped reading and is then closed by force is
    put back into the epoll set with no events: the kernel still reports its
    hang-up, which fails the assertion of [handleClose]. *)
Theorem stopRead_forceClose_asserts :
  (exists s, sample_run [OpEstablish; OpUser StopRead; OpUser ForceClose; OpFunctor] (sample_conn [] []) = Ok (tt, s) /\
     state_ s = kDisconnected /\
     Sample.ep_set (EPollPoller.kernel (poller (world s))) !! 5 = Some (EPollPoller.mkEvent 0 100)) /\
  sample_run [OpEstablish; OpUser StopRead; OpUser ForceClose; OpFunctor; OpEvents EPOLLHUP 1] (sample_conn [] []) =
    Err AssertFailed.
Proof. split; [eexists; split; [vm_compute; reflexivity|]; split; vm_compute; reflexivity|by vm_compute]. Qed.
End TcpConnection.
