(* ===== verification/Text.v ===== *)
(** * Formatted text

    What the sources use of the C library to build names and addresses:
    the C string in a [std::string], [%d] and [%u], and [snprintf] into a
    buffer. *)
From stdpp Require Import pretty.
From S2P Require Import Prelude.
#[local] Open Scope Z_scope.

(** [s.c_str()], as [%s] reads it: up to the first NUL. *)
Fixpoint c_str (s : string) : string :=
  match s with
  | EmptyString => EmptyString
  | String c s => if decide (c = Ascii.zero) then EmptyString else String c (c_str s)
  end.

(** [%d] and [%u] *)
Definition dec (z : Z) : string := pretty z.

(** The text [snprintf] leaves in a buffer of [size] bytes. *)
Fixpoint str_take (n : nat) (s : string) : string :=
  match n, s with
  | S n, String c s => String c (str_take n s)
  | _, _ => EmptyString
  end.
Definition snprintf (size : Z) (s : string) : string := str_take (Z.to_nat (size - 1)) s.

Definition slen (s : string) : Z := Z.of_nat (String.length s).

Lemma slen_app s t : slen (s +:+ t) = slen s + slen t.
Proof. unfold slen. induction s as [|c s IH]; [done|].
  change (String c s +:+ t) with (String c (s +:+ t)). cbn [String.length]. lia.
Qed.
Lemma slen_nonneg s : 0 <= slen s.
Proof. unfold slen. lia. Qed.

Lemma str_take_all n s : (String.length s <= n)%nat -> str_take n s = s.
Proof.
  revert n. induction s as [|c s IH]; intros [|n] Hn; cbn in *; try done; [lia|]. by rewrite IH by lia.
Qed.
Lemma snprintf_fits size s : slen s < size -> snprintf size s = s.
Proof. unfold slen, snprintf. intros. apply str_take_all. lia. Qed.

Lemma slen_snprintf size s : 0 < size -> slen (snprintf size s) < size.
Proof.
  unfold slen, snprintf. intros Hs. assert (forall n t, (String.length (str_take n t) <= n)%nat) as G.
  { induction n as [|n IH]; intros [|c t]; cbn; try lia. specialize (IH t). lia. }
  specialize (G (Z.to_nat (size - 1)) s). lia.
Qed.

(** A C string holds no NUL. *)
Definition no_nul (s : string) : Prop := c_str s = s.
Lemma c_str_length s : slen (c_str s) <= slen s.
Proof.
  unfold slen. induction s as [|c s IH]; cbn; [lia|]. case_decide; cbn; lia.
Qed.

Lemma dec_inj a b : dec a = dec b -> a = b.
Proof. apply (inj pretty). Qed.

Lemma pretty_N_go_length k x s : (x < 10 ^ N.of_nat k)%N ->
  (String.length (pretty_N_go x s) <= k + String.length s)%nat.
Proof.
  revert x s. induction k as [|k IH]; intros x s Hx.
  - assert (x = 0)%N as -> by (cbn in Hx; lia). done.
  - destruct (N.eq_dec x 0%N) as [->|Hne]; [rewrite pretty_N_go_0; lia|].
    rewrite pretty_N_go_step by lia. etransitivity; [apply IH|cbn; lia].
    apply N.Div0.div_lt_upper_bound. rewrite Nat2N.inj_succ, N.pow_succ_r' in Hx. lia.
Qed.

Lemma dec_N_length k (x : N) : (0 < k)%nat -> (x < 10 ^ N.of_nat k)%N ->
  (String.length (pretty x) <= k)%nat.
Proof.
  intros Hk Hx. unfold pretty, pretty_N. case_decide; [cbn; lia|].
  pose proof (pretty_N_go_length k x "" Hx) as Hl. change (String.length "") with 0%nat in Hl. lia.
Qed.

Lemma dec_pos_length k (p : positive) : (0 < k)%nat -> Zpos p < 10 ^ Z.of_nat k -> slen (pretty p) <= Z.of_nat k.
Proof.
  intros Hk Hp. unfold slen. apply inj_le. unfold pretty at 1, pretty_positive. apply dec_N_length; [done|].
  apply N2Z.inj_lt. by rewrite N2Z.inj_pow, nat_N_Z.
Qed.

(** An [int] takes at most eleven characters, a [uint16_t] five. *)
Lemma dec_int_length z : - 2 ^ 31 <= z < 2 ^ 31 -> slen (dec z) <= 11.
Proof.
  intros Hz. unfold dec, pretty, pretty_Z. destruct z as [|p|p]; [done|..].
  - pose proof (dec_pos_length 10 p ltac:(lia)) as Hl. change (10 ^ Z.of_nat 10) with 10000000000 in Hl. lia.
  - pose proof (dec_pos_length 10 p ltac:(lia)) as Hl. change (10 ^ Z.of_nat 10) with 10000000000 in Hl.
    rewrite slen_app. change (slen "-") with 1. lia.
Qed.
Lemma dec_u16_length z : 0 <= z < 2 ^ 16 -> slen (dec z) <= 5.
Proof.
  intros Hz. unfold dec, pretty, pretty_Z. destruct z as [|p|p]; [done| |lia].
  pose proof (dec_pos_length 5 p ltac:(lia)) as Hl. change (10 ^ Z.of_nat 5) with 100000 in Hl. lia.
Qed.
