(* ===== verification/EventLoopThread.v ===== *)
(** * Threads with a loop (EventLoopThread.h, EventLoopThread.c++)

    [startLoop] and [threadFunc] run in two threads that meet at a mutex and a
    condition variable; this is their interleaving, statement by statement. *)
From S2P Require Import Prelude.

Module EventLoopThread.

(** The thread that calls [startLoop] and later destroys the object. *)
Inductive starter : Type :=
| SStart          (* thread_.start() *)
| SLock           (* MutexLockGuard lock(mutex_) *)
| STest           (* while (loop_ == NULL) *)
| SBlocked        (* in cond_.wait(): the mutex is released *)
| SWoken          (* in cond_.wait(): about to take the mutex again *)
| SReturn         (* past the block: return loop_ *)
| SReturned (loop : option Z)
| DTest           (* ~EventLoopThread: exiting_ = true; if (loop_ != NULL) *)
| DQuit (loop : Z) (* loop_->quit() *)
| DJoin           (* thread_.join() *)
| DDone.

(** The new thread. *)
Inductive worker : Type :=
| WNone           (* not started *)
| WCallback       (* EventLoop loop; if (callback_) callback_(&loop) *)
| WLock           (* MutexLockGuard lock(mutex_) *)
| WPublish        (* loop_ = &loop *)
| WNotify         (* cond_.notify() *)
| WUnlock         (* ~MutexLockGuard *)
| WLoop           (* loop.loop() *)
| WClear          (* loop_ = NULL *)
| WDone.          (* the loop, a local variable, is gone *)

#[export] Instance starter_eq_dec : EqDecision starter.
Proof. solve_decision. Defined.
#[export] Instance worker_eq_dec : EqDecision worker.
Proof. solve_decision. Defined.

Inductive who : Type := Starter | Worker.
#[export] Instance who_eq_dec : EqDecision who.
Proof. solve_decision. Defined.

Record t : Type := mk {
  loop_ : option Z;
  exiting_ : bool;
  mutex_ : option who;
  callbacks : Z;               (* how often the init callback ran *)
  quit : bool;                 (* the loop was told to quit *)
  starter_ : starter;
  worker_ : worker }.

Definition set_loop v s := mk v (exiting_ s) (mutex_ s) (callbacks s) (quit s) (starter_ s) (worker_ s).
Definition set_exiting v s := mk (loop_ s) v (mutex_ s) (callbacks s) (quit s) (starter_ s) (worker_ s).
Definition set_mutex v s := mk (loop_ s) (exiting_ s) v (callbacks s) (quit s) (starter_ s) (worker_ s).
Definition set_callbacks v s := mk (loop_ s) (exiting_ s) (mutex_ s) v (quit s) (starter_ s) (worker_ s).
Definition set_quit v s := mk (loop_ s) (exiting_ s) (mutex_ s) (callbacks s) v (starter_ s) (worker_ s).
Definition set_starter v s := mk (loop_ s) (exiting_ s) (mutex_ s) (callbacks s) (quit s) v (worker_ s).
Definition set_worker v s := mk (loop_ s) (exiting_ s) (mutex_ s) (callbacks s) (quit s) (starter_ s) v.

Definition init : t := mk None false None 0 false SStart WNone.

Section machine.
(** The address of the loop, and whether there is an init callback. *)
Context (loop : Z) (callback_ : bool).

(** [None]: the thread cannot step (blocked or finished); a fault: it calls
    a loop that is gone. *)
Definition step_starter (s : t) : option (result t) :=
  match starter_ s with
  | SStart => Some (Ok (set_worker WCallback (set_starter SLock s)))
  | SLock | SWoken =>
      match mutex_ s with
      | None => Some (Ok (set_mutex (Some Starter) (set_starter STest s)))
      | Some _ => None
      end
  | STest =>
      match loop_ s with
      | None => Some (Ok (set_mutex None (set_starter SBlocked s)))
      | Some _ => Some (Ok (set_mutex None (set_starter SReturn s)))
      end
  | SBlocked => None
  | SReturn => Some (Ok (set_starter (SReturned (loop_ s)) s))
  | SReturned _ => Some (Ok (set_exiting true (set_starter DTest s)))
  | DTest => Some (Ok (set_starter (match loop_ s with Some l => DQuit l | None => DDone end) s))
  | DQuit _ =>
      match worker_ s with
      | WDone => Some (Err Undefined)
      | _ => Some (Ok (set_quit true (set_starter DJoin s)))
      end
  | DJoin => match worker_ s with WDone => Some (Ok (set_starter DDone s)) | _ => None end
  | DDone => None
  end.

Definition step_worker (s : t) : option (result t) :=
  match worker_ s with
  | WNone => None
  | WCallback => Some (Ok (set_callbacks (if callback_ then callbacks s + 1 else callbacks s) (set_worker WLock s)))
  | WLock =>
      match mutex_ s with
      | None => Some (Ok (set_mutex (Some Worker) (set_worker WPublish s)))
      | Some _ => None
      end
  | WPublish => Some (Ok (set_loop (Some loop) (set_worker WNotify s)))
  | WNotify => Some (Ok (set_worker WUnlock (match starter_ s with SBlocked => set_starter SWoken s | _ => s end)))
  | WUnlock => Some (Ok (set_mutex None (set_worker WLoop s)))
  | WLoop => if quit s then Some (Ok (set_worker WClear s)) else None
  | WClear => Some (Ok (set_loop None (set_worker WDone s)))
  | WDone => None
  end.

Inductive event : Type :=
| Step (w : who)
| Spurious          (* pthread_cond_wait returns by itself *)
| Quit.             (* someone who knows the running loop calls quit() *)

Definition step (e : event) (s : t) : option (result t) :=
  match e with
  | Step Starter => step_starter s
  | Step Worker => step_worker s
  | Spurious => match starter_ s with SBlocked => Some (Ok (set_starter SWoken s)) | _ => None end
  | Quit => match worker_ s with WLoop => Some (Ok (set_quit true s)) | _ => None end
  end.

(** A run; events that cannot happen are skipped. *)
Fixpoint run (l : list event) (s : t) : result t :=
  match l with
  | [] => Ok s
  | e :: l => match step e s with
              | None => run l s
              | Some (Ok s') => run l s'
              | Some (Err f) => Err f
              end
  end.

Definition published (w : worker) : bool :=
  match w with WNotify | WUnlock | WLoop | WClear | WDone => true | _ => false end.
Definition called_back (w : worker) : bool :=
  match w with WNone | WCallback => false | _ => true end.
Definition past_test (p : starter) : bool :=
  match p with SReturn | SReturned _ | DTest | DQuit _ | DJoin | DDone => true | _ => false end.

Definition returned (p : starter) : bool :=
  match p with SReturned _ | DTest | DQuit _ | DJoin | DDone => true | _ => false end.

(** Which points of the two threads, states of the mutex and of the quit
    flag go together. *)
Definition holds (m : option who) (st : starter) (wk : worker) : bool :=
  match m with
  | Some Starter => bool_decide (st = STest) && negb (match wk with WPublish | WNotify | WUnlock => true | _ => false end)
  | Some Worker => negb (bool_decide (st = STest)) && match wk with WPublish | WNotify | WUnlock => true | _ => false end
  | None => negb (bool_decide (st = STest)) && negb (match wk with WPublish | WNotify | WUnlock => true | _ => false end)
  end.
Definition consistent (m : option who) (q : bool) (st : starter) (wk : worker) : bool :=
  holds m st wk &&
  Bool.eqb (bool_decide (st = SStart)) (bool_decide (wk = WNone)) &&
  implb (past_test st) (match wk with WLoop | WClear | WDone => true | _ => false end) &&
  implb (bool_decide (st = SBlocked) && negb q)
    (match wk with WCallback | WLock | WPublish | WNotify => true | _ => false end) &&
  implb (match wk with WClear | WDone => true | _ => false end) q.

Record inv (s : t) : Prop := {
  inv_loop : loop_ s = if published (worker_ s) && negb (bool_decide (worker_ s = WDone)) then Some loop else None;
  inv_consistent : consistent (mutex_ s) (quit s) (starter_ s) (worker_ s) = true;
  inv_callbacks : callbacks s = if called_back (worker_ s) && callback_ then 1 else 0;
  inv_returned : forall r, starter_ s = SReturned r -> r = Some loop \/ quit s = true }.

Lemma thread_init_inv : inv init.
Proof. by constructor. Qed.

Lemma thread_step_inv e s s' : inv s -> step e s = Some (Ok s') -> inv s'.
Proof.
  destruct s as [lp ex mu cb q st wk]. intros [I1 I2 I3 I4] Hs; cbn in *. subst lp cb.
  destruct e as [[]| |]; cbn in Hs; unfold step_starter, step_worker in Hs; cbn in Hs.
  - destruct st, wk; try discriminate I2; destruct mu as [[]|], q; try discriminate I2; try discriminate Hs;
      injection Hs as <-; constructor; cbn; try done; try (by destruct callback_); try (intros r [= <-]; by auto).
  - destruct wk, st; try discriminate I2; destruct mu as [[]|], q; try discriminate I2; try discriminate Hs;
      injection Hs as <-; constructor; cbn; try done; try (by destruct callback_); try (intros r [= <-]; by auto).
  - destruct st; try discriminate Hs. destruct wk; try discriminate I2; destruct mu as [[]|], q; try discriminate I2;
      injection Hs as <-; constructor; cbn; try done.
  - destruct wk; try discriminate Hs. destruct st; try discriminate I2; destruct mu as [[]|], q; try discriminate I2;
      injection Hs as <-; constructor; cbn; try done; try (intros r [= <-]; by auto).
Qed.

(** How far the two threads still have to go. *)
Definition starter_rank (p : starter) : nat :=
  match p with
  | SStart => 9 | SLock => 8 | SWoken => 8 | STest => 7 | SBlocked => 6 | SReturn => 5
  | SReturned _ => 4 | DTest => 3 | DQuit _ => 2 | DJoin => 1 | DDone => 0
  end.
Definition worker_rank (p : worker) : nat :=
  match p with
  | WNone => 8 | WCallback => 7 | WLock => 6 | WPublish => 5 | WNotify => 4 | WUnlock => 3
  | WLoop => 2 | WClear => 1 | WDone => 0
  end.
Definition rank (s : t) : nat := 20 * worker_rank (worker_ s) + starter_rank (starter_ s).

Lemma step_rank w s s' : inv s -> step (Step w) s = Some (Ok s') -> (rank s' < rank s)%nat.
Proof.
  destruct s as [lp ex mu cb q st wk]. intros [I1 I2 I3 I4] Hs; cbn in *. subst lp cb.
  destruct w; cbn in Hs; unfold step_starter, step_worker in Hs; cbn in Hs.
  - destruct st, wk; try discriminate Hs; destruct mu as [[]|], q; try discriminate I2; try discriminate Hs;
      injection Hs as <-; cbn; lia.
  - destruct wk; try discriminate Hs; destruct mu as [[]|], q; try discriminate Hs; injection Hs as <-; destruct st; cbn; lia.
Qed.

(** Before [startLoop] has returned, one of the two threads can go on,
    unless the loop was told to quit early. *)
Lemma step_enabled s : inv s -> quit s = false -> returned (starter_ s) = false ->
  exists w s', step (Step w) s = Some (Ok s').
Proof.
  destruct s as [lp ex mu cb q st wk]. intros [I1 I2 I3 I4] Hq Hr; cbn in *. subst lp cb q.
  destruct st; try discriminate Hr; try (exists Starter; eexists; reflexivity);
    destruct wk; try discriminate I2; try (exists Worker; eexists; reflexivity);
    destruct mu as [[]|]; try discriminate I2;
    first [exists Starter; eexists; reflexivity|exists Worker; eexists; reflexivity].
Qed.

(** As long as only [~EventLoopThread] quits the loop. *)
Definition unquit (s : t) : Prop := quit s = true -> starter_ s = DJoin \/ starter_ s = DDone.

Lemma unquit_step e s s' : e <> Quit -> inv s -> unquit s -> step e s = Some (Ok s') -> unquit s'.
Proof.
  destruct s as [lp ex mu cb q st wk]. unfold unquit. intros He [I1 I2 I3 I4] Hq Hs; cbn in *. subst lp cb.
  destruct e as [[]| |]; [| | |done]; cbn in Hs; unfold step_starter, step_worker in Hs; cbn in Hs.
  - destruct st; try discriminate Hs; destruct wk; try discriminate I2; try discriminate Hs; destruct mu as [[]|];
      try discriminate Hs; injection Hs as <-; cbn; naive_solver.
  - destruct wk; try discriminate Hs; destruct mu as [[]|], q; try discriminate Hs; injection Hs as <-;
      destruct st; cbn; naive_solver.
  - destruct st; try discriminate Hs. injection Hs as <-. cbn. naive_solver.
Qed.

Lemma unquit_no_fault e s f : inv s -> unquit s -> step e s <> Some (Err f).
Proof.
  destruct s as [lp ex mu cb q st wk]. unfold unquit. intros [I1 I2 I3 I4] Hq Hs; cbn in *. subst lp cb.
  destruct e as [[]| |]; cbn in Hs; unfold step_starter, step_worker in Hs; cbn in Hs; repeat case_match; try discriminate Hs.
  subst. destruct q; [|by destruct mu as [[]|]]. by destruct Hq.
Qed.

Lemma thread_run_inv l s : inv s -> unquit s -> Forall (fun e => e <> Quit) l ->
  exists s', run l s = Ok s' /\ inv s' /\ unquit s'.
Proof.
  revert s. induction l as [|e l IH]; intros s Hi Hu Hl; cbn [run]; [eauto|].
  apply list.Forall_cons in Hl as [He Hl]. destruct (step e s) as [[s'|f]|] eqn:Hs; [| |by apply IH].
  - apply IH; [by eapply thread_step_inv|by eapply unquit_step|done].
  - by apply unquit_no_fault in Hs.
Qed.

(** C20: However the two threads interleave, and whatever spurious wakeups
    the condition variable has, [startLoop] returns the loop of the new
    thread and only after its init callback has run, and the destructor
    never calls a loop that is gone, as long as nobody else quits the loop.
    No wakeup is lost: until [startLoop] has returned one of the threads
    can step, and every step brings the two closer to the end. *)
Theorem startLoop_correct l : Forall (fun e => e <> Quit) l -> exists s, run l init = Ok s /\
  (forall r, starter_ s = SReturned r -> r = Some loop /\ worker_ s = WLoop /\
     callbacks s = if callback_ then 1 else 0) /\
  (returned (starter_ s) = false -> exists w s', step (Step w) s = Some (Ok s')) /\
  (forall w s', step (Step w) s = Some (Ok s') -> (rank s' < rank s)%nat).
Proof.
  intros Hl. destruct (thread_run_inv l init thread_init_inv ltac:(done) Hl) as (s & Hr & Hi & Hu).
  exists s. split; [done|]. split; [|split].
  - intros r Hs. assert (quit s = false) as Hq.
    { destruct (quit s) eqn:E; [|done]. destruct (Hu E) as [E'|E']; by rewrite Hs in E'. }
    destruct (inv_returned _ Hi r Hs) as [->|E]; [|congruence]. split; [done|].
    assert (worker_ s = WLoop) as Hw.
    { pose proof (inv_consistent _ Hi) as Hc. rewrite Hs, Hq in Hc.
      destruct (worker_ s), (mutex_ s) as [[]|]; try discriminate Hc; done. }
    split; [done|]. rewrite (inv_callbacks _ Hi), Hw. done.
  - intros Hn. apply step_enabled; [done| |done]. destruct (quit s) eqn:E; [|done].
    destruct (Hu E) as [E'|E']; by rewrite E' in Hn.
  - intros w s' Hs. by eapply step_rank.
Qed.
End machine.

(** The new thread wins the race for the mutex. *)
Definition sample_schedule : list event :=
  [Step Starter; Step Starter; Step Starter; Spurious; Step Worker; Step Starter; Step Starter; Step Worker;
   Step Worker; Step Worker; Step Worker; Step Starter; Step Worker; Step Starter; Step Starter].

Lemma startLoop_correct_witness : exists s, run 77 true sample_schedule init = Ok s /\
  starter_ s = SReturned (Some 77) /\ worker_ s = WLoop /\ callbacks s = 1.
Proof.
  destruct (startLoop_correct 77 true sample_schedule) as (s & E & H & _).
  { repeat constructor; discriminate. }
  assert (starter_ s = SReturned (Some 77)) as Hs.
  { assert (match run 77 true sample_schedule init with
            | Ok s => starter_ s = SReturned (Some 77) | Err _ => False end) as G by (vm_compute; reflexivity).
    by rewrite E in G. }
  destruct (H _ Hs) as (_ & Hw & Hc). exists s. exact (conj E (conj Hs (conj Hw Hc))).
Defined.

(** A loop that is told to quit as soon as it runs (by its init callback's
    doing, from another thread) is lost to [startLoop]: it finds [loop_] NULL
    again and waits for a notification that was already given. *)
Theorem startLoop_hangs : exists s,
  run 77 true [Step Starter; Step Worker; Step Worker; Step Worker; Step Worker; Step Worker; Quit;
               Step Worker; Step Worker; Step Starter; Step Starter] init = Ok s /\
  starter_ s = SBlocked /\ worker_ s = WDone /\
  step_starter s = None /\ step_worker 77 true s = None.
Proof. eexists. split; [vm_compute; reflexivity|]. repeat split. Qed.

(** [return loop_] reads the pointer after the lock is released: when the
    loop quits in between, [startLoop] returns NULL. *)
Theorem startLoop_returns_null : exists s,
  run 77 true [Step Starter; Step Worker; Step Worker; Step Worker; Step Worker; Step Worker;
               Step Starter; Step Starter; Quit; Step Worker; Step Worker; Step Starter] init = Ok s /\
  starter_ s = SReturned None.
Proof. eexists. split; [vm_compute; reflexivity|reflexivity]. Qed.
End EventLoopThread.
