(* ===== verification/EventLoopThreadPool.v ===== *)
(** * Pools of loops (EventLoopThreadPool.h, EventLoopThreadPool.c++)

    The threads are [EventLoopThread]s: [startLoop i] is the address of the
    loop that the [i]th one returns.  [inLoopThread] says whether the caller
    runs in the thread of the base loop: [assertInLoopThread] is fatal
    otherwise. *)
From S2P Require Import Prelude Text.

Module EventLoopThreadPool.

Record t : Type := mk {
  baseLoop_ : Z;
  name_ : string;
  started_ : bool;
  numThreads_ : Z;
  next_ : Z;
  threads_ : list string;      (* the names of the threads *)
  loops_ : list Z;
  inits : list Z }.            (* the loops the init callback ran on *)

Definition set_started v s := mk (baseLoop_ s) (name_ s) v (numThreads_ s) (next_ s) (threads_ s) (loops_ s) (inits s).
Definition setThreadNum v s := mk (baseLoop_ s) (name_ s) (started_ s) v (next_ s) (threads_ s) (loops_ s) (inits s).
Definition set_next v s := mk (baseLoop_ s) (name_ s) (started_ s) (numThreads_ s) v (threads_ s) (loops_ s) (inits s).
Definition add_thread name loop s :=
  mk (baseLoop_ s) (name_ s) (started_ s) (numThreads_ s) (next_ s) (threads_ s ++ [name]) (loops_ s ++ [loop]) (inits s).
Definition add_init loop s :=
  mk (baseLoop_ s) (name_ s) (started_ s) (numThreads_ s) (next_ s) (threads_ s) (loops_ s) (inits s ++ [loop]).

Definition make (baseLoop : Z) (name : string) : t := mk baseLoop name false 0 0 [] [] [].

Section pool.
Context (startLoop : Z -> Z).
Implicit Types (s : t).

Definition assertInLoopThread (inLoopThread : bool) : M t unit :=
  if inLoopThread then ret tt else throw Aborted.

(** The name of the [i]th thread. *)
Definition thread_name (name : string) (i : Z) : string := snprintf (slen name + 32) (c_str name +:+ dec i).

Definition start (inLoopThread : bool) (cb : bool) : M t unit :=
  let* s := get in
  assert_ (negb (started_ s)) ;;;
  assertInLoopThread inLoopThread ;;;
  modify (set_started true) ;;;
  for_each (fun i =>
      when cb (modify (add_init (startLoop i))) ;;;
      modify (fun s => add_thread (thread_name (name_ s) i) (startLoop i) s))
    (seqZ 0 (numThreads_ s)) ;;;
  when ((numThreads_ s =? 0) && cb) (modify (fun s => add_init (baseLoop_ s) s)).

(** [loops_[i]]; undefined out of range. *)
Definition at_ (l : list Z) (i : Z) : M t Z :=
  if 0 <=? i then lift (match l !! Z.to_nat i with Some x => Ok x | None => Err Undefined end)
  else throw Undefined.

Definition getNextLoop (inLoopThread : bool) : M t Z :=
  assertInLoopThread inLoopThread ;;;
  let* s := get in
  assert_ (started_ s) ;;;
  match loops_ s with
  | [] => ret (baseLoop_ s)
  | _ =>
      let* loop := at_ (loops_ s) (next_ s) in
      let n := next_ s + 1 in
      modify (set_next n) ;;;
      when (Zlen (loops_ s) <=? u64 n) (modify (set_next 0)) ;;;
      ret loop
  end.

Definition getLoopForHash (inLoopThread : bool) (hashCode : Z) : M t Z :=
  assertInLoopThread inLoopThread ;;;
  let* s := get in
  match loops_ s with
  | [] => ret (baseLoop_ s)
  | _ => at_ (loops_ s) (hashCode mod Zlen (loops_ s))
  end.

Definition getAllLoops (inLoopThread : bool) : M t (list Z) :=
  assertInLoopThread inLoopThread ;;;
  let* s := get in
  assert_ (started_ s) ;;;
  match loops_ s with
  | [] => ret [baseLoop_ s]
  | _ => ret (loops_ s)
  end.

(** [n] calls in a row. *)
Fixpoint nextLoops (n : nat) : M t (list Z) :=
  match n with
  | O => ret []
  | S n => let* l := getNextLoop true in let* ls := nextLoops n in ret (l :: ls)
  end.

(** ** Well-formed pools *)

Record wf s : Prop := {
  wf_next : 0 <= next_ s /\ (next_ s < Zlen (loops_ s) \/ next_ s = 0);
  wf_size : Zlen (loops_ s) < 2 ^ 31 }.

Definition started_with (n : Z) (cb : bool) (s s' : t) : Prop :=
  started_ s' = true /\ next_ s' = 0 /\ baseLoop_ s' = baseLoop_ s /\ name_ s' = name_ s /\ numThreads_ s' = n /\
  loops_ s' = startLoop <$> seqZ 0 n /\
  threads_ s' = thread_name (name_ s) <$> seqZ 0 n /\
  inits s' = if cb then (if n =? 0 then [baseLoop_ s] else startLoop <$> seqZ 0 n) else [].

Lemma wp_start_threads cb l s :
  wp (for_each (fun i =>
      when cb (modify (add_init (startLoop i))) ;;;
      modify (fun s => add_thread (thread_name (name_ s) i) (startLoop i) s)) l)
    (fun _ s' => s' = mk (baseLoop_ s) (name_ s) (started_ s) (numThreads_ s) (next_ s)
       (threads_ s ++ (thread_name (name_ s) <$> l)) (loops_ s ++ (startLoop <$> l))
       (inits s ++ (if cb then startLoop <$> l else []))) s.
Proof.
  revert s. induction l as [|i l IH]; intros s; cbn [for_each].
  - wp_steps. destruct s, cb; cbn; by rewrite !app_nil_r.
  - wp_steps. destruct cb; cbn [when]; wp_steps; (eapply wpe_mono; [apply IH|]); cbn; intros _ s' ->;
      rewrite <- !app_assoc; done.
Qed.

Lemma wp_start n cb s : started_ s = false -> numThreads_ s = n -> next_ s = 0 -> loops_ s = [] ->
  threads_ s = [] -> inits s = [] ->
  wp (start true cb) (fun _ s' => started_with n cb s s') s.
Proof.
  intros Hs Hn E1 E2 E3 E4. unfold start, assertInLoopThread. wp_steps. rewrite Hs. cbn. wp_steps.
  eapply wpe_mono; [apply wp_start_threads|]. cbn beta. intros _ s1 ->. cbn [set_started baseLoop_ name_ started_ numThreads_ next_ threads_ loops_ inits].
  rewrite E2, E3, E4. cbn [app]. rewrite Hn. apply wpe_when; intros Hb.
  - apply andb_true_iff in Hb as [Hz ->]. wp_steps. unfold started_with; cbn. rewrite E1, Hz.
    apply Z.eqb_eq in Hz as ->. done.
  - unfold started_with; cbn. rewrite E1. repeat (split; [done|]). destruct cb; [|done].
    rewrite andb_true_r in Hb. by rewrite Hb.
Qed.

(** ** Choosing a loop *)

Lemma wp_at l i x (Q : Z -> t -> Prop) s : 0 <= i -> l !! Z.to_nat i = Some x -> Q x s -> wp (at_ l i) Q s.
Proof.
  intros Hi Hx HQ. unfold at_. rewrite (proj2 (Z.leb_le _ _)) by done. by eapply wp_lift; [rewrite Hx|].
Qed.

Lemma wp_getNextLoop s : wf s -> started_ s = true -> loops_ s <> [] ->
  wp (getNextLoop true) (fun r s' => loops_ s !! Z.to_nat (next_ s) = Some r /\
    s' = set_next ((next_ s + 1) mod Zlen (loops_ s)) s) s.
Proof.
  intros [Hn Hsz] Hs Hne. unfold getNextLoop, assertInLoopThread. wp_steps. rewrite Hs. cbn. wp_steps.
  assert (0 < Zlen (loops_ s)) as Hpos.
  { pose proof (Zlen_nonneg (loops_ s)). destruct (decide (Zlen (loops_ s) = 0)) as [E|]; [|lia].
    by apply Zlen_0_nil in E. }
  assert (next_ s < Zlen (loops_ s)) as Hlt by lia.
  destruct (lookup_lt_is_Some_2 (loops_ s) (Z.to_nat (next_ s))) as [x Hx]; [unfold Zlen in Hlt; lia|].
  destruct (loops_ s) as [|l0 ls] eqn:El; [done|]. rewrite <- El in *. wp_steps.
  eapply wp_at; [lia|exact Hx|]. wp_steps. rewrite u64_small by lia.
  apply wpe_when; intros Hb; to_prop; wp_steps; (split; [done|]); destruct s; cbn in *.
  - assert (next_0 + 1 = Zlen loops_0) as -> by lia. by rewrite Z.mod_same by lia.
  - by rewrite Z.mod_small by lia.
Qed.

Lemma wf_set_next v s : 0 <= v -> v < Zlen (loops_ s) \/ v = 0 -> wf s -> wf (set_next v s).
Proof. intros ? ? [? ?]. by constructor. Qed.

Lemma wp_nextLoops n s : wf s -> started_ s = true -> loops_ s <> [] ->
  wp (nextLoops n) (fun r s' => wf s' /\ started_ s' = true /\ loops_ s' = loops_ s /\
    Some <$> r = (fun k : nat => loops_ s !! Z.to_nat ((next_ s + Z.of_nat k) mod Zlen (loops_ s))) <$> seq 0 n) s.
Proof.
  revert s. induction n as [|n IH]; intros s Hw Hs Hne; cbn [nextLoops]; [by wp_steps|].
  pose proof Hw as [Hn Hsz].
  assert (0 < Zlen (loops_ s)) as Hpos.
  { pose proof (Zlen_nonneg (loops_ s)). destruct (decide (Zlen (loops_ s) = 0)) as [E|]; [|lia].
    by apply Zlen_0_nil in E. }
  wp_steps. eapply wpe_mono; [by apply wp_getNextLoop|]. cbn. intros r s1 [Hr ->]. wp_steps.
  pose proof (Z.mod_pos_bound (next_ s + 1) (Zlen (loops_ s)) Hpos).
  eapply wpe_mono; [apply IH; [apply wf_set_next; [lia|by left; lia|done]|done|done]|].
  cbn. intros ls s' (? & ? & ? & Hls). wp_steps. repeat (split; [done|]).
  cbn. f_equal.
  - rewrite Z.add_0_r, Z.mod_small by lia. done.
  - rewrite Hls, <- seq_shift. rewrite <- list_fmap_compose. apply list_fmap_ext. intros i k _. cbn.
    do 2 f_equal. rewrite Zplus_mod_idemp_l. f_equal. lia.
Qed.

(** How often an index comes up in [m] turns through [n]. *)
Lemma count_mod (n j : Z) (m : nat) : 0 < n -> 0 <= j < n ->
  Zlen (filter (fun k : nat => Z.of_nat k mod n = j) (seq 0 m)) =
    Z.of_nat m / n + (if j <? Z.of_nat m mod n then 1 else 0).
Proof.
  intros Hn Hj. induction m as [|m IH].
  - cbn. rewrite Z.div_0_l, Z.mod_0_l by lia. by rewrite (proj2 (Z.ltb_ge _ _)) by lia.
  - rewrite seq_S, list.filter_app, Zlen_app, IH. cbn [Nat.add]. rewrite Nat2Z.inj_succ.
    pose proof (Z.div_mod (Z.of_nat m) n ltac:(lia)) as Hm. pose proof (Z.mod_pos_bound (Z.of_nat m) n Hn) as Hb.
    set (q := Z.of_nat m / n) in *. set (r := Z.of_nat m mod n) in *.
    assert (Zlen (filter (fun k : nat => Z.of_nat k mod n = j) [m]) = if r =? j then 1 else 0) as ->.
    { cbn. fold r. case_decide as E; [by rewrite (proj2 (Z.eqb_eq _ _))|by rewrite (proj2 (Z.eqb_neq _ _))]. }
    destruct (decide (r + 1 = n)) as [E|E].
    + rewrite <- (Z.div_unique (Z.succ (Z.of_nat m)) n (q + 1) 0), <- (Z.mod_unique (Z.succ (Z.of_nat m)) n (q + 1) 0) by nia.
      rewrite (proj2 (Z.ltb_ge j 0)) by lia. destruct (Z.ltb_spec j r), (Z.eqb_spec r j); lia.
    + rewrite <- (Z.div_unique (Z.succ (Z.of_nat m)) n q (r + 1)), <- (Z.mod_unique (Z.succ (Z.of_nat m)) n q (r + 1)) by nia.
      destruct (Z.ltb_spec j r), (Z.eqb_spec r j), (Z.ltb_spec j (r + 1)); lia.
Qed.

(** A pool that has been started with [n] threads. *)
Lemma started_wf n cb s s' : 0 <= n < 2 ^ 31 -> started_with n cb s s' ->
  wf s' /\ Zlen (loops_ s') = n.
Proof.
  intros Hn (_ & E1 & _ & _ & _ & E2 & _). assert (Zlen (loops_ s') = n) as Hl.
  { rewrite E2. unfold Zlen. rewrite length_fmap, length_seqZ. lia. }
  split; [|done]. constructor; [rewrite E1; lia|]. rewrite Hl. lia.
Qed.

(** C28: Starting a new pool of [n] threads makes [n] loops; the next [m]
    calls of [getNextLoop] then succeed and go through them round robin,
    the [k]th call giving loop [k mod n], so that the numbers of calls any
    two loops get differ by at most one. *)
Theorem round_robin baseLoop name n cb m : 0 < n < 2 ^ 31 ->
  wp (modify (setThreadNum n) ;;; start true cb ;;; nextLoops m) (fun r s' =>
      r = (fun k : nat => startLoop (Z.of_nat k mod n)) <$> seq 0 m /\
      (forall i, 0 <= i < n -> Zlen (filter (fun k : nat => Z.of_nat k mod n = i) (seq 0 m)) =
         Z.of_nat m / n + (if i <? Z.of_nat m mod n then 1 else 0)) /\
      loops_ s' = startLoop <$> seqZ 0 n)
    (make baseLoop name).
Proof.
  intros Hn. wp_steps. eapply wpe_mono; [by apply (wp_start n cb)|]. cbn.
  intros _ s1 Hst. destruct (started_wf n cb _ s1 ltac:(lia) Hst) as [Hwf Hl].
  destruct Hst as (Hs & E1 & _ & _ & _ & E2 & _).
  eapply wpe_mono; [apply wp_nextLoops; [done|done|]|].
  { intros E. rewrite E in Hl. change (Zlen (@nil Z)) with 0 in Hl. lia. }
  cbn. intros r s' (_ & _ & El & Hr). rewrite Hl, E1 in Hr. split; [|split; [|congruence]].
  - apply (inj (fmap Some)). rewrite Hr, <- list_fmap_compose. apply list_fmap_ext. intros i k _. cbn.
    pose proof (Z.mod_pos_bound (Z.of_nat k) n ltac:(lia)). rewrite Z.add_0_l, E2, list_lookup_fmap.
    rewrite lookup_seqZ_lt by lia. cbn. do 2 f_equal. lia.
  - intros i Hi. apply count_mod; lia.
Qed.

(** Before [start], asking for the next loop or for all loops fails an
    assertion, as does a second [start]; from another thread every call is
    fatal. *)
Theorem pool_misuse s cb :
  (started_ s = false -> getNextLoop true s = Err AssertFailed /\ getAllLoops true s = Err AssertFailed) /\
  (started_ s = true -> start true cb s = Err AssertFailed) /\
  getNextLoop false s = Err Aborted /\ getLoopForHash false 0 s = Err Aborted /\ getAllLoops false s = Err Aborted.
Proof.
  unfold getNextLoop, getAllLoops, start, assertInLoopThread, assert_, bind, get. split; [|split; [|done]].
  - intros Hs. cbn. by rewrite Hs.
  - intros Hs. cbn. by rewrite Hs.
Qed.

(** With [n] loops, [getLoopForHash] gives for a hash code always the
    same one of them, and leaves the pool as it is; without threads the
    base loop serves every code. *)
Theorem hash_stable n cb baseLoop name h s : 0 <= n < 2 ^ 31 -> 0 <= h < 2 ^ 64 ->
  started_with n cb (make baseLoop name) s ->
  getLoopForHash true h s = Ok (if n =? 0 then baseLoop else startLoop (h mod n), s).
Proof.
  intros Hn Hh Hst. destruct (started_wf n cb _ s Hn Hst) as [Hwf Hl].
  destruct Hst as (Hs & E1 & Eb & _ & _ & E2 & _). cbn in Eb.
  unfold getLoopForHash, assertInLoopThread, bind, get, ret. destruct (Z.eqb_spec n 0) as [->|Hz].
  - rewrite E2. cbn. by rewrite Eb.
  - destruct (loops_ s) as [|l0 ls] eqn:El; [change (Zlen (@nil Z)) with 0 in Hl; lia|]. rewrite <- El in *.
    rewrite Hl. pose proof (Z.mod_pos_bound h n ltac:(lia)). unfold at_, lift.
    rewrite (proj2 (Z.leb_le _ _)) by lia. rewrite E2, list_lookup_fmap, lookup_seqZ_lt by lia. cbn. do 3 f_equal. lia.
Qed.
End pool.

Abbreviation sample_pool := (modify (setThreadNum 3) ;;; start (fun i => 100 + i) true true ;;; nextLoops 7).

Lemma round_robin_witness : exists s, sample_pool (make 7 "echo") = Ok ([100; 101; 102; 100; 101; 102; 100], s) /\
  threads_ s = ["echo0"; "echo1"; "echo2"]%string /\ loops_ s = [100; 101; 102].
Proof.
  destruct (wp_elim _ _ _ (round_robin (fun i => 100 + i) 7 "echo" 3 true 7 ltac:(lia))) as (r & s & E & -> & _ & Hl).
  assert (match sample_pool (make 7 "echo") with
          | Ok (_, s) => threads_ s = ["echo0"; "echo1"; "echo2"]%string | Err _ => False end) as G by (vm_compute; reflexivity).
  rewrite E in G. exists s. split; [exact E|]. split; [exact G|exact Hl].
Defined.

Definition sample_started : t :=
  mk 7 "echo" true 3 0 ["echo0"; "echo1"; "echo2"]%string [100; 101; 102] [].

Lemma hash_stable_witness :
  getLoopForHash true 11 sample_started = Ok (102, sample_started).
Proof.
  refine (hash_stable (fun i => 100 + i) 3 false 7 "echo" 11 sample_started _ _ _); [lia|lia|].
  unfold started_with. repeat (split; [vm_compute; reflexivity|]). vm_compute. reflexivity.
Defined.

(** [started_] as the hypothesis of [pool_misuse]'s two halves. *)
Lemma pool_misuse_witness :
  getNextLoop true (make 7 "echo") = Err AssertFailed /\ start (fun i => i) true true sample_started = Err AssertFailed.
Proof.
  split; [exact (proj1 (proj1 (pool_misuse (fun i => i) (make 7 "echo") true) eq_refl))|].
  exact (proj1 (proj2 (pool_misuse (fun i => i) sample_started true)) eq_refl).
Defined.
End EventLoopThreadPool.
