(* ===== verification/SocketsOps.v ===== *)
(** * Sockets and addresses (SocketsOps, Socket, InetAddress)

    The thin layer over the socket calls: which errors of [accept] are
    survived, the printing and parsing of addresses, the options.  The
    kernel is the class [Sockets]: each call answers its return value or an
    error number; what is known of it is stated where it is used. *)
From Stdlib Require Import Ascii.
From stdpp Require Import pretty.
From S2P Require Import Prelude Endian Text.
#[local] Open Scope Z_scope.

(** struct sockaddr_in, port and address in network order. *)
Record sockaddr_in : Type := mkAddr { sin_family : Z; sin_port : Z; s_addr : Z }.
#[export] Instance sockaddr_in_eq_dec : EqDecision sockaddr_in.
Proof. solve_decision. Defined.
Definition zero_addr : sockaddr_in := mkAddr 0 0 0.
Definition AF_INET : Z := 2.
Definition INADDR_ANY : Z := 0.
Definition INADDR_LOOPBACK : Z := 2130706433.      (* 0x7f000001 *)
Definition INET_ADDRSTRLEN : Z := 16.

Definition EPERM := 1.
Definition EINTR := 4.
Definition EBADF := 9.
Definition EAGAIN := 11.
Definition ENOMEM := 12.
Definition EFAULT := 14.
Definition EINVAL := 22.
Definition ENFILE := 23.
Definition EMFILE := 24.
Definition EPROTO := 71.
Definition ENOTSOCK := 88.
Definition EOPNOTSUPP := 95.
Definition ECONNABORTED := 103.
Definition ENOBUFS := 105.

(** The calls: [inl errno] for -1. *)
Class Sockets (K : Type) : Type := {
  sys_socket : K -> K * (Z + Z);
  sys_bind : K -> Z -> sockaddr_in -> K * (Z + unit);
  sys_listen : K -> Z -> Z -> K * (Z + unit);
  sys_accept4 : K -> Z -> K * (Z + Z * sockaddr_in);
  sys_connect : K -> Z -> sockaddr_in -> K * (Z + unit);
  sys_close : K -> Z -> K * (Z + unit);
  sys_shutdown : K -> Z -> K * (Z + unit);
  sys_open_null : K -> K * (Z + Z);
  sys_setsockopt : K -> Z -> Z * Z -> Z -> K * (Z + unit);
  sys_getsockopt_error : K -> Z -> Z + Z;
  sys_getsockname : K -> Z -> Z + sockaddr_in;
  sys_getpeername : K -> Z -> Z + sockaddr_in }.

(** ** sockets:: *)

Section sockets.
Context {K : Type} `{Sockets K}.

(** Call the kernel. *)
Definition call {A} (f : K -> K * A) : M K A := fun k => let '(k', a) := f k in Ok (a, k').

(** [LOG_SYSFATAL] when the call fails. *)
Definition or_die {A} (r : Z + A) : M K A :=
  match r with inl _ => throw Aborted | inr a => ret a end.

Definition createNonblockingOrDie : M K Z := let* r := call sys_socket in or_die r.
Definition bindOrDie (sockfd : Z) (addr : sockaddr_in) : M K unit :=
  let* r := call (fun k => sys_bind k sockfd addr) in or_die r.
Definition SOMAXCONN : Z := 4096.
Definition listenOrDie (sockfd : Z) : M K unit :=
  let* r := call (fun k => sys_listen k sockfd SOMAXCONN) in or_die r.

(** Errors of accept(2) that come and go. *)
Definition expected_error (e : Z) : bool :=
  (e =? EAGAIN) || (e =? ECONNABORTED) || (e =? EINTR) || (e =? EPROTO) || (e =? EPERM) || (e =? EMFILE).

(** The new descriptor and its peer, or the [errno] that is left. *)
Definition accept (sockfd : Z) : M K (Z + Z * sockaddr_in) :=
  let* r := call (fun k => sys_accept4 k sockfd) in
  match r with
  | inl savedErrno => if expected_error savedErrno then ret r else throw Aborted
  | inr _ => ret r
  end.

Definition connect (sockfd : Z) (addr : sockaddr_in) : M K (Z + unit) := call (fun k => sys_connect k sockfd addr).
Definition close (sockfd : Z) : M K unit := call (fun k => sys_close k sockfd) ;;; ret tt.
Definition shutdownWrite (sockfd : Z) : M K unit := call (fun k => sys_shutdown k sockfd) ;;; ret tt.

Definition getSocketError (k : K) (sockfd : Z) : Z :=
  match sys_getsockopt_error k sockfd with inl errno => errno | inr optval => optval end.
Definition getLocalAddr (k : K) (sockfd : Z) : sockaddr_in :=
  match sys_getsockname k sockfd with inl _ => zero_addr | inr a => a end.
Definition getPeerAddr (k : K) (sockfd : Z) : sockaddr_in :=
  match sys_getpeername k sockfd with inl _ => zero_addr | inr a => a end.
Definition isSelfConnect (k : K) (sockfd : Z) : bool :=
  let localaddr := getLocalAddr k sockfd in
  let peeraddr := getPeerAddr k sockfd in
  (sin_port localaddr =? sin_port peeraddr) && (s_addr localaddr =? s_addr peeraddr).
End sockets.

(** ** Addresses as text *)

(** inet_pton(3) for AF_INET: four decimal numbers of at most 255, without
    leading zeros. *)
Definition digit_of (c : Ascii.ascii) : option Z :=
  let n := Z.of_N (Ascii.N_of_ascii c) in
  if (48 <=? n) && (n <=? 57) then Some (n - 48) else None.
Fixpoint pton (s : string) (octets : list Z) (cur : option Z) : option (list Z) :=
  match s with
  | EmptyString =>
      match cur with
      | Some c => if Zlen octets =? 3 then Some (octets ++ [c]) else None
      | None => None
      end
  | String ch s =>
      match digit_of ch with
      | Some d =>
          match cur with
          | None => pton s octets (Some d)
          | Some c => if (c =? 0) || (255 <? c * 10 + d) then None else pton s octets (Some (c * 10 + d))
          end
      | None =>
          if decide (ch = "."%char) then
            match cur with
            | Some c => if Zlen octets =? 3 then None else pton s (octets ++ [c]) None
            | None => None
            end
          else None
      end
  end.
Definition dotted (bs : list Z) : string :=
  match bs with
  | [a; b; c; d] => dec a +:+ "." +:+ dec b +:+ "." +:+ dec c +:+ "." +:+ dec d
  | _ => ""
  end%string.

Lemma pton_octet (b : byte) os rest : Zlen os < 3 ->
  pton (dec (Z_of_byte b) +:+ String "." rest) os None = pton rest (os ++ [Z_of_byte b]) None.
Proof.
  intros Ho. destruct os as [|x [|y [|z os]]]; [destruct b; reflexivity..|].
  exfalso. rewrite !Zlen_cons in Ho. pose proof (Zlen_nonneg os). lia.
Qed.
Lemma pton_last (b : byte) x y z : pton (dec (Z_of_byte b)) [x; y; z] None = Some [x; y; z; Z_of_byte b].
Proof. destruct b; reflexivity. Qed.

Lemma pton_dotted (a b c d : byte) :
  pton (dotted (Z_of_byte <$> [a; b; c; d])) [] None = Some (Z_of_byte <$> [a; b; c; d]).
Proof.
  cbn [fmap list_fmap dotted].
  change ("." +:+ ?x)%string with (String "." x).
  rewrite pton_octet by reflexivity.
  change ("." +:+ ?x)%string with (String "." x).
  rewrite pton_octet by reflexivity.
  change ("." +:+ ?x)%string with (String "." x).
  rewrite pton_octet by reflexivity.
  exact (pton_last d _ _ _).
Qed.

Lemma dec_byte_length (b : byte) : 1 <= slen (dec (Z_of_byte b)) <= 3.
Proof. destruct b; vm_compute; split; congruence. Qed.

Lemma dotted_length (a b c d : byte) : 7 <= slen (dotted (Z_of_byte <$> [a; b; c; d])) <= 15.
Proof.
  cbn [fmap list_fmap dotted]. rewrite !slen_app. change (slen ".") with 1.
  pose proof (dec_byte_length a). pose proof (dec_byte_length b). pose proof (dec_byte_length c).
  pose proof (dec_byte_length d). lia.
Qed.

Section addresses.
Context {host : Host}.

(** inet_ntop(3): the four bytes in memory. *)
Definition ntop (s_addr : Z) : string := dotted (Z_of_byte <$> object_bytes 4 s_addr).

(** The C string left in [buf] of [size] bytes. *)
Definition toIp (size : Z) (addr : sockaddr_in) : result string :=
  if INET_ADDRSTRLEN <=? size then Ok (ntop (s_addr addr)) else Err AssertFailed.
Definition toIpPort (size : Z) (addr : sockaddr_in) : result string :=
  if INET_ADDRSTRLEN <=? size then
    let buf := ntop (s_addr addr) in
    let end_ := slen buf in
    let port := networkToHost16 (sin_port addr) in
    if end_ <? size then Ok (buf +:+ snprintf (size - end_) (":" +:+ dec port)) else Err AssertFailed
  else Err AssertFailed.

(** Fills in the family, the port and, when [ip] can be read, the address. *)
Definition fromIpPort (ip : string) (port : Z) (addr : sockaddr_in) : sockaddr_in :=
  mkAddr AF_INET (hostToNetwork16 port)
    (match pton (c_str ip) [] None with
     | Some bs => object_value (byte_of_Z <$> bs)
     | None => s_addr addr
     end).

(** ** InetAddress *)

Definition InetAddress_port (port : Z) (loopbackOnly : bool) : sockaddr_in :=
  mkAddr AF_INET (hostToNetwork16 port) (hostToNetwork32 (if loopbackOnly then INADDR_LOOPBACK else INADDR_ANY)).
Definition InetAddress_ip (ip : string) (port : Z) : sockaddr_in := fromIpPort ip port zero_addr.
Definition InetAddress_toIpPort (a : sockaddr_in) : result string := toIpPort 32 a.
Definition InetAddress_toIp (a : sockaddr_in) : result string := toIp 32 a.
Definition ipNetEndian (a : sockaddr_in) : Z := s_addr a.
Definition portNetEndian (a : sockaddr_in) : Z := sin_port a.

(** gethostbyname_r(3): its return value and the host's address family,
    address length and first address. *)
Definition resolve (gethostbyname_r : string -> Z * option (Z * Z * Z)) (hostname : string)
    (out : sockaddr_in) : result (bool * sockaddr_in) :=
  match gethostbyname_r (c_str hostname) with
  | (0, Some (h_addrtype, h_length, h_addr)) =>
      if (h_addrtype =? AF_INET) && (h_length =? 4)
      then Ok (true, mkAddr (sin_family out) (sin_port out) h_addr) else Err AssertFailed
  | _ => Ok (false, out)
  end.

Definition valid_addr (a : sockaddr_in) : Prop :=
  sin_family a = AF_INET /\ 0 <= sin_port a < 2 ^ 16 /\ 0 <= s_addr a < 2 ^ 32.

Lemma ntop_length z : 7 <= slen (ntop z) <= 15.
Proof.
  unfold ntop. pose proof (length_object_bytes 4 z) as Hl.
  destruct (object_bytes 4 z) as [|a [|b [|c [|d [|]]]]]; try discriminate Hl. apply dotted_length.
Qed.

Lemma pton_ntop z : 0 <= z < 2 ^ 32 ->
  exists bs, pton (ntop z) [] None = Some bs /\ object_value (byte_of_Z <$> bs) = z.
Proof.
  intros Hz. exists (Z_of_byte <$> object_bytes 4 z). pose proof (length_object_bytes 4 z) as Hl. unfold ntop. split.
  - destruct (object_bytes 4 z) as [|a [|b [|c [|d [|]]]]]; try discriminate Hl. apply pton_dotted.
  - rewrite <- list_fmap_compose.
    assert (byte_of_Z ∘ Z_of_byte <$> object_bytes 4 z = object_bytes 4 z) as ->.
    { rewrite <- (list_fmap_id (object_bytes 4 z)) at 2. apply list_fmap_ext. intros i b _. apply byte_of_Z_of_byte. }
    unfold object_value, object_bytes. destruct host_order; [|rewrite reverse_involutive];
      rewrite le_combine_split; apply Z.mod_small; done.
Qed.

Lemma c_str_app s t : no_nul s -> c_str (s +:+ t) = s +:+ c_str t.
Proof.
  unfold no_nul. induction s as [|c s IH]; intros Hs; [done|]. cbn in *. case_decide; [done|].
  injection Hs as Hs. change (String c s +:+ ?x) with (String c (s +:+ x)). cbn [c_str].
  rewrite decide_False by done. f_equal. by apply IH.
Qed.

Lemma no_nul_app s t : no_nul s -> no_nul t -> no_nul (s +:+ t).
Proof. intros Hs Ht. unfold no_nul. by rewrite c_str_app, Ht. Qed.

Lemma no_nul_byte (b : byte) : no_nul (dec (Z_of_byte b)).
Proof. destruct b; reflexivity. Qed.

Lemma no_nul_ntop z : no_nul (ntop z).
Proof.
  unfold ntop. pose proof (length_object_bytes 4 z) as Hl.
  destruct (object_bytes 4 z) as [|a [|b [|c [|d [|]]]]]; try discriminate Hl. cbn [fmap list_fmap dotted].
  repeat apply no_nul_app; try apply no_nul_byte; reflexivity.
Qed.

(** Every address prints into the 32 bytes [InetAddress] gives it, with
    no assertion failed and nothing cut off, as at most 21 characters: the
    four bytes in network order, a colon and the port in host order. *)
Theorem toIpPort_total a : valid_addr a ->
  InetAddress_toIpPort a = Ok (ntop (s_addr a) +:+ ":" +:+ dec (networkToHost16 (sin_port a))) /\
  slen (ntop (s_addr a) +:+ ":" +:+ dec (networkToHost16 (sin_port a))) <= 21.
Proof.
  intros (_ & Hp & Ha). pose proof (ntop_length (s_addr a)) as Hl.
  assert (slen (dec (networkToHost16 (sin_port a))) <= 5) as Hd.
  { apply dec_u16_length. apply (htobe_range 2). exact Hp. }
  unfold InetAddress_toIpPort, toIpPort. cbn [Z.leb Z.compare INET_ADDRSTRLEN Pos.compare Pos.compare_cont].
  rewrite (proj2 (Z.ltb_lt _ _)) by lia. rewrite !slen_app. change (slen ":") with 1. split; [|lia].
  do 2 f_equal. apply snprintf_fits. rewrite slen_app. change (slen ":") with 1. lia.
Qed.

(** C35: Reading back the address and the port that were printed gives the
    same endpoint. *)
Theorem address_roundtrip a : valid_addr a ->
  exists ip, InetAddress_toIp a = Ok ip /\ InetAddress_ip ip (networkToHost16 (sin_port a)) = a.
Proof.
  intros (Hf & Hp & Ha). exists (ntop (s_addr a)). split; [done|].
  unfold InetAddress_ip, fromIpPort. rewrite (no_nul_ntop (s_addr a)).
  destruct (pton_ntop (s_addr a) Ha) as (bs & -> & ->).
  destruct a as [f p z]; cbn in *. subst f. f_equal. apply (htobe_involutive 2). exact Hp.
Qed.
End addresses.

Lemma toIpPort_total_witness :
  let a := @InetAddress_port LittleEndian 8080 true in
  valid_addr a /\ @InetAddress_toIpPort LittleEndian a = Ok "127.0.0.1:8080"%string.
Proof.
  assert (valid_addr (@InetAddress_port LittleEndian 8080 true)) as Hv by (vm_compute; repeat split; congruence).
  split; [exact Hv|]. etransitivity; [exact (proj1 (toIpPort_total _ Hv))|]. vm_compute. reflexivity.
Defined.

Lemma address_roundtrip_witness : exists ip,
  @InetAddress_toIp LittleEndian (mkAddr 2 36895 16777343) = Ok ip /\
  @InetAddress_ip LittleEndian ip 8080 = mkAddr 2 36895 16777343.
Proof.
  refine (address_roundtrip (mkAddr 2 36895 16777343) _). vm_compute; repeat split; congruence.
Defined.

(** ** Socket *)

Section Socket.
Context {K : Type} `{Sockets K}.

(** A [Socket] is its descriptor.  The move constructor takes the number and
    leaves it with the other object. *)
Definition Socket_new (sockfd : Z) : Z := sockfd.
Definition Socket_fd (sockfd_ : Z) : Z := sockfd_.
Definition Socket_move (s : Z) : Z := Socket_new (Socket_fd s).
Definition Socket_destructor (sockfd_ : Z) : M K unit := close sockfd_.
Definition Socket_bindAddress (sockfd_ : Z) (addr : sockaddr_in) : M K unit := bindOrDie sockfd_ addr.
Definition Socket_listen (sockfd_ : Z) : M K unit := listenOrDie sockfd_.
(** The descriptor or -1, and what [*peeraddr] then is; [errno]. *)
Definition Socket_accept (sockfd_ : Z) (peeraddr : sockaddr_in) : M K (Z * sockaddr_in * Z) :=
  let* r := accept sockfd_ in
  match r with
  | inr (connfd, addr) => ret (connfd, addr, 0)
  | inl errno => ret (-1, peeraddr, errno)
  end.
Definition Socket_shutdownWrite (sockfd_ : Z) : M K unit := shutdownWrite sockfd_.

Definition IPPROTO_TCP := 6.
Definition SOL_SOCKET := 1.
Definition TCP_NODELAY := 1.
Definition SO_REUSEADDR := 2.
Definition SO_KEEPALIVE := 9.
Definition SO_REUSEPORT := 15.
Definition set_option (sockfd_ : Z) (option : Z * Z) (on : bool) : M K unit :=
  call (fun k => sys_setsockopt k sockfd_ option (if on then 1 else 0)) ;;; ret tt.
Definition setTcpNoDelay (sockfd_ : Z) : bool -> M K unit := set_option sockfd_ (IPPROTO_TCP, TCP_NODELAY).
Definition setReuseAddr (sockfd_ : Z) : bool -> M K unit := set_option sockfd_ (SOL_SOCKET, SO_REUSEADDR).
Definition setReusePort (sockfd_ : Z) : bool -> M K unit := set_option sockfd_ (SOL_SOCKET, SO_REUSEPORT).
Definition setKeepAlive (sockfd_ : Z) : bool -> M K unit := set_option sockfd_ (SOL_SOCKET, SO_KEEPALIVE).

(** [Socket::accept] gives a descriptor with its peer; or, for the six
    errors that come and go, -1 with that [errno] and the caller's address
    untouched; every other error is fatal. *)
Theorem accept_result sockfd peer k :
  Socket_accept sockfd peer k =
    match sys_accept4 k sockfd with
    | (k', inr (connfd, addr)) => Ok ((connfd, addr, 0), k')
    | (k', inl errno) =>
        if bool_decide (errno ∈ [EAGAIN; ECONNABORTED; EINTR; EPROTO; EPERM; EMFILE])
        then Ok ((-1, peer, errno), k') else Err Aborted
    end.
Proof.
  unfold Socket_accept, accept, bind, call. destruct (sys_accept4 k sockfd) as [k' [e|[fd a]]]; [|done].
  assert (expected_error e = bool_decide (e ∈ [EAGAIN; ECONNABORTED; EINTR; EPROTO; EPERM; EMFILE])) as ->.
  { apply eq_bool_prop_intro. rewrite bool_decide_spec. unfold expected_error. rewrite Is_true_true.
    rewrite !orb_true_iff, !Z.eqb_eq. set_solver. }
  by case_bool_decide.
Qed.
End Socket.

(** ** The VALGRIND build

    It uses accept(2), and sets the flags of the descriptor before it looks
    whether there is one. *)
Section valgrind.
Context {K : Type}.
Context (sys_accept : K -> Z -> K * (Z + Z * sockaddr_in)) (sys_fcntl : K -> Z -> Z -> Z -> K * (Z + Z)).

Definition F_GETFD := 1.
Definition F_SETFD := 2.
Definition F_GETFL := 3.
Definition F_SETFL := 4.
Definition O_NONBLOCK := 2048.
Definition FD_CLOEXEC := 1.

(** fcntl(2): its value, and [errno] after it. *)
Definition fcntl (fd cmd arg errno : Z) : M K (Z * Z) :=
  let* r := call (fun k => sys_fcntl k fd cmd arg) in
  ret match r with inl e => (-1, e) | inr v => (v, errno) end.

(** [errno] before and after. *)
Definition setNonBlockAndCloseOnExec (sockfd errno : Z) : M K Z :=
  let* r := fcntl sockfd F_GETFL 0 errno in
  let flags := Z.lor (fst r) O_NONBLOCK in
  let* r := fcntl sockfd F_SETFL flags (snd r) in
  let* r := fcntl sockfd F_GETFD 0 (snd r) in
  let flags := Z.lor (fst r) FD_CLOEXEC in
  let* r := fcntl sockfd F_SETFD flags (snd r) in
  ret (snd r).

Definition accept_VALGRIND (sockfd : Z) : M K (Z + Z * sockaddr_in) :=
  let* r := call (fun k => sys_accept k sockfd) in
  let '(connfd, errno) := match r with inl e => (-1, e) | inr (fd, _) => (fd, 0) end in
  let* errno := setNonBlockAndCloseOnExec connfd errno in
  match r with
  | inl _ => if expected_error errno then ret (inl errno) else throw Aborted
  | inr _ => ret r
  end.

(** fcntl(2) on the descriptor -1. *)
Hypothesis fcntl_bad : forall k cmd arg, snd (sys_fcntl k (-1) cmd arg) = inl EBADF.

Lemma fcntl_minus_one cmd arg errno k : exists k', fcntl (-1) cmd arg errno k = Ok ((-1, EBADF), k').
Proof.
  unfold fcntl, bind, call. pose proof (fcntl_bad k cmd arg) as Hb. destruct (sys_fcntl k (-1) cmd arg) as [k' r]. cbn in Hb.
  subst r. by exists k'.
Qed.

(** In that build every error of accept(2) is fatal, the transient ones too
    (compare [accept_result]): the flags are set on the descriptor -1, and
    the EBADF of that hides the error. *)
Theorem accept_VALGRIND_fatal sockfd k e : snd (sys_accept k sockfd) = inl e -> accept_VALGRIND sockfd k = Err Aborted.
Proof.
  intros He. unfold accept_VALGRIND, bind, call. destruct (sys_accept k sockfd) as [k0 r]. cbn in He. subst r.
  unfold setNonBlockAndCloseOnExec, bind. destruct (fcntl_minus_one F_GETFL 0 e k0) as [k1 ->]. cbn [fst snd].
  destruct (fcntl_minus_one F_SETFL (Z.lor (-1) O_NONBLOCK) EBADF k1) as [k2 ->]. cbn [fst snd].
  destruct (fcntl_minus_one F_GETFD 0 EBADF k2) as [k3 ->]. cbn [fst snd].
  destruct (fcntl_minus_one F_SETFD (Z.lor (-1) FD_CLOEXEC) EBADF k3) as [k4 ->]. done.
Qed.
End valgrind.

Lemma accept_VALGRIND_fatal_witness :
  accept_VALGRIND (K := unit) (fun k _ => (k, inl EAGAIN)) (fun k fd _ _ => (k, if fd <? 0 then inl EBADF else inr 0)) 5 tt = Err Aborted /\
  expected_error EAGAIN = true.
Proof.
  split; [|reflexivity]. apply (accept_VALGRIND_fatal (K := unit)) with (e := EAGAIN); reflexivity.
Defined.

(** The values of [struct tcp_info] that are printed, in their order. *)
Definition tcp_info_labels : list string :=
  ["unrecovered="; " rto="; " ato="; " snd_mss="; " rcv_mss="; " lost="; " retrans="; " rtt="; " rttvar=";
   " sshthresh="; " cwnd="; " total_retrans="]%string.
Definition tcp_info_text (values : list Z) : string :=
  foldr (fun (x : string * Z) s => fst x +:+ dec (snd x) +:+ s) ""%string (zip tcp_info_labels values).
(** [getTcpInfoString]: what [getTcpInfo] found, cut to [len] bytes. *)
Definition getTcpInfoString (info : option (list Z)) (len : Z) : option string :=
  match info with
  | Some values => Some (snprintf len (tcp_info_text values))
  | None => None
  end.

Lemma dec_u32_length z : 0 <= z < 2 ^ 32 -> slen (dec z) <= 10.
Proof.
  intros Hz. unfold dec, pretty, pretty_Z. destruct z as [|p|p]; [done| |lia].
  pose proof (dec_pos_length 10 p ltac:(lia)) as Hl. change (10 ^ Z.of_nat 10) with 10000000000 in Hl. lia.
Qed.

Lemma tcp_info_length labels values : Forall (fun z => 0 <= z < 2 ^ 32) values ->
  Forall (fun l => slen l <= 15) labels ->
  slen (foldr (fun (x : string * Z) s => fst x +:+ dec (snd x) +:+ s) ""%string (zip labels values)) <= 25 * Zlen labels.
Proof.
  intros Hv. revert labels. induction Hv as [|z values Hz Hv IH]; intros labels Hl; pose proof (Zlen_nonneg labels).
  { destruct labels; cbn [zip zip_with foldr]; change (slen "") with 0; lia. }
  destruct labels as [|l labels]; cbn [zip zip_with foldr]; [change (slen "") with 0; lia|].
  apply list.Forall_cons in Hl as [Hl Hls]. rewrite !slen_app, Zlen_cons. cbn [fst snd].
  pose proof (dec_u32_length z Hz). specialize (IH labels Hls). lia.
Qed.

(** The 1024 bytes that [TcpConnection::getTcpInfoString] provides hold
    the whole text, whatever the kernel's counters are. *)
Theorem tcp_info_fits values : Forall (fun z => 0 <= z < 2 ^ 32) values ->
  getTcpInfoString (Some values) 1024 = Some (tcp_info_text values).
Proof.
  intros Hv. unfold getTcpInfoString. f_equal. apply snprintf_fits.
  pose proof (tcp_info_length tcp_info_labels values Hv) as Hl. fold (tcp_info_text values) in Hl.
  change (25 * Zlen tcp_info_labels) with 300 in Hl. enough (slen (tcp_info_text values) <= 300) by lia.
  apply Hl. repeat (constructor; [vm_compute; congruence|]). constructor.
Qed.

Lemma tcp_info_fits_witness :
  getTcpInfoString (Some (replicate 12 (2 ^ 32 - 1))) 1024 = Some (tcp_info_text (replicate 12 (2 ^ 32 - 1))).
Proof. apply tcp_info_fits. apply list.Forall_replicate. split; [lia|lia]. Defined.
