(* ===== verification/Acceptor.v ===== *)
(** * Accepting connections (Acceptor.h, Acceptor.c++)

    The listening socket, its channel in the loop's poller, and the spare
    descriptor that lets a process at its limit refuse a connection instead
    of spinning on it.  The descriptor table is the kernel's: [FdLaws] states
    what close(2), accept(2) and open(2) do to it.  Log output is taken to
    leave [errno] alone. *)
From S2P Require Import Prelude Channel EPollPoller PollPoller Pollers.
From S2P Require Import Endian Text SocketsOps.
#[local] Open Scope Z_scope.

(** The open descriptors, the connections waiting to be accepted, and
    whether the process may open another descriptor. *)
Class FdLaws (K : Type) `{Sockets K} : Type := {
  fds : K -> gset Z;
  waiting : K -> list sockaddr_in;
  room : K -> bool;
  accept_ok : forall k l k' fd a, sys_accept4 k l = (k', inr (fd, a)) ->
    0 <= fd /\ fd ∉ fds k /\ fds k' = {[fd]} ∪ fds k /\ waiting k = a :: waiting k';
  accept_err : forall k l k' e, sys_accept4 k l = (k', inl e) -> fds k' = fds k /\ room k' = room k;
  close_ok : forall k fd, fd ∈ fds k -> let k' := fst (sys_close k fd) in
    fds k' = fds k ∖ {[fd]} /\ waiting k' = waiting k /\ room k' = true;
  close_bad : forall k fd, fd ∉ fds k -> let k' := fst (sys_close k fd) in
    fds k' = fds k /\ waiting k' = waiting k /\ room k' = room k;
  open_ok : forall k k' fd, sys_open_null k = (k', inr fd) ->
    0 <= fd /\ fd ∉ fds k /\ fds k' = {[fd]} ∪ fds k /\ waiting k' = waiting k;
  open_err : forall k k' e, sys_open_null k = (k', inl e) -> fds k' = fds k /\ waiting k' = waiting k;
  open_room : forall k, room k = true -> exists k' fd, sys_open_null k = (k', inr fd);
  fds_nonneg : forall k fd, fd ∈ fds k -> 0 <= fd }.

Lemma closed_again (fd : Z) (X : gset Z) : fd ∉ X -> ({[fd]} ∪ X) ∖ {[fd]} = X.
Proof. set_solver. Qed.

Module Acceptor.

Record t (P K : Type) : Type := mk {
  world : World P;
  kernel : K;
  acceptSocket_ : Z;
  acceptChannel_ : Z;
  newConnectionCallback_ : bool;       (* set or not *)
  listenning_ : bool;
  idleFd_ : Z }.
Arguments mk {P K}.
Arguments world {P K}.
Arguments kernel {P K}.
Arguments acceptSocket_ {P K}.
Arguments acceptChannel_ {P K}.
Arguments newConnectionCallback_ {P K}.
Arguments listenning_ {P K}.
Arguments idleFd_ {P K}.

Section acceptor.
Context {P K : Type} `{Poller P} `{Sockets K}.
Notation A := (t P K).

Definition set_world w (s : A) : A := mk w (kernel s) (acceptSocket_ s) (acceptChannel_ s) (newConnectionCallback_ s) (listenning_ s) (idleFd_ s).
Definition set_kernel k (s : A) : A := mk (world s) k (acceptSocket_ s) (acceptChannel_ s) (newConnectionCallback_ s) (listenning_ s) (idleFd_ s).
Definition setNewConnectionCallback b (s : A) : A := mk (world s) (kernel s) (acceptSocket_ s) (acceptChannel_ s) b (listenning_ s) (idleFd_ s).
Definition set_listenning b (s : A) : A := mk (world s) (kernel s) (acceptSocket_ s) (acceptChannel_ s) (newConnectionCallback_ s) b (idleFd_ s).
Definition set_idle fd (s : A) : A := mk (world s) (kernel s) (acceptSocket_ s) (acceptChannel_ s) (newConnectionCallback_ s) (listenning_ s) fd.
Definition in_world {X} (m : M (World P) X) : M A X := zoom world set_world m.
Definition in_kernel {X} (m : M K X) : M A X := zoom kernel set_kernel m.

(** The read callback of the channel is [handleRead]: number 0. *)
Definition make (loop channel : Z) (listenAddr : sockaddr_in) (reuseport : bool) (w : World P) (k : K) : result A :=
  match (let* fd := createNonblockingOrDie in
         let* idle := call sys_open_null in
         match idle with
         | inl _ => throw AssertFailed
         | inr idle =>
             setReuseAddr fd true ;;;
             setReusePort fd reuseport ;;;
             Socket_bindAddress fd listenAddr ;;;
             ret (fd, idle)
         end) k with
  | Err e => Err e
  | Ok ((fd, idle), k) =>
      Ok (mk (set_chans (<[channel := setReadCallback (Some 0) (Channel_new loop fd)]> (chans w)) w)
            k fd channel false false idle)
  end.

Definition destructor : M A unit :=
  let* s := get in
  in_world (disableAll (acceptChannel_ s)) ;;;
  in_world (remove (acceptChannel_ s)) ;;;
  in_kernel (call (fun k => sys_close k (idleFd_ s))) ;;;
  in_kernel (Socket_destructor (acceptSocket_ s)).

Definition listen (inLoopThread : bool) : M A unit :=
  (if inLoopThread then ret tt else throw Aborted) ;;;
  modify (set_listenning true) ;;;
  let* s := get in
  in_kernel (Socket_listen (acceptSocket_ s)) ;;;
  in_world (enableReading (acceptChannel_ s)).

Definition refuse_one : M A unit :=
  let* s := get in
  in_kernel (call (fun k => sys_close k (idleFd_ s))) ;;;
  let* r := in_kernel (call (fun k => sys_accept4 k (acceptSocket_ s))) in
  let fd := match r with inr (fd, _) => fd | inl _ => -1 end in
  modify (set_idle fd) ;;;
  in_kernel (call (fun k => sys_close k fd)) ;;;
  let* r := in_kernel (call sys_open_null) in
  modify (set_idle (match r with inr fd => fd | inl _ => -1 end)).

(** The callback may work on more than the acceptor, which is a part of its
    state. *)
Context {S : Type} (acceptor_ : S -> A) (set_acceptor : A -> S -> S).
Definition in_acceptor {X} (m : M A X) : M S X := zoom acceptor_ set_acceptor m.

(** What [newConnectionCallback_] does with a connection. *)
Context (newConnection : Z -> sockaddr_in -> M S unit).

Definition handleRead (inLoopThread : bool) : M S unit :=
  (if inLoopThread then ret tt else throw Aborted) ;;;
  let* s := gets acceptor_ in
  let* r := in_acceptor (in_kernel (Socket_accept (acceptSocket_ s) (InetAddress_port (host := LittleEndian) 0 false))) in
  let '(connfd, peerAddr, errno) := r in
  if 0 <=? connfd then
    if newConnectionCallback_ s then newConnection connfd peerAddr
    else in_acceptor (in_kernel (close connfd))
  else when (errno =? EMFILE) (in_acceptor refuse_one).
End acceptor.

(** ** Descriptors *)

Section descriptors.
Context {P K : Type} `{Poller P} `{FdLaws K}.
Notation A := (t P K).

(** The acceptor owns its two descriptors. *)
Definition owns (s : A) : Prop :=
  idleFd_ s ∈ fds (kernel s) /\ acceptSocket_ s ∈ fds (kernel s) /\ idleFd_ s <> acceptSocket_ s.

Lemma wp_kernel {X} E (f : K -> K * X) (Q : X -> A -> Prop) s :
  (forall k x, f (kernel s) = (k, x) -> Q x (set_kernel k s)) -> wpe E (in_kernel (call f)) Q s.
Proof. unfold in_kernel, call, wpe, zoom. intros HQ. destruct (f (kernel s)) as [k x]. by apply HQ. Qed.

(** After the spare descriptor has been used: it is held again, and the
    table is as before but for its number. *)
Definition refused (s s' : A) : Prop :=
  idleFd_ s' ∈ fds (kernel s') /\ 0 <= idleFd_ s' /\
  fds (kernel s') = {[idleFd_ s']} ∪ fds (kernel s) ∖ {[idleFd_ s]} /\
  idleFd_ s' ∉ fds (kernel s) ∖ {[idleFd_ s]} /\
  acceptSocket_ s' = acceptSocket_ s /\ acceptChannel_ s' = acceptChannel_ s /\ world s' = world s /\
  newConnectionCallback_ s' = newConnectionCallback_ s.

Lemma wp_refuse_one s : owns s ->
  wp refuse_one (fun _ s' => refused s s' /\
    forall k a, sys_accept4 (fst (sys_close (kernel s) (idleFd_ s))) (acceptSocket_ s) = (k, inr a) ->
      waiting (kernel s) = snd a :: waiting (kernel s')) s.
Proof.
  intros (Hidle & Hsock & Hne). unfold refuse_one. wp_steps. apply wp_kernel. intros k1 x1 E1.
  pose proof (close_ok (kernel s) (idleFd_ s) Hidle) as Hk1. rewrite E1 in Hk1 |- *. cbn in Hk1 |- *.
  destruct Hk1 as (F1 & W1 & R1). wp_steps.
  apply wp_kernel. intros k2 r E2. cbn in E2. wp_steps. apply wp_kernel. intros k3 x3 E3. cbn in E3.
  assert (fds k3 = fds k1 /\ room k3 = true /\
    (forall a, r = inr a -> waiting k1 = snd a :: waiting k3)) as (F3 & R3 & W3).
  { destruct r as [e|[fd a]].
    - destruct (accept_err _ _ _ _ E2) as [F2 R2]. pose proof (close_bad k2 (-1)) as Hk3. rewrite E3 in Hk3. cbn in Hk3.
      destruct Hk3 as (-> & _ & ->); [intros Hin; apply fds_nonneg in Hin; lia|]. split; [done|]. split; [congruence|done].
    - destruct (accept_ok _ _ _ _ _ E2) as (_ & Hfd & F2 & W2). pose proof (close_ok k2 fd) as Hk3. rewrite E3 in Hk3.
      cbn in Hk3. destruct Hk3 as (-> & W3 & ->); [set_solver|]. rewrite F2, closed_again by done. split; [done|]. split; [done|].
      intros a' [= <-]. cbn. congruence. }
  wp_steps. apply wp_kernel. intros k4 r4 E4. cbn in E4. destruct (open_room k3 R3) as (k4' & fd & E4').
  rewrite E4 in E4'. injection E4' as -> ->. destruct (open_ok _ _ _ E4) as (Hpos & Hfd & F4 & W4). wp_steps.
  unfold refused; cbn. rewrite F4, F3, F1. split.
  - split; [set_solver|]. split; [done|]. split; [done|]. split; [by rewrite <- F1, <- F3|done].
  - intros k a E. rewrite E2 in E. injection E as -> ->. rewrite <- W1, (W3 _ eq_refl). by rewrite W4.
Qed.

(** The same after an accept that found no room. *)
Lemma refused_again s k : owns s -> fds k = fds (kernel s) ->
  wp refuse_one (fun _ b => owns b /\ refused s b /\
    forall k' a, sys_accept4 (fst (sys_close k (idleFd_ s))) (acceptSocket_ s) = (k', inr a) ->
      waiting k = snd a :: waiting (kernel b)) (set_kernel k s).
Proof.
  intros (O1 & O2 & O3) F.
  assert (owns (set_kernel k s)) as Ho' by (unfold owns; cbn; by rewrite F).
  eapply wpe_mono; [by apply wp_refuse_one|]. cbn beta. intros _ b [Hr Hw]. unfold refused in *; cbn in *. rewrite F in Hr.
  destruct Hr as (R1 & R2 & R3 & R4 & R5 & R6). split; [|split; [done|exact Hw]]. unfold owns. rewrite R5, R3.
  assert (acceptSocket_ s ∈ fds (kernel s) ∖ {[idleFd_ s]}) as Hin.
  { apply elem_of_difference. split; [done|]. rewrite elem_of_singleton. congruence. }
  split; [by apply elem_of_union_l, elem_of_singleton_2|]. split; [by apply elem_of_union_r|].
  intros E'. by rewrite E' in R4.
Qed.

Context {S : Type} (acceptor_ : S -> A) (set_acceptor : A -> S -> S).
Hypothesis acceptor_set : forall a s, acceptor_ (set_acceptor a s) = a.
Hypothesis set_set : forall a b s, set_acceptor a (set_acceptor b s) = set_acceptor a s.
Context (newConnection : Z -> sockaddr_in -> M S unit).
Notation handleRead := (handleRead acceptor_ set_acceptor newConnection true).
Notation with_kernel k s := (set_acceptor (set_kernel k (acceptor_ s)) s).

Lemma handleRead_accept (s : S) :
  handleRead s =
    match sys_accept4 (kernel (acceptor_ s)) (acceptSocket_ (acceptor_ s)) with
    | (k, inr (fd, a)) =>
        if 0 <=? fd then
          if newConnectionCallback_ (acceptor_ s) then newConnection fd a (with_kernel k s)
          else in_acceptor acceptor_ set_acceptor (in_kernel (close fd)) (with_kernel k s)
        else when (0 =? EMFILE) (in_acceptor acceptor_ set_acceptor refuse_one) (with_kernel k s)
    | (k, inl e) =>
        if expected_error e then when (e =? EMFILE) (in_acceptor acceptor_ set_acceptor refuse_one) (with_kernel k s)
        else Err Aborted
    end.
Proof.
  unfold Acceptor.handleRead, in_acceptor at 1, in_kernel at 1, Socket_accept, accept, bind, call, zoom, get, gets, ret, throw. cbn.
  destruct (sys_accept4 (kernel (acceptor_ s)) (acceptSocket_ (acceptor_ s))) as [k [e|[fd a]]];
    [|cbn; destruct (0 <=? fd); [by destruct (newConnectionCallback_ (acceptor_ s))|done]].
  by destruct (expected_error e).
Qed.

(** C29: A readable listening socket: an accepted connection is handed to the
    callback, or closed again when there is none; an error that comes and
    goes changes no descriptor; at the process's descriptor limit the spare
    descriptor is given up, the waiting connection taken off the queue and
    closed, and the spare taken back, with every other descriptor left as
    it was; any other error is fatal. *)
Theorem handleRead_outcome (s : S) : owns (acceptor_ s) ->
  match sys_accept4 (kernel (acceptor_ s)) (acceptSocket_ (acceptor_ s)) with
  | (k, inr (fd, a)) =>
      if newConnectionCallback_ (acceptor_ s) then handleRead s = newConnection fd a (with_kernel k s)
      else exists k', handleRead s = Ok (tt, with_kernel k' s) /\ fds k' = fds (kernel (acceptor_ s))
  | (k, inl e) =>
      if decide (e = EMFILE) then
        exists b, handleRead s = Ok (tt, set_acceptor b s) /\ owns b /\ refused (acceptor_ s) b /\
          forall k' a, sys_accept4 (fst (sys_close k (idleFd_ (acceptor_ s)))) (acceptSocket_ (acceptor_ s)) = (k', inr a) ->
            waiting k = snd a :: waiting (kernel b)
      else if expected_error e then
        handleRead s = Ok (tt, with_kernel k s) /\ fds k = fds (kernel (acceptor_ s))
      else handleRead s = Err Aborted
  end.
Proof.
  intros Ho. pose proof (handleRead_accept s) as Hh.
  destruct (sys_accept4 (kernel (acceptor_ s)) (acceptSocket_ (acceptor_ s))) as [k [e|[fd a]]] eqn:E.
  - destruct (accept_err _ _ _ _ E) as [F R]. destruct (decide (e = EMFILE)) as [->|Hne].
    + change (expected_error EMFILE) with true in Hh. change (EMFILE =? EMFILE) with true in Hh. cbn [when] in Hh.
      destruct (wp_elim _ _ _ (refused_again (acceptor_ s) k Ho F)) as ([] & b & Eb & Hb). exists b. split; [|exact Hb].
      rewrite Hh. unfold in_acceptor, zoom. by rewrite acceptor_set, Eb, set_set.
    + rewrite (proj2 (Z.eqb_neq _ _)) in Hh by done. cbn [when] in Hh. by destruct (expected_error e).
  - destruct (accept_ok _ _ _ _ _ E) as (Hpos & Hfd & F & _). rewrite (proj2 (Z.leb_le _ _)) in Hh by done.
    destruct (newConnectionCallback_ (acceptor_ s)); [done|]. rewrite Hh.
    pose proof (close_ok k fd ltac:(set_solver)) as Hc. unfold in_acceptor, in_kernel, close, bind, call, zoom, ret; cbn.
    rewrite acceptor_set. cbn. destruct (sys_close k fd) as [k' x]. cbn in Hc. destruct Hc as (F' & _). exists k'.
    split; [by rewrite set_set|]. by rewrite F', F, closed_again.
Qed.
End descriptors.

Section moved.
Context {K : Type} `{FdLaws K}.
(** The move constructor of [Socket] leaves the descriptor with the object
    moved from: when the kernel gives the number out again between the two
    destructors, the second one closes somebody else's descriptor. *)
Lemma moved_Socket_closes_twice (k k2 : K) fd l a : fd ∈ fds k ->
  sys_accept4 (fst (sys_close k fd)) l = (k2, inr (fd, a)) ->
  exists k1 k3, Socket_destructor (Socket_move fd) k = Ok (tt, k1) /\ sys_accept4 k1 l = (k2, inr (fd, a)) /\
    fd ∈ fds k2 /\ Socket_destructor fd k2 = Ok (tt, k3) /\ fds k3 = fds k2 ∖ {[fd]}.
Proof.
  intros Hfd Ha. exists (fst (sys_close k fd)), (fst (sys_close k2 fd)).
  destruct (accept_ok _ _ _ _ _ Ha) as (_ & _ & Ho & _). assert (fd ∈ fds k2) as Hin by (rewrite Ho; set_solver).
  destruct (close_ok k2 fd Hin) as (Hc & _). unfold Socket_destructor, Socket_move, Socket_new, Socket_fd, close, bind, call, ret.
  destruct (sys_close k fd), (sys_close k2 fd). done.
Qed.
End moved.

(** ** The channel *)

Section channel.
Context {P K : Type} `{PollerSpec P} `{Sockets K}.
Notation A := (t P K).

(** [listen] makes the poller watch the listening descriptor for
    readability under the acceptor's channel; only a refused listen(2) or
    [epoll_ctl] can stop it. *)
Theorem listen_watches a (s : A) fd : Registry.refines a (world s) ->
  a !! acceptChannel_ s = Some (Registry.AChan fd 0 Registry.Fresh) ->
  channels_ (poller (world s)) !! fd = None ->
  wpe (eq Aborted) (listen true) (fun _ s' => listenning_ s' = true /\
    interest (poller (world s')) !! fd = Some (acceptChannel_ s, kReadEvent)) s.
Proof.
  intros R Ha Hfree. unfold listen, in_kernel, Socket_listen, listenOrDie, call. wp_steps. apply wpe_zoom. wp_steps.
  unfold wpe at 1. cbn. destruct (sys_listen (kernel s) (acceptSocket_ s) SOMAXCONN) as [k [e|[]]]; [done|].
  unfold in_world. cbn. apply wpe_zoom. cbn.
  eapply wpe_mono; [eapply (Registry.refines_step a _ (Registry.EnableReading (acceptChannel_ s)) (world s) R)|].
  - cbn. unfold Registry.ask. rewrite Ha, bool_decide_true; [reflexivity|].
    intros c x Hx [E1 E2]. destruct (Registry.refines_lookup _ _ _ _ R Hx) as (ch & _ & _ & _ & _ & _ & B & _).
    rewrite E1 in B. apply B in E2. rewrite Hfree in E2. discriminate E2.
  - cbn. intros _ w' [R' _]. split; [done|]. apply (Registry.r_interest _ _ R'); [done|].
    eexists. rewrite lookup_insert_eq. split; [done|]. split; [|done]. split; done.
Qed.
End channel.

(** ** A concrete descriptor table *)

Record sk : Type := mkSk { sk_fds : gset nat; sk_waiting : list sockaddr_in; sk_limit : nat }.
Definition sk_pick (X : gset nat) : nat := S (set_fold Nat.max O X).
Definition sk_room (k : sk) : bool := bool_decide (size (sk_fds k) < sk_limit k)%nat.
Definition sk_open (k : sk) : sk * (Z + Z) :=
  if sk_room k then
    let fd := sk_pick (sk_fds k) in (mkSk ({[fd]} ∪ sk_fds k) (sk_waiting k) (sk_limit k), inr (Z.of_nat fd))
  else (k, inl EMFILE).
Definition sk_accept (k : sk) (l : Z) : sk * (Z + Z * sockaddr_in) :=
  if sk_room k then
    match sk_waiting k with
    | a :: w => let fd := sk_pick (sk_fds k) in (mkSk ({[fd]} ∪ sk_fds k) w (sk_limit k), inr (Z.of_nat fd, a))
    | [] => (k, inl EAGAIN)
    end
  else (k, inl EMFILE).
Definition sk_close (k : sk) (fd : Z) : sk * (Z + unit) :=
  if bool_decide (0 <= fd /\ Z.to_nat fd ∈ sk_fds k) then
    let X := sk_fds k ∖ {[Z.to_nat fd]} in
    (mkSk X (sk_waiting k) (Nat.max (sk_limit k) (S (size X))), inr tt)
  else (k, inl EBADF).

#[global] Instance sk_sockets : Sockets sk := {
  sys_socket := sk_open;
  sys_bind k _ _ := (k, inr tt);
  sys_listen k _ _ := (k, inr tt);
  sys_accept4 := sk_accept;
  sys_connect k _ _ := (k, inr tt);
  sys_close := sk_close;
  sys_shutdown k _ := (k, inr tt);
  sys_open_null := sk_open;
  sys_setsockopt k _ _ _ := (k, inr tt);
  sys_getsockopt_error _ _ := inr 0;
  sys_getsockname _ _ := inr zero_addr;
  sys_getpeername _ _ := inr zero_addr }.

Lemma sk_pick_fresh X : sk_pick X ∉ X.
Proof.
  assert (forall n, n ∈ X -> (n <= set_fold Nat.max O X)%nat) as Hm.
  { apply (set_fold_ind_L (fun acc Y => forall n, n ∈ Y -> (n <= acc)%nat)); [set_solver|].
    intros x Y acc _ IH n. rewrite elem_of_union, elem_of_singleton. intros [->|Hn]; [lia|]. specialize (IH n Hn). lia. }
  unfold sk_pick. intros Hin. specialize (Hm _ Hin). lia.
Qed.
Definition sk_table (k : sk) : gset Z := set_map Z.of_nat (sk_fds k).
Lemma sk_elem n k : Z.of_nat n ∈ sk_table k <-> n ∈ sk_fds k.
Proof. unfold sk_table. rewrite elem_of_map. split; [intros (m & E & Hm); by apply Nat2Z.inj in E as ->|by exists n]. Qed.
Lemma sk_nonneg k fd : fd ∈ sk_table k -> 0 <= fd.
Proof. unfold sk_table. rewrite elem_of_map. intros (n & -> & _). lia. Qed.

#[global] Program Instance sk_laws : FdLaws sk := {
  fds := sk_table;
  waiting := sk_waiting;
  room := sk_room }.
Next Obligation.
  intros k l k' fd a. cbn. unfold sk_accept. destruct (sk_room k); [|done]. destruct (sk_waiting k) as [|b w]; [done|].
  intros [= <- <- <-]. split; [lia|]. split; [rewrite sk_elem; apply sk_pick_fresh|]. split; [|done].
  unfold sk_table; cbn. by rewrite set_map_union_L, set_map_singleton_L.
Qed.
Next Obligation.
  intros k l k' e. cbn. unfold sk_accept. destruct (sk_room k) eqn:E; [|by intros [= <- _]].
  destruct (sk_waiting k); [by intros [= <- _]|done].
Qed.
Next Obligation.
  intros k fd Hfd. pose proof (sk_nonneg _ _ Hfd) as Hp. rewrite <- (Z2Nat.id fd), sk_elem in Hfd by done. cbn. unfold sk_close.
  rewrite bool_decide_true by done. cbn. split; [|split; [done|]].
  - apply set_eq. intros x. unfold sk_table; cbn. rewrite elem_of_difference, !elem_of_map, elem_of_singleton. split.
    + intros (n & -> & Hn). split; [exists n; set_solver|]. intros <-. rewrite Nat2Z.id in Hn. set_solver.
    + intros [(n & -> & Hn) Hne]. exists n. split; [done|]. apply elem_of_difference. split; [done|].
      rewrite elem_of_singleton. intros ->. by rewrite Z2Nat.id in Hne.
  - unfold sk_room; cbn. apply bool_decide_true. lia.
Qed.
Next Obligation.
  intros k fd Hfd. cbn. unfold sk_close. rewrite bool_decide_false; [done|]. intros [Hp Hin].
  apply Hfd. rewrite <- (Z2Nat.id fd) by done. by apply sk_elem.
Qed.
Next Obligation.
  intros k k' fd. cbn. unfold sk_open. destruct (sk_room k); [|done]. intros [= <- <-].
  split; [lia|]. split; [rewrite sk_elem; apply sk_pick_fresh|]. split; [|done].
  unfold sk_table; cbn. by rewrite set_map_union_L, set_map_singleton_L.
Qed.
Next Obligation. intros k k' e. cbn. unfold sk_open. destruct (sk_room k); [done|]. by intros [= <- _]. Qed.
Next Obligation. intros k. cbn. unfold sk_open. intros ->. eauto. Qed.
Next Obligation. apply sk_nonneg. Qed.

(** Four descriptors allowed and four open, one of them the spare; two
    connections wait. *)
Definition sample_acceptor : t (EPollPoller.t Sample.ep) sk :=
  mk (mkWorld {[ 300 := setReadCallback (Some 0) (Channel_new 1 3) ]} (EPollPoller.init (Sample.mkEp ∅ [] 0)))
    (mkSk {[ 0%nat; 3%nat; 4%nat; 5%nat ]} [mkAddr 2 1 1; mkAddr 2 2 2] 4) 3 300 true false 4.

(** An acceptor by itself, whose callback drops the connection. *)
Definition alone : M (t (EPollPoller.t Sample.ep) sk) unit := handleRead (fun s => s) (fun a _ => a) (fun _ _ => ret tt) true.

Lemma handleRead_outcome_witness : exists s',
  alone sample_acceptor = Ok (tt, s') /\ waiting (kernel s') = [mkAddr 2 2 2] /\ owns s' /\ refused sample_acceptor s'.
Proof.
  assert (owns sample_acceptor) as Ho.
  { unfold owns. split; [|split]; [apply (sk_elem 4); by apply (bool_decide_unpack _)|apply (sk_elem 3); by apply (bool_decide_unpack _)|done]. }
  pose proof (handleRead_outcome (fun s => s) (fun a _ => a) (fun _ _ => eq_refl) (fun _ _ _ => eq_refl) (fun _ _ => ret tt)
    sample_acceptor Ho) as H. cbv beta in H.
  change (sys_accept4 (kernel sample_acceptor) (acceptSocket_ sample_acceptor)) with
    (kernel sample_acceptor, @inl Z (Z * sockaddr_in) EMFILE) in H.
  cbv beta iota in H. rewrite decide_True in H by done. destruct H as (s' & E & Ho' & Hr & _). exists s'. split; [exact E|].
  split; [|split; [exact Ho'|exact Hr]].
  assert (match alone sample_acceptor with Ok (_, s) => sk_waiting (kernel s) = [mkAddr 2 2 2] | Err _ => False end) as G
    by (vm_compute; reflexivity).
  unfold alone in G. rewrite E in G. exact G.
Defined.

Lemma listen_watches_witness : exists s',
  listen true sample_acceptor = Ok (tt, s') /\ interest (poller (world s')) !! 3 = Some (300, kReadEvent).
Proof.
  assert (Registry.refines (Registry.fresh_registry {[ 300 := 3 ]})
    (mkWorld (Registry.fresh_channels 1 {[ 300 := 3 ]}) (EPollPoller.init (Sample.mkEp ∅ [] 0)))) as R.
  { apply Registry.refines_fresh; [apply (bool_decide_unpack _); by vm_compute| |done|done].
    constructor; cbn; [set_solver|set_solver|]. by vm_compute. }
  pose proof (Registry.refines_write (Registry.fresh_registry {[ 300 := 3 ]}) _ 300 (Channel_new 1 3)
    (fun _ => setReadCallback (Some 0) (Channel_new 1 3)) R eq_refl eq_refl eq_refl eq_refl) as R'.
  pose proof (listen_watches (Registry.fresh_registry {[ 300 := 3 ]}) sample_acceptor 3 R' eq_refl eq_refl) as H.
  unfold wpe in H. destruct (listen true sample_acceptor) as [[[] s']|e] eqn:E.
  - exists s'. split; [reflexivity|]. apply H.
  - exfalso. assert (match listen true sample_acceptor with Ok _ => True | Err _ => False end) as G by (vm_compute; exact I).
    by rewrite E in G.
Defined.

Example moved_Socket_hits_connection : exists k1 k2 k3, let k := mkSk {[1%nat]} [zero_addr] 8 in
  Socket_destructor (Socket_move 1) k = Ok (tt, k1) /\ sys_accept4 k1 9 = (k2, inr (1, zero_addr)) /\
  1 ∈ fds k2 /\ Socket_destructor 1 k2 = Ok (tt, k3) /\ 1 ∉ fds k3.
Proof.
  destruct (moved_Socket_closes_twice (mkSk {[1%nat]} [zero_addr] 8) (mkSk {[1%nat]} [] 8) 1 9 zero_addr) as (k1 & k3 & E1 & E2 & E3 & E4 & E5).
  - apply (bool_decide_unpack _). by vm_compute.
  - by vm_compute.
  - exists k1, (mkSk {[1%nat]} [] 8), k3. do 4 (split; [done|]). rewrite E5. set_solver.
Qed.
End Acceptor.
