(* ===== verification/TcpServer.v ===== *)
(** * The server (TcpServer.h, TcpServer.c++)

    One server, its connections in the loops of its pool, and the functors
    these loops have queued for each other.  A connection is its number in
    [conns]; what is done to it ([connectEstablished], the close callback,
    [connectDestroyed]) is written to [log].  [loop] is the thread a call
    runs in, named by its loop; [pending] holds the queued functors of all
    loops in the order they were queued. *)
From Stdlib Require Import Ascii.
From stdpp Require Import sorting.
From S2P Require Import Prelude Text Endian SocketsOps Atomic EventLoopThreadPool.
#[local] Open Scope Z_scope.

Module TcpServer.

Record connection : Type := Conn {
  conn_loop : Z;
  conn_name : string;
  conn_fd : Z;
  conn_local : sockaddr_in;
  conn_peer : sockaddr_in }.

Inductive task : Type :=
| Established (c : nat)          (* TcpConnection::connectEstablished *)
| RemoveInLoop (c : nat)         (* TcpServer::removeConnectionInLoop *)
| Destroyed (c : nat)            (* TcpConnection::connectDestroyed *)
| Listen.                        (* Acceptor::listen *)

Inductive act : Type := ActEstablished | ActClosed | ActDestroyed.
#[export] Instance act_eq_dec : EqDecision act.
Proof. solve_decision. Defined.

Record t : Type := mk {
  loop_ : Z;
  ipPort_ : string;
  name_ : string;
  threadPool_ : EventLoopThreadPool.t;
  threadInitCallback_ : bool;
  started_ : Z;
  listenning : bool;             (* acceptor_->listenning() *)
  nextConnId_ : Z;
  connections_ : gmap string nat;
  alive : bool;                  (* the object has not been destroyed *)
  conns : list connection;
  pending : list (Z * task);
  log : list (nat * act) }.

Definition set_pool v s := mk (loop_ s) (ipPort_ s) (name_ s) v (threadInitCallback_ s) (started_ s) (listenning s) (nextConnId_ s) (connections_ s) (alive s) (conns s) (pending s) (log s).
Definition set_started v s := mk (loop_ s) (ipPort_ s) (name_ s) (threadPool_ s) (threadInitCallback_ s) v (listenning s) (nextConnId_ s) (connections_ s) (alive s) (conns s) (pending s) (log s).
Definition set_listenning v s := mk (loop_ s) (ipPort_ s) (name_ s) (threadPool_ s) (threadInitCallback_ s) (started_ s) v (nextConnId_ s) (connections_ s) (alive s) (conns s) (pending s) (log s).
Definition set_nextConnId v s := mk (loop_ s) (ipPort_ s) (name_ s) (threadPool_ s) (threadInitCallback_ s) (started_ s) (listenning s) v (connections_ s) (alive s) (conns s) (pending s) (log s).
Definition set_connections v s := mk (loop_ s) (ipPort_ s) (name_ s) (threadPool_ s) (threadInitCallback_ s) (started_ s) (listenning s) (nextConnId_ s) v (alive s) (conns s) (pending s) (log s).
Definition set_alive v s := mk (loop_ s) (ipPort_ s) (name_ s) (threadPool_ s) (threadInitCallback_ s) (started_ s) (listenning s) (nextConnId_ s) (connections_ s) v (conns s) (pending s) (log s).
Definition set_conns v s := mk (loop_ s) (ipPort_ s) (name_ s) (threadPool_ s) (threadInitCallback_ s) (started_ s) (listenning s) (nextConnId_ s) (connections_ s) (alive s) v (pending s) (log s).
Definition set_pending v s := mk (loop_ s) (ipPort_ s) (name_ s) (threadPool_ s) (threadInitCallback_ s) (started_ s) (listenning s) (nextConnId_ s) (connections_ s) (alive s) (conns s) v (log s).
Definition emit c a s := mk (loop_ s) (ipPort_ s) (name_ s) (threadPool_ s) (threadInitCallback_ s) (started_ s) (listenning s) (nextConnId_ s) (connections_ s) (alive s) (conns s) (pending s) (log s ++ [(c, a)]).
Definition queueInLoop l f s := set_pending (pending s ++ [(l, f)]) s.

Definition make (loop : Z) (ipPort name : string) (threadInitCallback : bool) : t :=
  mk loop ipPort name (EventLoopThreadPool.make loop name) threadInitCallback 0 false 1 ∅ true [] [] [].

(** The name of the connection with the number [id]. *)
Definition connName (name ipPort : string) (id : Z) : string :=
  name +:+ snprintf 64 ("-" +:+ c_str ipPort +:+ "#" +:+ dec id).

(** [std::map] goes through its entries in the order of the keys. *)
Definition entries (m : gmap string nat) : list (string * nat) :=
  merge_sort (fun a b => String.le (fst a) (fst b)) (map_to_list m).

(** The oldest functor of a loop. *)
Fixpoint pop {A} (l : Z) (q : list (Z * A)) : option (A * list (Z * A)) :=
  match q with
  | [] => None
  | (l', f) :: q =>
      if l' =? l then Some (f, q)
      else match pop l q with Some (g, q') => Some (g, (l', f) :: q') | None => None end
  end.

Section server.
(** [EventLoopThread::startLoop] of the pool's threads; sockets::getLocalAddr. *)
Context (startLoop : Z -> Z) (getLocalAddr : Z -> sockaddr_in).
Implicit Types (s : t).

Definition assertInLoopThread (loop : Z) : M t unit :=
  let* s := get in if loop =? loop_ s then ret tt else throw Aborted.
Definition runInLoop (loop target : Z) (m : M t unit) (f : task) : M t unit :=
  if loop =? target then m else modify (queueInLoop target f).

Definition setThreadNum (numThreads : Z) : M t unit :=
  assert_ (0 <=? numThreads) ;;;
  modify (fun s => set_pool (EventLoopThreadPool.setThreadNum numThreads (threadPool_ s)) s).

Definition listen : M t unit := modify (set_listenning true).

Definition start (loop : Z) : M t unit :=
  let* old := zoom started_ set_started (Atomic.getAndSet 1) in
  when (old =? 0)
    (let* s := get in
     zoom threadPool_ set_pool
       (EventLoopThreadPool.start startLoop (loop =? EventLoopThreadPool.baseLoop_ (threadPool_ s)) (threadInitCallback_ s)) ;;;
     let* s := get in
     assert_ (negb (listenning s)) ;;;
     runInLoop loop (loop_ s) listen Listen).

Definition newConnection (loop sockfd : Z) (peerAddr : sockaddr_in) : M t unit :=
  assertInLoopThread loop ;;;
  let* s := get in
  let* ioLoop := zoom threadPool_ set_pool
    (EventLoopThreadPool.getNextLoop (loop =? EventLoopThreadPool.baseLoop_ (threadPool_ s))) in
  let id := nextConnId_ s in
  (if id <? 2 ^ 31 - 1 then modify (set_nextConnId (id + 1)) else throw Undefined) ;;;
  let name := connName (name_ s) (ipPort_ s) id in
  let c := length (conns s) in
  modify (fun s => set_conns (conns s ++ [Conn ioLoop name sockfd (getLocalAddr sockfd) peerAddr]) s) ;;;
  modify (fun s => set_connections (<[name := c]> (connections_ s)) s) ;;;
  runInLoop loop ioLoop (modify (emit c ActEstablished)) (Established c).

Definition removeConnectionInLoop (loop : Z) (c : nat) : M t unit :=
  let* s := get in
  if alive s then
    assertInLoopThread loop ;;;
    match conns s !! c with
    | None => throw Undefined
    | Some conn =>
        let n := match connections_ s !! conn_name conn with Some _ => 1 | None => 0 end in
        modify (set_connections (delete (conn_name conn) (connections_ s))) ;;;
        assert_ (n =? 1) ;;;
        modify (queueInLoop (conn_loop conn) (Destroyed c))
    end
  else throw Undefined.

(** The close callback of a connection, in the thread of its loop. *)
Definition removeConnection (loop : Z) (c : nat) : M t unit :=
  let* s := get in
  if alive s then runInLoop loop (loop_ s) (removeConnectionInLoop loop c) (RemoveInLoop c)
  else throw Undefined.

Definition destructor (loop : Z) : M t unit :=
  assertInLoopThread loop ;;;
  let* s := get in
  for_each (fun item : string * nat =>
      let* s := get in
      match conns s !! snd item with
      | None => throw Undefined
      | Some conn =>
          runInLoop loop (conn_loop conn) (modify (emit (snd item) ActDestroyed)) (Destroyed (snd item))
      end) (entries (connections_ s)) ;;;
  modify (set_connections ∅) ;;;
  modify (set_alive false).

Definition exec (loop : Z) (f : task) : M t unit :=
  match f with
  | Established c => modify (emit c ActEstablished)
  | RemoveInLoop c => removeConnectionInLoop loop c
  | Destroyed c => modify (emit c ActDestroyed)
  | Listen => let* s := get in if alive s then listen else throw Undefined   (* the acceptor dies with the server *)
  end.

Inductive op : Type :=
| Accept (sockfd : Z) (peerAddr : sockaddr_in)   (* the acceptor hands over a connection *)
| Close (c : nat)                                (* a connection calls its close callback *)
| Run (loop : Z).                                (* a loop runs its oldest functor *)

Definition step (o : op) : M t unit :=
  match o with
  | Accept sockfd peerAddr => let* s := get in newConnection (loop_ s) sockfd peerAddr
  | Close c =>
      let* s := get in
      match conns s !! c with
      | None => throw Undefined
      | Some conn => modify (emit c ActClosed) ;;; removeConnection (conn_loop conn) c
      end
  | Run loop =>
      let* s := get in
      match pop loop (pending s) with
      | None => ret tt
      | Some (f, q) => modify (set_pending q) ;;; exec loop f
      end
  end.

(** ** The life of a connection *)

Definition task_conn (f : task) : option nat :=
  match f with Established c | RemoveInLoop c | Destroyed c => Some c | Listen => None end.
Definition about (c : nat) s : list (Z * task) := filter (fun x => task_conn (snd x) = Some c) (pending s).
Definition trace (c : nat) s : list act := omap (fun x => if decide (fst x = c) then Some (snd x) else None) (log s).

Inductive phase : Type := Connecting | Open | Closing | Erased | Gone.
Definition phase_trace (p : phase) : list act :=
  match p with
  | Connecting => []
  | Open => [ActEstablished]
  | Closing | Erased => [ActEstablished; ActClosed]
  | Gone => [ActEstablished; ActClosed; ActDestroyed]
  end.
Definition phase_tasks (loop : Z) (conn : connection) (c : nat) (p : phase) : list (Z * task) :=
  match p with
  | Connecting => [(conn_loop conn, Established c)]
  | Closing => [(loop, RemoveInLoop c)]
  | Erased => [(conn_loop conn, Destroyed c)]
  | Open | Gone => []
  end.
Definition phase_listed (p : phase) : Prop := match p with Erased | Gone => False | _ => True end.

Definition in_phase (c : nat) (conn : connection) (p : phase) s : Prop :=
  trace c s = phase_trace p /\ about c s = phase_tasks (loop_ s) conn c p /\
  (connections_ s !! conn_name conn = Some c <-> phase_listed p).
Definition phase_ok (c : nat) s : Prop :=
  match conns s !! c with
  | Some conn => exists p, in_phase c conn p s
  | None => trace c s = [] /\ about c s = []
  end.

(** What is queued while the server works: a connection of the server's own
    loop is established at once, and the server has started in its loop. *)
Definition queued_ok s : Prop := forall l f, (l, f) ∈ pending s ->
  match f with Established _ => l <> loop_ s | Listen => False | RemoveInLoop _ | Destroyed _ => True end.

(** The connections in [X] are in a phase of their life. *)
Record inv_for (X : nat -> Prop) s : Prop := {
  inv_alive : alive s = true /\ queued_ok s;
  inv_pool : EventLoopThreadPool.wf (threadPool_ s) /\ EventLoopThreadPool.started_ (threadPool_ s) = true /\
    EventLoopThreadPool.baseLoop_ (threadPool_ s) = loop_ s;
  inv_next : nextConnId_ s = 1 + Zlen (conns s) /\ nextConnId_ s < 2 ^ 31;
  inv_ip : slen (c_str (ipPort_ s)) <= 50;
  inv_names : forall c conn, conns s !! c = Some conn -> conn_name conn = connName (name_ s) (ipPort_ s) (1 + Z.of_nat c);
  inv_map : forall n c, connections_ s !! n = Some c -> exists conn, conns s !! c = Some conn /\ conn_name conn = n;
  inv_phase : forall c, X c -> phase_ok c s }.
Definition inv : t -> Prop := inv_for (fun _ => True).
Definition inv_but (c : nat) : t -> Prop := inv_for (fun d => d <> c).

Lemma inv_weaken c s : inv s -> inv_but c s.
Proof. intros [I1 I2 I3 I4 I5 I6 I7]. constructor; auto. Qed.
Lemma inv_back c s : inv_but c s -> phase_ok c s -> inv s.
Proof.
  intros [I1 I2 I3 I4 I5 I6 I7] Hc. constructor; auto. intros d _. destruct (decide (d = c)) as [->|]; auto.
Qed.

Lemma connName_inj name ip i j : slen (c_str ip) <= 50 -> - 2 ^ 31 <= i < 2 ^ 31 -> - 2 ^ 31 <= j < 2 ^ 31 ->
  connName name ip i = connName name ip j -> i = j.
Proof.
  intros Hip Hi Hj. unfold connName. pose proof (dec_int_length i Hi). pose proof (dec_int_length j Hj).
  rewrite !snprintf_fits by (rewrite !slen_app; change (slen "-") with 1; change (slen "#") with 1; lia).
  intros E. apply (inj (String.append name)) in E. apply (inj (String.append "-")) in E.
  apply (inj (String.append (c_str ip))) in E. apply (inj (String.append "#")) in E. by apply dec_inj.
Qed.

Lemma trace_emit c d a s : trace c (emit d a s) = trace c s ++ (if decide (d = c) then [a] else []).
Proof. unfold trace. cbn. rewrite omap_app. cbn. by case_decide. Qed.
Lemma about_queue c l f s :
  about c (queueInLoop l f s) = about c s ++ (if decide (task_conn f = Some c) then [(l, f)] else []).
Proof. unfold about. cbn. rewrite list.filter_app. cbn. by case_decide. Qed.

Lemma pop_first {A} l (q : list (Z * A)) x q' : pop l q = Some (x, q') ->
  exists q1 q2, q = q1 ++ (l, x) :: q2 /\ q' = q1 ++ q2 /\ Forall (fun y => fst y <> l) q1.
Proof.
  revert q'. induction q as [|[l' y] q IH]; intros q'; cbn; [done|]. destruct (Z.eqb_spec l' l) as [->|Hne].
  - intros [= <- <-]. by exists [], q.
  - destruct (pop l q) as [[z r]|]; [|done]. intros [= <- <-]. destruct (IH r eq_refl) as (q1 & q2 & -> & -> & Hf).
    exists ((l', y) :: q1), q2. split; [done|]. split; [done|]. by constructor.
Qed.

Lemma pop_split {A} l (q : list (Z * A)) f q' : pop l q = Some (f, q') -> exists q1 q2, q = q1 ++ (l, f) :: q2 /\ q' = q1 ++ q2.
Proof. intros (q1 & q2 & ? & ? & _)%pop_first. by exists q1, q2. Qed.
Lemma about_elem c l f s : (l, f) ∈ pending s -> task_conn f = Some c -> (l, f) ∈ about c s.
Proof. intros Hin Hf. apply list_elem_of_filter. by split. Qed.

(** Taking a functor off a queue. *)
Lemma about_popped l f q c s : pop l (pending s) = Some (f, q) ->
  (task_conn f <> Some c -> about c (set_pending q s) = about c s) /\
  (task_conn f = Some c -> (l, f) ∈ about c s /\ forall x, about c s = [x] -> x = (l, f) /\ about c (set_pending q s) = []).
Proof.
  intros (q1 & q2 & E & ->)%pop_split. unfold about; cbn. rewrite E, !list.filter_app. split; intros Hf.
  - by rewrite filter_cons_False.
  - rewrite filter_cons_True by done. split; [apply elem_of_app; right; by left|]. intros x Hx.
    apply app_singleton in Hx as [[E1 E2]|[E1 E2]]; [|done]. injection E2 as <- E2. by rewrite E1, E2.
Qed.

(** The functors of a connection whose loop runs one are a queue. *)
Lemma about_first l f q c s l' : pop l (pending s) = Some (f, q) -> task_conn f = Some c ->
  (forall x, x ∈ about c s -> fst x = l') -> about c s = (l, f) :: about c (set_pending q s).
Proof.
  intros (q1 & q2 & E & -> & Hf)%pop_first Hc Hl. unfold about in *. cbn [pending set_pending]. rewrite E, !list.filter_app in *.
  rewrite filter_cons_True in * by done.
  assert (filter (fun x => task_conn (snd x) = Some c) q1 = []) as ->; [|done].
  destruct (filter _ q1) as [|x r] eqn:Ex; [done|].
  assert (x ∈ filter (fun x => task_conn (snd x) = Some c) q1) as [_ Hx]%list_elem_of_filter by (rewrite Ex; by left).
  destruct (proj1 (list.Forall_forall _ _) Hf x Hx). rewrite (Hl x) by (by left).
  apply eq_sym, (Hl (l, f)). apply elem_of_app. right. by left.
Qed.

(** What happens to connection [c] leaves the others alone. *)
Lemma phase_ok_other c d s s' : conns s' = conns s -> loop_ s' = loop_ s -> trace d s' = trace d s ->
  about d s' = about d s ->
  (forall n, connections_ s' !! n = Some d <-> connections_ s !! n = Some d) -> c <> d -> phase_ok d s -> phase_ok d s'.
Proof.
  unfold phase_ok, in_phase. intros -> -> -> -> Hm _. destruct (conns s !! d) as [conn|]; [|done].
  intros (p & ? & ? & ?). exists p. by rewrite Hm.
Qed.

Lemma queued_ok_queue l f s : queued_ok s -> match f with Established _ => l <> loop_ s | Listen => False | _ => True end ->
  queued_ok (queueInLoop l f s).
Proof. intros Hq Hf l' f'. cbn. intros [Hin|[= -> ->]%list_elem_of_singleton]%elem_of_app; [by apply (Hq l' f')|done]. Qed.
Lemma queued_ok_popped l f q s : pop l (pending s) = Some (f, q) -> queued_ok s -> queued_ok (set_pending q s).
Proof.
  intros (q1 & q2 & E & ->)%pop_split Hq l' f' Hin. apply Hq. rewrite E. cbn in Hin. set_solver.
Qed.

Lemma inv_but_emit c a s : inv_but c s -> inv_but c (emit c a s).
Proof.
  intros [I1 I2 I3 I4 I5 I6 I7]. constructor; try done. intros d Hd.
  apply (phase_ok_other c _ s); try done; [|by auto]. rewrite trace_emit, decide_False by done. by rewrite app_nil_r.
Qed.
Lemma inv_but_queue c l f s : task_conn f = Some c -> match f with Established _ => l <> loop_ s | _ => True end ->
  inv_but c s -> inv_but c (queueInLoop l f s).
Proof.
  intros Hf Hl [[I1 I1'] I2 I3 I4 I5 I6 I7]. constructor; try done.
  { split; [done|]. apply queued_ok_queue; [done|]. by destruct f. }
  intros d Hd.
  apply (phase_ok_other c _ s); try done; [|by auto]. rewrite about_queue, decide_False by congruence. by rewrite app_nil_r.
Qed.
Lemma inv_but_popped c l f q s : pop l (pending s) = Some (f, q) -> task_conn f = Some c -> inv_but c s ->
  inv_but c (set_pending q s).
Proof.
  intros Hp Hf [[I1 I1'] I2 I3 I4 I5 I6 I7]. constructor; try done.
  { split; [done|by eapply queued_ok_popped]. }
  intros d Hd.
  apply (phase_ok_other c _ s); try done; [|by auto]. apply (about_popped _ _ _ d _ Hp). congruence.
Qed.
Lemma inv_but_erase c conn s : conns s !! c = Some conn -> connections_ s !! conn_name conn = Some c ->
  inv_but c s -> inv_but c (set_connections (delete (conn_name conn) (connections_ s)) s).
Proof.
  intros Hc Hm [I1 I2 I3 I4 I5 I6 I7]. constructor; try done; cbn.
  - intros n d [_ Hd]%lookup_delete_Some. by apply I6.
  - intros d Hd. apply (phase_ok_other c _ s); try done; [|by auto]. cbn. intros n. rewrite lookup_delete_Some.
    split; [by intros [_ ?]|]. intros Hn. split; [|done]. intros E. rewrite E in Hm. congruence.
Qed.

(** ** The operations *)

Lemma wp_removeConnectionInLoop c conn s : inv_but c s -> conns s !! c = Some conn ->
  trace c s = [ActEstablished; ActClosed] -> about c s = [] -> connections_ s !! conn_name conn = Some c ->
  wp (removeConnectionInLoop (loop_ s) c) (fun _ s' => inv s') s.
Proof.
  intros Hi Hc Ht Ha Hm. unfold removeConnectionInLoop, assertInLoopThread. wp_steps. rewrite (proj1 (inv_alive _ _ Hi)).
  wp_steps. rewrite Z.eqb_refl. wp_steps. rewrite Hc, Hm. wp_steps. cbn. wp_steps.
  set (s1 := set_connections _ s). assert (inv_but c s1) as Hi1 by (by apply inv_but_erase).
  apply (inv_back c); [by apply inv_but_queue|]. unfold phase_ok, in_phase.
  change (conns (queueInLoop _ _ s1)) with (conns s). rewrite Hc. exists Erased.
  split; [exact Ht|]. rewrite about_queue. cbn [task_conn]. rewrite decide_True by done. split.
  - change (about c s1) with (about c s). by rewrite Ha.
  - cbn. by rewrite lookup_delete_eq.
Qed.

Lemma wp_nextLoop s : inv s ->
  wp (zoom threadPool_ set_pool (EventLoopThreadPool.getNextLoop (loop_ s =? EventLoopThreadPool.baseLoop_ (threadPool_ s))))
    (fun r s' => r ∈ loop_ s :: EventLoopThreadPool.loops_ (threadPool_ s) /\
      exists p, s' = set_pool p s /\ EventLoopThreadPool.wf p /\
      EventLoopThreadPool.started_ p = true /\ EventLoopThreadPool.baseLoop_ p = loop_ s /\
      EventLoopThreadPool.loops_ p = EventLoopThreadPool.loops_ (threadPool_ s)) s.
Proof.
  intros Hi. destruct (inv_pool _ _ Hi) as (Hwf & Hst & Hb). apply wpe_zoom. rewrite Hb, Z.eqb_refl.
  destruct (decide (EventLoopThreadPool.loops_ (threadPool_ s) = [])) as [E|E].
  - unfold EventLoopThreadPool.getNextLoop. cbn. wp_steps. rewrite Hst. cbn. wp_steps. rewrite E. wp_steps. rewrite Hb.
    split; [by left|]. eauto 10.
  - eapply wpe_mono; [by apply EventLoopThreadPool.wp_getNextLoop|]. cbn. intros r p [Hr ->].
    split; [right; by eapply list_elem_of_lookup_2|]. eexists. split; [done|]. split; [|done]. apply EventLoopThreadPool.wf_set_next; [| |done];
      destruct (decide (Zlen (EventLoopThreadPool.loops_ (threadPool_ s)) = 0)) as [E'|E']; try (by apply Zlen_0_nil in E');
      pose proof (Zlen_nonneg (EventLoopThreadPool.loops_ (threadPool_ s)));
      pose proof (Z.mod_pos_bound (EventLoopThreadPool.next_ (threadPool_ s) + 1)
        (Zlen (EventLoopThreadPool.loops_ (threadPool_ s))) ltac:(lia)); lia.
Qed.

Lemma wp_newConnection sockfd peer s : inv s -> nextConnId_ s < 2 ^ 31 - 1 ->
  wp (newConnection (loop_ s) sockfd peer) (fun _ s' => inv s') s.
Proof.
  intros Hi Hid. unfold newConnection, assertInLoopThread. wp_steps. rewrite Z.eqb_refl. wp_steps.
  eapply wpe_mono; [by apply wp_nextLoop|]. cbn beta. intros ioLoop s0 (_ & p & -> & Hp1 & Hp2 & Hp3 & _). rewrite (proj2 (Z.ltb_lt _ _)) by done.
  wp_steps. set (name := connName _ _ _). set (c := length (conns s)).
  set (conn := Conn ioLoop name sockfd (getLocalAddr sockfd) peer).
  destruct Hi as [I1 I2 [I3 I3'] I4 I5 I6 I7].
  assert (conns s !! c = None) as Hnone by (apply lookup_ge_None_2; lia).
  assert (connections_ s !! name = None) as Hfresh.
  { destruct (connections_ s !! name) as [d|] eqn:E; [|done]. exfalso. destruct (I6 _ _ E) as (dn & Hd & Hn).
    rewrite (I5 _ _ Hd) in Hn. apply lookup_lt_Some in Hd as Hlt. unfold Zlen in I3.
    apply connName_inj in Hn; [|done|lia..]. lia. }
  set (s1 := set_connections _ _).
  assert (conns s1 !! c = Some conn) as Hc by (cbn; by rewrite lookup_app_r, Nat.sub_diag).
  assert (trace c s1 = [] /\ about c s1 = []) as [Ht Ha].
  { pose proof (I7 c I) as Hc'. unfold phase_ok in Hc'. by rewrite Hnone in Hc'. }
  assert (inv_but c s1) as Hi1.
  { constructor; try done; cbn.
    - rewrite I3, Zlen_app. change (Zlen [conn]) with 1. lia.
    - intros d dn Hd. apply lookup_snoc_Some in Hd as [[Hlt Hd]|[-> <-]]; [by apply I5|]. cbn.
      unfold name. f_equal. rewrite I3. unfold Zlen. lia.
    - intros n d Hn. apply lookup_insert_Some in Hn as [[<- <-]|[Hne Hn]]; [by exists conn|].
      destruct (I6 _ _ Hn) as (dn & Hd & Hdn). exists dn. split; [|done]. by apply lookup_app_l_Some.
    - intros d Hd. specialize (I7 d I). unfold phase_ok in *. cbn. destruct (decide (d < c)%nat) as [Hlt|Hge].
      + rewrite lookup_app_l by done. destruct (lookup_lt_is_Some_2 _ _ Hlt) as [dn Hdn]. rewrite Hdn in I7 |- *.
        destruct I7 as (ph & E1 & E2 & E3). exists ph. split; [exact E1|]. split; [exact E2|]. cbn. rewrite lookup_insert_ne; [done|].
        rewrite (I5 _ _ Hdn). intros E. apply connName_inj in E; [|done|unfold Zlen in *; lia..]. unfold Zlen in I3. lia.
      + rewrite (lookup_ge_None_2 (conns s)) in I7 by lia. rewrite lookup_ge_None_2 by (rewrite length_app; cbn; lia).
        exact I7. }
  unfold runInLoop. destruct (Z.eqb_spec (loop_ s) ioLoop) as [?|Hne]; wp_steps.
  - apply (inv_back c); [by apply inv_but_emit|]. unfold phase_ok, in_phase. cbn [conns emit]. rewrite Hc. exists Open.
    rewrite trace_emit, decide_True, Ht by done. split; [done|]. split; [exact Ha|]. cbn. by rewrite lookup_insert_eq.
  - apply (inv_back c); [by apply inv_but_queue; [|apply not_eq_sym|]|]. unfold phase_ok, in_phase. cbn [conns queueInLoop set_pending].
    rewrite Hc. exists Connecting. rewrite about_queue. cbn [task_conn]. rewrite decide_True, Ha by done.
    split; [exact Ht|]. split; [done|]. cbn. by rewrite lookup_insert_eq.
Qed.

Lemma wp_removeConnection c conn s : inv_but c s -> conns s !! c = Some conn ->
  trace c s = [ActEstablished; ActClosed] -> about c s = [] -> connections_ s !! conn_name conn = Some c ->
  wp (removeConnection (conn_loop conn) c) (fun _ s' => inv s') s.
Proof.
  intros Hi Hc Ht Ha Hm. unfold removeConnection, runInLoop. wp_steps. rewrite (proj1 (inv_alive _ _ Hi)).
  destruct (Z.eqb_spec (conn_loop conn) (loop_ s)) as [->|Hne]; [by eapply wp_removeConnectionInLoop|]. wp_steps.
  apply (inv_back c); [by apply inv_but_queue|]. unfold phase_ok, in_phase. cbn [conns queueInLoop set_pending].
  rewrite Hc. exists Closing. rewrite about_queue, Ha. cbn [task_conn]. by rewrite decide_True.
Qed.

Lemma wp_exec l f q s : inv s -> pop l (pending s) = Some (f, q) ->
  wp (exec l f) (fun _ s' => inv s') (set_pending q s).
Proof.
  intros Hi Hp.
  assert (forall c, task_conn f = Some c -> exists conn p, conns s !! c = Some conn /\ in_phase c conn p s /\
    phase_tasks (loop_ s) conn c p = [(l, f)] /\ about c (set_pending q s) = [] /\ inv_but c (set_pending q s)) as Hconn.
  { intros c Hf. destruct (about_popped l f q c s Hp) as [_ Ha]. destruct (Ha Hf) as [Hin Hlast].
    pose proof (inv_phase _ _ Hi c I) as Hc. unfold phase_ok in Hc. destruct (conns s !! c) as [conn|].
    2: { destruct Hc as [_ Hc]. rewrite Hc in Hin. by apply not_elem_of_nil in Hin. }
    destruct Hc as (p & Ht & Hab & Hm). exists conn, p. split; [done|]. split; [done|].
    assert (exists x, about c s = [x]) as [x Hx].
    { rewrite Hab in Hin |- *. destruct p; cbn in *; try (by apply not_elem_of_nil in Hin); eauto. }
    destruct (Hlast x Hx) as [-> Hq]. split; [congruence|]. split; [done|].
    eapply inv_but_popped; [done|done|]. by apply inv_weaken. }
  destruct f as [c|c|c|]; cbn [exec].
  - destruct (Hconn c eq_refl) as (conn & p & Hc & (Ht & Hab & Hm) & Hpt & Hq & Hb). wp_steps.
    destruct p; cbn in Hpt; try discriminate Hpt. apply (inv_back c); [by apply inv_but_emit|].
    unfold phase_ok, in_phase. cbn [conns emit set_pending]. rewrite Hc. exists Open.
    rewrite trace_emit, decide_True by done. split; [|split; [exact Hq|exact Hm]].
    change (trace c (set_pending q s)) with (trace c s). by rewrite Ht.
  - destruct (Hconn c eq_refl) as (conn & p & Hc & (Ht & Hab & Hm) & Hpt & Hq & Hb).
    destruct p; cbn in Hpt; try discriminate Hpt. injection Hpt as <-.
    eapply (wp_removeConnectionInLoop c conn (set_pending q s)); [done|done|exact Ht|exact Hq|by apply Hm].
  - destruct (Hconn c eq_refl) as (conn & p & Hc & (Ht & Hab & Hm) & Hpt & Hq & Hb). wp_steps.
    destruct p; cbn in Hpt; try discriminate Hpt. apply (inv_back c); [by apply inv_but_emit|].
    unfold phase_ok, in_phase. cbn [conns emit set_pending]. rewrite Hc. exists Gone.
    rewrite trace_emit, decide_True by done. split; [|split; [exact Hq|exact Hm]].
    change (trace c (set_pending q s)) with (trace c s). by rewrite Ht.
  - destruct (pop_split _ _ _ _ Hp) as (q1 & q2 & E & _). destruct (proj2 (inv_alive _ _ Hi) l Listen). rewrite E. set_solver.
Qed.

(** The acceptor hands over connections as long as [int] ids last; a
    connection calls its close callback once, after it was established
    (its own lifecycle says so). *)
Definition allowed (o : op) s : Prop :=
  match o with
  | Accept _ _ => nextConnId_ s < 2 ^ 31 - 1
  | Close c => (c < length (conns s))%nat /\ trace c s = [ActEstablished]
  | Run _ => True
  end.
Fixpoint allowed_run (l : list op) s : Prop :=
  match l with
  | [] => True
  | o :: l => allowed o s /\ match step o s with Ok (_, s') => allowed_run l s' | Err _ => True end
  end.

Lemma wp_step o s : inv s -> allowed o s -> wp (step o) (fun _ s' => inv s') s.
Proof.
  intros Hi Ha. destruct o as [fd peer|c|l]; cbn [step allowed] in *.
  - wp_steps. by apply wp_newConnection.
  - destruct Ha as [Hlt Ht]. wp_steps. destruct (lookup_lt_is_Some_2 _ _ Hlt) as [conn Hc]. rewrite Hc. wp_steps.
    pose proof (inv_phase _ _ Hi c I) as Hp. unfold phase_ok in Hp. rewrite Hc in Hp.
    destruct Hp as (p & Ht' & Hab & Hm). rewrite Ht in Ht'. destruct p; try discriminate Ht'.
    apply wp_removeConnection; [by apply inv_but_emit, inv_weaken|done| |exact Hab|by apply Hm].
    by rewrite trace_emit, decide_True, Ht.
  - wp_steps. destruct (pop l (pending s)) as [[f q]|] eqn:E; [|by wp_steps]. wp_steps. by apply wp_exec.
Qed.

(** What a step leaves alone, and the one entry it may write to [log]. *)
Definition loops s : list Z := loop_ s :: EventLoopThreadPool.loops_ (threadPool_ s).
Definition framed (o : op) s s' : Prop :=
  loops s' = loops s /\
  match o with
  | Accept sockfd _ => exists conn, conns s' = conns s ++ [conn] /\ conn_fd conn = sockfd /\ conn_loop conn ∈ loops s /\
      (log s' = log s \/ log s' = log s ++ [(length (conns s), ActEstablished)])
  | Close c => conns s' = conns s /\ log s' = log s ++ [(c, ActClosed)]
  | Run _ => conns s' = conns s /\ (log s' = log s \/ exists c a, log s' = log s ++ [(c, a)] /\ a <> ActClosed)
  end.

Lemma wpe_removeInLoop_frame E l c s : E Aborted -> E Undefined -> E AssertFailed ->
  wpe E (removeConnectionInLoop l c) (fun _ s' => loops s' = loops s /\ conns s' = conns s /\ log s' = log s) s.
Proof.
  intros HA HU HF. unfold removeConnectionInLoop, assertInLoopThread. wp_steps.
  destruct (alive s); [|by apply wpe_throw]. wp_steps. destruct (l =? loop_ s); [|by apply wpe_throw]. wp_steps.
  destruct (conns s !! c) as [conn|]; [|by apply wpe_throw]. wp_steps. apply wpe_assert; [done|]. intros _. by wp_steps.
Qed.

Lemma step_framed o s : inv s -> wlp (step o) (fun _ s' => framed o s s') s.
Proof.
  intros Hi. destruct o as [fd peer|c|l]; cbn [step framed].
  - wp_steps. unfold newConnection, assertInLoopThread. wp_steps. rewrite Z.eqb_refl. wp_steps.
    eapply wpe_mono.
    { eapply wpe_weaken; [by apply wp_nextLoop|done]. }
    cbn beta. intros ioLoop s0 (Hio & p & -> & _ & _ & _ & Hl). destruct (_ <? _); wp_steps; [|by apply wpe_throw].
    unfold runInLoop. destruct (loop_ s =? ioLoop); wp_steps; (split; [unfold loops; cbn; by rewrite Hl|]); cbn; eauto 10.
  - wp_steps. destruct (conns s !! c) as [conn|]; [|by apply wpe_throw]. wp_steps. unfold removeConnection. wp_steps.
    destruct (alive _); [|by apply wpe_throw]. unfold runInLoop. case_match; [|by wp_steps].
    eapply wpe_mono; [by apply wpe_removeInLoop_frame|]. cbn beta. intros _ s' (E1 & E2 & E3).
    split; [exact E1|]. split; [exact E2|exact E3].
  - wp_steps. destruct (pop l (pending s)) as [[f q]|]; [|wp_steps; split; [done|]; split; [done|by left]]. wp_steps.
    destruct f as [c|c|c|]; cbn [exec].
    1,3: wp_steps; split; [done|]; split; [done|]; right; eexists c, _; by split.
    + eapply wpe_mono; [by apply wpe_removeInLoop_frame|]. cbn beta. intros _ s' (E1 & E2 & E3).
      split; [exact E1|]. split; [exact E2|left; exact E3].
    + wp_steps. destruct (alive _); [|by apply wpe_throw]. unfold listen. wp_steps. split; [done|]. split; [done|by left].
Qed.

Lemma wp_step_framed o s : inv s -> allowed o s -> wp (step o) (fun _ s' => inv s' /\ framed o s s') s.
Proof.
  intros Hi Ha. pose proof (wp_step o s Hi Ha) as H1. pose proof (step_framed o s Hi) as H2. unfold wpe in *.
  destruct (step o s) as [[u s']|e]; [by split|done].
Qed.

Lemma wp_run l s : inv s -> allowed_run l s -> wp (for_each step l) (fun _ s' => inv s') s.
Proof.
  revert s. induction l as [|o l IH]; intros s Hi Ha; cbn [for_each]; [by wp_steps|].
  destruct Ha as [Ha Hl]. apply wpe_bind. pose proof (wp_step o s Hi Ha) as Hs. unfold wpe in Hs |- *.
  destruct (step o s) as [[[] s']|e]; [|done]. by apply IH.
Qed.

(** A new server, opened with [n] threads. *)
Definition open (n loop : Z) : M t unit := setThreadNum n ;;; start loop.

Lemma wp_open n loop ipPort name cb : 0 <= n < 2 ^ 31 -> slen (c_str ipPort) <= 50 ->
  wp (open n loop) (fun _ s => inv s /\ listenning s = true /\ conns s = [] /\ loop_ s = loop /\
      EventLoopThreadPool.loops_ (threadPool_ s) = startLoop <$> seqZ 0 n) (make loop ipPort name cb).
Proof.
  intros Hn Hip. unfold open, setThreadNum, start. wp_steps. rewrite (proj2 (Z.leb_le _ _)) by lia. cbn [assert_]. wp_steps.
  apply wpe_zoom. unfold Atomic.getAndSet, wpe at 1. cbn. wp_steps. apply wpe_zoom. cbn. rewrite Z.eqb_refl.
  eapply wpe_mono; [by apply (EventLoopThreadPool.wp_start startLoop n)|]. cbn. intros _ p Hp. wp_steps.
  unfold runInLoop. rewrite Z.eqb_refl. unfold listen. wp_steps.
  destruct (EventLoopThreadPool.started_wf startLoop n cb _ p Hn Hp) as [Hwf _].
  destruct Hp as (P1 & P2 & P3 & _ & _ & P6 & _). split; [|done].
  constructor; try done. split; [done|]. by intros l f ?%not_elem_of_nil.
Qed.

(** C13: A server that has been opened, under any sequence of accepted
    connections, close callbacks and turns of the loops, in any order and
    whatever loops the connections live in, fails no assertion (the entry
    that [removeConnectionInLoop] erases is always there): each connection
    goes through its phases, established before it is closed, closed before
    it is destroyed, each once; it is listed until it is removed; and no
    two connections have the same name. *)
Theorem server_lifecycle n loop ipPort name cb l : 0 <= n < 2 ^ 31 -> slen (c_str ipPort) <= 50 ->
  (forall s, open n loop (make loop ipPort name cb) = Ok (tt, s) -> allowed_run l s) ->
  wp (open n loop ;;; for_each step l) (fun _ s =>
      (forall c conn, conns s !! c = Some conn -> exists p, in_phase c conn p s) /\
      NoDup (conn_name <$> conns s))
    (make loop ipPort name cb).
Proof.
  intros Hn Hip Hl. apply wpe_bind. pose proof (wp_open n loop ipPort name cb Hn Hip) as Ho. unfold wpe in Ho |- * at 1.
  destruct (open n loop (make loop ipPort name cb)) as [[[] s]|e]; [|done]. destruct Ho as (Hi & _).
  eapply wpe_mono; [apply wp_run; [exact Hi|by apply Hl]|]. cbn. intros _ s' [I1 I2 I3 I4 I5 I6 I7]. split.
  - intros c conn Hc. specialize (I7 c I). unfold phase_ok in I7. by rewrite Hc in I7.
  - apply list.NoDup_alt. intros i j x Hx Hj. rewrite list_lookup_fmap in Hx, Hj.
    destruct (conns s' !! i) as [ci|] eqn:Ei; [|done]. destruct (conns s' !! j) as [cj|] eqn:Ej; [|done].
    injection Hx as <-. injection Hj as Hj. rewrite (I5 _ _ Ei), (I5 _ _ Ej) in Hj.
    apply lookup_lt_Some in Ei, Ej. unfold Zlen in I3. apply connName_inj in Hj; [|done|lia..]. lia.
Qed.

(** ** The destructor *)

Lemma elem_of_entries m n c : (n, c) ∈ entries m <-> m !! n = Some c.
Proof. unfold entries. rewrite merge_sort_Permutation. apply elem_of_map_to_list. Qed.

(** What the destructor does to connection [c]. *)
Definition finished (listed : bool) (c : nat) (conn : connection) s s' : Prop :=
  trace c s' = trace c s ++ (if listed && (loop_ s =? conn_loop conn) then [ActDestroyed] else []) /\
  about c s' = about c s ++ (if listed && negb (loop_ s =? conn_loop conn) then [(conn_loop conn, Destroyed c)] else []).

Lemma finished_other l d c conn s s1 s2 : trace c s2 = trace c s1 -> about c s2 = about c s1 ->
  c <> d -> finished (bool_decide (c ∈ l)) c conn s s1 -> finished (bool_decide (c ∈ l ++ [d])) c conn s s2.
Proof.
  unfold finished. intros -> -> Hne. rewrite (bool_decide_ext (c ∈ l ++ [d]) (c ∈ l)); [done|]. set_solver.
Qed.

(** The map has each connection once. *)
Lemma entries_NoDup s : inv s -> NoDup (snd <$> entries (connections_ s)).
Proof.
  intros Hi. apply list.NoDup_alt. intros i j c Hci Hcj. rewrite list_lookup_fmap in Hci, Hcj.
  destruct (entries (connections_ s) !! i) as [[ni ci]|] eqn:Ei; [|done].
  destruct (entries (connections_ s) !! j) as [[nj cj]|] eqn:Ej; [|done].
  injection Hci as ->. injection Hcj as ->. pose proof Ei as Hci. pose proof Ej as Hcj.
  apply list_elem_of_lookup_2, elem_of_entries in Hci. apply list_elem_of_lookup_2, elem_of_entries in Hcj.
  destruct (inv_map _ _ Hi _ _ Hci) as (conn & Hc & Hn). destruct (inv_map _ _ Hi _ _ Hcj) as (conn' & Hc' & Hn').
  assert (ni = nj) as -> by congruence. eapply (list.NoDup_lookup (entries (connections_ s))); [|exact Ei|exact Ej].
  unfold entries. rewrite merge_sort_Permutation. apply NoDup_map_to_list.
Qed.

(** The destructor has been through [done], one entry more. *)
Definition swept (done : list (string * nat)) s s' : Prop := conns s' = conns s /\ loop_ s' = loop_ s /\
  forall c conn, conns s !! c = Some conn -> finished (bool_decide (c ∈ snd <$> done)) c conn s s'.

Lemma swept_next done n d conn s s1 s2 : swept done s s1 -> conns s !! d = Some conn -> d ∉ snd <$> done ->
  conns s2 = conns s1 -> loop_ s2 = loop_ s1 -> finished true d conn s1 s2 ->
  (forall c, c <> d -> trace c s2 = trace c s1 /\ about c s2 = about c s1) -> swept (done ++ [(n, d)]) s s2.
Proof.
  intros (C1 & C2 & C3) Hc Hd E1 E2 [F1 F2] Ho. split; [congruence|]. split; [congruence|]. intros c cn Hcn. rewrite fmap_app.
  pose proof (C3 d conn Hc) as Hdn. unfold finished in Hdn. rewrite bool_decide_false in Hdn by done.
  cbn [andb] in Hdn. rewrite !app_nil_r in Hdn. destruct Hdn as [T A]. destruct (decide (c = d)) as [->|Hne].
  - assert (cn = conn) as -> by congruence. rewrite bool_decide_true by set_solver.
    unfold finished in *. by rewrite F1, F2, T, A, C2.
  - destruct (Ho c Hne). apply (finished_other _ _ _ _ _ s1); auto.
Qed.

Lemma wp_destructor s : inv s ->
  wp (destructor (loop_ s)) (fun _ s' => alive s' = false /\ connections_ s' = ∅ /\
    forall c conn, conns s !! c = Some conn ->
      finished (bool_decide (connections_ s !! conn_name conn = Some c)) c conn s s') s.
Proof.
  intros Hi. pose proof (entries_NoDup s Hi) as Hnd. pose proof (inv_map _ _ Hi) as I6.
  unfold destructor, assertInLoopThread. wp_steps. rewrite Z.eqb_refl. wp_steps.
  eapply wpe_mono; [apply (wpe_for_each_split _ (fun done _ s' => swept done s s'))|].
  - intros done [n d] left s1 El Hs1. pose proof Hs1 as (C1 & C2 & _). cbn [snd]. wp_steps.
    assert ((n, d) ∈ entries (connections_ s)) as Hin by (rewrite El; set_solver).
    apply elem_of_entries in Hin. destruct (I6 _ _ Hin) as (conn & Hc & Hn). rewrite C1, Hc.
    assert (d ∉ snd <$> done) as Hd.
    { rewrite El, fmap_app in Hnd. cbn in Hnd. apply list.NoDup_app in Hnd as (_ & Hnd & _). intros Hd'.
      apply (Hnd d Hd'). by left. }
    unfold runInLoop. destruct (Z.eqb_spec (loop_ s) (conn_loop conn)) as [E|E]; wp_steps;
      (apply (swept_next done n d conn s s1); [done..| |]).
    + unfold finished. rewrite C2, (proj2 (Z.eqb_eq _ _)) by done. cbn [andb negb].
      by rewrite trace_emit, decide_True, app_nil_r.
    + intros c Hne. rewrite trace_emit, decide_False by done. by rewrite app_nil_r.
    + unfold finished. rewrite C2, (proj2 (Z.eqb_neq _ _)) by done. cbn [andb negb].
      rewrite about_queue. cbn [task_conn]. by rewrite decide_True, app_nil_r.
    + intros c Hne. rewrite about_queue. cbn [task_conn]. rewrite decide_False by congruence. by rewrite app_nil_r.
  - split; [done|]. split; [done|]. intros c conn _. unfold finished. cbn. by rewrite !app_nil_r.
  - cbn beta. intros _ s1 (C1 & C2 & C3). wp_steps. split; [done|]. split; [done|]. intros c conn Hc.
    specialize (C3 c conn Hc). unfold finished in *. cbn.
    rewrite (bool_decide_ext (connections_ s !! conn_name conn = Some c) (c ∈ snd <$> entries (connections_ s))); [exact C3|].
    rewrite list_elem_of_fmap. split.
    + intros Hm. exists (conn_name conn, c). split; [done|]. by apply elem_of_entries.
    + intros ([n d] & -> & Hin). apply elem_of_entries in Hin. cbn in *. destruct (I6 _ _ Hin) as (conn' & Hc' & <-). congruence.
Qed.

(** What the destructor leaves alone, and what it adds. *)
Definition destroys s s' : Prop :=
  conns s' = conns s /\ loops s' = loops s /\
  (exists new, log s' = log s ++ new /\ Forall (fun x => is_Some (conns s !! fst x)) new) /\
  exists q, pending s' = pending s ++ q /\ Forall (fun x => exists c, snd x = Destroyed c /\ is_Some (conns s !! c)) q.

#[local] Instance destroys_preorder : PreOrder destroys.
Proof.
  split; [intros s; split; [done|]; split; [done|]; split; exists []; (split; [by rewrite app_nil_r|constructor])|].
  intros s s1 s2 (A1 & A2 & (n1 & A3 & N1) & q1 & A4 & Q1) (B1 & B2 & (n2 & B3 & N2) & q2 & B4 & Q2). rewrite A1 in N2, Q2.
  split; [congruence|]. split; [congruence|]. split.
  - exists (n1 ++ n2). rewrite B3, A3, app_assoc. split; [done|]. by apply Forall_app.
  - exists (q1 ++ q2). rewrite B4, A4, app_assoc. split; [done|]. by apply Forall_app.
Qed.

Lemma destructor_moves loop : moves destroys (destructor loop).
Proof.
  unfold destructor, assertInLoopThread. apply moves_bind; [tc_solve|moves_tac|intros _].
  apply moves_bind; [tc_solve|apply moves_get; tc_solve|intros s0].
  assert (forall f, (forall s, destroys s (f s)) -> moves destroys (modify f)) as Hm by (intros; by apply moves_modify).
  repeat (apply moves_bind; [tc_solve| |intros _]); [|apply Hm; intros s; change (destroys s s); reflexivity..].
  apply moves_for_each; [tc_solve|]. intros [n c] s. cbn [snd]. unfold runInLoop. wp_steps.
  destruct (conns s !! c) as [conn|] eqn:Hc; [|done]. assert (is_Some (conns s !! c)) as Hs by by exists conn.
  destruct (loop =? conn_loop conn); (split; [done|]); (split; [done|]); cbn; split.
  - exists [(c, ActDestroyed)]. by split; [|repeat constructor].
  - exists []. by rewrite app_nil_r.
  - exists []. by rewrite app_nil_r.
  - exists [(conn_loop conn, Destroyed c)]. split; [done|]. constructor; [by exists c|done].
Qed.

(** The destructor, in the server's loop: every connection that is still
    listed gets one [connectDestroyed], at once when it lives in the
    server's own loop and otherwise queued behind everything that is
    queued for it (so after its [connectEstablished]); connections already
    removed get none from it. *)
Theorem destructor_finishes n loop ipPort name cb l s : 0 <= n < 2 ^ 31 -> slen (c_str ipPort) <= 50 ->
  (forall s, open n loop (make loop ipPort name cb) = Ok (tt, s) -> allowed_run l s) ->
  (open n loop ;;; for_each step l) (make loop ipPort name cb) = Ok (tt, s) ->
  wp (destructor (loop_ s)) (fun _ s' => alive s' = false /\ connections_ s' = ∅ /\
    forall c conn, conns s !! c = Some conn ->
      finished (bool_decide (connections_ s !! conn_name conn = Some c)) c conn s s') s.
Proof.
  intros Hn Hip Hl Hs. apply wp_destructor. pose proof (wp_open n loop ipPort name cb Hn Hip) as Ho.
  unfold wpe in Ho. unfold bind in Hs. destruct (open n loop (make loop ipPort name cb)) as [[[] s0]|e] eqn:E; [|done].
  exact (wpe_elim _ _ _ _ _ _ (wp_run l s0 (proj1 Ho) (Hl s0 eq_refl)) Hs).
Qed.
End server.

(** Two loops, 100 and 101, besides the server's loop 7; three connections,
    of which the second is closed by its peer. *)
Definition sample_ops : list op :=
  [Accept 10 zero_addr; Accept 11 zero_addr; Run 101; Accept 12 zero_addr; Run 100; Close 1%nat; Run 7].
Abbreviation sample_server := (make 7 "127.0.0.1:2007" "echo" false).
Abbreviation sample_open := (open (fun i => 100 + i) 2 7).
Abbreviation sample_step := (step (fun _ => zero_addr)).

Lemma sample_allowed s : sample_open sample_server = Ok (tt, s) -> allowed_run (fun _ => zero_addr) sample_ops s.
Proof.
  intros Hs. assert (match sample_open sample_server with
    | Ok (_, s) => allowed_run (fun _ => zero_addr) sample_ops s | Err _ => False end) as G.
  { vm_compute. repeat split; lia. }
  by rewrite Hs in G.
Qed.

Lemma server_lifecycle_witness : exists s,
  (sample_open ;;; for_each sample_step sample_ops) sample_server = Ok (tt, s) /\
  conn_name <$> conns s = ["echo-127.0.0.1:2007#1"; "echo-127.0.0.1:2007#2"; "echo-127.0.0.1:2007#3"]%string /\
  NoDup (conn_name <$> conns s) /\ pending s = [(100, Established 2); (101, Destroyed 1)].
Proof.
  destruct (wp_elim _ _ _ (server_lifecycle (fun i => 100 + i) (fun _ => zero_addr) 2 7 "127.0.0.1:2007" "echo" false
    sample_ops ltac:(lia) ltac:(vm_compute; congruence) sample_allowed)) as ([] & s & E & _ & Hnd).
  assert (match (sample_open ;;; for_each sample_step sample_ops) sample_server with
          | Ok (_, s) => conn_name <$> conns s = ["echo-127.0.0.1:2007#1"; "echo-127.0.0.1:2007#2"; "echo-127.0.0.1:2007#3"]%string /\
              pending s = [(100, Established 2); (101, Destroyed 1)]
          | Err _ => False end) as G by (vm_compute; split; reflexivity).
  rewrite E in G. exists s. split; [exact E|]. split; [apply G|]. split; [exact Hnd|apply G].
Defined.

Lemma destructor_finishes_witness : exists s s',
  (sample_open ;;; for_each sample_step sample_ops) sample_server = Ok (tt, s) /\
  destructor (loop_ s) s = Ok (tt, s') /\
  pending s' = [(100, Established 2); (101, Destroyed 1); (100, Destroyed 0); (100, Destroyed 2)].
Proof.
  assert (match (sample_open ;;; for_each sample_step sample_ops) sample_server with
          | Ok (_, s) => match destructor (loop_ s) s with
                         | Ok (_, s') => pending s' =
                             [(100, Established 2); (101, Destroyed 1); (100, Destroyed 0); (100, Destroyed 2)]
                         | Err _ => False end
          | Err _ => False end) as G by (vm_compute; reflexivity).
  destruct ((sample_open ;;; for_each sample_step sample_ops) sample_server) as [[[] s]|e] eqn:E; [|destruct G].
  destruct (wp_elim _ _ _ (destructor_finishes (fun i => 100 + i) (fun _ => zero_addr) 2 7 "127.0.0.1:2007" "echo" false
    sample_ops s ltac:(lia) ltac:(vm_compute; congruence) sample_allowed E)) as ([] & s' & E' & _).
  exists s, s'. rewrite E' in G. split; [reflexivity|]. split; [exact E'|exact G].
Defined.

(** A close callback that was on its way to the server's loop when the
    server was destroyed calls a member of the dead server. *)
Theorem close_races_destructor :
  (sample_open ;;; for_each sample_step [Accept 10 zero_addr; Run 100; Close 0%nat] ;;; destructor 7 ;;; sample_step (Run 7))
    sample_server = Err Undefined.
Proof. vm_compute. reflexivity. Qed.
End TcpServer.
