(* ===== verification/System.v ===== *)
(** * The server at work (TcpServer.c++, TcpConnection.c++, EventLoop.c++)

    The composition of the components: one [TcpServer], the worlds
    (channels and poller) of its loops, and the [TcpConnection]s, each of
    them in the world of its loop.  What [TcpServer] says it does to a
    connection ([connectEstablished], [connectDestroyed]) is done to it, the
    close callback of a connection is [TcpServer::removeConnection], and a
    turn of a loop polls and hands the returned events to the connections of
    the active channels.  The theorems of the components are applied
    through their contracts: what a step of a connection leaves of the other
    channels of its loop is [Registry.beside]. *)
From S2P Require Import Prelude Channel EPollPoller PollPoller Pollers EventLoop.
From S2P Require Import Text Endian SocketsOps EventLoopThreadPool TcpConnection TcpServer.
#[local] Open Scope Z_scope.

Module System.

(** [cells]: the connections of [TcpServer.conns], each with the address of
    its channel; the [world] in a cell is out of date, the loop has it. *)
Record t (P K : Type) : Type := mk {
  server : TcpServer.t;
  worlds : gmap Z (World P);
  cells : list (Z * TcpConnection.t P K) }.
Arguments mk {P K}.
Arguments server {P K}.
Arguments worlds {P K}.
Arguments cells {P K}.

Section setters.
Context {P K : Type}.
Definition set_server v (s : t P K) : t P K := mk v (worlds s) (cells s).
Definition set_world_of l w (s : t P K) : t P K := mk (server s) (<[l := w]> (worlds s)) (cells s).
Definition add_cell x (s : t P K) : t P K := mk (server s) (worlds s) (cells s ++ [x]).
(** A connection of the loop [l] after a step. *)
Definition put_cell l c ch (k : TcpConnection.t P K) (s : t P K) : t P K :=
  mk (server s) (<[l := TcpConnection.world k]> (worlds s)) (<[c := (ch, k)]> (cells s)).
End setters.

Section operations.
Context {P K : Type} `{Poller P} `{TcpConnection.Socket K}.
Notation C := (TcpConnection.t P K).
Notation T := (t P K).
(** As in the components; [new_address]: where [new Channel] puts it;
    [socket]: the state of an accepted descriptor's socket; the callbacks
    [TcpServer] gives every connection. *)
Context (startLoop : Z -> Z) (getLocalAddr : Z -> sockaddr_in)
  (tie : M C unit) (script : TcpConnection.callback -> C -> list TcpConnection.cmd)
  (new_address : World P -> Z) (socket : Z -> K) (writeComplete highWater : bool).

(** Run [m] on connection [c], whose channel is at the address it is given. *)
Definition on_conn (c : nat) (m : Z -> M C unit) : M T unit :=
  let* s := get in
  match TcpServer.conns (server s) !! c, cells s !! c with
  | Some conn, Some (ch, k) =>
      match worlds s !! TcpServer.conn_loop conn with
      | Some w => zoom (fun _ => TcpConnection.set_world w k) (put_cell (TcpServer.conn_loop conn) c ch) (m ch)
      | None => throw Undefined
      end
  | _, _ => throw Undefined
  end.

(** What the server has just done to connections. *)
Definition perform (x : nat * TcpServer.act) : M T unit :=
  match snd x with
  | TcpServer.ActEstablished => on_conn (fst x) (fun ch => TcpConnection.connectEstablished ch tie script)
  | TcpServer.ActDestroyed => on_conn (fst x) (fun ch => TcpConnection.connectDestroyed ch script)
  | TcpServer.ActClosed => ret tt
  end.

(** A call of the server; [create] is done between the server's part and what
    it does to connections. *)
Definition server_do (m : M TcpServer.t unit) (create : M T unit) : M T unit :=
  let* s := get in
  zoom server set_server m ;;;
  create ;;;
  let* s' := get in
  for_each perform (drop (length (TcpServer.log (server s))) (TcpServer.log (server s'))).
Definition server_step (o : TcpServer.op) (create : M T unit) : M T unit := server_do (TcpServer.step getLocalAddr o) create.

(** [TcpConnectionPtr conn(new TcpConnection(...))] with its channel. *)
Definition create (sockfd : Z) : M T unit :=
  let* s := get in
  match list.last (TcpServer.conns (server s)) with
  | Some conn =>
      let l := TcpServer.conn_loop conn in
      match worlds s !! l with
      | Some w =>
          let ch := new_address w in
          let w' := set_chans (<[ch := TcpConnection.new_channel l sockfd]> (chans w)) w in
          let* k := lift (TcpConnection.make w' (socket sockfd) writeComplete highWater) in
          modify (set_world_of l w') ;;; modify (add_cell (ch, k))
      | None => throw Undefined
      end
  | None => throw Undefined
  end.

Definition closes_of (c : nat) (s : T) : Z :=
  match cells s !! c with Some (_, k) => TcpConnection.closes (TcpConnection.log k) | None => 0 end.

(** A step of connection [c]; its close callback is the server's. *)
Definition conn_step (c : nat) (o : TcpConnection.op) : M T unit :=
  let* s := get in
  on_conn c (fun ch => TcpConnection.step ch tie script o) ;;;
  let* s' := get in
  when (closes_of c s <? closes_of c s') (server_step (TcpServer.Close c) (ret tt)).

(** The connection of the loop [l] whose channel is [ch]. *)
Definition owner (l ch : Z) (s : T) : option nat :=
  fst <$> list_find (fun x : TcpServer.connection * (Z * C) =>
    TcpServer.conn_loop (fst x) = l /\ fst (snd x) = ch) (zip (TcpServer.conns (server s)) (cells s)).

(** [Channel::handleEvent] of an active channel; the loop's own channels
    (wakeup, timers, the acceptor's) are not connections'. *)
Definition handle (l time ch : Z) : M T unit :=
  let* s := get in
  match owner l ch s, worlds s !! l with
  | Some c, Some w =>
      match chans w !! ch with
      | Some x => conn_step c (TcpConnection.OpEvents (revents_ x) time)
      | None => throw Undefined
      end
  | None, Some _ => ret tt
  | _, None => throw Undefined
  end.

(** What the poller of a loop returns: the time and the active channels. *)
Definition poll_world (l : Z) : M T (Z * list Z) :=
  let* s := get in
  match worlds s !! l with
  | Some w => zoom (fun _ => w) (set_world_of l) (poll Reactor.kPollTimeMs)
  | None => throw Undefined
  end.
Definition poll_events (l : Z) : M T unit :=
  let* r := poll_world l in
  for_each (handle l (fst r)) (snd r).

Inductive op : Type :=
| Accept (sockfd : Z) (peerAddr : sockaddr_in)   (* Acceptor::handleRead hands over a connection *)
| Events (loop : Z)                              (* a loop polls and handles the active channels *)
| RunFunctor (loop : Z)                          (* a loop runs its oldest functor of the server *)
| Conn (c : nat) (o : TcpConnection.op).         (* a functor, a timer or a user call of a connection *)

Definition step (o : op) : M T unit :=
  match o with
  | Accept sockfd peerAddr => server_step (TcpServer.Accept sockfd peerAddr) (create sockfd)
  | Events loop => poll_events loop
  | RunFunctor loop => server_step (TcpServer.Run loop) (ret tt)
  | Conn c o => conn_step c o
  end.
End operations.

(** ** The components together *)

Section invariant.
Context {P K : Type} `{PollerSpec P} `{TcpConnection.SocketLaws K}.
Notation C := (TcpConnection.t P K).
Notation T := (t P K).
Context (startLoop : Z -> Z) (getLocalAddr : Z -> sockaddr_in)
  (tie : M C unit) (script : TcpConnection.callback -> C -> list TcpConnection.cmd)
  (new_address : World P -> Z) (socket : Z -> K) (writeComplete highWater : bool).
Hypothesis tie_keeps : forall s, tie s = Ok (tt, s).
Hypothesis script_ok : forall cb s c, c ∈ script cb s -> TcpConnection.cmd_ok (TcpConnection.state_ s) c.
Hypothesis address_fresh : forall w, chans w !! new_address w = None.

Definition gone : list TcpServer.act := [TcpServer.ActEstablished; TcpServer.ActClosed; TcpServer.ActDestroyed].

(** The state of a connection, after what the server did to it. *)
Definition in_state (tr : list TcpServer.act) (ch fd : Z) (k : C) : Prop :=
  match tr with
  | [] => TcpConnection.state_ k = TcpConnection.kConnecting /\
          channels_ (poller (TcpConnection.world k)) !! fd = None
  | [TcpServer.ActEstablished] => TcpConnection.is_open (TcpConnection.state_ k)
  | [TcpServer.ActEstablished; TcpServer.ActClosed] =>
      TcpConnection.state_ k = TcpConnection.kDisconnected /\
      channels_ (poller (TcpConnection.world k)) !! fd = Some ch
  | [TcpServer.ActEstablished; TcpServer.ActClosed; TcpServer.ActDestroyed] =>
      TcpConnection.state_ k = TcpConnection.kDisconnected /\
      channels_ (poller (TcpConnection.world k)) !! fd <> Some ch
  | _ => False
  end.

Record conn_at (c : nat) (conn : TcpServer.connection) (ch : Z) (k : C) (w : World P) (s : T) : Prop := {
  at_conn : TcpServer.conns (server s) !! c = Some conn;
  at_cell : cells s !! c = Some (ch, k);
  at_world : worlds s !! TcpServer.conn_loop conn = Some w }.

Definition conn_ok (tr : list TcpServer.act) (conn : TcpServer.connection) (ch : Z) (k : C) (w : World P) : Prop :=
  TcpConnection.fine ch (TcpServer.conn_fd conn) (TcpConnection.set_world w k) /\
  in_state tr ch (TcpServer.conn_fd conn) (TcpConnection.set_world w k).

(** The descriptors that channels other than connections' may register. *)
Section registered.
Context (others : Z -> Prop).

(** No other connection that is not gone has the descriptor of [c]; [tr]: what
    the server did to each connection. *)
Definition alone_in (tr : nat -> list TcpServer.act) (c : nat) (conn : TcpServer.connection) (s : T) : Prop :=
  forall d dn, d <> c -> TcpServer.conns (server s) !! d = Some dn ->
    TcpServer.conn_fd dn = TcpServer.conn_fd conn -> tr d = gone.
Definition traces (s : T) (c : nat) : list TcpServer.act := TcpServer.trace c (server s).
Definition alone (c : nat) (conn : TcpServer.connection) (s : T) : Prop := alone_in (traces s) c conn s.

(** No two connections of a loop share a channel. *)
Definition apart (conns : list TcpServer.connection) (l : list (Z * C)) : Prop :=
  forall c d cn dn ch dh k k', c <> d -> conns !! c = Some cn -> conns !! d = Some dn -> l !! c = Some (ch, k) ->
    l !! d = Some (dh, k') -> TcpServer.conn_loop cn = TcpServer.conn_loop dn -> ch <> dh.

Lemma apart_snoc conns l conn ch k : length l = length conns -> apart conns l ->
  (forall d dn dh kd, conns !! d = Some dn -> l !! d = Some (dh, kd) -> TcpServer.conn_loop dn = TcpServer.conn_loop conn ->
     dh <> ch) -> apart (conns ++ [conn]) (l ++ [(ch, k)]).
Proof.
  intros Hl Ha Hn c d cn dn ch' dh k1 k2 Hcd Hc Hd Hk1 Hk2 E.
  apply lookup_snoc_Some in Hc as [[Hc1 Hc]|[-> <-]], Hd as [[Hd1 Hd]|[-> <-]]; [..|done].
  - rewrite lookup_app_l in Hk1, Hk2 by lia. by eapply (Ha c d).
  - rewrite lookup_app_l in Hk1 by lia. apply lookup_snoc_Some in Hk2 as [[? _]|[_ [= <- <-]]]; [lia|].
    by eapply (Hn c).
  - rewrite lookup_app_l in Hk2 by lia. apply lookup_snoc_Some in Hk1 as [[? _]|[_ [= <- <-]]]; [lia|].
    apply not_eq_sym. by eapply (Hn d).
Qed.

(** Where a registered channel comes from. *)
Definition owned (conns : list TcpServer.connection) (cs : list (Z * C)) (l fd ch : Z) : Prop :=
  others fd \/ exists c conn k, conns !! c = Some conn /\ cs !! c = Some (ch, k) /\
    TcpServer.conn_loop conn = l /\ TcpServer.conn_fd conn = fd.

Lemma owned_put conns cs c ch k k' l fd dh : cs !! c = Some (ch, k) ->
  owned conns cs l fd dh -> owned conns (<[c := (ch, k')]> cs) l fd dh.
Proof.
  intros Hk [?|(d & dn & kd & Hd & Hkd & ?)]; [by left|right]. destruct (decide (d = c)) as [->|Hne].
  - exists c, dn, k'. split; [done|]. split; [|done]. rewrite Hk in Hkd. injection Hkd as -> _.
    apply list_lookup_insert_eq. by eapply lookup_lt_Some.
  - exists d, dn, kd. by rewrite list_lookup_insert_ne.
Qed.
Lemma owned_snoc conns cs conn x l fd dh : owned conns cs l fd dh -> owned (conns ++ [conn]) (cs ++ [x]) l fd dh.
Proof.
  intros [?|(d & dn & kd & Hd & Hkd & ?)]; [by left|right]. exists d, dn, kd.
  by rewrite !lookup_app_l by (by eapply lookup_lt_Some).
Qed.

(** The connections in the worlds of their loops, those in [X] in the state
    that goes with [tr]. *)
Record placed (tr : nat -> list TcpServer.act) (X : nat -> Prop) (s : T) : Prop := {
  i_length : length (cells s) = length (TcpServer.conns (server s));
  i_worlds : forall l, l ∈ TcpServer.loops (server s) ->
    exists w a, worlds s !! l = Some w /\ Registry.refines a w;
  i_loops : forall c conn, TcpServer.conns (server s) !! c = Some conn ->
    TcpServer.conn_loop conn ∈ TcpServer.loops (server s);
  i_conn : forall c conn ch k w, X c -> conn_at c conn ch k w s -> conn_ok (tr c) conn ch k w;
  i_chans : apart (TcpServer.conns (server s)) (cells s);
  i_alone : forall c conn, TcpServer.conns (server s) !! c = Some conn -> tr c = gone \/ alone_in tr c conn s;
  i_registered : forall l w fd ch, worlds s !! l = Some w -> channels_ (poller w) !! fd = Some ch ->
    owned (TcpServer.conns (server s)) (cells s) l fd ch }.

Record inv_for (X : nat -> Prop) (s : T) : Prop := {
  i_server : TcpServer.inv (server s);
  i_placed : placed (traces s) X s }.
Definition inv : T -> Prop := inv_for (fun _ => True).
Definition inv_but (c : nat) : T -> Prop := inv_for (fun d => d <> c).

Lemma placed_weaken tr (X X' : nat -> Prop) s : placed tr X s -> (forall c, X' c -> X c) -> placed tr X' s.
Proof. intros [I1 I2 I3 I4 I5 I6 I7] HX. constructor; auto. Qed.
Lemma placed_back tr c s : placed tr (fun d => d <> c) s ->
  (forall conn ch k w, conn_at c conn ch k w s -> conn_ok (tr c) conn ch k w) -> placed tr (fun _ => True) s.
Proof.
  intros [I1 I2 I3 I4 I5 I6 I7] Hc. constructor; auto. intros d conn ch k w _. destruct (decide (d = c)) as [->|]; auto.
Qed.
(** What the server did to the connections outside [X'] changes; a
    connection that is gone stays gone. *)
Lemma placed_server tr tr' (X X' : nat -> Prop) s sv' : placed tr X s ->
  TcpServer.loops sv' = TcpServer.loops (server s) -> TcpServer.conns sv' = TcpServer.conns (server s) ->
  (forall c, tr c = gone -> tr' c = gone) -> (forall c, X' c -> X c /\ tr' c = tr c) -> placed tr' X' (set_server sv' s).
Proof.
  intros [I2 I3 I4 I5 I6 I7 I8] Hl Hc Hg HX. constructor; cbn [set_server server cells worlds]; rewrite ?Hc, ?Hl; try done.
  - intros c conn ch k w Hx [D1 D2 D3]. cbn in D1, D2, D3. rewrite Hc in D1. destruct (HX c Hx) as [HXc ->].
    by apply (I5 c conn ch k w).
  - intros c conn Hcc. destruct (I7 c conn Hcc) as [?|Hal]; [left; by apply Hg|right].
    intros d dn Hne Hd Ef. cbn in Hd |- *. rewrite Hc in Hd. by apply Hg, (Hal d dn).
Qed.

(** The same in terms of the server's own record. *)
Lemma inv_conn X s c conn ch k w : inv_for X s -> X c -> conn_at c conn ch k w s ->
  conn_ok (TcpServer.trace c (server s)) conn ch k w.
Proof. intros [_ Hi]. by apply Hi. Qed.
Lemma inv_alone X s c conn : inv_for X s -> TcpServer.conns (server s) !! c = Some conn ->
  TcpServer.trace c (server s) = gone \/ alone c conn s.
Proof. intros [_ Hi]. by apply Hi. Qed.

(** Every connection of the server is somewhere. *)
Lemma conn_at_exists tr X s c conn : placed tr X s -> TcpServer.conns (server s) !! c = Some conn ->
  exists ch k w, conn_at c conn ch k w s.
Proof.
  intros Hi Hc. destruct (lookup_lt_is_Some_2 (cells s) c) as [[ch k] Hk].
  { rewrite (i_length _ _ _ Hi). by eapply lookup_lt_Some. }
  destruct (i_worlds _ _ _ Hi _ (i_loops _ _ _ Hi _ _ Hc)) as (w & a & Hw & _). by exists ch, k, w.
Qed.

Lemma in_state_world tr ch fd w' k :
  (tr = [] -> channels_ (poller (TcpConnection.world k)) !! fd = None -> channels_ (poller w') !! fd = None) ->
  (channels_ (poller (TcpConnection.world k)) !! fd = Some ch <-> channels_ (poller w') !! fd = Some ch) ->
  in_state tr ch fd k -> in_state tr ch fd (TcpConnection.set_world w' k).
Proof.
  intros Hn Hs. destruct tr as [|[] [|[] [|[] [|]]]]; cbn; try done.
  - intros [? ?]. auto.
  - intros [? ?]. split; [done|by apply Hs].
  - intros [? Hn']. split; [done|by rewrite <- Hs].
Qed.

(** A connection while the connection with channel [d] in its loop takes a
    step to [k']. *)
Lemma conn_ok_beside d fd' tr ch fd w (k k0 k' : C) :
  TcpConnection.fine ch fd (TcpConnection.set_world w k) -> in_state tr ch fd (TcpConnection.set_world w k) ->
  d <> ch -> TcpConnection.fine d fd' (TcpConnection.set_world w k0) -> TcpConnection.fine d fd' k' ->
  Registry.beside d w (TcpConnection.world k') -> (tr = [] -> fd' <> fd \/ TcpConnection.world k' = w) ->
  TcpConnection.fine ch fd (TcpConnection.set_world (TcpConnection.world k') k) /\
  in_state tr ch fd (TcpConnection.set_world (TcpConnection.world k') k).
Proof.
  intros Hf Hst Hne [[(a & ev & st & R & Ha & _)] (r & dh & Hdh & _)] [[(a' & ev' & st' & R' & Ha' & _)] _] Hb Hor.
  cbn in R, Ha, Hdh. split.
  - apply (TcpConnection.fine_beside ch fd d _ (TcpConnection.set_world w k)); [done..|by eexists|done].
  - apply (in_state_world tr ch fd _ (TcpConnection.set_world w k)); [..|done]; cbn.
    + intros Htr Hnone. destruct (Hor Htr) as [Hfd| ->]; [|done].
      eapply (Registry.framed_free d w); [apply Hb|exact R|exact Ha|exact R'|exact Ha'| |]; done.
    + eapply Registry.framed_registered; [apply Hb|exact R|exact Ha|done].
Qed.

(** ** One connection takes a step *)

Lemma wpe_on_conn tr c m conn ch k w s (Q : C -> Prop) : placed tr (fun d => d <> c) s -> conn_at c conn ch k w s ->
  TcpConnection.fine ch (TcpServer.conn_fd conn) (TcpConnection.set_world w k) ->
  wpe TcpConnection.external (m ch) (fun _ k' =>
    TcpConnection.fine ch (TcpServer.conn_fd conn) k' /\ Registry.beside ch w (TcpConnection.world k') /\
    (alone_in tr c conn s \/ TcpConnection.world k' = w) /\ Q k') (TcpConnection.set_world w k) ->
  wpe TcpConnection.external (on_conn c m) (fun _ s' => placed tr (fun d => d <> c) s' /\
    exists k', s' = put_cell (TcpServer.conn_loop conn) c ch k' s /\
      conn_at c conn ch k' (TcpConnection.world k') s' /\ TcpConnection.fine ch (TcpServer.conn_fd conn) k' /\
      Registry.beside ch w (TcpConnection.world k') /\ Q k') s.
Proof.
  intros Hi [Hc Hk Hw] Hf Hm. unfold on_conn. wp_steps. rewrite Hc, Hk, Hw. apply wpe_zoom.
  eapply wpe_mono; [exact Hm|]. cbn beta. intros _ k' (Hf' & Hb & Hal & HQ). split.
  2: { exists k'. split; [done|]. split; [|done]. constructor; cbn; [done| |by rewrite lookup_insert_eq].
       apply list_lookup_insert_eq. by eapply lookup_lt_Some. }
  pose proof Hi as [I2 I3 I4 I5 I6 I7 I8].
  assert (forall d dh kd, <[c := (ch, k')]> (cells s) !! d = Some (dh, kd) -> exists kd0, cells s !! d = Some (dh, kd0)) as Hcell.
  { intros d dh kd. rewrite list_lookup_insert_Some. intros [(<- & [= <- <-] & _)|[_ ?]]; eauto. }
  constructor; cbn [put_cell server cells worlds]; try done.
  - by rewrite length_insert.
  - intros l Hl. rewrite lookup_insert. case_decide; [|auto]. subst l.
    destruct Hf' as [[(a & ? & ? & R & _)] _]. by exists (TcpConnection.world k'), a.
  - intros d dn dh kd wd Hne [D1 D2 D3]. cbn in D1, D2, D3. unfold conn_ok.
    rewrite list_lookup_insert_ne in D2 by done. rewrite lookup_insert in D3. case_decide as El.
    + injection D3 as <-. assert (worlds s !! TcpServer.conn_loop dn = Some w) as D3 by congruence.
      destruct (I5 d dn dh kd w Hne) as [Hfd Hsd]; [by constructor|].
      apply (conn_ok_beside ch (TcpServer.conn_fd conn) _ dh _ w kd k k'); try done.
      * by apply (I6 c d conn dn ch dh k kd).
      * intros Htr. destruct Hal as [Hal|?]; [left|by right]. intros E. rewrite (Hal d dn) in Htr; done.
    + by apply (I5 d dn dh kd wd).
  - intros d e dn en dh eh kd ke Hne Hd He Hkd Hke. destruct (Hcell _ _ _ Hkd), (Hcell _ _ _ Hke). by eapply I6.
  - intros l w1 fd1 dh Hl Hd. rewrite lookup_insert in Hl. case_decide as El; [|by eapply owned_put, I8]. injection Hl as <-. subst l.
    destruct (decide (dh = ch)) as [->|Hne].
    + right. exists c, conn, k'. split; [done|]. split; [apply list_lookup_insert_eq; by eapply lookup_lt_Some|]. split; [done|].
      destruct Hf' as [[(a & ev & st & R & Ha & _)] _]. apply (Registry.refines_registered _ _ _ _ R) in Hd as (z & Hz & <- & _).
      rewrite Ha in Hz. by injection Hz as <-.
    + destruct Hf as [[(a & ev & st & R & Ha & _)] _]. apply (owned_put _ _ _ _ k), (I8 _ w); [done..|].
      by apply (Registry.framed_registered ch dh w (TcpConnection.world k') a _ fd1 (proj1 Hb) R Ha Hne).
Qed.

Lemma set_world_id (k : C) : TcpConnection.set_world (TcpConnection.world k) k = k.
Proof. by destruct k. Qed.

(** The connection left alone is as it should be. *)
Lemma conn_back tr c conn ch k s : placed tr (fun d => d <> c) s -> conn_at c conn ch k (TcpConnection.world k) s ->
  TcpConnection.fine ch (TcpServer.conn_fd conn) k -> in_state (tr c) ch (TcpServer.conn_fd conn) k ->
  placed tr (fun _ => True) s.
Proof.
  intros Hi [A1 A2 A3] Hf Hst. apply (placed_back tr c); [done|]. intros conn' ch' k' w' [B1 B2 B3].
  assert (conn' = conn /\ ch' = ch /\ k' = k) as (-> & -> & ->) by (split; [congruence|split; congruence]).
  rewrite A3 in B3. injection B3 as <-. unfold conn_ok.
  by rewrite set_world_id.
Qed.
Lemma inv_conn_back c conn ch k s : inv_but c s -> conn_at c conn ch k (TcpConnection.world k) s ->
  TcpConnection.fine ch (TcpServer.conn_fd conn) k ->
  in_state (TcpServer.trace c (server s)) ch (TcpServer.conn_fd conn) k -> inv s.
Proof. intros [I1 I2] Hat Hf Hst. constructor; [done|]. by eapply conn_back. Qed.

(** ** The server takes a step *)

Lemma trace_phase c sv : TcpServer.inv sv -> exists p, TcpServer.trace c sv = TcpServer.phase_trace p.
Proof.
  intros Hi. pose proof (TcpServer.inv_phase _ _ Hi c I) as Hp. unfold TcpServer.phase_ok in Hp.
  destruct (TcpServer.conns sv !! c); [destruct Hp as (p & ? & _); by exists p|]. destruct Hp. by exists TcpServer.Connecting.
Qed.

Lemma trace_grows sv sv' new c : TcpServer.log sv' = TcpServer.log sv ++ new ->
  TcpServer.trace c sv' = TcpServer.trace c sv ++ omap (fun x => if decide (fst x = c) then Some (snd x) else None) new.
Proof. unfold TcpServer.trace. intros ->. apply omap_app. Qed.

Lemma trace_none c (new : list (nat * TcpServer.act)) : c ∉ fst <$> new ->
  omap (fun x => if decide (fst x = c) then Some (snd x) else None) new = [].
Proof.
  intros Hnew. induction new as [|[d a] new IH]; [done|]. cbn in Hnew |- *.
  apply not_elem_of_cons in Hnew as [Hcd Hnew]. rewrite decide_False by done. by apply IH.
Qed.

Lemma gone_stays sv sv' new c : TcpServer.inv sv' -> TcpServer.log sv' = TcpServer.log sv ++ new ->
  TcpServer.trace c sv = gone -> TcpServer.trace c sv' = gone.
Proof.
  intros Hi Hl Hg. destruct (trace_phase c sv' Hi) as [p Hp]. rewrite (trace_grows _ _ _ _ Hl), Hg in Hp |- *.
  destruct p; cbn in Hp; try discriminate Hp. injection Hp as Hp. by rewrite Hp.
Qed.

(** The server's part of a step that makes no connection; the connections in
    [X'] are those it does nothing to. *)
Lemma inv_set_server X (X' : nat -> Prop) s sv' new : inv_for X s -> TcpServer.inv sv' ->
  TcpServer.loops sv' = TcpServer.loops (server s) -> TcpServer.conns sv' = TcpServer.conns (server s) ->
  TcpServer.log sv' = TcpServer.log (server s) ++ new -> (forall c, X' c -> X c /\ c ∉ fst <$> new) ->
  inv_for X' (set_server sv' s).
Proof.
  intros [_ Hi] Hsv Hl Hc Hlog HX. constructor; [done|]. apply (placed_server (traces s) _ X); [done..| |].
  - intros c. by eapply gone_stays.
  - intros c [Hx Hnew]%HX. split; [done|]. unfold traces. cbn [server set_server].
    by rewrite (trace_grows _ _ _ c Hlog), trace_none, app_nil_r by done.
Qed.

(** What the server does to a connection, and what is done then. *)
Definition done_to (a : TcpServer.act) (tr tr' : list TcpServer.act) (k : C) : Prop :=
  match a with
  | TcpServer.ActEstablished => tr = [] /\ tr' = [TcpServer.ActEstablished]
  | TcpServer.ActClosed => False
  | TcpServer.ActDestroyed => tr' = gone /\ (tr = [TcpServer.ActEstablished; TcpServer.ActClosed] \/
      tr = [TcpServer.ActEstablished] /\ TcpConnection.state_ k = TcpConnection.kConnected)
  end.

Lemma wpe_perform_placed tr c a conn ch k w tr0 s : placed tr (fun d => d <> c) s -> conn_at c conn ch k w s ->
  alone_in tr c conn s -> conn_ok tr0 conn ch k w -> done_to a tr0 (tr c) k ->
  wpe TcpConnection.external (perform tie script (c, a)) (fun _ s' => placed tr (fun _ => True) s' /\
    exists k', s' = put_cell (TcpServer.conn_loop conn) c ch k' s) s.
Proof.
  intros Hi Hat Hal [Hf Hst] Hd.
  assert (forall m : Z -> M C unit, wpe TcpConnection.external (m ch) (fun _ k' =>
      TcpConnection.fine ch (TcpServer.conn_fd conn) k' /\ Registry.stable ch w (TcpConnection.world k') /\
      in_state (tr c) ch (TcpServer.conn_fd conn) k') (TcpConnection.set_world w k) ->
    wpe TcpConnection.external (on_conn c m) (fun _ s' => placed tr (fun _ => True) s' /\
      exists k', s' = put_cell (TcpServer.conn_loop conn) c ch k' s) s) as Hgo.
  { intros m Hm. eapply wpe_mono; [apply (wpe_on_conn tr c m conn ch k w s
      (in_state (tr c) ch (TcpServer.conn_fd conn))); [done..|]|].
    - eapply wpe_mono; [exact Hm|]. cbn. intros _ k' (? & ? & ?). split; [done|].
      split; [by apply Registry.stable_beside|]. split; [by left|done].
    - cbn beta. intros _ s' (Hi' & k' & -> & Hat' & Hf' & _ & Hst'). split; [by eapply conn_back|by exists k']. }
  unfold perform. destruct a; cbn [snd fst done_to] in *; [|done|].
  - destruct Hd as [-> Htr], Hst as [Hs Hfree]. rewrite Htr in Hgo.
    apply (Hgo (fun ch => TcpConnection.connectEstablished ch tie script)).
    eapply wpe_mono; [by apply TcpConnection.wpe_connectEstablished|]. cbn beta. by intros _ k' (? & ? & ? & _).
  - destruct Hd as [Htr Hd]. rewrite Htr in Hgo. apply (Hgo (fun ch => TcpConnection.connectDestroyed ch script)).
    eapply wpe_mono; [apply (TcpConnection.wpe_connectDestroyed ch (TcpServer.conn_fd conn) tie); [done..|]|].
    + destruct Hd as [-> |[-> ?]]; [by right|by left].
    + cbn beta. by intros _ k' (? & ? & ? & _ & ?).
Qed.

Lemma wpe_perform c a conn ch k w tr s : inv_but c s -> conn_at c conn ch k w s -> alone c conn s ->
  conn_ok tr conn ch k w -> TcpServer.trace c (server s) = tr ++ [a] -> a <> TcpServer.ActClosed ->
  wpe TcpConnection.external (perform tie script (c, a)) (fun _ => inv) s.
Proof.
  intros [I1 I2] Hat Hal Hok Htr Ha. destruct (trace_phase c _ I1) as [p Hp]. rewrite Htr in Hp.
  eapply wpe_mono; [apply (wpe_perform_placed (traces s) c a conn ch k w tr); [done..|]|].
  - unfold traces. rewrite Htr. destruct a, p; cbn in Hp; try done;
      repeat (destruct tr as [|? tr]; cbn in Hp; try discriminate Hp; try (injection Hp as -> Hp); try done).
    by split; [|left].
  - cbn beta. intros _ s' [Hi' [k' ->]]. by constructor.
Qed.

Lemma drop_app_log {A} (l k m : list A) : m = l ++ k -> drop (length l) m = k.
Proof. intros ->. apply drop_app_length. Qed.

(** A loop runs a functor of the server. *)
Lemma wpe_server_run l s : inv s ->
  wpe TcpConnection.external (server_step getLocalAddr tie script (TcpServer.Run l) (ret tt)) (fun _ => inv) s.
Proof.
  intros Hi. unfold server_step, server_do. wp_steps. apply wpe_zoom. apply (wpe_weaken (fun _ => False)); [|intros ? []].
  eapply wpe_mono; [by apply (TcpServer.wp_step_framed startLoop); [apply Hi|]|].
  cbn beta. intros _ sv' (Hsv & Hl & Hc & Hlog). wp_steps. cbn [server set_server].
  destruct Hlog as [Hlog|(c & a & Hlog & Ha)].
  - rewrite Hlog, drop_all. cbn [for_each]. wp_steps. eapply (inv_set_server _ _ s sv' []); try done.
    + by rewrite app_nil_r.
    + intros c _. split; [done|]. by apply not_elem_of_nil.
  - rewrite (drop_app_log _ _ _ Hlog). cbn [for_each]. wp_steps.
    pose proof (trace_grows _ _ _ c Hlog) as Htr. cbn in Htr. rewrite decide_True in Htr by done. cbn in Htr.
    destruct (TcpServer.conns (server s) !! c) as [conn|] eqn:Ec.
    2: { exfalso. pose proof (TcpServer.inv_phase _ _ Hsv c I) as Hp. unfold TcpServer.phase_ok in Hp.
         rewrite Hc, Ec in Hp. destruct Hp as [Hp _]. rewrite Htr in Hp. by apply app_eq_nil in Hp as [_ ?]. }
    destruct (conn_at_exists _ _ s c conn (i_placed _ _ Hi) Ec) as (ch & k & w & Hat).
    destruct (inv_conn _ _ _ _ _ _ _ Hi I Hat) as [Hf Hst].
    assert (inv_but c (set_server sv' s)) as Hi'.
    { eapply (inv_set_server _ _ s sv' [(c, a)]); try done. intros d Hd. split; [done|]. cbn. set_solver. }
    eapply wpe_mono; [eapply (wpe_perform c a conn ch k w); [done| | |by split|exact Htr|done]|].
    + destruct Hat. constructor; cbn; congruence.
    + destruct (inv_alone _ _ c conn Hi Ec) as [Hg|Hal].
      * destruct (trace_phase c sv' Hsv) as [p Hp]. rewrite Htr, Hg in Hp. by destruct p.
      * intros d dn Hne Hd Ef. cbn in Hd |- *. rewrite Hc in Hd. eapply gone_stays; [done|exact Hlog|]. by apply (Hal d dn).
    + cbn. intros _ s' ?. by wp_steps.
Qed.

(** ** A connection takes a step *)

(** What a step of connection [c] leaves of the rest. *)
Definition around (c : nat) (conn : TcpServer.connection) (ch : Z) (w : World P) (s s' : T) : Prop :=
  TcpServer.conns (server s') = TcpServer.conns (server s) /\ TcpServer.loops (server s') = TcpServer.loops (server s) /\
  (forall d, d <> c -> cells s' !! d = cells s !! d) /\ (exists k', cells s' !! c = Some (ch, k')) /\
  exists w', worlds s' = <[TcpServer.conn_loop conn := w']> (worlds s) /\ Registry.beside ch w w'.

(** The close callback of a connection that has just gone down. *)
Lemma wpe_server_close c conn ch k s : inv_but c s -> conn_at c conn ch k (TcpConnection.world k) s -> alone c conn s ->
  TcpConnection.fine ch (TcpServer.conn_fd conn) k -> TcpServer.trace c (server s) = [TcpServer.ActEstablished] ->
  TcpConnection.state_ k = TcpConnection.kDisconnected ->
  channels_ (poller (TcpConnection.world k)) !! TcpServer.conn_fd conn = Some ch ->
  wpe TcpConnection.external (server_step getLocalAddr tie script (TcpServer.Close c) (ret tt)) (fun _ s' => inv s' /\
    exists sv', s' = set_server sv' s /\ TcpServer.conns sv' = TcpServer.conns (server s) /\
      TcpServer.loops sv' = TcpServer.loops (server s)) s.
Proof.
  intros Hi Hat Hal Hf Htr Hst Hreg. unfold server_step, server_do. wp_steps. apply wpe_zoom.
  apply (wpe_weaken (fun _ => False)); [|intros ? []].
  eapply wpe_mono; [apply (TcpServer.wp_step_framed startLoop); [apply Hi|]|].
  { split; [eapply lookup_lt_Some, Hat|exact Htr]. }
  cbn beta. intros _ sv' (Hsv & Hl & Hc & Hlog). wp_steps. cbn [server set_server].
  rewrite (drop_app_log _ _ _ Hlog). cbn [for_each perform snd]. wp_steps.
  split; [|by exists sv']. apply (inv_conn_back c conn ch k).
  - eapply (inv_set_server _ _ s sv' [(c, TcpServer.ActClosed)]); try done. intros d Hd. split; [done|]. cbn. set_solver.
  - destruct Hat. constructor; cbn; congruence.
  - done.
  - cbn. pose proof (trace_grows _ _ _ c Hlog) as Hg. cbn in Hg. rewrite decide_True in Hg by done.
    rewrite Hg, Htr. cbn. done.
Qed.

(** A step between establishment and destruction keeps the state that goes
    with the phase, or closes the connection. *)
Lemma advanced_cases tr ch fd (k k' : C) : TcpConnection.fine ch fd k -> TcpConnection.fine ch fd k' ->
  TcpConnection.advanced ch fd k k' -> in_state tr ch fd k ->
  TcpConnection.closes (TcpConnection.log k') = TcpConnection.closes (TcpConnection.log k) /\ in_state tr ch fd k' \/
  tr = [TcpServer.ActEstablished] /\
    TcpConnection.closes (TcpConnection.log k) < TcpConnection.closes (TcpConnection.log k') /\
    TcpConnection.state_ k' = TcpConnection.kDisconnected /\ channels_ (poller (TcpConnection.world k')) !! fd = Some ch.
Proof.
  intros Hf Hf' (_ & A2 & A3 & A4) Hst.
  assert (forall j : C, TcpConnection.fine ch fd j -> TcpConnection.state_ j <> TcpConnection.kDisconnected ->
    TcpConnection.closes (TcpConnection.log j) = 0) as Hz by (intros j [Hj _]; by apply (TcpConnection.closes_open ch fd)).
  destruct tr as [|[] [|[] [|[] [|]]]]; cbn in Hst |- *; try done.
  - destruct Hst as [Hs Hfree]. destruct (A2 Hs) as [Hs' Hw']. left. rewrite !Hz; [|done|by rewrite Hs|done|by rewrite Hs'].
    by rewrite Hw'.
  - assert (TcpConnection.state_ k <> TcpConnection.kDisconnected) as Hnd by (by destruct Hst as [-> | ->]).
    destruct (A3 Hst) as [[Ho Hcl]|(Hd & Hcl & Hreg)]; [left; by rewrite Hcl|right]. rewrite Hcl, (Hz k Hf Hnd). split; [done|].
    split; [lia|done].
  - destruct Hst as [Hst Hr]. destruct (A4 Hst) as (B1 & B2 & B3). left. by rewrite B2, B3.
  - destruct Hst as [Hst Hr]. destruct (A4 Hst) as (B1 & B2 & B3). left. by rewrite B2, B3.
Qed.

(** The connection itself, before the server hears of it. *)
Lemma wpe_conn_runs tr c conn ch k w o s : placed tr (fun _ => True) s -> conn_at c conn ch k w s ->
  TcpConnection.allowed ch (TcpServer.conn_fd conn) o (TcpConnection.set_world w k) ->
  o <> TcpConnection.OpEstablish -> o <> TcpConnection.OpDestroy ->
  wpe TcpConnection.external (on_conn c (fun ch => TcpConnection.step ch tie script o)) (fun _ s' =>
    placed tr (fun d => d <> c) s' /\
    exists k', s' = put_cell (TcpServer.conn_loop conn) c ch k' s /\
      conn_at c conn ch k' (TcpConnection.world k') s' /\ TcpConnection.fine ch (TcpServer.conn_fd conn) k' /\
      Registry.beside ch w (TcpConnection.world k') /\
      TcpConnection.advanced ch (TcpServer.conn_fd conn) (TcpConnection.set_world w k) k') s.
Proof.
  intros Hi Hat Ha Hne Hnd. destruct (i_conn _ _ _ Hi _ _ _ _ _ I Hat) as [Hf Hst].
  apply (wpe_on_conn tr c _ conn ch k w s (TcpConnection.advanced ch (TcpServer.conn_fd conn) (TcpConnection.set_world w k)));
    [by eapply placed_weaken|done..|].
  eapply wpe_mono; [by apply TcpConnection.wpe_step_advanced|]. cbn beta. intros _ k' (Hf' & Had).
  split; [done|]. split; [apply Had|]. split; [|done].
  destruct (i_alone _ _ _ Hi c conn (at_conn _ _ _ _ _ _ Hat)) as [Hg|?]; [right|by left].
  rewrite Hg in Hst. destruct Hst. by apply Had.
Qed.

Lemma closes_of_at c conn ch k w s : conn_at c conn ch k w s -> closes_of c s = TcpConnection.closes (TcpConnection.log k).
Proof. intros Hat. unfold closes_of. by rewrite (at_cell _ _ _ _ _ _ Hat). Qed.

Lemma wpe_conn_step c conn ch k w o s : inv s -> conn_at c conn ch k w s ->
  TcpConnection.allowed ch (TcpServer.conn_fd conn) o (TcpConnection.set_world w k) ->
  o <> TcpConnection.OpEstablish -> o <> TcpConnection.OpDestroy ->
  wpe TcpConnection.external (conn_step getLocalAddr tie script c o) (fun _ s' => inv s' /\ around c conn ch w s s') s.
Proof.
  intros Hi Hat Ha Hne Hnd. destruct (inv_conn _ _ _ _ _ _ _ Hi I Hat) as [Hf Hst]. unfold conn_step. wp_steps.
  eapply wpe_mono; [by apply (wpe_conn_runs (traces s) c conn ch k w); [apply Hi|..]|].
  cbn beta. intros _ s1 (Hi1' & k' & -> & Hat1 & Hf1 & Hb & Had). wp_steps.
  set (s1 := put_cell (TcpServer.conn_loop conn) c ch k' s) in *.
  assert (around c conn ch w s s1) as Har.
  { split; [done|]. split; [done|]. split; [intros d Hd; by apply list_lookup_insert_ne|].
    split; [exists k'; apply Hat1|]. by exists (TcpConnection.world k'). }
  assert (inv_but c s1) as Hi1 by (constructor; [apply Hi|exact Hi1']).
  rewrite (closes_of_at _ _ _ _ _ _ Hat), (closes_of_at _ _ _ _ _ _ Hat1).
  destruct (advanced_cases _ _ _ _ _ Hf Hf1 Had Hst) as [[Ec Hst1]|(Etr & Hlt & Hd & Hreg)].
  - cbn in Ec. rewrite Ec, Z.ltb_irrefl. cbn [when]. wp_steps. split; [|done]. by apply (inv_conn_back c conn ch k').
  - cbn in Hlt. rewrite (proj2 (Z.ltb_lt _ _)) by done. cbn [when].
    eapply wpe_mono; [apply (wpe_server_close c conn ch k' s1); try done|].
    + destruct (inv_alone _ _ c conn Hi (at_conn _ _ _ _ _ _ Hat)) as [Hg|?]; [by rewrite Etr in Hg|done].
    + cbn beta. intros _ s' (Hi' & sv' & -> & Hc & Hl). split; [done|]. destruct Har as (R1 & R2 & R3 & R4 & R5).
      split; [exact Hc|]. split; [exact Hl|]. done.
Qed.

(** ** A new connection *)

(** A descriptor that accept(2) can return: no channel has it, and the
    connections that had it are gone. *)
Definition fd_free (fd : Z) (s : T) : Prop :=
  (forall l w, worlds s !! l = Some w -> channels_ (poller w) !! fd = None) /\
  (forall c conn, TcpServer.conns (server s) !! c = Some conn -> TcpServer.conn_fd conn = fd ->
     TcpServer.trace c (server s) = gone).

(** The new connection is the last one; all that is about it is in [create]. *)
Record created (sv' : TcpServer.t) (c : nat) (conn : TcpServer.connection) (ch : Z) (k : C) (s' : T) : Prop := {
  cr_inv : inv_but c s';
  cr_server : server s' = sv';
  cr_at : conn_at c conn ch k (TcpConnection.world k) s';
  cr_alone : alone c conn s';
  cr_fine : TcpConnection.fine ch (TcpServer.conn_fd conn) k;
  cr_state : in_state [] ch (TcpServer.conn_fd conn) k }.

(** A connection just made, with its channel. *)
Lemma made_new a w ch l fd k : Registry.refines a w -> chans w !! ch = None -> 0 <= fd < INT_MAX -> channels_ (poller w) !! fd = None ->
  let w' := set_chans (<[ch := TcpConnection.new_channel l fd]> (chans w)) w in
  TcpConnection.make w' (socket fd) writeComplete highWater = Ok k ->
  Registry.refines (<[ch := Registry.AChan fd 0 Registry.Fresh]> a) w' /\ TcpConnection.world k = w' /\
  TcpConnection.state_ k = TcpConnection.kConnecting /\ TcpConnection.fine ch fd k.
Proof.
  intros R Hch Hfd Hfree w' Hk.
  pose proof (Registry.refines_new a w ch (TcpConnection.new_channel l fd) fd R Hch eq_refl eq_refl eq_refl Hfd Hfree) as R'.
  split; [exact R'|]. assert (TcpConnection.world k = w' /\ TcpConnection.state_ k = TcpConnection.kConnecting) as [? ?].
  { unfold TcpConnection.make in Hk. destruct (Buffer.Buffer.make _); [|done]. by injection Hk as <-. }
  split; [done|]. split; [done|]. eapply TcpConnection.constructed_fine.
  exists (<[ch := Registry.AChan fd 0 Registry.Fresh]> a), w', (socket fd), writeComplete, highWater, l.
  split; [done|]. split; [done|]. split; [apply lookup_insert_eq|]. cbn. apply lookup_insert_eq.
Qed.

(** The traces [T] before and [T'] after: a new connection under a descriptor
    whose connections are gone. *)
Lemma alone_snoc conns conn (T T' : nat -> list TcpServer.act) : (forall d, d <> length conns -> T' d = T d) ->
  let others_gone l (U : nat -> list TcpServer.act) d dn := forall e en, e <> d -> l !! e = Some en ->
    TcpServer.conn_fd en = TcpServer.conn_fd dn -> U e = gone in
  (forall d dn, conns !! d = Some dn -> TcpServer.conn_fd dn = TcpServer.conn_fd conn -> T d = gone) ->
  (forall d dn, conns !! d = Some dn -> T d = gone \/ others_gone conns T d dn) ->
  forall d dn, (conns ++ [conn]) !! d = Some dn -> T' d = gone \/ others_gone (conns ++ [conn]) T' d dn.
Proof.
  intros HT others_gone Hfd Hal d dn Hd. unfold others_gone in *. apply lookup_snoc_Some in Hd as [[Hlt Hd]|[-> ->]].
  - rewrite HT by lia. destruct (decide (TcpServer.conn_fd dn = TcpServer.conn_fd conn)) as [E|E]; [left; by apply (Hfd d dn)|].
    destruct (Hal d dn Hd) as [?|Hdn]; [by left|right]. intros e en He Hen Ef.
    apply lookup_snoc_Some in Hen as [[Hlt' Hen]|[_ <-]]; [|by destruct E]. rewrite HT by lia. by apply (Hdn e en).
  - right. intros e en He Hen Ef. apply lookup_snoc_Some in Hen as [[Hlt' Hen]|[-> _]]; [|done].
    rewrite HT by lia. by apply (Hfd e en).
Qed.

Lemma inv_created s sv' new conn ch k w : inv s -> TcpServer.inv sv' ->
  TcpServer.loops sv' = TcpServer.loops (server s) -> TcpServer.conns sv' = TcpServer.conns (server s) ++ [conn] ->
  TcpServer.log sv' = TcpServer.log (server s) ++ new -> (forall d, d <> length (TcpServer.conns (server s)) -> d ∉ fst <$> new) ->
  TcpServer.conn_loop conn ∈ TcpServer.loops (server s) -> fd_free (TcpServer.conn_fd conn) s ->
  0 <= TcpServer.conn_fd conn < INT_MAX -> worlds s !! TcpServer.conn_loop conn = Some w -> chans w !! ch = None ->
  let l := TcpServer.conn_loop conn in
  let w' := set_chans (<[ch := TcpConnection.new_channel l (TcpServer.conn_fd conn)]> (chans w)) w in
  TcpConnection.make w' (socket (TcpServer.conn_fd conn)) writeComplete highWater = Ok k ->
  created sv' (length (TcpServer.conns (server s))) conn ch k (mk sv' (<[l := w']> (worlds s)) (cells s ++ [(ch, k)])).
Proof.
  intros Hi Hsv Hl Hc Hlog Hnew Hcl [Hfree Hgone] Hfd Hw Hch l w' Hk. set (c := length _) in *. set (fd := TcpServer.conn_fd conn) in *.
  change (worlds s !! l = Some w) in Hw. change (l ∈ TcpServer.loops (server s)) in Hcl.
  pose proof Hi as [I1 [I2 I3 I4 I5 I6 I7 I8]].
  assert (exists a, Registry.refines a w) as [a R] by (destruct (I3 l Hcl) as (w0 & a & Hw0 & R); exists a; congruence).
  destruct (made_new a w ch l fd k R Hch Hfd (Hfree l w Hw) Hk) as (R' & Hkw & Hks & Hf). fold w' in R', Hkw.
  assert (forall d, d <> c -> TcpServer.trace d sv' = TcpServer.trace d (server s)) as Htr.
  { intros d Hd. rewrite (trace_grows _ _ _ d Hlog), trace_none by (by apply Hnew). by rewrite app_nil_r. }
  assert (forall d dn, d <> c -> TcpServer.conns sv' !! d = Some dn -> TcpServer.conns (server s) !! d = Some dn) as Hold.
  { intros d dn Hd. rewrite Hc. intros [[_ ?]|[? _]]%lookup_snoc_Some; done. }
  assert (TcpServer.conns sv' !! c = Some conn) as Hcc by (rewrite Hc; apply lookup_snoc_Some; by right).
  assert (length (cells s) = c) as Hcells by exact I2.
  constructor; try done; cbn [server].
  2: { constructor; cbn; [done| |by rewrite lookup_insert_eq, Hkw]. apply lookup_snoc_Some. right. by rewrite Hcells. }
  2: { intros d dn Hd Hdn E. unfold traces. cbn [server] in *. rewrite Htr by done. by apply (Hgone d dn); [apply Hold|]. }
  2: { split; [done|]. rewrite Hkw. by apply (Hfree l w). }
  constructor; [done|]. constructor; cbn [server cells worlds]; try done.
  - rewrite Hc, !length_app. cbn. lia.
  - intros l' Hl'. rewrite Hl in Hl'. rewrite lookup_insert. case_decide; [|auto]. by exists w', (<[ch := Registry.AChan fd 0 Registry.Fresh]> a).
  - intros d dn Hdn. rewrite Hl. destruct (decide (d = c)) as [->|Hd]; [|by eapply I4, Hold].
    rewrite Hcc in Hdn. by injection Hdn as <-.
  - intros d dn dh kd wd Hd [D1 D2 D3]. cbn in D1, D2, D3. apply Hold in D1; [|done].
    apply lookup_snoc_Some in D2 as [[_ D2]|[D2 _]]; [|by rewrite Hcells in D2]. unfold conn_ok, traces. cbn [server]. rewrite Htr by done.
    rewrite lookup_insert in D3. case_decide as El.
    + injection D3 as <-. destruct (I5 d dn dh kd w I) as [Hfd' Hsd']; [by constructor; [..|rewrite <- El]|]. split.
      * by apply (TcpConnection.fine_new dh (TcpServer.conn_fd dn) ch (TcpConnection.new_channel l fd) fd (TcpConnection.set_world w kd));
          try done; apply (Hfree l).
      * by apply (in_state_world _ _ _ w' (TcpConnection.set_world w kd)).
    + apply (I5 d dn dh kd wd I). by constructor.
  - rewrite Hc. apply apart_snoc; [done..|]. intros d dn dh kd Hdn Hkd El ->.
    destruct (I5 d dn ch kd w I) as [[_ (r & x & Hx & _)] _]; [by constructor; [..|rewrite El]|]. cbn in Hx. congruence.
  - unfold alone_in, traces. cbn [server]. rewrite Hc.
    apply (alone_snoc _ conn (fun d => TcpServer.trace d (server s)) (fun d => TcpServer.trace d sv') Htr Hgone I7).
  - intros l' w1 fd1 dh Hl' Hd. rewrite Hc. apply owned_snoc. rewrite lookup_insert in Hl'.
    case_decide as El; [|by apply (I8 l' w1)]. injection Hl' as <-. subst l'. by apply (I8 l w).
Qed.

Notation sys_step := (step getLocalAddr tie script new_address socket writeComplete highWater).

Lemma make_ok (w : World P) k : exists c : C, TcpConnection.make w k writeComplete highWater = Ok c.
Proof.
  unfold TcpConnection.make. assert (exists b, Buffer.Buffer.make Buffer.Buffer.kInitialSize = Ok b) as [b ->]
    by (eexists; vm_compute; reflexivity). by eexists.
Qed.

Lemma wpe_accept fd peer s : inv s -> TcpServer.nextConnId_ (server s) < 2 ^ 31 - 1 -> 0 <= fd < INT_MAX -> fd_free fd s ->
  wpe TcpConnection.external (sys_step (Accept fd peer)) (fun _ => inv) s.
Proof.
  intros Hi Hid Hfd Hfree. cbn [step]. unfold server_step, server_do. wp_steps. apply wpe_zoom.
  apply (wpe_weaken (fun _ => False)); [|intros ? []].
  eapply wpe_mono; [by apply (TcpServer.wp_step_framed startLoop); [apply Hi|]|].
  cbn beta. intros _ sv' (Hsv & Hl & conn & Hc & Ef & Hcl & Hlog). subst fd.
  assert (exists new, TcpServer.log sv' = TcpServer.log (server s) ++ new /\
    (new = [] \/ new = [(length (TcpServer.conns (server s)), TcpServer.ActEstablished)])) as (new & Hlog' & Hnew).
  { destruct Hlog as [E|E]; rewrite E; [exists []; rewrite app_nil_r|eexists; split; [done|]]; eauto. }
  clear Hlog. wp_steps. unfold create. wp_steps. cbn [server set_server]. rewrite Hc, list.last_snoc.
  destruct (i_worlds _ _ _ (i_placed _ _ Hi) _ Hcl) as (w & a & Hw & _). cbn [worlds set_server]. rewrite Hw. wp_steps.
  set (w' := set_chans _ w). destruct (make_ok w' (socket (TcpServer.conn_fd conn))) as [k Hk].
  apply wpe_lift; rewrite Hk; [|done]. intros ? [= <-]. wp_steps. cbn [server set_server].
  assert (created sv' (length (TcpServer.conns (server s))) conn (new_address w) k
    (mk sv' (<[TcpServer.conn_loop conn := w']> (worlds s)) (cells s ++ [(new_address w, k)]))) as Hcr.
  { apply (inv_created s sv' new conn (new_address w) k w); try done. intros d Hd. destruct Hnew as [-> | ->]; cbn; set_solver. }
  destruct Hcr as [C1 C2 C3 C4 C5 C6]. cbn [server set_world_of add_cell set_server] in *.
  rewrite (drop_app_log _ _ _ Hlog'). pose proof (trace_grows _ _ _ (length (TcpServer.conns (server s))) Hlog') as Htr.
  assert (TcpServer.trace (length (TcpServer.conns (server s))) (server s) = []) as Hnone.
  { pose proof (TcpServer.inv_phase _ _ (i_server _ _ Hi) (length (TcpServer.conns (server s))) I) as Hp.
    unfold TcpServer.phase_ok in Hp. rewrite lookup_ge_None_2 in Hp by done. by destruct Hp. }
  rewrite Hnone in Htr. destruct Hnew as [-> | ->]; cbn [for_each]; wp_steps.
  - eapply inv_conn_back; [exact C1|exact C3|exact C5|]. cbn [server add_cell set_world_of set_server]. by rewrite Htr.
  - eapply wpe_mono; [eapply (wpe_perform _ TcpServer.ActEstablished conn (new_address w) k (TcpConnection.world k) []);
      [exact C1|exact C3|exact C4|split; by rewrite set_world_id| |done]|].
    { cbn. rewrite Htr. cbn. by rewrite decide_True. }
    cbn. intros _ s' ?. by wp_steps.
Qed.

(** ** A loop polls *)

Lemma inv_poll s l w w' : inv s -> worlds s !! l = Some w ->
  (forall a, Registry.refines a w -> Registry.refines a w') -> same_channels (chans w) (chans w') ->
  channels_ (poller w') = channels_ (poller w) -> inv (set_world_of l w' s).
Proof.
  intros Hi Hw HR HS HC. pose proof Hi as [I1 [I2 I3 I4 I5 I6 I7 I8]]. constructor; [done|].
  constructor; cbn [set_world_of server cells worlds]; try done.
  - intros l' Hl'. destruct (I3 l' Hl') as (w0 & a & Hw0 & R). rewrite lookup_insert. case_decide; [|by exists w0, a].
    subst l'. rewrite Hw in Hw0. injection Hw0 as <-. exists w', a. auto.
  - intros d dn dh kd wd _ [D1 D2 D3]. cbn in D1, D2, D3. rewrite lookup_insert in D3. case_decide as El.
    + injection D3 as <-. destruct (I5 d dn dh kd w I) as [Hf Hs]; [by constructor; [..|rewrite <- El]|]. split.
      * by apply (TcpConnection.fine_poll dh (TcpServer.conn_fd dn) w' (TcpConnection.set_world w kd)).
      * apply (in_state_world _ _ _ w' (TcpConnection.set_world w kd)); [..|exact Hs]; cbn; by rewrite HC.
    + apply (I5 d dn dh kd wd I). by constructor.
  - intros l' w1 fd ch Hl' Hd. rewrite lookup_insert in Hl'. case_decide as El; [|by apply (I8 l' w1)].
    injection Hl' as <-. subst l'. apply (I8 l w); [done|]. by rewrite <- HC.
Qed.

(** The active channels still to be handled that are connections' are open,
    with events that make sense. *)
Definition ready (l : Z) (active : list Z) (s : T) : Prop := forall c conn ch k w, ch ∈ active -> conn_at c conn ch k w s ->
  TcpServer.conn_loop conn = l -> TcpConnection.is_open (TcpConnection.state_ k) /\
  exists x, chans w !! ch = Some x /\ TcpConnection.sane_events (revents_ x).

Lemma owner_spec l ch s c : inv s -> owner l ch s = Some c ->
  exists conn k w, conn_at c conn ch k w s /\ TcpServer.conn_loop conn = l.
Proof.
  intros Hi Ho. unfold owner in Ho. destruct (list_find _ _) as [[i [conn [ch' k]]]|] eqn:E; [|done]. cbn in Ho. injection Ho as ->.
  apply list_find_Some in E as (Hz & [El Ech] & _). cbn in El, Ech. subst ch'. apply lookup_zip_Some in Hz as [Hc Hk].
  destruct (conn_at_exists _ _ s c conn (i_placed _ _ Hi) Hc) as (ch' & k' & w & [A1 A2 A3]). rewrite Hk in A2. injection A2 as <- <-.
  exists conn, k, w. by split.
Qed.

Lemma ready_around l ch active c conn w s s' : ch ∉ active -> TcpServer.conn_loop conn = l -> worlds s !! l = Some w ->
  around c conn ch w s s' -> ready l (ch :: active) s -> ready l active s'.
Proof.
  intros Hch El Hw (A1 & _ & A3 & (kc & A4) & w' & A5 & HF & HK) Hr d dn dh k wd Hd [D1 D2 D3] Edl.
  assert (d <> c) as Hdc by (intros ->; congruence).
  assert (wd = w') as ->. { rewrite A5, El, Edl, lookup_insert_eq in D3. by injection D3. }
  rewrite A1 in D1. rewrite A3 in D2 by done.
  destruct (Hr d dn dh k w) as (Ho & x & Hx & Hsane); [by right| |done|].
  { constructor; [done..|]. by rewrite Edl. }
  split; [done|]. destruct (HK dh x) as (x' & Hx' & Hs & _); [congruence|done|]. exists x'. split; [done|]. by rewrite <- Hs.
Qed.

(** The connection of an active channel is open. *)
Lemma ready_owner l ch active s c w : inv s -> worlds s !! l = Some w -> ready l (ch :: active) s -> owner l ch s = Some c ->
  exists conn k x, conn_at c conn ch k w s /\ TcpServer.conn_loop conn = l /\ TcpConnection.is_open (TcpConnection.state_ k) /\
    chans w !! ch = Some x /\ TcpConnection.sane_events (revents_ x).
Proof.
  intros Hi Hw Hr Eo. destruct (owner_spec l ch s c Hi Eo) as (conn & k & w0 & Hat & El).
  assert (w0 = w) as -> by (pose proof (at_world _ _ _ _ _ _ Hat); congruence).
  destruct (Hr c conn ch k w ltac:(by left) Hat El) as (Ho & x & Hx & Hsane). by exists conn, k, x.
Qed.

(** An active channel is handled: nothing happens, or its connection takes
    a step. *)
Lemma wpe_handle l time ch active s : ch ∉ active -> l ∈ TcpServer.loops (server s) -> inv s -> ready l (ch :: active) s ->
  wpe TcpConnection.external (handle getLocalAddr tie script l time ch) (fun _ s' =>
    inv s' /\ ready l active s' /\ TcpServer.loops (server s') = TcpServer.loops (server s) /\
    (s' = s \/ exists c conn k w, conn_at c conn ch k w s /\ around c conn ch w s s')) s.
Proof.
  intros Hch Hl Hi Hr. unfold handle. wp_steps. destruct (i_worlds _ _ _ (i_placed _ _ Hi) l Hl) as (w & a & Hw & _). rewrite Hw.
  destruct (owner l ch s) as [c|] eqn:Eo.
  - destruct (ready_owner l ch active s c w) as (conn & k & x & Hat & El & Ho & Hx & Hsane); [done..|]. rewrite Hx.
    eapply wpe_mono; [by apply (wpe_conn_step c conn ch k w)|]. cbn beta. intros _ s' [Hi' Har].
    split; [done|]. split; [by eapply ready_around|]. split; [apply Har|]. right. by exists c, conn, k, w.
  - wp_steps. split; [done|]. split; [|by split; [|left]]. intros d dn dh k wd Hd. apply Hr. by right.
Qed.

Lemma wpe_handle_all l time active s : NoDup active -> l ∈ TcpServer.loops (server s) -> inv s -> ready l active s ->
  wpe TcpConnection.external (for_each (handle getLocalAddr tie script l time) active) (fun _ => inv) s.
Proof.
  revert s. induction active as [|ch active IH]; intros s Hnd Hl Hi Hr; cbn [for_each]; [by wp_steps|].
  apply list.NoDup_cons in Hnd as [Hch Hnd]. wp_steps. eapply wpe_mono; [by apply wpe_handle|].
  cbn beta. intros _ s' (Hi' & Hr' & El & _). apply IH; [done| |done..]. by rewrite El.
Qed.

(** The events poll reports come from watched channels (a channel that is
    in the epoll set without an interest is the case of
    [Pollers.epoll_disableAll_twice]), each once. *)
Definition events_allowed (w : World P) : Prop :=
  match poll Reactor.kPollTimeMs w with
  | Ok ((_, active), w') => NoDup active /\ forall ch, ch ∈ active ->
      (exists fd ev, interest (poller w) !! fd = Some (ch, ev) /\ ev <> 0) /\
      forall x, chans w' !! ch = Some x -> TcpConnection.sane_events (revents_ x)
  | Err _ => True
  end.

Lemma wpe_poll_world l w s : inv s -> l ∈ TcpServer.loops (server s) -> worlds s !! l = Some w -> events_allowed w ->
  wpe TcpConnection.external (poll_world l) (fun r s' => inv s' /\ NoDup (snd r) /\ ready l (snd r) s' /\
    exists w', s' = set_world_of l w' s /\ channels_ (poller w') = channels_ (poller w)) s.
Proof.
  intros Hi Hl Hw Ha. unfold poll_world. wp_steps. rewrite Hw. wp_steps. apply wpe_zoom.
  destruct (i_worlds _ _ _ (i_placed _ _ Hi) l Hl) as (w0 & a & Hw0 & R). rewrite Hw in Hw0. injection Hw0 as <-.
  pose proof (poll_spec Reactor.kPollTimeMs w (Registry.r_fits _ _ R)) as Hp. unfold events_allowed in Ha. unfold wpe in Hp |- * at 1.
  assert (forall b, Registry.refines b w -> wp (poll Reactor.kPollTimeMs) (fun _ w' => Registry.refines b w') w) as HR
    by (intros b; apply Registry.refines_poll).
  unfold wpe in HR. destruct (poll Reactor.kPollTimeMs w) as [[[time active] w']|e]; [|done]. cbn [snd fst] in *.
  destruct Hp as (G1 & G2 & G3 & G4 & G5 & G6). destruct Ha as [Hnd Ha].
  split; [by apply (inv_poll s l w)|]. split; [done|]. split; [|by exists w'].
  intros c conn ch k w1 Hch [D1 D2 D3] El. cbn in D1, D2, D3. rewrite El, lookup_insert_eq in D3. injection D3 as <-.
  destruct (Ha ch Hch) as ((fd & ev & Hint & Hev) & Hsane).
  destruct (inv_conn _ _ c conn ch k w Hi I) as [[[(b & ev' & st & Rb & Hb & Hcs) _ _ _ _ _ _ _ _ _] (r & x & Hx & _)] _].
  { constructor; [done..|]. by rewrite El. }
  cbn in Rb, Hx. apply (Registry.r_interest _ _ Rb fd ch ev Hev) in Hint as (z & Hz & [Hz1 Hz2] & _).
  rewrite Hb in Hz. injection Hz as <-. cbn in Hz1, Hz2. split.
  - unfold TcpConnection.chan_state in Hcs. cbn in Hcs. destruct (TcpConnection.state_ k); [|..|by left|by right]; destruct Hcs; congruence.
  - destruct (same_channels_lookup _ _ _ _ G2 Hx) as (x' & Hx' & _). exists x'. split; [done|]. by apply Hsane.
Qed.

Lemma wpe_poll_events l w s : inv s -> l ∈ TcpServer.loops (server s) -> worlds s !! l = Some w -> events_allowed w ->
  wpe TcpConnection.external (sys_step (Events l)) (fun _ => inv) s.
Proof.
  intros Hi Hl Hw Ha. cbn [step]. unfold poll_events. wp_steps. eapply wpe_mono; [by apply (wpe_poll_world l w)|].
  cbn beta. intros [time active] s' (Hi' & Hnd & Hr & w' & -> & _). by apply wpe_handle_all.
Qed.

(** ** Runs *)

(** The kernel hands out free descriptors, and [events_allowed] of a poll;
    the connections' functors, timers and users, in the loop's thread and in
    others, are as in [TcpConnection.allowed]. *)
Definition allowed (o : op) (s : T) : Prop :=
  match o with
  | Accept fd _ => TcpServer.nextConnId_ (server s) < 2 ^ 31 - 1 /\ 0 <= fd < INT_MAX /\ fd_free fd s
  | Events l => l ∈ TcpServer.loops (server s) /\ exists w, worlds s !! l = Some w /\ events_allowed w
  | RunFunctor _ => True
  | Conn c o =>
      match o with
      | TcpConnection.OpEstablish | TcpConnection.OpEvents _ _ | TcpConnection.OpDestroy => False
      | _ => True
      end /\
      exists conn ch k w, conn_at c conn ch k w s /\
        TcpConnection.allowed ch (TcpServer.conn_fd conn) o (TcpConnection.set_world w k)
  end.
Fixpoint allowed_run (l : list op) (s : T) : Prop :=
  match l with
  | [] => True
  | o :: l => allowed o s /\ match sys_step o s with Ok (_, s') => allowed_run l s' | Err _ => True end
  end.

Lemma wpe_sys_step o s : inv s -> allowed o s -> wpe TcpConnection.external (sys_step o) (fun _ => inv) s.
Proof.
  intros Hi Ha. destruct o as [fd peer|l|l|c o]; cbn [allowed] in Ha.
  - destruct Ha as (? & ? & ?). by apply wpe_accept.
  - destruct Ha as (Hl & w & Hw & He). by eapply wpe_poll_events.
  - by apply wpe_server_run.
  - destruct Ha as (Ho & conn & ch & k & w & Hat & Ha). eapply wpe_mono; [apply (wpe_conn_step c conn ch k w); try done|].
    + by destruct o.
    + by destruct o.
    + by intros _ s' [? _].
Qed.

Lemma wpe_sys_run l s : inv s -> allowed_run l s -> wpe TcpConnection.external (for_each sys_step l) (fun _ => inv) s.
Proof.
  revert s. induction l as [|o l IH]; intros s Hi Ha; cbn [for_each]; [by wp_steps|].
  destruct Ha as [Ha Hl]. apply wpe_bind. pose proof (wpe_sys_step o s Hi Ha) as Hs.
  unfold wpe in Hs |- *. destruct (sys_step o s) as [[[] s']|e]; [by apply IH|done].
Qed.

End registered.

(** A new server whose loops have the worlds [ws], opened with [n] threads. *)
Definition make (ws : gmap Z (World P)) (loop : Z) (ipPort name : string) (cb : bool) : T :=
  mk (TcpServer.make loop ipPort name cb) ws [].
Definition open (n loop : Z) : M T unit := zoom server set_server (TcpServer.open startLoop n loop).

(** The descriptors registered in the worlds from the start. *)
Definition initial (ws : gmap Z (World P)) (fd : Z) : Prop :=
  exists l w ch, ws !! l = Some w /\ channels_ (poller w) !! fd = Some ch.

Lemma wpe_sys_open ws n loop ipPort name cb : 0 <= n < 2 ^ 31 -> slen (c_str ipPort) <= 50 ->
  (forall l, l ∈ loop :: (startLoop <$> seqZ 0 n) -> exists w a, ws !! l = Some w /\ Registry.refines a w) ->
  wp (open n loop) (fun _ => inv (initial ws)) (make ws loop ipPort name cb).
Proof.
  intros Hn Hip Hws. unfold open. apply wpe_zoom. pose proof (TcpServer.wp_open startLoop n loop ipPort name cb Hn Hip) as Ho.
  unfold wpe in *. cbn [server make]. destruct (TcpServer.open _ _ _ _) as [[[] sv]|e]; [|done].
  destruct Ho as (Hi & _ & Hc & Hloop & Hl). constructor; [done|].
  constructor; cbn [set_server server cells worlds make]; rewrite ?Hc; try done.
  - intros l. unfold TcpServer.loops. rewrite Hl, Hloop. apply Hws.
  - intros c conn ch k w _ [D1 _ _]. cbn in D1. by rewrite Hc in D1.
  - intros l w fd ch Hw Hd. left. by exists l, w, ch.
Qed.

(** What a connection guarantees by itself: its lifecycle, and no byte lost. *)
Definition sound (ch fd : Z) (k : C) : Prop :=
  TcpConnection.lifecycle ch fd k /\
  exists msgs, msgs `sublist_of` TcpConnection.sendings (TcpConnection.log k) /\
    TcpConnection.wire (TcpConnection.log k) ++ Buffer.Buffer.content (TcpConnection.outputBuffer_ k) = concat msgs.

Lemma fine_sound ch fd k : TcpConnection.fine ch fd k -> sound ch fd k.
Proof. by intros [[I1 I2 I3 I4 I5 I6 I7 I8 I9 I10] _]. Qed.

(** Each connection is in a phase of its life for the server and in the
    state that goes with it, with its own guarantees. *)
Definition working (s : T) : Prop := forall c conn, TcpServer.conns (server s) !! c = Some conn ->
  exists p ch k w, TcpServer.in_phase c conn p (server s) /\ conn_at c conn ch k w s /\
    in_state (TcpServer.phase_trace p) ch (TcpServer.conn_fd conn) (TcpConnection.set_world w k) /\
    sound ch (TcpServer.conn_fd conn) (TcpConnection.set_world w k).

Lemma inv_working others s : inv others s -> working s.
Proof.
  intros Hi c conn Hc. destruct (conn_at_exists others _ _ s c conn (i_placed _ _ _ Hi) Hc) as (ch & k & w & Hat).
  destruct (inv_conn _ _ _ c conn ch k w Hi I Hat) as [Hf Hs].
  pose proof (TcpServer.inv_phase _ _ (i_server _ _ _ Hi) c I) as Hp. unfold TcpServer.phase_ok in Hp. rewrite Hc in Hp.
  destruct Hp as [p Hp]. exists p, ch, k, w. split; [done|]. split; [done|]. split; [|by apply fine_sound].
  by rewrite <- (proj1 Hp).
Qed.

(** C2: The server with its connections in the loops of its pool, over any
    poller: under every order of accepted connections, polls of the loops
    with the events they report, queued functors, delayed closes, user calls
    in the loops' threads and steps of user calls in other threads that is
    [allowed], no assertion fails anywhere (only a failing [epoll_ctl] or
    exhausted memory can stop a run).  Allowed are the orders in which an
    accepted descriptor is free and fewer than 2^31 - 1 connections have been
    made; a poll reports each channel once, only channels with some interest,
    and a hang-up without readable data with no other read event; a
    connection is called once it is established, with messages below 2^31
    bytes; reading is started and stopped, by a callback, a call or a queued
    functor, only on an open connection; and no close comes between the test
    and the setting of [state_] by another thread's [shutdown] or
    [forceClose].  (The examples at the end of [TcpConnection] show the
    failures outside these.)  Then every connection is, in the server's books,
    in one phase of its life, and is itself in the state that goes with the
    phase: not registered while it waits to be established, open with its
    interest registered, disconnected and still registered until it is
    destroyed, and forgotten by its poller afterwards; and each has its own
    lifecycle and loses no byte. *)
Theorem server_works ws n loop ipPort name cb l : 0 <= n < 2 ^ 31 -> slen (c_str ipPort) <= 50 ->
  (forall l, l ∈ loop :: (startLoop <$> seqZ 0 n) -> exists w a, ws !! l = Some w /\ Registry.refines a w) ->
  (forall s, open n loop (make ws loop ipPort name cb) = Ok (tt, s) -> allowed_run l s) ->
  wpe TcpConnection.external (open n loop ;;; for_each (step getLocalAddr tie script new_address socket writeComplete highWater) l) (fun _ => working) (make ws loop ipPort name cb).
Proof.
  intros Hn Hip Hws Hl. apply wpe_bind. pose proof (wpe_sys_open ws n loop ipPort name cb Hn Hip Hws) as Ho. unfold wpe in Ho |- * at 1.
  destruct (open n loop _) as [[[] s]|e]; [|done]. eapply wpe_mono; [by apply (wpe_sys_run (initial ws)); [|apply Hl]|].
  cbn. intros _ s' ?. by apply (inv_working (initial ws)).
Qed.
End invariant.

(** ** A concrete run

    A server with two I/O loops, 100 and 101, over the epoll poller.  The
    connection on descriptor 10 goes to the first, is established, echoes
    five bytes, is closed by its peer and destroyed; the one on descriptor
    11 waits in the second loop. *)
Section sample.
Notation P := (EPollPoller.t Sample.ep).
Notation K := TcpConnection.sock.
Notation T := (t P K).

Definition sample_address (w : World P) : Z := 1 + map_fold (fun c _ m => Z.max c m) 0 (chans w).
Lemma sample_address_fresh w : chans w !! sample_address w = None.
Proof.
  assert (forall c ch, chans w !! c = Some ch -> c <= map_fold (fun c _ m => Z.max c m) 0 (chans w)) as Hmax.
  { apply (map_fold_weak_ind (fun r (m : gmap Z Channel) => forall c ch, m !! c = Some ch -> c <= r)).
    - intros c ch. by rewrite lookup_empty.
    - intros i x m r Hi IH c ch. rewrite lookup_insert. case_decide; [intros _; lia|]. intros Hc. specialize (IH c ch Hc). lia. }
  unfold sample_address. destruct (chans w !! _) as [ch|] eqn:E; [|done]. specialize (Hmax _ _ E). lia.
Qed.

Definition sample_world : World P := mkWorld ∅ (EPollPoller.init (Sample.mkEp ∅ [(10, EPOLLIN)] 0)).
Definition sample_worlds : gmap Z (World P) := {[ 7 := sample_world; 100 := sample_world; 101 := sample_world ]}.
Definition sample_socket (fd : Z) : K := TcpConnection.mkSock [inr 5] [TcpConnection.hello; []] false.
Definition sample_start (i : Z) : Z := 100 + i.
Definition sample_local (fd : Z) : sockaddr_in := zero_addr.
Definition sample_make : T := make sample_worlds 7 "127.0.0.1:2007" "echo" false.
Definition sample_open : M T unit := open sample_start 2 7.
Definition sample_step : op -> M T unit :=
  step sample_local TcpConnection.sample_tie TcpConnection.sample_script sample_address sample_socket true false.
Definition sample_ops : list op :=
  [Accept 10 zero_addr; Accept 11 zero_addr; RunFunctor 100; Events 100; Conn 0 TcpConnection.OpFunctor; Events 100;
   RunFunctor 7; RunFunctor 100].

Lemma sample_world_refines : Registry.refines ∅ sample_world.
Proof.
  assert (Registry.refines (Registry.fresh_registry ∅) (mkWorld (Registry.fresh_channels 1 ∅)
    (EPollPoller.init (Sample.mkEp ∅ [(10, EPOLLIN)] 0)))) as R.
  { apply Registry.refines_fresh; [|..]; [apply (bool_decide_unpack _); by vm_compute| |done|done].
    constructor; cbn; [set_solver|set_solver|]. by vm_compute. }
  exact R.
Qed.

Lemma sample_worlds_ok l : l ∈ 7 :: (sample_start <$> seqZ 0 2) ->
  exists w a, sample_worlds !! l = Some w /\ Registry.refines a w.
Proof.
  intros Hl. exists sample_world, ∅. split; [|apply sample_world_refines].
  revert Hl. by intros [->|[->|[->|?%not_elem_of_nil]%elem_of_cons]%elem_of_cons]%elem_of_cons.
Qed.

(** The states of the run. *)
Definition after (o : op) (s : T) : T := match sample_step o s with Ok (_, s') => s' | Err _ => s end.
Definition sample_0 : T := match sample_open sample_make with Ok (_, s) => s | Err _ => sample_make end.
Definition sample_state (n : nat) : T := foldl (fun s o => after o s) sample_0 (take n sample_ops).
End sample.

Section sample_run.
Notation T := (t (EPollPoller.t Sample.ep) TcpConnection.sock).
Notation sample_allowed_run := (allowed_run sample_local TcpConnection.sample_tie TcpConnection.sample_script sample_address
  sample_socket true false).

Lemma sample_next n o : sample_ops !! n = Some o ->
  sample_step o (sample_state n) = Ok (tt, sample_state (S n)).
Proof. do 8 (destruct n as [|n]; [intros [= <-]; by vm_compute|]). done. Qed.

Lemma fd_free_check fd (s : T) : map_Forall (fun _ w => channels_ (poller w) !! fd = None) (worlds s) ->
  Forall (fun conn => TcpServer.conn_fd conn <> fd) (TcpServer.conns (server s)) -> fd_free fd s.
Proof.
  intros Hw Hc. split; [exact Hw|]. intros c conn Hcc E. rewrite Forall_lookup in Hc. by destruct (Hc c conn Hcc).
Qed.

(** One active channel, that of descriptor 10, readable. *)
Definition readable_10 (w : World (EPollPoller.t Sample.ep)) : bool :=
  match poll Reactor.kPollTimeMs w with
  | Ok ((_, [ch]), w') =>
      match interest (poller w) !! 10, chans w' !! ch with
      | Some (c, ev), Some x => (c =? ch) && negb (ev =? 0) && (revents_ x =? EPOLLIN)
      | _, _ => false
      end
  | _ => false
  end.
Lemma readable_10_allowed w : readable_10 w = true -> events_allowed w.
Proof.
  unfold readable_10, events_allowed. destruct (poll Reactor.kPollTimeMs w) as [[[tm [|ch [|]]] w']|e]; try done.
  destruct (interest (poller w) !! 10) as [[c ev]|] eqn:Hi; [|done]. destruct (chans w' !! ch) as [x|] eqn:Hx; [|done].
  intros Hc. to_prop. subst c. split; [apply NoDup_singleton|]. intros c ->%list_elem_of_singleton. split; [by exists 10, ev|].
  rewrite Hx. intros y [= <-]. unfold TcpConnection.sane_events. by replace (revents_ x) with EPOLLIN.
Qed.

Lemma sample_each n o : sample_ops !! n = Some o -> allowed o (sample_state n).
Proof.
  assert (forall fd peer s, TcpServer.nextConnId_ (server s) <? 2 ^ 31 - 1 = true -> 0 <= fd < INT_MAX -> fd_free fd s ->
    allowed (Accept fd peer) (s : T)) as Hacc by (intros fd peer s Hid ??; apply Z.ltb_lt in Hid; done).
  assert (forall m, (match worlds (sample_state m) !! 100 with Some w => readable_10 w | None => false end) = true ->
    bool_decide (100 ∈ TcpServer.loops (server (sample_state m))) = true -> allowed (Events 100) (sample_state m)) as Hev.
  { intros m Hm Hl. apply bool_decide_eq_true in Hl. split; [done|].
    destruct (worlds (sample_state m) !! 100) as [w|]; [|done]. exists w. split; [done|by apply readable_10_allowed]. }
  destruct n as [|[|[|[|[|[|[|[|n]]]]]]]]; [intros [= <-]..|done]; try exact I.
  - apply Hacc; [by vm_compute|unfold INT_MAX; lia|]. apply fd_free_check; apply (bool_decide_unpack _); by vm_compute.
  - apply Hacc; [by vm_compute|unfold INT_MAX; lia|]. apply fd_free_check; apply (bool_decide_unpack _); by vm_compute.
  - apply Hev; by vm_compute.
  - split; [exact I|]. eexists _, _, _, _. split; [constructor; vm_compute; reflexivity|]. exact I.
  - apply Hev; by vm_compute.
Qed.

Lemma sample_run_allowed : sample_allowed_run sample_ops (sample_state 0).
Proof.
  assert (forall l n, drop n sample_ops = l -> sample_allowed_run l (sample_state n)) as Hall.
  { induction l as [|o l IH]; intros n Hn; cbn [allowed_run]; [done|].
    assert (sample_ops !! n = Some o) as Ho by (by rewrite <- (Nat.add_0_r n), <- lookup_drop, Hn).
    split; [by apply sample_each|]. pose proof (sample_next n o Ho) as Hs. unfold sample_step in Hs. rewrite Hs.
    apply IH. rewrite <- Nat.add_1_r, <- drop_drop, Hn. done. }
  by apply (Hall sample_ops 0%nat).
Qed.

Lemma sample_opened : sample_open sample_make = Ok (tt, sample_state 0).
Proof. by vm_compute. Qed.
Lemma sample_final : (sample_open ;;; for_each sample_step sample_ops) sample_make = Ok (tt, sample_state 8).
Proof. by vm_compute. Qed.
Lemma sample_opened_allowed s : sample_open sample_make = Ok (tt, s) -> sample_allowed_run sample_ops s.
Proof. rewrite sample_opened. intros [= <-]. apply sample_run_allowed. Qed.
Lemma sample_outcome : TcpServer.log (server (sample_state 8)) =
    [(0%nat, TcpServer.ActEstablished); (0%nat, TcpServer.ActClosed); (0%nat, TcpServer.ActDestroyed)] /\
  (fun x => (TcpConnection.state_ (snd x), TcpConnection.wire (TcpConnection.log (snd x)))) <$> cells (sample_state 8) =
    [(TcpConnection.kDisconnected, TcpConnection.hello); (TcpConnection.kConnecting, [])].
Proof. vm_compute. split; reflexivity. Qed.

Lemma server_works_witness : (sample_open ;;; for_each sample_step sample_ops) sample_make = Ok (tt, sample_state 8) /\
  working (sample_state 8) /\
  TcpServer.log (server (sample_state 8)) =
    [(0%nat, TcpServer.ActEstablished); (0%nat, TcpServer.ActClosed); (0%nat, TcpServer.ActDestroyed)] /\
  (fun x => (TcpConnection.state_ (snd x), TcpConnection.wire (TcpConnection.log (snd x)))) <$> cells (sample_state 8) =
    [(TcpConnection.kDisconnected, TcpConnection.hello); (TcpConnection.kConnecting, [])].
Proof.
  split; [exact sample_final|]. split; [|exact sample_outcome].
  exact (wpe_elim _ _ _ _ _ _ (server_works sample_start sample_local TcpConnection.sample_tie TcpConnection.sample_script
    sample_address sample_socket true false TcpConnection.sample_tie_keeps TcpConnection.sample_script_ok sample_address_fresh
    sample_worlds 2 7 "127.0.0.1:2007" "echo" false sample_ops ltac:(lia) ltac:(vm_compute; congruence) sample_worlds_ok
    sample_opened_allowed) sample_final).
Defined.
End sample_run.
End System.
