(* ===== verification/Shutdown.v ===== *)
(** * The end of a server (TcpServer.c++, TcpConnection.c++, EventLoop.c++)

    [~TcpServer] in the system of [System]: the connections of the server's
    own loop are destroyed by the destructor, the others by functors that it
    leaves in the queues of their loops, which run until their queues are
    empty while the connections go on reading and sending.  A connection
    that closes in the meantime, or that is shutting down when it is
    destroyed, is one of the findings: [TcpServer.close_races_destructor],
    [TcpConnection.destroy_while_disconnecting_asserts]. *)
From S2P Require Import Prelude Channel EPollPoller PollPoller Pollers EventLoop.
From S2P Require Import Text Endian SocketsOps EventLoopThreadPool TcpConnection TcpServer System.
#[local] Open Scope Z_scope.

Module Shutdown.

Section operations.
Context {P K : Type} `{Poller P} `{TcpConnection.Socket K}.
Notation C := (TcpConnection.t P K).
Notation T := (System.t P K).
Context (getLocalAddr : Z -> sockaddr_in)
  (tie : M C unit) (script : TcpConnection.callback -> C -> list TcpConnection.cmd).

(** [~TcpServer], in the thread of the server's loop.  What it does to the
    connections of its own loop touches neither the map nor the queues, and
    comes here after the last entry of the map. *)
Definition destroy : M T unit :=
  System.server_do tie script (let* sv := get in TcpServer.destructor (TcpServer.loop_ sv)) (ret tt).

(** What goes on without the server. *)
Inductive op : Type :=
| RunFunctor (loop : Z)                          (* a loop runs its oldest functor of the server *)
| Conn (c : nat) (o : TcpConnection.op).         (* an event, a functor, a timer or a user call of a connection *)

Definition step (o : op) : M T unit :=
  match o with
  | RunFunctor loop => System.server_step getLocalAddr tie script (TcpServer.Run loop) (ret tt)
  | Conn c o => System.conn_step getLocalAddr tie script c o
  end.
End operations.

(** ** The loops without their server *)

Section invariant.
Context {P K : Type} `{PollerSpec P} `{TcpConnection.SocketLaws K}.
Notation C := (TcpConnection.t P K).
Notation T := (System.t P K).
Context (startLoop : Z -> Z) (getLocalAddr : Z -> sockaddr_in)
  (tie : M C unit) (script : TcpConnection.callback -> C -> list TcpConnection.cmd)
  (new_address : World P -> Z) (socket : Z -> K) (writeComplete highWater : bool).
Hypothesis tie_keeps : forall s, tie s = Ok (tt, s).
Hypothesis script_ok : forall cb s c, c ∈ script cb s -> TcpConnection.cmd_ok (TcpConnection.state_ s) c.
Hypothesis address_fresh : forall w, chans w !! new_address w = None.
Notation server := System.server.
Notation all := (fun _ : nat => True).

(** As in [System.registered]. *)
Section registered.
Context (others : Z -> Prop).
Notation placed := (System.placed others).

(** The functors that are left for a connection. *)
Definition owed (conn : TcpServer.connection) (c : nat) (tr : list TcpServer.act) : list (Z * TcpServer.task) :=
  let l := TcpServer.conn_loop conn in
  match tr with
  | [] => [(l, TcpServer.Established c); (l, TcpServer.Destroyed c)]
  | [TcpServer.ActEstablished] | [TcpServer.ActEstablished; TcpServer.ActClosed] => [(l, TcpServer.Destroyed c)]
  | _ => []
  end.

(** No connection is shutting down. *)
Definition steady (s : T) : Prop := forall c ch k, System.cells s !! c = Some (ch, k) ->
  TcpConnection.state_ k <> TcpConnection.kDisconnecting.

(** [tr]: what the server did to each connection, with [gone] for those that
    have been destroyed without having closed. *)
Record dying (tr : nat -> list TcpServer.act) (s : T) : Prop := {
  d_dead : TcpServer.alive (server s) = false /\ TcpServer.connections_ (server s) = ∅;
  d_placed : placed tr all s;
  d_trace : forall c, TcpServer.trace c (server s) = tr c \/
    tr c = System.gone /\ TcpServer.trace c (server s) = [TcpServer.ActEstablished; TcpServer.ActDestroyed];
  d_owed : forall c conn, TcpServer.conns (server s) !! c = Some conn ->
    TcpServer.about c (server s) = owed conn c (tr c);
  d_known : forall l f, (l, f) ∈ TcpServer.pending (server s) -> exists c,
    (f = TcpServer.Established c \/ f = TcpServer.Destroyed c) /\ is_Some (TcpServer.conns (server s) !! c);
  d_steady : steady s }.

Lemma steady_put l c ch k s : steady s -> TcpConnection.state_ k <> TcpConnection.kDisconnecting ->
  steady (System.put_cell l c ch k s).
Proof.
  intros Hs Hk d dh kd. cbn. intros [(<- & [= <- <-] & _)|[Hne Hd]]%list_lookup_insert_Some; [done|by apply (Hs d dh)].
Qed.

(** ** One connection is established or destroyed *)

Definition upd (c : nat) (x : list TcpServer.act) (tr : nat -> list TcpServer.act) (d : nat) : list TcpServer.act :=
  if decide (d = c) then x else tr d.
Definition due (a : TcpServer.act) (tr x : list TcpServer.act) : Prop :=
  match a with
  | TcpServer.ActEstablished => tr = [] /\ x = [TcpServer.ActEstablished]
  | TcpServer.ActClosed => False
  | TcpServer.ActDestroyed => x = System.gone /\
      (tr = [TcpServer.ActEstablished] \/ tr = [TcpServer.ActEstablished; TcpServer.ActClosed])
  end.

Lemma upd_eq c x tr : upd c x tr c = x.
Proof. unfold upd. by rewrite decide_True. Qed.
Lemma upd_ne c x tr d : d <> c -> upd c x tr d = tr d.
Proof. unfold upd. by intros; rewrite decide_False. Qed.
Lemma due_live a tr x : due a tr x -> tr <> System.gone.
Proof. destruct a; [by intros [-> _]|done|by intros [_ [-> | ->]]]. Qed.

Lemma set_server_id (s : T) : System.set_server (server s) s = s.
Proof. by destruct s. Qed.

Lemma due_done a tr x conn ch (k : C) (w : World P) : due a tr x -> System.conn_ok tr conn ch k w ->
  TcpConnection.state_ k <> TcpConnection.kDisconnecting -> System.done_to a tr x k.
Proof.
  destruct a; cbn; [done|done|]. intros [-> [-> | ->]] [_ Hst] Hk; (split; [done|]); [right|by left].
  split; [done|]. by destruct Hst.
Qed.

Lemma wpe_perform_due tr c a x conn s : placed tr all s -> steady s -> TcpServer.conns (server s) !! c = Some conn ->
  due a (tr c) x -> wpe TcpConnection.external (System.perform tie script (c, a)) (fun _ s' =>
    placed (upd c x tr) all s' /\ server s' = server s /\
    exists l ch k, s' = System.put_cell l c ch k s /\ System.cells s' !! c = Some (ch, k)) s.
Proof.
  intros Hi Hst Hc Hd. pose proof (due_live _ _ _ Hd) as Hlive.
  destruct (System.conn_at_exists _ _ _ _ c conn Hi Hc) as (ch & k & w & Hat).
  pose proof (System.i_conn _ _ _ _ Hi c conn ch k w I Hat) as Hok.
  assert (forall d, tr d = System.gone -> upd c x tr d = System.gone) as Hg.
  { intros d Hg. rewrite upd_ne; [done|]. by intros ->. }
  eapply wpe_mono; [apply (System.wpe_perform_placed tie script tie_keeps script_ok others (upd c x tr) c a conn ch k w (tr c));
    [|done| |done|]|].
  - rewrite <- (set_server_id s). apply (System.placed_server _ tr _ all); [done..|]. intros d Hne. by rewrite upd_ne.
  - destruct (System.i_alone _ _ _ _ Hi c conn Hc) as [?|Hal]; [done|]. intros d dn Hne Hdn Ef. by apply Hg, (Hal d dn).
  - rewrite upd_eq. apply (due_done _ _ _ conn ch k w); [done..|]. eapply Hst, Hat.
  - cbn beta. intros _ s' [Hi' [k' ->]]. split; [done|]. split; [done|]. exists (TcpServer.conn_loop conn), ch, k'.
    split; [done|]. apply list_lookup_insert_eq. eapply lookup_lt_Some, Hat.
Qed.

(** Connection [c] has just been destroyed. *)
Lemma gone_down tr c ch (k : C) (s : T) : placed tr all s -> tr c = System.gone -> System.cells s !! c = Some (ch, k) ->
  TcpConnection.state_ k = TcpConnection.kDisconnected.
Proof.
  intros Hi Hg Hk. destruct (lookup_lt_is_Some_2 (TcpServer.conns (server s)) c) as [conn Hc].
  { rewrite <- (System.i_length _ _ _ _ Hi). by eapply lookup_lt_Some. }
  destruct (System.conn_at_exists _ _ _ _ c conn Hi Hc) as (ch' & k' & w & Hat).
  destruct (System.i_conn _ _ _ _ Hi c conn ch' k' w I Hat) as [_ Hst]. rewrite Hg in Hst.
  pose proof (System.at_cell _ _ _ _ _ _ Hat) as Hk'. rewrite Hk in Hk'. injection Hk' as <- <-. apply Hst.
Qed.

(** The destructor's own connections. *)
Definition swept (new : list (nat * TcpServer.act)) (tr : nat -> list TcpServer.act) (d : nat) : list TcpServer.act :=
  if decide (d ∈ fst <$> new) then System.gone else tr d.

Lemma wpe_perform_all new tr s : placed tr all s -> steady s -> NoDup (fst <$> new) ->
  (forall c a, (c, a) ∈ new -> due a (tr c) System.gone /\ is_Some (TcpServer.conns (server s) !! c)) ->
  wpe TcpConnection.external (for_each (System.perform tie script) new) (fun _ s' =>
    placed (swept new tr) all s' /\ steady s' /\ server s' = server s) s.
Proof.
  revert tr s. induction new as [|[c a] new IH]; intros tr s Hi Hst Hnd Hall; cbn [for_each].
  - wp_steps. split; [|done]. rewrite <- (set_server_id s). apply (System.placed_server _ tr _ all); [done..| |].
    + intros d Hd. unfold swept. by case_decide.
    + intros d _. split; [done|]. unfold swept. rewrite decide_False; [done|]. apply not_elem_of_nil.
  - cbn in Hnd. apply list.NoDup_cons in Hnd as [Hc Hnd]. destruct (Hall c a ltac:(by left)) as [Hd [conn Hcc]].
    wp_steps. eapply wpe_mono; [by apply (wpe_perform_due tr c a System.gone conn s)|]. cbn beta.
    intros _ s1 (Hi1 & Es & l & ch & k & E1 & Hk). eapply wpe_mono; [apply (IH (upd c System.gone tr))|].
    + done.
    + rewrite E1. apply steady_put; [done|].
      rewrite (gone_down (upd c System.gone tr) c ch k s1); [done|done|apply upd_eq|done].
    + done.
    + intros d b Hin. rewrite Es. rewrite upd_ne; [apply (Hall d b); by right|]. intros ->. apply Hc.
      by apply (list_elem_of_fmap_2 fst _ (c, b)).
    + cbn beta. intros _ s' (Hi' & Hst' & Es'). split; [|by rewrite Es'].
      rewrite <- (set_server_id s'). apply (System.placed_server _ (swept new (upd c System.gone tr)) _ all); [done..| |].
      * intros d. unfold swept. cbn. destruct (decide (d ∈ fst <$> new)); [by rewrite decide_True by (by right)|].
        case_decide as Hin; [done|]. rewrite upd_ne; [done|]. intros ->. apply Hin. by left.
      * intros d _. split; [done|]. unfold swept. cbn. destruct (decide (d = c)) as [->|Hne].
        -- rewrite decide_True by (by left). rewrite decide_False by done. by rewrite upd_eq.
        -- rewrite upd_ne by done. rewrite (decide_ext (d ∈ c :: (fst <$> new)) (d ∈ fst <$> new)); [done|]. set_solver.
Qed.
(** ** The destructor *)

Definition by_server (c : nat) (new : list (nat * TcpServer.act)) : list TcpServer.act :=
  omap (fun x => if decide (fst x = c) then Some (snd x) else None) new.

Lemma by_server_none c new : by_server c new = [] <-> c ∉ fst <$> new.
Proof.
  split; [|apply System.trace_none]. induction new as [|[d a] new IH]; cbn; [intros _; apply not_elem_of_nil|].
  case_decide; [done|]. intros E. apply not_elem_of_cons. split; [congruence|by apply IH].
Qed.
Lemma by_server_elem c a new : (c, a) ∈ new -> a ∈ by_server c new.
Proof. intros Hin. apply list_elem_of_omap. exists (c, a). split; [done|]. cbn. by rewrite decide_True. Qed.
Lemma by_server_NoDup new : (forall c, (length (by_server c new) <= 1)%nat) -> NoDup (fst <$> new).
Proof.
  induction new as [|[c a] new IH]; intros Hl; cbn; [constructor|].
  assert (forall d, by_server d ((c, a) :: new) = if decide (c = d) then a :: by_server d new else by_server d new) as Ec.
  { intros d. unfold by_server. cbn. by case_decide. }
  constructor.
  - specialize (Hl c). rewrite Ec, decide_True in Hl by done. apply by_server_none.
    destruct (by_server c new); [done|cbn in Hl; lia].
  - apply IH. intros d. specialize (Hl d). rewrite Ec in Hl. case_decide; cbn in Hl; lia.
Qed.

(** No close callback is on its way to the server. *)
Definition no_removal (sv : TcpServer.t) : Prop := forall l c, (l, TcpServer.RemoveInLoop c) ∉ TcpServer.pending sv.

(** What the destructor did to one connection. *)
Lemma finished_cases c conn p sv sv' new : TcpServer.in_phase c conn p sv -> no_removal sv -> TcpServer.queued_ok sv ->
  TcpServer.log sv' = TcpServer.log sv ++ new ->
  TcpServer.finished (bool_decide (TcpServer.connections_ sv !! TcpServer.conn_name conn = Some c)) c conn sv sv' ->
  by_server c new = [] /\ TcpServer.about c sv' = owed conn c (TcpServer.trace c sv) \/
  by_server c new = [TcpServer.ActDestroyed] /\ TcpServer.trace c sv = [TcpServer.ActEstablished] /\
    TcpServer.about c sv' = [] /\ TcpServer.conn_loop conn = TcpServer.loop_ sv.
Proof.
  intros (Ht & Hab & Hm) Hno Hq Hlog [F1 F2]. rewrite (System.trace_grows _ _ _ _ Hlog) in F1.
  apply app_inv_head in F1. change (omap _ new) with (by_server c new) in F1. rewrite Ht, F1, F2, Hab.
  assert (forall l f, TcpServer.about c sv = [(l, f)] -> (l, f) ∈ TcpServer.pending sv) as Hin.
  { intros l f E. assert ((l, f) ∈ TcpServer.about c sv) as [_ ?]%list_elem_of_filter by (rewrite E; by left). done. }
  destruct p; cbn [TcpServer.phase_tasks TcpServer.phase_trace TcpServer.phase_listed owed] in *.
  - rewrite bool_decide_true by (by apply Hm). specialize (Hq _ _ (Hin _ _ Hab)). cbn in Hq.
    rewrite (proj2 (Z.eqb_neq _ _)) by congruence. by left.
  - rewrite bool_decide_true by (by apply Hm). destruct (Z.eqb_spec (TcpServer.loop_ sv) (TcpServer.conn_loop conn)); [right|left]; done.
  - by destruct (Hno _ _ (Hin _ _ Hab)).
  - rewrite bool_decide_false by tauto. by left.
  - rewrite bool_decide_false by tauto. by left.
Qed.

Record ended (sv : TcpServer.t) (new : list (nat * TcpServer.act)) (sv' : TcpServer.t) : Prop := {
  e_dead : TcpServer.alive sv' = false /\ TcpServer.connections_ sv' = ∅;
  e_conns : TcpServer.conns sv' = TcpServer.conns sv;
  e_loops : TcpServer.loops sv' = TcpServer.loops sv;
  e_log : TcpServer.log sv' = TcpServer.log sv ++ new;
  e_pending : exists q, TcpServer.pending sv' = TcpServer.pending sv ++ q;
  e_trace : forall c, let tr := swept new (fun d => TcpServer.trace d sv) c in
    TcpServer.trace c sv' = tr \/
    tr = System.gone /\ TcpServer.trace c sv' = [TcpServer.ActEstablished; TcpServer.ActDestroyed];
  e_new : NoDup (fst <$> new) /\ forall c a, (c, a) ∈ new ->
    a = TcpServer.ActDestroyed /\ TcpServer.trace c sv = [TcpServer.ActEstablished] /\
    exists conn, TcpServer.conns sv !! c = Some conn /\ TcpServer.conn_loop conn = TcpServer.loop_ sv;
  e_owed : forall c conn, TcpServer.conns sv !! c = Some conn ->
    TcpServer.about c sv' = owed conn c (swept new (fun d => TcpServer.trace d sv) c);
  e_known : forall l f, (l, f) ∈ TcpServer.pending sv' -> exists c,
    (f = TcpServer.Established c \/ f = TcpServer.Destroyed c) /\ is_Some (TcpServer.conns sv !! c) }.

Lemma known_before sv l f : TcpServer.inv sv -> no_removal sv -> (l, f) ∈ TcpServer.pending sv ->
  exists c, (f = TcpServer.Established c \/ f = TcpServer.Destroyed c) /\ is_Some (TcpServer.conns sv !! c).
Proof.
  intros Hi Hno Hin. assert (forall c, TcpServer.task_conn f = Some c -> is_Some (TcpServer.conns sv !! c)) as Hc.
  { intros c Hf. pose proof (TcpServer.inv_phase _ _ Hi c I) as Hp. unfold TcpServer.phase_ok in Hp.
    destruct (TcpServer.conns sv !! c); [done|]. destruct Hp as [_ Hp].
    pose proof (TcpServer.about_elem c l f sv Hin Hf) as Ha. rewrite Hp in Ha. by apply not_elem_of_nil in Ha. }
  destruct f as [c|c|c|].
  - exists c. auto.
  - by destruct (Hno l c).
  - exists c. auto.
  - destruct (proj2 (TcpServer.inv_alive _ _ Hi) l _ Hin).
Qed.

Lemma wp_ends sv : TcpServer.inv sv -> no_removal sv ->
  wp (TcpServer.destructor (TcpServer.loop_ sv)) (fun _ sv' => exists new, ended sv new sv') sv.
Proof.
  intros Hi Hno. eapply wpe_mono; [apply wpe_conj_wlp; [by apply TcpServer.wp_destructor|apply TcpServer.destructor_moves]|].
  cbn beta. intros _ sv' ((Hd1 & Hd2 & Hfin) & Hc & Hl & (new & Hlog & Hnew) & q & Hq & Hqn). exists new.
  pose proof (proj2 (TcpServer.inv_alive _ _ Hi)) as Hqok.
  assert (forall c conn, TcpServer.conns sv !! c = Some conn ->
    by_server c new = [] /\ TcpServer.about c sv' = owed conn c (TcpServer.trace c sv) \/
    by_server c new = [TcpServer.ActDestroyed] /\ TcpServer.trace c sv = [TcpServer.ActEstablished] /\
      TcpServer.about c sv' = [] /\ TcpServer.conn_loop conn = TcpServer.loop_ sv) as Hcases.
  { intros c conn Hcc. pose proof (TcpServer.inv_phase _ _ Hi c I) as Hp. unfold TcpServer.phase_ok in Hp. rewrite Hcc in Hp.
    destruct Hp as [p Hp]. by apply (finished_cases c conn p sv sv' new), Hfin. }
  rewrite list.Forall_forall in Hnew.
  assert (forall c, by_server c new = [] \/
    by_server c new = [TcpServer.ActDestroyed] /\ TcpServer.trace c sv = [TcpServer.ActEstablished]) as Hby.
  { intros c. destruct (TcpServer.conns sv !! c) as [conn|] eqn:Hcc.
    - destruct (Hcases c conn Hcc) as [[-> _]|(-> & ? & _)]; auto.
    - left. apply by_server_none. intros ([d a] & -> & Hin)%list_elem_of_fmap.
      destruct (Hnew _ Hin) as [x Hx]. cbn in *. congruence. }
  constructor; try done; [by exists q|..].
  - intros c tr. pose proof (System.trace_grows _ _ _ c Hlog) as Ht. change (omap _ new) with (by_server c new) in Ht.
    unfold tr, swept. destruct (Hby c) as [E|[E Ec]]; rewrite E in Ht.
    + left. rewrite app_nil_r in Ht. by rewrite decide_False by (by apply by_server_none).
    + right. rewrite Ec in Ht. split; [|exact Ht]. rewrite decide_True; [done|].
      destruct (decide (c ∈ fst <$> new)) as [?|Hn]; [done|]. apply by_server_none in Hn. congruence.
  - split.
    + apply by_server_NoDup. intros c. destruct (Hby c) as [->|[-> _]]; cbn; lia.
    + intros c a Hin. destruct (Hnew _ Hin) as [conn Hcc]. cbn in Hcc. pose proof (by_server_elem _ _ _ Hin) as Ha.
      destruct (Hcases c conn Hcc) as [[E _]|(E & Ht & _ & El)]; rewrite E in Ha; [by apply not_elem_of_nil in Ha|].
      apply list_elem_of_singleton in Ha. by split; [|split; [|exists conn]].
  - intros c conn Hcc. unfold swept. destruct (Hcases c conn Hcc) as [[E ->]|(E & Ht & -> & _)].
    + rewrite decide_False; [done|]. by apply by_server_none.
    + rewrite decide_True; [done|]. destruct (decide (c ∈ fst <$> new)) as [?|Hn]; [done|].
      apply by_server_none in Hn. congruence.
  - intros l f. rewrite Hq. intros [Hin|Hin]%elem_of_app; [by eapply known_before|].
    rewrite list.Forall_forall in Hqn. destruct (Hqn _ Hin) as (c & E & Hs). exists c. auto.
Qed.
Lemma wpe_destroy s : System.inv others s -> no_removal (server s) -> steady s ->
  wpe TcpConnection.external (destroy tie script) (fun _ s' => exists new,
    dying (swept new (System.traces s)) s' /\ ended (server s) new (server s')) s.
Proof.
  intros Hi Hno Hst. unfold destroy, System.server_do. wp_steps. apply wpe_zoom. wp_steps.
  apply (wpe_weaken (fun _ => False)); [|intros ? []].
  eapply wpe_mono; [by apply wp_ends, Hno; apply Hi|]. cbn beta.
  intros _ sv' (new & He). pose proof He as [E1 E2 E3 E4 _ E5 E6 E7 E8]. wp_steps. cbn [System.server System.set_server].
  rewrite (System.drop_app_log _ _ _ E4). eapply wpe_mono; [apply (wpe_perform_all new (System.traces s))|].
  - apply (System.placed_server others (System.traces s) _ all); [apply Hi|done..].
  - exact Hst.
  - apply E6.
  - intros c a Hin. destruct (proj2 E6 c a Hin) as (-> & Ht & conn & Hs & _). cbn [System.server System.set_server]. rewrite E2.
    split; [|by exists conn]. split; [done|]. by left.
  - cbn beta. intros _ s' (Hp & Hst' & Es). cbn [System.server System.set_server] in Es.
    exists new. rewrite Es. split; [|done]. constructor; rewrite ?Es, ?E2; done.
Qed.
(** ** The loops go on *)

Definition act_of (f : TcpServer.task) : TcpServer.act :=
  match f with TcpServer.Established _ => TcpServer.ActEstablished | _ => TcpServer.ActDestroyed end.

Lemma owed_first conn c tr l f rest : owed conn c tr = (l, f) :: rest ->
  exists x, due (act_of f) tr x /\ rest = owed conn c x /\
    (tr ++ [act_of f] = x \/ x = System.gone /\ tr ++ [act_of f] = [TcpServer.ActEstablished; TcpServer.ActDestroyed]).
Proof.
  destruct tr as [|[] [|[] [|? ?]]]; cbn; try done; intros [= <- <- <-].
  - exists [TcpServer.ActEstablished]. split; [done|]. split; [done|by left].
  - exists System.gone. split; [by split; [|left]|]. split; [done|by right].
  - exists System.gone. split; [by split; [|right]|]. split; [done|by left].
Qed.

Definition left_over (l : Z) (q : list (Z * TcpServer.task)) : list (Z * TcpServer.task) :=
  match TcpServer.pop l q with Some (_, q') => q' | None => q end.

(** The server's part of running a functor. *)
Lemma dying_popped tr s l f q : dying tr s -> TcpServer.pop l (TcpServer.pending (server s)) = Some (f, q) ->
  exists c conn x, TcpServer.conns (server s) !! c = Some conn /\ due (act_of f) (tr c) x /\
    (f = TcpServer.Established c \/ f = TcpServer.Destroyed c) /\
    TcpServer.exec l f = modify (TcpServer.emit c (act_of f)) /\
    forall s', server s' = TcpServer.emit c (act_of f) (TcpServer.set_pending q (server s)) ->
      placed (upd c x tr) all s' -> steady s' -> dying (upd c x tr) s'.
Proof.
  intros [D1 D2 D3 D4 D5 D6] Hp. pose proof (TcpServer.pop_split _ _ _ _ Hp) as (q1 & q2 & Eq & Eq').
  destruct (D5 l f) as (c & Hf & [conn Hc]); [rewrite Eq; set_solver|].
  assert (TcpServer.task_conn f = Some c) as Hfc by (by destruct Hf as [-> | ->]).
  assert (TcpServer.about c (server s) = (l, f) :: TcpServer.about c (TcpServer.set_pending q (server s))) as Hab.
  { apply (TcpServer.about_first l f q c _ (TcpServer.conn_loop conn)); [done..|]. intros y. rewrite (D4 c conn Hc).
    destruct (tr c) as [|[] [|[] [|? ?]]]; cbn; set_solver. }
  rewrite (D4 c conn Hc) in Hab. destruct (owed_first conn c (tr c) l f _ Hab) as (x & Hd & Hrest & Htr).
  exists c, conn, x. split; [done|]. split; [done|]. split; [done|]. split; [by destruct Hf as [-> | ->]|].
  intros s' Es Hpl Hst. constructor; rewrite ?Es; cbn [TcpServer.emit TcpServer.set_pending TcpServer.conns TcpServer.alive
    TcpServer.connections_ TcpServer.pending]; try done.
  - intros d. rewrite TcpServer.trace_emit. change (TcpServer.trace d (TcpServer.set_pending q (server s))) with (TcpServer.trace d (server s)).
    destruct (decide (c = d)) as [<-|Hne]; [rewrite upd_eq|rewrite upd_ne by done; rewrite app_nil_r; apply D3].
    destruct (D3 c) as [->|[Hg _]]; [|by destruct (due_live _ _ _ Hd)]. exact Htr.
  - intros d dn Hdn. change (TcpServer.about d (TcpServer.emit _ _ ?sv)) with (TcpServer.about d sv).
    destruct (decide (d = c)) as [->|Hne].
    + assert (dn = conn) as -> by congruence. by rewrite upd_eq.
    + rewrite upd_ne, <- (D4 d dn Hdn) by done. apply (TcpServer.about_popped l f q d _ Hp). congruence.
  - intros l' g Hin. apply (D5 l' g). rewrite Eq. rewrite Eq' in Hin. set_solver.
Qed.

(** Who is gone after a loop has run its oldest functor. *)
Definition ran (l : Z) (q : list (Z * TcpServer.task)) (tr tr' : nat -> list TcpServer.act) : Prop := forall d,
  tr' d = System.gone <-> tr d = System.gone \/ exists q', TcpServer.pop l q = Some (TcpServer.Destroyed d, q').

Lemma due_ran l f c q q' tr x : TcpServer.pop l q = Some (f, q') ->
  f = TcpServer.Established c \/ f = TcpServer.Destroyed c -> due (act_of f) (tr c) x -> ran l q tr (upd c x tr).
Proof.
  intros Hp Hf Hdue d. rewrite Hp. destruct (decide (d = c)) as [->|Hne].
  - rewrite upd_eq. destruct Hf as [-> | ->]; cbn in Hdue.
    + destruct Hdue as [-> ->]. split; [done|]. by intros [?|[? [=]]].
    + destruct Hdue as [-> _]. split; [|done]. intros _. right. by exists q'.
  - rewrite upd_ne by done. split; [by left|]. intros [?|[q'' [= -> _]]]; [done|]. by destruct Hf as [[=]|[= ?]].
Qed.

Lemma wpe_sd_functor tr l s : dying tr s ->
  wpe TcpConnection.external (step getLocalAddr tie script (RunFunctor l)) (fun _ s' =>
    (steady s' -> exists tr', dying tr' s' /\ ran l (TcpServer.pending (server s)) tr tr') /\
    TcpServer.conns (server s') = TcpServer.conns (server s) /\
    TcpServer.pending (server s') = left_over l (TcpServer.pending (server s))) s.
Proof.
  intros Hd. cbn [step]. unfold System.server_step, System.server_do, left_over. wp_steps. apply wpe_zoom.
  cbn [TcpServer.step]. wp_steps. destruct (TcpServer.pop l (TcpServer.pending (server s))) as [[f q]|] eqn:Hp.
  - destruct (dying_popped tr s l f q Hd Hp) as (c & conn & x & Hc & Hdue & Hf & Ex & Hnext). wp_steps. rewrite Ex. wp_steps.
    cbn [System.server System.set_server TcpServer.log TcpServer.emit TcpServer.set_pending].
    rewrite drop_app_length. cbn [for_each]. wp_steps. set (s1 := System.set_server _ s).
    eapply wpe_mono; [apply (wpe_perform_due tr c (act_of f) x conn s1); [|apply Hd|exact Hc|exact Hdue]|].
    + by apply (System.placed_server others tr _ all); [apply Hd|..].
    + cbn beta. intros _ s' (Hi' & Es & _). wp_steps. rewrite Es. split; [|done]. intros Hst. exists (upd c x tr).
      split; [by apply Hnext|by eapply due_ran].
  - wp_steps. cbn [System.server System.set_server]. rewrite drop_all. cbn [for_each]. wp_steps. rewrite set_server_id.
    split; [|done]. intros _. exists tr. split; [done|]. intros d. split; [by left|]. intros [?|[q Hq]]; [done|]. congruence.
Qed.
(** Events, functors, timers and calls of the connections, none of which
    closes one. *)
Definition allowed (o : op) (s : T) : Prop :=
  match o with
  | RunFunctor _ => True
  | Conn c o => o <> TcpConnection.OpEstablish /\ o <> TcpConnection.OpDestroy /\
      (exists conn ch k w, System.conn_at c conn ch k w s /\
        TcpConnection.allowed ch (TcpServer.conn_fd conn) o (TcpConnection.set_world w k)) /\
      match System.on_conn c (fun ch => TcpConnection.step ch tie script o) s with
      | Ok (_, s') => System.closes_of c s' = System.closes_of c s
      | Err _ => True
      end
  end.
Notation sd_step := (step getLocalAddr tie script).
Fixpoint allowed_run (l : list op) (s : T) : Prop :=
  match l with
  | [] => True
  | o :: l => allowed o s /\ match sd_step o s with Ok (_, s') => steady s' /\ allowed_run l s' | Err _ => True end
  end.

Lemma wpe_goes_on tr c o s : dying tr s -> allowed (Conn c o) s ->
  wpe TcpConnection.external (sd_step (Conn c o)) (fun _ s' => (steady s' -> dying tr s') /\ server s' = server s) s.
Proof.
  intros Hd (Hne & Hnd & (conn & ch & k & w & Hat & Ha) & Hq). pose proof (d_placed _ _ Hd) as Hi.
  destruct (System.i_conn _ _ _ _ Hi c conn ch k w I Hat) as [Hf Hst].
  cbn [step]. unfold System.conn_step. wp_steps.
  pose proof (System.wpe_conn_runs tie script tie_keeps script_ok others tr c conn ch k w o s Hi Hat Ha Hne Hnd) as Hrun.
  unfold wpe in Hrun |- * at 1. destruct (System.on_conn _ _ s) as [[[] s1]|e]; [|done].
  destruct Hrun as (Hi1 & k' & -> & Hat1 & Hf1 & _ & Had). wp_steps. rewrite Hq, Z.ltb_irrefl. cbn [when]. wp_steps.
  split; [|done]. intros Hs. rewrite (System.closes_of_at _ _ _ _ _ _ Hat), (System.closes_of_at _ _ _ _ _ _ Hat1) in Hq.
  destruct (System.advanced_cases _ _ _ _ _ Hf Hf1 Had Hst) as [[_ Hst1]|(_ & Hlt & _)]; [|cbn in Hlt; lia].
  destruct Hd as [D1 D2 D3 D4 D5 D6]. constructor; try done. by apply (System.conn_back others tr c conn ch k').
Qed.

(** The functors in the queues after a step. *)
Definition remaining (q : list (Z * TcpServer.task)) (o : op) : list (Z * TcpServer.task) :=
  match o with RunFunctor l => left_over l q | Conn _ _ => q end.

Lemma wpe_sd_run l s : (exists tr, dying tr s) -> allowed_run l s ->
  wpe TcpConnection.external (for_each sd_step l) (fun _ s' => (exists tr, dying tr s') /\
    TcpServer.conns (server s') = TcpServer.conns (server s) /\
    TcpServer.pending (server s') = foldl remaining (TcpServer.pending (server s)) l) s.
Proof.
  revert s. induction l as [|o l IH]; intros s [tr Hd] Ha; cbn [for_each]; [wp_steps; split; [by exists tr|done]|].
  destruct Ha as [Ha Hl]. apply wpe_bind.
  assert (wpe TcpConnection.external (sd_step o) (fun _ s' => (steady s' -> exists tr', dying tr' s') /\
    TcpServer.conns (server s') = TcpServer.conns (server s) /\
    TcpServer.pending (server s') = remaining (TcpServer.pending (server s)) o) s) as Hs.
  { destruct o as [l'|c o].
    { eapply wpe_mono; [by apply (wpe_sd_functor tr)|]. cbn beta. intros _ s' (Hs & ? & ?). split; [|done]. intros Hst.
      destruct (Hs Hst) as (tr' & ? & _). by exists tr'. }
    eapply wpe_mono; [by apply (wpe_goes_on tr)|]. cbn beta.
    intros _ s' [Hs ->]. split; [|done]. intros ?. exists tr. auto. }
  unfold wpe in Hs |- * at 1. destruct (sd_step o s) as [[[] s1]|e]; [|done]. destruct Hs as (Hs1 & Ec & Eq), Hl as [Hst Hl].
  eapply wpe_mono; [by apply IH; [apply Hs1|]|]. cbn beta. intros _ s' (? & ? & Ep).
  split; [done|]. split; [congruence|]. by rewrite Ep, Eq.
Qed.

(** How many functors a loop has, and how many it runs. *)
Definition waiting (l : Z) (q : list (Z * TcpServer.task)) : nat := length (filter (fun x => fst x = l) q).
Definition runs (l : Z) (ops : list op) : nat :=
  length (filter (fun o => match o with RunFunctor l' => l' =? l | Conn _ _ => false end = true) ops).

Lemma waiting_left l l' q : waiting l (left_over l' q) = (waiting l q - if decide (l' = l) then 1 else 0)%nat.
Proof.
  unfold left_over. destruct (TcpServer.pop l' q) as [[f q']|] eqn:Hp.
  - apply TcpServer.pop_split in Hp as (q1 & q2 & -> & ->). unfold waiting. rewrite !list.filter_app, !length_app, filter_cons. cbn [fst].
    case_decide; cbn; lia.
  - case_decide as El; [subst l'|lia]. unfold waiting. induction q as [|[l' f] q IH]; [done|]. rewrite filter_cons. cbn in Hp |- *.
    destruct (Z.eqb_spec l' l) as [->|Hne]; [done|]. destruct (TcpServer.pop l q) as [[]|]; [done|].
    rewrite decide_False by done. by apply IH.
Qed.

Lemma waiting_run l ops q : waiting l (foldl remaining q ops) = (waiting l q - runs l ops)%nat.
Proof.
  revert q. induction ops as [|o ops IH]; intros q; cbn [foldl]; [unfold runs; cbn; lia|]. rewrite IH. unfold runs.
  destruct o as [l'|c o]; cbn [remaining].
  - rewrite waiting_left, filter_cons. destruct (Z.eqb_spec l' l); [rewrite !decide_True by done|rewrite !decide_False by done]; cbn; lia.
  - by rewrite filter_cons_False.
Qed.

Lemma waiting_none q : (forall l, waiting l q = 0%nat) -> q = [].
Proof.
  destruct q as [|[l f] q]; [done|]. intros Hw. specialize (Hw l). unfold waiting in Hw. rewrite filter_cons_True in Hw by done.
  cbn in Hw. lia.
Qed.
(** Each connection and the functors that are left for it. *)
Definition ending (s : T) : Prop := forall c conn, TcpServer.conns (server s) !! c = Some conn ->
  exists tr ch k w, System.conn_at c conn ch k w s /\ TcpServer.about c (server s) = owed conn c tr /\
    System.in_state tr ch (TcpServer.conn_fd conn) (TcpConnection.set_world w k) /\
    System.sound ch (TcpServer.conn_fd conn) (TcpConnection.set_world w k).

(** Every connection has been destroyed once and the pollers have what they
    had before the server. *)
Definition closed (s : T) : Prop :=
  TcpServer.pending (server s) = [] /\ TcpServer.connections_ (server s) = ∅ /\
  (forall c conn, TcpServer.conns (server s) !! c = Some conn ->
     (TcpServer.trace c (server s) = System.gone \/
      TcpServer.trace c (server s) = [TcpServer.ActEstablished; TcpServer.ActDestroyed]) /\
     exists ch k w, System.conn_at c conn ch k w s /\ TcpConnection.state_ k = TcpConnection.kDisconnected) /\
  forall l w fd ch, System.worlds s !! l = Some w -> channels_ (poller w) !! fd = Some ch -> others fd.

Lemma dying_ending tr s : dying tr s -> ending s.
Proof.
  intros [D1 D2 D3 D4 D5 D6] c conn Hc. destruct (System.conn_at_exists _ _ _ _ c conn D2 Hc) as (ch & k & w & Hat).
  destruct (System.i_conn _ _ _ _ D2 c conn ch k w I Hat) as [Hf Hst]. exists (tr c), ch, k, w. split; [done|].
  split; [by apply D4|]. split; [done|by apply System.fine_sound].
Qed.

Lemma dying_closed tr s : dying tr s -> TcpServer.pending (server s) = [] -> closed s.
Proof.
  intros [D1 D2 D3 D4 D5 D6] Hp.
  assert (forall c conn ch k w, System.conn_at c conn ch k w s -> tr c = System.gone /\
    TcpConnection.state_ k = TcpConnection.kDisconnected /\ channels_ (poller w) !! TcpServer.conn_fd conn <> Some ch) as Hend.
  { intros c conn ch k w Hat. destruct (System.i_conn _ _ _ _ D2 c conn ch k w I Hat) as [_ Hst].
    pose proof (D4 c conn (System.at_conn _ _ _ _ _ _ Hat)) as Ho. unfold TcpServer.about in Ho. rewrite Hp in Ho.
    destruct (tr c) as [|[] [|[] [|[] [|]]]]; try done; by destruct Hst. }
  split; [done|]. split; [apply D1|]. split.
  - intros c conn Hc. destruct (System.conn_at_exists _ _ _ _ c conn D2 Hc) as (ch & k & w & Hat).
    destruct (Hend c conn ch k w Hat) as (Hg & Hk & _). split; [|by exists ch, k, w].
    destruct (D3 c) as [E|[_ E]]; [left; congruence|by right].
  - intros l w fd ch Hw Hr. destruct (System.i_registered _ _ _ _ D2 l w fd ch Hw Hr) as [?|(c & conn & k & Hc & Hk & <- & <-)]; [done|].
    exfalso. by destruct (Hend c conn ch k w) as (_ & _ & []); [constructor|].
Qed.

End registered.

(** C4: The end of a server.  From any state the running server can reach in
    which no connection is shutting down ([kDisconnecting]) and no close
    callback is on its way to it, [~TcpServer] fails no assertion, and
    whatever the loops, timers and users do to the connections afterwards
    that is [allowed] and leaves the system [steady], neither do the functors
    it left.  That is, besides what [System.server_works] asks of events and
    calls: no step closes a connection, and after no step is one shutting
    down; a [shutdown()] after [~TcpServer], which closes nothing, makes
    [connectDestroyed] fail its assertion
    ([shutdown_after_destructor_asserts]).  At any time each connection is in
    the state that goes with the functors that are left for it; and when
    every loop has run as many functors as were in its queue, the queues are
    empty, every connection has been destroyed exactly once and is
    disconnected, and the pollers have no channel that was not there before
    the server. *)
Theorem server_closes ws n loop ipPort name cb l s l2 : 0 <= n < 2 ^ 31 -> slen (c_str ipPort) <= 50 ->
  (forall l, l ∈ loop :: (startLoop <$> seqZ 0 n) -> exists w a, ws !! l = Some w /\ Registry.refines a w) ->
  (forall s, System.open startLoop n loop (System.make ws loop ipPort name cb) = Ok (tt, s) ->
     System.allowed_run getLocalAddr tie script new_address socket writeComplete highWater l s) ->
  (System.open startLoop n loop ;;;
   for_each (System.step getLocalAddr tie script new_address socket writeComplete highWater) l)
    (System.make ws loop ipPort name cb) = Ok (tt, s) ->
  no_removal (server s) -> steady s ->
  wpe TcpConnection.external (destroy tie script) (fun _ s1 => allowed_run l2 s1 ->
    wpe TcpConnection.external (for_each (step getLocalAddr tie script) l2) (fun _ s' =>
      TcpServer.conns (server s') = TcpServer.conns (server s) /\ ending s' /\
      ((forall l, (waiting l (TcpServer.pending (server s1)) <= runs l l2)%nat) -> closed (System.initial ws) s')) s1) s.
Proof.
  intros Hn Hip Hws Hl Hs Hno Hst.
  assert (System.inv (System.initial ws) s) as Hi.
  { pose proof (System.wpe_sys_open (K := K) startLoop ws n loop ipPort name cb Hn Hip Hws) as Ho. unfold wpe in Ho. unfold bind in Hs.
    destruct (System.open startLoop n loop _) as [[[] s0]|e]; [|done].
    refine (wpe_elim _ _ (fun _ => System.inv (System.initial ws)) _ _ _ _ Hs). by apply (System.wpe_sys_run startLoop); [..|apply Hl]. }
  eapply wpe_mono; [by apply (wpe_destroy (System.initial ws))|]. cbn beta. intros _ s1 (new & Hd & He) Ha.
  pose proof (e_conns _ _ _ He) as Ec. eapply wpe_mono; [by apply (wpe_sd_run (System.initial ws)); [eexists|]|]. cbn beta.
  intros _ s' ([tr' Hd'] & Ec' & Ep). split; [congruence|]. split; [by eapply dying_ending|]. intros Hw.
  apply (dying_closed _ tr'); [done|]. apply waiting_none. intros l0. rewrite Ep, waiting_run. specialize (Hw l0). lia.
Qed.
End invariant.

(** ** A concrete end

    The server of [System.sample_ops] is destroyed with a connection that
    works in loop 100 and one that waits in loop 101.  The first still echoes
    what has arrived; then the loops run what is left. *)
Section sample.
Notation T := (System.t (EPollPoller.t Sample.ep) TcpConnection.sock).
Definition sample_before : list System.op := take 3 System.sample_ops.
Definition sample_step : op -> M T unit :=
  step System.sample_local TcpConnection.sample_tie TcpConnection.sample_script.
Definition sample_ops : list op :=
  [Conn 0 (TcpConnection.OpEvents EPOLLIN 5); Conn 0 TcpConnection.OpFunctor; RunFunctor 101; RunFunctor 100; RunFunctor 101].
Definition sample_1 : T := match destroy TcpConnection.sample_tie TcpConnection.sample_script (System.sample_state 3) with Ok (_, s) => s | Err _ => System.sample_state 3 end.
Definition sample_after (o : op) (s : T) : T := match sample_step o s with Ok (_, s') => s' | Err _ => s end.
Definition sample_state (n : nat) : T := foldl (fun s o => sample_after o s) sample_1 (take n sample_ops).

Lemma sample_before_allowed s : System.sample_open System.sample_make = Ok (tt, s) ->
  System.allowed_run System.sample_local TcpConnection.sample_tie TcpConnection.sample_script System.sample_address
    System.sample_socket true false sample_before s.
Proof.
  rewrite System.sample_opened. intros [= <-].
  assert (forall n l, sample_before = take n System.sample_ops ++ l -> System.allowed_run System.sample_local
    TcpConnection.sample_tie TcpConnection.sample_script System.sample_address System.sample_socket true false l (System.sample_state n)) as Hall.
  { intros n l. revert n. induction l as [|o l IH]; intros n Hn; cbn [System.allowed_run]; [done|].
    assert (n < 3)%nat as Hlt.
    { apply (f_equal length) in Hn. rewrite length_app, length_take in Hn. cbn in Hn. lia. }
    assert (System.sample_ops !! n = Some o) as Ho.
    { rewrite <- (lookup_take_lt System.sample_ops 3 n) by done. change (take 3 System.sample_ops) with sample_before. rewrite Hn.
      rewrite lookup_app_r by (rewrite length_take; lia). rewrite length_take. cbn. by replace (n - _)%nat with 0%nat by lia. }
    split; [by apply System.sample_each|]. pose proof (System.sample_next n o Ho) as Hs. unfold System.sample_step in Hs. rewrite Hs.
    apply IH. rewrite Hn. rewrite (take_S_r _ _ o Ho). by rewrite <- app_assoc. }
  by apply (Hall 0%nat).
Qed.
Lemma sample_before_final : (System.sample_open ;;; for_each System.sample_step sample_before) System.sample_make =
  Ok (tt, System.sample_state 3).
Proof. by vm_compute. Qed.

#[local] Existing Instance TcpConnection.StateE_eq_dec.
Lemma steady_check (s : T) : Forall (fun x => TcpConnection.state_ (snd x) <> TcpConnection.kDisconnecting) (System.cells s) -> steady s.
Proof. intros Hs c ch k Hk. by apply (proj1 (Forall_lookup _ _) Hs c (ch, k)). Qed.
Lemma sample_steady n : (n <= 5)%nat -> steady (sample_state n).
Proof.
  intros Hn. apply steady_check. do 6 (destruct n as [|n]; [apply (bool_decide_unpack _); by vm_compute|]). lia.
Qed.
Lemma sample_end_next n o : sample_ops !! n = Some o -> sample_step o (sample_state n) = Ok (tt, sample_state (S n)).
Proof. do 5 (destruct n as [|n]; [intros [= <-]; by vm_compute|]). done. Qed.
Lemma sample_end_allowed n o : sample_ops !! n = Some o ->
  allowed TcpConnection.sample_tie TcpConnection.sample_script o (sample_state n).
Proof.
  destruct n as [|[|[|[|[|n]]]]]; [intros [= <-]..|done]; try exact I.
  - split; [done|]. split; [done|]. split; [|by vm_compute].
    eexists _, _, _, _. split; [constructor; vm_compute; reflexivity|]. split; [by vm_compute; left|by vm_compute].
  - split; [done|]. split; [done|]. split; [|by vm_compute].
    eexists _, _, _, _. split; [constructor; vm_compute; reflexivity|]. exact I.
Qed.
Lemma sample_end_run : allowed_run System.sample_local TcpConnection.sample_tie TcpConnection.sample_script sample_ops sample_1.
Proof.
  assert (forall l n, drop n sample_ops = l -> allowed_run System.sample_local TcpConnection.sample_tie
    TcpConnection.sample_script l (sample_state n)) as Hall.
  { induction l as [|o l IH]; intros n Hn; cbn [allowed_run]; [done|].
    assert (sample_ops !! n = Some o) as Ho by (by rewrite <- (Nat.add_0_r n), <- lookup_drop, Hn).
    split; [by apply sample_end_allowed|]. pose proof (sample_end_next n o Ho) as Hs. unfold sample_step in Hs. rewrite Hs.
    split; [apply sample_steady; apply lookup_lt_Some in Ho; exact Ho|].
    apply IH. rewrite <- Nat.add_1_r, <- drop_drop, Hn. done. }
  assert (sample_state 0 = sample_1) as <- by (unfold sample_state; by rewrite take_0). by apply Hall.
Qed.
Lemma sample_no_removal : no_removal (System.server (System.sample_state 3)).
Proof.
  intros l c Hin. assert (TcpServer.pending (System.server (System.sample_state 3)) = [(101, TcpServer.Established 1)]) as E
    by by vm_compute.
  rewrite E in Hin. by apply list_elem_of_singleton in Hin.
Qed.

Lemma sample_waits l :
  (waiting l [(101%Z, TcpServer.Established 1); (100%Z, TcpServer.Destroyed 0); (101%Z, TcpServer.Destroyed 1)] <= runs l sample_ops)%nat.
Proof.
  destruct (decide (l = 101)) as [->|H1]; [vm_compute; lia|]. destruct (decide (l = 100)) as [->|H2]; [vm_compute; lia|].
  unfold waiting. rewrite !filter_cons_False by (cbn; congruence). cbn. lia.
Qed.

Lemma sample_before_steady : steady (System.sample_state 3).
Proof. apply steady_check, (bool_decide_unpack _). by vm_compute. Qed.
Lemma sample_destroyed : destroy TcpConnection.sample_tie TcpConnection.sample_script (System.sample_state 3) = Ok (tt, sample_1).
Proof. by vm_compute. Qed.
Lemma sample_left : TcpServer.pending (System.server sample_1) =
  [(101, TcpServer.Established 1); (100, TcpServer.Destroyed 0); (101, TcpServer.Destroyed 1)].
Proof. by vm_compute. Qed.
Lemma sample_left_waits l : (waiting l (TcpServer.pending (System.server sample_1)) <= runs l sample_ops)%nat.
Proof. rewrite sample_left. apply sample_waits. Qed.
Lemma sample_ran : for_each (step System.sample_local TcpConnection.sample_tie TcpConnection.sample_script) sample_ops sample_1 =
  Ok (tt, sample_state 5).
Proof. by vm_compute. Qed.
Lemma sample_wires : (fun x => TcpConnection.wire (TcpConnection.log (snd x))) <$> System.cells (sample_state 5) =
  [TcpConnection.hello; []].
Proof. by vm_compute. Qed.

Lemma server_closes_witness :
  destroy TcpConnection.sample_tie TcpConnection.sample_script (System.sample_state 3) = Ok (tt, sample_1) /\
  TcpServer.pending (System.server sample_1) =
    [(101, TcpServer.Established 1); (100, TcpServer.Destroyed 0); (101, TcpServer.Destroyed 1)] /\
  for_each (step System.sample_local TcpConnection.sample_tie TcpConnection.sample_script) sample_ops sample_1 =
    Ok (tt, sample_state 5) /\
  closed (System.initial System.sample_worlds) (sample_state 5) /\
  (fun x => TcpConnection.wire (TcpConnection.log (snd x))) <$> System.cells (sample_state 5) = [TcpConnection.hello; []].
Proof.
  split; [exact sample_destroyed|]. split; [exact sample_left|]. split; [exact sample_ran|]. split; [|exact sample_wires].
  exact (proj2 (proj2 (wpe_elim _ _ _ _ _ _ (wpe_elim _ _ _ _ _ _ (server_closes System.sample_start System.sample_local
    TcpConnection.sample_tie TcpConnection.sample_script System.sample_address System.sample_socket true false
    TcpConnection.sample_tie_keeps TcpConnection.sample_script_ok System.sample_address_fresh System.sample_worlds 2 7
    "127.0.0.1:2007" "echo" false sample_before (System.sample_state 3) sample_ops ltac:(lia) ltac:(vm_compute; congruence)
    System.sample_worlds_ok sample_before_allowed sample_before_final sample_no_removal sample_before_steady)
    sample_destroyed sample_end_run) sample_ran)) sample_left_waits).
Defined.

(** What [steady] excludes. *)
Example shutdown_after_destructor_asserts :
  for_each (step System.sample_local TcpConnection.sample_tie TcpConnection.sample_script)
    [Conn 0 (TcpConnection.OpUser TcpConnection.Shutdown); RunFunctor 100] sample_1 = Err AssertFailed.
Proof. by vm_compute. Qed.
End sample.
End Shutdown.
