(* ===== verification/Ownership.v ===== *)
(** * The life of the connection objects (TcpServer.c++, TcpConnection.c++,
    WeakCallback.h, EventLoop::doPendingFunctors)

    A [TcpConnection] lives as long as a [TcpConnectionPtr] to it: in the
    server's map, in a functor bound to it, or in user code.  Here the
    functors that the server and the connections of [System] queue stand in
    the one queue of their loop, in order, and a connection nobody refers to
    is deleted, which closes its descriptor.  Some functors hold a bare
    [this]: using a deleted connection is [Undefined].  A call from another
    thread takes its steps one by one: the test of [state_], its setting, and
    the handing over to the loop. *)
From S2P Require Import Prelude Channel EPollPoller PollPoller Pollers EventLoop.
From S2P Require Import Text Endian SocketsOps EventLoopThreadPool TcpConnection TcpServer System.
#[local] Open Scope Z_scope.

(** ** What a connection queues *)

Module Queueing.

(** The functors that are bound to [shared_from_this()]; the others are bound
    to [this]. *)
Definition owning (f : TcpConnection.functor) : bool :=
  match f with
  | TcpConnection.ForceCloseInLoop | TcpConnection.WriteCompleteCallback | TcpConnection.HighWaterMarkCallback _ => true
  | _ => false
  end.
Definition bare (f : TcpConnection.functor) : bool := negb (owning f).
Lemma owning_bare f : owning f -> bare f = false.
Proof. by destruct f. Qed.

(** Between two states functors that own the connection were queued, and
    nothing else. *)
Definition queues {P K} (s s' : TcpConnection.t P K) : Prop :=
  exists new, TcpConnection.pending s' = TcpConnection.pending s ++ new /\ Forall owning new.
#[export] Instance queues_preorder {P K} : PreOrder (@queues P K).
Proof.
  split; [intros s; exists []; by rewrite app_nil_r|]. intros s s1 s2 (n1 & E1 & F1) (n2 & E2 & F2).
  exists (n1 ++ n2). rewrite E2, E1, app_assoc. split; [done|by apply Forall_app].
Qed.

Lemma queues_same {P K} (s s' : TcpConnection.t P K) : TcpConnection.pending s' = TcpConnection.pending s -> queues s s'.
Proof. intros E. exists []. by rewrite app_nil_r. Qed.
Lemma queues_one {P K} f (s : TcpConnection.t P K) : owning f -> queues s (TcpConnection.queueInLoop f s).
Proof. intros Hf. exists [f]. split; [done|by repeat constructor]. Qed.

Section connection.
Context {P K : Type} `{Poller P} `{TcpConnection.Socket K}.
Notation C := (TcpConnection.t P K).
Context (channel_ : Z) (tie : M C unit) (script : TcpConnection.callback -> C -> list TcpConnection.cmd).
Hypothesis tie_keeps : forall s, tie s = Ok (tt, s).

Lemma moves_set (f : C -> C) : (forall s, TcpConnection.pending (f s) = TcpConnection.pending s) -> moves queues (modify f).
Proof. intros Hf. apply moves_modify. intros s. by apply queues_same. Qed.
Lemma moves_queue f : owning f -> moves queues (modify (TcpConnection.queueInLoop f) : M C unit).
Proof. intros Hf. apply moves_modify. intros s. by apply queues_one. Qed.
Lemma moves_in_world {A} (m : M (World P) A) : moves queues (TcpConnection.in_world m : M C A).
Proof. apply (moves_zoom _ (fun _ _ => True)); [by intros s; unfold wpe; destruct (m s) as [[]|]|]. intros s t _. by apply queues_same. Qed.
Lemma moves_in_input {A} (m : M Buffer.Buffer.t A) : moves queues (TcpConnection.in_input m : M C A).
Proof. apply (moves_zoom _ (fun _ _ => True)); [by intros s; unfold wpe; destruct (m s) as [[]|]|]. intros s t _. by apply queues_same. Qed.
Lemma moves_in_output {A} (m : M Buffer.Buffer.t A) : moves queues (TcpConnection.in_output m : M C A).
Proof. apply (moves_zoom _ (fun _ _ => True)); [by intros s; unfold wpe; destruct (m s) as [[]|]|]. intros s t _. by apply queues_same. Qed.
#[local] Hint Resolve moves_in_world moves_in_input moves_in_output : moves.
#[local] Hint Extern 1 (moves queues (modify _)) => (apply moves_set; done) : moves.
#[local] Hint Extern 2 (moves queues (modify _)) => (apply moves_queue; done) : moves.

Lemma moves_isWriting : moves queues (TcpConnection.channel_isWriting channel_ : M C bool).
Proof. unfold TcpConnection.channel_isWriting. moves_tac. Qed.
Lemma moves_isReading : moves queues (TcpConnection.channel_isReading channel_ : M C bool).
Proof. unfold TcpConnection.channel_isReading. moves_tac. Qed.
#[local] Hint Resolve moves_isWriting moves_isReading : moves.
Lemma moves_write d : moves queues (TcpConnection.write d : M C _).
Proof. unfold TcpConnection.write. moves_tac. Qed.
#[local] Hint Resolve moves_write : moves.
Lemma moves_sendInLoop d : moves queues (TcpConnection.sendInLoop channel_ d : M C unit).
Proof. unfold TcpConnection.sendInLoop, TcpConnection.write_directly. moves_tac. Qed.
Lemma moves_shutdownInLoop : moves queues (TcpConnection.shutdownInLoop channel_ : M C unit).
Proof. unfold TcpConnection.shutdownInLoop. moves_tac. Qed.
Lemma moves_startReadInLoop : moves queues (TcpConnection.startReadInLoop channel_ : M C unit).
Proof. unfold TcpConnection.startReadInLoop. moves_tac. Qed.
Lemma moves_stopReadInLoop : moves queues (TcpConnection.stopReadInLoop channel_ : M C unit).
Proof. unfold TcpConnection.stopReadInLoop. moves_tac. Qed.
Lemma moves_forceClose : moves queues (TcpConnection.forceClose : M C unit).
Proof. unfold TcpConnection.forceClose. moves_tac. Qed.
#[local] Hint Resolve moves_sendInLoop moves_shutdownInLoop moves_startReadInLoop moves_stopReadInLoop moves_forceClose : moves.

(** A call in the loop's thread queues no bare [this]. *)
Lemma moves_exec_cmd c : moves queues (TcpConnection.exec_cmd channel_ true c : M C unit).
Proof.
  unfold TcpConnection.exec_cmd, TcpConnection.send, TcpConnection.shutdown, TcpConnection.forceCloseWithDelay,
    TcpConnection.startRead, TcpConnection.stopRead, TcpConnection.run_or_queue. moves_tac.
Qed.
#[local] Hint Resolve moves_exec_cmd : moves.
Lemma moves_call_user cb : moves queues (TcpConnection.call_user channel_ script cb : M C unit).
Proof. unfold TcpConnection.call_user. moves_tac. Qed.
#[local] Hint Resolve moves_call_user : moves.
Lemma moves_handleError : moves queues (TcpConnection.handleError : M C unit).
Proof. unfold TcpConnection.handleError. moves_tac. Qed.
Lemma moves_handleClose : moves queues (TcpConnection.handleClose channel_ script : M C unit).
Proof. unfold TcpConnection.handleClose. moves_tac. Qed.
#[local] Hint Resolve moves_handleError moves_handleClose : moves.
Lemma moves_handleRead : moves queues (TcpConnection.handleRead channel_ script : M C unit).
Proof. unfold TcpConnection.handleRead. moves_tac. Qed.
Lemma moves_handleWrite : moves queues (TcpConnection.handleWrite channel_ : M C unit).
Proof. unfold TcpConnection.handleWrite. moves_tac. Qed.
#[local] Hint Resolve moves_handleRead moves_handleWrite : moves.
Lemma moves_run_channel cb time : moves queues (TcpConnection.run_channel channel_ script cb time : M C unit).
Proof. unfold TcpConnection.run_channel. moves_tac. Qed.
#[local] Hint Resolve moves_run_channel : moves.
Lemma moves_tie : moves queues tie.
Proof. intros s. unfold wpe. by rewrite tie_keeps. Qed.
#[local] Hint Resolve moves_tie : moves.
Lemma moves_connectEstablished : moves queues (TcpConnection.connectEstablished channel_ tie script : M C unit).
Proof. unfold TcpConnection.connectEstablished. moves_tac. Qed.
Lemma moves_connectDestroyed : moves queues (TcpConnection.connectDestroyed channel_ script : M C unit).
Proof. unfold TcpConnection.connectDestroyed. moves_tac. Qed.
Lemma moves_exec_functor f : moves queues (TcpConnection.exec_functor channel_ script f : M C unit).
Proof. unfold TcpConnection.exec_functor, TcpConnection.forceCloseInLoop. moves_tac. Qed.
#[local] Hint Resolve moves_connectEstablished moves_connectDestroyed moves_exec_functor : moves.

Lemma moves_events revents time : moves queues (TcpConnection.step channel_ tie script (TcpConnection.OpEvents revents time)).
Proof. cbn [TcpConnection.step]. unfold handleEvent, Channel.call. moves_tac. Qed.

Definition rest (o : TcpConnection.op) (p : list TcpConnection.functor) : list TcpConnection.functor :=
  match o with TcpConnection.OpFunctor => tail p | _ => p end.
(** The steps in the loop's thread: they queue no bare [this]. *)
Definition local (o : TcpConnection.op) : bool :=
  match o with
  | TcpConnection.OpRemote _ | TcpConnection.OpCheck _ | TcpConnection.OpSet _ | TcpConnection.OpQueue _ => false
  | _ => true
  end.
Definition queued_by (o : TcpConnection.op) (s s' : C) : Prop :=
  exists new, TcpConnection.pending s' = rest o (TcpConnection.pending s) ++ new /\ Forall (fun f => bare f -> local o = false) new.

Lemma step_local o s : local o -> wlp (TcpConnection.step channel_ tie script o) (fun _ s' =>
  exists new, TcpConnection.pending s' = rest o (TcpConnection.pending s) ++ new /\ Forall owning new) s.
Proof.
  intros Hlo.
  assert (forall m : M C unit, moves queues m -> rest o (TcpConnection.pending s) = TcpConnection.pending s ->
    wlp m (fun _ s' => exists new, TcpConnection.pending s' = rest o (TcpConnection.pending s) ++ new /\ Forall owning new) s) as Hm.
  { intros m Hm E. rewrite E. apply Hm. }
  destruct o as [|r tm| | |c|c|c|i|i|]; try done.
  - apply Hm; [|done]. cbn [TcpConnection.step]. moves_tac.
  - apply Hm; [|done]. apply moves_events.
  - cbn [TcpConnection.step rest]. wp_steps. destruct (TcpConnection.pending s) as [|f fs] eqn:E.
    + wp_steps. exists []. by rewrite E.
    + wp_steps. apply (moves_exec_functor f (TcpConnection.set_pending fs s)).
  - apply Hm; [|done]. cbn [TcpConnection.step]. moves_tac.
  - apply Hm; [|done]. cbn [TcpConnection.step]. moves_tac.
  - apply Hm; [|done]. cbn [TcpConnection.step]. moves_tac.
Qed.

(** The steps of other threads only add to the queue. *)
Definition adds (s s' : C) : Prop := exists new, TcpConnection.pending s' = TcpConnection.pending s ++ new.
#[local] Instance adds_preorder : PreOrder adds.
Proof.
  split; [intros s; exists []; by rewrite app_nil_r|]. intros s s1 s2 (n1 & E1) (n2 & E2).
  exists (n1 ++ n2). by rewrite E2, E1, app_assoc.
Qed.
Lemma adds_set (f : C -> C) : (forall s, TcpConnection.pending (f s) = TcpConnection.pending s) -> moves adds (modify f).
Proof. intros Hf. apply moves_modify. intros s. exists []. by rewrite app_nil_r. Qed.
Lemma adds_queue f : moves adds (modify (TcpConnection.queueInLoop f) : M C unit).
Proof. apply moves_modify. intros s. by exists [f]. Qed.
Lemma adds_in_input {A} (m : M Buffer.Buffer.t A) : moves adds (TcpConnection.in_input m : M C A).
Proof.
  apply (moves_zoom _ (fun _ _ => True)); [by intros s; unfold wpe; destruct (m s) as [[]|]|].
  intros s t _. exists []. by rewrite app_nil_r.
Qed.
#[local] Hint Resolve adds_queue adds_in_input : moves.
#[local] Hint Extern 1 (moves adds (modify _)) => (apply adds_set; done) : moves.

Lemma step_remote o s : local o = false -> wlp (TcpConnection.step channel_ tie script o) (fun _ => adds s) s.
Proof.
  intros Hl. revert s. change (moves adds (TcpConnection.step channel_ tie script o)). destruct o; try done; cbn [TcpConnection.step].
  - unfold TcpConnection.exec_cmd, TcpConnection.send, TcpConnection.shutdown, TcpConnection.forceClose,
      TcpConnection.forceCloseWithDelay, TcpConnection.startRead, TcpConnection.stopRead, TcpConnection.run_or_queue. moves_tac.
  - unfold TcpConnection.remote_check. moves_tac.
  - unfold TcpConnection.remote_set. moves_tac.
  - unfold TcpConnection.remote_queue, TcpConnection.hand_over. moves_tac.
Qed.

Lemma step_queued o s : wlp (TcpConnection.step channel_ tie script o) (fun _ => queued_by o s) s.
Proof.
  destruct (local o) eqn:Hl.
  - eapply wpe_mono; [apply step_local; by rewrite Hl|]. cbn. intros _ s' (new & E & Hf). exists new. split; [done|].
    eapply Forall_impl; [|exact Hf]. intros f Hf' Hb. by rewrite owning_bare in Hb.
  - eapply wpe_mono; [by apply step_remote|]. cbn. intros _ s' [new E]. exists new.
    split; [rewrite E; by destruct o|]. by apply list.Forall_forall.
Qed.
End connection.

(** ** What the server and the connections of a system queue *)

(** The functors of the server that a step of it leaves in the queues. *)
Definition server_rest (o : TcpServer.op) (s : TcpServer.t) : list (Z * TcpServer.task) :=
  match o with
  | TcpServer.Run l => match TcpServer.pop l (TcpServer.pending s) with Some (_, q) => q | None => TcpServer.pending s end
  | _ => TcpServer.pending s
  end.

Definition appends (s s' : TcpServer.t) : Prop := exists new, TcpServer.pending s' = TcpServer.pending s ++ new.
#[export] Instance appends_preorder : PreOrder appends.
Proof.
  split; [intros s; exists []; by rewrite app_nil_r|]. intros s s1 s2 (n1 & E1) (n2 & E2).
  exists (n1 ++ n2). by rewrite E2, E1, app_assoc.
Qed.

Lemma appends_set f : (forall s, TcpServer.pending (f s) = TcpServer.pending s) -> moves appends (modify f).
Proof. intros Hf. apply moves_modify. intros s. exists []. by rewrite app_nil_r. Qed.
Lemma appends_queue l f : moves appends (modify (TcpServer.queueInLoop l f)).
Proof. apply moves_modify. intros s. by exists [(l, f)]. Qed.
Lemma appends_pool {A} (m : M EventLoopThreadPool.t A) : moves appends (zoom TcpServer.threadPool_ TcpServer.set_pool m).
Proof.
  apply (moves_zoom _ (fun _ _ => True)); [by intros s; unfold wpe; destruct (m s) as [[]|]|].
  intros s t _. exists []. by rewrite app_nil_r.
Qed.

Section server.
Context (getLocalAddr : Z -> sockaddr_in).
#[local] Hint Extern 1 (moves appends (modify _)) => (apply appends_set; done) : moves.
#[local] Hint Resolve appends_queue appends_pool : moves.

Lemma appends_removeInLoop l c : moves appends (TcpServer.removeConnectionInLoop l c).
Proof. unfold TcpServer.removeConnectionInLoop, TcpServer.assertInLoopThread. moves_tac. Qed.
#[local] Hint Resolve appends_removeInLoop : moves.

Lemma server_step_queued o s :
  wlp (TcpServer.step getLocalAddr o) (fun _ s' => exists new, TcpServer.pending s' = server_rest o s ++ new) s.
Proof.
  destruct o as [fd peer|c|l].
  - revert s. change (moves appends (TcpServer.step getLocalAddr (TcpServer.Accept fd peer))). cbn [TcpServer.step].
    unfold TcpServer.newConnection, TcpServer.assertInLoopThread, TcpServer.runInLoop. moves_tac.
  - revert s. change (moves appends (TcpServer.step getLocalAddr (TcpServer.Close c))). cbn [TcpServer.step].
    unfold TcpServer.removeConnection, TcpServer.runInLoop. moves_tac.
  - cbn [TcpServer.step server_rest]. wp_steps. destruct (TcpServer.pop l (TcpServer.pending s)) as [[f q]|].
    + wp_steps. assert (moves appends (TcpServer.exec l f)) as Hm by (unfold TcpServer.exec, TcpServer.listen; moves_tac).
      apply (Hm (TcpServer.set_pending q s)).
    + wp_steps. exists []. by rewrite app_nil_r.
Qed.
End server.

Section system.
Context {P K : Type} `{Poller P} `{TcpConnection.Socket K}.
Notation C := (TcpConnection.t P K).
Notation T := (System.t P K).
Context (getLocalAddr : Z -> sockaddr_in) (tie : M C unit)
  (script : TcpConnection.callback -> C -> list TcpConnection.cmd).
Hypothesis tie_keeps : forall s, tie s = Ok (tt, s).

(** The functors that connection [c] has in the queue of its loop. *)
Definition pend (c : nat) (s : T) : list TcpConnection.functor :=
  match System.cells s !! c with Some (_, k) => TcpConnection.pending k | None => [] end.

Lemma on_conn_run c m (s : T) : wlp (System.on_conn c m) (fun _ s' => System.server s' = System.server s /\
  exists ch k w k', System.cells s !! c = Some (ch, k) /\ m ch (TcpConnection.set_world w k) = Ok (tt, k') /\
    System.cells s' = <[c := (ch, k')]> (System.cells s)) s.
Proof.
  unfold System.on_conn. wp_steps. destruct (TcpServer.conns _ !! c) as [conn|]; [|by apply wpe_throw].
  destruct (System.cells s !! c) as [[ch k]|] eqn:Ek; [|by apply wpe_throw].
  destruct (System.worlds s !! _) as [w|]; [|by apply wpe_throw]. apply wpe_zoom. unfold wpe.
  destruct (m ch _) as [[[] k']|] eqn:Em; [|done]. split; [done|]. by exists ch, k, w, k'.
Qed.

Lemma pend_put c d ch k k' (s s' : T) : System.cells s !! c = Some (ch, k) -> System.cells s' = <[c := (ch, k')]> (System.cells s) ->
  pend d s' = if decide (d = c) then TcpConnection.pending k' else pend d s.
Proof.
  intros Hk E. unfold pend. rewrite E. case_decide as Ed.
  - subst d. rewrite list_lookup_insert_eq; [done|]. by eapply lookup_lt_Some.
  - by rewrite list_lookup_insert_ne.
Qed.

(** Connections queue functors that own them; only those in [X] do. *)
Definition grows (X : nat -> Prop) (s s' : T) : Prop := forall c,
  exists new, pend c s' = pend c s ++ new /\ Forall owning new /\ (X c \/ new = []).

Lemma grows_refl X s : grows X s s.
Proof. intros c. exists []. rewrite app_nil_r. split; [done|]. split; [done|by right]. Qed.
Lemma grows_trans X s s1 s2 : grows X s s1 -> grows X s1 s2 -> grows X s s2.
Proof.
  intros H1 H2 c. destruct (H1 c) as (n1 & E1 & F1 & X1), (H2 c) as (n2 & E2 & F2 & X2). exists (n1 ++ n2).
  rewrite E2, E1, app_assoc. split; [done|]. split; [by apply Forall_app|].
  destruct X1 as [?| ->]; [by left|]. destruct X2 as [?| ->]; [by left|by right].
Qed.
Lemma grows_weaken (X X' : nat -> Prop) s s' : (forall c, X c -> X' c) -> grows X s s' -> grows X' s s'.
Proof. intros HX Hg c. destruct (Hg c) as (n & E & F & Hx). exists n. split; [done|]. split; [done|]. naive_solver. Qed.

Lemma on_conn_grows c m s : (forall ch, moves queues (m ch)) ->
  wlp (System.on_conn c m) (fun _ s' => System.server s' = System.server s /\ grows (fun d => d = c) s s') s.
Proof.
  intros Hm. eapply wpe_mono; [apply on_conn_run|]. cbn beta. intros _ s' (E & ch & k & w & k' & Hk & Hrun & Ec).
  split; [done|]. intros d. rewrite (pend_put c d ch k k' s s') by done. case_decide as Ed.
  - subst d. destruct (wpe_elim _ _ _ _ _ _ (Hm ch (TcpConnection.set_world w k)) Hrun) as (new & En & Hf).
    exists new. unfold pend at 1. rewrite Hk. split; [done|]. split; [done|by left].
  - exists []. rewrite app_nil_r. split; [done|]. split; [done|by right].
Qed.

Lemma perform_all l s : wlp (for_each (System.perform tie script) l) (fun _ s' =>
  System.server s' = System.server s /\ grows (fun c => c ∈ fst <$> l) s s') s.
Proof.
  revert s. induction l as [|[c a] l IH]; intros s; cbn [for_each].
  - wp_steps. split; [done|apply grows_refl].
  - wp_steps. apply (wpe_mono _ _ (fun _ s' => System.server s' = System.server s /\ grows (fun d => d = c) s s')).
    { unfold System.perform. destruct a; cbn [fst snd].
      - apply on_conn_grows. intros ch. by apply moves_connectEstablished.
      - wp_steps. split; [done|apply grows_refl].
      - apply on_conn_grows. intros ch. by apply moves_connectDestroyed. }
    cbn beta. intros _ s1 [E1 G1]. eapply wpe_mono; [apply IH|]. cbn beta. intros _ s2 [E2 G2]. split; [congruence|].
    apply (grows_trans _ _ s1).
    + eapply grows_weaken; [|exact G1]. intros d ->. by left.
    + eapply grows_weaken; [|exact G2]. intros d Hd. by right.
Qed.

(** A call of the server: only the connections it does something to queue
    functors. *)
Lemma server_do_moved m s : wlp (System.server_do tie script m (ret tt)) (fun _ s' =>
  m (System.server s) = Ok (tt, System.server s') /\
  grows (fun c => c ∈ fst <$> drop (length (TcpServer.log (System.server s))) (TcpServer.log (System.server s'))) s s') s.
Proof.
  unfold System.server_do. wp_steps. apply wpe_zoom. unfold wpe at 1. destruct (m (System.server s)) as [[[] sv']|] eqn:E; [|done].
  wp_steps. eapply wpe_mono; [apply perform_all|]. cbn beta. intros _ s2 [E2 G2].
  cbn [System.server System.set_server] in E2, G2. by rewrite E2.
Qed.

(** What a step of the server does to the queues. *)
Definition server_moved (o : TcpServer.op) (s s' : T) : Prop :=
  TcpServer.step getLocalAddr o (System.server s) = Ok (tt, System.server s') /\
  (exists new, TcpServer.pending (System.server s') = server_rest o (System.server s) ++ new) /\
  TcpServer.framed o (System.server s) (System.server s') /\
  grows (fun c => TcpServer.trace c (System.server s') <> TcpServer.trace c (System.server s)) s s'.

Lemma acted_trace c (sv sv' : TcpServer.t) new : TcpServer.log sv' = TcpServer.log sv ++ new -> c ∈ fst <$> new ->
  TcpServer.trace c sv' <> TcpServer.trace c sv.
Proof.
  intros Hl Hc E. rewrite (System.trace_grows _ _ _ c Hl) in E. apply (f_equal length) in E. rewrite length_app in E.
  apply list_elem_of_fmap in Hc as ([d a] & -> & Hin). apply list_elem_of_split in Hin as (n1 & n2 & ->).
  rewrite omap_app, length_app in E. cbn in E. rewrite decide_True in E by done. cbn in E. lia.
Qed.

Lemma framed_log o sv sv' : TcpServer.framed o sv sv' -> exists new, TcpServer.log sv' = TcpServer.log sv ++ new.
Proof.
  intros [_ Hf]. assert (forall l : list (nat * TcpServer.act), l = l -> exists new, l = l ++ new) as Hsame
    by (intros l _; exists []; by rewrite app_nil_r).
  destruct o as [fd peer|c|l].
  - destruct Hf as (conn & _ & _ & _ & [E|E]); rewrite E; eauto.
  - destruct Hf as [_ E]. rewrite E. eauto.
  - destruct Hf as [_ [E|(c & a & E & _)]]; rewrite E; eauto.
Qed.

Lemma server_step_moved o (create : M T unit) s : TcpServer.inv (System.server s) ->
  (forall s0, wlp create (fun _ s1 => System.server s1 = System.server s0 /\ grows (fun _ => False) s0 s1) s0) ->
  wlp (System.server_step getLocalAddr tie script o create) (fun _ => server_moved o s) s.
Proof.
  intros Hi Hcr. unfold System.server_step, System.server_do. wp_steps. apply wpe_zoom.
  pose proof (wpe_conj _ _ _ _ _ (server_step_queued getLocalAddr o (System.server s))
    (TcpServer.step_framed getLocalAddr o (System.server s) Hi)) as Hs.
  unfold wpe in Hs |- * at 1. destruct (TcpServer.step getLocalAddr o (System.server s)) as [[[] sv']|] eqn:Es; [|done].
  destruct Hs as [Hq Hfr]. wp_steps. eapply wpe_mono; [apply Hcr|].
  cbn beta. intros _ s1 [E1 G1]. wp_steps. eapply wpe_mono; [apply perform_all|]. cbn beta. intros _ s2 [E2 G2].
  cbn [System.server System.set_server] in E1. rewrite E1 in E2. unfold server_moved. rewrite E2. do 3 (split; [done|]).
  destruct (framed_log _ _ _ Hfr) as [new Hl]. rewrite E1, (System.drop_app_log _ _ _ Hl) in G2.
  apply (grows_trans _ _ s1).
  - eapply grows_weaken; [|exact G1]. done.
  - eapply grows_weaken; [|exact G2]. intros c Hc. by eapply acted_trace.
Qed.

Lemma nothing_grows (s0 : T) : wlp (ret tt) (fun _ s1 => System.server s1 = System.server s0 /\ grows (fun _ => False) s0 s1) s0.
Proof. wp_steps. split; [done|apply grows_refl]. Qed.

(** What a step of a connection does to the queues. *)
Definition conn_moved (c : nat) (o : TcpConnection.op) (k : C) (s s' : T) : Prop :=
  appends (System.server s) (System.server s') /\
  (TcpServer.log (System.server s') = TcpServer.log (System.server s) \/
   TcpServer.log (System.server s') = TcpServer.log (System.server s) ++ [(c, TcpServer.ActClosed)]) /\
  (exists new, pend c s' = rest o (TcpConnection.pending k) ++ new /\
    Forall (fun f => bare f -> local o = false) new) /\
  forall d, d <> c -> pend d s' = pend d s.

Lemma conn_step_moved c o ch k s : TcpServer.inv (System.server s) -> System.cells s !! c = Some (ch, k) ->
  wlp (System.conn_step getLocalAddr tie script c o) (fun _ => conn_moved c o k s) s.
Proof.
  intros Hi Hk. unfold System.conn_step. wp_steps. eapply wpe_mono; [apply on_conn_run|]. cbn beta.
  intros _ s1 (E1 & ch' & k' & w & k1 & Hk' & Hrun & Ec). rewrite Hk in Hk'. injection Hk' as <- <-. wp_steps.
  destruct (wpe_elim _ _ _ _ _ _ (step_queued ch tie script tie_keeps o _) Hrun) as (new & En & Hf). cbn in En, Hf.
  assert (conn_moved c o k s s1) as Hm.
  { split; [exists []; by rewrite E1, app_nil_r|]. split; [left; by rewrite E1|]. split.
    - exists new. rewrite (pend_put c c ch k k1 s s1), decide_True by done. by split.
    - intros d Hd. by rewrite (pend_put c d ch k k1 s s1), decide_False by done. }
  apply wpe_when; intros _; [|done]. eapply wpe_mono; [apply server_step_moved; [by rewrite E1|apply nothing_grows]|].
  cbn beta. intros _ s2 (_ & (n2 & P2) & (_ & _ & L2) & G2). destruct Hm as (_ & _ & (n & Ep & Fp) & Hd). rewrite E1 in P2, L2.
  split; [by exists n2|]. split; [by right|]. split.
  - destruct (G2 c) as (n3 & E3 & F3 & _). exists (n ++ n3). rewrite E3, Ep, app_assoc. split; [done|].
    apply Forall_app. split; [done|]. eapply Forall_impl; [|exact F3]. intros f Ho' Hb. by rewrite owning_bare in Hb.
  - intros d Hne. destruct (G2 d) as (n3 & E3 & _ & [Hx| ->]); [|by rewrite E3, app_nil_r, Hd].
    exfalso. apply Hx. rewrite E1, (System.trace_grows _ _ _ d L2). cbn. rewrite decide_False by done. cbn. by rewrite app_nil_r.
Qed.

(** A step that does not close the connection. *)
Lemma conn_step_open c o ch k s : System.cells s !! c = Some (ch, k) ->
  match System.on_conn c (fun ch => TcpConnection.step ch tie script o) s with
  | Ok (_, s') => System.closes_of c s' = System.closes_of c s
  | Err _ => True
  end ->
  wlp (System.conn_step getLocalAddr tie script c o) (fun _ s' =>
    (exists new, pend c s' = rest o (TcpConnection.pending k) ++ new /\ Forall (fun f => bare f -> local o = false) new) /\
    forall d, d <> c -> pend d s' = pend d s) s.
Proof.
  intros Hk Hq. unfold System.conn_step. wp_steps. pose proof (on_conn_run c (fun ch => TcpConnection.step ch tie script o) s) as Hr.
  unfold wpe in Hr |- * at 1. destruct (System.on_conn _ _ s) as [[[] s1]|]; [|done].
  destruct Hr as (_ & ch' & k' & w & k1 & Hk' & Hrun & Ec). rewrite Hk in Hk'. injection Hk' as <- <-. wp_steps.
  rewrite Hq, Z.ltb_irrefl. cbn [when]. wp_steps. split.
  - destruct (wpe_elim _ _ _ _ _ _ (step_queued ch tie script tie_keeps o _) Hrun) as (new & En & Hf). exists new.
    by rewrite (pend_put c c ch k k1 s s1), decide_True.
  - intros d Hd. by rewrite (pend_put c d ch k k1 s s1), decide_False.
Qed.

Lemma create_grows new_address socket writeComplete highWater fd (s : T) :
  wlp (System.create new_address socket writeComplete highWater fd) (fun _ s' =>
    System.server s' = System.server s /\ grows (fun _ => False) s s') s.
Proof.
  unfold System.create. wp_steps. destruct (list.last _) as [conn|]; [|by apply wpe_throw].
  destruct (System.worlds s !! _) as [w|]; [|by apply wpe_throw]. wp_steps. apply wpe_lift; [|done]. intros k Hk. wp_steps.
  split; [done|]. intros c. exists []. rewrite app_nil_r. split; [|by split; [|right]]. unfold pend. cbn [System.cells System.add_cell System.set_world_of].
  destruct (System.cells s !! c) as [[ch k']|] eqn:E.
  - by rewrite (lookup_app_l_Some _ _ _ _ E).
  - destruct ((System.cells s ++ _) !! c) as [[ch k']|] eqn:E'; [|done].
    apply lookup_snoc_Some in E' as [[_ E']|[_ [= <- <-]]]; [by rewrite E in E'|].
    unfold TcpConnection.make in Hk. destruct (Buffer.Buffer.make _); [|done]. by injection Hk as <-.
Qed.

Lemma handle_moved l time ch s : TcpServer.inv (System.server s) ->
  wlp (System.handle getLocalAddr tie script l time ch) (fun _ s' => s' = s \/
    exists c dh k r, System.owner l ch s = Some c /\ System.cells s !! c = Some (dh, k) /\
      conn_moved c (TcpConnection.OpEvents r time) k s s') s.
Proof.
  intros Hi. unfold System.handle. wp_steps. destruct (System.owner l ch s) as [c|] eqn:Eo.
  2: { destruct (System.worlds s !! l); [wp_steps; by left|by apply wpe_throw]. }
  destruct (System.worlds s !! l) as [w|]; [|by apply wpe_throw]. destruct (chans w !! ch) as [x|]; [|by apply wpe_throw].
  unfold System.owner in Eo. destruct (list_find _ _) as [[i [conn [dh k]]]|] eqn:E; [|done]. cbn in Eo. injection Eo as ->.
  apply list_find_Some in E as (Hz & _ & _). apply lookup_zip_Some in Hz as [_ Hk].
  eapply wpe_mono; [by apply (conn_step_moved c _ dh k)|]. cbn beta. intros _ s' Hm. right. by exists c, dh, k, (revents_ x).
Qed.
End system.
End Queueing.

(** ** References *)

Module Ownership.

(** A functor in the queue of a loop: bound by the server, or by
    connection [c]. *)
Inductive item : Type :=
| Server (f : TcpServer.task)
| Own (c : nat) (f : TcpConnection.functor).

(** [queue]: the [pendingFunctors_] of all loops; [users]: how many
    [TcpConnectionPtr]s to each connection user code holds; [deleted]: the
    connections whose destructor has run. *)
Record t (P K : Type) : Type := mk {
  sys : System.t P K;
  queue : list (Z * item);
  users : gmap nat nat;
  deleted : gset nat }.
Arguments mk {P K}.
Arguments sys {P K}.
Arguments queue {P K}.
Arguments users {P K}.
Arguments deleted {P K}.

Section setters.
Context {P K : Type}.
Definition set_sys v (s : t P K) : t P K := mk v (queue s) (users s) (deleted s).
Definition set_queue v (s : t P K) : t P K := mk (sys s) v (users s) (deleted s).
Definition set_users v (s : t P K) : t P K := mk (sys s) (queue s) v (deleted s).
Definition set_deleted v (s : t P K) : t P K := mk (sys s) (queue s) (users s) v.
End setters.

(** The functor holds a [TcpConnectionPtr] to [c]. *)
Definition holds (c : nat) (x : Z * item) : bool :=
  match snd x with
  | Server f => bool_decide (TcpServer.task_conn f = Some c)
  | Own d f => bool_decide (d = c) && Queueing.owning f
  end.
Definition item_server (x : Z * item) : option (Z * TcpServer.task) :=
  match snd x with Server f => Some (fst x, f) | Own _ _ => None end.
Definition item_own (c : nat) (x : Z * item) : option TcpConnection.functor :=
  match snd x with Own d f => if decide (d = c) then Some f else None | Server _ => None end.

Section operations.
Context {P K : Type} `{Poller P} `{TcpConnection.Socket K}.
Notation C := (TcpConnection.t P K).
Notation S := (System.t P K).
Notation T := (t P K).
Context (startLoop : Z -> Z) (getLocalAddr : Z -> sockaddr_in)
  (tie : M C unit) (script : TcpConnection.callback -> C -> list TcpConnection.cmd)
  (new_address : World P -> Z) (socket : Z -> K) (writeComplete highWater : bool).

Definition in_sys {A} (m : M S A) : M T A := zoom sys set_sys m.

(** [use_count()] of the pointers to [c]: in the server's map, in the queues,
    in user code. *)
Definition listed (c : nat) (s : T) : bool :=
  bool_decide (c ∈ (map_to_list (TcpServer.connections_ (System.server (sys s)))).*2).
Definition user_count (c : nat) (s : T) : nat := default 0%nat (users s !! c).
Definition use_count (c : nat) (s : T) : nat :=
  (if listed c s then 1 else 0) + length (filter (holds c) (queue s)) + user_count c s.

(** A member of connection [c] is called. *)
Definition use (c : nat) : M T unit :=
  let* s := get in if decide (c ∈ deleted s) then throw Undefined else ret tt.
Definition use_of (c : option nat) : M T unit := match c with Some c => use c | None => ret tt end.

(** The last pointer goes: [~TcpConnection], which closes the socket. *)
Definition destroy (c : nat) : M T unit :=
  let* s := get in
  match System.cells (sys s) !! c with
  | Some (_, k) => let* _ := lift (TcpConnection.destructor k) in modify (fun s => set_deleted ({[c]} ∪ deleted s) s)
  | None => ret tt
  end.
Definition release_one (c : nat) : M T unit :=
  let* s := get in
  when (negb (bool_decide (c ∈ deleted s)) && (use_count c s =? 0)%nat) (destroy c).
Definition release : M T unit :=
  let* s := get in for_each release_one (seq 0 (length (System.cells (sys s)))).

(** What has been queued goes behind what is in the queues. *)
Definition new_own (s : T) (c : nat) : list (Z * item) :=
  match TcpServer.conns (System.server (sys s)) !! c with
  | Some conn => (fun f => (TcpServer.conn_loop conn, Own c f)) <$>
      drop (length (omap (item_own c) (queue s))) (Queueing.pend c (sys s))
  | None => []
  end.
Definition new_server (s : T) : list (Z * item) :=
  (fun x => (fst x, Server (snd x))) <$>
    drop (length (omap item_server (queue s))) (TcpServer.pending (System.server (sys s))).
Definition sync : M T unit :=
  modify (fun s => set_queue (queue s ++ concat (new_own s <$> seq 0 (length (System.cells (sys s)))) ++ new_server s) s).
Definition settle : M T unit := sync ;;; release.

(** The oldest functor of a loop. *)
Definition exec (l : Z) (x : item) : M T unit :=
  match x with
  | Server f =>
      use_of (TcpServer.task_conn f) ;;;
      in_sys (System.server_step getLocalAddr tie script (TcpServer.Run l) (ret tt))
  | Own c f => use c ;;; in_sys (System.conn_step getLocalAddr tie script c TcpConnection.OpFunctor)
  end.
Definition run_functor (l : Z) : M T unit :=
  let* s := get in
  match TcpServer.pop l (queue s) with
  | None => ret tt
  | Some (x, q) => modify (set_queue q) ;;; exec l x ;;; settle
  end.

(** [WeakCallback::operator()], of [forceClose] with a delay. *)
Definition weak_forceClose (c : nat) : M T unit :=
  let* s := get in
  when (negb (bool_decide (c ∈ deleted s)))
    (use c ;;; in_sys (System.conn_step getLocalAddr tie script c TcpConnection.OpTimer) ;;; settle).

(** A call in the loop's thread, through a pointer that user code holds. *)
Definition call (c : nat) (x : TcpConnection.cmd) : M T unit :=
  use c ;;; in_sys (System.conn_step getLocalAddr tie script c (TcpConnection.OpUser x)) ;;; settle.

(** A call in another thread, in its steps: the test of [state_], its
    setting, and what is handed over to the loop. *)
Inductive part : Type := Test (x : TcpConnection.cmd) | SetState (i : nat) | Queue (i : nat).
Definition part_op (p : part) : TcpConnection.op :=
  match p with
  | Test x => TcpConnection.OpCheck x
  | SetState i => TcpConnection.OpSet i
  | Queue i => TcpConnection.OpQueue i
  end.
Definition remote (c : nat) (p : part) : M T unit :=
  use c ;;; in_sys (System.conn_step getLocalAddr tie script c (part_op p)) ;;; settle.

(** [Channel::handleEvent] holds no pointer of its own. *)
Definition handle (l time ch : Z) : M T unit :=
  let* s := get in
  use_of (System.owner l ch (sys s)) ;;;
  in_sys (System.handle getLocalAddr tie script l time ch) ;;; settle.
Definition poll_events (l : Z) : M T unit :=
  let* r := in_sys (System.poll_world l) in
  for_each (handle l (fst r)) (snd r).

Inductive op : Type :=
| Accept (sockfd : Z) (peerAddr : sockaddr_in)
| Events (loop : Z)
| RunFunctor (loop : Z)
| Timer (c : nat)                                (* a delayed forceClose *)
| Call (c : nat) (x : TcpConnection.cmd)         (* user code calls in the loop's thread *)
| Remote (c : nat) (p : part)                    (* user code in another thread, in a call *)
| Keep (c : nat)                                 (* user code copies a pointer *)
| Drop (c : nat).

Definition step (o : op) : M T unit :=
  match o with
  | Accept sockfd peerAddr =>
      in_sys (System.step getLocalAddr tie script new_address socket writeComplete highWater (System.Accept sockfd peerAddr)) ;;;
      settle
  | Events loop => poll_events loop
  | RunFunctor loop => run_functor loop
  | Timer c => weak_forceClose c
  | Call c x => call c x
  | Remote c p => remote c p
  | Keep c => use c ;;; modify (fun s => set_users (<[c := Datatypes.S (user_count c s)]> (users s)) s)
  | Drop c => modify (fun s => set_users (<[c := Nat.pred (user_count c s)]> (users s)) s) ;;; release
  end.

Definition make (ws : gmap Z (World P)) (loop : Z) (ipPort name : string) (cb : bool) : T :=
  mk (System.make ws loop ipPort name cb) [] ∅ ∅.
Definition open (n loop : Z) : M T unit := in_sys (System.open startLoop n loop) ;;; settle.
End operations.

(** ** Taking from and adding to the queue *)

Lemma pop_skip {A} l (q1 q2 : list (Z * A)) x : Forall (fun y => fst y <> l) q1 ->
  TcpServer.pop l (q1 ++ (l, x) :: q2) = Some (x, q1 ++ q2).
Proof.
  induction 1 as [|[l' y] q1 Hy _ IH]; cbn; [by rewrite Z.eqb_refl|]. cbn in Hy. rewrite (proj2 (Z.eqb_neq _ _)) by done.
  by rewrite IH.
Qed.

Lemma servers_elem l f (q : list (Z * item)) : (l, f) ∈ omap item_server q <-> (l, Server f) ∈ q.
Proof.
  rewrite list_elem_of_omap. split.
  - intros ([l' [g|d g]] & Hin & E); cbn in E; [|done]. by injection E as -> ->.
  - intros Hin. by exists (l, Server f).
Qed.

Lemma owns_elem c f (q : list (Z * item)) : f ∈ omap (item_own c) q <-> exists l, (l, Own c f) ∈ q.
Proof.
  rewrite list_elem_of_omap. split.
  - intros ([l [g|d g]] & Hin & E); cbn in E; [done|]. case_decide; [|done]. injection E as ->. subst d. by exists l.
  - intros [l Hin]. exists (l, Own c f). split; [done|]. cbn. by rewrite decide_True.
Qed.

Lemma pop_server l (q : list (Z * item)) f q' : TcpServer.pop l q = Some (Server f, q') ->
  TcpServer.pop l (omap item_server q) = Some (f, omap item_server q') /\
  forall c, omap (item_own c) q' = omap (item_own c) q.
Proof.
  intros Hp. apply TcpServer.pop_first in Hp as (q1 & q2 & -> & -> & Hf). rewrite !omap_app. cbn. split.
  - apply pop_skip. apply list.Forall_forall. intros [l' g] Hg. apply servers_elem in Hg.
    by apply (proj1 (list.Forall_forall _ _) Hf _ Hg).
  - intros c. by rewrite !omap_app.
Qed.

Lemma pop_own l (q : list (Z * item)) c f q' : TcpServer.pop l q = Some (Own c f, q') -> (forall l' g, (l', Own c g) ∈ q -> l' = l) ->
  omap item_server q' = omap item_server q /\ (forall d, d <> c -> omap (item_own d) q' = omap (item_own d) q) /\
  omap (item_own c) q = f :: omap (item_own c) q'.
Proof.
  intros Hp Hl. apply TcpServer.pop_first in Hp as (q1 & q2 & -> & -> & Hf). rewrite !omap_app. split; [done|]. split.
  - intros d Hd. rewrite !omap_app. cbn. by rewrite decide_False by done.
  - cbn. rewrite decide_True by done. destruct (omap (item_own c) q1) as [|g gs] eqn:E; [done|].
    assert (g ∈ omap (item_own c) q1) as [l' Hg]%owns_elem by (rewrite E; by left).
    destruct (proj1 (list.Forall_forall _ _) Hf _ Hg). apply (Hl l' g). apply elem_of_app. by left.
Qed.

(** A queue without one of its items. *)
Lemma pop_sublist {A} l (q : list (Z * A)) x q' : TcpServer.pop l q = Some (x, q') -> q' `sublist_of` q /\ (l, x) ∈ q.
Proof.
  intros (q1 & q2 & -> & -> & _)%TcpServer.pop_first. split; [|apply elem_of_app; right; by left].
  apply sublist_app; [done|]. by apply sublist_cons.
Qed.

(** ** Functors that nothing protects

    A functor of connection [c] bound to a bare [this] stands behind the
    functor that ends the connection ([over]: that one has run). *)
Fixpoint exposed (c : nat) (over : bool) (q : list (Z * item)) : bool :=
  match q with
  | [] => false
  | (_, Own d f) :: q => over && bool_decide (d = c) && Queueing.bare f || exposed c over q
  | (_, Server (TcpServer.Destroyed d)) :: q => exposed c (over || bool_decide (d = c)) q
  | (_, Server _) :: q => exposed c over q
  end.

Lemma exposed_over c (b b' : bool) q : (b -> b') -> exposed c b q -> exposed c b' q.
Proof.
  revert b b'. induction q as [|[l [[d|d|d|]|d f]] q IH]; intros b b' Hb; cbn; try apply IH; try done.
  - rewrite !orb_True. tauto.
  - rewrite !orb_True, !andb_True. intros [[[? ?] ?]|Hx]; [left; auto|right; by apply (IH b)].
Qed.

Lemma exposed_sublist c b q' q : q' `sublist_of` q -> exposed c b q' -> exposed c b q.
Proof.
  intros Hs. revert b. induction Hs as [|[l x] q' q Hs IH|[l x] q' q Hs IH]; intros b; [done| |].
  - destruct x as [[d|d|d|]|d f]; cbn; try apply IH. rewrite !orb_True. naive_solver.
  - intros He%IH. destruct x as [[d|d|d|]|d f]; cbn; try done.
    + eapply exposed_over; [|exact He]. rewrite orb_True. tauto.
    + rewrite orb_True. by right.
Qed.

(** The functor that ends the connection is in the queue. *)
Definition ending (c : nat) (q : list (Z * item)) : bool :=
  existsb (fun x => match snd x with Server (TcpServer.Destroyed d) => bool_decide (d = c) | _ => false end) q.
Lemma exposed_app c b q1 q2 : exposed c b (q1 ++ q2) = exposed c b q1 || exposed c (b || ending c q1) q2.
Proof.
  revert b. induction q1 as [|[l [[d|d|d|]|d f]] q1 IH]; intros b; cbn; rewrite ?IH, ?orb_false_r, ?orb_assoc; done.
Qed.

Lemma exposed_bare c b q : exposed c b q -> exists l f, (l, Own c f) ∈ q /\ Queueing.bare f.
Proof.
  revert b. induction q as [|[l [g|d f]] q IH]; intros b; cbn; [done| |].
  - intros He. assert (exists b', exposed c b' q) as [b' Hb'] by (destruct g; eauto).
    destruct (IH b' Hb') as (l' & f & ? & ?). exists l', f. split; [by right|done].
  - rewrite orb_True, !andb_True. intros [[[_ Hd] Hf]|He].
    + apply bool_decide_unpack in Hd as ->. exists l, f. split; [by left|done].
    + destruct (IH b He) as (l' & g & ? & ?). exists l', g. split; [by right|done].
Qed.
Lemma bare_exposed c l f q : (l, Own c f) ∈ q -> Queueing.bare f -> exposed c true q.
Proof.
  intros (q1 & q2 & ->)%list_elem_of_split Hf. rewrite exposed_app. cbn. rewrite bool_decide_eq_true_2 by done.
  rewrite orb_True. right. by destruct (Queueing.bare f).
Qed.

(** A functor of the server runs, which may be the one that ends a
    connection. *)
Lemma exposed_run c (b b' : bool) l f q q' : TcpServer.pop l q = Some (Server f, q') ->
  (f = TcpServer.Destroyed c -> forall l' g, (l', Own c g) ∈ q -> l' = l) ->
  (b' -> b \/ f = TcpServer.Destroyed c) -> exposed c b' q' -> exposed c b q.
Proof.
  intros (q1 & q2 & -> & -> & Hf)%TcpServer.pop_first Hl Hb.
  destruct b' eqn:Eb; [destruct (Hb I) as [Hb1|Hd]|]; intros He.
  1, 3: apply (exposed_sublist c b (q1 ++ q2)); [apply sublist_app; [done|]; by apply sublist_cons|].
  1, 2: by eapply exposed_over; [|exact He].
  rewrite exposed_app in He |- *. subst f. cbn. rewrite (bool_decide_eq_true_2 (c = c)) by done.
  rewrite orb_True in He |- *. rewrite orb_true_r. destruct He as [He|He]; [exfalso|by right].
  apply exposed_bare in He as (l' & g & Hin & _). apply (proj1 (list.Forall_forall _ _) Hf) in Hin as Hne. cbn in Hne.
  destruct Hne. apply (Hl eq_refl l' g). apply elem_of_app. by left.
Qed.

(** The server has run the functor that ends connection [c]. *)
#[local] Existing Instance TcpServer.act_eq_dec.
Definition over {P K} (c : nat) (y : System.t P K) : bool :=
  bool_decide (TcpServer.ActDestroyed ∈ TcpServer.trace c (System.server y)).
Lemma gone_over {P K} c (y : System.t P K) : TcpServer.trace c (System.server y) = System.gone -> over c y = true.
Proof. intros E. apply bool_decide_eq_true_2. rewrite E. unfold System.gone. set_solver. Qed.
Lemma over_grows {P K} c (y y' : System.t P K) new :
  TcpServer.log (System.server y') = TcpServer.log (System.server y) ++ new -> over c y' ->
  over c y \/ (c, TcpServer.ActDestroyed) ∈ new.
Proof.
  intros Hl. unfold over. rewrite !bool_decide_spec, (System.trace_grows _ _ _ c Hl), elem_of_app.
  intros [?|Hin]; [by left|right]. apply list_elem_of_omap in Hin as ([d a] & Hin & E). cbn in E.
  case_decide; [|done]. by injection E as ->; subst d.
Qed.

(** ** Letting go of what nothing refers to *)

Section release.
Context {P K : Type}.
Notation T := (t P K).

(** Every connection is referred to or deleted. *)
Definition all_held (s : T) : Prop :=
  forall c, (c < length (System.cells (sys s)))%nat -> c ∈ deleted s \/ use_count c s <> 0%nat.

(** [release] keeps what the destructor of a connection nobody refers to
    keeps. *)
Lemma wp_release_by (J : T -> Prop) s :
  (forall c s, J s -> (c < length (System.cells (sys s)))%nat -> use_count c s = 0%nat ->
     wp (destroy c) (fun _ s' => s' = set_deleted ({[c]} ∪ deleted s) s /\ J s') s) -> J s ->
  wp release (fun _ s' => J s' /\ all_held s' /\ sys s' = sys s /\ queue s' = queue s /\ users s' = users s) s.
Proof.
  intros HJ Hi. unfold release. wp_steps. set (n := length (System.cells (sys s))).
  eapply wpe_mono; [apply (wpe_for_each_split _ (fun done _ s' => J s' /\
    (sys s' = sys s /\ queue s' = queue s /\ users s' = users s) /\ forall c, c ∈ done -> c ∈ deleted s' \/ use_count c s' <> 0%nat))|].
  - intros done c left s1 Hl (Hi1 & (Es & Eq & Eu) & Hd). unfold release_one. wp_steps.
    assert (c < n)%nat as Hlt.
    { apply (elem_of_seq 0 n). rewrite Hl. apply elem_of_app. right. by left. }
    apply wpe_when; intros Hb.
    + apply andb_true_iff in Hb as [_ Hu]. apply Nat.eqb_eq in Hu.
      eapply wpe_mono; [apply HJ; [done|by rewrite Es|done]|]. cbn beta. intros _ s2 [-> Hi2].
      split; [done|]. split; [done|]. intros d [Hd1| ->%list_elem_of_singleton]%elem_of_app.
      * destruct (Hd d Hd1) as [?|?]; [left|by right]. cbn. by apply elem_of_union_r.
      * left. cbn. by apply elem_of_union_l, elem_of_singleton.
    + split; [done|]. split; [done|]. intros d [Hd1| ->%list_elem_of_singleton]%elem_of_app; [by apply Hd|].
      apply andb_false_iff in Hb as [Hb|Hb]; [left|right].
      * apply negb_false_iff in Hb. by apply bool_decide_eq_true in Hb.
      * by apply Nat.eqb_neq in Hb.
  - split; [done|]. split; [done|]. intros c Hc. by apply not_elem_of_nil in Hc.
  - cbn beta. intros _ s' (Hi' & (Es & Eq & Eu) & Hd). split; [done|]. split; [|done]. intros c Hc. apply Hd. apply elem_of_seq.
    rewrite Es in Hc. fold n in Hc. lia.
Qed.
End release.

(** ** What holds between the steps *)

Section invariant.
Context {P K : Type} `{PollerSpec P} `{TcpConnection.SocketLaws K}.
Notation C := (TcpConnection.t P K).
Notation Sys := (System.t P K).
Notation T := (t P K).
(** Besides the parameters of [System]: the descriptors the loops and the
    acceptor keep open. *)
Context (startLoop : Z -> Z) (getLocalAddr : Z -> sockaddr_in)
  (tie : M C unit) (script : TcpConnection.callback -> C -> list TcpConnection.cmd)
  (new_address : World P -> Z) (socket : Z -> K) (writeComplete highWater : bool) (others : Z -> Prop).
Hypothesis tie_keeps : forall s, tie s = Ok (tt, s).
Hypothesis script_ok : forall cb s c, c ∈ script cb s -> TcpConnection.cmd_ok (TcpConnection.state_ s) c.
Hypothesis address_fresh : forall w, chans w !! new_address w = None.

Implicit Types (s : T) (y : Sys).
Notation conns y := (TcpServer.conns (System.server y)).
Notation trace c y := (TcpServer.trace c (System.server y)).

(** The open descriptors. *)
Definition open_fd (fd : Z) (s : T) : Prop := others fd \/
  exists c conn, conns (sys s) !! c = Some conn /\ c ∉ deleted s /\ TcpServer.conn_fd conn = fd.

(** What does not depend on the functors being in the queue. *)
Record kept (s : T) : Prop := {
  k_loop : forall l c f, (l, Own c f) ∈ queue s -> exists conn, conns (sys s) !! c = Some conn /\ TcpServer.conn_loop conn = l;
  k_deleted : forall c, c ∈ deleted s -> trace c (sys s) = System.gone /\ use_count c s = 0%nat;
  k_fds : forall c conn, conns (sys s) !! c = Some conn -> c ∉ deleted s -> ~ others (TcpServer.conn_fd conn) /\
    forall d dn, d <> c -> conns (sys s) !! d = Some dn -> d ∉ deleted s -> TcpServer.conn_fd dn <> TcpServer.conn_fd conn }.

Record inv (s : T) : Prop := {
  o_sys : System.inv others (sys s);
  o_kept : kept s;
  o_server : omap item_server (queue s) = TcpServer.pending (System.server (sys s));
  o_own : forall c, omap (item_own c) (queue s) = Queueing.pend c (sys s);
  o_exposed : forall c, exposed c (over c (sys s)) (queue s) -> user_count c s <> 0%nat }.

(** The system has taken a step to [y]; the queue is still the one from
    before, without the functor that ran. *)
Record stepped (s : T) (y : Sys) : Prop := {
  st_inv : System.inv others y;
  st_server : exists new, TcpServer.pending (System.server y) = omap item_server (queue s) ++ new;
  st_own : forall c, exists new, Queueing.pend c y = omap (item_own c) (queue s) ++ new /\
    (c ∈ deleted s -> new = []) /\
    Forall (fun f => Queueing.bare f -> user_count c s <> 0%nat) new;
  st_gone : forall c, trace c (sys s) = System.gone -> trace c y = System.gone;
  st_exposed : forall c, exposed c (over c y) (queue s) -> user_count c s <> 0%nat;
  st_conns : conns y = conns (sys s) \/ exists conn, conns y = conns (sys s) ++ [conn] /\ ~ open_fd (TcpServer.conn_fd conn) s }.

Lemma phase_of X c conn y : System.inv_for others X y -> conns y !! c = Some conn ->
  exists p, TcpServer.in_phase c conn p (System.server y).
Proof.
  intros Hi Hc. pose proof (TcpServer.inv_phase _ _ (System.i_server _ _ _ Hi) c I) as Hp.
  unfold TcpServer.phase_ok in Hp. by rewrite Hc in Hp.
Qed.

Lemma gone_phase c p sv conn : TcpServer.in_phase c conn p sv -> TcpServer.trace c sv = System.gone -> p = TcpServer.Gone.
Proof. intros (Ht & _) Hg. rewrite Ht in Hg. by destruct p. Qed.

(** A connection that is gone has no functor of the server and is not in its
    map. *)
Lemma gone_about X c y : System.inv_for others X y -> trace c y = System.gone ->
  TcpServer.about c (System.server y) = [] /\
  c ∉ (map_to_list (TcpServer.connections_ (System.server y))).*2.
Proof.
  intros Hi Hg. pose proof (TcpServer.inv_phase _ _ (System.i_server _ _ _ Hi) c I) as Hp. unfold TcpServer.phase_ok in Hp.
  destruct (conns y !! c) as [conn|] eqn:Hc; [|destruct Hp as [Hp _]; by rewrite Hg in Hp].
  destruct Hp as [p Hp]. pose proof (gone_phase _ _ _ _ Hp Hg) as ->. destruct Hp as (_ & Hab & Hm). split; [done|].
  intros ([n d] & E & Hin)%list_elem_of_fmap. cbn in E. subst d. apply elem_of_map_to_list in Hin.
  destruct (TcpServer.inv_map _ _ (System.i_server _ _ _ Hi) n c Hin) as (conn' & Hc' & <-).
  rewrite Hc in Hc'. injection Hc' as <-. by apply Hm in Hin.
Qed.

Lemma use_count_0 c s : use_count c s = 0%nat <-> listed c s = false /\ (forall x, x ∈ queue s -> holds c x = false) /\ user_count c s = 0%nat.
Proof.
  unfold use_count. destruct (listed c s); [split; [lia|by intros [? _]]|]. split.
  - intros E. split; [done|]. split; [|lia]. intros x Hx. destruct (holds c x) eqn:Eh; [|done].
    assert (x ∈ filter (holds c) (queue s)) as Hin by (apply list_elem_of_filter; by rewrite Eh).
    destruct (filter (holds c) (queue s)); [by apply not_elem_of_nil in Hin|cbn in E; lia].
  - intros (_ & Hq & ->). destruct (filter (holds c) (queue s)) as [|x r] eqn:Ef; [done|].
    assert (x ∈ filter (holds c) (queue s)) as [Hh Hx]%list_elem_of_filter by (rewrite Ef; by left).
    rewrite (Hq x Hx) in Hh. done.
Qed.

(** ** What [sync] adds *)

Lemma omap_own_same c l (fs : list TcpConnection.functor) : omap (item_own c) ((fun f => (l, Own c f)) <$> fs) = fs.
Proof. induction fs as [|f fs IH]; cbn; [done|]. rewrite decide_True by done. by rewrite IH. Qed.
Lemma omap_own_other c d l (fs : list TcpConnection.functor) : d <> c -> omap (item_own c) ((fun f => (l, Own d f)) <$> fs) = [].
Proof. intros Hne. induction fs as [|f fs IH]; cbn; [done|]. by rewrite decide_False. Qed.
Lemma omap_server_servers (l : list (Z * TcpServer.task)) : omap item_server ((fun x => (fst x, Server (snd x))) <$> l) = l.
Proof. induction l as [|[z f] l IH]; cbn; [done|]. by rewrite IH. Qed.
Lemma omap_own_servers c (l : list (Z * TcpServer.task)) : omap (item_own c) ((fun x => (fst x, Server (snd x))) <$> l) = [].
Proof. by induction l as [|[z f] l IH]. Qed.

Notation added_own s := (concat (new_own s <$> seq 0 (length (System.cells (sys s))))).

Lemma added_own_elem s x : x ∈ added_own s -> exists c conn f, x = (TcpServer.conn_loop conn, Own c f) /\
  conns (sys s) !! c = Some conn /\ f ∈ drop (length (omap (item_own c) (queue s))) (Queueing.pend c (sys s)).
Proof.
  intros (l & Hl & Hx)%list_elem_of_In%in_concat. apply list_elem_of_In in Hl, Hx. apply list_elem_of_fmap in Hl as (c & -> & _). unfold new_own in Hx.
  destruct (conns (sys s) !! c) as [conn|] eqn:Hc; [|by apply not_elem_of_nil in Hx].
  apply list_elem_of_fmap in Hx as (f & -> & Hf). by exists c, conn, f.
Qed.

Lemma added_server_elem s x : x ∈ new_server s -> exists l f, x = (l, Server f) /\ (l, f) ∈ TcpServer.pending (System.server (sys s)).
Proof.
  intros ([l f] & -> & Hf)%list_elem_of_fmap. exists l, f. split; [done|].
  eapply elem_of_sublist; [exact Hf|]. apply sublist_drop.
Qed.

Lemma synced_server s : (exists new, TcpServer.pending (System.server (sys s)) = omap item_server (queue s) ++ new) ->
  omap item_server (queue s ++ added_own s ++ new_server s) = TcpServer.pending (System.server (sys s)).
Proof.
  intros [new E]. rewrite !omap_app. rewrite (omap_none _ (added_own s)).
  2: { intros x (c & conn & f & -> & _)%added_own_elem. done. }
  unfold new_server. rewrite omap_server_servers, E. cbn. by rewrite drop_app_length.
Qed.

Lemma synced_own s c : length (System.cells (sys s)) = length (conns (sys s)) ->
  (exists new, Queueing.pend c (sys s) = omap (item_own c) (queue s) ++ new) ->
  omap (item_own c) (queue s ++ added_own s ++ new_server s) = Queueing.pend c (sys s).
Proof.
  intros Hlen [new E]. rewrite !omap_app. unfold new_server at 1. rewrite omap_own_servers, app_nil_r.
  rewrite (omap_concat _ _ c); [|apply NoDup_seq|].
  2: { intros d Hd. unfold new_own. destruct (conns (sys s) !! d); [by apply omap_own_other|done]. }
  rewrite E. f_equal. case_decide as Hc.
  - apply elem_of_seq in Hc. unfold new_own. destruct (lookup_lt_is_Some_2 (conns (sys s)) c) as [conn ->]; [lia|].
    by rewrite omap_own_same, E, drop_app_length.
  - rewrite elem_of_seq in Hc. unfold Queueing.pend in E. rewrite (lookup_ge_None_2 (System.cells (sys s))) in E by lia.
    by destruct (omap (item_own c) (queue s)), new.
Qed.

Notation synced_state s y := (set_queue (queue s ++ added_own (set_sys y s) ++ new_server (set_sys y s)) (set_sys y s)).

Section synced.
Context (s : T) (y : Sys) (Hk : kept s) (Hs : stepped s y).

Lemma conns_stay c conn : conns (sys s) !! c = Some conn -> conns y !! c = Some conn.
Proof.
  intros Hc. destruct (st_conns _ _ Hs) as [E|(cn & E & _)]; rewrite E; [done|]. by apply lookup_app_l_Some.
Qed.

Lemma new_own_elem x : x ∈ added_own (set_sys y s) -> exists c conn f, x = (TcpServer.conn_loop conn, Own c f) /\
  conns y !! c = Some conn /\ c ∉ deleted s /\
  (Queueing.bare f -> user_count c s <> 0%nat).
Proof.
  intros (c & conn & f & -> & Hc & Hf)%added_own_elem. cbn [sys set_sys queue] in Hc, Hf.
  destruct (st_own _ _ Hs c) as (new & E & Hd & Hb). rewrite E, drop_app_length in Hf.
  exists c, conn, f. split; [done|]. split; [done|]. split.
  - intros Hdel. rewrite (Hd Hdel) in Hf. by apply not_elem_of_nil in Hf.
  - by apply (proj1 (list.Forall_forall _ _) Hb).
Qed.

Lemma synced_elem x : x ∈ queue s ++ added_own (set_sys y s) ++ new_server (set_sys y s) ->
  x ∈ queue s \/ x ∈ added_own (set_sys y s) \/ exists l f, x = (l, Server f) /\ (l, f) ∈ TcpServer.pending (System.server y).
Proof.
  intros [?|[?|Hx]%elem_of_app]%elem_of_app; [by left|by right; left|right; right]. by apply added_server_elem in Hx.
Qed.

Lemma synced_unused c : c ∈ deleted s -> use_count c (synced_state s y) = 0%nat.
Proof.
  intros Hc. destruct (k_deleted _ Hk c Hc) as [Hg Hu]. apply use_count_0 in Hu as (_ & Hq & Hu).
  destruct (gone_about _ _ _ (st_inv _ _ Hs) (st_gone _ _ Hs c Hg)) as [Hab Hli]. apply use_count_0.
  split; [by apply bool_decide_eq_false|]. split; [|exact Hu]. cbn [queue set_queue]. intros x Hx.
  apply synced_elem in Hx as [Hx|[(d & conn & f & -> & _ & Hd & _)%new_own_elem|(l & f & -> & Hf)]]; [by apply Hq| |].
  - cbn. rewrite bool_decide_eq_false_2; [done|]. congruence.
  - cbn. apply bool_decide_eq_false. intros Ef. pose proof (TcpServer.about_elem c l f _ Hf Ef) as Hin. rewrite Hab in Hin.
    by apply not_elem_of_nil in Hin.
Qed.

Lemma synced_fds c conn : conns y !! c = Some conn -> c ∉ deleted s -> ~ others (TcpServer.conn_fd conn) /\
  forall d dn, d <> c -> conns y !! d = Some dn -> d ∉ deleted s -> TcpServer.conn_fd dn <> TcpServer.conn_fd conn.
Proof.
  intros Hc Hd. destruct (st_conns _ _ Hs) as [E|(cn & E & Hcn)]; rewrite E in Hc |- *; [by apply (k_fds _ Hk)|].
  apply lookup_snoc_Some in Hc as [[_ Hc]|[-> <-]].
  - destruct (k_fds _ Hk c conn Hc Hd) as [Ho Hdn]. split; [done|]. intros d dn Hne Hx Hdd.
    apply lookup_snoc_Some in Hx as [[_ Hx]|[-> <-]]; [by apply (Hdn d)|]. intros Ef. apply Hcn. right. by exists c, conn.
  - split; [intros Ho; apply Hcn; by left|]. intros d dn Hne Hx Hdd Ef.
    apply lookup_snoc_Some in Hx as [[_ Hx]|[-> _]]; [|done]. apply Hcn. right. by exists d, dn.
Qed.

Lemma synced : inv (synced_state s y).
Proof.
  assert (length (System.cells y) = length (conns y)) as Hlen by apply (System.i_length _ _ _ _ (System.i_placed _ _ _ (st_inv _ _ Hs))).
  assert (omap item_server (queue (synced_state s y)) = TcpServer.pending (System.server y)) as Hsv
    by (apply (synced_server (set_sys y s)), Hs).
  constructor; try done; try apply Hs.
  - constructor; cbn [sys set_queue set_sys deleted].
    + intros l c f [Hx|[Hx|Hx]]%synced_elem.
      * destruct (k_loop _ Hk l c f Hx) as (conn & Hc & El). exists conn. split; [by apply conns_stay|done].
      * apply new_own_elem in Hx as (d & conn & g & [= -> -> ->] & Hc & _). by exists conn.
      * destruct Hx as (? & ? & ? & _). done.
    + intros c Hc. split; [|by apply synced_unused]. apply (st_gone _ _ Hs), (k_deleted _ Hk c Hc).
    + apply synced_fds.
  - intros c. apply (synced_own (set_sys y s)); [done|]. destruct (st_own _ _ Hs c) as (new & E & _). by exists new.
  - intros c. cbn [queue set_queue]. rewrite !exposed_app, !orb_True. intros [Hx|[Hx|Hx]].
    + by apply (st_exposed _ _ Hs).
    + apply exposed_bare in Hx as (l & f & Hx & Hb). apply new_own_elem in Hx as (d & conn & g & [= -> -> ->] & _ & _ & Hu). by apply Hu.
    + apply exposed_bare in Hx as (l & f & Hx & _). by apply added_server_elem in Hx as (? & ? & ? & _).
Qed.
End synced.

(** ** Letting go *)

Lemma referenced_or_gone s c conn : inv s -> conns (sys s) !! c = Some conn -> use_count c s = 0%nat ->
  trace c (sys s) = System.gone.
Proof.
  intros Hi Hc Hu. destruct (phase_of _ c conn _ (o_sys _ Hi) Hc) as (p & Ht & Hab & Hm).
  apply use_count_0 in Hu as (Hl & Hq & _). rewrite Ht.
  assert (TcpServer.phase_listed p -> False) as Hno.
  { intros Hp. apply Hm in Hp. unfold listed in Hl. apply bool_decide_eq_false in Hl. apply Hl.
    apply list_elem_of_fmap. exists (TcpServer.conn_name conn, c). split; [done|]. by apply elem_of_map_to_list. }
  destruct p; try (by destruct Hno); [|done]. exfalso.
  assert ((TcpServer.conn_loop conn, TcpServer.Destroyed c) ∈ TcpServer.about c (System.server (sys s))) as Hin
    by (rewrite Hab; by left).
  apply list_elem_of_filter in Hin as [_ Hin]. rewrite <- (o_server _ Hi) in Hin. apply servers_elem in Hin.
  apply Hq in Hin. cbn in Hin. by apply bool_decide_eq_false in Hin.
Qed.

Lemma wp_destroy c s : inv s -> (c < length (System.cells (sys s)))%nat -> use_count c s = 0%nat ->
  wp (destroy c) (fun _ s' => s' = set_deleted ({[c]} ∪ deleted s) s /\ inv s') s.
Proof.
  intros Hi Hlt Hu. rewrite (System.i_length _ _ _ _ (System.i_placed _ _ _ (o_sys _ Hi))) in Hlt.
  destruct (lookup_lt_is_Some_2 _ _ Hlt) as [conn Hc].
  destruct (System.conn_at_exists _ _ _ _ c conn (System.i_placed _ _ _ (o_sys _ Hi)) Hc) as (ch & k & w & Hat).
  destruct (System.inv_conn _ _ _ c conn ch k w (o_sys _ Hi) I Hat) as [_ Hst].
  pose proof (referenced_or_gone s c conn Hi Hc Hu) as Hg. rewrite Hg in Hst. destruct Hst as [Hst _]. cbn in Hst.
  unfold destroy. wp_steps. rewrite (System.at_cell _ _ _ _ _ _ Hat). wp_steps. apply (wp_lift _ (tt, k)).
  { unfold TcpConnection.destructor, bind, get, assert_. by rewrite Hst. }
  wp_steps. split; [done|]. destruct Hi as [I1 [K1 K3 K5] I3 I4 I5]. constructor; try done.
  constructor; try done; cbn [sys set_deleted deleted].
  - intros d [->%elem_of_singleton|Hd]%elem_of_union; [done|by apply K3].
  - intros d dn Hd Hdel. apply not_elem_of_union in Hdel as [_ Hdel]. destruct (K5 d dn Hd Hdel) as [Ho Hdn].
    split; [done|]. intros e en Hne He Hee. apply (Hdn e en); [done..|]. by apply not_elem_of_union in Hee as [_ ?].
Qed.

(** Every connection is referred to or deleted. *)
Definition settled s : Prop := inv s /\ all_held s.

Lemma wp_release s : inv s -> wp release (fun _ s' => settled s' /\ sys s' = sys s /\ users s' = users s) s.
Proof.
  intros Hi. eapply wpe_mono; [apply (wp_release_by inv)|].
  - intros c s1 Hi1 Hlt Hu. eapply wpe_mono; [by apply wp_destroy|]. cbn beta. intros _ s2 [-> ?]. by split.
  - done.
  - cbn beta. intros _ s' (Hi' & Hd & Es & _ & Eu). split; [by split|done].
Qed.

(** After a step of the system. *)
Lemma wp_settle s y : kept s -> stepped s y ->
  wp settle (fun _ s' => settled s' /\ sys s' = y /\ users s' = users s) (set_sys y s).
Proof.
  intros Hk Hs. unfold settle, sync. wp_steps. eapply wpe_mono; [apply wp_release; by apply (synced s y)|].
  cbn beta. by intros _ s' (? & ? & ?).
Qed.

(** ** A connection takes a step *)

Lemma kept_pop s l x q : kept s -> TcpServer.pop l (queue s) = Some (x, q) -> kept (set_queue q s).
Proof.
  intros [K1 K3 K5] Hp. destruct (pop_sublist _ _ _ _ Hp) as [Hs _].
  assert (forall z, z ∈ q -> z ∈ queue s) as Hin by (intros z Hz; by eapply elem_of_sublist).
  constructor; cbn [queue set_queue sys deleted]; try done.
  - intros l' c f Hx. by apply (K1 l' c f), Hin.
  - intros c Hc. destruct (K3 c Hc) as [Hg Hu]. split; [done|]. apply use_count_0 in Hu as (U1 & U2 & U3). apply use_count_0.
    split; [exact U1|]. split; [|exact U3]. intros z Hz. by apply U2, Hin.
Qed.

(** The functors in the queue are those the connections and the server have
    queued, but for those [o] takes from connection [c]. *)
Definition matches (c : nat) (o : TcpConnection.op) (k : C) s : Prop :=
  omap item_server (queue s) = TcpServer.pending (System.server (sys s)) /\
  (forall d, omap (item_own d) (queue s) =
     if decide (d = c) then Queueing.rest o (TcpConnection.pending k) else Queueing.pend d (sys s)) /\
  (forall d, exposed d (over d (sys s)) (queue s) -> user_count d s <> 0%nat).

Lemma connected_trace c conn ch k w y : System.inv others y -> System.conn_at c conn ch k w y ->
  TcpConnection.is_open (TcpConnection.state_ k) -> trace c y = [TcpServer.ActEstablished].
Proof.
  intros Hi Hat Hk. destruct (System.inv_conn _ _ _ c conn ch k w Hi I Hat) as [_ Hst].
  destruct (trace c y) as [|[] [|[] [|[] [|]]]]; cbn in Hst; try done;
    destruct Hst as [Hst _]; rewrite Hst in Hk; by destruct Hk.
Qed.

Lemma stepped_conn c o conn ch k w s y : System.inv others (sys s) -> System.conn_at c conn ch k w (sys s) -> c ∉ deleted s ->
  matches c o k s -> (Queueing.local o = false -> user_count c s <> 0%nat) ->
  System.inv others y -> conns y = conns (sys s) -> Queueing.conn_moved c o k (sys s) y -> stepped s y.
Proof.
  intros Hi Hat Hnd (Hsv & Hown & Hexp) Hu Hy Hc (Happ & Hlog & (new & En & Hn) & Hoth).
  assert (forall d, trace d (sys s) = System.gone -> trace d y = System.gone) as Hgone.
  { intros d Hg. destruct Hlog as [E|E].
    - by rewrite <- Hg; unfold TcpServer.trace; rewrite E.
    - eapply System.gone_stays; [apply Hy|exact E|done]. }
  constructor; try done.
  - rewrite Hsv. exact Happ.
  - intros d. rewrite Hown. case_decide as Ed; [subst d|].
    + exists new. split; [done|]. split; [done|]. eapply Forall_impl; [|exact Hn]. cbn. auto.
    + exists []. rewrite app_nil_r. split; [by apply Hoth|by split].
  - intros d He. apply Hexp. eapply exposed_over; [|exact He]. intros Ho.
    destruct Hlog as [E|E]; [unfold over, TcpServer.trace in *; by rewrite E in Ho|].
    destruct (over_grows d _ _ _ E Ho) as [?|Hin]; [done|]. by apply list_elem_of_singleton in Hin.
  - by left.
Qed.

Lemma wpe_conn_settle c o conn ch k w s : kept s -> System.inv others (sys s) -> System.conn_at c conn ch k w (sys s) ->
  c ∉ deleted s -> matches c o k s -> (Queueing.local o = false -> user_count c s <> 0%nat) ->
  TcpConnection.allowed ch (TcpServer.conn_fd conn) o (TcpConnection.set_world w k) ->
  o <> TcpConnection.OpEstablish -> o <> TcpConnection.OpDestroy ->
  wpe TcpConnection.external (in_sys (System.conn_step getLocalAddr tie script c o)) (fun _ => wpe TcpConnection.external settle
    (fun _ s' => settled s' /\ users s' = users s /\ System.around c conn ch w (sys s) (sys s'))) s.
Proof.
  intros Hk Hi Hat Hnd Hm Hu Ha Hne Hnd'. unfold in_sys. apply wpe_zoom. eapply wpe_mono.
  { apply wpe_conj_wlp; [by apply (System.wpe_conn_step startLoop getLocalAddr tie script new_address socket tie_keeps script_ok address_fresh others c conn ch k w o)|].
    apply (Queueing.conn_step_moved getLocalAddr tie script tie_keeps c o ch k).
    - apply (System.i_server _ _ _ Hi).
    - apply Hat. }
  cbn beta. intros _ y [[Hy Har] Hmv]. apply (wpe_weaken (fun _ => False)); [|intros ? []].
  eapply wpe_mono; [apply wp_settle; [exact Hk|]|].
  - eapply stepped_conn; [exact Hi|exact Hat|done|exact Hm|exact Hu|done|apply Har|exact Hmv].
  - cbn beta. intros _ s' (? & -> & ?). by split.
Qed.

(** ** Who is alive *)

Lemma wpe_use E c (Q : unit -> T -> Prop) s : c ∉ deleted s -> Q tt s -> wpe E (use c) Q s.
Proof. intros Hc HQ. unfold use. wp_steps. by rewrite decide_False. Qed.
Lemma wpe_use_of E c (Q : unit -> T -> Prop) s : (forall d, c = Some d -> d ∉ deleted s) -> Q tt s -> wpe E (use_of c) Q s.
Proof. intros Hc HQ. destruct c as [c|]; cbn; [by apply wpe_use; [apply Hc|]|by wp_steps]. Qed.

Lemma held_alive s c x : inv s -> x ∈ queue s -> holds c x = true -> c ∉ deleted s.
Proof.
  intros Hi Hx Hh Hd. destruct (k_deleted _ (o_kept _ Hi) c Hd) as [_ Hu]. apply use_count_0 in Hu as (_ & Hq & _).
  by rewrite (Hq x Hx) in Hh.
Qed.

Lemma user_alive s c : inv s -> user_count c s <> 0%nat -> c ∉ deleted s.
Proof. intros Hi Hu Hd. destruct (k_deleted _ (o_kept _ Hi) c Hd) as [_ Hu']. by apply use_count_0 in Hu' as (_ & _ & ?). Qed.

Lemma open_alive s c conn ch k w : inv s -> System.conn_at c conn ch k w (sys s) ->
  TcpConnection.is_open (TcpConnection.state_ k) -> c ∉ deleted s.
Proof.
  intros Hi Hat Ho Hd. destruct (k_deleted _ (o_kept _ Hi) c Hd) as [Hg _].
  by rewrite (connected_trace c conn ch k w _ (o_sys _ Hi) Hat Ho) in Hg.
Qed.

Lemma inv_matches s c o conn ch k w : inv s -> System.conn_at c conn ch k w (sys s) -> Queueing.rest o = (fun p => p) -> matches c o k s.
Proof.
  intros Hi Hat Hr. split; [apply Hi|]. split; [|apply Hi]. intros d. rewrite Hr, (o_own _ Hi). case_decide as Ed; [|done].
  subst d. unfold Queueing.pend. by rewrite (System.at_cell _ _ _ _ _ _ Hat).
Qed.

(** ** The loops run functors *)

Lemma run_log l f q sv : TcpServer.pop l (TcpServer.pending sv) = Some (f, q) ->
  wlp (TcpServer.step getLocalAddr (TcpServer.Run l)) (fun _ sv' => TcpServer.log sv' = TcpServer.log sv ++
    match f with
    | TcpServer.Established c => [(c, TcpServer.ActEstablished)]
    | TcpServer.Destroyed c => [(c, TcpServer.ActDestroyed)]
    | _ => []
    end) sv.
Proof.
  intros Hp. cbn [TcpServer.step]. wp_steps. rewrite Hp. wp_steps. destruct f as [c|c|c|]; cbn [TcpServer.exec].
  - by wp_steps.
  - eapply wpe_mono; [by apply TcpServer.wpe_removeInLoop_frame|]. cbn. intros _ s' (_ & _ & E). by rewrite E, app_nil_r.
  - by wp_steps.
  - wp_steps. destruct (TcpServer.alive _); [|by apply wpe_throw]. unfold TcpServer.listen. wp_steps. cbn. by rewrite app_nil_r.
Qed.

(** The functors of a connection are in the queue of its loop, like the one
    that ends it. *)
Lemma destroyed_loop l c q s l' g : inv s -> TcpServer.pop l (queue s) = Some (Server (TcpServer.Destroyed c), q) ->
  (l', Own c g) ∈ queue s -> l' = l.
Proof.
  intros Hi Hp Hg. destruct (pop_sublist _ _ _ _ Hp) as [_ Hin].
  destruct (k_loop _ (o_kept _ Hi) l' c g Hg) as (conn & Hc & <-).
  apply servers_elem in Hin. rewrite (o_server _ Hi) in Hin. apply (TcpServer.about_elem c) in Hin; [|done].
  destruct (phase_of _ c conn _ (o_sys _ Hi) Hc) as (p & _ & Hab & _). rewrite Hab in Hin.
  destruct p; cbn in Hin; try (by apply not_elem_of_nil in Hin); by apply list_elem_of_singleton in Hin as [= <-].
Qed.

Lemma stepped_server o s y : kept s -> System.inv others y -> Queueing.server_moved getLocalAddr o (sys s) y ->
  omap item_server (queue s) = Queueing.server_rest o (System.server (sys s)) ->
  (forall c, omap (item_own c) (queue s) = Queueing.pend c (sys s)) ->
  (forall c, exposed c (over c y) (queue s) -> user_count c s <> 0%nat) ->
  conns y = conns (sys s) \/ (exists conn, conns y = conns (sys s) ++ [conn] /\ ~ open_fd (TcpServer.conn_fd conn) s) ->
  stepped s y.
Proof.
  intros Hk Hy (_ & (n & En) & Hfr & Hg) Hsv Hown Hexp Hc. destruct (Queueing.framed_log _ _ _ Hfr) as [l Hl].
  assert (forall c, trace c (sys s) = System.gone -> trace c y = System.gone) as Hgone
    by (intros c; eapply System.gone_stays; [apply Hy|exact Hl]).
  constructor; try done.
  - exists n. by rewrite Hsv.
  - intros c. destruct (Hg c) as (new & Ec & Ho & Hx). exists new. rewrite Hown. split; [done|]. split.
    + intros Hd. destruct Hx as [Hx|?]; [|done]. destruct Hx. destruct (k_deleted _ Hk c Hd) as [Hd' _]. by rewrite (Hgone c Hd').
    + eapply Forall_impl; [|exact Ho]. intros f Ho' Hb. by rewrite Queueing.owning_bare in Hb.
Qed.

Lemma stepped_run l f q s y : inv s -> TcpServer.pop l (queue s) = Some (Server f, q) -> System.inv others y ->
  Queueing.server_moved getLocalAddr (TcpServer.Run l) (sys s) y -> stepped (set_queue q s) y.
Proof.
  intros Hi Hp Hy Hm. destruct (pop_server _ _ _ _ Hp) as [Hps Hpo]. rewrite (o_server _ Hi) in Hps.
  pose proof (wpe_elim _ _ _ _ _ _ (run_log l f _ _ Hps) (proj1 Hm)) as Hl.
  eapply stepped_server; [by eapply kept_pop; [apply Hi|]|done|exact Hm|..]; cbn [sys set_queue queue Queueing.server_rest].
  - by rewrite Hps.
  - intros c. by rewrite Hpo, (o_own _ Hi).
  - intros c He. apply (o_exposed _ Hi c). eapply exposed_run; [exact Hp| | |exact He].
    + intros -> l' g. by eapply destroyed_loop.
    + intros Ho. destruct (over_grows c _ _ _ Hl Ho) as [?|Hin]; [by left|right].
      destruct f as [d|d|d|]; cbn in Hin; try (by apply not_elem_of_nil in Hin); apply list_elem_of_singleton in Hin; congruence.
  - left. apply Hm.
Qed.

Lemma wpe_run_server l f q s : inv s -> TcpServer.pop l (queue s) = Some (Server f, q) ->
  wpe TcpConnection.external (exec getLocalAddr tie script l (Server f) ;;; settle) (fun _ s' => settled s' /\ users s' = users s)
    (set_queue q s).
Proof.
  intros Hi Hp. destruct (pop_sublist _ _ _ _ Hp) as [_ Hin]. pose proof (kept_pop _ _ _ _ (o_kept _ Hi) Hp) as Hk.
  cbn [exec]. wp_steps. apply wpe_use_of.
  { intros d Hf. apply (held_alive s d (l, Server f)); [done..|]. cbn. by apply bool_decide_eq_true. }
  wp_steps. unfold in_sys. apply wpe_zoom. cbn [sys set_queue]. eapply wpe_mono.
  { apply wpe_conj_wlp; [by apply (System.wpe_server_run startLoop getLocalAddr tie script new_address socket tie_keeps script_ok address_fresh others l), Hi|].
    apply (Queueing.server_step_moved getLocalAddr tie script tie_keeps (TcpServer.Run l)); [apply Hi|apply Queueing.nothing_grows]. }
  cbn beta. intros _ y [Hy Hm].
  apply (wpe_weaken (fun _ => False)); [|intros ? []].
  eapply wpe_mono; [apply (wp_settle (set_queue q s) y); [done|]|].
  - by eapply stepped_run.
  - cbn beta. by intros _ s' (? & _ & ?).
Qed.

(** The functors that start and stop reading do not look at the state. *)
Definition late (f : TcpConnection.functor) : bool :=
  match f with TcpConnection.StartReadInLoop | TcpConnection.StopReadInLoop => true | _ => false end.

Lemma wpe_run_own l c f q s : inv s -> TcpServer.pop l (queue s) = Some (Own c f, q) ->
  (late f -> c ∉ deleted s -> exists conn ch k w, System.conn_at c conn ch k w (sys s) /\ TcpConnection.is_open (TcpConnection.state_ k)) ->
  wpe TcpConnection.external (exec getLocalAddr tie script l (Own c f) ;;; settle) (fun _ s' => settled s' /\ users s' = users s)
    (set_queue q s).
Proof.
  intros Hi Hp Hlate. destruct (pop_sublist _ _ _ _ Hp) as [Hsub Hin]. pose proof (o_kept _ Hi) as Hk.
  destruct (k_loop _ Hk l c f Hin) as (conn & Hc & El).
  destruct (System.conn_at_exists _ _ _ _ c conn (System.i_placed _ _ _ (o_sys _ Hi)) Hc) as (ch & k & w & Hat).
  assert (c ∉ deleted s) as Hal.
  { intros Hd. destruct (k_deleted _ Hk c Hd) as [Hg Hu]. destruct (Queueing.owning f) eqn:Hf.
    - by apply (held_alive s c _ Hi Hin); [cbn; rewrite bool_decide_eq_true_2|].
    - apply use_count_0 in Hu as (_ & _ & Hu). apply (o_exposed _ Hi c); [|exact Hu]. rewrite gone_over by done.
      eapply bare_exposed; [exact Hin|]. unfold Queueing.bare. by rewrite Hf. }
  destruct (pop_own l (queue s) c f q Hp) as (Hps & Hpo & Hpc).
  { intros l' g Hg. destruct (k_loop _ Hk l' c g Hg) as (cn & Hcn & <-). congruence. }
  assert (TcpConnection.pending k = f :: omap (item_own c) q) as Hpk.
  { rewrite <- Hpc, (o_own _ Hi). unfold Queueing.pend. by rewrite (System.at_cell _ _ _ _ _ _ Hat). }
  cbn [exec]. wp_steps. apply wpe_use; [done|].
  eapply wpe_mono; [apply (wpe_conn_settle c TcpConnection.OpFunctor conn ch k w (set_queue q s)); try done|].
  - by eapply kept_pop.
  - apply Hi.
  - split; [cbn [queue set_queue sys]; by rewrite Hps, (o_server _ Hi)|]. split.
    + intros d. cbn [queue set_queue sys]. case_decide as Ed; [subst d; by rewrite Hpk|]. by rewrite Hpo, (o_own _ Hi).
    + intros d He. apply (o_exposed _ Hi d). by eapply exposed_sublist.
  - cbn [TcpConnection.allowed TcpConnection.pending TcpConnection.set_world TcpConnection.state_]. rewrite Hpk.
    destruct f; try done; destruct (Hlate I Hal) as (cn & dh & k' & w' & Hat' & Ho);
      pose proof (System.at_cell _ _ _ _ _ _ Hat) as E1; rewrite (System.at_cell _ _ _ _ _ _ Hat') in E1; by injection E1 as <- <-.
  - cbn beta. intros _ s1 Hs1. eapply wpe_mono; [exact Hs1|]. cbn beta. by intros _ s' (? & ? & _).
Qed.

Lemma wpe_run_functor l s : settled s ->
  (forall c f q, TcpServer.pop l (queue s) = Some (Own c f, q) -> late f -> c ∉ deleted s ->
     exists conn ch k w, System.conn_at c conn ch k w (sys s) /\ TcpConnection.is_open (TcpConnection.state_ k)) ->
  wpe TcpConnection.external (run_functor getLocalAddr tie script l) (fun _ => settled) s.
Proof.
  intros Hset Hlate. pose proof Hset as [Hi _]. unfold run_functor. wp_steps.
  destruct (TcpServer.pop l (queue s)) as [[[f|c f] q]|] eqn:Hp; [| |by wp_steps].
  - apply wpe_bind, wpe_modify. eapply wpe_mono; [by apply wpe_run_server|]. cbn beta. by intros _ s' [? _].
  - apply wpe_bind, wpe_modify. eapply wpe_mono; [apply wpe_run_own; [done..|]|cbn beta; by intros _ s' [? _]].
    by apply (Hlate c f q).
Qed.

(** ** New descriptors *)

(** A descriptor that is not open is free for a new connection: its last
    connection is gone and left the poller before it closed it. *)
Lemma closed_free fd s : inv s -> ~ open_fd fd s -> System.fd_free fd (sys s).
Proof.
  intros Hi Hfd.
  assert (forall c conn, conns (sys s) !! c = Some conn -> TcpServer.conn_fd conn = fd -> trace c (sys s) = System.gone) as Hgone.
  { intros c conn Hc Ef. destruct (decide (c ∈ deleted s)) as [Hd|Hd]; [by apply (k_deleted _ (o_kept _ Hi))|].
    destruct Hfd. right. by exists c, conn. }
  split; [|exact Hgone]. intros l w Hw. destruct (channels_ (poller w) !! fd) as [ch|] eqn:Hr; [exfalso|done].
  destruct (System.i_registered _ _ _ _ (System.i_placed _ _ _ (o_sys _ Hi)) l w fd ch Hw Hr) as [Ho|(c & conn & k & Hc & Hk & El & Ef)].
  - apply Hfd. by left.
  - destruct (System.inv_conn _ _ _ c conn ch k w (o_sys _ Hi) I) as [_ Hst].
    { constructor; [done..|]. by rewrite El. }
    rewrite (Hgone c conn Hc Ef) in Hst. destruct Hst as [_ Hst]. apply Hst. cbn. by rewrite Ef.
Qed.

Lemma wpe_own_accept fd peer s : settled s -> TcpServer.nextConnId_ (System.server (sys s)) < 2 ^ 31 - 1 -> 0 <= fd < INT_MAX ->
  ~ open_fd fd s ->
  wpe TcpConnection.external (step getLocalAddr tie script new_address socket writeComplete highWater (Accept fd peer))
    (fun _ => settled) s.
Proof.
  intros [Hi _] Hid Hr Hfd. cbn [step]. wp_steps. unfold in_sys. apply wpe_zoom. eapply wpe_mono.
  { apply wpe_conj_wlp.
    - apply (System.wpe_accept startLoop getLocalAddr tie script new_address socket writeComplete highWater tie_keeps script_ok
        address_fresh others fd peer (sys s)); [apply Hi|done|done|]. by apply closed_free.
    - apply (Queueing.server_step_moved getLocalAddr tie script tie_keeps (TcpServer.Accept fd peer)); [apply Hi|].
      apply Queueing.create_grows. }
  cbn beta. intros _ y [Hy Hm]. apply (wpe_weaken (fun _ => False)); [|intros ? []].
  eapply wpe_mono; [apply (wp_settle s y); [apply Hi|]|cbn beta; by intros _ s' (? & _)].
  pose proof Hm as (_ & _ & (_ & conn & Ec & Ef & _ & Hl) & _).
  eapply stepped_server; [apply Hi|done|exact Hm|apply Hi|apply Hi| |].
  - intros c He. apply (o_exposed _ Hi c). eapply exposed_over; [|exact He]. intros Ho.
    destruct Hl as [E|E]; [unfold over, TcpServer.trace in *; by rewrite E in Ho|].
    destruct (over_grows c _ _ _ E Ho) as [?|Hin]; [done|]. by apply list_elem_of_singleton in Hin.
  - right. exists conn. split; [done|]. by rewrite Ef.
Qed.

(** ** The loops handle events *)

Lemma stepped_same s y : inv s -> System.inv others y -> System.server y = System.server (sys s) ->
  System.cells y = System.cells (sys s) -> stepped s y.
Proof.
  intros Hi Hy Es Ec. constructor; rewrite ?Es; try done.
  - exists []. by rewrite (o_server _ Hi), app_nil_r.
  - intros c. exists []. rewrite (o_own _ Hi), app_nil_r. split; [|by split]. unfold Queueing.pend. by rewrite Ec.
  - intros c He. apply (o_exposed _ Hi c). unfold over in He. by rewrite Es in He.
  - by left.
Qed.

Lemma settled_poll s y : settled s -> System.inv others y -> System.server y = System.server (sys s) ->
  System.cells y = System.cells (sys s) -> settled (set_sys y s).
Proof.
  intros [[I1 [K1 K3 K5] I3 I4 I5] Hset] Hy Es Ec.
  assert (forall c, use_count c (set_sys y s) = use_count c s) as Hu
    by (intros c; unfold use_count, listed; cbn [sys set_sys]; by rewrite Es).
  split; [|intros c; rewrite Hu; cbn [sys set_sys deleted]; rewrite Ec; apply Hset].
  constructor; cbn [sys set_sys queue]; rewrite ?Es; try done.
  - constructor; cbn [sys set_sys queue deleted]; rewrite ?Es; try done. intros c Hc. rewrite Hu. by apply K3.
  - intros c. rewrite I4. unfold Queueing.pend. by rewrite Ec.
  - intros c He. apply (I5 c). unfold over in He. by rewrite Es in He.
Qed.

Lemma wpe_own_handle l time ch active s : ch ∉ active -> l ∈ TcpServer.loops (System.server (sys s)) -> settled s ->
  System.ready l (ch :: active) (sys s) ->
  wpe TcpConnection.external (handle getLocalAddr tie script l time ch) (fun _ s' =>
    settled s' /\ System.ready l active (sys s') /\
    TcpServer.loops (System.server (sys s')) = TcpServer.loops (System.server (sys s))) s.
Proof.
  intros Hch Hl [Hi _] Hr.
  assert (forall c, System.owner l ch (sys s) = Some c -> c ∉ deleted s) as Hal.
  { intros c Eo. destruct (System.i_worlds _ _ _ _ (System.i_placed _ _ _ (o_sys _ Hi)) l Hl) as (w & _ & Hw & _).
    destruct (System.ready_owner others l ch active (sys s) c w) as (conn & k & x & Hat & _ & Ho & _); [apply Hi|done..|].
    by apply (open_alive s c conn ch k w). }
  unfold handle. wp_steps. apply wpe_use_of; [exact Hal|]. wp_steps. unfold in_sys. apply wpe_zoom. eapply wpe_mono.
  { apply wpe_conj_wlp.
    - apply (System.wpe_handle startLoop getLocalAddr tie script new_address socket tie_keeps script_ok address_fresh others
        l time ch active (sys s)); [done|done|apply Hi|done].
    - apply (Queueing.handle_moved getLocalAddr tie script tie_keeps). apply Hi. }
  cbn beta. intros _ y [(Hy & Hr' & El & Har) Hm]. apply (wpe_weaken (fun _ => False)); [|intros ? []].
  eapply wpe_mono; [apply (wp_settle s y); [apply Hi|]|cbn beta; by intros _ s' (? & -> & _)].
  destruct Hm as [->|(c & dh & k & r & Eo & Hk & Hm)]; [by apply stepped_same|].
  destruct (System.owner_spec others l ch (sys s) c (o_sys _ Hi) Eo) as (conn & k' & w & Hat & _).
  rewrite (System.at_cell _ _ _ _ _ _ Hat) in Hk. injection Hk as -> ->.
  apply (stepped_conn c (TcpConnection.OpEvents r time) conn dh k w); [apply Hi|exact Hat|by apply Hal|by apply (inv_matches s c _ conn dh k w)|done|done| |exact Hm].
  destruct Har as [->|(d & dn & kd & wd & _ & Har)]; [done|]. apply Har.
Qed.

Lemma wpe_own_events l w s : settled s -> l ∈ TcpServer.loops (System.server (sys s)) -> System.worlds (sys s) !! l = Some w ->
  System.events_allowed w -> wpe TcpConnection.external (poll_events getLocalAddr tie script l) (fun _ => settled) s.
Proof.
  intros Hset Hl Hw Ha. unfold poll_events. wp_steps. unfold in_sys at 1. apply wpe_zoom. eapply wpe_mono.
  { apply (System.wpe_poll_world others l w); [apply Hset|done..]. }
  cbn beta. intros [time active] y (Hy & Hnd & Hr & w' & -> & _). cbn [fst snd] in *.
  assert (settled (set_sys (System.set_world_of l w' (sys s)) s)) as Hs1 by by apply settled_poll.
  assert (l ∈ TcpServer.loops (System.server (sys (set_sys (System.set_world_of l w' (sys s)) s)))) as Hl1 by done.
  change (System.ready l active (sys (set_sys (System.set_world_of l w' (sys s)) s))) in Hr.
  revert Hs1 Hl1 Hr. generalize (set_sys (System.set_world_of l w' (sys s)) s). clear Hset Hl Hw Ha Hy w w' s.
  induction Hnd as [|ch active Hch _ IH]; intros s Hs Hl Hr; cbn [for_each]; [by wp_steps|].
  wp_steps. eapply wpe_mono; [by apply (wpe_own_handle l time ch active)|]. cbn beta. intros _ s' (Hs' & Hr' & El).
  apply IH; [done| |done]. by rewrite El.
Qed.

(** ** Calls and pointers of the users *)

Lemma wpe_own_conn c o conn ch k w s : settled s -> System.conn_at c conn ch k w (sys s) -> c ∉ deleted s ->
  Queueing.rest o = (fun p => p) -> (Queueing.local o = false -> user_count c s <> 0%nat) ->
  TcpConnection.allowed ch (TcpServer.conn_fd conn) o (TcpConnection.set_world w k) ->
  o <> TcpConnection.OpEstablish -> o <> TcpConnection.OpDestroy ->
  wpe TcpConnection.external (in_sys (System.conn_step getLocalAddr tie script c o) ;;; settle) (fun _ => settled) s.
Proof.
  intros [Hi _] Hat Hnd Hr Hu Ha ? ?. wp_steps. eapply wpe_mono.
  { apply (wpe_conn_settle c o conn ch k w); try done; [apply Hi|apply Hi|]. by eapply inv_matches. }
  cbn beta. intros _ s1 Hs1. eapply wpe_mono; [exact Hs1|]. cbn beta. by intros _ s' (? & _).
Qed.

Lemma inv_set_users u s : inv s -> (forall c, c ∈ deleted s -> default 0%nat (u !! c) = 0%nat) ->
  (forall c, exposed c (over c (sys s)) (queue s) -> default 0%nat (u !! c) <> 0%nat) -> inv (set_users u s).
Proof.
  intros [I1 [K1 K3 K5] I3 I4 I5] Hu He. constructor; try done. constructor; try done.
  intros c Hc. destruct (K3 c Hc) as [Hg Hc']. split; [done|]. apply use_count_0 in Hc' as (U1 & U2 & _).
  apply use_count_0. split; [exact U1|]. split; [exact U2|]. by apply Hu.
Qed.

Lemma unused_user s c : inv s -> c ∈ deleted s -> user_count c s = 0%nat.
Proof. intros Hi Hc. destruct (k_deleted _ (o_kept _ Hi) c Hc) as [_ Hu]. by apply use_count_0 in Hu as (_ & _ & ?). Qed.

Lemma settled_keep c s : settled s -> c ∉ deleted s -> settled (set_users (<[c := S (user_count c s)]> (users s)) s).
Proof.
  intros [Hi Hset] Hc. split.
  - apply inv_set_users; [done| |].
    + intros d Hd. rewrite lookup_insert_ne by congruence. by apply unused_user.
    + intros d Hd. rewrite lookup_insert. case_decide; [done|]. by apply (o_exposed _ Hi).
  - cbn [sys set_users deleted]. intros d Hd. destruct (Hset d Hd) as [?|Hu]; [by left|right]. intros Hz. apply Hu.
    apply use_count_0 in Hz as (U1 & U2 & U3). apply use_count_0. split; [exact U1|]. split; [exact U2|].
    unfold user_count in U3 |- *. cbn [users set_users] in U3. rewrite lookup_insert in U3. by case_decide.
Qed.

(** ** Runs *)

(** Descriptors that are not open, events that make sense; calls and their
    steps on established connections, through a pointer that user code holds
    throughout; nobody closes between another thread's test and setting of
    [state_]; a start or stop of reading that was queued finds the connection
    open, if it exists.  A pointer is copied from one there is.  User code does
    not let its last pointer go while a functor of one of its calls waits behind the one that ends the
    connection. *)
Definition allowed (o : op) s : Prop :=
  match o with
  | Accept fd _ => TcpServer.nextConnId_ (System.server (sys s)) < 2 ^ 31 - 1 /\ 0 <= fd < INT_MAX /\ ~ open_fd fd s
  | Events l => l ∈ TcpServer.loops (System.server (sys s)) /\
      exists w, System.worlds (sys s) !! l = Some w /\ System.events_allowed w
  | RunFunctor l => forall c f q, TcpServer.pop l (queue s) = Some (Own c f, q) -> late f -> c ∉ deleted s ->
      exists conn ch k w, System.conn_at c conn ch k w (sys s) /\ TcpConnection.is_open (TcpConnection.state_ k)
  | Timer c => is_Some (conns (sys s) !! c)
  | Call c x => user_count c s <> 0%nat /\ exists conn ch k w, System.conn_at c conn ch k w (sys s) /\
      TcpConnection.state_ k <> TcpConnection.kConnecting /\ TcpConnection.cmd_ok (TcpConnection.state_ k) x
  | Remote c p => user_count c s <> 0%nat /\ exists conn ch k w, System.conn_at c conn ch k w (sys s) /\
      TcpConnection.allowed ch (TcpServer.conn_fd conn) (part_op p) (TcpConnection.set_world w k)
  | Keep c => use_count c s <> 0%nat
  | Drop c => user_count c s <> 0%nat /\ (exposed c (over c (sys s)) (queue s) -> user_count c s <> 1%nat)
  end.

Notation own_step := (step getLocalAddr tie script new_address socket writeComplete highWater).

Fixpoint allowed_run (l : list op) s : Prop :=
  match l with
  | [] => True
  | o :: l => allowed o s /\ match own_step o s with Ok (_, s') => allowed_run l s' | Err _ => True end
  end.

Lemma wpe_own_step o s : settled s -> allowed o s -> wpe TcpConnection.external (own_step o) (fun _ => settled) s.
Proof.
  intros Hset Ha. pose proof Hset as [Hi _]. destruct o as [fd peer|l|l|c|c x|c p|c|c]; cbn [allowed] in Ha.
  - destruct Ha as (? & ? & ?). by apply wpe_own_accept.
  - destruct Ha as (Hl & w & Hw & He). by eapply wpe_own_events.
  - by apply wpe_run_functor.
  - cbn [step]. unfold weak_forceClose. wp_steps. apply wpe_when; intros Hd; [|done].
    apply negb_true_iff, bool_decide_eq_false in Hd. apply wpe_bind, wpe_use; [done|]. destruct Ha as [conn Hc].
    destruct (System.conn_at_exists _ _ _ _ c conn (System.i_placed _ _ _ (o_sys _ Hi)) Hc) as (ch & k & w & Hat). by eapply wpe_own_conn.
  - destruct Ha as (Hu & conn & ch & k & w & Hat & Hst & Hx). pose proof (user_alive s c Hi Hu) as Hal. cbn [step]. unfold call.
    apply wpe_bind, wpe_use; [done|]. by apply (wpe_own_conn c _ conn ch k w).
  - destruct Ha as (Hu & conn & ch & k & w & Hat & Hx). pose proof (user_alive s c Hi Hu) as Hal. cbn [step]. unfold remote.
    apply wpe_bind, wpe_use; [done|]. by apply (wpe_own_conn c _ conn ch k w); destruct p.
  - assert (c ∉ deleted s) as Hal by (intros Hd; by destruct (k_deleted _ (o_kept _ Hi) c Hd)).
    cbn [step]. wp_steps. apply wpe_use; [done|]. wp_steps. by apply settled_keep.
  - cbn [step]. wp_steps. apply (wpe_weaken (fun _ => False)); [|intros ? []]. eapply wpe_mono; [apply wp_release|].
    + destruct Ha as [_ Hx]. apply inv_set_users; [done| |].
      * intros d Hd. pose proof (unused_user s d Hi Hd) as Hu. rewrite lookup_insert. case_decide; [subst d; by rewrite Hu|done].
      * intros d Hd. rewrite lookup_insert. pose proof (o_exposed _ Hi d Hd) as Hu. case_decide; [subst d; cbn|done].
        specialize (Hx Hd). lia.
    + cbn beta. by intros _ s' [? _].
Qed.

Lemma wpe_own_run l s : settled s -> allowed_run l s -> wpe TcpConnection.external (for_each own_step l) (fun _ => settled) s.
Proof.
  revert s. induction l as [|o l IH]; intros s Hi Ha; cbn [for_each]; [by wp_steps|].
  destruct Ha as [Ha Hl]. apply wpe_bind. pose proof (wpe_own_step o s Hi Ha) as Hs.
  unfold wpe in Hs |- *. destruct (own_step o s) as [[[] s']|e]; [by apply IH|done].
Qed.

Lemma sys_inv_mono (O : Z -> Prop) y : System.inv O y -> (forall fd, O fd -> others fd) -> System.inv others y.
Proof.
  intros [I1 [I2 I3 I4 I5 I6 I7 I8]] HO. constructor; [done|]. constructor; try done. intros l w fd ch Hw Hd.
  destruct (I8 l w fd ch Hw Hd) as [?|?]; [left; auto|by right].
Qed.

Lemma wp_own_open ws n loop ipPort name cb : 0 <= n < 2 ^ 31 -> slen (c_str ipPort) <= 50 ->
  (forall l, l ∈ loop :: (startLoop <$> seqZ 0 n) -> exists w a, ws !! l = Some w /\ Registry.refines a w) ->
  (forall fd, System.initial ws fd -> others fd) ->
  wp (open startLoop n loop) (fun _ => settled) (make ws loop ipPort name cb).
Proof.
  intros Hn Hip Hws Ho. unfold open. wp_steps. unfold in_sys. apply wpe_zoom. cbn [sys make].
  eapply wpe_mono; [apply wpe_conj_wlp; [by apply (System.wpe_sys_open startLoop ws n loop ipPort name cb)|]|].
  { instantiate (1 := fun _ y => System.cells y = []). unfold System.open. apply wpe_zoom. unfold wpe.
    by destruct (TcpServer.open startLoop n loop _) as [[]|]. }
  cbn beta. intros _ y [Hy Ec]. apply (sys_inv_mono _ y) in Hy; [|done].
  assert (conns y = []) as Hc. { apply nil_length_inv. by rewrite <- (System.i_length _ _ _ _ (System.i_placed _ _ _ Hy)), Ec. }
  eapply wpe_mono; [apply wp_settle|cbn beta; by intros _ s' [? _]].
  - constructor; cbn; try done; try constructor. intros l c f Hf. by apply not_elem_of_nil in Hf.
  - constructor; cbn [sys make queue deleted]; try done.
    + by eexists.
    + intros c. exists []. unfold Queueing.pend. rewrite Ec. by repeat split.
    + by left.
Qed.

(** What is known of every connection: while it is referred to it exists and
    has a descriptor of its own; when it is deleted the server has finished
    with it, nothing refers to it, and its loop's poller has forgotten it. *)
Definition accounted s : Prop := forall c conn, conns (sys s) !! c = Some conn ->
  (c ∉ deleted s /\ use_count c s <> 0%nat /\ ~ others (TcpServer.conn_fd conn) /\
   forall d dn, d <> c -> conns (sys s) !! d = Some dn -> d ∉ deleted s -> TcpServer.conn_fd dn <> TcpServer.conn_fd conn) \/
  (c ∈ deleted s /\ use_count c s = 0%nat /\ TcpServer.in_phase c conn TcpServer.Gone (System.server (sys s)) /\
   forall ch k w, System.conn_at c conn ch k w (sys s) -> channels_ (poller w) !! TcpServer.conn_fd conn <> Some ch).

Lemma settled_accounted s : settled s -> accounted s.
Proof.
  intros [Hi Hset] c conn Hc. destruct (decide (c ∈ deleted s)) as [Hd|Hd]; [right|left].
  - destruct (k_deleted _ (o_kept _ Hi) c Hd) as [Hg Hu]. split; [done|]. split; [done|]. split.
    + destruct (phase_of _ c conn _ (o_sys _ Hi) Hc) as [p Hp]. by rewrite <- (gone_phase _ _ _ _ Hp Hg).
    + intros ch k w Hat. destruct (System.inv_conn _ _ _ c conn ch k w (o_sys _ Hi) I Hat) as [_ Hst]. rewrite Hg in Hst. apply Hst.
  - split; [done|]. split.
    + destruct (Hset c) as [?|?]; [|done..]. rewrite (System.i_length _ _ _ _ (System.i_placed _ _ _ (o_sys _ Hi))). by eapply lookup_lt_Some.
    + by apply (k_fds _ (o_kept _ Hi)).
Qed.

(** C1: The server with all its connections as objects that shared pointers
    keep alive: in any [allowed] order of accepts, polls, functors (each
    loop's in the order they were queued), delayed closes, users that call
    in the loops' threads and copy and drop pointers, and calls from other
    threads, whose test of [state_], setting of [state_] and handing over to
    the loop are steps of their own, no deleted connection is ever used and
    no assertion fails, that of [~TcpConnection] included; a connection is
    deleted as soon as nothing refers to it, which is after the server has
    destroyed it and its loop's poller has forgotten it, so that the
    descriptor that is closed then can be used again.  [allowed] asks of the
    users that they hold a pointer throughout a call, and keep the last one
    while a functor of a call of theirs that holds a bare [this] stands
    behind [connectDestroyed] ([send_uses_deleted] and
    [startRead_uses_deleted] show the use of a deleted connection
    otherwise); and, for the assertions, what [System.server_works] asks:
    free descriptors, events of channels with an interest, calls on
    established connections, no start or stop of reading on a closed
    connection that still exists, no close between the test and the setting
    of [state_]. *)
Theorem connections_outlive ws n loop ipPort name cb l : 0 <= n < 2 ^ 31 -> slen (c_str ipPort) <= 50 ->
  (forall l, l ∈ loop :: (startLoop <$> seqZ 0 n) -> exists w a, ws !! l = Some w /\ Registry.refines a w) ->
  (forall fd, System.initial ws fd -> others fd) ->
  (forall s, open startLoop n loop (make ws loop ipPort name cb) = Ok (tt, s) -> allowed_run l s) ->
  wpe TcpConnection.external (open startLoop n loop ;;; for_each own_step l)
    (fun _ s => accounted s /\ System.working (sys s)) (make ws loop ipPort name cb).
Proof.
  intros Hn Hip Hws Ho Hl. apply wpe_bind. pose proof (wp_own_open ws n loop ipPort name cb Hn Hip Hws Ho) as Hop.
  unfold wpe in Hop |- * at 1. destruct (open startLoop n loop _) as [[[] s]|e]; [|done].
  eapply wpe_mono; [by apply wpe_own_run; [|apply Hl]|]. cbn beta. intros _ s' Hs'. split; [by apply settled_accounted|].
  apply (System.inv_working others). apply Hs'.
Qed.
End invariant.

(** ** A concrete run

    The server of [System.sample_ops] with a user in another thread, who
    keeps a pointer to the connection on descriptor 10 and is in two sends
    when the peer closes: both have tested the state, one hands its message
    over before the close, the other behind [connectDestroyed].  The user
    lets go after both have run: then the connection is deleted, and
    descriptor 10 serves a new one. *)
Section sample.
Notation T := (t (EPollPoller.t Sample.ep) TcpConnection.sock).

Definition sample_others (fd : Z) : Prop := fd < 10.
Definition sample_make : T := make System.sample_worlds 7 "127.0.0.1:2007" "echo" false.
Definition sample_open : M T unit := open System.sample_start 2 7.
Definition sample_step : op -> M T unit :=
  step System.sample_local TcpConnection.sample_tie TcpConnection.sample_script System.sample_address System.sample_socket true false.
Definition sample_ops : list op :=
  [Accept 10 zero_addr; RunFunctor 100; Keep 0; Remote 0 (Test (TcpConnection.Send [])); Remote 0 (Test (TcpConnection.Send []));
   Events 100; Remote 0 (Queue 0); RunFunctor 100; RunFunctor 100; Events 100; RunFunctor 7; Remote 0 (Queue 0);
   RunFunctor 100; RunFunctor 100; Drop 0; Accept 10 zero_addr; Timer 0].
Definition sample_0 : T := match sample_open sample_make with Ok (_, s) => s | Err _ => sample_make end.
Definition sample_after (o : op) (s : T) : T := match sample_step o s with Ok (_, s') => s' | Err _ => s end.
Definition sample_state (n : nat) : T := foldl (fun s o => sample_after o s) sample_0 (take n sample_ops).

Lemma sample_own_next n o : sample_ops !! n = Some o -> sample_step o (sample_state n) = Ok (tt, sample_state (S n)).
Proof. do 17 (destruct n as [|n]; [intros [= <-]; by vm_compute|]). done. Qed.

Lemma fd_closed_check fd (s : T) : 10 <= fd ->
  Forall (fun x : nat * TcpServer.connection => fst x ∈ deleted s \/ TcpServer.conn_fd (snd x) <> fd)
    (imap pair (TcpServer.conns (System.server (sys s)))) -> ~ open_fd sample_others fd s.
Proof.
  intros Hfd Hall [Ho|(c & conn & Hc & Hd & Ef)]; [unfold sample_others in Ho; lia|].
  assert ((c, conn) ∈ imap pair (TcpServer.conns (System.server (sys s)))) as Hin.
  { apply list_elem_of_lookup. exists c. by rewrite list_lookup_imap, Hc. }
  by destruct (proj1 (list.Forall_forall _ _) Hall _ Hin).
Qed.

Lemma sample_own_each n o : sample_ops !! n = Some o -> allowed sample_others o (sample_state n).
Proof.
  assert (forall peer (s : T), TcpServer.nextConnId_ (System.server (sys s)) <? 2 ^ 31 - 1 = true ->
    Forall (fun x : nat * TcpServer.connection => fst x ∈ deleted s \/ TcpServer.conn_fd (snd x) <> 10)
      (imap pair (TcpServer.conns (System.server (sys s)))) -> allowed sample_others (Accept 10 peer) s) as Hacc.
  { intros peer s Hid Hall. apply Z.ltb_lt in Hid. split; [done|]. split; [unfold INT_MAX; lia|]. by apply fd_closed_check. }
  assert (forall m, (match System.worlds (sys (sample_state m)) !! 100 with Some w => System.readable_10 w | None => false end) = true ->
    bool_decide (100 ∈ TcpServer.loops (System.server (sys (sample_state m)))) = true ->
    allowed sample_others (Events 100) (sample_state m)) as Hev.
  { intros m Hm Hl. apply bool_decide_eq_true in Hl. split; [done|].
    destruct (System.worlds (sys (sample_state m)) !! 100) as [w|]; [|done]. exists w. split; [done|by apply System.readable_10_allowed]. }
  assert (forall l m, (match TcpServer.pop l (queue (sample_state m)) with Some (Own _ f, _) => negb (late f) | _ => true end) = true ->
    allowed sample_others (RunFunctor l) (sample_state m)) as Hrun.
  { intros l m Hm c f q Hp Hf _. rewrite Hp in Hm. by destruct (late f). }
  assert (forall p m, p = Test (TcpConnection.Send []) \/ p = Queue 0 -> user_count 0 (sample_state m) <> 0%nat ->
    (exists conn ch k w, System.conn_at 0 conn ch k w (sys (sample_state m)) /\ TcpConnection.state_ k <> TcpConnection.kConnecting) ->
    allowed sample_others (Remote 0 p) (sample_state m)) as Hrem.
  { intros p m Hp Hu (conn & ch & k & w & Hat & Hst). split; [done|]. exists conn, ch, k, w. split; [done|].
    by destruct Hp as [->| ->]. }
  destruct n as [|[|[|[|[|[|[|[|[|[|[|[|[|[|[|[|[|n]]]]]]]]]]]]]]]]]; [intros [= <-]..|done].
  2, 8, 9, 11, 13, 14: by apply Hrun; vm_compute.
  5, 7: by apply Hev; vm_compute.
  3, 4, 5, 6: (apply Hrem; [auto|vm_compute; lia|]; eexists _, _, _, _; split; [constructor; vm_compute; reflexivity|by vm_compute]).
  - apply Hacc; [by vm_compute|]. apply (bool_decide_unpack _). by vm_compute.
  - apply (bool_decide_unpack _). by vm_compute.
  - split; [vm_compute; lia|]. intros He. exfalso. revert He. by vm_compute.
  - apply Hacc; [by vm_compute|]. apply (bool_decide_unpack _). by vm_compute.
  - eexists. vm_compute. reflexivity.
Qed.

Notation sample_own_run := (allowed_run System.sample_local TcpConnection.sample_tie TcpConnection.sample_script
  System.sample_address System.sample_socket true false sample_others).

Lemma sample_own_allowed s : sample_open sample_make = Ok (tt, s) -> sample_own_run sample_ops s.
Proof.
  assert (forall l n, drop n sample_ops = l -> sample_own_run l (sample_state n)) as Hall.
  { induction l as [|o l IH]; intros n Hn; cbn [allowed_run]; [done|].
    assert (sample_ops !! n = Some o) as Ho by (by rewrite <- (Nat.add_0_r n), <- lookup_drop, Hn).
    split; [by apply sample_own_each|]. pose proof (sample_own_next n o Ho) as Hs. unfold sample_step in Hs. rewrite Hs.
    apply IH. rewrite <- Nat.add_1_r, <- drop_drop, Hn. done. }
  assert (sample_open sample_make = Ok (tt, sample_state 0)) as -> by by vm_compute. intros [= <-].
  by apply (Hall sample_ops 0%nat).
Qed.

Lemma sample_own_final : (sample_open ;;; for_each sample_step sample_ops) sample_make = Ok (tt, sample_state 17).
Proof. by vm_compute. Qed.

Lemma no_initial fd : ~ System.initial System.sample_worlds fd.
Proof.
  intros (l & w & ch & Hw & Hr). revert Hw. unfold System.sample_worlds. rewrite !lookup_insert_Some, lookup_singleton_Some.
  assert (channels_ (poller System.sample_world) = ∅) as E by by vm_compute.
  intros [[_ <-]|[_ [[_ <-]|[_ [_ <-]]]]]; by rewrite E, lookup_empty in Hr.
Qed.
Lemma sample_initial fd : System.initial System.sample_worlds fd -> sample_others fd.
Proof. intros Hi. by apply no_initial in Hi. Qed.

(** The two connections had the same descriptor, one after the other. *)
Lemma connections_outlive_witness :
  (sample_open ;;; for_each sample_step sample_ops) sample_make = Ok (tt, sample_state 17) /\
  (accounted sample_others (sample_state 17) /\ System.working (sys (sample_state 17))) /\
  elements (deleted (sample_state 17)) = [0%nat] /\
  TcpServer.conn_fd <$> TcpServer.conns (System.server (sys (sample_state 17))) = [10; 10].
Proof.
  split; [exact sample_own_final|]. split; [|split; by vm_compute].
  exact (wpe_elim _ _ _ _ _ _ (connections_outlive System.sample_start System.sample_local TcpConnection.sample_tie
    TcpConnection.sample_script System.sample_address System.sample_socket true false sample_others TcpConnection.sample_tie_keeps
    TcpConnection.sample_script_ok System.sample_address_fresh System.sample_worlds 2 7 "127.0.0.1:2007" "echo" false sample_ops
    ltac:(lia) ltac:(vm_compute; congruence) System.sample_worlds_ok sample_initial sample_own_allowed) sample_own_final).
Defined.

(** What [allowed] excludes: a user who lets its last pointer go too early.
    [send] tests the state, the connection is closed, and [sendInLoop], bound
    to a bare [this] (TcpConnection.c++:97, FIXME), is queued behind
    [connectDestroyed]: it runs on the deleted object (in the code, when it is
    in a later batch of functors than the one that frees the last pointer). *)
Example send_uses_deleted : exists s,
  (sample_open ;;; for_each sample_step
    [Accept 10 zero_addr; RunFunctor 100; Keep 0; Remote 0 (Test (TcpConnection.Send [])); Events 100; RunFunctor 100; Events 100;
     RunFunctor 7; Remote 0 (Queue 0); Drop 0; RunFunctor 100]) sample_make = Ok (tt, s) /\
  0%nat ∈ deleted s /\ queue s = [(100, Own 0 (TcpConnection.SendInLoop []))] /\
  sample_step (RunFunctor 100) s = Err Undefined.
Proof.
  eexists. split; [vm_compute; reflexivity|]. split; [|split; by vm_compute]. apply (bool_decide_unpack _). by vm_compute.
Qed.

(** [startRead] does not look at the state at all, and its functor holds a
    bare [this]: called through a pointer to a closed connection, which is
    dropped then, it runs on the deleted object. *)
Example startRead_uses_deleted : exists s,
  (sample_open ;;; for_each sample_step
    [Accept 10 zero_addr; RunFunctor 100; Keep 0; Events 100; RunFunctor 100; Events 100; RunFunctor 7;
     Remote 0 (Test TcpConnection.StartRead); Remote 0 (Queue 0); Drop 0; RunFunctor 100]) sample_make = Ok (tt, s) /\
  0%nat ∈ deleted s /\ queue s = [(100, Own 0 TcpConnection.StartReadInLoop)] /\
  sample_step (RunFunctor 100) s = Err Undefined.
Proof.
  eexists. split; [vm_compute; reflexivity|]. split; [|split; by vm_compute]. apply (bool_decide_unpack _). by vm_compute.
Qed.
End sample.
End Ownership.
