(* ===== verification/Descriptors.v ===== *)
(** * The server and its descriptors (Acceptor.c++, TcpServer.c++, Socket.c++)

    The acceptor put in front of the server of [Ownership]: the descriptors
    the kernel hands out are the ones the connections get, and the socket of
    a connection is closed when the connection is deleted.  [FdLaws] says
    what accept(2), open(2) and close(2) do to the descriptor table; nothing
    is assumed about which descriptors are free. *)
From S2P Require Import Prelude Channel EPollPoller PollPoller Pollers EventLoop.
From S2P Require Import Text Endian SocketsOps EventLoopThreadPool TcpConnection TcpServer System Ownership Acceptor.
#[local] Open Scope Z_scope.

(** ** What the steps leave of the list of connections *)

Module Frame.

Notation conns := TcpServer.conns.
Definition same_conns (s s' : TcpServer.t) : Prop := conns s' = conns s.
#[export] Instance same_conns_preorder : PreOrder same_conns.
Proof. split; [done|]. intros s s1 s2 E1 E2. unfold same_conns in *. congruence. Qed.

Section server.
Context (getLocalAddr : Z -> sockaddr_in).
Lemma same_set f : (forall s, conns (f s) = conns s) -> moves same_conns (modify f).
Proof. intros Hf. by apply moves_modify. Qed.
#[local] Hint Extern 1 (moves same_conns (modify _)) => (apply same_set; done) : moves.

Lemma same_removeInLoop l c : moves same_conns (TcpServer.removeConnectionInLoop l c).
Proof. unfold TcpServer.removeConnectionInLoop, TcpServer.assertInLoopThread. moves_tac. Qed.
#[local] Hint Resolve same_removeInLoop : moves.
Lemma same_run l : moves same_conns (TcpServer.step getLocalAddr (TcpServer.Run l)).
Proof. cbn [TcpServer.step]. unfold TcpServer.exec, TcpServer.listen. moves_tac. Qed.
Lemma same_close c : moves same_conns (TcpServer.step getLocalAddr (TcpServer.Close c)).
Proof. cbn [TcpServer.step]. unfold TcpServer.removeConnection, TcpServer.runInLoop. moves_tac. Qed.
Lemma same_zoom {A T} (g : TcpServer.t -> T) p (m : M T A) : (forall t s, conns (p t s) = conns s) ->
  moves same_conns (zoom g p m).
Proof.
  intros Hp. apply (moves_zoom _ (fun _ _ => True)); [by intros s; unfold wpe; destruct (m s) as [[]|]|]. by intros s t _; apply Hp.
Qed.
#[local] Hint Extern 1 (moves same_conns (zoom _ _ _)) => (apply same_zoom; done) : moves.
Lemma same_open startLoop n loop : moves same_conns (TcpServer.open startLoop n loop).
Proof.
  unfold TcpServer.open, TcpServer.setThreadNum, TcpServer.start, TcpServer.runInLoop, TcpServer.listen. moves_tac.
Qed.
End server.

Section system.
Context {P K : Type} `{Poller P} `{TcpConnection.Socket K}.
Notation C := (TcpConnection.t P K).
Notation S := (System.t P K).
Notation T := (Ownership.t P K).
Context (getLocalAddr : Z -> sockaddr_in) (tie : M C unit)
  (script : TcpConnection.callback -> C -> list TcpConnection.cmd).

Definition same_sys (s s' : S) : Prop := conns (System.server s') = conns (System.server s).
#[local] Instance same_sys_preorder : PreOrder same_sys.
Proof. split; [done|]. intros s s1 s2 E1 E2. unfold same_sys in *. congruence. Qed.

Lemma same_on_conn c m : moves same_sys (System.on_conn c m : M S unit).
Proof.
  intros s. eapply wpe_mono; [apply Queueing.on_conn_run|]. cbn beta. intros _ s' [E _]. unfold same_sys. by rewrite E.
Qed.
Lemma same_server_do m : moves same_conns m -> moves same_sys (System.server_do tie script m (ret tt) : M S unit).
Proof.
  intros Hm. unfold System.server_do. assert (moves same_sys (zoom System.server System.set_server m)) as Hz.
  { apply (moves_zoom _ same_conns); [done|]. intros s t E. exact E. }
  assert (forall x, moves same_sys (System.perform tie script x)) as Hp.
  { intros [c a]. unfold System.perform. cbn [fst snd]. destruct a; [apply same_on_conn|apply moves_ret; tc_solve|apply same_on_conn]. }
  moves_tac; auto.
Qed.
Lemma same_conn_step c o : moves same_sys (System.conn_step getLocalAddr tie script c o : M S unit).
Proof.
  unfold System.conn_step, System.server_step.
  pose proof (same_on_conn c (fun ch => TcpConnection.step ch tie script o)).
  pose proof (same_server_do _ (same_close getLocalAddr c)). moves_tac.
Qed.
Lemma same_server_run l : moves same_sys (System.server_step getLocalAddr tie script (TcpServer.Run l) (ret tt) : M S unit).
Proof. apply same_server_do, same_run. Qed.
Lemma same_handle l time ch : moves same_sys (System.handle getLocalAddr tie script l time ch : M S unit).
Proof. unfold System.handle. pose proof same_conn_step. moves_tac. Qed.
Lemma same_poll_world l : moves same_sys (System.poll_world l : M S _).
Proof.
  intros s. unfold System.poll_world. wp_steps. destruct (System.worlds s !! l) as [w|]; [|by apply wpe_throw].
  apply wpe_zoom. unfold wpe. by destruct (poll _ w) as [[]|].
Qed.

(** A step that accepts nothing leaves the connections, and deletes some. *)
Definition deletes (s s' : T) : Prop :=
  conns (System.server (Ownership.sys s')) = conns (System.server (Ownership.sys s)) /\
  Ownership.deleted s ⊆ Ownership.deleted s'.
#[local] Instance deletes_preorder : PreOrder deletes.
Proof. split; [by intros s; split|]. intros s s1 s2 [E1 D1] [E2 D2]. split; [congruence|set_solver]. Qed.

Lemma deletes_set f : (forall s, Ownership.sys (f s) = Ownership.sys s /\ Ownership.deleted s ⊆ Ownership.deleted (f s)) ->
  moves deletes (modify f).
Proof. intros Hf. apply moves_modify. intros s. destruct (Hf s) as [E ?]. split; [by rewrite E|done]. Qed.
#[local] Hint Extern 1 (moves deletes (modify _)) => (apply deletes_set; done) : moves.
Lemma deletes_in_sys {A} (m : M S A) : moves same_sys m -> moves deletes (Ownership.in_sys m).
Proof. intros Hm. apply (moves_zoom _ same_sys); [done|]. intros s t E. by split. Qed.
#[local] Hint Resolve deletes_in_sys same_conn_step same_server_run same_handle same_poll_world : moves.

Lemma deletes_use c : moves deletes (Ownership.use c : M T unit).
Proof. unfold Ownership.use. moves_tac. Qed.
#[local] Hint Resolve deletes_use : moves.
Lemma deletes_destroy c : moves deletes (Ownership.destroy c : M T unit).
Proof.
  unfold Ownership.destroy. assert (moves deletes (modify (fun s : T => Ownership.set_deleted ({[c]} ∪ Ownership.deleted s) s)) ) as Hm.
  { apply deletes_set. intros s. split; [done|]. cbn. set_solver. }
  moves_tac.
Qed.
#[local] Hint Resolve deletes_destroy : moves.
Lemma deletes_release : moves deletes (Ownership.release : M T unit).
Proof. unfold Ownership.release, Ownership.release_one. moves_tac. Qed.
#[local] Hint Resolve deletes_release : moves.
Lemma deletes_settle : moves deletes (Ownership.settle : M T unit).
Proof. unfold Ownership.settle, Ownership.sync. moves_tac. Qed.
#[local] Hint Resolve deletes_settle : moves.

Context (new_address : World P -> Z) (socket : Z -> K) (writeComplete highWater : bool).
Lemma deletes_step o : match o with Ownership.Accept _ _ => False | _ => True end ->
  moves deletes (Ownership.step getLocalAddr tie script new_address socket writeComplete highWater o : M T unit).
Proof.
  destruct o as [fd peer|l|l|c|c x|c p|c|c]; intros Ho; cbn [Ownership.step]; [done|..].
  - unfold Ownership.poll_events, Ownership.handle, Ownership.use_of. moves_tac.
  - unfold Ownership.run_functor, Ownership.exec, Ownership.use_of. moves_tac.
  - unfold Ownership.weak_forceClose. moves_tac.
  - unfold Ownership.call. moves_tac.
  - unfold Ownership.remote. moves_tac.
  - moves_tac.
  - moves_tac.
Qed.

(** A server that has been opened has no connections. *)
Lemma opens startLoop n loop ws ipPort name cb :
  wlp (Ownership.open startLoop n loop : M T unit) (fun _ s => conns (System.server (Ownership.sys s)) = [])
    (Ownership.make ws loop ipPort name cb).
Proof.
  assert (moves deletes (Ownership.open startLoop n loop : M T unit)) as Hm.
  { unfold Ownership.open. apply moves_bind; [tc_solve| |intros _; apply deletes_settle]. apply deletes_in_sys.
    apply (moves_zoom _ same_conns); [apply same_open|]. intros s t E. exact E. }
  eapply wpe_mono; [apply Hm|]. cbn beta. intros _ s [E _]. exact E.
Qed.
End system.
End Frame.

Module Descriptors.

Record t (P K F : Type) : Type := mk {
  own : Ownership.t P K;
  acceptor : Acceptor.t P F }.
Arguments mk {P K F}.
Arguments own {P K F}.
Arguments acceptor {P K F}.

Section operations.
Context {P K F : Type} `{Poller P} `{TcpConnection.Socket K} `{Sockets F}.
Notation C := (TcpConnection.t P K).
Notation T := (t P K F).
Context (startLoop : Z -> Z) (getLocalAddr : Z -> sockaddr_in)
  (tie : M C unit) (script : TcpConnection.callback -> C -> list TcpConnection.cmd)
  (new_address : World P -> Z) (socket : Z -> K) (writeComplete highWater : bool).

Definition set_own v (s : T) : T := mk v (acceptor s).
Definition set_acceptor v (s : T) : T := mk (own s) v.
Definition in_own {A} (m : M (Ownership.t P K) A) : M T A := zoom own set_own m.

(** [newConnectionCallback_]: [TcpServer::newConnection]. *)
Definition newConnection (connfd : Z) (peerAddr : sockaddr_in) : M T unit :=
  in_own (Ownership.step getLocalAddr tie script new_address socket writeComplete highWater
    (Ownership.Accept connfd peerAddr)).

(** [~Socket] of a deleted connection. *)
Definition close_socket (c : nat) : M T unit :=
  let* s := get in
  match TcpServer.conns (System.server (Ownership.sys (own s))) !! c with
  | Some conn =>
      Acceptor.in_acceptor acceptor set_acceptor (Acceptor.in_kernel (Socket_destructor (TcpServer.conn_fd conn)))
  | None => throw Undefined
  end.
(** The connections that [m] deletes are closed. *)
Definition closing (m : M T unit) : M T unit :=
  let* s := get in
  m ;;;
  let* s' := get in
  for_each close_socket (elements (Ownership.deleted (own s') ∖ Ownership.deleted (own s))).

Inductive op : Type :=
| Ready                        (* the listening socket is readable *)
| Op (o : Ownership.op).       (* anything else *)

Definition step (o : op) : M T unit :=
  closing match o with
          | Ready => Acceptor.handleRead acceptor set_acceptor newConnection true
          | Op o => in_own (Ownership.step getLocalAddr tie script new_address socket writeComplete highWater o)
          end.

Definition make (ws : gmap Z (World P)) (loop : Z) (ipPort name : string) (cb : bool) (a : Acceptor.t P F) : T :=
  mk (Ownership.make ws loop ipPort name cb) a.
Definition open (n loop : Z) : M T unit := in_own (Ownership.open startLoop n loop).
End operations.

Section invariant.
Context {P K F : Type} `{PollerSpec P} `{TcpConnection.SocketLaws K} `{FdLaws F}.
Notation C := (TcpConnection.t P K).
Notation Own := (Ownership.t P K).
Notation T := (t P K F).
Context (startLoop : Z -> Z) (getLocalAddr : Z -> sockaddr_in)
  (tie : M C unit) (script : TcpConnection.callback -> C -> list TcpConnection.cmd)
  (new_address : World P -> Z) (socket : Z -> K) (writeComplete highWater : bool).
Hypothesis tie_keeps : forall s, tie s = Ok (tt, s).
Hypothesis script_ok : forall cb s c, c ∈ script cb s -> TcpConnection.cmd_ok (TcpConnection.state_ s) c.
Hypothesis address_fresh : forall w, chans w !! new_address w = None.

(** [base]: the descriptors that are open for the whole run, those of the
    loops and of the listening socket. *)
Context (base : gset Z).
Notation others := (fun fd => fd ∈ base).
Notation conns o := (TcpServer.conns (System.server (Ownership.sys o))).
Notation table s := (fds (Acceptor.kernel (acceptor s))).
Notation idle s := (Acceptor.idleFd_ (acceptor s)).

(** The connections [X] have, each by itself, exactly the descriptors that
    are open besides [base] and the spare one. *)
Record holds (X : nat -> Prop) (s : T) : Prop := {
  h_table : forall fd, fd ∈ table s <-> fd = idle s \/ fd ∈ base \/
    exists c conn, conns (own s) !! c = Some conn /\ X c /\ TcpServer.conn_fd conn = fd;
  h_apart : forall c conn, conns (own s) !! c = Some conn -> X c ->
    TcpServer.conn_fd conn ∉ base /\ TcpServer.conn_fd conn <> idle s /\
    forall d dn, d <> c -> conns (own s) !! d = Some dn -> X d -> TcpServer.conn_fd dn <> TcpServer.conn_fd conn;
  h_idle : idle s ∉ base;
  h_socket : Acceptor.acceptSocket_ (acceptor s) ∈ base;
  h_callback : Acceptor.newConnectionCallback_ (acceptor s) = true }.

Definition live (o : Own) (c : nat) : Prop := c ∉ Ownership.deleted o.
Definition inv (s : T) : Prop := Ownership.settled others (own s) /\ holds (live (own s)) s.

(** One of them is closed. *)
Lemma holds_close (X X' : nat -> Prop) c conn k x s : holds X s -> conns (own s) !! c = Some conn -> X c ->
  (forall d, X' d <-> X d /\ d <> c) -> sys_close (Acceptor.kernel (acceptor s)) (TcpServer.conn_fd conn) = (k, x) ->
  holds X' (set_acceptor (Acceptor.set_kernel k (acceptor s)) s).
Proof.
  intros [T1 T2 T3 T4 T5] Hc Hx HX Hk.
  assert (fds k = table s ∖ {[TcpServer.conn_fd conn]}) as Ek.
  { assert (TcpServer.conn_fd conn ∈ table s) as Hin by (apply T1; right; right; by exists c, conn).
    pose proof (close_ok (Acceptor.kernel (acceptor s)) _ Hin) as Hcl. rewrite Hk in Hcl. apply Hcl. }
  destruct (T2 c conn Hc Hx) as (Hb & Hi & Hd).
  constructor; cbn; try done.
  - intros fd. rewrite Ek, elem_of_difference, elem_of_singleton, T1. split.
    + intros [[?|[?|(d & dn & Hdn & Hxd & E)]] Hne]; [by left|by right; left|right; right]. exists d, dn.
      split; [done|]. split; [|done]. apply HX. split; [done|]. intros ->. congruence.
    + intros [->|[?|(d & dn & Hdn & [Hxd Hne]%HX & E)]]; [split; [by left|congruence]|split; [by right; left|congruence]|].
      split; [right; right; by exists d, dn|]. rewrite <- E. by apply (Hd d dn).
  - intros d dn Hdn [Hxd Hne]%HX. destruct (T2 d dn Hdn Hxd) as (? & ? & He). split; [done|]. split; [done|].
    intros e en He1 He2 [Hxe _]%HX. by apply (He e en).
Qed.
Lemma holds_iff (X X' : nat -> Prop) s : holds X s -> (forall c, X c <-> X' c) -> holds X' s.
Proof.
  intros [T1 T2 T3 T4 T5] HX. constructor; try done.
  - intros fd. rewrite T1. by setoid_rewrite HX.
  - intros c conn Hc Hx%HX. destruct (T2 c conn Hc Hx) as (? & ? & Hd). split; [done|]. split; [done|].
    intros d dn Hne Hdn Hxd%HX. by apply (Hd d dn).
Qed.

Lemma wp_close_all l (X : nat -> Prop) s : holds X s -> NoDup l -> (forall c, c ∈ l -> X c /\ is_Some (conns (own s) !! c)) ->
  wp (for_each close_socket l) (fun _ s' => own s' = own s /\ holds (fun d => X d /\ d ∉ l) s') s.
Proof.
  intros Hh Hnd. revert X s Hh. induction Hnd as [|c l Hc _ IH]; intros X s Hh Hl; cbn [for_each].
  - wp_steps. split; [done|]. eapply holds_iff; [exact Hh|]. intros c. split; [|by intros []]. split; [done|]. apply not_elem_of_nil.
  - wp_steps. destruct (Hl c ltac:(by left)) as [Hx [conn Hcc]]. unfold close_socket. wp_steps. rewrite Hcc.
    unfold Acceptor.in_acceptor. apply wpe_zoom. unfold Socket_destructor, close, Acceptor.in_kernel. apply wpe_zoom. wp_steps.
    unfold wpe at 1, call. destruct (sys_close (Acceptor.kernel (acceptor s)) _) as [k x] eqn:Ek. wp_steps.
    assert (holds (fun d => X d /\ d <> c) (set_acceptor (Acceptor.set_kernel k (acceptor s)) s)) as Hh1
      by by eapply (holds_close X _ c conn k x).
    eapply wpe_mono; [apply (IH _ _ Hh1)|].
    + intros d Hd. cbn [own set_acceptor]. destruct (Hl d ltac:(by right)) as [? ?]. split; [|done]. split; [done|]. by intros ->.
    + cbn beta. intros _ s' [Eo Hh']. split; [by rewrite Eo|]. eapply holds_iff; [exact Hh'|]. intros d. rewrite not_elem_of_cons. tauto.
Qed.

(** A deleted connection was one of the server's. *)
Lemma deleted_known (o : Own) c : Ownership.inv others o -> c ∈ Ownership.deleted o -> is_Some (conns o !! c).
Proof.
  intros Hi Hd. destruct (Ownership.k_deleted _ _ (Ownership.o_kept _ _ Hi) c Hd) as [Hg _].
  pose proof (TcpServer.inv_phase _ _ (System.i_server _ _ _ (Ownership.o_sys _ _ Hi)) c I) as Hp. unfold TcpServer.phase_ok in Hp.
  destruct (conns o !! c) as [conn|]; [by exists conn|]. destruct Hp as [Hp _]. by rewrite Hg in Hp.
Qed.

Lemma wpe_closing E m s : wpe E m (fun _ s1 => Ownership.settled others (own s1) /\ holds (live (own s)) s1 /\
    Ownership.deleted (own s) ⊆ Ownership.deleted (own s1)) s -> wpe E (closing m) (fun _ => inv) s.
Proof.
  intros Hm. unfold closing. wp_steps. eapply wpe_mono; [exact Hm|]. cbn beta. intros _ s1 (Hset & Hh & Hsub). wp_steps.
  apply (wpe_weaken (fun _ => False)); [|intros ? []]. eapply wpe_mono; [apply (wp_close_all _ _ _ Hh)|].
  - apply NoDup_elements.
  - intros c [Hc Hn]%elem_of_elements%elem_of_difference. split; [done|]. by apply deleted_known; [apply Hset|].
  - cbn beta. intros _ s' [Eo Hh']. split; [by rewrite Eo|]. rewrite Eo. eapply holds_iff; [exact Hh'|]. intros c. unfold live.
    rewrite elem_of_elements, elem_of_difference. split; [|set_solver]. intros [Hn Hnn] Hd. by apply Hnn.
Qed.
Notation own_step := (Ownership.step getLocalAddr tie script new_address socket writeComplete highWater).
Notation ds_step := (step getLocalAddr tie script new_address socket writeComplete highWater).

(** ** Steps that accept nothing *)

Lemma holds_own (X : nat -> Prop) o s : holds X s -> conns o = conns (own s) -> holds X (set_own o s).
Proof. intros [T1 T2 T3 T4 T5] Ec. constructor; cbn; rewrite ?Ec; done. Qed.

Lemma wpe_op o s : inv s -> Ownership.allowed others o (own s) -> match o with Ownership.Accept _ _ => False | _ => True end ->
  wpe TcpConnection.external (ds_step (Op o)) (fun _ => inv) s.
Proof.
  intros [Hset Hh] Ha Ho. apply wpe_closing. unfold in_own. apply wpe_zoom.
  eapply wpe_mono; [apply wpe_conj_wlp; [by apply (Ownership.wpe_own_step startLoop getLocalAddr tie script new_address socket
    writeComplete highWater others)|by apply (Frame.deletes_step getLocalAddr tie script)]|].
  cbn beta. intros _ o' (Hset' & Ec & Hsub). split; [done|]. split; [|done]. by apply (holds_own _ o').
Qed.

(** ** The listening socket is readable *)

Lemma accept_conns fd peer o : Ownership.inv others o ->
  wlp (own_step (Ownership.Accept fd peer)) (fun _ o' => Ownership.deleted o ⊆ Ownership.deleted o' /\
    exists conn, conns o' = conns o ++ [conn] /\ TcpServer.conn_fd conn = fd) o.
Proof.
  intros Hi. cbn [Ownership.step]. wp_steps. unfold Ownership.in_sys. apply wpe_zoom.
  eapply wpe_mono.
  { apply (Queueing.server_step_moved getLocalAddr tie script tie_keeps (TcpServer.Accept fd peer)).
    - apply (System.i_server _ _ _ (Ownership.o_sys _ _ Hi)).
    - apply Queueing.create_grows. }
  cbn beta. intros _ y (_ & _ & (_ & conn & Ec & Ef & _) & _).
  eapply wpe_mono; [apply Frame.deletes_settle|]. cbn beta. intros _ o' [Ec' Hsub]. split; [exact Hsub|].
  exists conn. split; [|done]. by rewrite Ec'.
Qed.

(** A connection has been accepted, with a descriptor that was not open. *)
Lemma holds_accepted k fd conn o s : inv s -> fd ∉ table s -> fds k = {[fd]} ∪ table s ->
  conns o = conns (own s) ++ [conn] -> TcpServer.conn_fd conn = fd ->
  holds (live (own s)) (set_own o (set_acceptor (Acceptor.set_kernel k (acceptor s)) s)).
Proof.
  intros [Hset [T1 T2 T3 T4 T5]] Hfd Ek Ec Ef. set (c := length (conns (own s))).
  assert (live (own s) c) as Hlive.
  { intros Hd. destruct (deleted_known (own s) c (proj1 Hset) Hd) as [x Hx%lookup_lt_Some]. unfold c in Hx. lia. }
  constructor; cbn; try done.
  - intros fd'. rewrite Ek, elem_of_union, elem_of_singleton, T1, Ec. split.
    + intros [->|[?|[?|(d & dn & Hd & Hx & E)]]]; [right; right|by left|by right; left|right; right].
      * exists c, conn. split; [apply lookup_snoc_Some; by right|]. by split.
      * exists d, dn. split; [by apply lookup_app_l_Some|]. by split.
    + intros [?|[?|(d & dn & Hd & Hx & E)]]; [by right; left|by right; right; left|].
      apply lookup_snoc_Some in Hd as [[_ Hd]|[-> <-]]; [right; right; right; by exists d, dn|left; congruence].
  - assert (forall d dn, conns (own s) !! d = Some dn -> live (own s) d -> TcpServer.conn_fd dn <> fd) as Hnew.
    { intros d dn Hd Hx E. apply Hfd, T1. right. right. by exists d, dn. }
    rewrite Ec. intros d dn [[Hlt Hd]|[-> <-]]%lookup_snoc_Some Hx.
    + destruct (T2 d dn Hd Hx) as (? & ? & He). split; [done|]. split; [done|].
      intros e en Hne [[_ Hen]|[_ <-]]%lookup_snoc_Some Hxe; [by apply (He e en)|]. rewrite Ef. by apply not_eq_sym, (Hnew d).
    + rewrite Ef. split; [intros Hb; apply Hfd, T1; auto|]. split; [intros E; apply Hfd, T1; auto|].
      intros e en Hne [[_ Hen]|[-> _]]%lookup_snoc_Some Hxe; [by apply (Hnew e)|done].
Qed.

Lemma open_in_table fd s : inv s -> Ownership.open_fd others fd (own s) -> fd ∈ table s.
Proof. intros [_ Hh] [Hb|(c & conn & Hc & Hx & E)]; apply (h_table _ _ Hh); [by auto|right; right; by exists c, conn]. Qed.

Lemma owns_acceptor s : inv s -> Acceptor.owns (acceptor s).
Proof.
  intros [_ [T1 T2 T3 T4 T5]]. split; [apply T1; by left|]. split; [apply T1; auto|]. intros E. by rewrite E in T3.
Qed.

(** [accept] returns no descriptor beyond the range of [int]. *)
Definition small_fd (s : T) : Prop := forall k fd a,
  sys_accept4 (Acceptor.kernel (acceptor s)) (Acceptor.acceptSocket_ (acceptor s)) = (k, inr (fd, a)) -> fd < INT_MAX.

(** The descriptor table is as before, but for the spare one. *)
Lemma holds_spare (X : nat -> Prop) b s : holds X s -> Acceptor.acceptSocket_ b = Acceptor.acceptSocket_ (acceptor s) ->
  Acceptor.newConnectionCallback_ b = Acceptor.newConnectionCallback_ (acceptor s) ->
  fds (Acceptor.kernel b) = {[Acceptor.idleFd_ b]} ∪ table s ∖ {[idle s]} -> Acceptor.idleFd_ b ∉ table s ∖ {[idle s]} ->
  holds X (set_acceptor b s).
Proof.
  intros [T1 T2 T3 T4 T5] Es En Ef Hn.
  assert (forall fd, fd ∈ table s ∖ {[idle s]} <-> fd ∈ base \/
    exists c conn, conns (own s) !! c = Some conn /\ X c /\ TcpServer.conn_fd conn = fd) as Hrest.
  { intros fd. rewrite elem_of_difference, elem_of_singleton, T1. split; [by intros [[?|?] Hne]|].
    intros Hor. split; [by right|]. destruct Hor as [?|(c & conn & Hc & Hx & <-)]; [by intros ->|by apply (T2 c)]. }
  rewrite Hrest in Hn. constructor; cbn; rewrite ?Es, ?En; try done.
  - intros fd. by rewrite Ef, elem_of_union, elem_of_singleton, Hrest.
  - intros c conn Hc Hx. destruct (T2 c conn Hc Hx) as (? & _ & Hd). split; [done|]. split; [|done].
    intros E. apply Hn. right. by exists c, conn.
  - intros Hb. apply Hn. by left.
Qed.

Lemma wpe_ready s : inv s -> TcpServer.nextConnId_ (System.server (Ownership.sys (own s))) < 2 ^ 31 - 1 -> small_fd s ->
  wpe TcpConnection.external (ds_step Ready) (fun _ => inv) s.
Proof.
  intros Hi Hid Hsmall. pose proof Hi as [Hset Hh]. apply wpe_closing.
  pose proof (Acceptor.handleRead_outcome acceptor set_acceptor (fun _ _ => eq_refl) (fun _ _ _ => eq_refl)
    (newConnection getLocalAddr tie script new_address socket writeComplete highWater) s (owns_acceptor s Hi)) as Hout.
  unfold wpe at 1. unfold small_fd in Hsmall. rewrite (h_callback _ _ Hh) in Hout.
  destruct (sys_accept4 _ _) as [k [e|[fd a]]] eqn:E; [destruct (decide (e = EMFILE)) as [->|Hne]; [|destruct (expected_error e)]|].
  - destruct Hout as (b & -> & _ & (_ & _ & R3 & R4 & R5 & _ & _ & R8) & _). split; [done|]. split; [|done]. by apply holds_spare.
  - destruct Hout as [-> Ef]. split; [done|]. split; [|done]. destruct Hh as [T1 T2 T3 T4 T5]. constructor; cbn; rewrite ?Ef; done.
  - rewrite Hout. by left.
  - destruct (accept_ok _ _ _ _ _ E) as (Hpos & Hfd & Ef & _). rewrite Hout.
    change (wpe TcpConnection.external (newConnection getLocalAddr tie script new_address socket writeComplete highWater fd a)
      (fun _ s1 => Ownership.settled others (own s1) /\ holds (live (own s)) s1 /\
        Ownership.deleted (own s) ⊆ Ownership.deleted (own s1)) (set_acceptor (Acceptor.set_kernel k (acceptor s)) s)).
    unfold newConnection, in_own. apply wpe_zoom. eapply wpe_mono; [apply wpe_conj_wlp; [|apply accept_conns, Hset]|].
    + apply (Ownership.wpe_own_accept startLoop getLocalAddr tie script new_address socket writeComplete highWater others);
        [done..|split; [done|by eapply Hsmall]|]. intros Ho. by apply Hfd, open_in_table.
    + cbn beta. intros _ o (Hset' & Hsub & conn & Ec & Ecf). split; [done|]. split; [|done]. by apply (holds_accepted k fd conn).
Qed.
(** ** Runs *)

(** As in [Ownership.allowed], with nothing asked of the descriptors. *)
Definition allowed (o : op) (s : T) : Prop :=
  match o with
  | Ready => TcpServer.nextConnId_ (System.server (Ownership.sys (own s))) < 2 ^ 31 - 1 /\ small_fd s
  | Op (Ownership.Accept _ _) => False
  | Op o => Ownership.allowed others o (own s)
  end.
Fixpoint allowed_run (l : list op) (s : T) : Prop :=
  match l with
  | [] => True
  | o :: l => allowed o s /\ match ds_step o s with Ok (_, s') => allowed_run l s' | Err _ => True end
  end.

Lemma wpe_ds_run l s : inv s -> allowed_run l s -> wpe TcpConnection.external (for_each ds_step l) (fun _ => inv) s.
Proof.
  revert s. induction l as [|o l IH]; intros s Hi Ha; cbn [for_each]; [by wp_steps|].
  destruct Ha as [Ha Hl]. apply wpe_bind.
  assert (wpe TcpConnection.external (ds_step o) (fun _ => inv) s) as Hs.
  { destruct o as [|o]; [by destruct Ha; apply wpe_ready|]. by destruct o; try done; apply wpe_op. }
  unfold wpe in Hs |- *. destruct (ds_step o s) as [[[] s']|e]; [by apply IH|done].
Qed.

(** Every descriptor is accounted for. *)
Definition accounted (s : T) : Prop :=
  (forall fd, fd ∈ table s <-> fd = idle s \/ fd ∈ base \/
     exists c conn, conns (own s) !! c = Some conn /\ c ∉ Ownership.deleted (own s) /\ TcpServer.conn_fd conn = fd) /\
  Acceptor.owns (acceptor s) /\ idle s ∉ base /\ Ownership.accounted others (own s).

Lemma inv_accounted s : inv s -> accounted s.
Proof.
  intros Hi. pose proof Hi as [Hset [T1 T2 T3 T4 T5]]. split; [exact T1|]. split; [by apply owns_acceptor|]. split; [done|].
  by apply Ownership.settled_accounted.
Qed.

(** An acceptor that listens, before the first connection. *)
Definition listening (a : Acceptor.t P F) : Prop :=
  fds (Acceptor.kernel a) = {[Acceptor.idleFd_ a]} ∪ base /\ Acceptor.idleFd_ a ∉ base /\
  Acceptor.acceptSocket_ a ∈ base /\ Acceptor.newConnectionCallback_ a = true.

(** C3: The server from its listening socket on: whatever descriptors the
    kernel hands out, and whether connections are accepted, refused at the
    limit of the process, used, closed or deleted, in any order of these
    steps that is [allowed], no assertion fails; and the descriptors that are
    open are always exactly those of the loops and the listening socket, the
    acceptor's spare one, and one for each connection that has not been
    deleted, all different: none is leaked, none is closed that something
    else uses, and none that a connection has can be given to another.
    Nothing is asked of the descriptors but that they are below [INT_MAX];
    the rest of [allowed] is [Ownership.allowed]: the events, calls and
    pointers of [connections_outlive] (sane events of channels with an
    interest, calls on established connections through pointers that are
    held, no start or stop of reading on a closed connection, no close
    between another thread's test and setting of [state_], no last pointer
    dropped while a bare functor stands behind [connectDestroyed]). *)
Theorem descriptors_accounted ws n loop ipPort name cb a l : 0 <= n < 2 ^ 31 -> slen (c_str ipPort) <= 50 ->
  (forall l, l ∈ loop :: (startLoop <$> seqZ 0 n) -> exists w a, ws !! l = Some w /\ Registry.refines a w) ->
  (forall fd, System.initial ws fd -> fd ∈ base) -> listening a ->
  (forall s, open startLoop n loop (make ws loop ipPort name cb a) = Ok (tt, s) -> allowed_run l s) ->
  wpe TcpConnection.external (open startLoop n loop ;;; for_each ds_step l) (fun _ => accounted)
    (make ws loop ipPort name cb a).
Proof.
  intros Hn Hip Hws Hb (L1 & L2 & L3 & L4) Hl. apply wpe_bind.
  assert (wp (open startLoop n loop) (fun _ => inv) (make ws loop ipPort name cb a)) as Ho.
  { unfold open, in_own. apply wpe_zoom. cbn [own make].
    eapply wpe_mono; [apply wpe_conj_wlp; [by apply (Ownership.wp_own_open startLoop others)|apply Frame.opens]|].
    cbn beta. intros _ o [Hset Ec]. split; [exact Hset|]. constructor; cbn; rewrite ?Ec; try done.
    intros fd. rewrite L1, elem_of_union, elem_of_singleton. split; [tauto|]. intros [?|[?|(c & conn & Hc & _)]]; [auto..|done]. }
  unfold wpe in Ho |- * at 1. destruct (open startLoop n loop _) as [[[] s]|e]; [|done].
  eapply wpe_mono; [by apply wpe_ds_run; [|apply Hl]|]. cbn beta. intros _ s' Hi. by apply inv_accounted.
Qed.
End invariant.

(** ** A concrete run

    The run of [Ownership.sample_ops], with descriptors from the table:
    3 is the listening socket, 9 a loop's, 4 the spare one, and the process
    may have four.  The two connections get 10, one after the other; a third
    is refused. *)
Section sample.
Notation T := (t (EPollPoller.t Sample.ep) TcpConnection.sock Acceptor.sk).
Definition sample_base : gset Z := {[ 3; 9 ]}.
Definition sample_acceptor : Acceptor.t (EPollPoller.t Sample.ep) Acceptor.sk :=
  Acceptor.mk System.sample_world (Acceptor.mkSk {[ 3%nat; 9%nat; 4%nat ]} [zero_addr; zero_addr; zero_addr] 4) 3 300 true true 4.
Definition sample_make : T := make System.sample_worlds 7 "127.0.0.1:2007" "echo" false sample_acceptor.
Definition sample_open : M T unit := open System.sample_start 2 7.
Definition sample_step : op -> M T unit :=
  step System.sample_local TcpConnection.sample_tie TcpConnection.sample_script System.sample_address System.sample_socket true false.
Definition sample_op (o : Ownership.op) : op := match o with Ownership.Accept _ _ => Ready | _ => Op o end.
Definition sample_ops : list op := (sample_op <$> Ownership.sample_ops) ++ [Ready].
Definition sample_0 : T := match sample_open sample_make with Ok (_, s) => s | Err _ => sample_make end.
Definition sample_after (o : op) (s : T) : T := match sample_step o s with Ok (_, s') => s' | Err _ => s end.
Definition sample_state (n : nat) : T := foldl (fun s o => sample_after o s) sample_0 (take n sample_ops).

Lemma ds_next n o : sample_ops !! n = Some o -> sample_step o (sample_state n) = Ok (tt, sample_state (S n)).
Proof. do 18 (destruct n as [|n]; [intros [= <-]; by vm_compute|]). done. Qed.
Lemma ds_own n : (n <= 17)%nat -> own (sample_state n) = Ownership.sample_state n.
Proof. intros Hn. do 18 (destruct n as [|n]; [by vm_compute|]). lia. Qed.

Lemma small_fd_check (s : T) : match sys_accept4 (Acceptor.kernel (acceptor s)) (Acceptor.acceptSocket_ (acceptor s)) with
  | (_, inr (fd, _)) => fd <? INT_MAX | _ => true end = true -> small_fd s.
Proof. intros Hc k fd a E. rewrite E in Hc. by apply Z.ltb_lt. Qed.

Lemma allowed_others (O O' : Z -> Prop) o (s : Ownership.t (EPollPoller.t Sample.ep) TcpConnection.sock) :
  match o with Ownership.Accept _ _ => False | _ => True end -> Ownership.allowed O o s -> Ownership.allowed O' o s.
Proof. by destruct o. Qed.

Lemma ds_ready n : (match sys_accept4 (Acceptor.kernel (acceptor (sample_state n))) 3 with
  | (_, inr (fd, _)) => fd <? INT_MAX | _ => true end) &&
  (TcpServer.nextConnId_ (System.server (Ownership.sys (own (sample_state n)))) <? 2 ^ 31 - 1) &&
  (Acceptor.acceptSocket_ (acceptor (sample_state n)) =? 3) = true -> allowed sample_base Ready (sample_state n).
Proof.
  intros [[Hf Hid%Z.ltb_lt]%andb_prop Hs%Z.eqb_eq]%andb_prop. split; [done|]. apply small_fd_check. by rewrite Hs.
Qed.
Lemma ds_each n o : sample_ops !! n = Some o -> allowed sample_base o (sample_state n).
Proof.
  intros Ho. destruct (decide (n = 17)%nat) as [->|Hne]; [injection Ho as <-; apply ds_ready; by vm_compute|].
  assert (n < 17)%nat as Hn by (apply lookup_lt_Some in Ho; change (length sample_ops) with 18%nat in Ho; lia).
  unfold sample_ops in Ho. rewrite lookup_app_l in Ho by exact Hn. rewrite list_lookup_fmap in Ho.
  destruct (Ownership.sample_ops !! n) as [o'|] eqn:Eo; [|done]. injection Ho as <-.
  destruct (decide (n = 0 \/ n = 15)%nat) as [[-> | ->]|Hna].
  - injection Eo as <-. apply ds_ready. by vm_compute.
  - injection Eo as <-. apply ds_ready. by vm_compute.
  - assert (match o' with Ownership.Accept _ _ => False | _ => True end) as Hna'.
    { do 17 (destruct n as [|n]; [injection Eo as <-; try exact I; by destruct Hna; auto|]). lia. }
    pose proof (Ownership.sample_own_each n o' Eo) as Ha. rewrite <- (ds_own n) in Ha by lia.
    apply (allowed_others _ (fun fd => fd ∈ sample_base)) in Ha; [|done]. by destruct o'.
Qed.

Notation sample_ds_run := (allowed_run System.sample_local TcpConnection.sample_tie TcpConnection.sample_script
  System.sample_address System.sample_socket true false sample_base).
Lemma ds_opened : sample_open sample_make = Ok (tt, sample_state 0).
Proof. by vm_compute. Qed.
Lemma ds_allowed s : sample_open sample_make = Ok (tt, s) -> sample_ds_run sample_ops s.
Proof.
  assert (forall l n, drop n sample_ops = l -> sample_ds_run l (sample_state n)) as Hall.
  { induction l as [|o l IH]; intros n Hn; cbn [allowed_run]; [done|].
    assert (sample_ops !! n = Some o) as Ho by (by rewrite <- (Nat.add_0_r n), <- lookup_drop, Hn).
    split; [by apply ds_each|]. pose proof (ds_next n o Ho) as Hs. unfold sample_step in Hs. rewrite Hs.
    apply IH. rewrite <- Nat.add_1_r, <- drop_drop, Hn. done. }
  rewrite ds_opened. intros [= <-]. by apply (Hall sample_ops 0%nat).
Qed.
Lemma ds_final : (sample_open ;;; for_each sample_step sample_ops) sample_make = Ok (tt, sample_state 18).
Proof. by vm_compute. Qed.
Lemma ds_listening : listening sample_base sample_acceptor.
Proof.
  split; [|split; [|split; [|done]]]; [|apply (bool_decide_unpack _); by vm_compute..].
  apply (bool_decide_unpack _). by vm_compute.
Qed.
Lemma ds_initial fd : System.initial System.sample_worlds fd -> fd ∈ sample_base.
Proof. intros Hi. exfalso. apply Ownership.no_initial in Hi. done. Qed.
Lemma ds_outcome : fds (Acceptor.kernel (acceptor (sample_state 18))) = {[ 3; 9; 10; 11 ]} /\
  Acceptor.idleFd_ (acceptor (sample_state 18)) = 11 /\
  waiting (Acceptor.kernel (acceptor (sample_state 18))) = [] /\
  TcpServer.conn_fd <$> TcpServer.conns (System.server (Ownership.sys (own (sample_state 18)))) = [10; 10].
Proof. split; [apply (bool_decide_unpack _); by vm_compute|]. split; [by vm_compute|]. split; by vm_compute. Qed.

Lemma descriptors_accounted_witness :
  (sample_open ;;; for_each sample_step sample_ops) sample_make = Ok (tt, sample_state 18) /\
  accounted sample_base (sample_state 18) /\
  fds (Acceptor.kernel (acceptor (sample_state 18))) = {[ 3; 9; 10; 11 ]} /\
  Acceptor.idleFd_ (acceptor (sample_state 18)) = 11 /\
  waiting (Acceptor.kernel (acceptor (sample_state 18))) = [] /\
  TcpServer.conn_fd <$> TcpServer.conns (System.server (Ownership.sys (own (sample_state 18)))) = [10; 10].
Proof.
  split; [exact ds_final|]. split; [|exact ds_outcome].
  exact (wpe_elim _ _ _ _ _ _ (descriptors_accounted System.sample_start System.sample_local TcpConnection.sample_tie
    TcpConnection.sample_script System.sample_address System.sample_socket true false TcpConnection.sample_tie_keeps
    TcpConnection.sample_script_ok System.sample_address_fresh sample_base System.sample_worlds 2 7 "127.0.0.1:2007" "echo" false
    sample_acceptor sample_ops ltac:(lia) ltac:(vm_compute; congruence) System.sample_worlds_ok ds_initial ds_listening
    ds_allowed) ds_final).
Defined.
End sample.
End Descriptors.
