(* ===== verification/Teardown.v ===== *)
(** * The connection objects after their server (TcpServer.c++, TcpConnection.c++, EventLoop.c++)

    [~TcpServer] with connections as objects: the destructor gives up the
    pointers of the map, the functors it queues hold the last ones, and a
    connection is deleted when they have run and user code has let go.  A
    functor bound to a bare [this] that comes after [connectDestroyed] uses
    the deleted object: the theorem says when there is none, the examples at
    the end show the two ways there can be one. *)
From S2P Require Import Prelude Channel EPollPoller PollPoller Pollers EventLoop.
From S2P Require Import Text Endian SocketsOps EventLoopThreadPool TcpConnection TcpServer System Shutdown Ownership.
#[local] Open Scope Z_scope.

Module Teardown.
Import Ownership.

Section operations.
Context {P K : Type} `{Poller P} `{TcpConnection.Socket K}.
Notation C := (TcpConnection.t P K).
Notation T := (Ownership.t P K).
Context (getLocalAddr : Z -> sockaddr_in)
  (tie : M C unit) (script : TcpConnection.callback -> C -> list TcpConnection.cmd).

(** [~TcpServer]; the pointers it had are given up when it returns. *)
Definition end_server : M T unit := in_sys (Shutdown.destroy tie script) ;;; settle.

(** [Channel::handleEvent] of the channel of connection [c], [revents] as the
    poller has set them. *)
Definition handle_event (c : nat) (revents time : Z) : M T unit :=
  use c ;;; in_sys (System.conn_step getLocalAddr tie script c (TcpConnection.OpEvents revents time)) ;;; settle.

Inductive op : Type :=
| RunFunctor (loop : Z)                          (* a loop runs its oldest functor *)
| Event (c : nat) (revents time : Z)
| Timer (c : nat)                                (* a delayed forceClose *)
| Call (c : nat) (x : TcpConnection.cmd)         (* user code calls in the loop's thread *)
| Remote (c : nat) (p : part)                    (* user code in another thread, in a call *)
| Keep (c : nat)                                 (* user code copies a pointer *)
| Drop (c : nat).

Definition step (o : op) : M T unit :=
  match o with
  | RunFunctor loop => run_functor getLocalAddr tie script loop
  | Event c revents time => handle_event c revents time
  | Timer c => weak_forceClose getLocalAddr tie script c
  | Call c x => call getLocalAddr tie script c x
  | Remote c p => remote getLocalAddr tie script c p
  | Keep c => use c ;;; modify (fun s => set_users (<[c := S (user_count c s)]> (users s)) s)
  | Drop c => modify (fun s => set_users (<[c := Nat.pred (user_count c s)]> (users s)) s) ;;; release
  end.

(** The step of the system in it, on a connection that exists. *)
Definition sys_op (o : op) (s : T) : option Shutdown.op :=
  match o with
  | RunFunctor l =>
      match TcpServer.pop l (queue s) with
      | Some (Server _, _) => Some (Shutdown.RunFunctor l)
      | Some (Own c _, _) => if decide (c ∈ deleted s) then None else Some (Shutdown.Conn c TcpConnection.OpFunctor)
      | None => None
      end
  | Event c revents time => Some (Shutdown.Conn c (TcpConnection.OpEvents revents time))
  | Timer c => if decide (c ∈ deleted s) then None else Some (Shutdown.Conn c TcpConnection.OpTimer)
  | Call c x => Some (Shutdown.Conn c (TcpConnection.OpUser x))
  | Remote c p => Some (Shutdown.Conn c (part_op p))
  | Keep _ | Drop _ => None
  end.
End operations.

(** ** How many functors a loop has before the server's last one is done *)

Fixpoint until_done (l : Z) (q : list (Z * item)) : nat :=
  match q with
  | [] => 0
  | (l', x) :: q =>
      let n := until_done l q in
      if l' =? l then match x, n with Own _ _, O => O | _, _ => S n end else n
  end.

Lemma until_done_app l q new : omap item_server new = [] -> until_done l (q ++ new) = until_done l q.
Proof.
  intros Hn. induction q as [|[l' x] q IH]; cbn; [|by rewrite IH].
  induction new as [|[l' [f|c f]] new IH]; cbn in *; [done..|]. rewrite (IH Hn). by destruct (l' =? l).
Qed.

Lemma until_done_pop l l' q x q' : TcpServer.pop l' q = Some (x, q') ->
  (until_done l q' <= until_done l q - (if (l' =? l)%Z then 1 else 0))%nat.
Proof.
  revert x q'. induction q as [|[l1 y] q IH]; intros x q' Hp; cbn in *; [done|].
  destruct (Z.eqb_spec l1 l') as [->|Hne].
  - injection Hp as <- <-. destruct (l' =? l); [|lia]. destruct y, (until_done l q); lia.
  - destruct (TcpServer.pop l' q) as [[z r]|] eqn:E; [|done]. injection Hp as <- <-. specialize (IH z r eq_refl). cbn.
    destruct (Z.eqb_spec l1 l) as [->|]; [|done]. rewrite (proj2 (Z.eqb_neq l' l)) in IH |- * by congruence.
    destruct y, (until_done l r), (until_done l q); lia.
Qed.

Lemma until_done_none l q : TcpServer.pop l q = None -> until_done l q = 0%nat.
Proof.
  induction q as [|[l' x] q IH]; cbn; [done|]. destruct (l' =? l); [done|]. by destruct (TcpServer.pop l q) as [[]|]; [|intros; apply IH].
Qed.

Lemma until_done_zero q : (forall l, until_done l q = 0%nat) -> omap item_server q = [].
Proof.
  induction q as [|[l x] q IH]; [done|]. intros Hz. assert (forall l', until_done l' q = 0%nat) as Hq.
  { intros l'. specialize (Hz l'). cbn in Hz. destruct (l =? l'); [|done]. by destruct x, (until_done l' q). }
  specialize (Hz l). cbn in Hz. rewrite Z.eqb_refl in Hz. destruct x; [done|]. cbn. by apply IH.
Qed.

(** How many functors are in the queue of a loop. *)
Definition in_queue (l : Z) (q : list (Z * item)) : nat := length (filter (fun x => fst x = l) q).
Lemma until_done_le l q : (until_done l q <= in_queue l q)%nat.
Proof.
  unfold in_queue. induction q as [|[l' x] q IH]; [done|]. rewrite filter_cons. cbn. destruct (Z.eqb_spec l' l).
  - rewrite decide_True by done. cbn. destruct x, (until_done l q); lia.
  - by rewrite decide_False.
Qed.

(** ** What holds between the steps *)

Section invariant.
Context {P K : Type} `{PollerSpec P} `{TcpConnection.SocketLaws K}.
Notation C := (TcpConnection.t P K).
Notation Sys := (System.t P K).
Notation T := (Ownership.t P K).
Context (startLoop : Z -> Z) (getLocalAddr : Z -> sockaddr_in)
  (tie : M C unit) (script : TcpConnection.callback -> C -> list TcpConnection.cmd)
  (new_address : World P -> Z) (socket : Z -> K) (writeComplete highWater : bool) (others : Z -> Prop).
Hypothesis tie_keeps : forall s, tie s = Ok (tt, s).
Hypothesis script_ok : forall cb s c, c ∈ script cb s -> TcpConnection.cmd_ok (TcpConnection.state_ s) c.
Hypothesis address_fresh : forall w, chans w !! new_address w = None.
Implicit Types (s : T) (y : Sys) (tr : nat -> list TcpServer.act).
Notation conns y := (TcpServer.conns (System.server y)).
Notation pending y := (TcpServer.pending (System.server y)).
Notation dying := (Shutdown.dying others).

(** What depends on the queue alone. *)
Record queue_ok s : Prop := {
  q_loop : forall l c f, (l, Own c f) ∈ queue s -> exists conn, conns (sys s) !! c = Some conn /\ TcpServer.conn_loop conn = l;
  q_deleted : forall c, c ∈ deleted s -> use_count c s = 0%nat }.

(** [srv] and [own]: the functors of the server and of each connection that
    are in the queue. *)
Record inv_with tr (srv : list (Z * TcpServer.task)) (own : nat -> list TcpConnection.functor) s : Prop := {
  t_dying : dying tr (sys s);
  t_queue : queue_ok s;
  t_server : omap item_server (queue s) = srv;
  t_own : forall c, omap (item_own c) (queue s) = own c;
  t_deleted : forall c, c ∈ deleted s -> tr c = System.gone;
  t_exposed : forall c, exposed c (over c (sys s)) (queue s) -> user_count c s <> 0%nat }.

Definition inv tr s : Prop := inv_with tr (pending (sys s)) (fun c => Queueing.pend c (sys s)) s.

(** The system has taken a step to [y], which is not in the queue yet. *)
Record stepped tr s y : Prop := {
  st_dying : dying tr y;
  st_conns : conns y = conns (sys s);
  st_server : exists new, pending y = omap item_server (queue s) ++ new;
  st_own : forall c, exists new, Queueing.pend c y = omap (item_own c) (queue s) ++ new /\
    Forall (fun f => Queueing.bare f -> user_count c s <> 0%nat) new /\ (c ∈ deleted s -> new = []);
  st_deleted : forall c, c ∈ deleted s -> tr c = System.gone;
  st_exposed : forall c, exposed c (over c y) (queue s) -> user_count c s <> 0%nat }.

Lemma about_gone tr c l f y : dying tr y -> tr c = System.gone -> (l, f) ∈ pending y -> TcpServer.task_conn f <> Some c.
Proof.
  intros Hd Hg Hin Hf. destruct (Shutdown.d_known _ _ _ Hd l f Hin) as (d & Hfd & conn & Hc).
  assert (d = c) as -> by (destruct Hfd as [-> | ->]; cbn in Hf; congruence).
  pose proof (TcpServer.about_elem c l f _ Hin Hf) as Ha.
  rewrite (Shutdown.d_owed _ _ _ Hd c conn Hc), Hg in Ha. by apply not_elem_of_nil in Ha.
Qed.

Lemma dying_unlisted tr c s : dying tr (sys s) -> listed c s = false.
Proof.
  intros Hd. apply bool_decide_eq_false. rewrite (proj2 (Shutdown.d_dead _ _ _ Hd)), map_to_list_empty.
  apply not_elem_of_nil.
Qed.

(** While the server has not destroyed a connection a functor holds it. *)
Lemma unheld_gone tr c conn ch k w s : inv tr s -> System.conn_at c conn ch k w (sys s) -> use_count c s = 0%nat ->
  tr c = System.gone /\ TcpConnection.state_ k = TcpConnection.kDisconnected /\
  channels_ (poller w) !! TcpServer.conn_fd conn <> Some ch.
Proof.
  intros Hi Hat Hu. pose proof (t_dying _ _ _ _ Hi) as Hd. apply use_count_0 in Hu as (_ & Hq & _).
  destruct (System.i_conn _ _ _ _ (Shutdown.d_placed _ _ _ Hd) c conn ch k w I Hat) as [_ Hst].
  assert (forall l, (l, TcpServer.Destroyed c) ∉ Shutdown.owed conn c (tr c)) as Hno.
  { intros l Hin. rewrite <- (Shutdown.d_owed _ _ _ Hd c conn (System.at_conn _ _ _ _ _ _ Hat)) in Hin.
    apply list_elem_of_filter in Hin as [_ Hin]. rewrite <- (t_server _ _ _ _ Hi) in Hin. apply servers_elem, Hq in Hin.
    cbn in Hin. by apply bool_decide_eq_false in Hin. }
  destruct (tr c) as [|[] [|[] [|[] [|]]]]; try (by destruct Hst);
    destruct (Hno (TcpServer.conn_loop conn)); cbn; set_solver.
Qed.

(** ** What [sync] adds *)

Lemma added_elem tr s y x : stepped tr s y ->
  x ∈ concat (new_own (set_sys y s) <$> seq 0 (length (System.cells y))) ++ new_server (set_sys y s) ->
  (exists c conn f, x = (TcpServer.conn_loop conn, Own c f) /\ conns (sys s) !! c = Some conn /\ c ∉ deleted s /\
     (Queueing.bare f -> user_count c s <> 0%nat)) \/
  exists l f, x = (l, Server f) /\ (l, f) ∈ pending y.
Proof.
  intros Hs [Hx|Hx]%elem_of_app; [left|right; by apply added_server_elem in Hx].
  apply (added_own_elem (set_sys y s)) in Hx as (c & conn & f & -> & Hc & Hf). cbn [sys set_sys queue] in Hc, Hf.
  destruct (st_own _ _ _ Hs c) as (new & E & Ho & Hd). rewrite E, drop_app_length in Hf. exists c, conn, f.
  split; [done|]. split; [by rewrite <- (st_conns _ _ _ Hs)|]. split.
  - intros Hdel. rewrite (Hd Hdel) in Hf. by apply not_elem_of_nil in Hf.
  - by apply (proj1 (list.Forall_forall _ _) Ho).
Qed.

Lemma td_synced tr s y : queue_ok s -> stepped tr s y -> exists new,
  let s' := set_queue (queue s ++ new) (set_sys y s) in
  sync (set_sys y s) = Ok (tt, s') /\ inv tr s' /\
  (pending y = omap item_server (queue s) -> omap item_server new = []).
Proof.
  intros [Q1 Q3] Hs. pose proof (st_dying _ _ _ Hs) as Hd. eexists. split; [reflexivity|]. cbn [sys set_sys].
  set (new := _ ++ new_server (set_sys y s)). assert (omap item_server (queue s ++ new) = pending y) as Hsv
    by (apply (synced_server (set_sys y s)), (st_server _ _ _ Hs)).
  pose proof (added_elem tr s y) as Hnew. fold new in Hnew. split.
  2: { intros E. rewrite omap_app, E in Hsv. apply (app_inv_head (omap item_server (queue s))). by rewrite app_nil_r. }
  constructor; cbn [sys set_sys set_queue queue deleted]; try done.
  - constructor; cbn [sys set_sys set_queue queue deleted].
    + intros l c f [Hx|Hx]%elem_of_app; rewrite (st_conns _ _ _ Hs); [by apply Q1 in Hx|].
      apply Hnew in Hx as [(d & conn & g & [= -> -> ->] & Hc & _)|(? & ? & ? & _)]; [by exists conn|done|done].
    + intros c Hc. pose proof (Q3 c Hc) as Hu. apply use_count_0 in Hu as (_ & Hq & Hu). apply use_count_0.
      split; [by eapply dying_unlisted|]. split; [|done]. intros x [Hx|Hx]%elem_of_app; [by apply Hq|].
      apply Hnew in Hx as [(d & conn & g & -> & _ & Hnd & _)|(l & g & -> & Hg)]; [| |done].
      * cbn. rewrite bool_decide_eq_false_2; [done|]. congruence.
      * cbn. apply bool_decide_eq_false. eapply about_gone; [done| |done]. by apply (st_deleted _ _ _ Hs).
  - intros c. apply (synced_own (set_sys y s)).
    + apply (System.i_length _ _ _ _ (Shutdown.d_placed _ _ _ Hd)).
    + destruct (st_own _ _ _ Hs c) as (n & E & _). by exists n.
  - apply (st_deleted _ _ _ Hs).
  - intros c. rewrite exposed_app, orb_True. intros [Hx|Hx]; [by apply (st_exposed _ _ _ Hs)|].
    apply exposed_bare in Hx as (l & f & Hx & Hb).
    apply Hnew in Hx as [(d & conn & g & [= -> -> ->] & _ & _ & Hu)|(? & ? & ? & _)]; [|done|done]. by apply Hu.
Qed.

(** ** Letting go *)

Definition settled tr s : Prop := inv tr s /\ all_held s.

Lemma cell_conn tr c s : inv tr s -> (c < length (System.cells (sys s)))%nat ->
  exists conn ch k w, System.conn_at c conn ch k w (sys s).
Proof.
  intros Hi Hlt. pose proof (Shutdown.d_placed _ _ _ (t_dying _ _ _ _ Hi)) as Hp. rewrite (System.i_length _ _ _ _ Hp) in Hlt.
  destruct (lookup_lt_is_Some_2 _ _ Hlt) as [conn Hc].
  destruct (System.conn_at_exists _ _ _ _ c conn Hp Hc) as (ch & k & w & Hat). by exists conn, ch, k, w.
Qed.

Lemma td_wp_destroy tr c s : inv tr s -> (c < length (System.cells (sys s)))%nat -> use_count c s = 0%nat ->
  wp (destroy c) (fun _ s' => s' = set_deleted ({[c]} ∪ deleted s) s /\ inv tr s') s.
Proof.
  intros Hi Hlt Hu. destruct (cell_conn tr c s Hi Hlt) as (conn & ch & k & w & Hat).
  destruct (unheld_gone tr c conn ch k w s Hi Hat Hu) as (Hg & Hst & _).
  unfold destroy. wp_steps. rewrite (System.at_cell _ _ _ _ _ _ Hat). wp_steps. apply (wp_lift _ (tt, k)).
  { unfold TcpConnection.destructor, bind, get, assert_. by rewrite Hst. }
  wp_steps. split; [done|]. destruct Hi as [I1 [Q1 Q3] I3 I4 I5 I6]. constructor; try done.
  - constructor; try done. cbn [sys set_deleted deleted]. intros d [->%elem_of_singleton|Hd]%elem_of_union; [done|by apply Q3].
  - cbn [sys set_deleted deleted]. intros d [->%elem_of_singleton|Hd]%elem_of_union; [done|by apply I5].
Qed.

Lemma wp_let_go tr s : inv tr s ->
  wp release (fun _ s' => settled tr s' /\ sys s' = sys s /\ queue s' = queue s /\ users s' = users s) s.
Proof.
  intros Hi. eapply wpe_mono; [apply (wp_release_by (inv tr)); [|done]|].
  - intros c s1 Hi1 Hlt Hu. eapply wpe_mono; [by apply td_wp_destroy|]. cbn beta. by intros _ s2 [-> ?].
  - cbn beta. intros _ s' (? & ? & ? & ? & ?). split; [by split|done].
Qed.

Lemma wp_settled tr s y : queue_ok s -> stepped tr s y -> wp settle (fun _ s' => settled tr s' /\ sys s' = y /\
  (pending y = omap item_server (queue s) -> exists new, queue s' = queue s ++ new /\ omap item_server new = [])) (set_sys y s).
Proof.
  intros Hq Hs. destruct (td_synced tr s y Hq Hs) as (new & Hsync & Hi & Hn). unfold settle. apply wpe_bind. unfold wpe at 1.
  rewrite Hsync. eapply wpe_mono; [by apply wp_let_go|]. cbn beta. intros _ s' (Hs' & Es & Eq & _). split; [done|].
  split; [done|]. intros Hp. exists new. split; [done|by apply Hn].
Qed.

(** ** Who is alive *)

Lemma td_held_alive tr s c x : inv tr s -> x ∈ queue s -> holds c x = true -> c ∉ deleted s.
Proof.
  intros Hi Hx Hh Hd. pose proof (q_deleted _ (t_queue _ _ _ _ Hi) c Hd) as Hu. apply use_count_0 in Hu as (_ & Hq & _).
  by rewrite (Hq x Hx) in Hh.
Qed.
Lemma td_user_alive tr s c : inv tr s -> user_count c s <> 0%nat -> c ∉ deleted s.
Proof. intros Hi Hu Hd. pose proof (q_deleted _ (t_queue _ _ _ _ Hi) c Hd) as Hu'. by apply use_count_0 in Hu' as (_ & _ & ?). Qed.
Lemma td_open_alive tr s c conn ch k w : inv tr s -> System.conn_at c conn ch k w (sys s) ->
  TcpConnection.is_open (TcpConnection.state_ k) -> c ∉ deleted s.
Proof.
  intros Hi Hat Ho Hd. pose proof (t_deleted _ _ _ _ Hi c Hd) as Hg.
  destruct (System.i_conn _ _ _ _ (Shutdown.d_placed _ _ _ (t_dying _ _ _ _ Hi)) c conn ch k w I Hat) as [_ Hst].
  rewrite Hg in Hst. destruct Hst as [Hst _]. cbn in Hst. rewrite Hst in Ho. by destruct Ho.
Qed.
(** A deleted connection has no functor in the queue. *)
Lemma gone_is_over tr c y : dying tr y -> tr c = System.gone -> over c y = true.
Proof.
  intros Hd Hg. destruct (Shutdown.d_trace _ _ _ Hd c) as [E|[_ E]]; [by apply gone_over; rewrite E|].
  apply bool_decide_eq_true_2. rewrite E. set_solver.
Qed.
Lemma own_alive tr s l c f : inv tr s -> (l, Own c f) ∈ queue s -> c ∉ deleted s.
Proof.
  intros Hi Hin Hd. destruct (Queueing.owning f) eqn:Ho.
  - eapply (td_held_alive tr s c); [done|exact Hin| |done]. cbn. by rewrite bool_decide_eq_true_2.
  - pose proof (q_deleted _ (t_queue _ _ _ _ Hi) c Hd) as (_ & _ & Hu)%use_count_0. apply (t_exposed _ _ _ _ Hi c); [|exact Hu].
    rewrite (gone_is_over tr c (sys s) (t_dying _ _ _ _ Hi) (t_deleted _ _ _ _ Hi c Hd)). eapply bare_exposed; [exact Hin|].
    unfold Queueing.bare. by rewrite Ho.
Qed.

Lemma queue_ok_pop s l x q : queue_ok s -> TcpServer.pop l (queue s) = Some (x, q) -> queue_ok (set_queue q s).
Proof.
  intros [Q1 Q3] Hp. destruct (pop_sublist _ _ _ _ Hp) as [Hs _].
  assert (forall z, z ∈ q -> z ∈ queue s) as Hin by (intros z Hz; by eapply elem_of_sublist).
  constructor; cbn [queue set_queue sys deleted].
  - intros l' c f Hx. by apply (Q1 l' c f), Hin.
  - intros c Hc. pose proof (Q3 c Hc) as Hu. apply use_count_0 in Hu as (U1 & U2 & U3). apply use_count_0.
    split; [exact U1|]. split; [|exact U3]. intros z Hz. by apply U2, Hin.
Qed.

(** ** The destructor *)

(** No functor in the queue of the server's loop is bound to a bare [this]
    of a connection that nobody else holds. *)
Definition quiet s : Prop := forall c f, (TcpServer.loop_ (System.server (sys s)), Own c f) ∈ queue s -> Queueing.bare f ->
  user_count c s <> 0%nat.

Lemma destroy_stepped s y new : Ownership.settled others s -> quiet s ->
  dying (Shutdown.swept new (System.traces (sys s))) y ->
  Shutdown.ended (System.server (sys s)) new (System.server y) ->
  Queueing.grows (fun c => c ∈ fst <$> new) (sys s) y ->
  stepped (Shutdown.swept new (System.traces (sys s))) s y.
Proof.
  intros [Hi _] Hqu Hd He Hg. pose proof (o_kept _ _ Hi) as Hk. destruct (Shutdown.e_new _ _ _ He) as [_ Hnew].
  assert (forall c, c ∈ fst <$> new -> exists conn, conns (sys s) !! c = Some conn /\
    TcpServer.trace c (System.server (sys s)) = [TcpServer.ActEstablished] /\
    TcpServer.conn_loop conn = TcpServer.loop_ (System.server (sys s))) as Hin.
  { intros c ([d a] & -> & Hin)%list_elem_of_fmap. destruct (Hnew d a Hin) as (_ & Ht & conn & Hc & El). by exists conn. }
  assert (forall c, System.traces (sys s) c = System.gone ->
    Shutdown.swept new (System.traces (sys s)) c = System.gone) as Hst by (intros c Hc; unfold Shutdown.swept; by case_decide).
  constructor; [done|apply (Shutdown.e_conns _ _ _ He)| | | |].
  - rewrite (o_server _ _ Hi). apply (Shutdown.e_pending _ _ _ He).
  - intros c. destruct (Hg c) as (n & En & Ho & Hx). exists n. rewrite (o_own _ _ Hi). split; [done|].
    split; [eapply Forall_impl; [|exact Ho]; intros f Hf Hb; by rewrite Queueing.owning_bare in Hb|].
    intros Hdel. destruct Hx as [Hx|?]; [|done]. destruct (Hin c Hx) as (conn & _ & Ht & _).
    destruct (k_deleted _ _ Hk c Hdel) as [Hgone _]. by rewrite Hgone in Ht.
  - intros c Hc. apply Hst, (k_deleted _ _ Hk c Hc).
  - intros c Hx. destruct (over c (sys s)) eqn:Eo.
    { apply (o_exposed _ _ Hi c). rewrite Eo. by eapply exposed_over; [|exact Hx]. }
    apply exposed_bare in Hx as Hb. destruct Hb as (l & f & Hf & Hb).
    destruct (over c y) eqn:Ey; [|apply (o_exposed _ _ Hi c); by rewrite Eo].
    destruct (over_grows c (sys s) y new) as [Ho|Hn]; [apply (Shutdown.e_log _ _ _ He)|by rewrite Ey|by rewrite Eo in Ho|].
    destruct (Hin c) as (conn & Hcc & _ & El); [by apply (list_elem_of_fmap_2 fst _ (c, TcpServer.ActDestroyed))|].
    destruct (k_loop _ _ Hk l c f Hf) as (cn & Hcn & <-). rewrite Hcc in Hcn. injection Hcn as <-.
    apply (Hqu c f); [by rewrite <- El|done].
Qed.

Lemma wpe_end_server s : Ownership.settled others s -> Shutdown.no_removal (System.server (sys s)) ->
  Shutdown.steady (sys s) -> quiet s ->
  wpe TcpConnection.external (end_server tie script) (fun _ s' => exists tr, settled tr s' /\ conns (sys s') = conns (sys s)) s.
Proof.
  intros Hset Hno Hst Hqu. pose proof Hset as [Hi _]. unfold end_server, in_sys. wp_steps. apply wpe_zoom. eapply wpe_mono.
  { apply wpe_conj_wlp; [by apply (Shutdown.wpe_destroy startLoop getLocalAddr tie script new_address socket tie_keeps script_ok
      address_fresh others), Hst; [apply Hi|]|].
    apply (Queueing.server_do_moved tie script tie_keeps). }
  cbn beta. intros _ y [(new & Hd & He) [_ Hg]].
  rewrite (System.drop_app_log _ _ _ (Shutdown.e_log _ _ _ He)) in Hg. apply (wpe_weaken (fun _ => False)); [|intros ? []].
  eapply wpe_mono; [eapply (wp_settled _ s y); [|by apply destroy_stepped]|].
  - destruct (o_kept _ _ Hi) as [K1 K3 _]. constructor; [done..|]. intros c Hc. by apply K3.
  - cbn beta. intros _ s' (? & -> & _). eexists. split; [done|]. apply (Shutdown.e_conns _ _ _ He).
Qed.

(** ** A connection takes a step *)

(** The parts of [Shutdown.allowed] and [Shutdown.steady] for one step. *)
Definition may (x : Shutdown.op) s : Prop :=
  Shutdown.allowed tie script x (sys s) /\
  match Shutdown.step getLocalAddr tie script x (sys s) with Ok (_, y) => Shutdown.steady y | Err _ => True end.

Definition no_server_functor s s' : Prop := exists new, queue s' = queue s ++ new /\ omap item_server new = [].

Lemma wpe_conn_settled tr c o k ch s : inv_with tr (pending (sys s))
    (fun d => if decide (d = c) then Queueing.rest o (TcpConnection.pending k) else Queueing.pend d (sys s)) s ->
  System.cells (sys s) !! c = Some (ch, k) -> c ∉ deleted s -> (Queueing.local o = false -> user_count c s <> 0%nat) ->
  may (Shutdown.Conn c o) s ->
  wpe TcpConnection.external (in_sys (System.conn_step getLocalAddr tie script c o)) (fun _ => wpe TcpConnection.external settle
    (fun _ s' => settled tr s' /\ conns (sys s') = conns (sys s) /\ no_server_functor s s')) s.
Proof.
  intros Hi Hk Hal Hl [Ha Hst]. pose proof Ha as (_ & _ & _ & Hq). cbn [Shutdown.step] in Hst.
  pose proof (Shutdown.wpe_goes_on getLocalAddr tie script tie_keeps script_ok others tr c o (sys s) (t_dying _ _ _ _ Hi) Ha) as Hgo.
  pose proof (Queueing.conn_step_open getLocalAddr tie script tie_keeps c o ch k (sys s) Hk Hq) as Hmv.
  cbn [Shutdown.step] in Hgo. unfold in_sys. apply wpe_zoom. unfold wpe at 1. unfold wpe in Hgo, Hmv.
  destruct (System.conn_step _ _ _ c o (sys s)) as [[[] y]|e]; [|done]. destruct Hgo as [Hd Es], Hmv as [(new & En & Ho) Hoth].
  apply (wpe_weaken (fun _ => False)); [|intros ? []]. eapply wpe_mono; [apply (wp_settled tr s y); [apply Hi|]|].
  - constructor; [by apply Hd|by rewrite Es| | |apply Hi|].
    + exists []. by rewrite Es, (t_server _ _ _ _ Hi), app_nil_r.
    + intros d. rewrite (t_own _ _ _ _ Hi). case_decide as Ed.
      * subst d. exists new. split; [done|]. split; [|done]. eapply Forall_impl; [|exact Ho]. cbn. auto.
      * exists []. rewrite app_nil_r. by split; [apply Hoth|].
    + intros d Hx. apply (t_exposed _ _ _ _ Hi d). unfold over in Hx. by rewrite Es in Hx.
  - cbn beta. intros _ s' (? & -> & Hn). split; [done|]. split; [by rewrite Es|]. apply Hn. by rewrite Es, (t_server _ _ _ _ Hi).
Qed.

(** A member of a connection is called. *)
Lemma wpe_member tr c o s : settled tr s -> c ∉ deleted s -> (Queueing.local o = false -> user_count c s <> 0%nat) ->
  Queueing.rest o = (fun p => p) ->
  may (Shutdown.Conn c o) s ->
  wpe TcpConnection.external (use c ;;; in_sys (System.conn_step getLocalAddr tie script c o) ;;; settle) (fun _ s' =>
    (exists tr', settled tr' s') /\ conns (sys s') = conns (sys s) /\ no_server_functor s s') s.
Proof.
  intros [Hi _] Hal Hl Hr Hm. pose proof Hm as [(_ & _ & (conn & ch & k & w & Hat & _) & _) _].
  apply wpe_bind, wpe_use, wpe_bind; [done|]. eapply wpe_mono; [apply (wpe_conn_settled tr c o k ch s); [|apply Hat|done..]|].
  - destruct Hi as [I1 I2 I3 I4 I5 I6]. constructor; try done. intros d. rewrite I4, Hr. case_decide; [subst d|done].
    unfold Queueing.pend. by rewrite (System.at_cell _ _ _ _ _ _ Hat).
  - cbn beta. intros _ s1 Hs1. eapply wpe_mono; [exact Hs1|]. cbn beta. intros _ s' (? & ? & ?). split; [by exists tr|done].
Qed.

(** ** A loop runs a functor *)

Lemma pop_own_inv tr l c f q s : inv tr s -> TcpServer.pop l (queue s) = Some (Own c f, q) ->
  exists ch k, System.cells (sys s) !! c = Some (ch, k) /\ TcpConnection.pending k = f :: omap (item_own c) q /\
  inv_with tr (pending (sys s)) (fun d => if decide (d = c) then Queueing.rest TcpConnection.OpFunctor (TcpConnection.pending k)
    else Queueing.pend d (sys s)) (set_queue q s).
Proof.
  intros Hi Hp. pose proof Hi as [I1 I2 I3 I4 I5 I6]. destruct (pop_sublist _ _ _ _ Hp) as [Hsub Hin].
  destruct (q_loop _ I2 l c f Hin) as (conn & Hc & El).
  destruct (pop_own l (queue s) c f q Hp) as (Hps & Hpo & Hpc).
  { intros l' g Hg. destruct (q_loop _ I2 l' c g Hg) as (cn & Hcn & <-). congruence. }
  destruct (System.conn_at_exists _ _ _ _ c conn (Shutdown.d_placed _ _ _ I1) Hc) as (ch & k & w & Hat).
  pose proof (System.at_cell _ _ _ _ _ _ Hat) as Hk. exists ch, k. split; [done|].
  assert (TcpConnection.pending k = f :: omap (item_own c) q) as Hpk.
  { rewrite <- Hpc, I4. unfold Queueing.pend. by rewrite Hk. }
  split; [done|]. constructor; cbn [sys set_queue queue deleted]; try done.
  - by eapply queue_ok_pop.
  - by rewrite Hps.
  - intros d. case_decide as Ed; [subst d; by rewrite Hpk|]. by rewrite Hpo.
  - intros d Hx. apply (I6 d). by eapply exposed_sublist.
Qed.

Lemma td_wpe_run_own tr l c f q s : settled tr s -> TcpServer.pop l (queue s) = Some (Own c f, q) ->
  (c ∉ deleted s -> may (Shutdown.Conn c TcpConnection.OpFunctor) s) ->
  wpe TcpConnection.external (exec getLocalAddr tie script l (Own c f) ;;; settle) (fun _ s' =>
    (exists tr', settled tr' s') /\ conns (sys s') = conns (sys s) /\ no_server_functor (set_queue q s) s') (set_queue q s).
Proof.
  intros [Hi _] Hp Hm. destruct (pop_own_inv tr l c f q s Hi Hp) as (ch & k & Hk & Hpk & Hi').
  destruct (pop_sublist _ _ _ _ Hp) as [_ Hin]. pose proof (own_alive tr s l c f Hi Hin) as Hal. specialize (Hm Hal).
  cbn [exec]. wp_steps. apply wpe_use; [done|].
  eapply wpe_mono; [apply (wpe_conn_settled tr c TcpConnection.OpFunctor k ch (set_queue q s)); done|].
  cbn beta. intros _ s1 Hs1. eapply wpe_mono; [exact Hs1|]. cbn beta. intros _ s' (? & ? & ?). split; [by exists tr|done].
Qed.

Lemma td_destroyed_loop tr l c q s l' g : inv tr s -> TcpServer.pop l (queue s) = Some (Server (TcpServer.Destroyed c), q) ->
  (l', Own c g) ∈ queue s -> l' = l.
Proof.
  intros Hi Hp Hg. destruct (pop_sublist _ _ _ _ Hp) as [_ Hin].
  destruct (q_loop _ (t_queue _ _ _ _ Hi) l' c g Hg) as (conn & Hc & <-).
  apply servers_elem in Hin. rewrite (t_server _ _ _ _ Hi) in Hin. apply (TcpServer.about_elem c) in Hin; [|done].
  rewrite (Shutdown.d_owed _ _ _ (t_dying _ _ _ _ Hi) c conn Hc) in Hin.
  destruct (tr c) as [|[] [|[] [|? ?]]]; cbn in Hin; set_solver.
Qed.

Lemma run_stepped tr tr' l f q s y : inv tr s -> TcpServer.pop l (queue s) = Some (Server f, q) -> dying tr' y ->
  Shutdown.ran l (pending (sys s)) tr tr' -> conns y = conns (sys s) ->
  pending y = Shutdown.left_over l (pending (sys s)) ->
  (forall c, over c y -> over c (sys s) \/ f = TcpServer.Destroyed c) ->
  Queueing.grows (fun c => TcpServer.task_conn f = Some c) (sys s) y -> stepped tr' (set_queue q s) y.
Proof.
  intros Hi Hp Hd Hran Hc Hpd Hov Hg. pose proof Hi as [I1 I2 I3 I4 I5 I6]. destruct (pop_server _ _ _ _ Hp) as [Hps Hpo]. rewrite I3 in Hps.
  destruct (pop_sublist _ _ _ _ Hp) as [Hsub Hin]. constructor; cbn [sys set_queue queue deleted]; try done.
  - exists []. rewrite app_nil_r, Hpd. unfold Shutdown.left_over. by rewrite Hps.
  - intros c. destruct (Hg c) as (new & En & Ho & Hx). exists new. rewrite Hpo, I4. split; [done|].
    split; [eapply Forall_impl; [|exact Ho]; intros g Hg' Hb; by rewrite Queueing.owning_bare in Hb|].
    intros Hdel. destruct Hx as [Hx|?]; [|done]. destruct (td_held_alive tr s c (l, Server f) Hi Hin); [|done].
    cbn. by apply bool_decide_eq_true.
  - intros c Hdel. apply Hran. left. by apply I5.
  - intros c Hx. apply (I6 c). eapply exposed_run; [exact Hp| |by apply Hov|exact Hx].
    intros -> l' g. by eapply td_destroyed_loop.
Qed.

Lemma acted_by f c (new : list (nat * TcpServer.act)) : new = match f with
    | TcpServer.Established c => [(c, TcpServer.ActEstablished)]
    | TcpServer.Destroyed c => [(c, TcpServer.ActDestroyed)]
    | _ => []
    end -> c ∈ fst <$> new -> TcpServer.task_conn f = Some c.
Proof. intros ->. destruct f; cbn; set_solver. Qed.

Lemma td_wpe_run_server tr l f q s : settled tr s -> TcpServer.pop l (queue s) = Some (Server f, q) ->
  may (Shutdown.RunFunctor l) s ->
  wpe TcpConnection.external (exec getLocalAddr tie script l (Server f) ;;; settle) (fun _ s' =>
    (exists tr', settled tr' s') /\ conns (sys s') = conns (sys s) /\ no_server_functor (set_queue q s) s') (set_queue q s).
Proof.
  intros [Hi _] Hp [_ Hst]. destruct (pop_sublist _ _ _ _ Hp) as [_ Hin]. cbn [exec]. apply wpe_bind, wpe_bind, wpe_use_of.
  { intros c Hf. apply (td_held_alive tr s c (l, Server f)); [done..|]. cbn. by apply bool_decide_eq_true. }
  pose proof (Shutdown.wpe_sd_functor startLoop getLocalAddr tie script new_address socket tie_keeps script_ok address_fresh others
    tr l (sys s) (t_dying _ _ _ _ Hi)) as Hrun.
  pose proof (Queueing.server_do_moved tie script tie_keeps (TcpServer.step getLocalAddr (TcpServer.Run l)) (sys s)) as Hmv.
  destruct (pop_server _ _ _ _ Hp) as [Hps _]. rewrite (t_server _ _ _ _ Hi) in Hps.
  pose proof (run_log getLocalAddr l f _ (System.server (sys s)) Hps) as Hlog.
  cbn [Shutdown.step] in Hrun, Hst. unfold System.server_step in Hrun, Hst |- *. unfold in_sys. apply wpe_zoom. cbn [sys set_queue].
  unfold wpe at 1. unfold wpe in Hrun, Hmv.
  destruct (System.server_do _ _ _ _ (sys s)) as [[[] y]|e]; [|done].
  destruct Hrun as (Hd & Hc & Hpd), Hmv as [Hsv Hg]. destruct (Hd Hst) as (tr' & Hd' & Hran).
  pose proof (wpe_elim _ _ _ _ _ _ Hlog Hsv) as Hl. cbn beta in Hl. rewrite (System.drop_app_log _ _ _ Hl) in Hg.
  apply (wpe_weaken (fun _ => False)); [|intros ? []]. eapply wpe_mono; [apply (wp_settled tr' (set_queue q s) y)|].
  - by eapply queue_ok_pop; [apply Hi|].
  - eapply run_stepped; [done..| |].
    { intros c Ho. destruct (over_grows c _ _ _ Hl Ho) as [?|Hx]; [by left|right].
      destruct f as [d|d|d|]; cbn in Hx; try (by apply not_elem_of_nil in Hx); apply list_elem_of_singleton in Hx; congruence. }
    eapply Queueing.grows_weaken; [|exact Hg]. intros c. by apply acted_by.
  - cbn beta. intros _ s' (? & -> & Hn). split; [by exists tr'|]. split; [done|]. apply Hn.
    rewrite Hpd. unfold Shutdown.left_over. rewrite Hps. done.
Qed.

(** ** Pointers of the users *)

Lemma td_inv_set_users tr u s : inv tr s -> (forall c, c ∈ deleted s -> default 0%nat (u !! c) = 0%nat) ->
  (forall c, exposed c (over c (sys s)) (queue s) -> default 0%nat (u !! c) <> 0%nat) -> inv tr (set_users u s).
Proof.
  intros [I1 [Q1 Q3] I3 I4 I5 I6] Hu Hx. constructor; try done. constructor; try done.
  intros c Hc. pose proof (Q3 c Hc) as Hc'. apply use_count_0 in Hc' as (U1 & U2 & _).
  apply use_count_0. split; [exact U1|]. split; [exact U2|]. by apply Hu.
Qed.

Lemma td_unused_user tr s c : inv tr s -> c ∈ deleted s -> user_count c s = 0%nat.
Proof. intros Hi Hc. pose proof (q_deleted _ (t_queue _ _ _ _ Hi) c Hc) as Hu. by apply use_count_0 in Hu as (_ & _ & ?). Qed.

Lemma td_settled_keep tr c s : settled tr s -> c ∉ deleted s -> settled tr (set_users (<[c := S (user_count c s)]> (users s)) s).
Proof.
  intros [Hi Hset] Hc. split.
  - apply td_inv_set_users; [done| |].
    + intros d Hd. rewrite lookup_insert_ne by congruence. by eapply td_unused_user.
    + intros d Hd. rewrite lookup_insert. case_decide; [done|]. by apply (t_exposed _ _ _ _ Hi).
  - cbn [sys set_users deleted]. intros d Hd. destruct (Hset d Hd) as [?|Hu]; [by left|right]. intros Hz. apply Hu.
    apply use_count_0 in Hz as (U1 & U2 & U3). apply use_count_0. split; [exact U1|]. split; [exact U2|].
    unfold user_count in U3 |- *. cbn [users set_users] in U3. rewrite lookup_insert in U3. by case_decide.
Qed.

Lemma wp_dropped tr c s : inv tr s -> (exposed c (over c (sys s)) (queue s) -> user_count c s <> 1%nat) -> wp release (fun _ s' => settled tr s' /\ sys s' = sys s /\ queue s' = queue s)
  (set_users (<[c := Nat.pred (user_count c s)]> (users s)) s).
Proof.
  intros Hi Hx. eapply wpe_mono; [apply (wp_let_go tr)|cbn beta; by intros _ s' (? & ? & ? & _)].
  apply td_inv_set_users; [done| |].
  - intros d Hd. pose proof (td_unused_user tr s d Hi Hd) as Hu. rewrite lookup_insert. case_decide; [subst d; by rewrite Hu|done].
  - intros d Hd. rewrite lookup_insert. pose proof (t_exposed _ _ _ _ Hi d Hd) as Hu. case_decide; [subst d; cbn|done].
    specialize (Hx Hd). lia.
Qed.

(** ** Runs *)

(** Users call through pointers they hold, copy pointers there are and do not
    let the last one go while a functor bound to a bare
    [this] stands behind [connectDestroyed]; no step closes a connection or
    leaves it shutting down. *)
Definition allowed (o : op) s : Prop :=
  (forall x, sys_op o s = Some x -> may x s) /\
  match o with
  | Call c _ | Remote c _ => user_count c s <> 0%nat
  | Drop c => user_count c s <> 0%nat /\ (exposed c (over c (sys s)) (queue s) -> user_count c s <> 1%nat)
  | Keep c => use_count c s <> 0%nat
  | RunFunctor _ | Event _ _ _ | Timer _ => True
  end.

Notation td_step := (step getLocalAddr tie script).
Fixpoint allowed_run (l : list op) s : Prop :=
  match l with
  | [] => True
  | o :: l => allowed o s /\ match td_step o s with Ok (_, s') => allowed_run l s' | Err _ => True end
  end.

(** How many functors a step takes from the queue of a loop. *)
Definition taken (l : Z) (o : op) : nat := match o with RunFunctor l' => if (l' =? l)%Z then 1 else 0 | _ => 0 end.
Definition runs (l : Z) (ops : list op) : nat := sum_list (taken l <$> ops).

Definition advanced (o : op) s s' : Prop := (exists tr, settled tr s') /\ conns (sys s') = conns (sys s) /\
  forall l, (until_done l (queue s') <= until_done l (queue s) - taken l o)%nat.

Lemma advanced_idle o s s' : (forall l, taken l o = 0%nat) -> (exists tr, settled tr s') -> conns (sys s') = conns (sys s) ->
  no_server_functor s s' -> advanced o s s'.
Proof.
  intros Ht Hs Hc (new & Eq & Hn). split; [done|]. split; [done|]. intros l. rewrite Ht, Eq, until_done_app by done. lia.
Qed.
Lemma same_queue s s' : queue s' = queue s -> no_server_functor s s'.
Proof. intros E. exists []. by rewrite E, app_nil_r. Qed.

Lemma wpe_td_functor tr l s : settled tr s -> allowed (RunFunctor l) s ->
  wpe TcpConnection.external (run_functor getLocalAddr tie script l) (fun _ => advanced (RunFunctor l) s) s.
Proof.
  intros Hset [Hm _]. cbn [sys_op] in Hm. unfold run_functor. wp_steps.
  assert (forall x q s', TcpServer.pop l (queue s) = Some (x, q) -> no_server_functor (set_queue q s) s' ->
    forall l', (until_done l' (queue s') <= until_done l' (queue s) - taken l' (RunFunctor l))%nat) as Hu.
  { intros x q s' Hp (new & Eq & Hn) l'. cbn [queue set_queue] in Eq. rewrite Eq, until_done_app by done.
    by apply (until_done_pop l' l (queue s) x). }
  destruct (TcpServer.pop l (queue s)) as [[[f|c f] q]|] eqn:Hp.
  - apply wpe_bind, wpe_modify. eapply wpe_mono; [by apply (td_wpe_run_server tr); [| |apply Hm]|]. cbn beta.
    intros _ s' (? & ? & ?). split; [done|]. split; [done|]. by eapply Hu.
  - apply wpe_bind, wpe_modify. eapply wpe_mono; [apply (td_wpe_run_own tr); [done..|]|]; [|cbn beta].
    { intros Hd. rewrite decide_False in Hm by done. by apply Hm. }
    intros _ s' (? & ? & ?). split; [done|]. split; [done|]. by eapply Hu.
  - wp_steps. split; [by exists tr|]. split; [done|]. intros l'. cbn [taken]. destruct (Z.eqb_spec l l') as [<-|_]; [|lia].
    rewrite (until_done_none l (queue s)) by done. lia.
Qed.

Lemma wpe_td_step o s : (exists tr, settled tr s) -> allowed o s ->
  wpe TcpConnection.external (td_step o) (fun _ => advanced o s) s.
Proof.
  intros [tr Hset] Ha. pose proof Hset as [Hi _]. destruct o as [l|c r time|c|c x|c p|c|c]; cbn [step].
  { by apply (wpe_td_functor tr). }
  all: destruct Ha as [Hm Hu]; cbn [sys_op] in Hm.
  - pose proof (Hm _ eq_refl) as [(_ & _ & (conn & ch & k & w & Hat & Ha) & _) _].
    eapply wpe_mono; [apply (wpe_member tr c (TcpConnection.OpEvents r time)); [done| |done|done|by apply Hm]|].
    + eapply td_open_alive; [done|exact Hat|apply Ha].
    + cbn beta. intros _ s' (? & ? & ?). by apply advanced_idle.
  - unfold weak_forceClose. wp_steps. apply wpe_when; intros Hd.
    + apply negb_true_iff, bool_decide_eq_false in Hd. rewrite decide_False in Hm by done.
      eapply wpe_mono; [apply (wpe_member tr c TcpConnection.OpTimer); [done..|by apply Hm]|].
      cbn beta. intros _ s' (? & ? & ?). by apply advanced_idle.
    + apply advanced_idle; [done|by exists tr|done|by apply same_queue].
  - eapply wpe_mono; [apply (wpe_member tr c (TcpConnection.OpUser x)); [done|by eapply td_user_alive|done|done|by apply Hm]|].
    cbn beta. intros _ s' (? & ? & ?). by apply advanced_idle.
  - eapply wpe_mono; [apply (wpe_member tr c (part_op p)); [done|by eapply td_user_alive|done|by destruct p|by apply Hm]|].
    cbn beta. intros _ s' (? & ? & ?). by apply advanced_idle.
  - assert (c ∉ deleted s) as Hal by (intros Hd; by destruct (q_deleted _ (t_queue _ _ _ _ Hi) c Hd)).
    wp_steps. apply wpe_use; [done|]. wp_steps. apply advanced_idle; [done|exists tr; by apply td_settled_keep|done|by apply same_queue].
  - wp_steps. apply (wpe_weaken (fun _ => False)); [|intros ? []]. eapply wpe_mono; [by apply (wp_dropped tr c); [|apply Hu]|].
    cbn beta. intros _ s' (? & Es & Eq). apply advanced_idle; [done|by exists tr|by rewrite Es|by apply same_queue].
Qed.

Lemma wpe_td_run l s : (exists tr, settled tr s) -> allowed_run l s ->
  wpe TcpConnection.external (for_each td_step l) (fun _ s' => (exists tr, settled tr s') /\ conns (sys s') = conns (sys s) /\
    forall z, (until_done z (queue s') <= until_done z (queue s) - runs z l)%nat) s.
Proof.
  revert s. induction l as [|o l IH]; intros s Hi Ha; cbn [for_each].
  { wp_steps. split; [done|]. split; [done|]. intros z. change (runs z []) with 0%nat. lia. }
  destruct Ha as [Ha Hl]. apply wpe_bind. pose proof (wpe_td_step o s Hi Ha) as Hs.
  unfold wpe in Hs |- * at 1. destruct (td_step o s) as [[[] s1]|e]; [|done]. destruct Hs as (Hs1 & Ec & Hu).
  eapply wpe_mono; [by apply IH|]. cbn beta. intros _ s' (? & Ec' & Hu'). split; [done|]. split; [congruence|].
  intros z. specialize (Hu z). specialize (Hu' z). change (runs z (o :: l)) with (taken z o + runs z l)%nat. lia.
Qed.

(** ** The end of every connection *)

(** A connection is deleted when nothing refers to it, and then it is
    disconnected and its loop's poller has forgotten it. *)
Definition accounted s : Prop := forall c conn, conns (sys s) !! c = Some conn ->
  (c ∉ deleted s /\ use_count c s <> 0%nat) \/
  (c ∈ deleted s /\ use_count c s = 0%nat /\ exists ch k w, System.conn_at c conn ch k w (sys s) /\
     TcpConnection.state_ k = TcpConnection.kDisconnected /\ channels_ (poller w) !! TcpServer.conn_fd conn <> Some ch).

Lemma settled_ends tr s : settled tr s -> accounted s.
Proof.
  intros [Hi Hset] c conn Hc. pose proof (Shutdown.d_placed _ _ _ (t_dying _ _ _ _ Hi)) as Hp.
  assert (c < length (System.cells (sys s)))%nat as Hlt.
  { rewrite (System.i_length _ _ _ _ Hp). by eapply lookup_lt_Some. }
  destruct (decide (c ∈ deleted s)) as [Hd|Hd]; [right|left].
  - pose proof (q_deleted _ (t_queue _ _ _ _ Hi) c Hd) as Hu. split; [done|]. split; [done|].
    destruct (System.conn_at_exists _ _ _ _ c conn Hp Hc) as (ch & k & w & Hat). exists ch, k, w. split; [done|].
    by eapply unheld_gone.
  - split; [done|]. by destruct (Hset c Hlt).
Qed.

(** With no functor of its own and no pointer of a user, a connection is
    deleted once the functors of the server have run. *)
Lemma unheld_deleted tr s c conn : settled tr s -> omap item_server (queue s) = [] -> conns (sys s) !! c = Some conn ->
  user_count c s = 0%nat -> (forall l f, (l, Own c f) ∉ queue s) -> c ∈ deleted s.
Proof.
  intros [Hi Hset] Hq Hc Hu Hno. pose proof (Shutdown.d_placed _ _ _ (t_dying _ _ _ _ Hi)) as Hp.
  destruct (Hset c) as [?|Hx]; [|done|destruct Hx].
  - rewrite (System.i_length _ _ _ _ Hp). by eapply lookup_lt_Some.
  - apply use_count_0. split; [eapply dying_unlisted, Hi|]. split; [|done]. intros [l [f|d f]] Hin.
    + apply servers_elem in Hin. rewrite Hq in Hin. by apply not_elem_of_nil in Hin.
    + cbn. destruct (decide (d = c)) as [->|Hne]; [by destruct (Hno l f)|]. by rewrite bool_decide_eq_false_2.
Qed.

(** C5: The end of the connection objects.  From any state the server can
    reach in which no connection is shutting down ([kDisconnecting]), no
    close callback is on its way to the server and no functor in the
    server's own loop is bound to a bare [this] of a connection that no user
    holds, [~TcpServer] and whatever the loops, timers and users, in the
    loops' threads and in others, do afterwards that is [allowed] use no
    deleted connection and fail no assertion, that of [~TcpConnection]
    included.  [allowed] asks that no step closes a connection and that none
    is shutting down after any step (a [shutdown()] after [~TcpServer] makes
    [connectDestroyed] fail its assertion: [shutdown_after_destructor]); that
    users hold a pointer throughout a call and keep the last one while a
    functor bound to a bare [this] stands behind [connectDestroyed]; and the
    events and calls of [System.server_works].  At any time a connection is
    deleted if and only if nothing refers to it, and then it is disconnected
    and no poller knows it; when every loop has run as many functors as were
    in its queue, every connection is destroyed, and those that neither user
    code nor a functor of their own holds are deleted. *)
Theorem connections_released ws n loop ipPort name cb l s l2 : 0 <= n < 2 ^ 31 -> slen (c_str ipPort) <= 50 ->
  (forall l, l ∈ loop :: (startLoop <$> seqZ 0 n) -> exists w a, ws !! l = Some w /\ Registry.refines a w) ->
  (forall fd, System.initial ws fd -> others fd) ->
  (forall s, open startLoop n loop (make ws loop ipPort name cb) = Ok (tt, s) ->
     Ownership.allowed_run getLocalAddr tie script new_address socket writeComplete highWater others l s) ->
  (open startLoop n loop ;;;
   for_each (Ownership.step getLocalAddr tie script new_address socket writeComplete highWater) l)
    (make ws loop ipPort name cb) = Ok (tt, s) ->
  Shutdown.no_removal (System.server (sys s)) -> Shutdown.steady (sys s) -> quiet s ->
  wpe TcpConnection.external (end_server tie script) (fun _ s1 => allowed_run l2 s1 ->
    wpe TcpConnection.external (for_each (step getLocalAddr tie script) l2) (fun _ s' =>
      conns (sys s') = conns (sys s) /\ accounted s' /\
      ((forall z, (in_queue z (queue s1) <= runs z l2)%nat) ->
         Shutdown.closed others (sys s') /\
         forall c conn, conns (sys s') !! c = Some conn -> user_count c s' = 0%nat ->
           (forall l f, (l, Own c f) ∉ queue s') -> c ∈ deleted s')) s1) s.
Proof.
  intros Hn Hip Hws Ho Hl Hs Hno Hst Hqu.
  assert (Ownership.settled others s) as Hset.
  { pose proof (wp_own_open (K := K) startLoop others ws n loop ipPort name cb Hn Hip Hws Ho) as Hop.
    unfold wpe in Hop. unfold bind in Hs. destruct (open startLoop n loop _) as [[[] s0]|e]; [|done].
    refine (wpe_elim _ _ (fun _ => Ownership.settled others) _ _ _ _ Hs). by apply (wpe_own_run startLoop); [..|apply Hl]. }
  eapply wpe_mono; [by apply wpe_end_server|]. cbn beta. intros _ s1 (tr & Hs1 & Ec) Ha.
  eapply wpe_mono; [by apply wpe_td_run; [exists tr|]|]. cbn beta. intros _ s' ([tr' Hs'] & Ec' & Hu).
  split; [congruence|]. split; [by eapply settled_ends|]. intros Hw.
  assert (omap item_server (queue s') = []) as Hq.
  { apply until_done_zero. intros z. specialize (Hu z). specialize (Hw z). pose proof (until_done_le z (queue s1)). lia. }
  split.
  - eapply Shutdown.dying_closed; [apply Hs'|]. rewrite <- (t_server _ _ _ _ (proj1 Hs')). exact Hq.
  - intros c conn. by apply (unheld_deleted tr').
Qed.
End invariant.

(** ** A concrete end

    Two connections; a user holds a pointer to the one in loop 100.  It
    echoes once more after [~TcpServer], another thread sends on it, it is
    destroyed with the functors of both still in the queue, and is deleted
    when they have run and the user lets go; the one in loop 101 is deleted
    when its functors have run. *)
Section sample.
Notation T := (Ownership.t (EPollPoller.t Sample.ep) TcpConnection.sock).

Definition sample_before : list Ownership.op :=
  [Ownership.Accept 10 zero_addr; Ownership.RunFunctor 100; Ownership.Keep 0; Ownership.Accept 12 zero_addr].
Definition sample_ops : list op :=
  [Event 0 EPOLLIN 5; Remote 0 (Test (TcpConnection.Send [])); Remote 0 (Queue 0); RunFunctor 100; RunFunctor 101;
   RunFunctor 101; RunFunctor 100; RunFunctor 100; Drop 0].
Notation sample_end := (end_server TcpConnection.sample_tie TcpConnection.sample_script).
Notation sample_step := (step System.sample_local TcpConnection.sample_tie TcpConnection.sample_script).

Definition run_of {A} (m : M T A) (s : T) : T := match m s with Ok (_, s') => s' | Err _ => s end.
Definition sample_started (n : nat) : T :=
  foldl (fun s o => run_of (Ownership.sample_step o) s) (run_of Ownership.sample_open Ownership.sample_make) (take n sample_before).
Definition sample_state (n : nat) : T :=
  foldl (fun s o => run_of (sample_step o) s) (run_of sample_end (sample_started 4)) (take n sample_ops).

Lemma td_before_next n o : sample_before !! n = Some o ->
  Ownership.sample_step o (sample_started n) = Ok (tt, sample_started (S n)).
Proof. do 4 (destruct n as [|n]; [intros [= <-]; by vm_compute|]). done. Qed.

Notation before_allowed := (Ownership.allowed Ownership.sample_others).
Lemma td_before_each n o : sample_before !! n = Some o -> before_allowed o (sample_started n).
Proof.
  assert (forall fd peer (s : T), TcpServer.nextConnId_ (System.server (sys s)) <? 2 ^ 31 - 1 = true -> 10 <= fd < INT_MAX ->
    Forall (fun x : nat * TcpServer.connection => fst x ∈ deleted s \/ TcpServer.conn_fd (snd x) <> fd)
      (imap pair (TcpServer.conns (System.server (sys s)))) -> before_allowed (Ownership.Accept fd peer) s) as Hacc.
  { intros fd peer s Hid Hfd Hall. apply Z.ltb_lt in Hid. split; [done|]. split; [lia|]. by apply fd_closed_check; [lia|]. }
  destruct n as [|[|[|[|n]]]]; [intros [= <-]..|done].
  - apply Hacc; [by vm_compute|unfold INT_MAX; lia|]. apply (bool_decide_unpack _). by vm_compute.
  - intros c f q Hp. assert (TcpServer.pop 100 (queue (sample_started 1)) = Some (Server (TcpServer.Established 0), [])) as E
      by by vm_compute.
    rewrite E in Hp. discriminate Hp.
  - apply (bool_decide_unpack _). by vm_compute.
  - apply Hacc; [by vm_compute|unfold INT_MAX; lia|]. apply (bool_decide_unpack _). by vm_compute.
Qed.

Lemma td_before_allowed s : Ownership.sample_open Ownership.sample_make = Ok (tt, s) ->
  Ownership.allowed_run System.sample_local TcpConnection.sample_tie TcpConnection.sample_script System.sample_address
    System.sample_socket true false Ownership.sample_others sample_before s.
Proof.
  assert (Ownership.sample_open Ownership.sample_make = Ok (tt, sample_started 0)) as -> by by vm_compute. intros [= <-].
  assert (forall l n, drop n sample_before = l -> Ownership.allowed_run System.sample_local TcpConnection.sample_tie
    TcpConnection.sample_script System.sample_address System.sample_socket true false Ownership.sample_others l (sample_started n)) as Hall.
  { induction l as [|o l IH]; intros n Hn; cbn [Ownership.allowed_run]; [done|].
    assert (sample_before !! n = Some o) as Ho by (by rewrite <- (Nat.add_0_r n), <- lookup_drop, Hn).
    split; [by apply td_before_each|]. pose proof (td_before_next n o Ho) as Hs. unfold Ownership.sample_step in Hs. rewrite Hs.
    apply IH. rewrite <- Nat.add_1_r, <- drop_drop, Hn. done. }
  by apply (Hall sample_before 0%nat).
Qed.

Lemma td_before_final : (Ownership.sample_open ;;; for_each Ownership.sample_step sample_before) Ownership.sample_make =
  Ok (tt, sample_started 4).
Proof. by vm_compute. Qed.

Lemma td_no_removal : Shutdown.no_removal (System.server (sys (sample_started 4))).
Proof.
  intros l c Hin. assert (TcpServer.pending (System.server (sys (sample_started 4))) = [(101, TcpServer.Established 1)]) as E
    by by vm_compute.
  rewrite E in Hin. apply list_elem_of_singleton in Hin. discriminate Hin.
Qed.

#[local] Existing Instance TcpConnection.StateE_eq_dec.
Lemma td_steady : Shutdown.steady (sys (sample_started 4)).
Proof. apply Shutdown.steady_check, (bool_decide_unpack _). by vm_compute. Qed.
Lemma td_quiet : quiet (sample_started 4).
Proof.
  intros c f Hin. assert (queue (sample_started 4) = [(101, Server (TcpServer.Established 1))]) as E by by vm_compute.
  rewrite E in Hin. apply list_elem_of_singleton in Hin. apply (f_equal snd) in Hin. cbn [snd] in Hin. discriminate Hin.
Qed.

Lemma td_ended : sample_end (sample_started 4) = Ok (tt, sample_state 0).
Proof. by vm_compute. Qed.
Lemma td_next n o : sample_ops !! n = Some o -> sample_step o (sample_state n) = Ok (tt, sample_state (S n)).
Proof. do 9 (destruct n as [|n]; [intros [= <-]; by vm_compute|]). done. Qed.

Notation may_sample := (may System.sample_local TcpConnection.sample_tie TcpConnection.sample_script).
Definition steady_after (x : Shutdown.op) (s : T) : bool :=
  match Shutdown.step System.sample_local TcpConnection.sample_tie TcpConnection.sample_script x (sys s) with
  | Ok (_, y) => bool_decide (Forall (fun x => TcpConnection.state_ (snd x) <> TcpConnection.kDisconnecting) (System.cells y))
  | Err _ => true
  end.
Lemma td_may x (s : T) : Shutdown.allowed TcpConnection.sample_tie TcpConnection.sample_script x (sys s) ->
  steady_after x s -> may_sample x s.
Proof.
  intros Ha Hs. split; [done|]. unfold steady_after in Hs.
  destruct (Shutdown.step _ _ _ x (sys s)) as [[[] y]|]; [|done]. apply Shutdown.steady_check. by apply bool_decide_unpack in Hs.
Qed.

Lemma td_each n o : sample_ops !! n = Some o ->
  allowed System.sample_local TcpConnection.sample_tie TcpConnection.sample_script o (sample_state n).
Proof.
  assert (forall l m, match TcpServer.pop l (queue (sample_state m)) with Some (Server _, _) => True | _ => False end ->
    steady_after (Shutdown.RunFunctor l) (sample_state m) -> allowed System.sample_local TcpConnection.sample_tie
      TcpConnection.sample_script (RunFunctor l) (sample_state m)) as Hrun.
  { intros l m Hp Hs. split; [|done]. cbn [sys_op]. destruct (TcpServer.pop l _) as [[[f|c f] q]|]; [|done..].
    intros x [= <-]. by apply td_may. }
  assert (forall m c y, (exists conn ch k w, System.conn_at c conn ch k w (sys (sample_state m)) /\
      TcpConnection.allowed ch (TcpServer.conn_fd conn) y (TcpConnection.set_world w k)) ->
    y <> TcpConnection.OpEstablish /\ y <> TcpConnection.OpDestroy ->
    match System.on_conn c (fun ch => TcpConnection.step ch TcpConnection.sample_tie TcpConnection.sample_script y) (sys (sample_state m)) with
    | Ok (_, s') => System.closes_of c s' = System.closes_of c (sys (sample_state m)) | Err _ => True end ->
    steady_after (Shutdown.Conn c y) (sample_state m) -> may_sample (Shutdown.Conn c y) (sample_state m)) as Hconn.
  { intros m c y Hat [? ?] Hc Hs. by apply td_may. }
  assert (forall l m c, match TcpServer.pop l (queue (sample_state m)) with Some (Own d _, _) => d = c | _ => False end ->
    may_sample (Shutdown.Conn c TcpConnection.OpFunctor) (sample_state m) -> allowed System.sample_local TcpConnection.sample_tie
      TcpConnection.sample_script (RunFunctor l) (sample_state m)) as Hown.
  { intros l m c Hp Hs. split; [|done]. cbn [sys_op]. destruct (TcpServer.pop l _) as [[[f|d f] q]|]; [done| |done]. subst d.
    case_decide; [done|]. by intros x [= <-]. }
  destruct n as [|[|[|[|[|[|[|[|[|n]]]]]]]]]; [intros [= <-]..|done].
  4, 5, 6: by apply Hrun; vm_compute.
  4, 5: (apply (Hown _ _ 0%nat); [by vm_compute|]; apply Hconn; [|done|by vm_compute|by vm_compute];
    eexists _, _, _, _; split; [constructor; vm_compute; reflexivity|exact I]).
  - split; [|done]. intros x [= <-]. apply Hconn; [|done|by vm_compute|by vm_compute].
    eexists _, _, _, _. split; [constructor; vm_compute; reflexivity|]. split; [by vm_compute; left|by vm_compute].
  - split; [|by vm_compute]. intros x [= <-]. apply Hconn; [|done|by vm_compute|by vm_compute].
    eexists _, _, _, _. split; [constructor; vm_compute; reflexivity|]. by split; vm_compute.
  - split; [|by vm_compute]. intros x [= <-]. apply Hconn; [|done|by vm_compute|by vm_compute].
    eexists _, _, _, _. split; [constructor; vm_compute; reflexivity|]. exact I.
  - split; [done|]. split; [by vm_compute|]. intros Hx. exfalso. revert Hx. by vm_compute.
Qed.

Lemma td_run : allowed_run System.sample_local TcpConnection.sample_tie TcpConnection.sample_script sample_ops (sample_state 0).
Proof.
  assert (forall l n, drop n sample_ops = l -> allowed_run System.sample_local TcpConnection.sample_tie
    TcpConnection.sample_script l (sample_state n)) as Hall.
  { induction l as [|o l IH]; intros n Hn; cbn [allowed_run]; [done|].
    assert (sample_ops !! n = Some o) as Ho by (by rewrite <- (Nat.add_0_r n), <- lookup_drop, Hn).
    split; [by apply td_each|]. rewrite (td_next n o Ho).
    apply IH. rewrite <- Nat.add_1_r, <- drop_drop, Hn. done. }
  by apply Hall.
Qed.

Lemma td_ran : for_each sample_step sample_ops (sample_state 0) = Ok (tt, sample_state 9).
Proof. by vm_compute. Qed.
Lemma td_waits z : (in_queue z (queue (sample_state 0)) <= runs z sample_ops)%nat.
Proof.
  assert (queue (sample_state 0) = [(101, Server (TcpServer.Established 1)); (100, Server (TcpServer.Destroyed 0));
    (101, Server (TcpServer.Destroyed 1))]) as -> by by vm_compute.
  destruct (decide (z = 101)) as [->|H1]; [vm_compute; lia|]. destruct (decide (z = 100)) as [->|H2]; [vm_compute; lia|].
  unfold in_queue. rewrite !filter_cons_False by (cbn; congruence). cbn. lia.
Qed.

Lemma td_deleted : elements (deleted (sample_state 8)) = [1%nat] /\ elements (deleted (sample_state 9)) = [1; 0]%nat.
Proof. by vm_compute. Qed.

Lemma connections_released_witness :
  sample_end (sample_started 4) = Ok (tt, sample_state 0) /\
  for_each sample_step sample_ops (sample_state 0) = Ok (tt, sample_state 9) /\
  accounted (sample_state 9) /\ Shutdown.closed Ownership.sample_others (sys (sample_state 9)) /\
  elements (deleted (sample_state 8)) = [1%nat] /\ elements (deleted (sample_state 9)) = [1; 0]%nat.
Proof.
  split; [exact td_ended|]. split; [exact td_ran|].
  pose proof (wpe_elim _ _ _ _ _ _ (wpe_elim _ _ _ _ _ _ (connections_released System.sample_start System.sample_local
    TcpConnection.sample_tie TcpConnection.sample_script System.sample_address System.sample_socket true false
    Ownership.sample_others TcpConnection.sample_tie_keeps TcpConnection.sample_script_ok System.sample_address_fresh
    System.sample_worlds 2 7 "127.0.0.1:2007" "echo" false sample_before (sample_started 4) sample_ops ltac:(lia)
    ltac:(vm_compute; congruence) System.sample_worlds_ok Ownership.sample_initial td_before_allowed td_before_final
    td_no_removal td_steady td_quiet) td_ended td_run) td_ran) as (_ & Ha & Hw).
  split; [exact Ha|]. split; [apply (Hw td_waits)|exact td_deleted].
Defined.

(** What [allowed] excludes: another thread sends on an established
    connection after [~TcpServer] and lets its pointer go.  [sendInLoop],
    bound to a bare [this], runs behind [connectDestroyed], on the deleted
    object (in the code, when it is in a later batch of functors than the one
    that frees the last pointer). *)
Example send_after_destructor : exists s,
  for_each sample_step [Remote 0 (Test (TcpConnection.Send TcpConnection.hello)); Remote 0 (Queue 0); Drop 0; RunFunctor 100]
    (sample_state 0) = Ok (tt, s) /\
  0%nat ∈ deleted s /\ sample_step (RunFunctor 100) s = Err Undefined.
Proof.
  eexists. split; [vm_compute; reflexivity|]. split; [|by vm_compute]. apply (bool_decide_unpack _). by vm_compute.
Qed.

(** A [shutdown] of a user after [~TcpServer] closes nothing, and
    [connectDestroyed] finds the connection in [kDisconnecting]: it leaves
    the channel its interest, and the poller's assertion fails. *)
Example shutdown_after_destructor :
  for_each sample_step [Call 0 TcpConnection.Shutdown; RunFunctor 100] (sample_state 0) = Err AssertFailed.
Proof. by vm_compute. Qed.

(** A server with one loop: the destructor deletes a connection at once, and
    a send that another thread has queued before runs on the deleted
    object. *)
Definition unquiet_ops : list Ownership.op :=
  [Ownership.Accept 10 zero_addr; Ownership.RunFunctor 7; Ownership.Keep 0;
   Ownership.Remote 0 (Test (TcpConnection.Send TcpConnection.hello)); Ownership.Remote 0 (Queue 0); Ownership.Drop 0].
Example destructor_leaves_bare : exists s,
  (Ownership.open System.sample_start 0 7 ;;; for_each Ownership.sample_step unquiet_ops ;;; sample_end) Ownership.sample_make =
    Ok (tt, s) /\
  0%nat ∈ deleted s /\ queue s = [(7, Own 0 (TcpConnection.SendInLoop TcpConnection.hello))] /\
  Ownership.sample_step (Ownership.RunFunctor 7) s = Err Undefined.
Proof.
  eexists. split; [vm_compute; reflexivity|]. split; [apply (bool_decide_unpack _)|split]; by vm_compute.
Qed.
End sample.
End Teardown.
