(* ===== verification/BlockingQueue.v ===== *)
(** * Blocking queues (BlockingQueue.h, BoundedBlockingQueue.h, Mutex.h, Condition.h)

    Any number of threads put into and take from one queue, under a mutex
    and with one or two condition variables.  Each thread is at a point of
    [put] or [take]; a step of the machine is one statement of one thread.
    [maxSize] is the capacity of a [BoundedBlockingQueue]; [None] is the
    [BlockingQueue], which has no [notFull_]. *)
From S2P Require Import Prelude.

Module BlockingQueue.
Section queue.
Context {T : Type} (maxSize : option Z).

(** The calls that only look. *)
Inductive query : Type := Empty | Full | Size | Capacity.

Inductive pc : Type :=
| Idle
| PutLock (x : T)      (* MutexLockGuard lock(mutex_) *)
| PutTest (x : T)      (* while (queue_.full()) *)
| PutBlocked (x : T)   (* in notFull_.wait() *)
| PutWoken (x : T)     (* in notFull_.wait(), taking the mutex again *)
| PutPush (x : T)      (* assert(!queue_.full()); queue_.push_back(x) *)
| PutNotify            (* notEmpty_.notify() *)
| PutUnlock
| TakeLock
| TakeTest             (* while (queue_.empty()) *)
| TakeBlocked          (* in notEmpty_.wait() *)
| TakeWoken
| TakePop              (* assert(!queue_.empty()); front, pop_front *)
| TakeNotify (x : T)   (* notFull_.notify() *)
| TakeUnlock (x : T)
| QueryLock (q : query)
| QueryRead (q : query)
| QueryUnlock (answer : Z).   (* what the call returns *)

Record t : Type := mk {
  mutex_ : option nat;          (* the thread that has locked it *)
  holder_ : option nat;         (* MutexLock::holder_ *)
  queue_ : list T;
  threads : list pc;
  puts : list T;                (* pushed so far *)
  takes : list T }.             (* popped so far *)

Definition init (n : nat) : t := mk None None [] (replicate n Idle) [] [].

Definition at_ (i : nat) (p : pc) (s : t) : t :=
  mk (mutex_ s) (holder_ s) (queue_ s) (<[i := p]> (threads s)) (puts s) (takes s).
Definition set_queue q (s : t) : t := mk (mutex_ s) (holder_ s) q (threads s) (puts s) (takes s).
Definition log_put x (s : t) : t := mk (mutex_ s) (holder_ s) (queue_ s) (threads s) (puts s ++ [x]) (takes s).
Definition log_take x (s : t) : t := mk (mutex_ s) (holder_ s) (queue_ s) (threads s) (puts s) (takes s ++ [x]).

(** [MutexLock]: [pthread_mutex_lock] and [pthread_mutex_unlock], and who
    holds it; a thread that finds it locked waits. *)
Definition set_mutex m (s : t) : t := mk m (holder_ s) (queue_ s) (threads s) (puts s) (takes s).
Definition assignHolder (i : nat) (s : t) : t := mk (mutex_ s) (Some i) (queue_ s) (threads s) (puts s) (takes s).
Definition unassignHolder (s : t) : t := mk (mutex_ s) None (queue_ s) (threads s) (puts s) (takes s).
Definition lock (i : nat) (s : t) : option t :=
  match mutex_ s with
  | None => Some (assignHolder i (set_mutex (Some i) s))
  | Some _ => None
  end.
Definition unlock (s : t) : t := set_mutex None (unassignHolder s).
Definition isLockedByThisThread (i : nat) (s : t) : bool := bool_decide (holder_ s = Some i).
Definition assertLocked (i : nat) (s : t) : result unit := if isLockedByThisThread i s then Ok tt else Err AssertFailed.

(** [Condition::wait]: the [UnassignGuard] gives up the holder, then
    [pthread_cond_wait] the mutex, and blocks.  It returns with the mutex, and
    the guard takes the holder back ([PutWoken], [TakeWoken] below). *)
Definition wait (i : nat) (blocked : pc) (s : t) : t := at_ i blocked (set_mutex None (unassignHolder s)).

(** [Condition::notify] wakes one of the waiting threads, the [j]th, when
    there is one. *)
Definition blocked_put (p : pc) : bool := match p with PutBlocked _ => true | _ => false end.
Definition blocked_take (p : pc) : bool := match p with TakeBlocked => true | _ => false end.
Definition woken (p : pc) : pc :=
  match p with PutBlocked x => PutWoken x | TakeBlocked => TakeWoken | p => p end.
Definition notify (blocked : pc -> bool) (j : nat) (s : t) : option t :=
  if existsb blocked (threads s) then
    match threads s !! j with
    | Some p => if blocked p then Some (at_ j (woken p) s) else None
    | None => None
    end
  else Some s.

Definition full (s : t) : bool := match maxSize with Some n => Zlen (queue_ s) =? n | None => false end.
Definition empty (s : t) : bool := match queue_ s with [] => true | _ => false end.
(** The answer of [empty()], [full()], [size()], [capacity()]; the unbounded
    queue has only [size()]. *)
Definition answer (q : query) (s : t) : Z :=
  match q with
  | Empty => if empty s then 1 else 0
  | Full => if full s then 1 else 0
  | Size => Zlen (queue_ s)
  | Capacity => default 0 maxSize
  end.

(** The destructors of the members: a condition variable that a thread waits
    on may not be destroyed, a mutex is free ([holder_ == 0], and
    pthread_mutex_destroy gives EBUSY for a locked one). *)
Definition destroy (s : t) : result unit :=
  if existsb (fun p => blocked_put p || blocked_take p) (threads s) then Err Undefined
  else match holder_ s, mutex_ s with
       | None, None => Ok tt
       | _, _ => Err AssertFailed
       end.

Inductive event : Type :=
| Put (i : nat) (x : T)           (* thread [i] calls put(x) *)
| Take (i : nat)                  (* thread [i] calls take() *)
| Query (i : nat) (q : query)
| Step (i j : nat)                (* thread [i] goes on; its notification wakes [j] *)
| Spurious (i : nat).             (* a wait returns by itself *)

Definition step_thread (i j : nat) (p : pc) (s : t) : option (result t) :=
  match p with
  | Idle | PutBlocked _ | TakeBlocked => None
  | PutLock x | PutWoken x => option_map (fun s => Ok (at_ i (PutTest x) s)) (lock i s)
  | PutTest x => Some (Ok (if full s then wait i (PutBlocked x) s else at_ i (PutPush x) s))
  | PutPush x =>
      if full s then Some (Err AssertFailed)
      else Some (Ok (at_ i PutNotify (log_put x (set_queue (queue_ s ++ [x]) s))))
  | PutNotify => option_map (fun s => Ok (at_ i PutUnlock s)) (notify blocked_take j s)
  | PutUnlock => Some (Ok (at_ i Idle (unlock s)))
  | TakeLock | TakeWoken => option_map (fun s => Ok (at_ i TakeTest s)) (lock i s)
  | TakeTest => Some (Ok (if empty s then wait i TakeBlocked s else at_ i TakePop s))
  | TakePop =>
      match queue_ s with
      | [] => Some (Err AssertFailed)
      | x :: q =>
          Some (Ok (at_ i (match maxSize with Some _ => TakeNotify x | None => TakeUnlock x end)
                      (log_take x (set_queue q s))))
      end
  | TakeNotify x => option_map (fun s => Ok (at_ i (TakeUnlock x) s)) (notify blocked_put j s)
  | TakeUnlock x => Some (Ok (at_ i Idle (unlock s)))
  | QueryLock q => option_map (fun s => Ok (at_ i (QueryRead q) s)) (lock i s)
  | QueryRead q => Some (Ok (at_ i (QueryUnlock (answer q s)) s))
  | QueryUnlock _ => Some (Ok (at_ i Idle (unlock s)))
  end.

Definition step (e : event) (s : t) : option (result t) :=
  match e with
  | Put i x => match threads s !! i with Some Idle => Some (Ok (at_ i (PutLock x) s)) | _ => None end
  | Take i => match threads s !! i with Some Idle => Some (Ok (at_ i TakeLock s)) | _ => None end
  | Query i q => match threads s !! i with Some Idle => Some (Ok (at_ i (QueryLock q) s)) | _ => None end
  | Step i j => match threads s !! i with Some p => step_thread i j p s | None => None end
  | Spurious i =>
      match threads s !! i with
      | Some p => if blocked_put p || blocked_take p then Some (Ok (at_ i (woken p) s)) else None
      | None => None
      end
  end.

(** A run; events that cannot happen are skipped. *)
Fixpoint run (l : list event) (s : t) : result t :=
  match l with
  | [] => Ok s
  | e :: l => match step e s with
              | None => run l s
              | Some (Ok s') => run l s'
              | Some (Err f) => Err f
              end
  end.

(** ** Invariant *)

Definition inside (p : pc) : bool :=
  match p with
  | PutTest _ | PutPush _ | PutNotify | PutUnlock | TakeTest | TakePop | TakeNotify _ | TakeUnlock _
  | QueryRead _ | QueryUnlock _ => true
  | _ => false
  end.

(** Threads that will deal with an element, or with a free place. *)
Definition for_element (p : pc) : bool :=
  match p with TakeWoken | TakeTest | TakePop | PutNotify => true | _ => false end.
Definition for_place (p : pc) : bool :=
  match p with PutWoken _ | PutTest _ | PutPush _ | TakeNotify _ => true | _ => false end.
Definition count (f : pc -> bool) (l : list pc) : Z := Zlen (filter (fun p => f p = true) l).

Lemma count_app f l k : count f (l ++ k) = count f l + count f k.
Proof. unfold count. by rewrite list.filter_app, Zlen_app. Qed.
Lemma count_cons f p l : count f (p :: l) = (if f p then 1 else 0) + count f l.
Proof.
  unfold count. destruct (f p) eqn:E.
  - by rewrite filter_cons_True, Zlen_cons by done.
  - rewrite filter_cons_False by congruence. lia.
Qed.
Lemma count_insert f i p q l : l !! i = Some p ->
  count f (<[i := q]> l) = count f l - (if f p then 1 else 0) + (if f q then 1 else 0).
Proof.
  intros Hi. rewrite <- (take_drop_middle l i p Hi) at 2. rewrite insert_take_drop by (by eapply lookup_lt_Some).
  rewrite !count_app, !count_cons. lia.
Qed.
Lemma count_nonneg f l : 0 <= count f l.
Proof. apply Zlen_nonneg. Qed.
Lemma count_pos f l i p : l !! i = Some p -> f p = true -> 0 < count f l.
Proof.
  intros Hi Hf. rewrite <- (take_drop_middle l i p Hi), count_app, count_cons, Hf.
  pose proof (count_nonneg f (take i l)). pose proof (count_nonneg f (drop (S i) l)). lia.
Qed.
Lemma count_find f l : 0 < count f l -> exists i p, l !! i = Some p /\ f p = true.
Proof.
  induction l as [|p l IH]; [by intros H; exfalso|]. rewrite count_cons. destruct (f p) eqn:E.
  - intros _. by exists O, p.
  - intros Hc. destruct IH as (i & q & ? & ?); [lia|]. by exists (S i), q.
Qed.
Lemma existsb_count f l : existsb f l = true <-> 0 < count f l.
Proof.
  induction l as [|p l IH]; cbn [existsb]; [done|]. rewrite count_cons, orb_true_iff, IH.
  pose proof (count_nonneg f l). destruct (f p); [|rewrite Z.add_0_l; naive_solver lia]. split; [lia|by left].
Qed.

Record inv (s : t) : Prop := {
  inv_mutex : forall i p, threads s !! i = Some p -> inside p = true <-> mutex_ s = Some i;
  inv_holder : holder_ s = mutex_ s;
  inv_owner : forall i, mutex_ s = Some i -> (i < length (threads s))%nat;
  inv_fifo : puts s = takes s ++ queue_ s;
  inv_size : forall n, maxSize = Some n -> Zlen (queue_ s) <= n;
  inv_push : forall i x, threads s !! i = Some (PutPush x) -> full s = false;
  inv_pop : forall i, threads s !! i = Some TakePop -> queue_ s <> [];
  inv_element : 0 < count blocked_take (threads s) -> Zlen (queue_ s) <= count for_element (threads s);
  inv_place : forall n, maxSize = Some n -> 0 < count blocked_put (threads s) ->
    n - Zlen (queue_ s) <= count for_place (threads s);
  inv_bounded : maxSize = None -> count blocked_put (threads s) = 0 }.

Definition mutex_moves (m m' : option nat) (i : nat) (p q : pc) : Prop :=
  m' = m /\ inside q = inside p \/ m = None /\ m' = Some i /\ inside q = true \/
  m = Some i /\ m' = None /\ inside q = false.

Definition element_ok (len : Z) (l : list pc) : Prop := 0 < count blocked_take l -> len <= count for_element l.
Definition place_ok (len : Z) (l : list pc) : Prop :=
  (forall n, maxSize = Some n -> 0 < count blocked_put l -> n - len <= count for_place l) /\
  (maxSize = None -> count blocked_put l = 0).

(** One thread moves from [p] to [q]. *)
Lemma inv_move s i p q m Q ps ts : inv s -> threads s !! i = Some p ->
  mutex_moves (mutex_ s) m i p q -> (Q = queue_ s \/ inside p = true) ->
  ps = ts ++ Q -> (forall n, maxSize = Some n -> Zlen Q <= n) ->
  (forall x, q = PutPush x -> full (mk m m Q (<[i := q]> (threads s)) ps ts) = false) -> (q = TakePop -> Q <> []) ->
  element_ok (Zlen Q) (<[i := q]> (threads s)) -> place_ok (Zlen Q) (<[i := q]> (threads s)) ->
  inv (mk m m Q (<[i := q]> (threads s)) ps ts).
Proof.
  intros [I1 I2 I3 I4 I5 I6 I7 I8 I9 I10] Hi Hm HQ Hf Hs Hpush Hpop Hel [Hpl Hb].
  assert (i < length (threads s))%nat as Hlt by (by eapply lookup_lt_Some).
  assert (forall k r, k <> i -> threads s !! k = Some r -> inside r = true -> Q = queue_ s) as Hother.
  { intros k r Hne Hk Hr. destruct HQ as [?|HQ]; [done|]. apply (I1 i p Hi) in HQ. apply (I1 k r Hk) in Hr. congruence. }
  constructor; cbn; try done.
  - intros k r Hk. apply list_lookup_insert_Some in Hk as [(<- & <- & _)|[Hne Hk]].
    + specialize (I1 i p Hi). destruct Hm as [[-> ->]|[(_ & -> & ->)|(_ & -> & ->)]]; done.
    + specialize (I1 k r Hk). destruct Hm as [[-> _]|[(Em & -> & _)|(Em & -> & _)]]; [done|..]; rewrite Em in I1;
        (split; [intros Hr; apply I1 in Hr; congruence|congruence]).
  - intros k Hk. rewrite length_insert. destruct Hm as [[-> _]|[(_ & -> & _)|(_ & -> & _)]];
      [by apply I3|by injection Hk as <-|done].
  - intros k x Hk. apply list_lookup_insert_Some in Hk as [(<- & E & _)|[Hne Hk]]; [apply (Hpush x); congruence|].
    unfold full; cbn. rewrite (Hother k _ ltac:(done) Hk eq_refl). by eapply I6.
  - intros k Hk. apply list_lookup_insert_Some in Hk as [(<- & E & _)|[Hne Hk]]; [apply Hpop; congruence|].
    rewrite (Hother k _ ltac:(done) Hk eq_refl). by eapply I7.
Qed.

(** The mutex and the queue stay as they are. *)
Lemma inv_at s i p q : inv s -> threads s !! i = Some p -> inside q = inside p ->
  (forall x, q = PutPush x -> full s = false) -> (q = TakePop -> queue_ s <> []) ->
  element_ok (Zlen (queue_ s)) (<[i := q]> (threads s)) -> place_ok (Zlen (queue_ s)) (<[i := q]> (threads s)) ->
  inv (at_ i q s).
Proof.
  intros Hi Ht Hin H1 H2 H3 H4. unfold at_. rewrite (inv_holder _ Hi).
  eapply inv_move; try done; [by left|by left|apply Hi|by apply Hi].
Qed.

(** Counting after thread [i] moved from [p]. *)
Ltac counts i p := unfold element_ok, place_ok; rewrite ?(count_insert _ i p) by done;
  cbn [blocked_take blocked_put for_element for_place].

Lemma inv_lock s i p q s1 : inv s -> threads s !! i = Some p -> lock i s = Some s1 ->
  inside p = false -> inside q = true -> (forall x, q <> PutPush x) -> q <> TakePop ->
  element_ok (Zlen (queue_ s)) (<[i := q]> (threads s)) -> place_ok (Zlen (queue_ s)) (<[i := q]> (threads s)) ->
  inv (at_ i q s1).
Proof.
  unfold lock. intros Hi Ht Hl Hp Hq H1 H2 H3 H4. destruct (mutex_ s) eqn:Em; [done|]. injection Hl as <-. unfold at_; cbn.
  eapply inv_move; try done; [right; left; by rewrite Em|by left|apply Hi|apply Hi|intros x ->; by destruct (H1 x)].
Qed.

Lemma inv_unlock s i p q : inv s -> threads s !! i = Some p -> inside p = true -> inside q = false ->
  element_ok (Zlen (queue_ s)) (<[i := q]> (threads s)) -> place_ok (Zlen (queue_ s)) (<[i := q]> (threads s)) ->
  inv (at_ i q (unlock s)).
Proof.
  intros Hi Ht Hp Hq H3 H4. unfold at_, unlock; cbn.
  eapply inv_move; try done; [|by left|apply Hi|apply Hi|intros x ->; done|intros ->; done].
  right; right. split; [|done]. by apply (inv_mutex _ Hi i p Ht).
Qed.

Lemma notify_cases (blocked : pc -> bool) j s s1 : notify blocked j s = Some s1 ->
  s1 = s /\ count blocked (threads s) = 0 \/
  exists r, threads s !! j = Some r /\ blocked r = true /\ s1 = at_ j (woken r) s.
Proof.
  unfold notify. destruct (existsb blocked (threads s)) eqn:E.
  - destruct (threads s !! j) as [r|] eqn:Ej; [|done]. destruct (blocked r) eqn:Er; [|done]. intros [= <-]. right. eauto.
  - intros [= <-]. left. split; [done|]. pose proof (count_nonneg blocked (threads s)).
    destruct (decide (count blocked (threads s) = 0)); [done|]. exfalso.
    assert (existsb blocked (threads s) = true) by (apply existsb_count; lia). congruence.
Qed.

Lemma inv_wake s j r : inv s -> threads s !! j = Some r -> blocked_put r || blocked_take r = true ->
  inv (at_ j (woken r) s).
Proof.
  intros Hi Hj Hb. pose proof (inv_element _ Hi). pose proof (inv_place _ Hi). pose proof (inv_bounded _ Hi).
  pose proof (count_pos blocked_put _ _ _ Hj). pose proof (count_pos blocked_take _ _ _ Hj).
  destruct r; try discriminate Hb; cbn [woken].
  - apply (inv_at s j (PutBlocked x)); try done; counts j (PutBlocked x); [lia|].
    split; [intros n Hn; specialize (H0 n Hn); lia|]. intros Hn. specialize (H1 Hn). specialize (H2 eq_refl). lia.
  - apply (inv_at s j TakeBlocked); try done; counts j TakeBlocked; [lia|].
    split; [intros n Hn; specialize (H0 n Hn); lia|]. intros Hn. specialize (H1 Hn). lia.
Qed.

Lemma inv_notify_put s i j s1 : inv s -> threads s !! i = Some PutNotify -> notify blocked_take j s = Some s1 ->
  inv (at_ i PutUnlock s1).
Proof.
  intros Hi Ht Hn. pose proof (inv_element _ Hi) as He. pose proof (inv_place _ Hi) as Hp. pose proof (inv_bounded _ Hi) as Hb.
  destruct (notify_cases _ _ _ _ Hn) as [[-> E]|(r & Hj & Hr & ->)].
  - apply (inv_at s i PutNotify); try done; counts i PutNotify; [lia|].
    split; [intros n En; specialize (Hp n En); lia|]. intros En. specialize (Hb En). lia.
  - destruct r; try discriminate Hr. assert (i <> j) as Hne by (intros ->; congruence).
    pose proof (inv_wake s j TakeBlocked Hi Hj eq_refl) as Hi'.
    assert (threads (at_ j (woken TakeBlocked) s) !! i = Some PutNotify) as Ht' by (cbn; by rewrite list_lookup_insert_ne).
    apply (inv_at _ i PutNotify); try done; counts i PutNotify; cbn [at_ threads woken queue_];
      counts j TakeBlocked; pose proof (count_pos blocked_take _ _ _ Hj eq_refl); [lia|].
    split; [intros n En; specialize (Hp n En); lia|]. intros En. specialize (Hb En). lia.
Qed.

Lemma inv_notify_take s i j x s1 : inv s -> threads s !! i = Some (TakeNotify x) -> notify blocked_put j s = Some s1 ->
  inv (at_ i (TakeUnlock x) s1).
Proof.
  intros Hi Ht Hn. pose proof (inv_element _ Hi) as He. pose proof (inv_place _ Hi) as Hp. pose proof (inv_bounded _ Hi) as Hb.
  destruct (notify_cases _ _ _ _ Hn) as [[-> E]|(r & Hj & Hr & ->)].
  - apply (inv_at s i (TakeNotify x)); try done; counts i (TakeNotify x); [lia|].
    split; [intros n En; specialize (Hp n En); lia|]. intros En. specialize (Hb En). lia.
  - destruct r as [| | |y| | | | | | | | | | | | | |]; try discriminate Hr. assert (i <> j) as Hne by (intros ->; congruence).
    pose proof (inv_wake s j (PutBlocked y) Hi Hj eq_refl) as Hi'.
    assert (threads (at_ j (woken (PutBlocked y)) s) !! i = Some (TakeNotify x)) as Ht' by (cbn; by rewrite list_lookup_insert_ne).
    pose proof (count_pos blocked_put _ _ _ Hj eq_refl).
    apply (inv_at _ i (TakeNotify x)); try done; counts i (TakeNotify x); cbn [at_ threads woken queue_];
      counts j (PutBlocked y); [lia|].
    split; [intros n En; specialize (Hp n En); lia|]. intros En. specialize (Hb En). lia.
Qed.

Lemma full_not s : inv s -> full s = false -> forall n, maxSize = Some n -> Zlen (queue_ s) < n.
Proof. intros Hi Hf n Hn. pose proof (inv_size _ Hi n Hn). unfold full in Hf. rewrite Hn in Hf. to_prop. lia. Qed.
Lemma full_yes s : full s = true -> exists n, maxSize = Some n /\ Zlen (queue_ s) = n.
Proof. unfold full. destruct maxSize as [n|]; [|done]. intros Hf. to_prop. eauto. Qed.

(** The count of threads past a test stays within the bounds [inv_place] and
    [inv_bounded] of the state before. *)
Ltac bounds :=
  match goal with
  | Hp : forall n, maxSize = Some n -> _, Hb : maxSize = None -> _ |- _ =>
      split; [let n := fresh in let E := fresh in intros n E; specialize (Hp n E); lia
             |let E := fresh in intros E; specialize (Hb E); lia]
  end.
(** A thread at [p] takes the mutex. *)
Ltac relock i p :=
  match goal with
  | Hs : option_map _ (lock i ?s) = _ |- _ =>
      let El := fresh in destruct (lock i s) eqn:El; [|done]; injection Hs as <-;
      apply (inv_lock s i p); try done; counts i p; [lia|bounds]
  end.

Lemma inv_step_thread i j p s s' : inv s -> threads s !! i = Some p -> step_thread i j p s = Some (Ok s') -> inv s'.
Proof.
  intros Hi Ht Hs. pose proof (inv_element _ Hi) as He. pose proof (inv_place _ Hi) as Hp. pose proof (inv_bounded _ Hi) as Hb.
  destruct p as [|x|x|x|x|x| | | | | | | |x|x|q|q|a]; cbn [step_thread] in Hs; try discriminate Hs.
  - relock i (PutLock x).
  - destruct (full s) eqn:Ef; injection Hs as <-.
    + destruct (full_yes s Ef) as (n0 & En0 & El). apply (inv_unlock s i (PutTest x)); try done; counts i (PutTest x); [lia|].
      pose proof (count_nonneg for_place (<[i := PutBlocked x]> (threads s))) as Hc. rewrite (count_insert _ i (PutTest x)) in Hc by done.
      cbn [for_place] in Hc. split; [intros n En; assert (n = n0) as -> by congruence; lia|]. intros En. congruence.
    + apply (inv_at s i (PutTest x)); try done; counts i (PutTest x); [lia|bounds].
  - relock i (PutWoken x).
  - rewrite (inv_push _ Hi i x Ht) in Hs. injection Hs as <-. pose proof (inv_push _ Hi i x Ht) as Hf.
    pose proof (full_not s Hi Hf) as Hlt. unfold at_, log_put, set_queue; cbn. rewrite (inv_holder _ Hi).
    eapply inv_move; try done; [by left|by right|by rewrite (inv_fifo _ Hi), app_assoc| | |].
    + intros n En. specialize (Hlt n En). rewrite Zlen_app. change (Zlen [x]) with 1. lia.
    + rewrite Zlen_app. change (Zlen [x]) with 1. counts i (PutPush x). lia.
    + rewrite Zlen_app. change (Zlen [x]) with 1. counts i (PutPush x).
      bounds.
  - destruct (notify blocked_take j s) as [s1|] eqn:En; [|done]. injection Hs as <-. by eapply inv_notify_put.
  - injection Hs as <-. apply (inv_unlock s i PutUnlock); try done; counts i PutUnlock; [lia|bounds].
  - relock i TakeLock.
  - destruct (empty s) eqn:Ef; injection Hs as <-.
    + assert (queue_ s = []) as Eq by (unfold empty in Ef; by destruct (queue_ s)).
      apply (inv_unlock s i TakeTest); try done; counts i TakeTest.
      * rewrite Eq. pose proof (count_nonneg for_element (<[i := TakeBlocked]> (threads s))) as Hc.
        rewrite (count_insert _ i TakeTest) in Hc by done. cbn [for_element] in Hc. zlen_nil. lia.
      * bounds.
    + apply (inv_at s i TakeTest); try done; [intros _ Eq; unfold empty in Ef; by rewrite Eq in Ef|..]; counts i TakeTest; [lia|bounds].
  - relock i TakeWoken.
  - destruct (queue_ s) as [|x q] eqn:Eq; [done|]. injection Hs as <-. unfold at_, log_take, set_queue; cbn. rewrite (inv_holder _ Hi).
    rewrite Zlen_cons in *. eapply inv_move; try done; [by left; destruct maxSize|by right| | | | | |].
    + by rewrite (inv_fifo _ Hi), Eq, <- app_assoc.
    + intros n En. pose proof (inv_size _ Hi n En) as Hz. rewrite Eq, Zlen_cons in Hz. lia.
    + by destruct maxSize.
    + by destruct maxSize.
    + counts i TakePop. destruct maxSize; cbn; lia.
    + counts i TakePop. split; [intros n En; specialize (Hp n En); rewrite En; cbn; lia|].
      intros En. specialize (Hb En). rewrite En. cbn. lia.
  - destruct (notify blocked_put j s) as [s1|] eqn:En; [|done]. injection Hs as <-. by eapply inv_notify_take.
  - injection Hs as <-. apply (inv_unlock s i (TakeUnlock x)); try done; counts i (TakeUnlock x); [lia|bounds].
  - relock i (QueryLock q).
  - injection Hs as <-. apply (inv_at s i (QueryRead q)); try done; counts i (QueryRead q); [lia|bounds].
  - injection Hs as <-. apply (inv_unlock s i (QueryUnlock a)); try done; counts i (QueryUnlock a); [lia|bounds].
Qed.

Lemma queue_step_inv e s s' : inv s -> step e s = Some (Ok s') -> inv s'.
Proof.
  intros Hi Hs. pose proof (inv_element _ Hi) as He. pose proof (inv_place _ Hi) as Hp. pose proof (inv_bounded _ Hi) as Hb.
  destruct e as [i x|i|i q|i j|i]; cbn [step] in Hs; destruct (threads s !! i) as [p|] eqn:Ht; try discriminate Hs.
  1-3: destruct p; try discriminate Hs; injection Hs as <-;
    apply (inv_at s i Idle); try done; counts i (@Idle); [lia|bounds].
  - by eapply inv_step_thread.
  - destruct (blocked_put p || blocked_take p) eqn:E; [|done]. injection Hs as <-. by eapply inv_wake.
Qed.

Lemma no_fault e s f : inv s -> step e s <> Some (Err f).
Proof.
  intros Hi Hs. destruct e as [i x|i|i q|i j|i]; cbn [step] in Hs; destruct (threads s !! i) as [p|] eqn:Ht; try discriminate Hs.
  1-3: by destruct p.
  - destruct p; cbn [step_thread] in Hs; try discriminate Hs.
    1, 2, 5, 6, 9: by destruct (lock i s).
    + by rewrite (inv_push _ Hi _ _ Ht) in Hs.
    + by destruct (notify blocked_take j s).
    + destruct (queue_ s) eqn:Eq; [by apply (inv_pop _ Hi i) in Eq|done].
    + by destruct (notify blocked_put j s).
  - by destruct (blocked_put p || blocked_take p).
Qed.

Lemma queue_run_inv l s : inv s -> exists s', run l s = Ok s' /\ inv s'.
Proof.
  revert s. induction l as [|e l IH]; intros s Hi; cbn [run]; [eauto|].
  destruct (step e s) as [[s'|f]|] eqn:Hs; [|by apply no_fault in Hs|by apply IH]. apply IH. by eapply queue_step_inv.
Qed.

Lemma count_idle f n : f (@Idle) = false -> count f (replicate n Idle) = 0.
Proof. intros Hf. induction n as [|n IH]; [done|]. cbn [replicate]. by rewrite count_cons, Hf, IH. Qed.

Lemma queue_init_inv n : (forall m, maxSize = Some m -> 0 <= m) -> inv (init n).
Proof.
  intros Hm. constructor; cbn; try done.
  - intros i p Hi. apply lookup_replicate in Hi as [-> _]. done.
  - intros i x Hi. by apply lookup_replicate in Hi as [? _].
  - intros i Hi. by apply lookup_replicate in Hi as [? _].
  - rewrite count_idle by done. lia.
  - intros m _. rewrite count_idle by done. lia.
  - intros _. by apply count_idle.
Qed.

(** C27: Whatever [n] threads do, in any interleaving and with spurious
    wakeups, no assertion of the queue or of its mutex fails; what has been
    taken, followed by what is in the queue, is what was put, in order (so
    nothing is lost, doubled or reordered); the capacity is kept; and at
    most one thread is in a critical section, the one [holder_] names. *)
Theorem queue_fifo n l : (forall m, maxSize = Some m -> 0 <= m) ->
  exists s, run l (init n) = Ok s /\ puts s = takes s ++ queue_ s /\
    (forall m, maxSize = Some m -> Zlen (queue_ s) <= m) /\
    (forall i p, threads s !! i = Some p -> inside p = isLockedByThisThread i s).
Proof.
  intros Hm. destruct (queue_run_inv l _ (queue_init_inv n Hm)) as (s & Hr & [I1 I2 I3 I4 I5 I6 I7 I8 I9 I10]).
  exists s. split; [done|]. split; [done|]. split; [done|]. intros i p Hi. specialize (I1 i p Hi).
  unfold isLockedByThisThread. rewrite I2. apply eq_bool_prop_intro. rewrite bool_decide_spec, Is_true_true. exact I1.
Qed.

(** A thread in a critical section passes [assertLocked], no other does; and
    the destructors pass their checks exactly when no thread is in a
    critical section or waits in the queue. *)
Theorem mutex_checks n l s : (forall m, maxSize = Some m -> 0 <= m) -> run l (init n) = Ok s ->
  (forall i p, threads s !! i = Some p -> assertLocked i s = if inside p then Ok tt else Err AssertFailed) /\
  (destroy s = Ok tt <->
   forall i p, threads s !! i = Some p -> inside p = false /\ blocked_put p = false /\ blocked_take p = false).
Proof.
  intros Hm Hr. destruct (queue_run_inv l _ (queue_init_inv n Hm)) as (s' & Hr' & Hi). assert (s' = s) as -> by congruence. split.
  - intros i p Hp. pose proof (inv_mutex _ Hi i p Hp) as Hin. unfold assertLocked, isLockedByThisThread. rewrite (inv_holder _ Hi).
    destruct (inside p); [by rewrite bool_decide_true by by apply Hin|]. rewrite bool_decide_false; [done|]. intros E. by apply Hin in E.
  - unfold destroy. rewrite (inv_holder _ Hi). destruct (existsb _ (threads s)) eqn:Eb.
    + split; [done|]. intros Hall. apply existsb_exists in Eb as (p & Hp & Hb). apply list_elem_of_In, list_elem_of_lookup in Hp as [i Hip].
      destruct (Hall i p Hip) as (_ & E1 & E2). by rewrite E1, E2 in Hb.
    + destruct (mutex_ s) as [i|] eqn:Em.
      * split; [done|]. intros Hall. destruct (lookup_lt_is_Some_2 _ _ (inv_owner _ Hi i Em)) as [p Hp].
        destruct (Hall i p Hp) as (E & _). pose proof (proj2 (inv_mutex _ Hi i p Hp) Em). congruence.
      * split; [|done]. intros _ i p Hp. split.
        -- destruct (inside p) eqn:E; [|done]. by apply (inv_mutex _ Hi i p Hp) in E; rewrite Em in E.
        -- apply orb_false_iff. destruct (blocked_put p || blocked_take p) eqn:E; [|done]. exfalso.
           assert (existsb (fun p => blocked_put p || blocked_take p) (threads s) = true) as Ht; [|congruence].
           apply existsb_exists. exists p. split; [|done]. apply list_elem_of_In. by eapply list_elem_of_lookup_2.
Qed.

Lemma holder_enabled s i : inv s -> mutex_ s = Some i -> exists j s', step (Step i j) s = Some (Ok s').
Proof.
  intros Hi Hm. destruct (lookup_lt_is_Some_2 _ _ (inv_owner _ Hi i Hm)) as [p Hp].
  pose proof (proj2 (inv_mutex _ Hi i p Hp) Hm) as Hin. cbn [step]. rewrite Hp.
  assert (forall f q, exists j s', option_map (fun s => Ok (at_ i q s)) (notify f j s) = Some (@Ok t s')) as Hn.
  { intros f q. unfold notify. destruct (existsb f (threads s)) eqn:E; [|exists O; eexists; reflexivity].
    apply existsb_count, count_find in E as (j & r & Hj & Hr). exists j. rewrite Hj, Hr. eexists. reflexivity. }
  destruct p; try discriminate Hin; cbn [step_thread]; try apply Hn; exists O; try (eexists; reflexivity).
  - rewrite (inv_push _ Hi _ _ Hp). eexists. reflexivity.
  - destruct (queue_ s) eqn:Eq; [by apply (inv_pop _ Hi i) in Eq|]. eexists. reflexivity.
Qed.

(** C16: No wakeup is lost and nobody deadlocks: when no thread can go on,
    the mutex is free and every thread is outside of the queue, except
    takers that wait while the queue is empty and putters that wait while
    it is full. *)
Theorem no_deadlock n l s : (forall m, maxSize = Some m -> 0 <= m) -> run l (init n) = Ok s ->
  (forall i j, step (Step i j) s = None) ->
  mutex_ s = None /\ forall i p, threads s !! i = Some p ->
    p = Idle \/ p = TakeBlocked /\ queue_ s = [] \/ (exists x, p = PutBlocked x) /\ maxSize = Some (Zlen (queue_ s)).
Proof.
  intros Hm Hr Hstuck. destruct (queue_run_inv l _ (queue_init_inv n Hm)) as (s' & Hr' & Hi).
  assert (s' = s) as -> by congruence.
  assert (mutex_ s = None) as Hfree.
  { destruct (mutex_ s) as [i|] eqn:E; [|done]. destruct (holder_enabled s i Hi E) as (j & s' & Hs). by rewrite Hstuck in Hs. }
  split; [done|].
  assert (forall i p, threads s !! i = Some p -> p = Idle \/ p = TakeBlocked \/ exists x, p = PutBlocked x) as Hp.
  { intros i p Hip. pose proof (inv_mutex _ Hi i p Hip) as Hin. rewrite Hfree in Hin.
    pose proof (Hstuck i O) as Hs. cbn [step] in Hs. rewrite Hip in Hs.
    destruct p; cbn [step_thread] in Hs; unfold lock in Hs; try rewrite Hfree in Hs; try discriminate Hs; eauto;
      exfalso; by destruct Hin as [Hin _]; specialize (Hin eq_refl). }
  assert (forall f, f Idle = false -> f TakeBlocked = false -> (forall x, f (PutBlocked x) = false) ->
    count f (threads s) = 0) as Hc.
  { intros f F1 F2 F3. pose proof (count_nonneg f (threads s)). destruct (decide (count f (threads s) = 0)) as [|Hne]; [done|].
    destruct (count_find f (threads s)) as (i & p & Hip & Hf); [lia|].
    destruct (Hp i p Hip) as [->|[->|[x ->]]]; congruence. }
  intros i p Hip. destruct (Hp i p Hip) as [->|[->|[x ->]]]; [by left|right; left|right; right].
  - split; [done|]. apply Zlen_0_nil. pose proof (inv_element _ Hi (count_pos _ _ _ _ Hip eq_refl)) as He.
    rewrite Hc in He by done. pose proof (Zlen_nonneg (queue_ s)). lia.
  - split; [eauto|]. pose proof (count_pos blocked_put _ _ _ Hip eq_refl) as Hpos.
    destruct maxSize as [m|] eqn:Em; [|rewrite (inv_bounded _ Hi Em) in Hpos; lia].
    pose proof (inv_place _ Hi m Em Hpos) as Hpl. rewrite Hc in Hpl by done. pose proof (inv_size _ Hi m Em). f_equal. lia.
Qed.
End queue.

(** A bounded queue of one place; two putters and a taker. *)
Definition sample_events : list (@event Z) :=
  [Put 0 5%Z; Put 1 6%Z; Take 2; Step 2 0; Step 2 0; Step 0 0; Step 0 0; Step 0 0; Step 0 2; Step 0 0;
   Step 1 0; Step 1 0; Step 2 0; Step 2 0; Step 2 0; Step 2 1; Step 2 0]%nat.

Lemma queue_fifo_witness : exists s, run (Some 1) sample_events (init 3) = Ok s /\
  takes s = [5] /\ queue_ s = [] /\ threads s !! 1%nat = Some (PutWoken 6) /\ puts s = takes s ++ queue_ s.
Proof.
  destruct (queue_fifo (Some 1) 3 sample_events) as (s & E & Hf & _); [by intros m [= <-]|].
  assert (match run (Some 1) sample_events (init 3) with
          | Ok s => takes s = [5] /\ queue_ s = [] /\ threads s !! 1%nat = Some (PutWoken 6) | Err _ => False end) as G
    by (vm_compute; repeat split).
  rewrite E in G. exists s. destruct G as (G1 & G2 & G3). exact (conj E (conj G1 (conj G2 (conj G3 Hf)))).
Defined.

(** The first putter filled the queue, the second waits, the taker has not come. *)
Definition sample_full : @t Z := mk None None [5] [Idle; PutBlocked 6; Idle] [5] [].
Lemma no_deadlock_witness :
  run (Some 1) [Put 0 5%Z; Put 1 6%Z; Step 0 0; Step 0 0; Step 0 0; Step 0 0; Step 0 0; Step 1 0; Step 1 0]%nat (init 3) = Ok sample_full /\
  forall x, threads sample_full !! 1%nat = Some (PutBlocked x) -> Some 1 = Some (Zlen (queue_ sample_full)).
Proof.
  split; [vm_compute; reflexivity|]. intros x Hx.
  destruct (no_deadlock (Some 1) 3 [Put 0 5%Z; Put 1 6%Z; Step 0 0; Step 0 0; Step 0 0; Step 0 0; Step 0 0; Step 1 0; Step 1 0]%nat
    sample_full) as [_ H]; [by intros m [= <-]|vm_compute; reflexivity|by intros [|[|[|i]]] j|].
  destruct (H _ _ Hx) as [?|[[? _]|[_ ?]]]; [discriminate|discriminate|done].
Defined.

(** The unbounded queue: no [notFull_], nobody waits to put. *)
Definition BlockingQueue_step {T : Type} : @event T -> t -> option (result t) := step None.
Definition BlockingQueue_run {T : Type} : list (@event T) -> t -> result t := run None.


Lemma mutex_checks_witness : exists s,
  run (Some 1) [Put 0 5%Z; Step 0 0; Query 1 Size; Step 1 0]%nat (init 2) = Ok s /\ assertLocked 0 s = Ok tt /\
  destroy s <> Ok tt.
Proof.
  eexists. split; [vm_compute; reflexivity|].
  destruct (mutex_checks (Some 1) 2 [Put 0 5%Z; Step 0 0; Query 1 Size; Step 1 0]%nat _ ltac:(by intros m [= <-]) eq_refl) as [H1 [H2 _]].
  split; [exact (H1 O _ eq_refl)|]. intros Hd. by destruct (H2 Hd O _ eq_refl).
Defined.
End BlockingQueue.
