(* ===== verification/Singleton.v ===== *)
(** * Singletons (Singleton.h)

    [Singleton::instance] called by any number of threads, a statement of one
    thread at a time, over pthread_once(3) and atexit(3).  [alloc] is
    [new T()]: an address, given the objects made before. *)
From S2P Require Import Prelude.

Module Singleton.

(** [pthread_once_t]: PTHREAD_ONCE_INIT, a thread in [init], or done. *)
Inductive once : Type := Never | Running (i : nat) | Done.

Inductive pc : Type :=
| Idle
| Once                 (* pthread_once(&ponce_, &Singleton::init) *)
| InitNew              (* value_ = new T() *)
| InitAtexit           (* ::atexit(destroy), and back from pthread_once *)
| Return               (* return *value_ *)
| Got (p : Z).         (* instance() returned *)

Record t : Type := mk {
  ponce_ : once;
  value_ : option Z;
  threads : list pc;
  made : list Z;         (* the objects that were constructed *)
  handlers : nat;        (* registered with atexit *)
  deleted : list Z;
  exited : bool }.

Definition init (n : nat) : t := mk Never None (replicate n Idle) [] 0 [] false.
Definition at_ (i : nat) (p : pc) (s : t) : t :=
  mk (ponce_ s) (value_ s) (<[i := p]> (threads s)) (made s) (handlers s) (deleted s) (exited s).
Definition set_once v (s : t) : t := mk v (value_ s) (threads s) (made s) (handlers s) (deleted s) (exited s).

Section machine.
Context (alloc : gset Z -> Z).

(** [Singleton::init], its two statements. *)
Definition make_value (s : t) : t :=
  let p := alloc (list_to_set (made s)) in
  mk (ponce_ s) (Some p) (threads s) (made s ++ [p]) (handlers s) (deleted s) (exited s).
Definition register (s : t) : t :=
  mk (ponce_ s) (value_ s) (threads s) (made s) (S (handlers s)) (deleted s) (exited s).

Definition instance (i : nat) (p : pc) (s : t) : option (result t) :=
  match p with
  | Idle | Got _ => None
  | Once => match ponce_ s with
            | Never => Some (Ok (at_ i InitNew (set_once (Running i) s)))
            | Running _ => None
            | Done => Some (Ok (at_ i Return s))
            end
  | InitNew => Some (Ok (at_ i InitAtexit (make_value s)))
  | InitAtexit => Some (Ok (at_ i Return (set_once Done (register s))))
  | Return => Some match value_ s with Some p => Ok (at_ i (Got p) s) | None => Err Undefined end
  end.

(** [Singleton::destroy]: [delete value_], which leaves the pointer. *)
Definition destroy (s : t) : t :=
  mk (ponce_ s) (value_ s) (threads s) (made s) (handlers s)
    (deleted s ++ match value_ s with Some p => [p] | None => [] end) (exited s).
Definition exit (s : t) : t :=
  let s' := Nat.iter (handlers s) destroy s in
  mk (ponce_ s') (value_ s') (threads s') (made s') 0 (deleted s') true.

Inductive event : Type :=
| Call (i : nat)       (* thread [i] calls instance() *)
| Step (i : nat)       (* thread [i] goes on *)
| Exit.                (* the process exits *)

Definition step (e : event) (s : t) : option (result t) :=
  if exited s then None
  else match e with
       | Call i => match threads s !! i with Some (Idle | Got _) => Some (Ok (at_ i Once s)) | _ => None end
       | Step i => match threads s !! i with Some p => instance i p s | None => None end
       | Exit => Some (Ok (exit s))
       end.
Fixpoint run (l : list event) (s : t) : result t :=
  match l with
  | [] => Ok s
  | e :: l => match step e s with
              | None => run l s
              | Some (Ok s') => run l s'
              | Some (Err f) => Err f
              end
  end.

(** The one object. *)
Definition object : Z := alloc ∅.

Definition outside (p : pc) : Prop := p = Idle \/ p = Once.
Definition served (p : pc) : Prop := outside p \/ p = Return \/ p = Got object.

(** [pthread_once] has been called; every thread but [j] satisfies [P]. *)
Definition others (j : option nat) (P : pc -> Prop) (s : t) : Prop :=
  forall i p, Some i <> j -> threads s !! i = Some p -> P p.

Record inv (s : t) : Prop := {
  inv_phase : match ponce_ s with
    | Never => made s = [] /\ value_ s = None /\ others None outside s
    | Running j => others (Some j) outside s /\
        (threads s !! j = Some InitNew /\ made s = [] /\ value_ s = None \/
         threads s !! j = Some InitAtexit /\ made s = [object] /\ value_ s = Some object)
    | Done => made s = [object] /\ value_ s = Some object /\ others None served s
    end;
  inv_exit : if exited s then handlers s = O /\ deleted s = match ponce_ s with Done => [object] | _ => [] end
             else handlers s = (match ponce_ s with Done => 1 | _ => 0 end)%nat /\ deleted s = [] }.

Lemma others_at j P i p s : others j P s -> P p \/ Some i = j -> others j P (at_ i p s).
Proof.
  intros Ho Hp k q Hk. cbn. rewrite list_lookup_insert_Some. intros [(<- & <- & _)|[_ Hq]]; [by destruct Hp|].
  by apply (Ho k).
Qed.
Lemma others_weaken j (P Q : pc -> Prop) s s' : threads s' = threads s -> (forall p, P p -> Q p) -> others j P s -> others j Q s'.
Proof. unfold others. intros -> HPQ Ho i p Hi Hp. apply HPQ. by eapply Ho. Qed.
Lemma others_all j (P : pc -> Prop) s : others (Some j) P s -> (forall p, threads s !! j = Some p -> P p) -> others None P s.
Proof. intros Ho Hj i p _ Hp. destruct (decide (i = j)) as [->|]; [auto|]. apply (Ho i); [congruence|done]. Qed.

Lemma at_same i p s : is_Some (threads s !! i) -> threads (at_ i p s) !! i = Some p.
Proof. intros Hi. apply list_lookup_insert_eq. by apply lookup_lt_is_Some. Qed.

Lemma inv_instance i p s s' : inv s -> exited s = false -> threads s !! i = Some p -> instance i p s = Some (Ok s') -> inv s'.
Proof.
  intros [Hp He] Hx Hi Hs. rewrite Hx in He. destruct p; cbn [instance] in Hs; try discriminate Hs.
  - destruct (ponce_ s) as [|j|] eqn:Eo; [| |]; try discriminate Hs; injection Hs as <-.
    + destruct Hp as (Hm & Hv & Ho). constructor; cbn; [|by rewrite Hx].
      split; [|left; split; [by apply (at_same i InitNew s)|done]].
      apply (others_at (Some i) outside i InitNew s); [|by right]. intros k q _. by apply Ho.
    + destruct Hp as (Hm & Hv & Ho). constructor; cbn; rewrite ?Eo, ?Hx; [|done].
      split; [done|]. split; [done|]. apply others_at; [done|]. left. right. by left.
  - injection Hs as <-. destruct (ponce_ s) as [|j|] eqn:Eo.
    + destruct Hp as (_ & _ & Ho). by destruct (Ho i InitNew ltac:(done) Hi).
    + destruct Hp as [Ho Hor]. destruct (decide (i = j)) as [->|Hne].
      2: { by destruct (Ho i InitNew ltac:(congruence) Hi). }
      destruct Hor as [(_ & Hm & Hv)|(Hj & _)]; [|congruence]. constructor; cbn; rewrite Eo, ?Hx; [|done].
      split; [apply (others_at (Some j) outside j InitAtexit s); [done|by right]|]. right.
      split; [by apply (at_same j InitAtexit s)|]. by rewrite Hm.
    + destruct Hp as (_ & _ & Ho). by destruct (Ho i InitNew ltac:(done) Hi) as [[?|?]|[?|?]].
  - injection Hs as <-. destruct (ponce_ s) as [|j|] eqn:Eo.
    + destruct Hp as (_ & _ & Ho). by destruct (Ho i InitAtexit ltac:(done) Hi).
    + destruct Hp as [Ho Hor]. destruct (decide (i = j)) as [->|Hne].
      2: { by destruct (Ho i InitAtexit ltac:(congruence) Hi). }
      destruct Hor as [(Hj & _)|(_ & Hm & Hv)]; [congruence|]. constructor; cbn; rewrite ?Hx.
      * split; [done|]. split; [done|]. apply (others_all j).
        -- apply (others_at (Some j) served j Return s); [|by right]. eapply others_weaken; [done| |exact Ho]. by left.
        -- intros p Hp. cbn in Hp. rewrite list_lookup_insert_eq in Hp by (by eapply lookup_lt_Some).
           injection Hp as <-. right. by left.
      * destruct He as [-> ->]. done.
    + destruct Hp as (_ & _ & Ho). by destruct (Ho i InitAtexit ltac:(done) Hi) as [[?|?]|[?|?]].
  - destruct (value_ s) as [p|] eqn:Ev; [|discriminate Hs]. injection Hs as <-.
    destruct (ponce_ s) as [|j|] eqn:Eo.
    + by destruct Hp as (_ & ? & _).
    + destruct Hp as [Ho Hor]. destruct (decide (i = j)) as [->|Hne].
      * destruct Hor as [(Hj & _)|(Hj & _)]; congruence.
      * by destruct (Ho i Return ltac:(congruence) Hi).
    + destruct Hp as (Hm & [= ->] & Ho). constructor; cbn; rewrite ?Eo, ?Hx; [|done].
      split; [done|]. split; [done|]. apply others_at; [done|]. left. right. by right.
Qed.

Lemma instance_ok i p s : inv s -> threads s !! i = Some p -> forall f, instance i p s <> Some (Err f).
Proof.
  intros [Hp _] Hi f. destruct p; cbn; try done; [by destruct (ponce_ s)|].
  destruct (value_ s) as [v|] eqn:Ev; [done|]. destruct (ponce_ s) as [|j|].
  - destruct Hp as (_ & _ & Ho). by destruct (Ho i Return ltac:(done) Hi).
  - destruct Hp as [Ho Hor]. destruct (decide (i = j)) as [->|Hne].
    + destruct Hor as [(Hj & _)|(Hj & _)]; congruence.
    + by destruct (Ho i Return ltac:(congruence) Hi).
  - by destruct Hp as (_ & ? & _).
Qed.

Lemma once_inv_step e s s' : inv s -> step e s = Some (Ok s') -> inv s'.
Proof.
  intros Hi Hs. unfold step in Hs. destruct (exited s) eqn:Hx; [done|]. destruct e as [i|i|].
  - destruct (threads s !! i) as [p|] eqn:Ep; [|done].
    assert (p = Idle \/ exists v, p = Got v) as Hp by (destruct p; try discriminate Hs; eauto).
    assert (s' = at_ i Once s) as -> by (destruct Hp as [->|[v ->]]; congruence).
    destruct Hi as [Hph He]. constructor; cbn; [|exact He]. destruct (ponce_ s) as [|j|].
    + destruct Hph as (? & ? & ?). split; [done|]. split; [done|]. apply others_at; [done|]. left. by right.
    + destruct Hph as [Ho Hor]. split; [apply others_at; [done|]; left; by right|].
      assert (i <> j) as Hne by (intros ->; destruct Hor as [(E & _)|(E & _)], Hp as [->|[v ->]]; congruence).
      by rewrite list_lookup_insert_ne.
    + destruct Hph as (? & ? & ?). split; [done|]. split; [done|]. apply others_at; [done|]. left. left. by right.
  - destruct (threads s !! i) as [p|] eqn:Ep; [|done]. by eapply inv_instance.
  - injection Hs as <-. destruct Hi as [Hph He]. rewrite Hx in He. destruct He as [Hh Hd].
    unfold exit. rewrite Hh. constructor; destruct (ponce_ s) as [|j|] eqn:Eo; cbn; rewrite ?Eo, ?Hd; cbn; try done.
    destruct Hph as (_ & -> & _). done.
Qed.

Lemma step_ok e s f : inv s -> step e s <> Some (Err f).
Proof.
  intros Hi. unfold step. destruct (exited s); [done|]. destruct e as [i|i|]; [|destruct (threads s !! i) as [p|] eqn:Ep; [by apply instance_ok|done]|done].
  destruct (threads s !! i) as [[]|]; done.
Qed.

Lemma run_inv l s : inv s -> exists s', run l s = Ok s' /\ inv s'.
Proof.
  revert s. induction l as [|e l IH]; intros s Hi; cbn [run]; [by exists s|].
  pose proof (step_ok e s) as Hok. destruct (step e s) as [[s'|f]|] eqn:Es; [|by destruct (Hok f Hi)|by apply IH].
  apply IH. by eapply once_inv_step.
Qed.

Lemma once_init_inv n : inv (init n).
Proof.
  constructor; [|done]. split; [done|]. split; [done|]. intros i p _ Hp. cbn in Hp. apply lookup_replicate in Hp as [-> _]. by left.
Qed.

Definition between (p : pc) : bool := match p with Idle | Got _ => false | _ => true end.

(** C37: However any number of threads call [instance] and interleave, at
    most one object is made and every call that returns gives that object
    (none reads a null pointer); while a call is under way some thread can
    go on; and the exit of the process deletes exactly the object that
    finished its construction, once. *)
Theorem instance_once n l : exists s, run l (init n) = Ok s /\
  (made s = [] \/ made s = [object]) /\
  (forall i p, threads s !! i = Some (Got p) -> p = object) /\
  (exited s = false -> forall i p, threads s !! i = Some p -> between p = true ->
     exists j s', step (Step j) s = Some (Ok s')) /\
  deleted s = (if exited s then match ponce_ s with Done => made s | _ => [] end else []).
Proof.
  destruct (run_inv l (init n) (once_init_inv n)) as (s & Hr & Hi). exists s. split; [done|]. pose proof Hi as [Hp He].
  assert (forall j q, threads s !! j = Some q -> exited s = false -> instance j q s <> None -> exists s', step (Step j) s = Some (Ok s')) as Hgo.
  { intros j q Hj Hx Hq. pose proof (instance_ok j q s Hi Hj) as Hok. unfold step. rewrite Hx, Hj.
    destruct (instance j q s) as [[s'|f]|]; [by exists s'|by destruct (Hok f)|done]. }
  destruct (ponce_ s) as [|j|] eqn:Eo.
  - destruct Hp as (Hm & Hv & Ho). split; [by left|]. split; [|split].
    + intros i p Hip. by destruct (Ho i _ ltac:(done) Hip).
    + intros Hx i p Hip Hb. exists i. apply (Hgo i p); [done..|]. destruct (Ho i p ltac:(done) Hip) as [-> | ->]; [done|].
      cbn. by rewrite Eo.
    + by destruct (exited s); destruct He.
  - destruct Hp as [Ho Hor]. split; [destruct Hor as [(_ & ? & _)|(_ & ? & _)]; auto|]. split; [|split].
    + intros i p Hip. destruct (decide (i = j)) as [->|Hne].
      * destruct Hor as [(Hj & _)|(Hj & _)]; congruence.
      * by destruct (Ho i _ ltac:(congruence) Hip).
    + intros Hx i p Hip Hb. exists j. destruct Hor as [(Hj & _)|(Hj & _)]; by apply (Hgo j _ Hj Hx).
    + by destruct (exited s); destruct He.
  - destruct Hp as (Hm & Hv & Ho). split; [by right|]. split; [|split].
    + intros i p Hip. destruct (Ho i _ ltac:(done) Hip) as [[?|?]|[?|[= ->]]]; done.
    + intros Hx i p Hip Hb. exists i. apply (Hgo i p); [done..|].
      destruct (Ho i p ltac:(done) Hip) as [[-> | ->]|[-> | ->]]; cbn; rewrite ?Eo; done.
    + destruct (exited s); destruct He; by rewrite ?Hm.
Qed.
End machine.
End Singleton.
