(* ===== verification/ThreadLocal.v ===== *)
(** * Objects of a thread (ThreadLocal.h, ThreadLocalSingleton.h)

    The object each thread gets at its first call, deleted by the destructor
    of a pthread key when the thread exits.  [ThreadLocal] keeps it under
    the key only, [ThreadLocalSingleton] in a [__thread] variable as well.
    [alloc] is [new T()]: an address that no live object has. *)
From S2P Require Import Prelude.

Module ThreadLocal.

(** The values of the key in each thread (no entry: NULL), and the objects
    that exist. *)
Record t : Type := mk { values : gmap nat Z; live : gset Z }.
Definition init : t := mk ∅ ∅.

Section operations.
Context (alloc : gset Z -> Z).

Definition new_T : M t Z :=
  let* s := get in
  let p := alloc (live s) in
  modify (fun s => mk (values s) ({[p]} ∪ live s)) ;;;
  ret p.
Definition delete_T (p : Z) : M t unit :=
  let* s := get in
  if decide (p ∈ live s) then modify (fun s => mk (values s) (live s ∖ {[p]})) else throw Undefined.

Definition value (i : nat) : M t Z :=
  let* s := get in
  match values s !! i with
  | Some p => ret p
  | None =>
      let* newObj := new_T in
      modify (fun s => mk (<[i := newObj]> (values s)) (live s)) ;;;
      ret newObj
  end.

(** The destructor of the key, called with its value when a thread exits,
    the value already NULL. *)
Definition destructor (x : Z) : M t unit := delete_T x.
Definition thread_exit (i : nat) : M t unit :=
  let* s := get in
  match values s !! i with
  | Some p => modify (fun s => mk (delete i (values s)) (live s)) ;;; destructor p
  | None => ret tt
  end.

(** [~ThreadLocal]: without a key no thread has a value, and
    pthread_key_delete(3) calls no destructor. *)
Definition destroy : M t unit := modify (fun s => mk ∅ (live s)).

(** What threads still have when the ThreadLocal goes is never deleted: the
    exits of the threads leave it. *)
Theorem destroy_leaks l s : (destroy ;;; for_each thread_exit l) s = Ok (tt, mk ∅ (live s)).
Proof.
  unfold destroy, bind, modify. induction l as [|i l IH]; [done|]. cbn [for_each]. unfold bind, thread_exit, get.
  cbn. rewrite lookup_empty. exact IH.
Qed.
End operations.
End ThreadLocal.

Module ThreadLocalSingleton.

(** [t_value_] and the value of the deleter's key in each thread. *)
Record singleton_t : Type := mk { t_value_ : gmap nat Z; pkey_ : gmap nat Z; live : gset Z }.
Definition init : singleton_t := mk ∅ ∅ ∅.

Section operations.
Context (alloc : gset Z -> Z).

Definition new_T : M singleton_t Z :=
  let* s := get in
  let p := alloc (live s) in
  modify (fun s => mk (t_value_ s) (pkey_ s) ({[p]} ∪ live s)) ;;;
  ret p.
Definition delete_T (p : Z) : M singleton_t unit :=
  let* s := get in
  if decide (p ∈ live s) then modify (fun s => mk (t_value_ s) (pkey_ s) (live s ∖ {[p]})) else throw Undefined.

(** [Deleter::set]. *)
Definition set (i : nat) (newObj : Z) : M singleton_t unit :=
  let* s := get in
  assert_ (bool_decide (pkey_ s !! i = None)) ;;;
  modify (fun s => mk (t_value_ s) (<[i := newObj]> (pkey_ s)) (live s)).
Definition instance (i : nat) : M singleton_t Z :=
  let* s := get in
  match t_value_ s !! i with
  | Some p => ret p
  | None =>
      let* p := new_T in
      modify (fun s => mk (<[i := p]> (t_value_ s)) (pkey_ s) (live s)) ;;;
      set i p ;;;
      ret p
  end.
Definition pointer (i : nat) : M singleton_t (option Z) := let* s := get in ret (t_value_ s !! i).

Definition obj_destructor (i : nat) (obj : Z) : M singleton_t unit :=
  let* s := get in
  assert_ (bool_decide (t_value_ s !! i = Some obj)) ;;;
  match t_value_ s !! i with Some p => delete_T p | None => ret tt end ;;;
  modify (fun s => mk (delete i (t_value_ s)) (pkey_ s) (live s)).
Definition thread_exit (i : nat) : M singleton_t unit :=
  let* s := get in
  match pkey_ s !! i with
  | Some p => modify (fun s => mk (t_value_ s) (delete i (pkey_ s)) (live s)) ;;; obj_destructor i p
  | None => ret tt
  end.

(** [~Deleter], of the static [deleter_], when the program ends: likewise
    (an [instance] after it would use a deleted key). *)
Definition Deleter_destroy : M singleton_t unit := modify (fun s => mk (t_value_ s) ∅ (live s)).

Theorem Deleter_destroy_leaks l s : (Deleter_destroy ;;; for_each thread_exit l) s = Ok (tt, mk (t_value_ s) ∅ (live s)).
Proof.
  unfold Deleter_destroy, bind, modify. induction l as [|i l IH]; [done|]. cbn [for_each]. unfold bind, thread_exit, get.
  cbn. rewrite lookup_empty. exact IH.
Qed.
End operations.
End ThreadLocalSingleton.

Section threads.
Context (alloc : gset Z -> Z).
Hypothesis alloc_new : forall l, alloc l ∉ l.

Inductive call : Type := Get (i : nat) | ThreadExit (i : nat).

(** The calls in order, with the objects they return. *)
Definition answer {S} (get_ : nat -> M S Z) (exit_ : nat -> M S unit) (c : call) : M S (list Z) :=
  match c with
  | Get i => let* p := get_ i in ret [p]
  | ThreadExit i => exit_ i ;;; ret []
  end.
Fixpoint answers {S} (get_ : nat -> M S Z) (exit_ : nat -> M S unit) (l : list call) : M S (list Z) :=
  match l with
  | [] => ret []
  | c :: l => let* r := answer get_ exit_ c in let* rs := answers get_ exit_ l in ret (r ++ rs)
  end.
Definition thread_local : list call -> M ThreadLocal.t (list Z) := answers (ThreadLocal.value alloc) ThreadLocal.thread_exit.
Definition thread_local_singleton : list call -> M ThreadLocalSingleton.singleton_t (list Z) :=
  answers (ThreadLocalSingleton.instance alloc) ThreadLocalSingleton.thread_exit.

(** Each thread its own object, and no other object exists. *)
Definition own (m : gmap nat Z) (live : gset Z) : Prop :=
  (forall i p, m !! i = Some p -> p ∈ live) /\ (forall p, p ∈ live -> exists i, m !! i = Some p) /\
  (forall i j p, m !! i = Some p -> m !! j = Some p -> i = j).

Definition related (s : ThreadLocal.t) (s' : ThreadLocalSingleton.singleton_t) : Prop :=
  own (ThreadLocal.values s) (ThreadLocal.live s) /\ ThreadLocalSingleton.live s' = ThreadLocal.live s /\
  ThreadLocalSingleton.t_value_ s' = ThreadLocal.values s /\ ThreadLocalSingleton.pkey_ s' = ThreadLocal.values s.

Lemma own_insert m live i : own m live -> m !! i = None -> own (<[i := alloc live]> m) ({[alloc live]} ∪ live).
Proof.
  intros (O1 & O2 & O3) Hi. pose proof (alloc_new live) as Hn. split; [|split].
  - intros j p. rewrite lookup_insert. case_decide; [intros [= <-]; set_solver|]. intros Hj. apply O1 in Hj. set_solver.
  - intros p [->%elem_of_singleton|Hp]%elem_of_union; [exists i; apply lookup_insert_eq|].
    destruct (O2 p Hp) as [j Hj]. exists j. rewrite lookup_insert_ne; [done|congruence].
  - intros j k p. rewrite !lookup_insert. repeat case_decide; subst; try done.
    + intros [= <-] Hk. by apply O1 in Hk.
    + intros Hj [= <-]. by apply O1 in Hj.
    + by apply O3.
Qed.
Lemma own_delete m live i p : own m live -> m !! i = Some p -> own (delete i m) (live ∖ {[p]}).
Proof.
  intros (O1 & O2 & O3) Hi. split; [|split].
  - intros j q [Hne Hj]%lookup_delete_Some. apply elem_of_difference. split; [by eapply O1|].
    intros ->%elem_of_singleton. by apply Hne, (O3 i j p).
  - intros q [Hq Hne]%elem_of_difference. destruct (O2 q Hq) as [j Hj]. exists j. apply lookup_delete_Some.
    split; [|done]. intros ->. set_solver.
  - intros j k q [_ Hj]%lookup_delete_Some [_ Hk]%lookup_delete_Some. by eapply O3.
Qed.

Lemma answer_related c s s' : related s s' -> exists r t t',
  answer (ThreadLocal.value alloc) ThreadLocal.thread_exit c s = Ok (r, t) /\
  answer (ThreadLocalSingleton.instance alloc) ThreadLocalSingleton.thread_exit c s' = Ok (r, t') /\ related t t'.
Proof.
  intros (Ho & E1 & E2 & E3). destruct c as [i|i]; cbn [answer];
    unfold ThreadLocal.value, ThreadLocal.thread_exit, ThreadLocal.new_T, ThreadLocal.destructor, ThreadLocal.delete_T,
      ThreadLocalSingleton.instance, ThreadLocalSingleton.thread_exit, ThreadLocalSingleton.new_T, ThreadLocalSingleton.set,
      ThreadLocalSingleton.obj_destructor, ThreadLocalSingleton.delete_T, bind, get, modify, ret, assert_; cbn; rewrite ?E2, ?E3;
    destruct (ThreadLocal.values s !! i) as [p|] eqn:Hi; cbn.
  - exists [p], s, s'. split; [done|]. split; [done|]. by split.
  - rewrite bool_decide_true by (cbn; by rewrite E3). cbn. rewrite E1, E2, E3. eexists _, _, _. split; [reflexivity|].
    split; [reflexivity|]. split; [by apply own_insert|done].
  - pose proof (proj1 Ho i p Hi) as Hp. rewrite decide_True by done. cbn. rewrite bool_decide_true by (cbn; by rewrite E2).
    cbn. rewrite E2, Hi. cbn. rewrite E1, decide_True by done. cbn. rewrite E3. eexists _, _, _. split; [reflexivity|]. split; [reflexivity|].
    split; [by apply own_delete|done].
  - exists [], s, s'. split; [done|]. split; [done|]. by split.
Qed.

(** C38: [ThreadLocal::value] and [ThreadLocalSingleton::instance], under any
    sequence of calls and thread exits, fail no assertion, delete nothing
    twice and give the same answers: at every moment each thread that has
    called has an object of its own, no two threads share one, and no
    other object exists. *)
Theorem thread_objects l : exists r s s', thread_local l ThreadLocal.init = Ok (r, s) /\
  thread_local_singleton l ThreadLocalSingleton.init = Ok (r, s') /\
  own (ThreadLocal.values s) (ThreadLocal.live s) /\
  ThreadLocalSingleton.t_value_ s' = ThreadLocal.values s /\ ThreadLocalSingleton.live s' = ThreadLocal.live s.
Proof.
  assert (forall l s s', related s s' -> exists r t t', thread_local l s = Ok (r, t) /\
    thread_local_singleton l s' = Ok (r, t') /\ related t t') as Hall.
  { clear l. induction l as [|c l IH]; intros s s' Hr; [by exists [], s, s'|].
    destruct (answer_related c s s' Hr) as (r & t & t' & E & E' & Ht). destruct (IH t t' Ht) as (rs & u & u' & F & F' & Hu).
    exists (r ++ rs), u, u'. unfold thread_local, thread_local_singleton in *. cbn [answers]. unfold bind.
    rewrite E, E', F, F'. done. }
  destruct (Hall l ThreadLocal.init ThreadLocalSingleton.init) as (r & s & s' & E & E' & Ho & E1 & E2 & _).
  - split; [|done]. split; [intros i p; cbn; by rewrite lookup_empty|]. split; [set_solver|intros i j p; cbn; by rewrite lookup_empty].
  - by exists r, s, s'.
Qed.
End threads.

(** Two threads; the first exits and comes back. *)
Definition sample_alloc (l : gset Z) : Z := 1 + foldr Z.max 0 (elements l).
Lemma sample_alloc_new l : sample_alloc l ∉ l.
Proof.
  assert (forall k x, x ∈ k -> x <= foldr Z.max 0 k) as Hmax.
  { induction k as [|y k IH]; [by intros x ?%not_elem_of_nil|]. cbn [foldr]. intros x [->|Hx]%elem_of_cons; [lia|].
    specialize (IH x Hx). lia. }
  unfold sample_alloc. intros Hin%elem_of_elements%Hmax. lia.
Qed.

Lemma thread_objects_witness : exists r s s',
  thread_local sample_alloc [Get 1; Get 2; Get 1; ThreadExit 1; Get 2; Get 1] ThreadLocal.init = Ok (r, s) /\
  thread_local_singleton sample_alloc [Get 1; Get 2; Get 1; ThreadExit 1; Get 2; Get 1] ThreadLocalSingleton.init = Ok (r, s') /\
  r = [1; 2; 1; 2; 3].
Proof.
  destruct (thread_objects sample_alloc sample_alloc_new [Get 1; Get 2; Get 1; ThreadExit 1; Get 2; Get 1])
    as (r & s & s' & E & E' & _). exists r, s, s'. split; [exact E|]. split; [exact E'|].
  assert (match thread_local sample_alloc [Get 1; Get 2; Get 1; ThreadExit 1; Get 2; Get 1] ThreadLocal.init with
    | Ok (r, _) => r = [1; 2; 1; 2; 3] | Err _ => False end) as G by (by vm_compute).
  by rewrite E in G.
Defined.
