(* ===== verification/LogStream.v ===== *)
(** * Log streams (LogStream.h, and SourceFile of Logging.h)

    The fixed buffer a log line is built in, the inserters that the headers
    define, and the base name of a source file.  [SIZE] is the template
    argument; the formatting of numbers is not in the repository. *)
From S2P Require Import Prelude StringPiece.

Module LogStream.

Definition kSmallBuffer : Z := 4000.
Definition kLargeBuffer : Z := 4000 * 1000.

(** [data_] and [cur_ - data_]. *)
Record FixedBuffer : Type := mk { data_ : list byte; cur_ : Z }.

Section buffer.
Context (SIZE : Z).
Implicit Types (b : FixedBuffer).

Definition make (garbage : list byte) : FixedBuffer := mk garbage 0.
Definition length_ b : Z := s32 (cur_ b).
Definition avail b : Z := s32 (SIZE - cur_ b).
Definition current b : Z := cur_ b.
Definition add (len : Z) b : FixedBuffer := mk (data_ b) (cur_ b + len).
Definition reset b : FixedBuffer := mk (data_ b) 0.
Definition bzero b : FixedBuffer := mk (replicate (Z.to_nat SIZE) x00) (cur_ b).
Definition asString b : result (list byte) :=
  if (0 <=? length_ b) && (length_ b <=? Zlen (data_ b)) then Ok (ztake (length_ b) (data_ b)) else Err Undefined.

(** [append(buf, len)], [len] a [size_t]. *)
Definition append (buf : cptr) (len : Z) : M FixedBuffer unit :=
  let* b := get in
  if len <? u64 (avail b) then
    let* d := lift (load buf len) in
    if (0 <=? cur_ b) && (cur_ b + len <=? SIZE) then
      put (mk (ztake (cur_ b) (data_ b) ++ d ++ zdrop (cur_ b + len) (data_ b)) (cur_ b + len))
    else throw Undefined
  else ret tt.

(** ** LogStream: its buffer *)

Definition put_bool (v : bool) : M FixedBuffer unit := append (ptr_to (if v then [x31] else [x30])) 1.
Definition put_char (v : byte) : M FixedBuffer unit := append (ptr_to [v]) 1.
(** A C string: the bytes before its NUL. *)
Definition put_cstr (v : list byte) : M FixedBuffer unit := append (ptr_to (v ++ [x00])) (Zlen v).
Definition put_string (v : list byte) : M FixedBuffer unit := append (ptr_to (v ++ [x00])) (Zlen v).
(** [append(data, len)], [len] an [int]. *)
Definition append_int (data : cptr) (len : Z) : M FixedBuffer unit := append data (u64 len).

Definition put_piece (v : StringPiece.t) : M FixedBuffer unit := append (StringPiece.data v) (u64 (StringPiece.size v)).
(** [Fmt]: 32 bytes and the length that its constructor, which is not in the
    repository, has printed. *)
Record Fmt : Type := mkFmt { buf_ : list byte; fmt_length_ : Z }.
Definition put_Fmt (fmt : Fmt) : M FixedBuffer unit := append_int (ptr_to (buf_ fmt)) (fmt_length_ fmt).
Definition resetBuffer : M FixedBuffer unit := modify reset.

Inductive item : Type :=
| Bool (v : bool) | Char (v : byte) | CStr (v : list byte) | String_ (v : list byte)
| Piece (v : StringPiece.t) | Formatted (v : Fmt).
Definition put_item (i : item) : M FixedBuffer unit :=
  match i with
  | Bool v => put_bool v
  | Char v => put_char v
  | CStr v => put_cstr v
  | String_ v => put_string v
  | Piece v => put_piece v
  | Formatted v => put_Fmt v
  end.
Definition item_bytes (i : item) : list byte :=
  match i with
  | Bool v => if v then [x31] else [x30]
  | Char v => [v]
  | CStr v | String_ v => v
  | Piece v => if StringPiece.size v <? 0 then []
               else zslice (c_off (StringPiece.data v)) (StringPiece.size v) (c_block (StringPiece.data v))
  | Formatted v => ztake (fmt_length_ v) (buf_ v)
  end.
(** What may be inserted: a piece is within its memory, or has a negative
    length; [Fmt] has printed what fits. *)
Definition item_ok (i : item) : Prop :=
  match i with
  | Piece v => - 2 ^ 31 <= StringPiece.size v < 2 ^ 31 /\
      (0 <= StringPiece.size v -> 0 <= c_off (StringPiece.data v) /\
         c_off (StringPiece.data v) + StringPiece.size v <= Zlen (c_block (StringPiece.data v)))
  | Formatted v => Zlen (buf_ v) = 32 /\ 0 <= fmt_length_ v < 32
  | _ => Zlen (item_bytes i) < 2 ^ 63
  end.

(** ** What the line holds *)

Record wf b : Prop := {
  wf_data : Zlen (data_ b) = SIZE;
  wf_cur : 0 <= cur_ b < SIZE;
  wf_size : SIZE < 2 ^ 31 }.
Definition content b : list byte := ztake (cur_ b) (data_ b).

(** The reference: a chunk is taken whole when a byte stays free, and left
    out otherwise. *)
Definition take_chunk (line chunk : list byte) : list byte :=
  if Zlen line + Zlen chunk <? SIZE then line ++ chunk else line.

Lemma wp_append buf len d b : wf b -> load buf len = Ok d -> 0 <= len < 2 ^ 63 ->
  wp (append buf len) (fun _ b' => wf b' /\ content b' = take_chunk (content b) d) b.
Proof.
  intros [W1 W2 W3] Hd Hlen. pose proof Hd as Hl. unfold load in Hl. destruct (_ && _) eqn:E in Hl; [|done]. to_prop.
  injection Hl as Hl. assert (Zlen d = len) as Hdl by (rewrite <- Hl; rewrite Zlen_zslice; lia).
  unfold append. wp_steps. unfold avail. rewrite s32_small, u64_small by lia.
  assert (Zlen (content b) = cur_ b) as Hc by (unfold content; rewrite Zlen_ztake; lia).
  unfold take_chunk. rewrite Hc, Hdl. destruct (Z.ltb_spec len (SIZE - cur_ b)).
  - wp_steps. eapply wp_lift; [exact Hd|]. rewrite (proj2 (Z.leb_le _ _)), (proj2 (Z.leb_le _ _)) by lia. cbn [andb]. wp_steps.
    rewrite (proj2 (Z.ltb_lt _ _)) by lia. unfold content; cbn [data_ cur_]. split.
    + constructor; cbn [data_ cur_]; [|lia|done]. rewrite !Zlen_app, Zlen_ztake, Zlen_zdrop; lia.
    + rewrite ztake_app_r by (rewrite Zlen_ztake; lia). f_equal. rewrite Zlen_ztake by lia.
      rewrite ztake_app_l by lia. apply ztake_ge. lia.
  - rewrite (proj2 (Z.ltb_ge _ _)) by lia. wp_steps. done.
Qed.

(** A length that is negative as an [int] is too long as a [size_t]. *)
Lemma wp_append_negative buf len b : wf b -> - 2 ^ 31 <= len < 0 -> wp (append buf (u64 len)) (fun _ b' => b' = b) b.
Proof.
  intros [W1 W2 W3] Hlen. unfold append. wp_steps. unfold avail. rewrite s32_small by lia. rewrite (u64_small (SIZE - cur_ b)) by lia.
  assert (u64 len = 2 ^ 64 + len) as ->.
  { unfold u64. replace len with ((2 ^ 64 + len) + (-1) * 2 ^ 64) at 1 by lia. rewrite Z_mod_plus_full. apply Z.mod_small. lia. }
  rewrite (proj2 (Z.ltb_ge _ _)) by lia. by wp_steps.
Qed.

Lemma wp_put_item i b : wf b -> item_ok i ->
  wp (put_item i) (fun _ b' => wf b' /\ content b' = take_chunk (content b) (item_bytes i)) b.
Proof.
  intros Hw Hi. pose proof (Zlen_nonneg (item_bytes i)).
  assert (forall v : list byte, load (ptr_to (v ++ [x00])) (Zlen v) = Ok v) as Hs.
  { intros v. pose proof (Zlen_nonneg v).
    rewrite load_ok; cbn [ptr_to c_off c_block]; rewrite ?Zlen_app; change (Zlen [x00]) with 1; try lia.
    unfold zslice. rewrite zdrop_0, ztake_app_l, ztake_ge by lia. done. }
  destruct i as [[]|v|v|v|v|v]; cbn [put_item item_bytes item_ok] in *; try (apply wp_append; try done; apply Hs).
  - destruct Hi as [Hr Hp]. unfold put_piece. destruct (Z.ltb_spec (StringPiece.size v) 0).
    + eapply wpe_mono; [apply wp_append_negative; [done|lia]|]. cbn beta. intros _ b' ->. split; [done|].
      unfold take_chunk. rewrite Zlen_nil, app_nil_r. by case_match.
    + rewrite u64_small by lia. destruct Hp as [Hp1 Hp2]; [done|]. apply wp_append; [done|by apply load_ok|lia].
  - destruct Hi as [Hl Hn]. unfold put_Fmt, append_int. rewrite u64_small by lia. apply wp_append; [done| |lia].
    rewrite load_ok; cbn [ptr_to c_off c_block]; [|lia..]. unfold zslice. by rewrite zdrop_0.
Qed.

(** C36: Inserting into a log stream never writes outside of its buffer, and
    never fails: each item is added whole or, when it would fill the
    buffer, left out whole, with the items after it still tried; so the
    line is what [take_chunk] makes of the items. *)
Theorem insert_items items b : wf b -> Forall item_ok items ->
  wp (for_each put_item items) (fun _ b' => wf b' /\
    content b' = foldl take_chunk (content b) (item_bytes <$> items) /\
    Zlen (content b') < SIZE /\ asString b' = Ok (content b')) b.
Proof.
  intros Hw Hi. eapply wpe_mono.
  - apply (wpe_for_each_split _ (fun done left b' => wf b' /\ content b' = foldl take_chunk (content b) (item_bytes <$> done))).
    + intros done i left b1 -> [H1 H2]. apply list.Forall_app in Hi as [_ Hi]. apply list.Forall_cons in Hi as [Hi _].
      eapply wpe_mono; [by apply wp_put_item|]. cbn. intros _ b2 [? ->]. split; [done|].
      by rewrite fmap_app, foldl_app, H2.
    + done.
  - cbn. intros _ b' [[W1 W2 W3] Hc]. split; [done|]. split; [done|]. split.
    + unfold content. rewrite Zlen_ztake; lia.
    + unfold asString, length_. rewrite s32_small by lia.
      rewrite (proj2 (Z.leb_le _ _)), (proj2 (Z.leb_le _ _)) by lia. done.
Qed.
End buffer.

Definition sample_items : list item :=
  [CStr [x61; x62]; CStr (replicate 9 x63); Bool true; Piece (StringPiece.mk (CPtr [x65; x66] 1) 1);
   Piece (StringPiece.mk null_ptr (-1)); Formatted (mkFmt (replicate 32 x30) 2); Char x64].
Lemma insert_items_witness : exists b,
  for_each (put_item 8) sample_items (make (replicate 8 x00)) = Ok (tt, b) /\
  content b = [x61; x62; x31; x66; x30; x30; x64].
Proof.
  destruct (wp_elim _ _ _ (insert_items 8 sample_items (make (replicate 8 x00))
    ltac:(constructor; vm_compute; repeat split; congruence) ltac:(repeat constructor; vm_compute; congruence)))
    as ([] & b & E & _ & Hc & _).
  exists b. split; [exact E|]. rewrite Hc. vm_compute. reflexivity.
Defined.

(** ** Logger: the level *)

Inductive LogLevel : Type := TRACE | DEBUG | INFO | WARN | ERROR | FATAL | NUM_LOG_LEVELS.
Definition level_value (l : LogLevel) : Z :=
  match l with TRACE => 0 | DEBUG => 1 | INFO => 2 | WARN => 3 | ERROR => 4 | FATAL => 5 | NUM_LOG_LEVELS => 6 end.

(** Whether the macro [LOG_<l>] makes a Logger when [g_logLevel] is [g]: the
    first three test the level, the others do not. *)
Definition logged (g l : LogLevel) : bool :=
  match l with
  | TRACE | DEBUG | INFO => level_value g <=? level_value l
  | _ => true
  end.

(** A higher level lets no more lines through; what is more severe than a
    line that is let through is let through; no level holds back a warning,
    an error or a fatal message. *)
Lemma logged_monotone g g' l l' : level_value g <= level_value g' -> level_value l <= level_value l' ->
  logged g' l = true -> logged g l' = true.
Proof. destruct l, l'; cbn [logged level_value]; rewrite ?Z.leb_le; try done; lia. Qed.
Lemma warnings_logged g l : 3 <= level_value l -> logged g l = true.
Proof. by destruct l. Qed.

(** ** Logger::SourceFile *)

(** strrchr(3): the position of the last [c]. *)
Fixpoint strrchr (c : byte) (s : list byte) : option Z :=
  match s with
  | [] => None
  | b :: s =>
      match strrchr c s with
      | Some i => Some (i + 1)
      | None => if decide (b = c) then Some 0 else None
      end
  end.
Definition slash : byte := x2f.

(** The text [data_] points to and [size_]; [arr] without its NUL. *)
Definition SourceFile_array (arr : list byte) : list byte * Z :=
  match strrchr slash arr with
  | Some i => (zdrop (i + 1) arr, Zlen arr - s32 (i + 1))
  | None => (arr, Zlen arr)
  end.
Definition SourceFile_filename (filename : list byte) : list byte * Z :=
  let data := match strrchr slash filename with Some i => zdrop (i + 1) filename | None => filename end in
  (data, s32 (Zlen data)).

(** CheckNotNull: a null pointer is fatal. *)
Definition CheckNotNull {A} (ptr : option A) : result A :=
  match ptr with Some a => Ok a | None => Err Aborted end.

Lemma strrchr_some c s i : strrchr c s = Some i ->
  0 <= i < Zlen s /\ exists d, s = d ++ c :: zdrop (i + 1) s /\ c ∉ zdrop (i + 1) s.
Proof.
  revert i. induction s as [|b s IH]; intros i; cbn [strrchr]; [done|].
  assert (strrchr c s = None -> c ∉ s) as Hnone.
  { clear IH. induction s as [|x s IH]; [intros _; apply not_elem_of_nil|]. cbn. destruct (strrchr c s); [done|].
    case_decide; [done|]. intros _. apply not_elem_of_cons. split; [congruence|by apply IH]. }
  rewrite Zlen_cons. destruct (strrchr c s) as [j|] eqn:E.
  - intros [= <-]. destruct (IH j eq_refl) as [Hj (d & Hd & Hn)]. split; [lia|].
    assert (zdrop (j + 1 + 1) (b :: s) = zdrop (j + 1) s) as ->.
    { unfold zdrop. replace (Z.to_nat (j + 1 + 1)) with (S (Z.to_nat (j + 1))) by lia. done. }
    exists (b :: d). split; [|done]. cbn. by rewrite <- Hd.
  - case_decide as Eb; [|done]. intros [= <-]. pose proof (Zlen_nonneg s). split; [lia|]. exists [].
    change (zdrop (0 + 1) (b :: s)) with s. subst b. split; [done|]. by apply Hnone.
Qed.

(** The two ways to name a source file agree, and give its base name: what
      follows the last slash, with its length. *)
Theorem SourceFile_basename f : Zlen f < 2 ^ 31 ->
  SourceFile_array f = SourceFile_filename f /\
  exists dir, f = dir ++ fst (SourceFile_array f) /\ slash ∉ fst (SourceFile_array f) /\
    snd (SourceFile_array f) = Zlen (fst (SourceFile_array f)).
Proof.
  intros Hf. pose proof (Zlen_nonneg f). unfold SourceFile_array, SourceFile_filename.
  destruct (strrchr slash f) as [i|] eqn:E.
  - destruct (strrchr_some _ _ _ E) as [Hi (d & Hd & Hn)]. cbn [fst snd]. rewrite Zlen_zdrop by lia.
    rewrite !s32_small by lia. split; [done|]. exists (d ++ [slash]). rewrite <- app_assoc. done.
  - cbn [fst snd]. rewrite s32_small by lia. split; [done|]. exists []. split; [done|]. split; [|done].
    clear -E. induction f as [|b f IH]; [apply not_elem_of_nil|]. cbn in E. destruct (strrchr slash f); [done|].
    case_decide; [done|]. apply not_elem_of_cons. split; [congruence|by apply IH].
Qed.

Lemma SourceFile_basename_witness :
  exists dir, [x61; slash; x62; x63] = dir ++ [x62; x63] /\ SourceFile_filename [x61; slash; x62; x63] = ([x62; x63], 2).
Proof.
  destruct (SourceFile_basename [x61; slash; x62; x63] ltac:(vm_compute; reflexivity)) as [E (dir & Hd & _)].
  exists dir. split; [exact Hd|]. rewrite <- E. vm_compute. reflexivity.
Defined.
End LogStream.
